(* ===== verification/_CoqProject ===== *)
-Q . S2P
Prelude.v
Keys.v
Proto.v
Errors.v
Codec.v
Ranges.v
BTree.v
Timestamps.v
Kv.v
Keyspaces.v
Regions.v
Sharding.v
Backoffs.v
KeyFlags.v
Buffers.v
Latches.v
LatchProgress.v
Locks.v
Requests.v
Effects.v
Pipelined.v
Plans.v
Semaphores.v
Concurrency.v
PlanBuilders.v
LockPlans.v
TxnPlans.v
RawRequests.v
RawClient.v
RawMap.v
ReadRouting.v
Backoffers.v
Tso.v
SafeTs.v
PdCluster.v
Connections.v
BatchCommands.v
StoreRequests.v
Commits.v
CommitPlans.v
Transactions.v
RollbackPlans.v
Heartbeats.v
Clients.v
ScanPlans.v
AllStores.v
Contexts.v
TxnSettings.v
Deadlocks.v
KeyspaceDecoding.v
GcTime.v
Oracles.v
ReadTsValidation.v
RunLoops.v
Utilities.v
TimeDetails.v
Settings.v
