(* ===== verification/Prelude.v ===== *)
(** * A verification library for the Rust TiKV client

    The client (src/src/) offers a raw key-value interface and distributed transactions on TiKV.
    PD names the region and the stores of a key and hands out timestamps; every request is cut into
    shards, one per region, and sent to a peer of that region; errors about regions, stores and
    locks are handled on the way and the request is tried again.  A transaction buffers writes
    and commits them by a two-phase protocol (one-phase, async and pipelined variants).

    The development is a shallow embedding: a function of the source is a Rocq function with its
    name, a struct a record, an enum an inductive type.  A machine integer is a [Z] with its
    wrapping or saturating operations written out, a byte string a list of integers, a [HashMap] a
    [gmap], a [BTreeMap] the sorted list of BTree.v.  Errors are values of [result], a panic is [None]
    or a constructor of its own.  Code outside src/ (gRPC, PD, the stores, clocks, random draws) is an
    argument of the definitions that use it; what a theorem needs of it is one of its hypotheses.

    ** Files and what they model

    Foundations.
    - Prelude.v: results, machine integers, tactics, lemmas on lists.
    - Keys.v (kv/key.rs): keys and their order.  Codec.v (kv/codec.rs): the memcomparable encoding.
      Ranges.v (kv/bound_range.rs): ranges.  Kv.v (kv/kvpair.rs, kv/options.rs).  BTree.v: ordered maps.
    - Proto.v (generated/): the messages the client reads.  Errors.v (common/errors.rs).
      Timestamps.v (timestamp.rs).  Keyspaces.v, KeyspaceDecoding.v (request/keyspace.rs).

    Finding data.
    - Regions.v (region.rs, region_cache.rs): the region cache and the merging of concurrent loads.
    - Sharding.v (pd/client.rs, request/shard.rs, store/mod.rs, compat.rs): cutting requests.
    - ReadRouting.v (request/read_routing.rs, request/pending_backoff.rs, store/health.rs): the replica of a read.
    - PdCluster.v (pd/cluster.rs, pd/retry.rs): the connection to PD.  Tso.v (pd/timestamp.rs): the batching
      timestamp oracle.  SafeTs.v (store/safe_ts.rs): safe timestamps of stores.
    - Connections.v (pd/client.rs): the connections to stores, one per address, shared by concurrent tasks.
    - Oracles.v (timestamp/local_oracle.rs, pd/stale_timestamp.rs, pd/low_resolution_ts.rs) and ReadTsValidation.v
      (pd/read_ts_validation.rs): the auxiliary oracles and the validation of read timestamps.

    Executing requests.
    - Backoffs.v (backoff.rs), Backoffers.v (backoffer.rs): waiting and its budgets.
    - Contexts.v (request_context.rs, interceptor.rs, store/request.rs, store/mod.rs,
      request/plan_builder.rs): what is written into the context of a request.
    - Plans.v, LockPlans.v (request/plan.rs, store/errors.rs): execution over regions, errors, locks, merging.
    - Semaphores.v: the permits of plans, on any semaphore that behaves as documented.  Concurrency.v, AllStores.v (request/plan.rs): the handlers of a request over regions
      and of one to all stores as futures that are polled in any order, under these permits.
    - PlanBuilders.v (request/plan_builder.rs, request/shard.rs): how plans are nested, and what must be attached to them.
    - TxnPlans.v (request/shard.rs, transaction/requests.rs, request/plan.rs): the trait [Shardable], every
      transactional request and plan that implements it, and the plans that transactions run.
    - BatchCommands.v (store/batch_commands.rs, store/client.rs): the stream that requests to a store share.
      StoreRequests.v (store/request.rs): the types of request, their calls and their commands on the stream.

    Raw access.
    - RawRequests.v (raw/requests.rs, raw/lowering.rs, raw/mod.rs), RawClient.v (raw/client.rs).  RawMap.v: the maps of the column
      families, which the raw client reads and writes.

    Transactions.
    - KeyFlags.v, Buffers.v (transaction/key_flags.rs, transaction/buffer.rs): writes and cached reads.
    - Latches.v, LatchProgress.v (transaction/latch.rs): local serialisation of commits.
    - Locks.v (transaction/lock.rs): resolving the locks of others.
    - Requests.v (transaction/requests.rs): requests and merging of their answers.
    - Effects.v: the monad of transactions, with the record [Cluster] of what the outside answers and the
      trace of events.  Pipelined.v (transaction/pipelined.rs), Commits.v ([Committer]), Transactions.v
      ([Transaction]) and Heartbeats.v (transaction/transaction.rs).
    - CommitPlans.v, RollbackPlans.v (transaction/transaction.rs): the plans of the committer, between Commits.v,
      Transactions.v and TxnPlans.v.
    - TxnSettings.v (transaction/transaction.rs, request/mod.rs): the builders of options and the setters of transactions.
    - Clients.v (transaction/client.rs, transaction/snapshot.rs): the client and snapshots.
    - ScanPlans.v (transaction/transaction.rs, transaction/requests.rs): the plan of a scan, between Buffers.v and Plans.v.
    - Deadlocks.v (mock/deadlock_detector.rs): the wait-for graph of the mock store.

    Around them.
    - GcTime.v (util/gc_time.rs): the text form of the times of the gc worker.
    - RunLoops.v (util/async_util.rs): single-shot callbacks and the run loop.
    - Utilities.v (util/rate_limit.rs, util/iter.rs, util/request_source.rs, resource_control.rs).
    - TimeDetails.v (util/time_detail.rs): the display of times, through 64-bit floats.
    - Settings.v (config.rs, common/security.rs, trace.rs): paths, configuration, endpoints, trace events.

    ** How the parts meet

    A class states what one part promises to another, and the part's file discharges it:
    - [RegionLookup] (Sharding.v), provided by the region cache through the codec;
    - [Shardable] and [Keyed] (TxnPlans.v): from a request that is cut by keys, through the plans that wrap it, to
      [Partitions] (Plans.v), what the execution over regions asks of a plan;
    - [RegionBorders] (ScanPlans.v): from region lookups to [PartitionsUpTo], the same for ranges, whose parts may overlap;
    - [Semaphore.Ops], [Semaphore.Laws] (Semaphores.v), the semaphore of the runtime as a parameter with its documented behaviour, and
      [Semaphore.Lawful], what the permits ask of the tasks that use them;
    - [LockResponse] (LockPlans.v), what lock resolution asks of a response;
    - [StoreCluster] (CommitPlans.v) and [RollbackCluster] (RollbackPlans.v): from the plans to the record [Cluster]
      (Effects.v) that the committer runs against.
    Commits.v and Transactions.v share the monad of Effects.v.  The raw client and Clients.v take the answers of
    plans, whose properties are those of Plans.v and LockPlans.v.  The sequential execution of Plans.v is the specification of
    the interleaved one: Concurrency.v carries its theorems over to every schedule.  The theorem on snapshots goes through the
    buffer and the keyspace encoding to the answers of stores.  The iterator of Utilities.v is shown equal to the
    function that the merges of responses use.

    ** What the theorems show

    - Atomicity and outcome of commits: refinement of a protocol, all-or-nothing commit, no commit
      after a rollback, bounds on the timestamps of prewrites, one-phase commit only for whole
      transactions, heartbeats while and only while locks are held (Commits, Transactions, Requests, Heartbeats).
    - Commits down to the stores: a commit that returns has prewritten every mutation at some store without an error, and
      its timestamp comes from them or from the store that committed the primary (CommitPlans); a rollback that returns
      has rolled back every key at some store (RollbackPlans).
    - Isolation in the process: latches exclude each other, no sleeping transaction is forgotten, and all of them get through
      in finitely many steps (Latches, LatchProgress).
    - Reads: the buffer refines a view of own writes over a snapshot, scans are complete, and every
      sequence of reads on a snapshot returns the data at its timestamp (Buffers, Clients).  A scan is exact although its
      plan returns unsorted, unlimited and overlapping parts (ScanPlans).
    - Locks of others: one outcome per transaction, recovery of async commits, clean-up complete and
      before the safepoint advances (Locks, LockPlans, Clients).
    - Requests: execution over regions sends every part once, returns when it can and ends; the cache of regions keeps
      its invariant and refines an abstract one; sharding loses nothing; replicas are chosen by the
      rules of the mode; contexts hold what was set; interceptors run in link order (Plans, Regions,
      Sharding, ReadRouting, Contexts).
    - Concurrency: in every schedule the permits bound the requests in flight and none is lost, the result is one of the
      sequential execution, and only stores or PD can make a schedule longer than a bound (Concurrency, AllStores).
    - Building plans: no plan that the builder can make is executed without its client, shard or store, but for one order
      of calls (PlanBuilders); requests reach the call or the stream command of their own type (StoreRequests).
    - Options and settings: what every sequence of calls of the builders leaves, and what the stores get (TxnSettings).
    - Raw access: the client refines a map per column family, whose entries may expire (RawMap); scans are exact unless a region
      changes between the two lookups of a scan; checksums over many regions (RawClient, RawRequests).
    - Plans of transactions: pessimistic locks over many regions are reported key by key, and after a partial failure
      the error names the keys to roll back; the verdict on an async commit rests on all secondaries;
      point and batch reads return what the stores said (TxnPlans).
    - PD and stores: one connection per store address; unique, increasing timestamps in request order; retries are bounded; the client never
      changes its cluster, and its requests carry the id of the cluster to the leader it was told; safe timestamps are minima of what PD and the stores answered; each batched request is answered once and by
      its own response (Connections, Tso, PdCluster, SafeTs, BatchCommands).
    - Auxiliary oracles: increasing local timestamps, bounds of the adaptive interval, no checked and accepted read
      in the future (Oracles, ReadTsValidation).
    - Utilities: tasks of the run loop run in order and once, callbacks fire once, tokens are conserved, gc times survive
      printing and parsing, paths parse to their parts, the configured scheme is used, times are displayed
      (RunLoops, Utilities, GcTime, Settings, TimeDetails).
    - Data: codec round trip and order, keyspace isolation and round trip (Codec, Keyspaces, KeyspaceDecoding).
    - Termination and budgets of retries; the deadlock detector (Backoffers, Plans, Deadlocks).
    Statements after the main theorems of a file show runs in which the code does something else than its
    comments or its users expect.

    ** Fuel and bounds

    Loops with a decreasing argument are structural.  Where the source loops on what it is answered, a
    definition takes a fuel, running out of it is a value of its own ([Running], or an outer [None]), and a
    theorem gives a fuel that is enough: the attempts left of a backoff for plans and store
    tasks (and, over regions, the depth of the retry tree from which errors make requests wait), one round per
    region for scans, the number of keys or locks for clean-up, one more than the number of waiting transactions for the deadlock search, the length of the input for the codec.
    Concurrent code is a step relation whose steps are the critical sections; its theorems hold in
    every reachable state.

    ** Not modelled

    - gRPC, TLS and the file system: they are arguments.  Generated code (generated/) encodes messages; the messages the client
      reads are records, their encoding is not modelled.
    - Metrics and statistics (metrics.rs, stats.rs, request/metrics_collector.rs): counters that no modelled code reads.
    - [Debug] and [Display] of messages and errors, and the conversions between error types of libraries.
    - The mocks (mock.rs, mock/), other than the deadlock detector: they stand for stores in tests.
    - Memory ordering: atomics are read and written in one step, and the steps of a relation interleave.
    The functions of transaction/lowering.rs and raw/lowering.rs, which convert arguments and call the constructor of the same
    name, are part of those constructors (Requests.v, RawRequests.v). *)

From stdpp Require Export base list numbers option gmap strings.
From Stdlib Require Export ZArith Lia.
#[global] Open Scope Z_scope.

(** ** Results

    [Result<T, E>]: [Ok] carries a value, [Err] an error.  The error comes first
    so that [result E] is a functor and stdpp's monad notation applies to it. *)

Inductive result (E A : Type) : Type :=
| Ok (a : A)
| Err (e : E).
Arguments Ok {E A} _.
Arguments Err {E A} _.

#[export] Instance result_ret E : MRet (result E) := λ A a, Ok a.
#[export] Instance result_bind E : MBind (result E) := λ A B f m,
  match m with Ok a => f a | Err e => Err e end.
#[export] Instance result_fmap E : FMap (result E) := λ A B f m,
  match m with Ok a => Ok (f a) | Err e => Err e end.

Definition is_ok {E A} (r : result E A) : bool :=
  match r with Ok _ => true | Err _ => false end.

(** [Result::ok], [Result::map_err], [Option::ok_or] *)
Definition ok {E A} (r : result E A) : option A :=
  match r with Ok a => Some a | Err _ => None end.
Definition map_err {E F A} (f : E → F) (r : result E A) : result F A :=
  match r with Ok a => Ok a | Err e => Err (f e) end.
Definition ok_or {E A} (o : option A) (e : E) : result E A :=
  match o with Some a => Ok a | None => Err e end.

(** ** Machine integers

    A [w]-bit unsigned integer is a [Z] in [0, 2^w); the operations below are
    the ones of [u64], [i64] and [u32] that the client uses. *)

Definition u64_max : Z := 18446744073709551615.
Definition i64_max : Z := 9223372036854775807.
Definition u32_max : Z := 4294967295.

Definition in_u64 (z : Z) : Prop := 0 ≤ z ≤ u64_max.
Definition in_i64 (z : Z) : Prop := - i64_max - 1 ≤ z ≤ i64_max.

Definition wrap_u64 (z : Z) : Z := z mod 18446744073709551616.
Definition wrap_u32 (z : Z) : Z := z mod 4294967296.
(** [v as i64] of a [u64] (or wider) value: two's complement reinterpretation. *)
Definition as_i64 (z : Z) : Z :=
  let m := wrap_u64 z in if m <=? i64_max then m else m - 18446744073709551616.

Definition sat_add_u64 (a b : Z) : Z := Z.min (a + b) u64_max.
Definition sat_sub_u64 (a b : Z) : Z := Z.max (a - b) 0.
Definition sat_mul_u64 (a b : Z) : Z := Z.min (a * b) u64_max.
Definition sat_add_u32 (a b : Z) : Z := Z.min (a + b) u32_max.
Definition sat_add_i64 (a b : Z) : Z := Z.max (- i64_max - 1) (Z.min (a + b) i64_max).

(** [u64::try_from] and [i64::try_from] on a wider integer. *)
Definition try_u64 (z : Z) : option Z :=
  if (0 <=? z) && (z <=? u64_max) then Some z else None.
Definition try_i64 (z : Z) : option Z :=
  if (- i64_max - 1 <=? z) && (z <=? i64_max) then Some z else None.

(** Bitwise complement of a byte, [!b] on [u8]. *)
Definition not_u8 (b : Z) : Z := Z.land (Z.lnot b) 255.

Definition in_u8 (b : Z) : Prop := 0 ≤ b < 256.

Create HintDb machine.
#[export] Hint Unfold in_u64 in_i64 in_u8 u64_max i64_max u32_max : machine.

(** [lia] after unfolding the width constants and the saturating operations. *)
Ltac word_lia :=
  unfold in_u64, in_i64, in_u8, sat_add_u64, sat_sub_u64, sat_mul_u64, sat_add_u32,
    sat_add_i64, u64_max, i64_max, u32_max in *; lia.

(** Case analysis on the boolean integer comparisons of the code. *)
Ltac case_zb :=
  match goal with
  | |- context [?a <? ?b] => destruct (Z.ltb_spec a b)
  | |- context [?a <=? ?b] => destruct (Z.leb_spec a b)
  | |- context [?a =? ?b] => destruct (Z.eqb_spec a b)
  | H : context [?a <? ?b] |- _ => destruct (Z.ltb_spec a b)
  | H : context [?a <=? ?b] |- _ => destruct (Z.leb_spec a b)
  | H : context [?a =? ?b] |- _ => destruct (Z.eqb_spec a b)
  end.
Ltac case_zbs := repeat case_zb.

(** Inversion of the [Ok]/[Err]/[Some] equations that evaluating a fallible
    function leaves behind. *)
Ltac inv_res :=
  repeat match goal with
  | H : Ok _ = Ok _ |- _ => injection H as H; subst
  | H : Err _ = Err _ |- _ => injection H as H; subst
  | H : Some _ = Some _ |- _ => injection H as H; subst
  | H : (_, _) = (_, _) |- _ => injection H as H; subst
  | H : Ok _ = Err _ |- _ => discriminate H
  | H : Err _ = Ok _ |- _ => discriminate H
  | H : Some _ = None |- _ => discriminate H
  | H : None = Some _ |- _ => discriminate H
  end.

Lemma not_u8_sub b : in_u8 b → not_u8 b = 255 - b.
Proof.
  intros Hb. unfold not_u8. change 255 with (Z.ones 8).
  rewrite Z.land_ones by lia. unfold Z.lnot. unfold in_u8 in Hb.
  symmetry. apply Z.mod_unique with (-1); change (2 ^ 8) with 256; change (Z.ones 8) with 255; lia.
Qed.

Lemma not_u8_range b : in_u8 (not_u8 b).
Proof.
  unfold not_u8, in_u8. change 255 with (Z.ones 8). rewrite Z.land_ones by lia.
  apply Z.mod_pos_bound. lia.
Qed.

Lemma not_u8_involutive b : in_u8 b → not_u8 (not_u8 b) = b.
Proof.
  intros Hb. rewrite not_u8_sub by apply not_u8_range. rewrite not_u8_sub by done. lia.
Qed.

Lemma wrap_u64_small z : in_u64 z → wrap_u64 z = z.
Proof. intros. unfold wrap_u64. apply Z.mod_small. word_lia. Qed.

(** The bound is kept abstract: evaluating it would make the proof term slow to check. *)
Lemma sat_add_i64_ge a b x j : 0 ≤ j → x ≤ i64_max → x ≤ sat_add_i64 a b →
  x ≤ sat_add_i64 (sat_add_i64 a b) j.
Proof. unfold sat_add_i64. generalize i64_max. intros m. lia. Qed.

Lemma as_i64_small z : 0 ≤ z ≤ i64_max → as_i64 z = z.
Proof.
  intros. unfold as_i64. rewrite wrap_u64_small by word_lia. case_zb; [done | lia].
Qed.

Lemma as_i64_high z : i64_max < z ≤ u64_max → as_i64 z = z - 18446744073709551616.
Proof.
  intros. unfold as_i64. rewrite wrap_u64_small by word_lia. case_zb; [lia | done].
Qed.

Lemma try_u64_Some z z' : try_u64 z = Some z' ↔ z' = z ∧ in_u64 z.
Proof.
  unfold try_u64. destruct (Z.leb_spec 0 z), (Z.leb_spec z u64_max); simpl;
    split; intros; destruct_and?; simplify_eq; unfold in_u64 in *; auto; lia.
Qed.

#[export] Hint Resolve not_u8_range not_u8_involutive : machine.

(** ** Generic lemmas on lists *)

Lemma take_drop_app {A} (n : nat) (l k : list A) :
  length l = n → take n (l ++ k) = l ∧ drop n (l ++ k) = k.
Proof. intros <-. split; [apply take_app_length | apply drop_app_length]. Qed.

Lemma filter_all {A} (f : A → bool) L : Forall (λ p, f p = true) L → List.filter f L = L.
Proof. induction 1 as [|x L H _ IH]; simpl; [done|]. by rewrite H, IH. Qed.
Lemma filter_none {A} (f : A → bool) L : Forall (λ p, f p = false) L → List.filter f L = [].
Proof. induction 1 as [|x L H _ IH]; simpl; [done|]. by rewrite H. Qed.

Lemma filter_negb_length {A} (f : A → bool) (l : list A) :
  (length (List.filter f l) + length (List.filter (λ x, negb (f x)) l) = length l)%nat.
Proof. induction l as [|x l IH]; simpl; [done|]. destruct (f x); simpl; lia. Qed.

Lemma replicate_shift {A} (n : nat) (x : A) l :
  replicate n x ++ x :: l = x :: replicate n x ++ l.
Proof. induction n; simpl; congruence. Qed.

Lemma and_iff_both (P Q R S : Prop) : (P ↔ R) → (Q ↔ S) → (P ∧ Q ↔ R ∧ S).
Proof. tauto. Qed.

(** ** Executions of step functions

    Tasks that interleave are modelled by a step function on their shared state; an
    execution is a list of events each of which can happen. *)
Section runs.
Context {S E : Type} (step : S → E → option S).

Definition run_steps (s : S) (es : list E) : option S := foldl (λ s e, s ← s; step s e) (Some s) es.

Lemma run_steps_cons s e es : run_steps s (e :: es) = s' ← step s e; run_steps s' es.
Proof. unfold run_steps. cbn. destruct (step s e); cbn; [done|]. by induction es. Qed.

(** A reflexive and transitive relation that every step from a good state respects. *)
Lemma run_steps_rel (I : S → Prop) (R : relation S) `{!PreOrder R} :
  (∀ s e s', I s → step s e = Some s' → I s' ∧ R s s') →
  ∀ es s s', I s → run_steps s es = Some s' → I s' ∧ R s s'.
Proof.
  intros Hstep es. induction es as [|e es IH]; intros s s' Hs; [by intros [= <-]|].
  rewrite run_steps_cons. destruct (step s e) as [s1|] eqn:E1; [|done]. cbn. intros Hr.
  destruct (Hstep s e s1 Hs E1) as [H1 R1]. destruct (IH s1 s' H1 Hr) as [? ?]. split; [done|]. by transitivity s1.
Qed.

Lemma run_steps_inv (I : S → Prop) : (∀ s e s', I s → step s e = Some s' → I s') →
  ∀ es s s', I s → run_steps s es = Some s' → I s'.
Proof.
  intros Hstep es s s' Hs Hr. assert (PreOrder (λ _ _ : S, True)) by done.
  apply (run_steps_rel I (λ _ _, True) (λ s e s' Hi He, conj (Hstep s e s' Hi He) Logic.I) es s s' Hs Hr).
Qed.
End runs.
