(* ===== verification/Keys.v ===== *)
(** * Keys (src/src/kv/key.rs)

    A [Key] is an owned byte string; [Ord] on it is the lexicographic order of
    [Vec<u8>].  This file has the order with its decision procedures, the key
    operations of [impl Key], and the facts on [next_key] and [next_prefix_key]
    that range scans and the pipelined flush range rest on. *)

From S2P Require Import Prelude.

(** [pub struct Key(pub(crate) Vec<u8>)]; [Value] is [Vec<u8>] too. *)
Abbreviation Key := (list Z) (only parsing).
Abbreviation Value := (list Z) (only parsing).

(** Every element of the vector is a [u8]. *)
Definition wf_key (k : Key) : Prop := Forall in_u8 k.

#[global] Arguments Z.compare : simpl never.

Module KeyOrder.

(** [Ord::cmp] on [Vec<u8>]: lexicographic, a proper prefix is smaller. *)
Fixpoint compare (a b : list Z) : comparison :=
  match a, b with
  | [], [] => Eq
  | [], _ :: _ => Lt
  | _ :: _, [] => Gt
  | x :: a', y :: b' =>
      match Z.compare x y with Eq => compare a' b' | c => c end
  end.

Definition lt (a b : list Z) : Prop := compare a b = Lt.
Definition le (a b : list Z) : Prop := compare a b ≠ Gt.

Lemma compare_refl a : compare a a = Eq.
Proof. induction a as [|x a IH]; simpl; [done|]. by rewrite Z.compare_refl. Qed.

Lemma compare_eq a b : compare a b = Eq → a = b.
Proof.
  revert b; induction a as [|x a IH]; intros [|y b]; simpl; try done.
  destruct (Z.compare_spec x y); try done. intros. f_equal; auto.
Qed.

Lemma compare_antisym a b : compare b a = CompOpp (compare a b).
Proof.
  revert b; induction a as [|x a IH]; intros [|y b]; simpl; try done.
  rewrite (Z.compare_antisym x y). destruct (Z.compare x y); simpl; auto.
Qed.

Lemma lt_trans a b c : lt a b → lt b c → lt a c.
Proof.
  unfold lt. revert b c; induction a as [|x a IH]; intros [|y b] [|z c]; simpl; try done.
  destruct (Z.compare_spec x y), (Z.compare_spec y z), (Z.compare_spec x z);
    try done; try lia; subst; eauto.
Qed.

#[global] Instance lt_strorder : StrictOrder lt.
Proof.
  split; [|by intros a b c; apply lt_trans].
  intros a. unfold lt, complement. by rewrite compare_refl.
Qed.

Lemma compare_spec a b : CompareSpec (a = b) (lt a b) (lt b a) (compare a b).
Proof.
  destruct (compare a b) eqn:E; constructor; [by apply compare_eq | done |].
  unfold lt. by rewrite compare_antisym, E.
Qed.

Lemma le_lteq a b : le a b ↔ lt a b ∨ a = b.
Proof.
  unfold le, lt. split.
  - destruct (compare a b) eqn:E; [right; by apply compare_eq | by left | done].
  - intros [H | ->]; [by rewrite H | by rewrite compare_refl].
Qed.

Lemma not_lt a b : ¬ lt a b ↔ le b a.
Proof. unfold lt, le. rewrite (compare_antisym a b). by destruct (compare a b). Qed.

Lemma le_antisym a b : le a b → le b a → a = b.
Proof. unfold le. rewrite (compare_antisym a b). destruct (compare a b) eqn:E; try done. intros. by apply compare_eq. Qed.

Lemma lt_irrefl a : ¬ lt a a.
Proof. unfold lt. by rewrite compare_refl. Qed.
Lemma le_refl a : le a a.
Proof. unfold le. by rewrite compare_refl. Qed.
Lemma lt_le a b : lt a b → le a b.
Proof. intros. apply le_lteq. by left. Qed.
Lemma lt_le_trans a b c : lt a b → le b c → lt a c.
Proof. rewrite le_lteq. intros ? [? | <-]; [by eapply lt_trans | done]. Qed.
Lemma le_lt_trans a b c : le a b → lt b c → lt a c.
Proof. rewrite le_lteq. intros [? | ->] ?; [by eapply lt_trans | done]. Qed.
Lemma le_trans a b c : le a b → le b c → le a c.
Proof. rewrite (le_lteq a b). intros [? | ->] ?; [|done]. by eapply lt_le, lt_le_trans. Qed.
End KeyOrder.

Abbreviation key_cmp := KeyOrder.compare.
Abbreviation key_lt := KeyOrder.lt.
Abbreviation key_le := KeyOrder.le.

#[export] Instance key_lt_dec a b : Decision (key_lt a b).
Proof. unfold KeyOrder.lt. apply _. Defined.
#[export] Instance key_le_dec a b : Decision (key_le a b).
Proof. unfold KeyOrder.le. apply _. Defined.

(** The comparison operators of the code. *)
Definition key_ltb (a b : Key) : bool := bool_decide (key_lt a b).
Definition key_leb (a b : Key) : bool := bool_decide (key_le a b).
Definition key_eqb (a b : Key) : bool := bool_decide (a = b).
Definition key_min (a b : Key) : Key := if key_leb a b then a else b.
Definition key_max (a b : Key) : Key := if key_leb a b then b else a.

Lemma key_ltb_spec a b : reflect (key_lt a b) (key_ltb a b).
Proof. apply bool_decide_reflect. Qed.
Lemma key_leb_spec a b : reflect (key_le a b) (key_leb a b).
Proof. apply bool_decide_reflect. Qed.
Lemma key_eqb_spec a b : reflect (a = b) (key_eqb a b).
Proof. apply bool_decide_reflect. Qed.

Lemma key_not_lt a b : ¬ key_lt a b ↔ key_le b a.
Proof. apply KeyOrder.not_lt. Qed.
Lemma key_not_le a b : ¬ key_le a b ↔ key_lt b a.
Proof. rewrite <- key_not_lt. split; [intros H; destruct (decide (key_lt b a)); tauto | tauto]. Qed.

(** [key_order] decides goals that follow from the linear order on keys: the
    negated goal and the hypotheses are closed under transitivity, looking for a
    strict cycle. *)
Ltac key_learn P H :=
  match goal with
  | _ : P |- _ => fail 1
  | _ => let F := fresh in assert (F : P) by H
  end.
Ltac key_saturate :=
  repeat match goal with
  | H : key_lt ?a ?a |- _ => by destruct (KeyOrder.lt_irrefl a)
  | H1 : key_lt ?a ?b, H2 : key_lt ?b ?c |- _ =>
      key_learn (key_lt a c) ltac:(exact (KeyOrder.lt_trans _ _ _ H1 H2))
  | H1 : key_lt ?a ?b, H2 : key_le ?b ?c |- _ =>
      key_learn (key_lt a c) ltac:(exact (KeyOrder.lt_le_trans _ _ _ H1 H2))
  | H1 : key_le ?a ?b, H2 : key_lt ?b ?c |- _ =>
      key_learn (key_lt a c) ltac:(exact (KeyOrder.le_lt_trans _ _ _ H1 H2))
  | H1 : key_le ?a ?b, H2 : key_le ?b ?c |- _ =>
      key_learn (key_le a c) ltac:(exact (KeyOrder.le_trans _ _ _ H1 H2))
  end.
Ltac key_refute :=
  repeat match goal with
  | H : ¬ key_lt _ _ |- _ => apply key_not_lt in H
  | H : ¬ key_le _ _ |- _ => apply key_not_le in H
  | H : @eq (list Z) _ _ |- _ => subst || (apply eq_sym in H; subst) || fail 1
  end; key_saturate.
Ltac key_order :=
  intros;
  match goal with
  | |- key_lt ?a ?b => destruct (decide (key_lt a b)); [assumption | exfalso; key_refute]
  | |- key_le ?a ?b => destruct (decide (key_le a b)); [assumption | exfalso; key_refute]
  | |- @eq (list Z) ?a ?b =>
      apply KeyOrder.le_antisym;
      match goal with |- key_le ?a ?b =>
        destruct (decide (key_le a b)); [assumption | exfalso; key_refute] end
  | |- _ => exfalso; key_refute
  end; fail.

(** Case analysis on one key comparison of the code, with the order facts. *)
Ltac case_key :=
  match goal with
  | |- context [key_ltb ?a ?b] => destruct (key_ltb_spec a b)
  | |- context [key_leb ?a ?b] => destruct (key_leb_spec a b)
  | |- context [key_eqb ?a ?b] => destruct (key_eqb_spec a b)
  | H : context [key_ltb ?a ?b] |- _ => destruct (key_ltb_spec a b)
  | H : context [key_leb ?a ?b] |- _ => destruct (key_leb_spec a b)
  | H : context [key_eqb ?a ?b] |- _ => destruct (key_eqb_spec a b)
  end; simpl in *.
Ltac case_keys := repeat case_key.

(** [Vec::is_empty] *)
Definition is_empty {A} (l : list A) : bool := match l with [] => true | _ => false end.

(** ** The operations of [impl Key] *)

(** [Key::EMPTY] *)
Definition EMPTY : Key := [].

(** [Key::zero_terminated] *)
Definition zero_terminated (k : Key) : bool :=
  match last k with Some b => b =? 0 | None => false end.

(** [Key::next_key] *)
Definition next_key (k : Key) : Key := k ++ [0].

(** [std::ops::Bound] *)
Inductive Bound : Type :=
| Included (k : Key)
| Excluded (k : Key)
| Unbounded.

#[export] Instance Bound_eq_dec : EqDecision Bound.
Proof. solve_decision. Defined.

(** [Vec::pop], dropping the popped element. *)
Definition pop_back (k : Key) : Key := removelast k.

(** [Key::into_lower_bound], [Key::into_upper_bound] *)
Definition into_lower_bound (k : Key) : Bound :=
  if zero_terminated k then Excluded (pop_back k) else Included k.
Definition into_upper_bound (k : Key) : Bound :=
  if zero_terminated k then Included (pop_back k) else Excluded k.

(** The loop of [Key::next_prefix_key] over [(0..len).rev()]: [done] is the
    suffix already rewritten, the bytes of [todo] are visited from its head, which
    is the last byte of the key. *)
Fixpoint next_prefix_loop (todo done : list Z) : option Key :=
  match todo with
  | [] => None
  | b :: todo' =>
      let b' := (b + 1) mod 256 in
      if b' =? 0 then next_prefix_loop todo' (b' :: done)
      else Some (rev todo' ++ b' :: done)
  end.

(** [Key::next_prefix_key] *)
Definition next_prefix_key (k : Key) : Key :=
  match next_prefix_loop (rev k) [] with Some k' => k' | None => EMPTY end.

(** ** Order facts *)

Lemma key_empty_le k : key_le [] k.
Proof. unfold KeyOrder.le. by destruct k. Qed.

Lemma key_lt_empty k : ¬ key_lt k [].
Proof. unfold KeyOrder.lt. by destruct k. Qed.

Lemma key_cmp_app_l p a b : key_cmp (p ++ a) (p ++ b) = key_cmp a b.
Proof. induction p; simpl; [done|]. by rewrite Z.compare_refl. Qed.

Lemma key_le_app k s : key_le k (k ++ s).
Proof.
  rewrite <- (app_nil_r k) at 1. unfold KeyOrder.le.
  rewrite key_cmp_app_l. by destruct s.
Qed.

Lemma key_lt_cmp_app p a b : key_lt (p ++ a) (p ++ b) ↔ key_lt a b.
Proof. unfold KeyOrder.lt. by rewrite key_cmp_app_l. Qed.

Lemma key_le_cmp_app p a b : key_le (p ++ a) (p ++ b) ↔ key_le a b.
Proof. unfold KeyOrder.le. by rewrite key_cmp_app_l. Qed.

Lemma next_key_gt k : key_lt k (next_key k).
Proof.
  unfold next_key. rewrite <- (app_nil_r k) at 1. by apply key_lt_cmp_app.
Qed.

Lemma next_key_least k k' : wf_key k' → key_lt k k' → key_le (next_key k) k'.
Proof.
  unfold next_key. revert k'; induction k as [|x k IH]; intros [|y k'] Hwf Hlt.
  - by apply key_lt_empty in Hlt.
  - apply Forall_cons in Hwf as [Hy _]. unfold KeyOrder.le, in_u8 in *. simpl.
    destruct (Z.compare_spec 0 y); [by destruct k' | by intros ? | lia].
  - by apply key_lt_empty in Hlt.
  - apply Forall_cons in Hwf as [_ Hk'].
    unfold KeyOrder.lt, KeyOrder.le in *. simpl in *.
    destruct (Z.compare x y); [by apply IH | by intros ? | done].
Qed.

Lemma next_key_lt_iff k k' : wf_key k' → key_lt k k' ↔ key_le (next_key k) k'.
Proof.
  intros Hk'. split; [by apply next_key_least|].
  intros Hle. pose proof (next_key_gt k). key_order.
Qed.

Lemma zero_terminated_iff k : zero_terminated k = true ↔ k = next_key (pop_back k).
Proof.
  unfold zero_terminated, next_key, pop_back. induction k as [|x k _] using rev_ind; [done|].
  rewrite last_snoc, removelast_last. split.
  - intros ->%Z.eqb_eq. done.
  - intros [_ ->]%app_inj_tail. done.
Qed.

Lemma zero_terminated_next_key k : zero_terminated (next_key k) = true.
Proof. unfold zero_terminated, next_key. by rewrite last_snoc. Qed.

Lemma pop_back_next_key k : pop_back (next_key k) = k.
Proof. apply removelast_last. Qed.

Create HintDb keys.
#[export] Hint Resolve key_empty_le key_le_app next_key_gt : keys.

(** ** [next_prefix_key] *)

Lemma next_prefix_loop_spec todo done' :
  Forall in_u8 todo →
  (∃ p b m, rev todo = p ++ b :: replicate m 255 ∧ b < 255 ∧
     next_prefix_loop todo done' = Some (p ++ (b + 1) :: replicate m 0 ++ done')) ∨
  (∃ m, rev todo = replicate m 255 ∧ next_prefix_loop todo done' = None).
Proof.
  revert done'. induction todo as [|c todo IH]; intros done' Hwf; [by right; exists 0%nat|].
  apply Forall_cons in Hwf as [Hc Hwf]. unfold in_u8 in Hc. simpl.
  destruct (Z.eqb_spec ((c + 1) mod 256) 0) as [E|E].
  - assert (c = 255) as ->.
    { destruct (decide (c = 255)); [done|]. rewrite Z.mod_small in E; lia. }
    change ((255 + 1) mod 256) with 0.
    destruct (IH (0 :: done') Hwf) as [(p & b & m & Hr & Hb & Hl) | (m & Hr & Hl)].
    + left. exists p, b, (S m). rewrite Hr, Hl. split_and!; [|done|].
      * rewrite <- app_assoc. simpl. by rewrite replicate_shift, app_nil_r.
      * simpl. by rewrite replicate_shift.
    + right. exists (S m). rewrite Hr. simpl. by rewrite replicate_shift, app_nil_r.
  - left. exists (rev todo), c, 0%nat. assert (c ≠ 255) by (intros ->; done).
    rewrite Z.mod_small by lia. split_and!; [done | lia | done].
Qed.

Lemma key_between_prefix p x y k :
  key_le (p ++ x) k → key_lt k (p ++ y) → ∃ r, k = p ++ r ∧ key_le x r ∧ key_lt r y.
Proof.
  unfold KeyOrder.le, KeyOrder.lt. revert k. induction p as [|a p IH]; intros k Hle Hlt.
  { by exists k. }
  destruct k as [|c k]; [done|]. simpl in *.
  destruct (Z.compare_spec a c), (Z.compare_spec c a); try done; try lia. subst.
  destruct (IH k) as (r & -> & ? & ?); [done..|]. by exists r.
Qed.

Lemma replicate_min_le m r : wf_key r → (m ≤ length r)%nat → key_le (replicate m 0) r.
Proof.
  unfold KeyOrder.le. revert r. induction m as [|m IH]; intros [|c r] Hwf Hlen; simpl in *; try done; [lia|].
  apply Forall_cons in Hwf as [Hc Hwf]. unfold in_u8 in Hc.
  destruct (Z.compare_spec 0 c); [|done|lia]. apply IH; [done|lia].
Qed.

Lemma replicate_max_prefix m r :
  wf_key r → (m ≤ length r)%nat → key_le (replicate m 255) r → replicate m 255 `prefix_of` r.
Proof.
  unfold KeyOrder.le. revert r. induction m as [|m IH]; intros [|c r] Hwf Hlen Hle; simpl in *; try lia.
  1-2: by eexists.
  apply Forall_cons in Hwf as [Hc Hwf]. unfold in_u8 in Hc.
  destruct (Z.compare_spec 255 c); [|lia|done]. subst. apply prefix_cons, IH; [done|lia|done].
Qed.

Lemma prefix_key_le k k' : k `prefix_of` k' → key_le k k'.
Proof. intros [s ->]. apply key_le_app. Qed.

Lemma next_prefix_key_between k k' :
  wf_key k → wf_key k' → k ≠ [] →
  k `prefix_of` k' ↔
  (length k ≤ length k')%nat ∧ key_le k k' ∧
    (next_prefix_key k = [] ∨ key_lt k' (next_prefix_key k)).
Proof.
  intros Hk Hk' Hne. unfold next_prefix_key.
  destruct (next_prefix_loop_spec (rev k) []) as [(p & b & m & Hr & Hb & ->) | (m & Hr & ->)].
  { by apply Forall_rev. }
  - rewrite rev_involutive in Hr. subst k. rewrite app_nil_r. split.
    + intros Hp. split_and!; [by apply prefix_length | by apply prefix_key_le | right].
      destruct Hp as [s ->]. rewrite <- app_assoc. apply key_lt_cmp_app.
      unfold KeyOrder.lt; simpl. by rewrite (proj2 (Z.compare_lt_iff b (b + 1))) by lia.
    + intros (Hlen & Hle & [E | Hlt]); [by destruct p|].
      destruct (key_between_prefix p (b :: replicate m 255) ((b + 1) :: replicate m 0) k')
        as (r & -> & Hl & Hu); [done..|]. apply prefix_app.
      rewrite !length_app in Hlen. apply Forall_app in Hk' as [_ Hr'].
      destruct r as [|c r]; [by destruct Hl|]. simpl in Hlen. rewrite length_replicate in Hlen.
      apply Forall_cons in Hr' as [_ Hr'].
      unfold KeyOrder.le, KeyOrder.lt in Hl, Hu; simpl in Hl, Hu.
      destruct (Z.compare_spec b c); [| |done].
      * subst c. apply prefix_cons, replicate_max_prefix; [done|lia|done].
      * destruct (Z.compare_spec c (b + 1)); [|lia|done].
        pose proof (replicate_min_le m r Hr' ltac:(lia)) as Hz. by apply key_not_lt in Hz.
  - rewrite rev_involutive in Hr. subst k. rewrite length_replicate. split.
    + intros Hp. split_and!; [|by apply prefix_key_le | by left].
      apply prefix_length in Hp. by rewrite length_replicate in Hp.
    + intros (Hlen & Hle & _). by apply replicate_max_prefix.
Qed.

(** The keys that carry the prefix [k] are exactly the keys of at least
    [k]'s length in the scan range from [k] (inclusive) to [next_prefix_key k]
    (exclusive, or unbounded when [next_prefix_key k] is the empty key, which is
    what an all-[0xff] prefix gives).  The length condition is needed: carrying into
    a shorter prefix keeps the trailing zero bytes, as [client-go] does, so a
    shorter key can fall in the range without carrying the prefix. *)
Theorem next_prefix_key_range k k' :
  wf_key k → wf_key k' → k ≠ [] →
  k `prefix_of` k' ↔
  (length k ≤ length k')%nat ∧ key_le k k' ∧
    (next_prefix_key k = [] ∨ key_lt k' (next_prefix_key k)).
Proof. apply next_prefix_key_between. Qed.

Lemma next_prefix_key_range_witness : [1; 255] `prefix_of` [1; 255; 7].
Proof.
  apply (next_prefix_key_range [1; 255] [1; 255; 7]).
  - unfold wf_key, in_u8. repeat constructor; lia.
  - unfold wf_key, in_u8. repeat constructor; lia.
  - discriminate.
  - split; [simpl; lia|]. split; [by vm_compute|]. right. vm_compute. reflexivity.
Defined.

(** [next_key] is the successor function of the byte-string order: nothing
    lies strictly between a key and its [next_key], so an exclusive bound at a
    key and an inclusive bound at its [next_key] select the same keys. *)
Theorem next_key_successor k k' :
  wf_key k' → key_lt k k' ↔ key_le (next_key k) k'.
Proof. apply next_key_lt_iff. Qed.

Lemma next_key_successor_witness : key_lt [1; 2] [1; 2; 0; 5].
Proof.
  apply (next_key_successor [1; 2] [1; 2; 0; 5]).
  - unfold wf_key, in_u8. repeat constructor; lia.
  - by vm_compute.
Defined.
