(* ===== verification/Proto.v ===== *)
(** * Protobuf messages (src/src/generated/{metapb,errorpb,kvrpcpb,deadlock}.rs)

    The messages the client inspects, one module per message with its fields.
    Enumerations are kept as the [i32] the wire carries.  A sub-message of
    [errorpb.Error] whose fields the client never reads is represented by its
    presence ([option unit]). *)

From S2P Require Import Prelude Keys.

(** ** metapb *)

Module RegionEpoch.
Record t := mk { conf_ver : Z; version : Z }.
#[global] Instance eq_dec : EqDecision t.
Proof. solve_decision. Defined.
End RegionEpoch.

Module Peer.
Record t := mk { id : Z; store_id : Z; role : Z; is_witness : bool }.
#[global] Instance eq_dec : EqDecision t.
Proof. solve_decision. Defined.
End Peer.

(** [encryption_meta] is dropped: no code of the client reads it. *)
Module Region.
Record t := mk {
  id : Z;
  start_key : Key;
  end_key : Key;
  region_epoch : option RegionEpoch.t;
  peers : list Peer.t
}.
#[global] Instance eq_dec : EqDecision t.
Proof. solve_decision. Defined.
Definition with_range (r : t) (s e : Key) : t :=
  mk (id r) s e (region_epoch r) (peers r).
End Region.

Module StoreLabel.
Record t := mk { key : string; value : string }.
End StoreLabel.

(** The address, state and label fields of [metapb.Store]. *)
Module Store.
Record t := mk {
  id : Z;
  address : string;
  state : Z;
  labels : list StoreLabel.t;
  peer_address : string
}.
End Store.

(** ** errorpb *)

Module NotLeader.
Record t := mk { region_id : Z; leader : option Peer.t }.
End NotLeader.

Module EpochNotMatch.
Record t := mk { current_regions : list Region.t }.
End EpochNotMatch.

Module RegionError.
Record t := mk {
  message : string;
  not_leader : option NotLeader.t;
  region_not_found : option unit;
  key_not_in_region : option unit;
  epoch_not_match : option EpochNotMatch.t;
  server_is_busy : option unit;
  stale_command : option unit;
  store_not_match : option unit;
  raft_entry_too_large : option unit;
  max_timestamp_not_synced : option unit;
  read_index_not_ready : option unit;
  proposal_in_merging_mode : option unit;
  data_is_not_ready : option unit
}.
Definition default : t :=
  mk EmptyString None None None None None None None None None None None None.
Definition with_message (m : string) : t :=
  mk m None None None None None None None None None None None None.
Definition set_epoch_not_match (e : t) (v : option EpochNotMatch.t) : t :=
  mk (message e) (not_leader e) (region_not_found e) (key_not_in_region e) v
     (server_is_busy e) (stale_command e) (store_not_match e) (raft_entry_too_large e)
     (max_timestamp_not_synced e) (read_index_not_ready e) (proposal_in_merging_mode e)
     (data_is_not_ready e).
End RegionError.

(** ** kvrpcpb *)

(** [kvrpcpb::LockInfo]; [shared_lock_infos] nests further locks. *)
Module LockInfo.
Inductive t := mk {
  primary_lock : Key;
  lock_version : Z;
  key : Key;
  lock_ttl : Z;
  txn_size : Z;
  lock_type : Z;
  lock_for_update_ts : Z;
  use_async_commit : bool;
  min_commit_ts : Z;
  secondaries : list Key;
  duration_to_last_update_ms : Z;
  shared_lock_infos : list t;
  is_txn_file : bool
}.
Definition with_keys (l : t) (p k : Key) (s : list Key) : t :=
  mk p (lock_version l) k (lock_ttl l) (txn_size l) (lock_type l) (lock_for_update_ts l)
     (use_async_commit l) (min_commit_ts l) s (duration_to_last_update_ms l)
     (shared_lock_infos l) (is_txn_file l).
End LockInfo.

Module WriteConflict.
Record t := mk {
  start_ts : Z; conflict_ts : Z; key : Key; primary : Key;
  conflict_commit_ts : Z; reason : Z }.
End WriteConflict.

Module AlreadyExist.
Record t := mk { key : Key }.
End AlreadyExist.

Module WaitForEntry.
Record t := mk {
  txn : Z; wait_for_txn : Z; key_hash : Z; key : Key;
  resource_group_tag : list Z; wait_time : Z }.
Definition with_key (e : t) (k : Key) : t :=
  mk (txn e) (wait_for_txn e) (key_hash e) k (resource_group_tag e) (wait_time e).
End WaitForEntry.

Module Deadlock.
Record t := mk {
  lock_ts : Z; lock_key : Key; deadlock_key_hash : Z;
  wait_chain : list WaitForEntry.t; deadlock_key : Key }.
End Deadlock.

Module CommitTsExpired.
Record t := mk { start_ts : Z; attempted_commit_ts : Z; key : Key; min_commit_ts : Z }.
End CommitTsExpired.

Module TxnNotFound.
Record t := mk { start_ts : Z; primary_key : Key }.
End TxnNotFound.

Module AssertionFailed.
Record t := mk {
  start_ts : Z; key : Key; assertion : Z; existing_start_ts : Z; existing_commit_ts : Z }.
End AssertionFailed.

Module PrimaryMismatch.
Record t := mk { lock_info : option LockInfo.t }.
End PrimaryMismatch.

Module TxnLockNotFound.
Record t := mk { key : Key }.
End TxnLockNotFound.

(** The [mvcc] payload of the debug information is opaque to the client. *)
Module MvccDebugInfo.
Record t := mk { key : Key; mvcc : option unit }.
End MvccDebugInfo.

Module KeyError.
Record t := mk {
  locked : option LockInfo.t;
  retryable : string;
  abort : string;
  conflict : option WriteConflict.t;
  already_exist : option AlreadyExist.t;
  deadlock : option Deadlock.t;
  commit_ts_expired : option CommitTsExpired.t;
  txn_not_found : option TxnNotFound.t;
  commit_ts_too_large : option Z;
  assertion_failed : option AssertionFailed.t;
  primary_mismatch : option PrimaryMismatch.t;
  txn_lock_not_found : option TxnLockNotFound.t;
  debug_info : option (list MvccDebugInfo.t)
}.
Definition default : t :=
  mk None EmptyString EmptyString None None None None None None None None None None.
End KeyError.

(** [kvrpcpb::Op], [kvrpcpb::Assertion] and [kvrpcpb::AssertionLevel] as the
    [i32] values of the generated enums. *)
Definition Op_Put : Z := 0.
Definition Op_Del : Z := 1.
Definition Op_Lock : Z := 2.
Definition Op_Insert : Z := 4.
Definition Op_PessimisticLock : Z := 5.
Definition Op_CheckNotExists : Z := 6.

Inductive Assertion := AssertNone | AssertExist | AssertNotExist.
Definition assertion_i32 (a : Assertion) : Z :=
  match a with AssertNone => 0 | AssertExist => 1 | AssertNotExist => 2 end.

Inductive AssertionLevel := LevelOff | LevelFast | LevelStrict.
#[export] Instance AssertionLevel_eq_dec : EqDecision AssertionLevel.
Proof. solve_decision. Defined.

Module PbMutation.
Record t := mk { op : Z; key : Key; value : Value; assertion : Z }.
Definition default : t := mk 0 [] [] 0.
#[global] Instance eq_dec : EqDecision t.
Proof. solve_decision. Defined.
End PbMutation.

(** [kvrpcpb::ApiVersion] *)
Inductive ApiVersion := V1 | V1ttl | V2.
