(* ===== verification/Errors.v ===== *)
(** * Client errors (src/src/common/errors.rs)

    The [Error] enumeration, the conversion of TiKV's [KeyError] to it, and the
    [is_*] classifiers that look through the wrapping variants. *)

From S2P Require Import Prelude Keys Proto.

(** [RegionVerId] (src/src/region.rs) *)
Module RegionVerId.
Record t := mk { id : Z; conf_ver : Z; ver : Z }.
#[global] Instance eq_dec : EqDecision t.
Proof. solve_decision. Defined.
#[global] Instance countable : Countable t.
Proof.
  refine (inj_countable' (λ v, (id v, conf_ver v, ver v)) (λ p, mk p.1.1 p.1.2 p.2) _).
  by intros [].
Defined.
End RegionVerId.

(** [WriteConflictReason] and [AssertionKind] *)
Inductive WriteConflictReason :=
| ReasonUnknown | ReasonOptimistic | ReasonPessimisticRetry | ReasonSelfRolledBack
| ReasonRcCheckTs | ReasonLazyUniquenessCheck | ReasonNotLockedKeyConflict.

Definition reason_from_i32 (v : Z) : WriteConflictReason :=
  if v =? 1 then ReasonOptimistic
  else if v =? 2 then ReasonPessimisticRetry
  else if v =? 3 then ReasonSelfRolledBack
  else if v =? 4 then ReasonRcCheckTs
  else if v =? 5 then ReasonLazyUniquenessCheck
  else if v =? 6 then ReasonNotLockedKeyConflict
  else ReasonUnknown.

Inductive AssertionKind := KindNone | KindExist | KindNotExist.

Definition assertion_kind_from_i32 (v : Z) : AssertionKind :=
  if v =? assertion_i32 AssertExist then KindExist
  else if v =? assertion_i32 AssertNotExist then KindNotExist
  else KindNone.

Module WriteConflictError.
Record t := mk {
  start_ts : Z; conflict_ts : Z; conflict_commit_ts : Z;
  key : Key; primary : Key; reason : WriteConflictReason }.
Definition from (c : WriteConflict.t) : t :=
  mk (WriteConflict.start_ts c) (WriteConflict.conflict_ts c)
     (WriteConflict.conflict_commit_ts c) (WriteConflict.key c)
     (WriteConflict.primary c) (reason_from_i32 (WriteConflict.reason c)).
End WriteConflictError.

Module AssertionFailedError.
Record t := mk {
  start_ts : Z; key : Key; assertion : AssertionKind;
  existing_start_ts : Z; existing_commit_ts : Z }.
Definition from (f : AssertionFailed.t) : t :=
  mk (AssertionFailed.start_ts f) (AssertionFailed.key f)
     (assertion_kind_from_i32 (AssertionFailed.assertion f))
     (AssertionFailed.existing_start_ts f) (AssertionFailed.existing_commit_ts f).
End AssertionFailedError.

(** [DeadlockError] has the fields of the protobuf message, its
    [DeadlockWaitForEntry] those of the wait-for entry. *)
Module DeadlockError.
Record t := mk {
  lock_ts : Z; lock_key : Key; deadlock_key_hash : Z;
  wait_chain : list WaitForEntry.t; deadlock_key : Key }.
Definition from (d : Deadlock.t) : t :=
  mk (Deadlock.lock_ts d) (Deadlock.lock_key d) (Deadlock.deadlock_key_hash d)
     (Deadlock.wait_chain d) (Deadlock.deadlock_key d).
End DeadlockError.

(** [pub enum Error].  The variants that wrap an error of another crate (I/O,
    channel, gRPC, URL, semver, join) carry its rendering as a string. *)
Inductive Error : Type :=
| Unimplemented
| DuplicateKeyInsertion
| EWriteConflict (c : WriteConflictError.t)
| EDeadlock (d : DeadlockError.t)
| EKeyExists (key : Key)
| EAssertionFailed (f : AssertionFailedError.t)
| ERetryable (message : string)
| ResourceGroupThrottled
| TxnAborted (message : string)
| ECommitTsTooLarge (commit_ts : Z)
| CommitTsLag (commit_ts wait_until_tso : Z)
| ETxnNotFound (start_ts : Z)
| ResolveLockError (locks : list LockInfo.t)
| InvalidTransactionType
| OperationAfterCommitError
| OnePcFailure
| NoPrimaryKey
| WriteConflictInLatch (start_ts : Z)
| InvalidPipelinedTransaction (message : string)
| InvalidPessimisticLockOptions (message : string)
| UnsupportedMode
| NoCurrentRegions
| EntryNotFoundInRegionCache
| Io (message : string)
| Channel (message : string)
| Grpc (message : string)
| GrpcAPI (message : string)
| Url (message : string)
| Canceled
| ERegionError (e : RegionError.t)
| UndeterminedError (inner : Error)
| EKeyError (e : KeyError.t)
| ExtractedErrors (errors : list Error)
| MultipleKeyErrors (errors : list Error)
| ColumnFamilyError (name : string)
| JoinError
| RegionForKeyNotFound (key : Key)
| RegionForRangeNotFound (from to : Bound)
| RegionNotFoundInResponse (region_id : Z)
| LeaderNotFound (region : RegionVerId.t)
| MaxScanLimitExceeded (limit max_limit : Z)
| InvalidSemver (message : string)
| KvError (message : string)
| InternalError (message : string)
| StringError (message : string)
| PessimisticLockError (inner : Error) (success_keys : list Key)
| KeyspaceNotFound (name : string).

(** [pub type Result<T> = result::Result<T, Error>] *)
Abbreviation Result := (result Error).

(** [impl From<kvrpcpb::KeyError> for Error]: the first matching field wins. *)
Definition error_from_key_error (e : KeyError.t) : Error :=
  match KeyError.conflict e with
  | Some c => EWriteConflict (WriteConflictError.from c)
  | None =>
  if negb (String.eqb (KeyError.retryable e) EmptyString)
  then ERetryable (KeyError.retryable e) else
  match KeyError.assertion_failed e with
  | Some f => EAssertionFailed (AssertionFailedError.from f)
  | None =>
  match KeyError.already_exist e with
  | Some x => EKeyExists (AlreadyExist.key x)
  | None =>
  match KeyError.deadlock e with
  | Some d => EDeadlock (DeadlockError.from d)
  | None =>
  if negb (String.eqb (KeyError.abort e) EmptyString)
  then TxnAborted (KeyError.abort e) else
  match KeyError.commit_ts_too_large e with
  | Some ts => ECommitTsTooLarge ts
  | None =>
  match KeyError.txn_not_found e with
  | Some n => ETxnNotFound (TxnNotFound.start_ts n)
  | None => EKeyError e
  end end end end end end.

(** The common shape of [is_write_conflict], [is_deadlock], [is_key_exists] and
    [is_assertion_failed]: a leaf test applied through the wrapping variants. *)
Fixpoint error_matches (leaf : Error → bool) (e : Error) : bool :=
  leaf e ||
  match e with
  | UndeterminedError inner => error_matches leaf inner
  | PessimisticLockError inner _ => error_matches leaf inner
  | MultipleKeyErrors errors | ExtractedErrors errors => existsb (error_matches leaf) errors
  | _ => false
  end.

Definition is_write_conflict : Error → bool :=
  error_matches (λ e, match e with EWriteConflict _ => true | _ => false end).
Definition is_deadlock : Error → bool :=
  error_matches (λ e, match e with EDeadlock _ => true | _ => false end).
Definition is_key_exists : Error → bool :=
  error_matches (λ e, match e with EKeyExists _ => true | _ => false end).
Definition is_assertion_failed : Error → bool :=
  error_matches (λ e, match e with EAssertionFailed _ => true | _ => false end).

(** [Error::is_undetermined]: an [UndeterminedError] is itself the leaf. *)
Fixpoint is_undetermined (e : Error) : bool :=
  match e with
  | UndeterminedError _ => true
  | PessimisticLockError inner _ => is_undetermined inner
  | MultipleKeyErrors errors | ExtractedErrors errors => existsb is_undetermined errors
  | _ => false
  end.

(** [is_grpc_error] (src/src/request/plan.rs) *)
Definition is_grpc_error (e : Error) : bool :=
  match e with GrpcAPI _ | Grpc _ => true | _ => false end.

(** ** Induction over nested errors *)

Definition wraps_error (e : Error) : bool :=
  match e with
  | UndeterminedError _ | PessimisticLockError _ _
  | MultipleKeyErrors _ | ExtractedErrors _ => true
  | _ => false
  end.

Lemma Error_nested_ind (P : Error → Prop) :
  (∀ e, wraps_error e = false → P e) →
  (∀ e, P e → P (UndeterminedError e)) →
  (∀ e ks, P e → P (PessimisticLockError e ks)) →
  (∀ es, Forall P es → P (MultipleKeyErrors es)) →
  (∀ es, Forall P es → P (ExtractedErrors es)) →
  ∀ e, P e.
Proof.
  intros Hleaf Hu Hp Hm Hx. fix IH 1. intros e.
  destruct e; try (apply Hleaf; reflexivity).
  - apply Hu, IH.
  - apply Hx. induction errors as [|e es IHes]; constructor; [apply IH | exact IHes].
  - apply Hm. induction errors as [|e es IHes]; constructor; [apply IH | exact IHes].
  - apply Hp, IH.
Qed.
