(* ===== verification/Codec.v ===== *)
(** * The memcomparable codec (src/src/kv/codec.rs)

    [encode_bytes] writes a byte string in groups of eight, each followed by a
    marker byte that counts the padding; [decode_bytes_in_place] undoes it inside
    the same vector.  The definitions follow the loops of the source, with the
    offsets into the vector; the theorems state that the encoding is injective and
    order preserving (ascending) or reversing (descending), and that decoding
    accepts exactly the encodings. *)

From S2P Require Import Prelude Keys Proto Errors.

Definition ENC_GROUP_SIZE : nat := 8.
Definition ENC_MARKER : Z := 255.
Definition ENC_ASC_PADDING : list Z := replicate ENC_GROUP_SIZE 0.
Definition ENC_DESC_PADDING : list Z := replicate ENC_GROUP_SIZE 255.

Definition max_encoded_bytes_size (n : nat) : nat :=
  (n / ENC_GROUP_SIZE + 1) * (ENC_GROUP_SIZE + 1).

(** [adjust_bytes_order]: the bytes themselves, or their complements written
    through the scratch buffer. *)
Definition adjust_bytes_order (bs : list Z) (desc : bool) : list Z :=
  if desc then map not_u8 bs else bs.

(** The [while index <= len] loop of [encode_bytes]; [out] is what the writer has
    received so far.  [fuel] bounds the iterations. *)
Fixpoint encode_loop (fuel : nat) (key : list Z) (desc : bool) (index : nat)
    (out : list Z) : list Z :=
  match fuel with
  | O => out
  | S fuel' =>
      let len := length key in
      if (index <=? len)%nat then
        let remain := (len - index)%nat in
        let pad := if (ENC_GROUP_SIZE <? remain)%nat then 0%nat else (ENC_GROUP_SIZE - remain)%nat in
        let out1 :=
          if (ENC_GROUP_SIZE <? remain)%nat
          then out ++ adjust_bytes_order (take ENC_GROUP_SIZE (drop index key)) desc
          else out ++ adjust_bytes_order (drop index key) desc ++
                 (if desc then take pad ENC_DESC_PADDING else take pad ENC_ASC_PADDING) in
        let out2 := out1 ++ adjust_bytes_order [ENC_MARKER - Z.of_nat pad] desc in
        encode_loop fuel' key desc (index + ENC_GROUP_SIZE) out2
      else out
  end.

(** [BytesEncoder::encode_bytes] into an empty [Vec]; the loop runs
    [len / 8 + 1] times. *)
Definition encode_bytes (key : list Z) (desc : bool) : list Z :=
  encode_loop (S (length key)) key desc 0 [].

(** [Key::to_encoded] (src/src/kv/key.rs) *)
Definition to_encoded (k : Key) : Key := encode_bytes k false.

(** [<[T]>::copy_within(s..e, d)] *)
Definition copy_within (data : list Z) (s e d : nat) : list Z :=
  take d data ++ take (e - s) (drop s data) ++ drop (d + (e - s)) data.

(** The loop of [decode_bytes_in_place], on the mutated vector and its two
    offsets. *)
Fixpoint decode_loop (fuel : nat) (data : list Z) (desc : bool)
    (write_offset read_offset : nat) : Result (list Z) :=
  match fuel with
  | O => Err (InternalError "unexpected EOF")
  | S fuel' =>
      let marker_offset := (read_offset + ENC_GROUP_SIZE)%nat in
      if (length data <=? marker_offset)%nat then Err (InternalError "unexpected EOF") else
      let data := copy_within data read_offset marker_offset write_offset in
      let write_offset := (write_offset + ENC_GROUP_SIZE)%nat in
      let read_offset := (read_offset + (ENC_GROUP_SIZE + 1))%nat in
      let marker := default 0 (data !! marker_offset) in
      let pad_size := Z.to_nat (if desc then marker else ENC_MARKER - marker) in
      if (0 <? pad_size)%nat then
        if (ENC_GROUP_SIZE <? pad_size)%nat then Err (InternalError "invalid key padding") else
        let padding_slice :=
          if desc then take pad_size ENC_DESC_PADDING else take pad_size ENC_ASC_PADDING in
        if negb (bool_decide
             (take pad_size (drop (write_offset - pad_size) data) = padding_slice))
        then Err (InternalError "invalid key padding") else
        let data := take (write_offset - pad_size) data in
        Ok (if desc then map not_u8 data else data)
      else decode_loop fuel' data desc write_offset read_offset
  end.

(** [decode_bytes_in_place]: the vector after the call, or the error.  Each
    iteration consumes nine bytes, so [length data + 1] iterations suffice. *)
Definition decode_bytes_in_place (data : list Z) (desc : bool) : Result (list Z) :=
  if is_empty data then Ok data
  else decode_loop (S (length data)) data desc 0 0.

(** ** Lemmas on the encoder *)

Lemma chunk8_ind (P : list Z → Prop) :
  (∀ k, (length k < 8)%nat → P k) →
  (∀ g k, length g = 8%nat → P k → P (g ++ k)) →
  ∀ k, P k.
Proof.
  intros Hshort Hlong k. remember (length k) as n eqn:En. revert k En.
  induction n as [n IH] using lt_wf_ind. intros k ->.
  destruct (decide (length k < 8)%nat) as [|Hge]; [by apply Hshort|].
  rewrite <- (take_drop 8 k). apply Hlong; [rewrite length_take; lia|].
  apply (IH (length (drop 8 k))); [rewrite length_drop; lia | done].
Qed.

(** The closing group of a key tail shorter than eight bytes. *)
Definition enc_last (desc : bool) (k : list Z) : list Z :=
  adjust_bytes_order (k ++ replicate (8 - length k) 0 ++ [247 + Z.of_nat (length k)]) desc.

Lemma adjust_app b1 b2 desc :
  adjust_bytes_order (b1 ++ b2) desc = adjust_bytes_order b1 desc ++ adjust_bytes_order b2 desc.
Proof. destruct desc; simpl; [apply map_app | done]. Qed.

Lemma adjust_length b desc : length (adjust_bytes_order b desc) = length b.
Proof. destruct desc; simpl; [apply length_map | done]. Qed.

Lemma padding_adjust (n : nat) (desc : bool) : (n ≤ 8)%nat →
  (if desc then take n ENC_DESC_PADDING else take n ENC_ASC_PADDING) =
  adjust_bytes_order (replicate n 0) desc.
Proof.
  intros Hn. unfold ENC_DESC_PADDING, ENC_ASC_PADDING, adjust_bytes_order.
  rewrite !take_replicate, Nat.min_l by (unfold ENC_GROUP_SIZE; lia).
  destruct desc; [|done]. clear Hn. induction n; simpl; [done|]. by f_equal.
Qed.

Lemma encode_loop_short fuel p k desc out :
  (length k < 8)%nat → (0 < fuel)%nat →
  encode_loop fuel (p ++ k) desc (length p) out = out ++ enc_last desc k.
Proof.
  intros Hk Hf. destruct fuel as [|fuel]; [lia|].
  cbn [encode_loop]. unfold ENC_GROUP_SIZE.
  rewrite length_app, (leb_correct (length p)) by lia.
  replace (length p + length k - length p)%nat with (length k) by lia.
  rewrite (proj2 (Nat.ltb_ge 8 (length k))) by lia.
  rewrite drop_app_length, padding_adjust by lia.
  unfold enc_last, ENC_MARKER.
  replace (255 - Z.of_nat (8 - length k)) with (247 + Z.of_nat (length k)) by lia.
  rewrite !adjust_app, <- !app_assoc.
  destruct fuel as [|fuel]; cbn [encode_loop]; [done|].
  rewrite length_app. rewrite (proj2 (Nat.leb_gt _ _)) by lia. done.
Qed.

Lemma encode_loop_long fuel p g k desc out :
  length g = 8%nat →
  encode_loop (S fuel) (p ++ g ++ k) desc (length p) out =
  encode_loop fuel ((p ++ g) ++ k) desc (length (p ++ g))
    (out ++ adjust_bytes_order (g ++ [255]) desc).
Proof.
  intros Hg. cbn [encode_loop]. rewrite !length_app, Hg, (leb_correct (length p)) by lia.
  rewrite drop_app_length. unfold ENC_GROUP_SIZE, ENC_MARKER.
  replace (length p + (8 + length k) - length p)%nat with (8 + length k)%nat by lia.
  destruct (8 <? 8 + length k)%nat eqn:E.
  - by rewrite (proj1 (take_drop_app 8 g k Hg)), <- !app_assoc, adjust_app.
  - apply Nat.ltb_ge in E. destruct k; [|simpl in E; lia]. simpl. rewrite !app_nil_r.
    rewrite adjust_app. destruct desc; simpl; rewrite <- ?app_assoc; done.
Qed.

(** The same two steps from the start of the loop. *)
Lemma encode_loop_short0 fuel k desc :
  (length k < 8)%nat → (0 < fuel)%nat → encode_loop fuel k desc 0 [] = enc_last desc k.
Proof. intros. by apply (encode_loop_short fuel [] k desc []). Qed.

Lemma encode_loop_long0 fuel g k desc : length g = 8%nat →
  encode_loop (S fuel) (g ++ k) desc 0 [] =
  encode_loop fuel (g ++ k) desc (length g) (adjust_bytes_order (g ++ [255]) desc).
Proof. intros. by apply (encode_loop_long fuel [] g k desc []). Qed.

Lemma encode_loop_acc k : ∀ fuel p desc out, (length k < fuel)%nat →
  encode_loop fuel (p ++ k) desc (length p) out = out ++ encode_loop fuel k desc 0 [].
Proof.
  induction k as [k Hk | g k Hg IH] using chunk8_ind; intros fuel p desc out Hf.
  - rewrite encode_loop_short by lia. by rewrite encode_loop_short0 by lia.
  - rewrite length_app in Hf. destruct fuel as [|fuel]; [lia|].
    rewrite encode_loop_long by done. rewrite IH by lia.
    rewrite encode_loop_long0 by done.
    rewrite (IH fuel g) by lia. by rewrite app_assoc.
Qed.

Lemma encode_loop_fuel k : ∀ f1 f2 desc, (length k < f1)%nat → (length k < f2)%nat →
  encode_loop f1 k desc 0 [] = encode_loop f2 k desc 0 [].
Proof.
  induction k as [k Hk | g k Hg IH] using chunk8_ind; intros f1 f2 desc H1 H2.
  - by rewrite !encode_loop_short0 by lia.
  - rewrite length_app in H1, H2. destruct f1 as [|f1]; [lia|]. destruct f2 as [|f2]; [lia|].
    rewrite !encode_loop_long0 by done.
    rewrite !(encode_loop_acc k _ g) by lia. f_equal. apply IH; lia.
Qed.

(** The two defining equations of the encoding. *)
Lemma encode_bytes_short k desc : (length k < 8)%nat → encode_bytes k desc = enc_last desc k.
Proof. intros. unfold encode_bytes. by rewrite encode_loop_short0 by lia. Qed.

Lemma encode_bytes_long g k desc : length g = 8%nat →
  encode_bytes (g ++ k) desc = adjust_bytes_order (g ++ [255]) desc ++ encode_bytes k desc.
Proof.
  intros Hg. unfold encode_bytes. rewrite encode_loop_long0 by done.
  rewrite (encode_loop_acc k _ g) by (rewrite length_app; lia).
  f_equal. apply encode_loop_fuel; rewrite ?length_app; lia.
Qed.

Lemma encode_bytes_desc k : encode_bytes k true = map not_u8 (encode_bytes k false).
Proof.
  induction k as [k Hk | g k Hg IH] using chunk8_ind.
  - by rewrite !encode_bytes_short.
  - rewrite !encode_bytes_long by done. by rewrite IH, map_app.
Qed.

Lemma encode_bytes_wf k desc : wf_key k → wf_key (encode_bytes k desc).
Proof.
  assert (∀ k, wf_key k → wf_key (encode_bytes k false)) as H.
  { clear. intros k. induction k as [k Hk | g k Hg IH] using chunk8_ind; intros Hwf.
    - rewrite encode_bytes_short by done. unfold enc_last, wf_key, in_u8 in *; simpl.
      rewrite !Forall_app. split_and!; [done | apply Forall_replicate; lia |].
      repeat constructor; lia.
    - rewrite encode_bytes_long by done. apply Forall_app in Hwf as [Hwg Hwk].
      unfold wf_key, in_u8 in *; simpl. rewrite !Forall_app. split_and!; auto.
      repeat constructor; lia. }
  intros Hwf. destruct desc; [|auto]. rewrite encode_bytes_desc.
  apply Forall_map, Forall_true. intros. apply not_u8_range.
Qed.

Lemma encode_bytes_length k desc :
  length (encode_bytes k desc) = max_encoded_bytes_size (length k).
Proof.
  unfold max_encoded_bytes_size, ENC_GROUP_SIZE.
  induction k as [k Hk | g k Hg IH] using chunk8_ind.
  - rewrite encode_bytes_short by done. unfold enc_last.
    rewrite adjust_length, !length_app, length_replicate.
    rewrite (Nat.div_small (length k) 8) by done. simpl. lia.
  - rewrite encode_bytes_long by done.
    rewrite length_app, IH, adjust_length, !length_app, Hg.
    replace (8 + length k)%nat with (length k + 1 * 8)%nat by lia.
    rewrite (Nat.div_add (length k) 1 8) by done. simpl length. lia.
Qed.

(** ** The order of encodings *)

Lemma key_cmp_app_same g1 g2 x y : length g1 = length g2 →
  key_cmp (g1 ++ x) (g2 ++ y) =
  match key_cmp g1 g2 with Eq => key_cmp x y | c => c end.
Proof.
  revert g2. induction g1 as [|a g1 IH]; intros [|b g2] H; simplify_eq/=; [done|].
  destruct (Z.compare a b); auto.
Qed.

Lemma key_cmp_zeros n p b m q : wf_key b → n = (length b + m)%nat → p < q →
  key_cmp (replicate n 0 ++ [p]) (b ++ replicate m 0 ++ [q]) = Lt.
Proof.
  intros Hb -> Hpq. induction b as [|y b IH]; simpl.
  - induction m; simpl; [by rewrite (proj2 (Z.compare_lt_iff p q)) | done].
  - apply Forall_cons in Hb as [Hy Hb]. unfold in_u8 in Hy.
    destruct (Z.compare_spec 0 y); [by apply IH | done | lia].
Qed.

(** Two padded tails compare as the tails do, when the shorter one has the
    smaller marker. *)
Lemma key_cmp_padded a b n m p q : wf_key a → wf_key b →
  (length a + n = length b + m)%nat →
  ((m < n)%nat → p < q) → ((n < m)%nat → q < p) → (n = m → p = q) →
  key_cmp (a ++ replicate n 0 ++ [p]) (b ++ replicate m 0 ++ [q]) = key_cmp a b.
Proof.
  intros Ha Hb. revert b Hb. induction Ha as [|x a Hx Ha IH]; intros b Hb Hlen Hlt Hgt Heq.
  - destruct b as [|y b]; simpl in Hlen.
    + rewrite (Heq Hlen), Hlen. simpl. apply KeyOrder.compare_refl.
    + rewrite app_nil_l, (key_cmp_zeros n p (y :: b) m q); [done | done | done | apply Hlt; lia].
  - destruct b as [|y b]; simpl in Hlen.
    + rewrite KeyOrder.compare_antisym, app_nil_l.
      rewrite (key_cmp_zeros m q (x :: a) n p); [done | by constructor | simpl; lia |].
      apply Hgt. lia.
    + apply Forall_cons in Hb as [_ Hb]. simpl.
      destruct (Z.compare x y); [|done..]. apply IH; [done | lia | done..].
Qed.

Lemma key_cmp_short_long a g r : wf_key a → wf_key g → (length a < length g)%nat →
  key_cmp a (g ++ r) =
  match key_cmp (a ++ replicate (length g - length a) 0) g with Eq => Lt | c => c end.
Proof.
  intros Ha. revert g. induction Ha as [|x a Hx Ha IH]; intros [|y g] Hg Hlen; simpl in *; try lia.
  - pose proof (replicate_min_le (S (length g)) (y :: g) Hg ltac:(simpl; lia)) as Hle.
    unfold KeyOrder.le in Hle. simpl in Hle.
    by destruct (Z.compare 0 y), (key_cmp (replicate (length g) 0) g).
  - apply Forall_cons in Hg as [_ Hg]. destruct (Z.compare x y); [|done..].
    apply IH; [done|lia].
Qed.

Lemma key_cmp_last_long a g r s : wf_key a → wf_key g → length g = 8%nat → (length a < 8)%nat →
  key_cmp (enc_last false a) ((g ++ [255]) ++ s) = key_cmp a (g ++ r).
Proof.
  intros Ha Hg Hlen Hl. rewrite (key_cmp_short_long a g r) by (done || lia). rewrite Hlen.
  unfold enc_last; simpl. rewrite (app_assoc a), <- (app_assoc g), key_cmp_app_same.
  2: { rewrite length_app, length_replicate. lia. }
  destruct (key_cmp (a ++ replicate (8 - length a) 0) g); [|done..].
  cbn [app KeyOrder.compare].
  destruct (Z.compare_spec (247 + Z.of_nat (length a)) 255); [lia | done | lia].
Qed.

Lemma encode_bytes_cmp a b : wf_key a → wf_key b →
  key_cmp (encode_bytes a false) (encode_bytes b false) = key_cmp a b.
Proof.
  revert b. induction a as [a Ha | g a Hg IH] using chunk8_ind; intros b Hwa Hwb.
  - rewrite encode_bytes_short by done.
    destruct (decide (length b < 8)%nat) as [Hb|Hb].
    + rewrite encode_bytes_short by done. apply key_cmp_padded; (done || lia).
    + rewrite <- (take_drop 8 b). rewrite <- (take_drop 8 b) in Hwb.
      apply Forall_app in Hwb as [Hw1 Hw2].
      rewrite encode_bytes_long by (rewrite length_take; lia).
      apply key_cmp_last_long; [done..| rewrite length_take; lia | done].
  - apply Forall_app in Hwa as [Hwg Hwa]. rewrite encode_bytes_long by done.
    destruct (decide (length b < 8)%nat) as [Hb|Hb].
    + rewrite (encode_bytes_short b) by done. rewrite (KeyOrder.compare_antisym b).
      rewrite (KeyOrder.compare_antisym (enc_last false b)). f_equal.
      by apply key_cmp_last_long.
    + rewrite <- (take_drop 8 b). rewrite <- (take_drop 8 b) in Hwb.
      apply Forall_app in Hwb as [Hw1 Hw2].
      assert (length (take 8 b) = 8%nat) as Hl by (rewrite length_take; lia).
      rewrite (encode_bytes_long (take 8 b)) by done. simpl.
      rewrite <- !app_assoc. rewrite !key_cmp_app_same by congruence.
      destruct (key_cmp g (take 8 b)); [|done..]. simpl. by apply IH.
Qed.

(** Complementing every byte reverses the order of two keys neither of which is
    a prefix of the other. *)
Lemma key_cmp_map_not a b : wf_key a → wf_key b →
  ¬ a `prefix_of` b → ¬ b `prefix_of` a →
  key_cmp (map not_u8 a) (map not_u8 b) = key_cmp b a.
Proof.
  intros Ha. revert b. induction Ha as [|x a Hx Ha IH]; intros [|y b] Hb H1 H2; simpl.
  1-3: by destruct (H1 (prefix_nil _)) || destruct (H2 (prefix_nil _)).
  apply Forall_cons in Hb as [Hy Hb]. rewrite !not_u8_sub by done.
  destruct (Z.compare_spec (255 - x) (255 - y)), (Z.compare_spec y x); try lia; auto.
  subst. apply IH; [done | |]; intros Hp; [apply H1 | apply H2]; by apply prefix_cons.
Qed.

(** ** Decoding *)

(** The decoder without the in-place moves: [rem] is what is still to be read,
    [acc] the groups already decoded. *)
Fixpoint dec_stream (fuel : nat) (rem : list Z) (desc : bool) (acc : list Z) : Result (list Z) :=
  match fuel with
  | O => Err (InternalError "unexpected EOF")
  | S fuel' =>
      if (length rem <=? 8)%nat then Err (InternalError "unexpected EOF") else
      let g := take 8 rem in
      let marker := default 0 (rem !! 8%nat) in
      let pad := Z.to_nat (if desc then marker else 255 - marker) in
      if (0 <? pad)%nat then
        if (8 <? pad)%nat then Err (InternalError "invalid key padding") else
        if negb (bool_decide (drop (8 - pad) g = adjust_bytes_order (replicate pad 0) desc))
        then Err (InternalError "invalid key padding")
        else Ok (adjust_bytes_order (acc ++ take (8 - pad) g) desc)
      else dec_stream fuel' (drop 9 rem) desc (acc ++ g)
  end.

Lemma copy_within_group acc gap g rest : length g = 8%nat →
  copy_within (acc ++ gap ++ g ++ rest) (length acc + length gap)
    (length acc + length gap + 8) (length acc) =
  (acc ++ g) ++ drop 8 (gap ++ g) ++ rest.
Proof.
  intros Hg. unfold copy_within.
  replace (length acc + length gap + 8 - (length acc + length gap))%nat with 8%nat by lia.
  rewrite take_app_length, <- app_assoc. do 2 f_equal.
  - rewrite app_assoc, <- length_app, drop_app_length, take_app_le by lia.
    rewrite <- Hg. by rewrite firstn_all.
  - rewrite drop_app_add, (app_assoc gap), drop_app_le; [done|].
    rewrite length_app. lia.
Qed.

(** The in-place loop computes what the stream decoder computes. *)
Lemma decode_loop_stream fuel : ∀ acc gap rem desc,
  decode_loop fuel (acc ++ gap ++ rem) desc (length acc) (length acc + length gap) =
  dec_stream fuel rem desc acc.
Proof.
  induction fuel as [|fuel IH]; intros acc gap rem desc; [done|].
  cbn [decode_loop dec_stream]. unfold ENC_GROUP_SIZE, ENC_MARKER.
  rewrite !length_app.
  destruct (Nat.leb_spec (length rem) 8) as [Hle|Hgt].
  { by rewrite (leb_correct _ _) by lia. }
  rewrite (proj2 (Nat.leb_gt _ _)) by lia.
  set (g := take 8 rem). set (rest := drop 8 rem).
  assert (Hg : length g = 8%nat) by (unfold g; rewrite length_take; lia).
  assert (Hrem : rem = g ++ rest) by (symmetry; apply take_drop).
  clearbody g rest. subst rem. rewrite copy_within_group by done.
  rewrite length_app, Hg in Hgt. destruct rest as [|m rest]; [simpl in Hgt; lia|].
  assert (Hgap : length (drop 8 (gap ++ g)) = length gap).
  { rewrite length_drop, length_app. lia. }
  set (gap' := drop 8 (gap ++ g)) in *. clearbody gap'.
  replace (((acc ++ g) ++ gap' ++ m :: rest) !! (length acc + length gap + 8)%nat) with (Some m).
  2: { rewrite app_assoc, lookup_app_r by (rewrite !length_app; lia).
       rewrite !length_app, Hg, Hgap. by replace (_ - _)%nat with 0%nat by lia. }
  replace ((g ++ m :: rest) !! 8%nat) with (Some m).
  2: { rewrite lookup_app_r by lia. by rewrite Hg. }
  cbn [default id from_option]. set (pad := Z.to_nat _). clearbody pad.
  destruct (Nat.ltb_spec 0 pad) as [Hpad|Hpad].
  - destruct (Nat.ltb_spec 8 pad) as [|Hpad8]; [done|]. rewrite padding_adjust by done.
    rewrite <- (app_assoc acc).
    replace (length acc + 8 - pad)%nat with (length acc + (8 - pad))%nat by lia.
    rewrite drop_app_add, drop_app_le by lia.
    rewrite take_app_le by (rewrite length_drop; lia).
    rewrite (take_ge (drop (8 - pad) g)) by (rewrite length_drop; lia).
    rewrite (take_app_add acc), take_app_le by lia. by destruct desc.
  - rewrite <- (IH (acc ++ g) (gap' ++ [m]) (drop 9 (g ++ m :: rest)) desc).
    rewrite drop_app_ge by lia. rewrite Hg. simpl. rewrite drop_0, !length_app, Hg, Hgap.
    simpl. rewrite <- (app_assoc gap'). simpl. f_equal; lia.
Qed.

Lemma decode_bytes_stream data desc : data ≠ [] →
  decode_bytes_in_place data desc = dec_stream (S (length data)) data desc [].
Proof.
  intros Hne. unfold decode_bytes_in_place. destruct data as [|b data]; [done|].
  cbn [is_empty]. apply (decode_loop_stream _ [] []).
Qed.

Lemma adjust_involutive k desc : wf_key k →
  adjust_bytes_order (adjust_bytes_order k desc) desc = k.
Proof.
  intros Hk. destruct desc; [|done]. simpl. rewrite map_map.
  induction Hk as [|x k Hx Hk IH]; simpl; [done|]. by rewrite not_u8_involutive, IH.
Qed.

Lemma adjust_wf k desc : wf_key k → wf_key (adjust_bytes_order k desc).
Proof. destruct desc; [|done]. intros _. apply Forall_map, Forall_true. intros. apply not_u8_range. Qed.

Lemma adjust_marker (desc : bool) m (n : nat) : in_u8 m → (n ≤ 8)%nat →
  adjust_bytes_order [255 - Z.of_nat n] desc = [m] ↔
  Z.to_nat (if desc then m else 255 - m) = n.
Proof.
  intros Hm Hn. unfold in_u8 in *. destruct desc; simpl.
  - rewrite not_u8_sub by (unfold in_u8; lia). split; [intros [= <-]; lia | intros <-; f_equal; lia].
  - split; [intros [= <-]; lia | intros <-; f_equal; lia].
Qed.

Lemma enc_last_split desc k : (length k < 8)%nat →
  enc_last desc k = (adjust_bytes_order k desc ++ adjust_bytes_order (replicate (8 - length k) 0) desc)
    ++ adjust_bytes_order [255 - Z.of_nat (8 - length k)] desc.
Proof.
  intros. unfold enc_last. rewrite !adjust_app, <- app_assoc. do 3 f_equal. f_equal. lia.
Qed.

(** One step of the stream decoder on a group, its marker and the rest. *)
Lemma dec_stream_step fuel g m rest desc acc : length g = 8%nat →
  dec_stream (S fuel) (g ++ m :: rest) desc acc =
  let pad := Z.to_nat (if desc then m else 255 - m) in
  if (0 <? pad)%nat then
    if (8 <? pad)%nat then Err (InternalError "invalid key padding") else
    if negb (bool_decide (drop (8 - pad) g = adjust_bytes_order (replicate pad 0) desc))
    then Err (InternalError "invalid key padding")
    else Ok (adjust_bytes_order (acc ++ take (8 - pad) g) desc)
  else dec_stream fuel rest desc (acc ++ g).
Proof.
  intros Hg. cbn [dec_stream]. rewrite length_app, Hg.
  rewrite (proj2 (Nat.leb_gt _ _)) by (simpl; lia).
  rewrite (proj1 (take_drop_app 8 g (m :: rest) Hg)), lookup_app_r by lia. rewrite Hg.
  rewrite drop_app_ge by lia. rewrite Hg. done.
Qed.

Lemma dec_stream_complete k : ∀ fuel desc acc rest, wf_key k →
  (length (encode_bytes k desc ++ rest) < fuel)%nat →
  dec_stream fuel (encode_bytes k desc ++ rest) desc acc = Ok (adjust_bytes_order acc desc ++ k).
Proof.
  induction k as [k Hk | g k Hg IH] using chunk8_ind; intros fuel desc acc rest Hwf Hf;
    (destruct fuel as [|fuel]; [lia|]).
  - rewrite encode_bytes_short, enc_last_split, <- app_assoc by done.
    destruct (adjust_bytes_order [255 - Z.of_nat (8 - length k)] desc) as [|m [|]] eqn:Em;
      [by destruct desc | | by destruct desc].
    assert (in_u8 m) as Hm by (destruct desc; simplify_eq/=; [apply not_u8_range | unfold in_u8; lia]).
    apply adjust_marker in Em; [|done|lia]. cbn [app].
    rewrite dec_stream_step by (rewrite length_app, !adjust_length, length_replicate; lia).
    cbv zeta. rewrite Em.
    rewrite (proj2 (Nat.ltb_lt 0 _)), (proj2 (Nat.ltb_ge 8 _)) by lia.
    replace (8 - (8 - length k))%nat with (length (adjust_bytes_order k desc))
      by (rewrite adjust_length; lia).
    rewrite drop_app_length, take_app_length, bool_decide_eq_true_2 by done. simpl.
    by rewrite adjust_app, adjust_involutive.
  - apply Forall_app in Hwf as [Hwg Hwk]. rewrite encode_bytes_long, adjust_app in * by done.
    rewrite <- !app_assoc in *. rewrite !length_app, adjust_length, Hg in Hf.
    destruct (adjust_bytes_order [255] desc) as [|m [|]] eqn:Em;
      [by destruct desc | | by destruct desc].
    assert (in_u8 m) as Hm by (destruct desc; simplify_eq/=; [apply not_u8_range | unfold in_u8; lia]).
    change 255 with (255 - Z.of_nat 0) in Em. apply adjust_marker in Em; [|done|lia]. cbn [app].
    rewrite dec_stream_step by (rewrite adjust_length; lia). cbv zeta. rewrite Em. cbn [Nat.ltb Nat.leb].
    rewrite IH by (rewrite ?length_app; simpl in Hf; (done || lia)).
    by rewrite adjust_app, adjust_involutive, <- app_assoc.
Qed.

Lemma dec_stream_sound fuel : ∀ rem desc acc k, wf_key rem →
  dec_stream fuel rem desc acc = Ok k →
  ∃ k' rest, wf_key k' ∧ rem = encode_bytes k' desc ++ rest ∧ k = adjust_bytes_order acc desc ++ k'.
Proof.
  induction fuel as [|fuel IH]; intros rem desc acc k Hwf Hdec; [done|].
  destruct (decide (length rem ≤ 8)%nat) as [Hle|Hgt].
  { cbn [dec_stream] in Hdec. by rewrite leb_correct in Hdec by done. }
  assert (∃ g m rest, rem = g ++ m :: rest ∧ length g = 8%nat) as (g & m & rest & -> & Hg).
  { exists (take 8 rem). destruct (drop 8 rem) as [|m rest] eqn:E.
    - apply (f_equal length) in E. rewrite length_drop in E. simpl in E. lia.
    - exists m, rest. rewrite <- E, take_drop. split; [done|]. rewrite length_take. lia. }
  apply Forall_app in Hwf as [Hwg [Hm Hwr]%Forall_cons].
  rewrite dec_stream_step in Hdec by done. cbv zeta in Hdec.
  set (pad := Z.to_nat (if desc then m else 255 - m)) in *.
  destruct (Nat.ltb_spec 0 pad) as [Hpad|Hpad].
  - destruct (Nat.ltb_spec 8 pad) as [|Hpad8]; [done|].
    case_bool_decide as Hdrop; [|done]. simpl in Hdec. simplify_eq.
    exists (adjust_bytes_order (take (8 - pad) g) desc), rest.
    assert (length (take (8 - pad) g) = (8 - pad)%nat) as Ht by (rewrite length_take; lia).
    assert (wf_key (take (8 - pad) g)) as Hwt by by apply Forall_take.
    split_and!; [by apply adjust_wf | | by rewrite adjust_app].
    rewrite encode_bytes_short, enc_last_split by (rewrite adjust_length; lia).
    rewrite adjust_involutive, adjust_length, Ht by done.
    replace (8 - (8 - pad))%nat with pad by lia. rewrite <- Hdrop, take_drop.
    rewrite (proj2 (adjust_marker desc m pad Hm Hpad8)) by done. by rewrite <- app_assoc.
  - apply IH in Hdec as (k' & rest' & Hwk & -> & ->); [|done].
    exists (adjust_bytes_order g desc ++ k'), rest'.
    split_and!; [apply Forall_app; split; [by apply adjust_wf | done] | |].
    + rewrite encode_bytes_long by (by rewrite adjust_length).
      rewrite adjust_app, adjust_involutive by done. change 255 with (255 - Z.of_nat 0).
      rewrite (proj2 (adjust_marker desc m 0 Hm ltac:(lia))) by (unfold pad in Hpad; lia).
      by rewrite <- !app_assoc.
    + by rewrite adjust_app, app_assoc.
Qed.

(** ** Theorems *)

(** C31: decoding a vector of bytes succeeds exactly on the encodings.  The
    in-place decoder returns [k] if and only if the vector is empty (and [k] is
    empty), or starts with the encoding of [k] in the requested order; bytes after
    the encoding are ignored.  In particular every encoding decodes to the key it was made
    from, and the decoder never accepts a non-canonical padding. *)
Theorem decode_encode_iff data desc k : wf_key data →
  decode_bytes_in_place data desc = Ok k ↔
  (data = [] ∧ k = []) ∨ (wf_key k ∧ ∃ rest, data = encode_bytes k desc ++ rest).
Proof.
  intros Hwf. destruct (decide (data = [])) as [->|Hne].
  { unfold decode_bytes_in_place; simpl. split.
    - intros [= <-]. by left.
    - intros [[_ ->]|[_ [rest E]]]; [done|].
      apply (f_equal length) in E. rewrite length_app, encode_bytes_length in E.
      unfold max_encoded_bytes_size, ENC_GROUP_SIZE in E. simpl length in E. lia. }
  rewrite decode_bytes_stream by done. split.
  - intros (k' & rest & Hk & E & ->)%dec_stream_sound; [|done]. right.
    by destruct desc; split; eauto.
  - intros [[? _]|[Hk [rest ->]]]; [done|].
    rewrite dec_stream_complete by (done || lia). by destruct desc.
Qed.

Lemma decode_encode_iff_witness :
  decode_bytes_in_place [1; 2; 3; 0; 0; 0; 0; 0; 250; 77] false = Ok [1; 2; 3].
Proof.
  apply (decode_encode_iff [1; 2; 3; 0; 0; 0; 0; 0; 250; 77] false [1; 2; 3]).
  - unfold wf_key, in_u8. repeat constructor; lia.
  - right. split; [unfold wf_key, in_u8; repeat constructor; lia|]. exists [77]. by vm_compute.
Defined.

Lemma encode_prefix_free a b s desc : wf_key a → wf_key b →
  encode_bytes b desc = encode_bytes a desc ++ s → a = b.
Proof.
  intros Ha Hb E.
  pose proof (dec_stream_complete a (S (length (encode_bytes b desc))) desc [] s Ha) as H1.
  pose proof (dec_stream_complete b (S (length (encode_bytes b desc))) desc [] [] Hb) as H2.
  rewrite app_nil_r in H2. rewrite <- E in H1.
  rewrite H1 in H2 by lia. injection (H2 ltac:(lia)) as E'. by destruct desc.
Qed.

(** The encoding is memcomparable: two encoded keys compare byte by byte as
    the keys do, ascending, and in the opposite order when encoded descending. *)
Theorem encode_bytes_order a b desc : wf_key a → wf_key b →
  key_cmp (encode_bytes a desc) (encode_bytes b desc) =
  (if desc then key_cmp b a else key_cmp a b).
Proof.
  intros Ha Hb. destruct desc; [|by apply encode_bytes_cmp].
  destruct (decide (a = b)) as [->|Hne]; [by rewrite !KeyOrder.compare_refl|].
  rewrite !encode_bytes_desc, key_cmp_map_not; [by apply encode_bytes_cmp | by apply encode_bytes_wf.. | |].
  - intros [s E]. by apply Hne, (encode_prefix_free a b s false).
  - intros [s E]. by apply Hne, eq_sym, (encode_prefix_free b a s false).
Qed.

Lemma encode_bytes_order_witness :
  key_cmp (encode_bytes [1; 2] true) (encode_bytes [1; 2; 0] true) = Gt.
Proof.
  apply (encode_bytes_order [1; 2] [1; 2; 0] true); unfold wf_key, in_u8; repeat constructor; lia.
Defined.

Lemma encode_bytes_lt a b : wf_key a → wf_key b →
  key_lt (to_encoded a) (to_encoded b) ↔ key_lt a b.
Proof. intros. unfold KeyOrder.lt, to_encoded. by rewrite encode_bytes_cmp. Qed.

Lemma encode_bytes_le a b : wf_key a → wf_key b →
  key_le (to_encoded a) (to_encoded b) ↔ key_le a b.
Proof. intros. unfold KeyOrder.le, to_encoded. by rewrite encode_bytes_cmp. Qed.

Lemma decode_to_encoded k : wf_key k → decode_bytes_in_place (to_encoded k) false = Ok k.
Proof.
  intros Hk. rewrite decode_bytes_stream.
  - rewrite <- (app_nil_r (to_encoded k)) at 2. unfold to_encoded.
    rewrite dec_stream_complete; [done | done |]. rewrite length_app. simpl. lia.
  - intros E. apply (f_equal length) in E. unfold to_encoded in E.
    rewrite encode_bytes_length in E. unfold max_encoded_bytes_size, ENC_GROUP_SIZE in E.
    simpl length in E. lia.
Qed.
