(* ===== verification/Ranges.v ===== *)
(** * Key ranges (src/src/kv/bound_range.rs, src/src/store/mod.rs)

    [BoundRange] is what the API accepts, [(start, end)] pairs with an empty end
    for "unbounded" is what TiKV and PD understand.  The theorems relate the two
    readings and the conversions between them, and show that the per-region
    request range is the intersection of the region and the requested range. *)

From S2P Require Import Prelude Keys.

Module BoundRange.
Record t := mk { from : Bound; to : Bound }.
#[global] Instance eq_dec : EqDecision t.
Proof. solve_decision. Defined.

(** [BoundRange::new], [BoundRange::range_from] *)
Definition new (from to : Bound) : t := mk from to.
Definition range_from (k : Key) : t := mk (Included k) Unbounded.

(** [BoundRange::into_keys] *)
Definition into_keys (r : t) : Key * option Key :=
  let start := match from r with
               | Included v => v
               | Excluded v => next_key v
               | Unbounded => EMPTY
               end in
  let end_ := match to r with
              | Included v => Some (next_key v)
              | Excluded v => Some v
              | Unbounded => None
              end in
  (start, end_).

(** [RangeBounds::start_bound] and [RangeBounds::end_bound]: an empty upper bound
    means "unbounded". *)
Definition start_bound (r : t) : Bound :=
  match from r with
  | Included f => Included f
  | Excluded f => Excluded f
  | Unbounded => Unbounded
  end.
Definition end_bound (r : t) : Bound :=
  match to r with
  | Included t => if is_empty t then Unbounded else Included t
  | Excluded t => if is_empty t then Unbounded else Excluded t
  | Unbounded => Unbounded
  end.

(** [RangeBounds::contains] of the standard library, which [BTreeMap::range] uses
    through [start_bound] and [end_bound]. *)
Definition contains (r : t) (k : Key) : bool :=
  match start_bound r with
  | Included s => key_leb s k
  | Excluded s => key_ltb s k
  | Unbounded => true
  end &&
  match end_bound r with
  | Included e => key_leb k e
  | Excluded e => key_ltb k e
  | Unbounded => true
  end.

(** The [From] conversions of Rust ranges, pairs and bounds. *)
Definition from_range (start end_ : Key) : t := new (Included start) (Excluded end_).
Definition from_range_from (start : Key) : t := new (Included start) Unbounded.
Definition from_range_to (end_ : Key) : t := new Unbounded (Excluded end_).
Definition from_range_inclusive (start end_ : Key) : t := new (Included start) (Included end_).
Definition from_range_to_inclusive (end_ : Key) : t := new Unbounded (Included end_).
Definition from_range_full : t := new Unbounded Unbounded.
Definition from_pair_opt (start : Key) (end_ : option Key) : t :=
  let to := match end_ with
            | None => Unbounded
            | Some to => into_upper_bound to
            end in
  new (into_lower_bound start) to.
Definition from_pair (start end_ : Key) : t :=
  new (into_lower_bound start) (into_upper_bound end_).
Definition convert_to_bound_key (b : Bound) : Bound :=
  match b with
  | Included k => Included k
  | Excluded k => Excluded k
  | Unbounded => Unbounded
  end.
Definition from_bounds (from to : Bound) : t :=
  new (convert_to_bound_key from) (convert_to_bound_key to).

(** Conversions to and from [kvrpcpb::KeyRange], as its [(start_key, end_key)]. *)
Definition to_key_range (r : t) : Key * Key :=
  let '(start, end_) := into_keys r in (start, default [] end_).
Definition from_key_range (r : Key * Key) : t :=
  new (into_lower_bound r.1) (into_upper_bound r.2).
End BoundRange.

(** The range of a TiKV request or of a region: from the start, inclusive, to the
    end, exclusive, unbounded when the end is empty. *)
Definition in_key_range (r : Key * Key) (k : Key) : Prop :=
  key_le r.1 k ∧ (r.2 = [] ∨ key_lt k r.2).

#[export] Instance in_key_range_dec r k : Decision (in_key_range r k).
Proof. unfold in_key_range. apply _. Defined.

(** [range_intersection] (src/src/store/mod.rs) *)
Definition range_intersection (region_range range : Key * Key) : Key * Key :=
  let '(lower, upper) := region_range in
  let up := if is_empty upper then range.2
            else if is_empty range.2 then upper
            else key_min upper range.2 in
  (key_max lower range.1, up).

(** The [BoundRange] that [region_stream_for_range] (src/src/store/mod.rs) asks
    the regions of. *)
Definition stream_bound_range (range : Key * Key) : BoundRange.t :=
  if is_empty range.2 then BoundRange.range_from range.1
  else BoundRange.from_pair range.1 range.2.

(** ** Lemmas *)

Lemma is_empty_spec {A} (l : list A) : reflect (l = []) (is_empty l).
Proof. destruct l; by constructor. Qed.

Lemma key_max_le a b k : key_le (key_max a b) k ↔ key_le a k ∧ key_le b k.
Proof.
  unfold key_max. case_key; (split; [intros H; split; key_order | intros [H1 H2]; key_order]).
Qed.
Lemma key_lt_min k a b : key_lt k (key_min a b) ↔ key_lt k a ∧ key_lt k b.
Proof.
  unfold key_min. case_key; (split; [intros H; split; key_order | intros [H1 H2]; key_order]).
Qed.

Lemma into_lower_bound_keys k :
  match into_lower_bound k with Included v => v | Excluded v => next_key v | Unbounded => [] end = k.
Proof.
  unfold into_lower_bound. destruct (zero_terminated k) eqn:E; [|done].
  symmetry. by apply zero_terminated_iff.
Qed.
Lemma into_upper_bound_keys k :
  match into_upper_bound k with
  | Included v => Some (next_key v) | Excluded v => Some v | Unbounded => None end = Some k.
Proof.
  unfold into_upper_bound. destruct (zero_terminated k) eqn:E; [|done].
  symmetry. f_equal. by apply zero_terminated_iff.
Qed.

Lemma from_pair_into_keys s e : BoundRange.into_keys (BoundRange.from_pair s e) = (s, Some e).
Proof.
  unfold BoundRange.into_keys, BoundRange.from_pair. simpl.
  by rewrite into_lower_bound_keys, into_upper_bound_keys.
Qed.

(** ** Theorems *)

(** A [BoundRange] built from a pair of keys, or received as a
    [kvrpcpb::KeyRange], lowers to the same pair of keys it came from, whether or
    not the keys end in a zero byte: the detour through inclusive and exclusive
    bounds loses nothing. *)
Theorem bound_range_keys_roundtrip s e :
  BoundRange.into_keys (BoundRange.from_pair s e) = (s, Some e) ∧
  BoundRange.into_keys (BoundRange.from_pair_opt s None) = (s, None) ∧
  BoundRange.to_key_range (BoundRange.from_key_range (s, e)) = (s, e).
Proof.
  split_and!.
  - apply from_pair_into_keys.
  - unfold BoundRange.into_keys, BoundRange.from_pair_opt. simpl. by rewrite into_lower_bound_keys.
  - unfold BoundRange.to_key_range.
    change (BoundRange.from_key_range (s, e)) with (BoundRange.from_pair s e).
    by rewrite from_pair_into_keys.
Qed.

(** The two readings of a range agree.  For every range whose upper bound is
    not "inclusive up to the empty key", a key is in the range in the sense of
    Rust's [RangeBounds] (what the transaction buffer filters by) exactly when it lies
    between the start and end keys the range is lowered to (what TiKV scans). *)
Theorem bound_range_contains_keys r k : wf_key k →
  BoundRange.to r ≠ Included [] →
  BoundRange.contains r k = true ↔ in_key_range (BoundRange.to_key_range r) k.
Proof.
  intros Hk Hto. destruct r as [f t].
  unfold BoundRange.contains, BoundRange.to_key_range, BoundRange.into_keys,
    BoundRange.start_bound, BoundRange.end_bound, in_key_range; simpl in *.
  rewrite andb_true_iff. apply and_iff_both.
  - destruct f; simpl; [by destruct (key_leb_spec k0 k); split | |]; cycle 1.
    { split; [intros _; apply key_empty_le | done]. }
    rewrite <- next_key_lt_iff by done. by destruct (key_ltb_spec k0 k); split.
  - destruct t as [e|e|]; simpl.
    + assert (next_key e ≠ []) by (unfold next_key; by destruct e).
      destruct e as [|b e]; [done|]. simpl is_empty. cbn iota.
      destruct (key_leb_spec k (b :: e)) as [Hle|Hle]; split; try done.
      * intros _. right. pose proof (next_key_gt (b :: e)). key_order.
      * intros [?|Hlt]; [done|]. apply key_not_le in Hle. apply next_key_least in Hle; [|done].
        exfalso. key_order.
    + destruct (is_empty_spec e) as [->|Hne]; [by split; [left|]|].
      destruct (key_ltb_spec k e); split; naive_solver.
    + split; [by left | done].
Qed.

Lemma bound_range_contains_keys_witness :
  in_key_range (BoundRange.to_key_range (BoundRange.from_range_inclusive [1] [2])) [2].
Proof.
  apply (bound_range_contains_keys (BoundRange.from_range_inclusive [1] [2]) [2]).
  - unfold wf_key, in_u8. repeat constructor; lia.
  - discriminate.
  - by vm_compute.
Defined.

(** The excluded case is reachable and the two readings then differ: the pair
    [("", "\0")] selects only the empty key, but converting it to a [BoundRange] gives
    an inclusive upper bound at the empty key, which [RangeBounds] reads as unbounded. *)
Theorem bound_range_zero_end_diverges :
  let r := BoundRange.from_pair [] [0] in
  BoundRange.to r = Included [] ∧
  BoundRange.contains r [7] = true ∧ ¬ in_key_range (BoundRange.to_key_range r) [7].
Proof. vm_compute. split_and!; [done | done |]. by intros [_ [? | ?]]. Qed.

(** The range sent to a region is the intersection of the region's range and the
    requested one: it has exactly the keys that are in both, for ranges with
    bounded or unbounded ends on either side. *)
Lemma range_intersection_iff region_range range k :
  in_key_range (range_intersection region_range range) k ↔
  in_key_range region_range k ∧ in_key_range range k.
Proof.
  destruct region_range as [lo up], range as [s e]. unfold range_intersection, in_key_range; simpl.
  rewrite key_max_le. destruct (is_empty_spec up) as [->|Hu]; [naive_solver|].
  destruct (is_empty_spec e) as [->|He]; [naive_solver|].
  rewrite key_lt_min. assert (key_min up e ≠ []) by (unfold key_min; by case_key).
  naive_solver.
Qed.
