(* ===== verification/BTree.v ===== *)
(** * Ordered maps

    [std::collections::BTreeMap<Key, V>] as an association list in strictly
    ascending key order: the operations the client uses of it, and the laws of
    the map interface that its clients rely on. *)

From Stdlib Require Import Sorting.Sorted.
From stdpp Require sorting.
From S2P Require Import Prelude Keys Ranges.

Abbreviation bmap V := (list (list Z * V)) (only parsing).

Section bmap.
Context {V : Type}.
Implicit Types (m : list (list Z * V)) (k : list Z) (v : V).

(** [BTreeMap::get] *)
Fixpoint bget (k : Key) (m : bmap V) : option V :=
  match m with
  | [] => None
  | (k', v) :: m' =>
      match key_cmp k k' with Eq => Some v | Lt => None | Gt => bget k m' end
  end.

(** [BTreeMap::insert] *)
Fixpoint binsert (k : Key) (v : V) (m : bmap V) : bmap V :=
  match m with
  | [] => [(k, v)]
  | (k', v') :: m' =>
      match key_cmp k k' with
      | Eq => (k, v) :: m'
      | Lt => (k, v) :: (k', v') :: m'
      | Gt => (k', v') :: binsert k v m'
      end
  end.

(** [BTreeMap::remove] *)
Fixpoint bremove (k : Key) (m : bmap V) : bmap V :=
  match m with
  | [] => []
  | (k', v') :: m' =>
      match key_cmp k k' with
      | Eq => m'
      | Lt => (k', v') :: m'
      | Gt => (k', v') :: bremove k m'
      end
  end.

(** [BTreeMap::range]: the entries of a range, in order. *)
Definition brange (r : BoundRange.t) (m : bmap V) : bmap V :=
  List.filter (λ p, BoundRange.contains r p.1) m.

(** [iter.collect::<BTreeMap<_, _>>()]: a later duplicate key wins. *)
Definition bcollect (l : list (list Z * V)) : bmap V :=
  foldl (λ m p, binsert p.1 p.2 m) [] l.

(** Strictly ascending keys. *)
Definition bwf (m : bmap V) : Prop := StronglySorted key_lt (map fst m).

Lemma bwf_cons k v m : bwf ((k, v) :: m) ↔ Forall (λ p, key_lt k p.1) m ∧ bwf m.
Proof.
  unfold bwf. simpl. split.
  - intros H. apply StronglySorted_inv in H as [H1 H2]. by rewrite Forall_map in H2.
  - intros [H1 H2]. constructor; [done|]. by apply Forall_map.
Qed.

Lemma bget_lt_all k m : Forall (λ p, key_lt k p.1) m → bget k m = None.
Proof.
  intros H. destruct m as [|[k' v] m]; simpl; [done|].
  apply Forall_cons in H as [H _]. unfold KeyOrder.lt in H. simpl in H. by rewrite H.
Qed.

Lemma Forall_lt_trans k k' m : key_lt k k' → Forall (λ p : list Z * V, key_lt k' p.1) m →
  Forall (λ p, key_lt k p.1) m.
Proof. intros Hk Hm. eapply Forall_impl; [exact Hm|]. intros p Hp. simpl in Hp. key_order. Qed.

Lemma bget_Some_In k v m : bwf m → bget k m = Some v ↔ (k, v) ∈ m.
Proof.
  induction m as [|[k' v'] m IH]; intros Hm; simpl; [by rewrite elem_of_nil|].
  apply bwf_cons in Hm as [Hlt Hm]. rewrite elem_of_cons.
  destruct (KeyOrder.compare_spec k k') as [->|H|H].
  - split; [intros [= ->]; by left|]. intros [[= ->]|Hin]; [done|].
    rewrite Forall_forall in Hlt. apply Hlt in Hin. simpl in Hin.
    by destruct (KeyOrder.lt_irrefl k').
  - split; [done|]. intros [[= -> ->]|Hin]; [by destruct (KeyOrder.lt_irrefl k')|].
    rewrite Forall_forall in Hlt. apply Hlt in Hin. simpl in Hin. key_order.
  - rewrite IH by done. split; [by right|]. intros [[= -> ->]|]; [|done].
    by destruct (KeyOrder.lt_irrefl k').
Qed.

Lemma binsert_Forall (P : Key → Prop) k v m :
  P k → Forall (λ p, P p.1) m → Forall (λ p, P p.1) (binsert k v m).
Proof.
  intros Hk. induction m as [|[k' v'] m IH]; simpl; intros H; [by repeat constructor|].
  apply Forall_cons in H as [H1 H2]. destruct (key_cmp k k'); repeat constructor; auto.
Qed.

Lemma bremove_Forall (P : Key → Prop) k m :
  Forall (λ p, P p.1) m → Forall (λ p, P p.1) (bremove k m).
Proof.
  induction m as [|[k' v'] m IH]; simpl; intros H; [done|].
  apply Forall_cons in H as [H1 H2]. destruct (key_cmp k k'); repeat constructor; auto.
Qed.

Lemma binsert_wf k v m : bwf m → bwf (binsert k v m).
Proof.
  induction m as [|[k' v'] m IH]; simpl; intros Hm; [by repeat constructor|].
  pose proof Hm as [Hlt Hm']%bwf_cons.
  destruct (KeyOrder.compare_spec k k') as [->|H|H].
  - by apply bwf_cons.
  - apply bwf_cons. split; [|done]. constructor; [done|]. by eapply Forall_lt_trans.
  - apply bwf_cons. split; [by apply binsert_Forall | auto].
Qed.

Lemma bremove_wf k m : bwf m → bwf (bremove k m).
Proof.
  induction m as [|[k' v'] m IH]; simpl; intros Hm; [done|].
  pose proof Hm as [Hlt Hm']%bwf_cons.
  destruct (key_cmp k k'); [done | done |]. apply bwf_cons. split; [by apply bremove_Forall | auto].
Qed.

Lemma bget_insert k k' v m : bwf m →
  bget k (binsert k' v m) = if decide (k' = k) then Some v else bget k m.
Proof.
  induction m as [|[k0 v0] m IH]; simpl; intros Hm.
  { destruct (KeyOrder.compare_spec k k') as [->|H|H]; case_decide; subst;
      try done; by destruct (KeyOrder.lt_irrefl k). }
  pose proof Hm as [Hlt Hm']%bwf_cons.
  destruct (KeyOrder.compare_spec k' k0) as [->|H|H]; simpl.
  - destruct (KeyOrder.compare_spec k k0) as [->|H|H]; case_decide; subst; try done;
      by destruct (KeyOrder.lt_irrefl k).
  - destruct (KeyOrder.compare_spec k k') as [->|H1|H1]; case_decide; subst;
      try done; try (by destruct (KeyOrder.lt_irrefl k)).
    destruct (KeyOrder.compare_spec k k0) as [->|H2|H2]; try done; exfalso; key_order.
  - rewrite IH by done. destruct (KeyOrder.compare_spec k k0) as [->|H2|H2]; case_decide;
      subst; try done; exfalso; key_order.
Qed.

Lemma bget_remove k k' m : bwf m →
  bget k (bremove k' m) = if decide (k' = k) then None else bget k m.
Proof.
  induction m as [|[k0 v0] m IH]; simpl; intros Hm; [by case_decide|].
  pose proof Hm as [Hlt Hm']%bwf_cons.
  destruct (KeyOrder.compare_spec k' k0) as [->|H|H]; simpl.
  - case_decide as Ek; subst; [by apply bget_lt_all|].
    destruct (KeyOrder.compare_spec k k0) as [->|Hc|Hc]; try done.
    apply bget_lt_all. by eapply Forall_lt_trans.
  - case_decide; subst; [|done].
    destruct (KeyOrder.compare_spec k k0) as [->|H2|H2]; try done; exfalso; key_order.
  - rewrite IH by done. case_decide; subst; [|done].
    destruct (KeyOrder.compare_spec k k0) as [->|H2|H2]; try done; exfalso; key_order.
Qed.

Lemma bfilter_wf (f : list Z * V → bool) m : bwf m → bwf (List.filter f m).
Proof.
  induction m as [|[k v] m IH]; simpl; intros Hm; [done|]. apply bwf_cons in Hm as [Hlt Hm].
  destruct (f (k, v)); [|auto]. apply bwf_cons. split; [|auto].
  rewrite Forall_forall in *. intros p Hp. apply Hlt.
  rewrite list_elem_of_In, filter_In in Hp. apply list_elem_of_In. tauto.
Qed.

Lemma bget_filter (f : list Z * V → bool) k m : bwf m →
  bget k (List.filter f m) =
  match bget k m with Some v => if f (k, v) then Some v else None | None => None end.
Proof.
  intros Hm. apply option_eq. intros v.
  rewrite bget_Some_In by (by apply bfilter_wf). rewrite list_elem_of_In, filter_In, <- list_elem_of_In.
  rewrite <- (bget_Some_In k v m) by done.
  destruct (bget k m) as [v'|]; [|naive_solver]. split.
  - intros [[= ->] ->]. done.
  - destruct (f (k, v')) eqn:E; [|done]. intros [= ->]. done.
Qed.

Lemma bwf_ext m1 m2 : bwf m1 → bwf m2 → (∀ k, bget k m1 = bget k m2) → m1 = m2.
Proof.
  revert m2. induction m1 as [|[k1 v1] m1 IH]; intros [|[k2 v2] m2] H1 H2 E; [done|..].
  - specialize (E k2). simpl in E. by rewrite KeyOrder.compare_refl in E.
  - specialize (E k1). simpl in E. by rewrite KeyOrder.compare_refl in E.
  - pose proof H1 as [Hl1 Hm1]%bwf_cons. pose proof H2 as [Hl2 Hm2]%bwf_cons.
    assert (k1 = k2) as <-.
    { pose proof (E k1) as E1. pose proof (E k2) as E2. simpl in E1, E2.
      rewrite KeyOrder.compare_refl in E1, E2.
      destruct (KeyOrder.compare_spec k1 k2) as [|H|H]; [done | done |].
      rewrite KeyOrder.compare_antisym in E2. unfold KeyOrder.lt in H.
      rewrite (KeyOrder.compare_antisym k2 k1) in E2. by rewrite H in E2. }
    assert (v1 = v2) as <-.
    { pose proof (E k1) as E1. simpl in E1. rewrite KeyOrder.compare_refl in E1. by simplify_eq. }
    f_equal. apply IH; [done..|]. intros k. specialize (E k). simpl in E.
    destruct (KeyOrder.compare_spec k k1) as [Hk|H|H]; [subst; by rewrite !bget_lt_all | |done].
    rewrite !bget_lt_all; [done | by eapply Forall_lt_trans..].
Qed.

Lemma bcollect_wf l : bwf (bcollect l).
Proof.
  unfold bcollect. assert (bwf ([] : bmap V)) as H by constructor. revert H.
  generalize ([] : bmap V). induction l as [|[k v] l IH]; intros m Hm; simpl; [done|].
  apply IH. by apply binsert_wf.
Qed.

(** Inserting the pairs of a list with ascending keys into an empty map gives the
    list back. *)
Lemma bget_foldl_insert k l m : bwf m → NoDup (map fst l) →
  bget k (foldl (λ m p, binsert p.1 p.2 m) m l) =
  match list_find (λ p : list Z * V, p.1 = k) l with
  | Some (_, p) => Some p.2
  | None => bget k m
  end.
Proof.
  revert m. induction l as [|[k' v] l IH]; intros m Hm Hnd; simpl; [done|].
  apply NoDup_cons in Hnd as [Hni Hnd]. rewrite IH by (done || by apply binsert_wf).
  rewrite bget_insert by done. simpl. case_decide as Ek.
  - subst. destruct (list_find _ l) as [[i p]|] eqn:E; [|done].
    exfalso. apply list_find_Some in E as (Hl & <- & _). apply Hni.
    apply list_elem_of_lookup_2, (list_elem_of_fmap_2 fst) in Hl. exact Hl.
  - by destruct (list_find _ l) as [[i p]|].
Qed.

(** The entries of a map read backwards are in strictly descending key order. *)
Lemma bwf_rev m : bwf m → StronglySorted (λ a b : list Z * V, key_lt b.1 a.1) (rev m).
Proof.
  induction m as [|[k v] m IH]; simpl; intros Hm; [constructor|].
  apply bwf_cons in Hm as [Hlt Hm]. apply stdpp.sorting.StronglySorted_app. split_and!.
  - intros x1 x2 H1 ->%list_elem_of_singleton. simpl. rewrite Forall_forall in Hlt. apply Hlt.
    rewrite list_elem_of_In in H1. apply list_elem_of_In. by apply in_rev.
  - auto.
  - repeat constructor.
Qed.

(** [BTreeMap::range(..=key).next_back()] is the entry with the greatest key at
    most [key]. *)
Lemma last_le_Some m k s v : bwf m →
  last (List.filter (λ p, key_leb p.1 k) m) = Some (s, v) ↔
  (s, v) ∈ m ∧ key_le s k ∧ ∀ s' v', (s', v') ∈ m → key_le s' k → key_le s' s.
Proof.
  induction m as [|[k' v'] m IH]; simpl; intros Hm.
  { split; [done|]. by intros [?%elem_of_nil _]. }
  apply bwf_cons in Hm as [Hlt Hm]. specialize (IH Hm). rewrite Forall_forall in Hlt.
  setoid_rewrite elem_of_cons. case_key; simpl.
  - destruct (last (List.filter (λ p, key_leb p.1 k) m)) as [[s0 v0]|] eqn:El.
    + assert (∀ x, last ((k', v') :: List.filter (λ p, key_leb p.1 k) m) = x →
        x = Some (s0, v0)) as Hx.
      { intros x <-. by rewrite last_cons, El. }
      rewrite (Hx _ eq_refl). rewrite IH. clear Hx. split.
      * intros (H1 & H2 & H3). split_and!; [by right | done |].
        intros s' x [[= -> ->]|Hin] Hle; [|by eapply H3].
        apply Hlt in H1. simpl in H1. key_order.
      * intros ([[= -> ->]|H1] & H2 & H3); [|naive_solver].
        exfalso. rewrite last_Some in El. destruct El as [l' El].
        assert ((s0, v0) ∈ List.filter (λ p, key_leb p.1 k) m) as Hin
          by (rewrite El; set_solver).
        rewrite list_elem_of_In, filter_In, <- list_elem_of_In in Hin. simpl in Hin.
        destruct Hin as [Hin Hle%bool_decide_eq_true].
        pose proof (Hlt _ Hin). simpl in *. pose proof (H3 s0 v0 (or_intror Hin) Hle). key_order.
    + rewrite last_cons, El. apply last_None in El. split.
      * intros [= -> ->]. split_and!; [by left | done |].
        intros s' x [[= -> ->]|Hin] Hle; [apply KeyOrder.le_refl|]. exfalso.
        assert ((s', x) ∈ List.filter (λ p, key_leb p.1 k) m) as Hf.
        { rewrite list_elem_of_In, filter_In, <- list_elem_of_In. split; [done|].
          by apply bool_decide_eq_true. }
        rewrite El in Hf. by apply elem_of_nil in Hf.
      * intros ([[= -> ->]|H1] & H2 & H3); [done|]. exfalso.
        assert ((s, v) ∈ List.filter (λ p, key_leb p.1 k) m) as Hf.
        { rewrite list_elem_of_In, filter_In, <- list_elem_of_In. split; [done|].
          by apply bool_decide_eq_true. }
        rewrite El in Hf. by apply elem_of_nil in Hf.
  - rewrite IH. split.
    + intros (H1 & H2 & H3). split_and!; [by right | done |].
      intros s' x [[= -> ->]|Hin] Hle; [done | by eapply H3].
    + intros ([[= -> ->]|H1] & H2 & H3); [done|]. naive_solver.
Qed.
End bmap.
