(* ===== verification/Timestamps.v ===== *)
(** * Timestamps (src/src/timestamp.rs)

    A TiKV timestamp is a [u64] with a physical part (milliseconds) above 18
    logical bits.  [SystemTime] is represented by its offset from the Unix epoch in
    nanoseconds. *)

From S2P Require Import Prelude Keys Proto Errors.

Definition PHYSICAL_SHIFT_BITS : Z := 18.
Definition LOGICAL_MASK : Z := Z.shiftl 1 PHYSICAL_SHIFT_BITS - 1.

Definition compose_ts (physical_ms logical : Z) : Result Z :=
  let ts := Z.shiftl physical_ms PHYSICAL_SHIFT_BITS + logical in
  ok_or (try_u64 ts) (InternalError "invalid ts parts").

Definition extract_physical (ts : Z) : Z := as_i64 (Z.shiftr ts PHYSICAL_SHIFT_BITS).

Definition extract_logical (ts : Z) : Z := Z.land (as_i64 ts) LOGICAL_MASK.

Definition get_physical (t : Z) : Result Z :=
  let '(is_before_epoch, duration) := if 0 <=? t then (false, t) else (true, - t) in
  let millis := duration / 1000000 in
  match try_i64 millis with
  | None => Err (InternalError "overflow converting SystemTime to milliseconds")
  | Some millis => Ok (if is_before_epoch : bool then - millis else millis)
  end.

Definition get_time_from_ts (ts : Z) : Z :=
  let ms := extract_physical ts in
  if 0 <=? ms then 0 + ms * 1000000 else 0 - (- ms) * 1000000.

Definition time_to_ts (t : Z) : Result Z :=
  physical ← get_physical t; compose_ts physical 0.

Definition lower_limit_start_ts (now max_txn_time_use : Z) : Result Z :=
  time_to_ts (now - max_txn_time_use).

(** [pdpb::Timestamp] and [impl TimestampExt for Timestamp] *)
Module Timestamp.
Record t := mk { physical : Z; logical : Z; suffix_bits : Z }.
#[global] Instance eq_dec : EqDecision t.
Proof. solve_decision. Defined.

Definition version (ts : t) : Z :=
  let v := Z.shiftl (physical ts) PHYSICAL_SHIFT_BITS + logical ts in
  default 0 (try_u64 v).

Definition from_version (version : Z) : t :=
  let version := as_i64 version in
  mk (Z.shiftr version PHYSICAL_SHIFT_BITS) (Z.land version LOGICAL_MASK) 0.

Definition try_from_version (version : Z) : option t :=
  if version =? 0 then None else Some (from_version version).
End Timestamp.

(** ** Lemmas *)

Lemma shiftl18 a : Z.shiftl a PHYSICAL_SHIFT_BITS = a * 262144.
Proof. unfold PHYSICAL_SHIFT_BITS. rewrite Z.shiftl_mul_pow2 by lia. done. Qed.
Lemma shiftr18 a : Z.shiftr a PHYSICAL_SHIFT_BITS = a / 262144.
Proof. unfold PHYSICAL_SHIFT_BITS. rewrite Z.shiftr_div_pow2 by lia. done. Qed.
Lemma land_logical a : Z.land a LOGICAL_MASK = a mod 262144.
Proof. change LOGICAL_MASK with (Z.ones 18). rewrite Z.land_ones by lia. done. Qed.

Lemma as_i64_mod_logical ts : as_i64 ts mod 262144 = ts mod 262144.
Proof.
  unfold as_i64, wrap_u64.
  assert ((ts mod 18446744073709551616) mod 262144 = ts mod 262144) as E.
  { apply Z.mod_mod_divide. exists 70368744177664. lia. }
  case_zb; [done|]. rewrite Zminus_mod, E.
  change (18446744073709551616 mod 262144) with 0. by rewrite Z.sub_0_r, Z.mod_mod.
Qed.

Lemma extract_physical_div ts : in_u64 ts → extract_physical ts = ts / 262144.
Proof.
  intros Hts. unfold extract_physical. rewrite shiftr18. apply as_i64_small. unfold in_u64, u64_max, i64_max in *.
  split; [apply Z.div_pos; lia | apply Z.div_le_upper_bound; lia].
Qed.

Lemma extract_logical_mod ts : extract_logical ts = ts mod 262144.
Proof. unfold extract_logical. rewrite land_logical. apply as_i64_mod_logical. Qed.

Lemma compose_ts_Ok p l ts : compose_ts p l = Ok ts ↔ ts = p * 262144 + l ∧ in_u64 ts.
Proof.
  unfold compose_ts. rewrite shiftl18.
  destruct (try_u64 (p * 262144 + l)) as [z|] eqn:E; simpl.
  - apply try_u64_Some in E as [-> ?]. split; [intros [= <-] | intros [-> _]]; done.
  - split; [done|]. intros [-> H]. assert (try_u64 (p * 262144 + l) = Some (p * 262144 + l)) as E'
      by (by apply try_u64_Some). congruence.
Qed.

(** ** Theorems *)

(** Composing and splitting a timestamp are inverse to each other.  When
    [compose_ts] accepts a physical part and an 18-bit logical part, [extract_physical] and
    [extract_logical] return them; and every [u64] timestamp is recomposed exactly
    from its two parts. *)
Theorem ts_parts_roundtrip :
  (∀ p l ts, 0 ≤ l ≤ LOGICAL_MASK → compose_ts p l = Ok ts →
     extract_physical ts = p ∧ extract_logical ts = l) ∧
  (∀ ts, in_u64 ts → compose_ts (extract_physical ts) (extract_logical ts) = Ok ts).
Proof.
  split.
  - intros p l ts Hl [-> Hts]%compose_ts_Ok. change LOGICAL_MASK with 262143 in Hl.
    rewrite extract_physical_div, extract_logical_mod by done. split.
    + rewrite Z.div_add_l by lia. rewrite Z.div_small; lia.
    + rewrite Z.add_comm, Z.mod_add by lia. apply Z.mod_small. lia.
  - intros ts Hts. apply compose_ts_Ok. split; [|done].
    rewrite extract_physical_div, extract_logical_mod by done.
    pose proof (Z.div_mod ts 262144). lia.
Qed.

Lemma ts_parts_roundtrip_witness :
  compose_ts 1700000000000 5 = Ok 445644800000000005 ∧
  extract_physical 445644800000000005 = 1700000000000 ∧ extract_logical 445644800000000005 = 5.
Proof.
  split; [by vm_compute|].
  apply (proj1 ts_parts_roundtrip 1700000000000 5 445644800000000005); [by vm_compute | by vm_compute].
Defined.

(** [Timestamp::from_version] followed by [version] is the identity on the
    versions below 2^63.  On the others the conversion reinterprets the version as
    a negative [i64], and [version] then falls back to [0]. *)
Theorem timestamp_version_roundtrip v : in_u64 v →
  Timestamp.version (Timestamp.from_version v) = if v <=? i64_max then v else 0.
Proof.
  intros Hv. unfold Timestamp.version, Timestamp.from_version. cbn [Timestamp.physical Timestamp.logical].
  rewrite shiftl18, shiftr18, land_logical.
  replace (as_i64 v / 262144 * 262144 + as_i64 v mod 262144) with (as_i64 v)
    by (pose proof (Z.div_mod (as_i64 v) 262144); lia).
  case_zb.
  - rewrite as_i64_small by word_lia. unfold try_u64.
    rewrite (proj2 (Z.leb_le 0 v)), (proj2 (Z.leb_le v u64_max)) by word_lia. done.
  - rewrite as_i64_high by word_lia. unfold try_u64.
    rewrite (proj2 (Z.leb_gt 0 _)) by word_lia. done.
Qed.

Lemma timestamp_version_roundtrip_witness :
  Timestamp.version (Timestamp.from_version 445644800000042) = 445644800000042.
Proof. apply (timestamp_version_roundtrip 445644800000042). unfold in_u64, u64_max; lia. Defined.

Lemma version_range ts : in_u64 (Timestamp.version ts).
Proof.
  unfold Timestamp.version. destruct (try_u64 _) eqn:E; simpl; [|word_lia].
  apply try_u64_Some in E as [-> ?]. done.
Qed.

(** Converting a time at or after the epoch to a timestamp and back loses
    exactly the sub-millisecond part, and the resulting timestamp has a zero
    logical part. *)
Theorem time_to_ts_roundtrip t ts : 0 ≤ t →
  time_to_ts t = Ok ts →
  get_time_from_ts ts = t - t mod 1000000 ∧ extract_logical ts = 0.
Proof.
  intros Ht Hts. unfold time_to_ts, get_physical in Hts.
  rewrite (proj2 (Z.leb_le 0 t)) in Hts by done. unfold try_i64 in Hts.
  destruct (_ && _); [|done]. apply compose_ts_Ok in Hts as [-> Hr].
  assert (extract_physical (t / 1000000 * 262144 + 0) = t / 1000000) as E.
  { rewrite extract_physical_div by done. rewrite Z.add_0_r. by apply Z.div_mul. }
  unfold get_time_from_ts. rewrite E. pose proof (Z.div_pos t 1000000 Ht ltac:(lia)).
  rewrite (proj2 (Z.leb_le 0 _)) by done. split.
  - pose proof (Z.div_mod t 1000000). lia.
  - rewrite extract_logical_mod, Z.add_0_r. by apply Z.mod_mul.
Qed.

Lemma time_to_ts_roundtrip_witness :
  get_time_from_ts 445644800000000000 = 1700000000000000000.
Proof.
  apply (time_to_ts_roundtrip 1700000000000123456 445644800000000000); [lia | by vm_compute].
Defined.
