(* ===== verification/Kv.v ===== *)
(** * Pairs, value entries and read options
    (src/src/kv/{kvpair,value_entry,options}.rs, [Mutation] of
    src/src/transaction/transaction.rs) *)

From S2P Require Import Prelude Keys.

Module KvPair.
Record t := mk { key : Key; value : Value; commit_ts : Z }.
#[global] Instance eq_dec : EqDecision t.
Proof. solve_decision. Defined.

Definition new_with_commit_ts (key : Key) (value : Value) (commit_ts : Z) : t :=
  mk key value commit_ts.
Definition new (key : Key) (value : Value) : t := new_with_commit_ts key value 0.
Definition into_tuple (p : t) : Key * Value := (key p, value p).
Definition set_key (p : t) (k : Key) : t := mk k (value p) (commit_ts p).
Definition set_value (p : t) (v : Value) : t := mk (key p) v (commit_ts p).
End KvPair.

(** [enum Mutation] *)
Inductive Mutation := MPut (key : Key) (value : Value) | MDelete (key : Key).
Definition mutation_key (m : Mutation) : Key :=
  match m with MPut key _ => key | MDelete key => key end.

(** [GetOptions], [GetOption], [BatchGetOption] *)
Inductive GetOption := GetReturnCommitTs.
Inductive BatchGetOption := BatchGetReturnCommitTs.
Record GetOptions := { return_commit_ts : bool }.

Definition get_options_apply (self : GetOptions) (options : list GetOption) : GetOptions :=
  foldl (λ o opt, match opt with GetReturnCommitTs => {| return_commit_ts := true |} end)
    self options.

Record BatchGetOptions := { batch_return_commit_ts : bool }.
Definition batch_get_options_apply (self : BatchGetOptions) (options : list BatchGetOption) :
    BatchGetOptions :=
  foldl (λ o opt, match opt with BatchGetReturnCommitTs => {| batch_return_commit_ts := true |} end)
    self options.

Definition batch_get_to_get_options (options : option (list BatchGetOption)) : list GetOption :=
  match options with
  | Some opts => map (λ o, match o with BatchGetReturnCommitTs => GetReturnCommitTs end) opts
  | None => []
  end.
