(* ===== verification/Keyspaces.v ===== *)
(** * Keyspaces (src/src/request/keyspace.rs)

    With a keyspace enabled every user key is prefixed by a mode byte and a 24-bit
    keyspace id before it reaches TiKV, and the prefix is removed from keys in
    responses and errors.  The theorems state that the encoding isolates keyspaces
    from each other, that encoded ranges select exactly the encoded keys of the
    original range, and that the region metadata inside [EpochNotMatch] errors is
    translated to the user's view of the region. *)

From S2P Require Import Prelude Keys Proto Errors Codec Ranges Kv.

Definition RAW_KEY_PREFIX : Z := 114.
Definition TXN_KEY_PREFIX : Z := 120.
Definition KEYSPACE_PREFIX_LEN : nat := 4.
Definition MAX_KEYSPACE_ID : Z := 16777215.

Inductive Keyspace := Disable | Enable (keyspace_id : Z).
Inductive KeyMode := Raw | Txn.
#[export] Instance KeyMode_eq_dec : EqDecision KeyMode.
Proof. solve_decision. Defined.

Definition api_version (ks : Keyspace) : ApiVersion :=
  match ks with Disable => V1 | Enable _ => V2 end.

Definition try_enable (keyspace_id : Z) : Result Keyspace :=
  if MAX_KEYSPACE_ID <? keyspace_id then Err (InternalError "invalid keyspace_id")
  else Ok (Enable keyspace_id).

(** [u32::to_be_bytes] *)
Definition to_be_bytes (v : Z) : list Z :=
  [Z.land (Z.shiftr v 24) 255; Z.land (Z.shiftr v 16) 255; Z.land (Z.shiftr v 8) 255; Z.land v 255].

Definition mode_byte (m : KeyMode) : Z :=
  match m with Raw => RAW_KEY_PREFIX | Txn => TXN_KEY_PREFIX end.

Definition keyspace_prefix (keyspace_id : Z) (key_mode : KeyMode) : list Z :=
  <[0%nat := mode_byte key_mode]> (to_be_bytes keyspace_id).

(** The loop of [keyspace_end_prefix] over the bytes from the last one. *)
Fixpoint incr_rev (bytes : list Z) : list Z :=
  match bytes with
  | [] => []
  | b :: rest =>
      let value := (b + 1) mod 256 in
      let overflow := 256 <=? b + 1 in
      value :: (if overflow then incr_rev rest else rest)
  end.

Definition keyspace_end_prefix (keyspace_id : Z) (key_mode : KeyMode) : list Z :=
  rev (incr_rev (rev (keyspace_prefix keyspace_id key_mode))).

#[global] Arguments keyspace_prefix : simpl never.
#[global] Arguments keyspace_end_prefix : simpl never.

(** [prepend_bytes] and [pretruncate_bytes]: in-place moves within the vector. *)
Definition prepend_bytes (vec prefix : list Z) : list Z :=
  let n := length prefix in
  let original_len := length vec in
  let vec := vec ++ replicate n 0 in
  let vec := copy_within vec 0 original_len n in
  prefix ++ drop n vec.

Definition pretruncate_bytes (n : nat) (vec : list Z) : list Z :=
  if (length vec <? n)%nat then vec else
  let original_len := length vec in
  let vec := copy_within vec n original_len 0 in
  take (original_len - n) vec.

(** ** [EncodeKeyspace] *)

Definition encode_keyspace_key (k : Key) (keyspace : Keyspace) (key_mode : KeyMode) : Key :=
  match keyspace with
  | Disable => k
  | Enable keyspace_id => prepend_bytes k (keyspace_prefix keyspace_id key_mode)
  end.

Definition encode_keyspace_pair (p : KvPair.t) (ks : Keyspace) (m : KeyMode) : KvPair.t :=
  KvPair.set_key p (encode_keyspace_key (KvPair.key p) ks m).

Definition encode_keyspace_range (r : BoundRange.t) (ks : Keyspace) (m : KeyMode) : BoundRange.t :=
  let from := match BoundRange.from r with
              | Included key => Included (encode_keyspace_key key ks m)
              | Excluded key => Excluded (encode_keyspace_key key ks m)
              | Unbounded => Included (encode_keyspace_key [] ks m)
              end in
  let upper :=
    Excluded (match ks with
              | Enable keyspace_id => prepend_bytes [] (keyspace_end_prefix keyspace_id m)
              | Disable => []
              end) in
  let to := match BoundRange.to r with
            | Included key =>
                if negb (is_empty key) then Included (encode_keyspace_key key ks m) else upper
            | Excluded key =>
                if negb (is_empty key) then Excluded (encode_keyspace_key key ks m) else upper
            | Unbounded => upper
            end in
  BoundRange.mk from to.

Definition encode_keyspace_mutation (m : Mutation) (ks : Keyspace) (mode : KeyMode) : Mutation :=
  match m with
  | MPut key val => MPut (encode_keyspace_key key ks mode) val
  | MDelete key => MDelete (encode_keyspace_key key ks mode)
  end.

(** ** [TruncateKeyspace] *)

Definition truncate_keyspace_key (k : Key) (ks : Keyspace) : Key :=
  match ks with
  | Disable => k
  | Enable _ => pretruncate_bytes KEYSPACE_PREFIX_LEN k
  end.

Definition truncate_keyspace_pair (p : KvPair.t) (ks : Keyspace) : KvPair.t :=
  KvPair.set_key p (truncate_keyspace_key (KvPair.key p) ks).

Definition truncate_keyspace_range (r : Key * Key) (ks : Keyspace) : Key * Key :=
  (truncate_keyspace_key r.1 ks, truncate_keyspace_key r.2 ks).

Definition truncate_keyspace_ranges (rs : list (list Z * list Z)) (ks : Keyspace) :
    list (list Z * list Z) :=
  map (λ r, truncate_keyspace_range r ks) rs.

Definition truncate_keyspace_pairs (ps : list KvPair.t) (ks : Keyspace) : list KvPair.t :=
  map (λ p, truncate_keyspace_pair p ks) ps.

Definition truncate_keyspace_lock (l : LockInfo.t) (ks : Keyspace) : LockInfo.t :=
  LockInfo.with_keys l
    (truncate_keyspace_key (LockInfo.primary_lock l) ks)
    (truncate_keyspace_key (LockInfo.key l) ks)
    (map (λ s, truncate_keyspace_key s ks) (LockInfo.secondaries l)).

Definition truncate_keyspace_locks (ls : list LockInfo.t) (ks : Keyspace) : list LockInfo.t :=
  map (λ l, truncate_keyspace_lock l ks) ls.

Definition truncate_keyspace_primary_mismatch (m : PrimaryMismatch.t) (ks : Keyspace) :=
  PrimaryMismatch.mk ((λ l, truncate_keyspace_lock l ks) <$> PrimaryMismatch.lock_info m).
Definition truncate_keyspace_txn_lock_not_found (n : TxnLockNotFound.t) (ks : Keyspace) :=
  TxnLockNotFound.mk (truncate_keyspace_key (TxnLockNotFound.key n) ks).
Definition truncate_keyspace_mvcc_debug_info (d : MvccDebugInfo.t) (ks : Keyspace) :=
  MvccDebugInfo.mk (truncate_keyspace_key (MvccDebugInfo.key d) ks) (MvccDebugInfo.mvcc d).
Definition truncate_keyspace_debug_info (d : list MvccDebugInfo.t) (ks : Keyspace) :=
  map (λ i, truncate_keyspace_mvcc_debug_info i ks) d.
Definition truncate_keyspace_write_conflict (c : WriteConflict.t) (ks : Keyspace) :=
  WriteConflict.mk (WriteConflict.start_ts c) (WriteConflict.conflict_ts c)
    (truncate_keyspace_key (WriteConflict.key c) ks)
    (truncate_keyspace_key (WriteConflict.primary c) ks)
    (WriteConflict.conflict_commit_ts c) (WriteConflict.reason c).
Definition truncate_keyspace_already_exist (x : AlreadyExist.t) (ks : Keyspace) :=
  AlreadyExist.mk (truncate_keyspace_key (AlreadyExist.key x) ks).
Definition truncate_keyspace_commit_ts_expired (x : CommitTsExpired.t) (ks : Keyspace) :=
  CommitTsExpired.mk (CommitTsExpired.start_ts x) (CommitTsExpired.attempted_commit_ts x)
    (truncate_keyspace_key (CommitTsExpired.key x) ks) (CommitTsExpired.min_commit_ts x).
Definition truncate_keyspace_txn_not_found (x : TxnNotFound.t) (ks : Keyspace) :=
  TxnNotFound.mk (TxnNotFound.start_ts x) (truncate_keyspace_key (TxnNotFound.primary_key x) ks).
Definition truncate_keyspace_assertion_failed (x : AssertionFailed.t) (ks : Keyspace) :=
  AssertionFailed.mk (AssertionFailed.start_ts x)
    (truncate_keyspace_key (AssertionFailed.key x) ks) (AssertionFailed.assertion x)
    (AssertionFailed.existing_start_ts x) (AssertionFailed.existing_commit_ts x).
Definition truncate_wait_for_entry (ks : Keyspace) (e : WaitForEntry.t) : WaitForEntry.t :=
  WaitForEntry.with_key e (truncate_keyspace_key (WaitForEntry.key e) ks).
Definition truncate_keyspace_deadlock (d : Deadlock.t) (ks : Keyspace) :=
  Deadlock.mk (Deadlock.lock_ts d) (truncate_keyspace_key (Deadlock.lock_key d) ks)
    (Deadlock.deadlock_key_hash d) (map (truncate_wait_for_entry ks) (Deadlock.wait_chain d))
    (truncate_keyspace_key (Deadlock.deadlock_key d) ks).

Definition truncate_keyspace_key_error (e : KeyError.t) (ks : Keyspace) : KeyError.t :=
  match ks with
  | Disable => e
  | Enable _ =>
      KeyError.mk
        ((λ l, truncate_keyspace_lock l ks) <$> KeyError.locked e)
        (KeyError.retryable e) (KeyError.abort e)
        ((λ c, truncate_keyspace_write_conflict c ks) <$> KeyError.conflict e)
        ((λ x, truncate_keyspace_already_exist x ks) <$> KeyError.already_exist e)
        ((λ d, truncate_keyspace_deadlock d ks) <$> KeyError.deadlock e)
        ((λ x, truncate_keyspace_commit_ts_expired x ks) <$> KeyError.commit_ts_expired e)
        ((λ x, truncate_keyspace_txn_not_found x ks) <$> KeyError.txn_not_found e)
        (KeyError.commit_ts_too_large e)
        ((λ x, truncate_keyspace_assertion_failed x ks) <$> KeyError.assertion_failed e)
        ((λ m, truncate_keyspace_primary_mismatch m ks) <$> KeyError.primary_mismatch e)
        ((λ n, truncate_keyspace_txn_lock_not_found n ks) <$> KeyError.txn_lock_not_found e)
        ((λ d, truncate_keyspace_debug_info d ks) <$> KeyError.debug_info e)
  end.

Definition infer_key_mode_from_key (key : Key) : option KeyMode :=
  match key with
  | b :: _ => if b =? RAW_KEY_PREFIX then Some Raw
              else if b =? TXN_KEY_PREFIX then Some Txn else None
  | [] => None
  end.

Definition infer_key_mode_from_region (r : Region.t) : option KeyMode :=
  match infer_key_mode_from_key (Region.start_key r) with
  | Some m => Some m
  | None => infer_key_mode_from_key (Region.end_key r)
  end.

(** [Vec::split_off(at)]: the tail, or a panic ([None]) when [at > len]. *)
Definition split_off (at_ : nat) (v : list Z) : option (list Z) :=
  if (at_ <=? length v)%nat then Some (drop at_ v) else None.

(** One iteration of the second loop of [truncate_epoch_not_match]: the outer
    [option] is a panic, the inner one a [continue]. *)
Definition truncate_region (prefix end_ : Key) (region : Region.t) : option (option Region.t) :=
  let start_key := Region.start_key region in
  let end_key := Region.end_key region in
  if negb (is_empty end_key) && key_leb end_key prefix then Some None else
  if negb (is_empty start_key) && key_leb end_ start_key then Some None else
  let start_key := if is_empty start_key || key_ltb start_key prefix then prefix else start_key in
  let end_key := if is_empty end_key || key_ltb end_ end_key then end_ else end_key in
  if key_leb end_key start_key then Some None else
  s ← (if key_eqb start_key prefix then Some [] else split_off KEYSPACE_PREFIX_LEN start_key);
  e ← (if key_eqb end_key end_ then Some [] else split_off KEYSPACE_PREFIX_LEN end_key);
  Some (Some (Region.with_range region s e)).

Definition decode_region_keys (r : Region.t) : Result Region.t :=
  s ← decode_bytes_in_place (Region.start_key r) false;
  e ← decode_bytes_in_place (Region.end_key r) false;
  Ok (Region.with_range r s e).

(** [find_map] *)
Fixpoint find_map {A B} (f : A → option B) (l : list A) : option B :=
  match l with
  | [] => None
  | x :: l' => match f x with Some b => Some b | None => find_map f l' end
  end.

(** [for region in ..]: the loop collects the regions that are kept. *)
Fixpoint truncate_regions (prefix end_ : Key) (regions : list Region.t) : option (list Region.t) :=
  match regions with
  | [] => Some []
  | r :: rs =>
      kept ← truncate_region prefix end_ r;
      rest ← truncate_regions prefix end_ rs;
      Some (match kept with Some r' => r' :: rest | None => rest end)
  end.

(** [None] is a panic. *)
Definition truncate_epoch_not_match (err : EpochNotMatch.t) (keyspace_id : Z) :
    option (Result EpochNotMatch.t) :=
  match mapM decode_region_keys (EpochNotMatch.current_regions err) with
  | Err e => Some (Err e)
  | Ok regions =>
      let key_mode := default Raw (find_map infer_key_mode_from_region regions) in
      let prefix := keyspace_prefix keyspace_id key_mode in
      let end_ := keyspace_end_prefix keyspace_id key_mode in
      regions' ← truncate_regions prefix end_ regions;
      Some (Ok (EpochNotMatch.mk regions'))
  end.

Definition truncate_keyspace_region_error (e : RegionError.t) (ks : Keyspace) :
    option RegionError.t :=
  match ks with
  | Disable => Some e
  | Enable keyspace_id =>
      match RegionError.epoch_not_match e with
      | None => Some e
      | Some enm =>
          r ← truncate_epoch_not_match enm keyspace_id;
          Some (RegionError.set_epoch_not_match e
                  (Some (match r with Ok enm' => enm' | Err _ => enm end)))
      end
  end.

#[global] Arguments truncate_keyspace_region_error : simpl never.

(** [impl TruncateKeyspace for crate::Error]; [None] is a panic. *)
Fixpoint truncate_keyspace_error (ks : Keyspace) (err : Error) : option Error :=
  match ks with
  | Disable => Some err
  | Enable _ =>
  let truncate_all :=
    fix go (es : list Error) : option (list Error) :=
      match es with
      | [] => Some []
      | e :: es' => e' ← truncate_keyspace_error ks e; rest ← go es'; Some (e' :: rest)
      end in
  match err with
  | ERegionError e => ERegionError <$> truncate_keyspace_region_error e ks
  | EWriteConflict c =>
      Some (EWriteConflict (WriteConflictError.mk (WriteConflictError.start_ts c)
        (WriteConflictError.conflict_ts c) (WriteConflictError.conflict_commit_ts c)
        (truncate_keyspace_key (WriteConflictError.key c) ks)
        (truncate_keyspace_key (WriteConflictError.primary c) ks)
        (WriteConflictError.reason c)))
  | EDeadlock d =>
      Some (EDeadlock (DeadlockError.mk (DeadlockError.lock_ts d)
        (truncate_keyspace_key (DeadlockError.lock_key d) ks)
        (DeadlockError.deadlock_key_hash d)
        (map (truncate_wait_for_entry ks) (DeadlockError.wait_chain d))
        (truncate_keyspace_key (DeadlockError.deadlock_key d) ks)))
  | EKeyExists key => Some (EKeyExists (truncate_keyspace_key key ks))
  | EAssertionFailed f =>
      Some (EAssertionFailed (AssertionFailedError.mk (AssertionFailedError.start_ts f)
        (truncate_keyspace_key (AssertionFailedError.key f) ks)
        (AssertionFailedError.assertion f) (AssertionFailedError.existing_start_ts f)
        (AssertionFailedError.existing_commit_ts f)))
  | ResolveLockError locks => Some (ResolveLockError (truncate_keyspace_locks locks ks))
  | EKeyError e => Some (EKeyError (truncate_keyspace_key_error e ks))
  | PessimisticLockError inner success_keys =>
      let success_keys := map (λ k, truncate_keyspace_key k ks) success_keys in
      inner' ← truncate_keyspace_error ks inner;
      Some (PessimisticLockError inner' success_keys)
  | UndeterminedError inner => UndeterminedError <$> truncate_keyspace_error ks inner
  | MultipleKeyErrors errors => MultipleKeyErrors <$> truncate_all errors
  | ExtractedErrors errors => ExtractedErrors <$> truncate_all errors
  | other => Some other
  end end.

(** [impl TruncateKeyspace for Result<T, Error>] *)
Definition truncate_keyspace_result {A} (r : Result A) (ks : Keyspace) : option (Result A) :=
  match r with
  | Ok a => Some (Ok a)
  | Err e => Err <$> truncate_keyspace_error ks e
  end.

(** ** Lemmas *)

Lemma prepend_bytes_app v p : prepend_bytes v p = p ++ v.
Proof.
  unfold prepend_bytes, copy_within. f_equal. rewrite Nat.sub_0_r, drop_0, Nat.add_comm.
  rewrite take_app_length. rewrite (drop_ge (v ++ _)) by (rewrite length_app, length_replicate; lia).
  rewrite app_nil_r, drop_app_ge; rewrite length_take, length_app, length_replicate; [|lia].
  by replace (length p - length p `min` (length v + length p))%nat with 0%nat by lia.
Qed.

Lemma pretruncate_bytes_drop n v :
  pretruncate_bytes n v = if (length v <? n)%nat then v else drop n v.
Proof.
  unfold pretruncate_bytes, copy_within. destruct (Nat.ltb_spec (length v) n); [done|].
  rewrite take_0. simpl. rewrite (take_ge (drop n v)) by (rewrite length_drop; lia).
  rewrite take_app_le by (rewrite length_drop; lia). apply take_ge. rewrite length_drop. lia.
Qed.

Definition valid_id (id : Z) : Prop := 0 ≤ id ≤ MAX_KEYSPACE_ID.

Lemma keyspace_prefix_bytes id m : ∃ a b c,
  keyspace_prefix id m = [mode_byte m; a; b; c] ∧ in_u8 a ∧ in_u8 b ∧ in_u8 c ∧
  (valid_id id → id = a * 65536 + b * 256 + c).
Proof.
  unfold keyspace_prefix, to_be_bytes. simpl.
  exists ((id / 65536) mod 256), ((id / 256) mod 256), (id mod 256).
  change 255 with (Z.ones 8). rewrite !Z.land_ones by lia. rewrite !Z.shiftr_div_pow2 by lia.
  change (2 ^ 8) with 256. change (2 ^ 16) with 65536. unfold in_u8.
  split_and!; try done; try (apply Z.mod_pos_bound; lia).
  intros [H1 H2]. change MAX_KEYSPACE_ID with 16777215 in H2.
  rewrite (Z.mod_small (id / 65536)).
  2: { split; [apply Z.div_pos; lia | apply Z.div_lt_upper_bound; lia]. }
  replace (id / 65536) with (id / 256 / 256) by (by rewrite Z.div_div by lia).
  pose proof (Z.div_mod id 256). pose proof (Z.div_mod (id / 256) 256). lia.
Qed.

Lemma keyspace_prefix_length id m : length (keyspace_prefix id m) = 4%nat.
Proof. done. Qed.

Lemma keyspace_prefix_wf id m : wf_key (keyspace_prefix id m).
Proof.
  destruct (keyspace_prefix_bytes id m) as (a & b & c & -> & ? & ? & ? & _).
  unfold wf_key. repeat apply Forall_cons_2; try done.
  destruct m; simpl; unfold in_u8, RAW_KEY_PREFIX, TXN_KEY_PREFIX; lia.
Qed.

Lemma truncate_encode ks m k : truncate_keyspace_key (encode_keyspace_key k ks m) ks = k.
Proof.
  destruct ks as [|id]; cbn; [done|]. rewrite prepend_bytes_app, pretruncate_bytes_drop.
  rewrite length_app, keyspace_prefix_length. cbn. apply drop_app_length'. by rewrite keyspace_prefix_length.
Qed.

Lemma keyspace_prefix_inj id1 id2 m1 m2 : valid_id id1 → valid_id id2 →
  keyspace_prefix id1 m1 = keyspace_prefix id2 m2 → id1 = id2 ∧ m1 = m2.
Proof.
  intros H1 H2.
  destruct (keyspace_prefix_bytes id1 m1) as (a & b & c & -> & _ & _ & _ & E1).
  destruct (keyspace_prefix_bytes id2 m2) as (a' & b' & c' & -> & _ & _ & _ & E2).
  intros [= Em -> -> ->]. split; [by rewrite E1, E2 by done|].
  by destruct m1, m2.
Qed.

Lemma incr_rev_loop l done' r : wf_key l →
  next_prefix_loop l done' = Some r → rev (incr_rev l) ++ done' = r.
Proof.
  intros Hl. revert done'. induction Hl as [|b l Hb Hl IH]; intros done' H; simpl in *; [done|].
  unfold in_u8 in Hb. rewrite <- app_assoc. simpl.
  destruct (Z.eqb_spec ((b + 1) mod 256) 0) as [E|E], (Z.leb_spec 256 (b + 1)).
  - by apply IH.
  - rewrite Z.mod_small in E by lia. lia.
  - replace b with 255 in E by lia. done.
  - by simplify_eq.
Qed.

(** The end of a keyspace is the next prefix key of its prefix. *)
Lemma keyspace_end_prefix_next id m :
  keyspace_end_prefix id m = next_prefix_key (keyspace_prefix id m) ∧
  next_prefix_key (keyspace_prefix id m) ≠ [].
Proof.
  unfold keyspace_end_prefix, next_prefix_key. pose proof (keyspace_prefix_wf id m) as Hwf.
  destruct (next_prefix_loop_spec (rev (keyspace_prefix id m)) [])
    as [(p & b & n & _ & _ & E) | (n & E & _)]; [by apply Forall_rev | |].
  - rewrite E. rewrite <- (incr_rev_loop _ _ _ ltac:(by apply Forall_rev) E).
    rewrite app_nil_r. split; [done|]. apply incr_rev_loop in E; [|by apply Forall_rev].
    rewrite app_nil_r in E. rewrite E. by destruct p.
  - rewrite rev_involutive in E.
    destruct (keyspace_prefix_bytes id m) as (x & y & z & E' & _). rewrite E' in E.
    destruct n as [|n]; [done|]. simpl in E. by destruct m.
Qed.

(** Membership in a keyspace's range is having its prefix. *)
Lemma keyspace_range_prefix id m k : wf_key k → (4 ≤ length k)%nat →
  key_le (keyspace_prefix id m) k ∧ key_lt k (keyspace_end_prefix id m) ↔
  keyspace_prefix id m `prefix_of` k.
Proof.
  intros Hk Hlen. destruct (keyspace_end_prefix_next id m) as [-> Hne].
  rewrite (next_prefix_key_between _ k); [|apply keyspace_prefix_wf | done | done].
  rewrite keyspace_prefix_length. naive_solver.
Qed.

Lemma encoded_wf id m k : wf_key k → wf_key (keyspace_prefix id m ++ k).
Proof. intros. apply Forall_app; split; [apply keyspace_prefix_wf | done]. Qed.
Lemma encoded_length id m k : (4 ≤ length (keyspace_prefix id m ++ k))%nat.
Proof. rewrite length_app, keyspace_prefix_length. lia. Qed.

Lemma encoded_in_keyspace id m k : wf_key k →
  key_le (keyspace_prefix id m) (keyspace_prefix id m ++ k) ∧
  key_lt (keyspace_prefix id m ++ k) (keyspace_end_prefix id m).
Proof.
  intros Hk. apply keyspace_range_prefix; [by apply encoded_wf | apply encoded_length | by eexists].
Qed.

Lemma key_leb_app p a b : key_leb (p ++ a) (p ++ b) = key_leb a b.
Proof. unfold key_leb. apply bool_decide_ext. apply key_le_cmp_app. Qed.
Lemma key_ltb_app p a b : key_ltb (p ++ a) (p ++ b) = key_ltb a b.
Proof. unfold key_ltb. apply bool_decide_ext. apply key_lt_cmp_app. Qed.
Lemma key_leb_true a b : key_le a b → key_leb a b = true.
Proof. intros. by apply bool_decide_eq_true_2. Qed.
Lemma key_ltb_true a b : key_lt a b → key_ltb a b = true.
Proof. intros. by apply bool_decide_eq_true_2. Qed.

Lemma is_empty_app_l {A} (p a : list A) : p ≠ [] → is_empty (p ++ a) = false.
Proof. by destruct p. Qed.

Lemma encode_keyspace_full id m :
  encode_keyspace_range BoundRange.from_range_full (Enable id) m =
  BoundRange.mk (Included (keyspace_prefix id m)) (Excluded (keyspace_end_prefix id m)).
Proof.
  unfold encode_keyspace_range, encode_keyspace_key. simpl.
  by rewrite !prepend_bytes_app, !app_nil_r.
Qed.

(** ** Theorems *)

(** C30: keyspaces are isolated and complete.  The full scan range of one
    keyspace and mode contains an encoded key exactly when the key was encoded in
    the same keyspace and mode; and removing the prefix of an encoded key gives the user key
    back. *)
Theorem keyspace_isolation id1 id2 m1 m2 k :
  valid_id id1 → valid_id id2 → wf_key k →
  (BoundRange.contains (encode_keyspace_range BoundRange.from_range_full (Enable id1) m1)
     (encode_keyspace_key k (Enable id2) m2) = true ↔ id1 = id2 ∧ m1 = m2) ∧
  truncate_keyspace_key (encode_keyspace_key k (Enable id2) m2) (Enable id2) = k.
Proof.
  intros H1 H2 Hk. rewrite encode_keyspace_full.
  unfold encode_keyspace_key. rewrite prepend_bytes_app. split.
  - unfold BoundRange.contains, BoundRange.start_bound, BoundRange.end_bound.
    cbn [BoundRange.from BoundRange.to].
    destruct (keyspace_end_prefix_next id1 m1) as [E Hne]. rewrite <- E in Hne.
    destruct (is_empty_spec (keyspace_end_prefix id1 m1)) as [|_]; [done|].
    rewrite andb_true_iff. unfold key_leb, key_ltb. rewrite !bool_decide_eq_true.
    rewrite keyspace_range_prefix.
    2: { by apply encoded_wf. }
    2: { apply encoded_length. }
    split.
    + intros [s Es]. apply app_inj_1 in Es as [Es _]; [|by rewrite !keyspace_prefix_length].
      by apply keyspace_prefix_inj.
    + intros [-> ->]. by eexists.
  - unfold truncate_keyspace_key. rewrite pretruncate_bytes_drop.
    rewrite (proj2 (Nat.ltb_ge _ _)) by (rewrite length_app, keyspace_prefix_length; unfold KEYSPACE_PREFIX_LEN; lia).
    change KEYSPACE_PREFIX_LEN with (length (keyspace_prefix id2 m2)). apply drop_app_length.
Qed.

Lemma keyspace_isolation_witness :
  truncate_keyspace_key (encode_keyspace_key [190; 239] (Enable 57005) Txn) (Enable 57005) = [190; 239].
Proof.
  apply (keyspace_isolation 57005 57005 Raw Txn [190; 239]).
  - unfold valid_id, MAX_KEYSPACE_ID; lia.
  - unfold valid_id, MAX_KEYSPACE_ID; lia.
  - unfold wf_key, in_u8; repeat constructor; lia.
Defined.

(** Encoding a range commutes with encoding keys: an encoded key is in the
    encoded range exactly when the key is in the range, for every combination of
    bounds and with or without a keyspace. *)
Theorem encode_keyspace_range_correct r ks m k : wf_key k →
  BoundRange.contains (encode_keyspace_range r ks m) (encode_keyspace_key k ks m) =
  BoundRange.contains r k.
Proof.
  intros Hk. unfold BoundRange.contains, BoundRange.start_bound, BoundRange.end_bound,
    encode_keyspace_range, encode_keyspace_key.
  cbn [BoundRange.from BoundRange.to].
  destruct ks as [|id].
  - f_equal.
    + destruct (BoundRange.from r); [done..|]. by apply key_leb_true, key_empty_le.
    + destruct (BoundRange.to r) as [[|b e]|[|b e]|]; done.
  - rewrite !prepend_bytes_app, !app_nil_r.
    destruct (encoded_in_keyspace id m k Hk) as [Hle Hlt].
    destruct (keyspace_end_prefix_next id m) as [E Hne]. rewrite <- E in Hne.
    assert (∀ a, is_empty (keyspace_prefix id m ++ a) = false) as Hnp.
    { intros a. by apply is_empty_app_l. }
    f_equal.
    + destruct (BoundRange.from r); rewrite ?prepend_bytes_app, ?key_leb_app, ?key_ltb_app; try done.
      by apply key_leb_true.
    + destruct (BoundRange.to r) as [[|b e]|[|b e]|]; simpl is_empty; cbn [negb];
        rewrite ?prepend_bytes_app, ?Hnp, ?key_leb_app, ?key_ltb_app; try done;
        (destruct (is_empty_spec (keyspace_end_prefix id m)); [done|]; by apply key_ltb_true).
Qed.

Lemma encode_keyspace_range_correct_witness :
  BoundRange.contains (encode_keyspace_range (BoundRange.from_range_to [9]) (Enable 7) Raw)
    (encode_keyspace_key [3] (Enable 7) Raw) = true.
Proof.
  rewrite (encode_keyspace_range_correct (BoundRange.from_range_to [9]) (Enable 7) Raw [3]).
  - by vm_compute.
  - unfold wf_key, in_u8; repeat constructor; lia.
Defined.

(** ** Region metadata *)

(** A decoded region boundary: empty (unbounded), or a key that carries a mode
    byte and a keyspace id. *)
Definition boundary_ok (k : Key) : Prop := wf_key k ∧ (k = [] ∨ (4 ≤ length k)%nat).
Definition region_ok (r : Region.t) : Prop :=
  boundary_ok (Region.start_key r) ∧ boundary_ok (Region.end_key r).
Definition in_region (r : Region.t) (k : Key) : Prop :=
  in_key_range (Region.start_key r, Region.end_key r) k.

(** A boundary strictly inside the keyspace carries the prefix. *)
Lemma boundary_inside id m b : boundary_ok b → b ≠ [] →
  key_le (keyspace_prefix id m) b → key_lt b (keyspace_end_prefix id m) →
  ∃ u, b = keyspace_prefix id m ++ u ∧ split_off KEYSPACE_PREFIX_LEN b = Some u.
Proof.
  intros [Hwf [?|Hlen]] Hne H1 H2; [done|].
  destruct (proj1 (keyspace_range_prefix id m b Hwf Hlen) (conj H1 H2)) as [u ->].
  exists u. split; [done|]. unfold split_off.
  by rewrite (proj2 (Nat.leb_le _ _)) by exact Hlen.
Qed.

Lemma clip_start id m s : boundary_ok s →
  (s = [] ∨ key_lt s (keyspace_end_prefix id m)) →
  let s' := if is_empty s || key_ltb s (keyspace_prefix id m) then keyspace_prefix id m else s in
  ∃ u, (if key_eqb s' (keyspace_prefix id m) then Some [] else split_off KEYSPACE_PREFIX_LEN s') = Some u ∧
    ∀ k, (key_le s' (keyspace_prefix id m ++ k) ↔ key_le u k) ∧
         (key_le s (keyspace_prefix id m ++ k) ↔ key_le u k).
Proof.
  intros Hok Hlt s'. subst s'.
  assert (∀ k, key_le (keyspace_prefix id m) (keyspace_prefix id m ++ k)) as Hp by (intros; apply key_le_app).
  assert (∀ k, key_le [] k) as He by apply key_empty_le.
  destruct (is_empty_spec s) as [->|Hne].
  { cbn [orb]. destruct (key_eqb_spec (keyspace_prefix id m) (keyspace_prefix id m)); [|done].
    exists []. split; [done|]. naive_solver. }
  cbn [orb]. destruct (key_ltb_spec s (keyspace_prefix id m)) as [Hs|Hs].
  - destruct (key_eqb_spec (keyspace_prefix id m) (keyspace_prefix id m)); [|done].
    exists []. split; [done|]. intros k. specialize (Hp k). specialize (He k).
    assert (key_le s (keyspace_prefix id m ++ k)) by key_order. naive_solver.
  - destruct Hlt as [?|Hlt]; [done|].
    destruct (key_eqb_spec s (keyspace_prefix id m)) as [->|Hneq].
    + exists []. split; [done|]. naive_solver.
    + apply key_not_lt in Hs. destruct (boundary_inside id m s) as (u & -> & E); [done..|].
      exists u. split; [exact E|]. intros k. by rewrite key_le_cmp_app.
Qed.

Lemma clip_end id m e : boundary_ok e →
  (e = [] ∨ key_lt (keyspace_prefix id m) e) →
  let e' := if is_empty e || key_ltb (keyspace_end_prefix id m) e
            then keyspace_end_prefix id m else e in
  ∃ u, (if key_eqb e' (keyspace_end_prefix id m) then Some []
        else split_off KEYSPACE_PREFIX_LEN e') = Some u ∧
    ∀ k, wf_key k →
      (key_lt (keyspace_prefix id m ++ k) e' ↔ u = [] ∨ key_lt k u) ∧
      (e = [] ∨ key_lt (keyspace_prefix id m ++ k) e ↔ u = [] ∨ key_lt k u).
Proof.
  intros Hok Hlt e'. subst e'.
  assert (∀ k, wf_key k → key_lt (keyspace_prefix id m ++ k) (keyspace_end_prefix id m)) as Hp.
  { intros. by apply encoded_in_keyspace. }
  destruct (is_empty_spec e) as [->|Hne].
  { cbn [orb]. destruct (key_eqb_spec (keyspace_end_prefix id m) (keyspace_end_prefix id m)); [|done].
    exists []. split; [done|]. naive_solver. }
  cbn [orb]. destruct (key_ltb_spec (keyspace_end_prefix id m) e) as [Hs|Hs].
  - destruct (key_eqb_spec (keyspace_end_prefix id m) (keyspace_end_prefix id m)); [|done].
    exists []. split; [done|]. intros k Hk. specialize (Hp k Hk).
    assert (key_lt (keyspace_prefix id m ++ k) e) by key_order. naive_solver.
  - destruct Hlt as [?|Hlt]; [done|].
    destruct (key_eqb_spec e (keyspace_end_prefix id m)) as [->|Hneq].
    + exists []. split; [done|]. naive_solver.
    + apply key_not_lt in Hs.
      assert (key_lt e (keyspace_end_prefix id m)) by (apply KeyOrder.le_lteq in Hs; naive_solver).
      destruct (boundary_inside id m e) as (u & -> & E); [done|done|key_order|done|].
      exists u. split; [exact E|]. intros k Hk. rewrite key_lt_cmp_app.
      assert (u ≠ []) by (intros ->; rewrite app_nil_r in Hlt; by apply KeyOrder.lt_irrefl in Hlt).
      naive_solver.
Qed.

Lemma bounded_and_spec (k : Key) (b : bool) :
  BoolSpec (k ≠ [] ∧ b = true) (k = [] ∨ b = false) (negb (is_empty k) && b).
Proof. destruct k, b; constructor; naive_solver. Qed.

(** One region: no panic, and the user keys of the result are the user keys
    whose encoding the region holds. *)
Lemma truncate_region_correct id m r : region_ok r →
  ∃ o, truncate_region (keyspace_prefix id m) (keyspace_end_prefix id m) r = Some o ∧
    (∀ r', o = Some r' → r' = Region.with_range r (Region.start_key r') (Region.end_key r')) ∧
    ∀ k, wf_key k →
      in_region r (keyspace_prefix id m ++ k) ↔ ∃ r', o = Some r' ∧ in_region r' k.
Proof.
  destruct r as [i s e ep ps]. intros [Hs He]. unfold truncate_region, in_region, in_key_range.
  cbn [Region.start_key Region.end_key fst snd] in *.
  assert (∀ k, wf_key k → key_le (keyspace_prefix id m) (keyspace_prefix id m ++ k) ∧
    key_lt (keyspace_prefix id m ++ k) (keyspace_end_prefix id m)) as Hp
    by apply encoded_in_keyspace.
  destruct (bounded_and_spec e (key_leb e (keyspace_prefix id m))) as [[Ee L1]|L1].
  { exists None. split_and!; [done|done|]. intros k Hk. destruct (Hp k Hk).
    apply bool_decide_eq_true in L1.
    split; [intros [_ [?|?]]; [done | exfalso; key_order] | naive_solver]. }
  destruct (bounded_and_spec s (key_leb (keyspace_end_prefix id m) s)) as [[Es L2]|L2].
  { exists None. split_and!; [done|done|]. intros k Hk. destruct (Hp k Hk).
    apply bool_decide_eq_true in L2.
    split; [intros [? _]; exfalso; key_order | naive_solver]. }
  setoid_rewrite bool_decide_eq_false in L1. setoid_rewrite bool_decide_eq_false in L2.
  setoid_rewrite key_not_le in L1. setoid_rewrite key_not_le in L2.
  destruct (clip_start id m s Hs L2) as (us & Eus & Hus).
  destruct (clip_end id m e He L1) as (ue & Eue & Hue).
  match goal with |- context [key_leb ?a ?b] => destruct (key_leb_spec a b) as [L3|L3] end.
  - exists None; split_and!; [done|done|]; intros k Hk;
      destruct (Hus k) as [Hu1 Hu2], (Hue k Hk) as [Hv1 Hv2]; split; [|naive_solver];
      intros [G1 G2]; exfalso; apply Hu2, Hu1 in G1; apply Hv2, Hv1 in G2; key_order.
  - rewrite Eus, Eue. eexists. split_and!; [done | by intros r' [= <-] |].
    intros k Hk. destruct (Hus k) as [_ Hu2], (Hue k Hk) as [_ Hv2]. rewrite Hu2, Hv2.
    split; [intros ?; by eexists | intros (? & [= <-] & ?); done].
Qed.

Lemma truncate_regions_correct id m rs : Forall region_ok rs →
  ∃ out, truncate_regions (keyspace_prefix id m) (keyspace_end_prefix id m) rs = Some out ∧
    ∀ k i, wf_key k →
      (∃ r, r ∈ out ∧ Region.id r = i ∧ in_region r k) ↔
      (∃ r, r ∈ rs ∧ Region.id r = i ∧ in_region r (keyspace_prefix id m ++ k)).
Proof.
  induction 1 as [|r rs Hr _ IH].
  { exists []. split; [done|]. intros. split; intros (? & []%elem_of_nil & _). }
  destruct (truncate_region_correct id m r Hr) as (o & Eo & Hid & Ho).
  destruct IH as (out & Eout & Hout). simpl. rewrite Eo, Eout. simpl.
  eexists; split; [done|]. intros k i Hk. specialize (Ho k Hk). specialize (Hout k i Hk).
  setoid_rewrite elem_of_cons. destruct o as [r'|].
  - setoid_rewrite elem_of_cons.
    assert (Region.id r' = Region.id r) by (rewrite (Hid r' eq_refl); done).
    assert (in_region r (keyspace_prefix id m ++ k) ↔ in_region r' k) by naive_solver.
    naive_solver.
  - naive_solver.
Qed.

(** The regions of an [EpochNotMatch] error are translated to the keyspace's
    view.  When the boundaries decode to complete API v2 keys, translation does
    not panic and, for every user key, the translated error has a region of a
    given id holding the key exactly when the original had one holding the encoded key:
    no region of the keyspace is lost, none is widened and no other keyspace's
    keys appear. *)
Theorem truncate_epoch_not_match_correct err keyspace_id regions :
  mapM decode_region_keys (EpochNotMatch.current_regions err) = Ok regions →
  Forall region_ok regions →
  ∃ out m,
    truncate_epoch_not_match err keyspace_id = Some (Ok (EpochNotMatch.mk out)) ∧
    m = default Raw (find_map infer_key_mode_from_region regions) ∧
    ∀ k i, wf_key k →
      (∃ r, r ∈ out ∧ Region.id r = i ∧ in_region r k) ↔
      (∃ r, r ∈ regions ∧ Region.id r = i ∧
            in_region r (encode_keyspace_key k (Enable keyspace_id) m)).
Proof.
  intros Hdec Hok. unfold truncate_epoch_not_match. rewrite Hdec.
  set (m := default Raw _).
  destruct (truncate_regions_correct keyspace_id m regions Hok) as (out & -> & Hout).
  exists out, m. split_and!; [done..|]. intros k i Hk. unfold encode_keyspace_key.
  rewrite prepend_bytes_app. by apply Hout.
Qed.

Definition sample_epoch_not_match : EpochNotMatch.t :=
  EpochNotMatch.mk
    [Region.mk 1 (to_encoded [120; 0; 0; 1]) (to_encoded [120; 0; 0; 7; 5]) None [];
     Region.mk 2 (to_encoded [120; 0; 0; 7; 5]) [] None []].

Definition sample_regions : list Region.t :=
  [Region.mk 1 [120; 0; 0; 1] [120; 0; 0; 7; 5] None [];
   Region.mk 2 [120; 0; 0; 7; 5] [] None []].

Lemma truncate_epoch_not_match_correct_witness :
  ∃ out m,
    truncate_epoch_not_match sample_epoch_not_match 7 = Some (Ok (EpochNotMatch.mk out)) ∧
    m = Txn ∧ ∀ k i, wf_key k →
      (∃ r, r ∈ out ∧ Region.id r = i ∧ in_region r k) ↔
      (∃ r, r ∈ sample_regions ∧ Region.id r = i ∧
            in_region r (encode_keyspace_key k (Enable 7) m)).
Proof.
  apply (truncate_epoch_not_match_correct sample_epoch_not_match 7 sample_regions).
  - by vm_compute.
  - unfold region_ok, boundary_ok, wf_key, in_u8.
    repeat first [apply Forall_cons; split | apply Forall_nil | split]; simpl; try lia; auto with lia.
Defined.

(** A region boundary that decodes to a short key inside the keyspace's range is
    not handled: the prefix is cut off with [split_off], which panics. *)
Theorem truncate_epoch_not_match_panics :
  truncate_epoch_not_match
    (EpochNotMatch.mk [Region.mk 1 (to_encoded [120; 0; 1]) [] None []]) 255 = None.
Proof. by vm_compute. Qed.

(** ** Errors *)

Lemma truncate_error_disable e : truncate_keyspace_error Disable e = Some e.
Proof. by destruct e. Qed.
Ltac truncate_disabled :=
  match goal with H : truncate_keyspace_error Disable _ = Some _ |- _ =>
    rewrite truncate_error_disable in H; by simplify_eq end.

Lemma truncate_error_list_existsb (f : Error → bool) ks (es out : list Error) :
  Forall (λ e, ∀ e', truncate_keyspace_error ks e = Some e' → f e' = f e) es →
  (fix go (es : list Error) : option (list Error) :=
      match es with
      | [] => Some []
      | e :: es' => e' ← truncate_keyspace_error ks e; rest ← go es'; Some (e' :: rest)
      end) es = Some out →
  existsb f out = existsb f es.
Proof.
  intros HF. revert out. induction HF as [|e es He HF IH]; intros out; [by intros [= <-]|].
  destruct (truncate_keyspace_error ks e) as [e'|]; [|done]. simpl.
  destruct ((fix go (es : list Error) : option (list Error) := _) es) as [rest|] eqn:E; [|done].
  intros [= <-]. simpl. by rewrite (He e' eq_refl), (IH rest eq_refl).
Qed.

(** Truncation keeps the constructor of an error. *)
Lemma truncate_error_leaf ks e e' (leaf : Error → bool) :
  (∀ a b, wraps_error a = false → wraps_error b = false →
     truncate_keyspace_error ks a = Some b → leaf b = leaf a) →
  wraps_error e = false → truncate_keyspace_error ks e = Some e' →
  wraps_error e' = false ∧ leaf e' = leaf e.
Proof.
  intros Hl Hw He. assert (wraps_error e' = false) as Hw'.
  { destruct ks; [truncate_disabled|]. destruct e; simplify_eq/=; try done.
    by destruct (truncate_keyspace_region_error _ _); simplify_eq/=. }
  split; [done|]. by apply Hl.
Qed.

Ltac error_classifier :=
  intros ? ? ? ? ?; let a := fresh in
  match goal with H : truncate_keyspace_error ?ks ?x = Some ?y |- _ =>
    destruct ks; [truncate_disabled|]; destruct x; simplify_eq/=; try done;
    match goal with H : fmap _ ?o = Some _ |- _ => by destruct o; simplify_eq/= end
  end.

Lemma truncate_error_matches leaf ks e e' :
  (∀ a b, wraps_error a = false → wraps_error b = false →
     truncate_keyspace_error ks a = Some b → leaf b = leaf a) →
  (∀ a, wraps_error a = true → leaf a = false) →
  truncate_keyspace_error ks e = Some e' → error_matches leaf e' = error_matches leaf e.
Proof.
  intros Hl Hw. revert e'. induction e as [e He|e IH|e sk IH|es IH|es IH] using Error_nested_ind; intros e' E.
  - destruct (truncate_error_leaf ks e e' leaf Hl He E) as [He' Hleaf].
    assert (∀ x, wraps_error x = false → error_matches leaf x = leaf x) as Hx.
    { intros x Hx'. destruct x; simpl in *; try done; apply orb_false_r. }
    by rewrite !Hx.
  - destruct ks; [truncate_disabled|]. simpl in E.
    destruct (truncate_keyspace_error _ e) as [x|]; simplify_eq/=. by rewrite !Hw, (IH x).
  - destruct ks; [truncate_disabled|]. simpl in E.
    destruct (truncate_keyspace_error _ e) as [x|]; simplify_eq/=. by rewrite !Hw, (IH x).
  - destruct ks; [truncate_disabled|]. cbn [truncate_keyspace_error] in E.
    match type of E with fmap _ ?o = _ => destruct o as [out|] eqn:Eo end; simplify_eq/=.
    rewrite !Hw by done. by rewrite (truncate_error_list_existsb _ _ es out IH Eo).
  - destruct ks; [truncate_disabled|]. cbn [truncate_keyspace_error] in E.
    match type of E with fmap _ ?o = _ => destruct o as [out|] eqn:Eo end; simplify_eq/=.
    rewrite !Hw by done. by rewrite (truncate_error_list_existsb _ _ es out IH Eo).
Qed.

Lemma truncate_error_undetermined ks e e' :
  truncate_keyspace_error ks e = Some e' → is_undetermined e' = is_undetermined e.
Proof.
  revert e'. induction e as [e He|e IH|e sk IH|es IH|es IH] using Error_nested_ind; intros e' E.
  1: { destruct (truncate_error_leaf ks e e' is_undetermined) as [_ ?]; [|done..].
       intros a b Ha Hb _. by destruct a, b. }
  all: destruct ks; [truncate_disabled|]; cbn [truncate_keyspace_error] in E.
  - destruct (truncate_keyspace_error _ e) as [x|]; by simplify_eq/=.
  - destruct (truncate_keyspace_error _ e) as [x|]; simplify_eq/=. by apply IH.
  - match type of E with fmap _ ?o = _ => destruct o as [out|] eqn:Eo end; simplify_eq/=.
    by rewrite (truncate_error_list_existsb _ _ es out IH Eo).
  - match type of E with fmap _ ?o = _ => destruct o as [out|] eqn:Eo end; simplify_eq/=.
    by rewrite (truncate_error_list_existsb _ _ es out IH Eo).
Qed.

(** Removing the keyspace prefix from an error, however deeply wrapped, never
    changes how it is classified: write conflict, deadlock, key exists, assertion
    failure, undetermined and transport errors keep their class, so every retry
    decision is the same before and after truncation. *)
Theorem truncate_error_classes ks e e' :
  truncate_keyspace_error ks e = Some e' →
  is_write_conflict e' = is_write_conflict e ∧ is_deadlock e' = is_deadlock e ∧
  is_key_exists e' = is_key_exists e ∧ is_assertion_failed e' = is_assertion_failed e ∧
  is_undetermined e' = is_undetermined e ∧ is_grpc_error e' = is_grpc_error e.
Proof.
  intros E. split_and!; try (eapply truncate_error_matches; [| |exact E]; [|by intros []]; error_classifier).
  - by eapply truncate_error_undetermined.
  - destruct ks; [truncate_disabled|]. destruct e; simplify_eq/=; try done;
      match goal with H : _ = Some _ |- _ => revert H end;
      match goal with |- context [fmap _ ?o] => destruct o | |- context [mbind _ ?o] => destruct o end;
      intros; by simplify_eq/=.
Qed.

Lemma truncate_error_classes_witness :
  is_key_exists (MultipleKeyErrors [EKeyExists [9]]) = true.
Proof.
  assert (truncate_keyspace_error (Enable 1)
    (MultipleKeyErrors [EKeyExists [120; 0; 0; 1; 9]]) = Some (MultipleKeyErrors [EKeyExists [9]]))
    as E by (by vm_compute).
  pose proof (truncate_error_classes _ _ _ E) as H. rewrite (proj1 (proj2 (proj2 H))). by vm_compute.
Defined.
