(* ===== verification/Regions.v ===== *)
(** * Regions and the region cache (src/src/region.rs, src/src/region_cache.rs)

    [RegionCacheMap] keeps three indexes over the cached regions: by version id, by
    start key (ordered) and by region id.  The clock and the random jitter are
    explicit inputs of every critical section.  The main results: the cached
    regions never intersect and the indexes agree with each other in every reachable
    cache, [add_region] refines "drop what overlaps or has the same id, then
    insert", and a lookup by key finds a region exactly when one that holds the key is
    cached and alive.  The last part models how concurrent loads of one key are
    merged into a single PD request. *)

From Stdlib Require Import Sorting.Sorted.
From stdpp Require Import relations.
From S2P Require Import Prelude Keys Proto Errors Ranges BTree.

(** ** [RegionWithLeader] *)

Module RegionWithLeader.
Record t := mk { region : Region.t; leader : option Peer.t }.
#[global] Instance eq_dec : EqDecision t.
Proof. solve_decision. Defined.

Definition start_key (r : t) : Key := Region.start_key (region r).
Definition end_key (r : t) : Key := Region.end_key (region r).
Definition range (r : t) : Key * Key := (start_key r, end_key r).
Definition id (r : t) : Z := Region.id (region r).

Definition contains (r : t) (key : Key) : bool :=
  key_leb (start_key r) key && (key_ltb key (end_key r) || is_empty (end_key r)).

Definition ver_id (r : t) : RegionVerId.t :=
  let '(conf_ver, ver) :=
    match Region.region_epoch (region r) with
    | Some e => (RegionEpoch.conf_ver e, RegionEpoch.version e)
    | None => (0, 0)
    end in
  RegionVerId.mk (Region.id (region r)) conf_ver ver.

Definition get_store_id (r : t) : Result Z :=
  match leader r with
  | None => Err (LeaderNotFound (ver_id r))
  | Some p => Ok (Peer.store_id p)
  end.

Definition with_leader (r : t) (p : Peer.t) : t := mk (region r) (Some p).
End RegionWithLeader.

(** ** [RegionCacheTtl] *)

(** What one critical section observes: the clock in seconds, the number drawn
    by [gen_range], and the values other readers store into the TTL cell between
    this reader's load and its compare-exchange. *)
Record Env := mkEnv { now : Z; jitter : Z; contention : list Z }.

Module RegionCacheTtl.
Record t := mk { base_sec : Z; jitter_sec : Z }.

(** [RegionCacheTtl::new] on the whole seconds of the two durations. *)
Definition new (base jitter : Z) : t :=
  mk (default i64_max (try_i64 base)) (default i64_max (try_i64 jitter)).

Definition is_enabled (c : t) : bool := 0 <? base_sec c.

Definition next_ttl (c : t) (now_epoch_sec jitter : Z) : Z :=
  if negb (is_enabled c) then i64_max else
  let jitter := if 0 <? jitter_sec c then jitter else 0 in
  sat_add_i64 (sat_add_i64 now_epoch_sec (base_sec c)) jitter.

(** The compare-exchange loop; the result is the verdict and the value left in
    the cell by this reader (or by the last interfering one). *)
Fixpoint refresh_loop (c : t) (now_epoch_sec jitter : Z) (others : list Z) (new_ttl cell : Z) :
    bool * Z :=
  let ttl := cell in
  if ttl <? now_epoch_sec then (false, cell) else
  if sat_add_i64 now_epoch_sec (base_sec c) <? ttl then (true, cell) else
  let new_ttl := if new_ttl =? 0 then next_ttl c now_epoch_sec jitter else new_ttl in
  match others with
  | [] => (true, new_ttl)
  | cell' :: others' =>
      if cell' =? ttl then (true, new_ttl)
      else refresh_loop c now_epoch_sec jitter others' new_ttl cell'
  end.

Definition check_and_refresh (c : t) (e : Env) (cell : Z) : bool * Z :=
  if negb (is_enabled c) then (true, cell)
  else refresh_loop c (now e) (jitter e) (contention e) 0 cell.
End RegionCacheTtl.

(** ** [RegionCacheMap] *)

Module CachedRegion.
Record t := mk { region : RegionWithLeader.t; ttl_epoch_sec : Z }.
End CachedRegion.

Record RegionCacheMap := mkCache {
  ver_id_to_region : gmap RegionVerId.t CachedRegion.t;
  key_to_ver_id : list (list Z * RegionVerId.t);
  id_to_ver_id : gmap Z RegionVerId.t
}.

Definition RegionCacheMap_new : RegionCacheMap := mkCache ∅ [] ∅.

Definition set_ttl (v : RegionVerId.t) (ttl : Z) (m : RegionCacheMap) : RegionCacheMap :=
  mkCache (alter (λ c, CachedRegion.mk (CachedRegion.region c) ttl) v (ver_id_to_region m))
    (key_to_ver_id m) (id_to_ver_id m).

(** [key_to_ver_id.range(..=&key).next_back()] *)
Definition candidate (key : Key) (m : RegionCacheMap) : option (list Z * RegionVerId.t) :=
  last (List.filter (λ p, key_leb p.1 key) (key_to_ver_id m)).

Section cache.
Context (ttl : RegionCacheTtl.t).

(** The cache read of [get_region_by_key], in its fast path and again after
    becoming the loader.  The TTL is refreshed before [contains] is tested. *)
Definition try_cached_by_key (e : Env) (key : Key) (m : RegionCacheMap) :
    RegionCacheMap * option RegionWithLeader.t :=
  match candidate key m with
  | None => (m, None)
  | Some (_, v) =>
      match ver_id_to_region m !! v with
      | None => (m, None)
      | Some cached =>
          let '(alive, t) :=
            RegionCacheTtl.check_and_refresh ttl e (CachedRegion.ttl_epoch_sec cached) in
          (set_ttl v t m,
           if alive && RegionWithLeader.contains (CachedRegion.region cached) key
           then Some (CachedRegion.region cached) else None)
      end
  end.

(** The cache read of [get_region_by_id]. *)
Definition try_cached_by_id (e : Env) (id : Z) (m : RegionCacheMap) :
    RegionCacheMap * option RegionWithLeader.t :=
  match id_to_ver_id m !! id with
  | None => (m, None)
  | Some v =>
      match ver_id_to_region m !! v with
      | None => (m, None)
      | Some cached =>
          let '(alive, t) :=
            RegionCacheTtl.check_and_refresh ttl e (CachedRegion.ttl_epoch_sec cached) in
          (set_ttl v t m, if alive then Some (CachedRegion.region cached) else None)
      end
  end.

(** The backward scan of [add_region]: stale start keys (no region for the
    version id) and the version ids of overlapped regions. *)
Fixpoint scan_overlaps (region_start_key : Key) (m : RegionCacheMap)
    (search_range : list (list Z * RegionVerId.t))
    (stale_start_keys : list Key) (to_be_removed : gset RegionVerId.t) :
    list Key * gset RegionVerId.t :=
  match search_range with
  | [] => (stale_start_keys, to_be_removed)
  | (start_key_in_cache, ver_id_in_cache) :: rest =>
      match ver_id_to_region m !! ver_id_in_cache with
      | None =>
          scan_overlaps region_start_key m rest
            (stale_start_keys ++ [start_key_in_cache]) to_be_removed
      | Some cached =>
          let end_key_in_cache := RegionWithLeader.end_key (CachedRegion.region cached) in
          if is_empty end_key_in_cache || key_ltb region_start_key end_key_in_cache
          then scan_overlaps region_start_key m rest stale_start_keys
                 ({[ver_id_in_cache]} ∪ to_be_removed)
          else (stale_start_keys, to_be_removed)
      end
  end.

(** One iteration of the removal loop of [add_region]. *)
Definition remove_ver_id (m : RegionCacheMap) (v : RegionVerId.t) : RegionCacheMap :=
  match ver_id_to_region m !! v with
  | None => m
  | Some c =>
      mkCache (delete v (ver_id_to_region m))
        (bremove (RegionWithLeader.start_key (CachedRegion.region c)) (key_to_ver_id m))
        (delete (RegionWithLeader.id (CachedRegion.region c)) (id_to_ver_id m))
  end.

Definition remove_start_key (m : RegionCacheMap) (k : Key) : RegionCacheMap :=
  mkCache (ver_id_to_region m) (bremove k (key_to_ver_id m)) (id_to_ver_id m).

Definition insert_region (r : RegionWithLeader.t) (t : Z) (m : RegionCacheMap) : RegionCacheMap :=
  let v := RegionWithLeader.ver_id r in
  mkCache (<[v := CachedRegion.mk r t]> (ver_id_to_region m))
    (binsert (RegionWithLeader.start_key r) v (key_to_ver_id m))
    (<[RegionWithLeader.id r := v]> (id_to_ver_id m)).

Definition add_region (e : Env) (region : RegionWithLeader.t) (cache : RegionCacheMap) :
    RegionCacheMap :=
  let ttl_epoch_sec := RegionCacheTtl.next_ttl ttl (now e) (jitter e) in
  let end_key := RegionWithLeader.end_key region in
  let to_be_removed : gset RegionVerId.t :=
    match id_to_ver_id cache !! RegionWithLeader.id region with
    | Some v => if decide (v ≠ RegionWithLeader.ver_id region) then {[v]} else ∅
    | None => ∅
    end in
  let search_range :=
    if is_empty end_key then key_to_ver_id cache
    else List.filter (λ p, key_ltb p.1 end_key) (key_to_ver_id cache) in
  let '(stale_start_keys, to_be_removed) :=
    scan_overlaps (RegionWithLeader.start_key region) cache (rev search_range) [] to_be_removed in
  let cache := foldl remove_start_key cache stale_start_keys in
  let cache := foldl remove_ver_id cache (elements to_be_removed) in
  insert_region region ttl_epoch_sec cache.

Definition update_leader (e : Env) (v : RegionVerId.t) (leader : Peer.t) (cache : RegionCacheMap) :
    RegionCacheMap :=
  match ver_id_to_region cache !! v with
  | Some cached =>
      mkCache (<[v := CachedRegion.mk
                        (RegionWithLeader.with_leader (CachedRegion.region cached) leader)
                        (RegionCacheTtl.next_ttl ttl (now e) (jitter e))]> (ver_id_to_region cache))
        (key_to_ver_id cache) (id_to_ver_id cache)
  | None => cache
  end.

Definition invalidate_region_cache (v : RegionVerId.t) (cache : RegionCacheMap) : RegionCacheMap :=
  match ver_id_to_region cache !! v with
  | Some cached =>
      let id := RegionWithLeader.id (CachedRegion.region cached) in
      let start_key := RegionWithLeader.start_key (CachedRegion.region cached) in
      mkCache (delete v (ver_id_to_region cache)) (bremove start_key (key_to_ver_id cache))
        (delete id (id_to_ver_id cache))
  | None => cache
  end.

(** [read_through_region_by_key], [get_region_by_key] and [get_region_by_id] of a
    task that finds no load of the same key in flight; [pd] is what PD answers. *)
Definition read_through_region_by_key (e : Env) (pd : Result RegionWithLeader.t)
    (m : RegionCacheMap) : RegionCacheMap * Result RegionWithLeader.t :=
  match pd with
  | Err err => (m, Err err)
  | Ok region => (add_region e region m, Ok region)
  end.

Definition get_region_by_key (e1 e2 e3 : Env) (pd : Result RegionWithLeader.t) (key : Key)
    (m : RegionCacheMap) : RegionCacheMap * Result RegionWithLeader.t :=
  match try_cached_by_key e1 key m with
  | (m, Some r) => (m, Ok r)
  | (m, None) =>
      match try_cached_by_key e2 key m with
      | (m, Some r) => (m, Ok r)
      | (m, None) => read_through_region_by_key e3 pd m
      end
  end.

Definition get_region_by_id (e1 e2 e3 : Env) (pd : Result RegionWithLeader.t) (id : Z)
    (m : RegionCacheMap) : RegionCacheMap * Result RegionWithLeader.t :=
  match try_cached_by_id e1 id m with
  | (m, Some r) => (m, Ok r)
  | (m, None) =>
      match try_cached_by_id e2 id m with
      | (m, Some r) => (m, Ok r)
      | (m, None) =>
          (match pd with Ok region => add_region e3 region m | Err _ => m end, pd)
      end
  end.
End cache.

(** ** The store cache *)

Definition StoreCache : Type := gmap Z Store.t.

Definition ENGINE_LABEL_KEY : string := "engine".
Definition ENGINE_LABEL_TIFLASH : string := "tiflash".
Definition ENGINE_LABEL_TIFLASH_COMPUTE : string := "tiflash_compute".

(** [StoreState]: 0 is [Up], 1 [Offline], 2 [Tombstone]; other values do not convert. *)
Definition is_valid_tikv_store (s : Store.t) : bool :=
  if Store.state s =? 2 then false
  else if negb ((Store.state s =? 0) || (Store.state s =? 1)) then false
  else
    negb (existsb (λ l, String.eqb (StoreLabel.key l) ENGINE_LABEL_KEY &&
      (String.eqb (StoreLabel.value l) ENGINE_LABEL_TIFLASH ||
       String.eqb (StoreLabel.value l) ENGINE_LABEL_TIFLASH_COMPUTE)) (Store.labels s)).

Definition read_through_store_by_id (pd : Result Store.t) (id : Z) (m : StoreCache) :
    StoreCache * Result Store.t :=
  match pd with
  | Err e => (m, Err e)
  | Ok store => (<[id := store]> m, Ok store)
  end.

Definition get_store_by_id (pd : Result Store.t) (id : Z) (m : StoreCache) :
    StoreCache * Result Store.t :=
  match m !! id with
  | Some store => (m, Ok store)
  | None => read_through_store_by_id pd id m
  end.

Definition invalidate_store_cache (id : Z) (m : StoreCache) : StoreCache := delete id m.

Definition read_through_all_stores (pd : Result (list Store.t)) (m : StoreCache) :
    StoreCache * Result (list Store.t) :=
  match pd with
  | Err e => (m, Err e)
  | Ok stores =>
      let stores := List.filter is_valid_tikv_store stores in
      (foldl (λ m s, <[Store.id s := s]> m) m stores, Ok stores)
  end.

(** ** The cache invariant *)

Abbreviation creg := CachedRegion.region (only parsing).
Abbreviation rstart c := (RegionWithLeader.start_key (CachedRegion.region c)) (only parsing).
Abbreviation rend c := (RegionWithLeader.end_key (CachedRegion.region c)) (only parsing).
Abbreviation rid c := (RegionWithLeader.id (CachedRegion.region c)) (only parsing).

(** A region's range is not empty. *)
Definition range_wf (r : RegionWithLeader.t) : Prop :=
  RegionWithLeader.end_key r = [] ∨ key_lt (RegionWithLeader.start_key r) (RegionWithLeader.end_key r).

(** Two regions hold a common key. *)
Definition intersects (r1 r2 : RegionWithLeader.t) : Prop :=
  ∃ k, RegionWithLeader.contains r1 k = true ∧ RegionWithLeader.contains r2 k = true.

Record cache_inv (m : RegionCacheMap) : Prop := {
  inv_region : ∀ v c, ver_id_to_region m !! v = Some c →
    RegionWithLeader.ver_id (creg c) = v ∧ range_wf (creg c) ∧
    bget (rstart c) (key_to_ver_id m) = Some v ∧ id_to_ver_id m !! rid c = Some v;
  inv_key : ∀ k v, bget k (key_to_ver_id m) = Some v →
    ∃ c, ver_id_to_region m !! v = Some c ∧ rstart c = k;
  inv_id : ∀ i v, id_to_ver_id m !! i = Some v →
    ∃ c, ver_id_to_region m !! v = Some c ∧ rid c = i;
  inv_sorted : bwf (key_to_ver_id m);
  inv_disjoint : ∀ v1 v2 c1 c2, ver_id_to_region m !! v1 = Some c1 →
    ver_id_to_region m !! v2 = Some c2 → intersects (creg c1) (creg c2) → v1 = v2
}.

Lemma contains_spec r k :
  RegionWithLeader.contains r k = true ↔ in_key_range (RegionWithLeader.range r) k.
Proof.
  unfold RegionWithLeader.contains, in_key_range. simpl.
  rewrite andb_true_iff, orb_true_iff. unfold key_leb, key_ltb. rewrite !bool_decide_eq_true.
  destruct (is_empty_spec (RegionWithLeader.end_key r)); naive_solver.
Qed.

Lemma contains_start r : range_wf r → RegionWithLeader.contains r (RegionWithLeader.start_key r) = true.
Proof.
  intros H. apply contains_spec. split; simpl; [apply KeyOrder.le_refl|]. unfold range_wf in H. tauto.
Qed.

(** Intersection of non-empty ranges, by their end points. *)
Lemma intersects_iff r1 r2 : range_wf r1 → range_wf r2 →
  intersects r1 r2 ↔
  (RegionWithLeader.end_key r1 = [] ∨ key_lt (RegionWithLeader.start_key r2) (RegionWithLeader.end_key r1)) ∧
  (RegionWithLeader.end_key r2 = [] ∨ key_lt (RegionWithLeader.start_key r1) (RegionWithLeader.end_key r2)).
Proof.
  unfold range_wf, intersects. setoid_rewrite contains_spec. unfold in_key_range. simpl.
  intros W1 W2. split.
  - intros (k & [H1 H2] & [H3 H4]).
    split; [destruct H2 as [|H2]; [by left | right; key_order] |
            destruct H4 as [|H4]; [by left | right; key_order]].
  - intros [H1 H2]. exists (key_max (RegionWithLeader.start_key r1) (RegionWithLeader.start_key r2)).
    unfold key_max. destruct (key_leb_spec (RegionWithLeader.start_key r1) (RegionWithLeader.start_key r2)) as [L|L].
    + pose proof (KeyOrder.le_refl (RegionWithLeader.start_key r2)). tauto.
    + pose proof (KeyOrder.le_refl (RegionWithLeader.start_key r1)).
      assert (key_le (RegionWithLeader.start_key r2) (RegionWithLeader.start_key r1)) by key_order. tauto.
Qed.

Lemma intersects_sym r1 r2 : intersects r1 r2 → intersects r2 r1.
Proof. intros (k & ? & ?). by exists k. Qed.
Lemma intersects_refl r : range_wf r → intersects r r.
Proof. intros. exists (RegionWithLeader.start_key r). split; by apply contains_start. Qed.

(** Distinct cached regions in start-key order do not overlap. *)
Lemma inv_ordered m v1 v2 c1 c2 : cache_inv m →
  ver_id_to_region m !! v1 = Some c1 → ver_id_to_region m !! v2 = Some c2 →
  key_lt (rstart c1) (rstart c2) → rend c1 ≠ [] ∧ key_le (rend c1) (rstart c2).
Proof.
  intros I E1 E2 Hlt. destruct (inv_region _ I _ _ E1) as (<- & W1 & K1 & _).
  destruct (inv_region _ I _ _ E2) as (<- & W2 & K2 & _).
  destruct (decide (rend c1 = [] ∨ key_lt (rstart c2) (rend c1))) as [H|H].
  - exfalso. assert (intersects (creg c1) (creg c2)) as X.
    { apply intersects_iff; [done..|]. split; [done|].
      destruct W2; [by left | right; key_order]. }
    apply (inv_disjoint _ I _ _ _ _ E1 E2) in X. rewrite X in *. simplify_eq.
    by apply KeyOrder.lt_irrefl in Hlt.
  - split; [tauto|]. apply key_not_lt. tauto.
Qed.

(** ** The empty cache, removal and insertion *)

Lemma new_inv : cache_inv RegionCacheMap_new.
Proof. split; simpl; try done. unfold bwf. simpl. constructor. Qed.

Lemma remove_ver_id_region m v :
  ver_id_to_region (remove_ver_id m v) = delete v (ver_id_to_region m).
Proof.
  unfold remove_ver_id. destruct (ver_id_to_region m !! v) eqn:E; [done|].
  by rewrite delete_id.
Qed.

Lemma remove_ver_id_inv m v : cache_inv m → cache_inv (remove_ver_id m v).
Proof.
  intros I. unfold remove_ver_id. destruct (ver_id_to_region m !! v) as [c|] eqn:E; [|done].
  destruct (inv_region _ I _ _ E) as (Hv & _ & K & Hid).
  split; simpl.
  - intros v' c' [Hne E']%lookup_delete_Some.
    destruct (inv_region _ I _ _ E') as (Hv' & W' & K' & Hid').
    split_and!; [done..| |].
    + rewrite bget_remove by apply I. case_decide as Hk; [|done].
      rewrite Hk in K. by simplify_eq.
    + apply lookup_delete_Some. split; [|done]. intros Hi. rewrite Hi in Hid. by simplify_eq.
  - intros k' v'. rewrite bget_remove by apply I. case_decide as Hk; [done|]. intros Hk'.
    destruct (inv_key _ I _ _ Hk') as (c' & E' & <-). exists c'. split; [|done].
    apply lookup_delete_Some. split; [|done]. intros ->. by simplify_eq.
  - intros i v' [Hne E']%lookup_delete_Some. destruct (inv_id _ I _ _ E') as (c' & E'' & <-).
    exists c'. split; [|done]. apply lookup_delete_Some. split; [|done]. intros ->. by simplify_eq.
  - apply bremove_wf, I.
  - intros v1 v2 c1 c2 [_ H1]%lookup_delete_Some [_ H2]%lookup_delete_Some. by eapply inv_disjoint.
Qed.

Lemma remove_all_spec l m : cache_inv m →
  cache_inv (foldl remove_ver_id m l) ∧
  ∀ v c, ver_id_to_region (foldl remove_ver_id m l) !! v = Some c ↔
         ver_id_to_region m !! v = Some c ∧ v ∉ l.
Proof.
  revert m. induction l as [|x l IH]; intros m I; simpl.
  - split; [done|]. intros. rewrite elem_of_nil. tauto.
  - destruct (IH (remove_ver_id m x) (remove_ver_id_inv _ _ I)) as [I' E]. split; [done|].
    intros v c. rewrite E, remove_ver_id_region, lookup_delete_Some, elem_of_cons.
    naive_solver.
Qed.

Lemma insert_region_inv m r t : cache_inv m → range_wf r →
  (∀ v c, ver_id_to_region m !! v = Some c →
     ¬ intersects (creg c) r ∧ rid c ≠ RegionWithLeader.id r) →
  cache_inv (insert_region r t m).
Proof.
  intros I W Hnew. unfold insert_region.
  assert (∀ v c, ver_id_to_region m !! v = Some c → v ≠ RegionWithLeader.ver_id r) as Hv.
  { intros v c E ->. destruct (inv_region _ I _ _ E) as (Hv & _).
    destruct (Hnew _ _ E) as [_ Hid]. apply Hid.
    apply (f_equal RegionVerId.id) in Hv. unfold RegionWithLeader.ver_id, RegionWithLeader.id in *.
    by destruct (Region.region_epoch _), (Region.region_epoch _). }
  assert (∀ v c, ver_id_to_region m !! v = Some c → rstart c ≠ RegionWithLeader.start_key r) as Hs.
  { intros v c E Heq. destruct (inv_region _ I _ _ E) as (_ & Wc & _).
    destruct (Hnew _ _ E) as [Hni _]. apply Hni. exists (RegionWithLeader.start_key r).
    split; [rewrite <- Heq; by apply contains_start | by apply contains_start]. }
  split; simpl.
  - intros v c [[<- <-]|[Hne E]]%lookup_insert_Some; simpl.
    { rewrite bget_insert by apply I. rewrite decide_True by done.
      by rewrite lookup_insert_eq. }
    destruct (inv_region _ I _ _ E) as (? & ? & K & Hid). split_and!; [done..| |].
    + rewrite bget_insert by apply I. rewrite decide_False; [done|]. intros ?. by eapply Hs.
    + rewrite lookup_insert_ne; [done|]. intros ?. destruct (Hnew _ _ E). congruence.
  - intros k v. rewrite bget_insert by apply I. case_decide as Hk.
    + intros [= <-]. eexists. by rewrite lookup_insert_eq.
    + intros Hb. destruct (inv_key _ I _ _ Hb) as (c & E & ?). exists c.
      rewrite lookup_insert_ne; [done|]. intros <-. by eapply Hv.
  - intros i v [[<- <-]|[Hne E]]%lookup_insert_Some.
    + eexists. by rewrite lookup_insert_eq.
    + destruct (inv_id _ I _ _ E) as (c & E' & ?). exists c.
      rewrite lookup_insert_ne; [done|]. intros <-. by eapply Hv.
  - apply binsert_wf, I.
  - intros v1 v2 c1 c2 [[<- <-]|[_ E1]]%lookup_insert_Some [[<- <-]|[_ E2]]%lookup_insert_Some X; simpl in *.
    + done.
    + exfalso. apply intersects_sym in X. by apply Hnew in E2 as [? _].
    + exfalso. by apply Hnew in E1 as [? _].
    + by eapply inv_disjoint.
Qed.

(** ** [add_region] *)

Lemma scan_overlaps_spec m r L stale removed : cache_inv m →
  StronglySorted (λ a b : list Z * RegionVerId.t, key_lt b.1 a.1) L →
  Forall (λ p, bget p.1 (key_to_ver_id m) = Some p.2) L →
  ∃ S, scan_overlaps (RegionWithLeader.start_key r) m L stale removed = (stale, S) ∧
    ∀ v, v ∈ S ↔ v ∈ removed ∨ ∃ c, (rstart c, v) ∈ L ∧ ver_id_to_region m !! v = Some c ∧
      (rend c = [] ∨ key_lt (RegionWithLeader.start_key r) (rend c)).
Proof.
  intros I. revert removed. induction L as [|[k v] L IH]; intros removed HS HF; simpl.
  { exists removed. split; [done|]. intros v. setoid_rewrite elem_of_nil. naive_solver. }
  apply StronglySorted_inv in HS as [HS Hhd]. apply Forall_cons in HF as [Hk HF]. simpl in Hk.
  destruct (inv_key _ I _ _ Hk) as (c & Ec & Hc). rewrite Ec.
  destruct (is_empty (rend c) || key_ltb (RegionWithLeader.start_key r) (rend c)) eqn:Ov.
  - destruct (IH ({[v]} ∪ removed) HS HF) as (S & -> & HS'). exists S. split; [done|].
    intros v'. rewrite HS', elem_of_union, elem_of_singleton. setoid_rewrite elem_of_cons.
    assert (rend c = [] ∨ key_lt (RegionWithLeader.start_key r) (rend c)) as Hov.
    { apply orb_true_iff in Ov as [Ov|Ov]; [left; by destruct (is_empty_spec (rend c))
        | right; by apply bool_decide_eq_true in Ov]. }
    split.
    + intros [[->|?]|(c' & ? & ?)]; [right; exists c; rewrite Hc; tauto | by left |].
      right. exists c'. tauto.
    + intros [?|(c' & [[= ? ->]|?] & ? & ?)]; [by left; right | by left; left |].
      right. by exists c'.
  - exists removed. split; [done|]. intros v'. split; [by left|].
    intros [?|(c' & Hin & Ec' & Hov)]; [done|]. exfalso.
    apply orb_false_iff in Ov as [O1 O2]. destruct (is_empty_spec (rend c)) as [|Hne]; [done|].
    apply bool_decide_eq_false, key_not_lt in O2.
    destruct (inv_region _ I _ _ Ec) as (_ & W & _). unfold range_wf in W.
    destruct W as [?|W]; [done|].
    apply elem_of_cons in Hin as [[= H1 ->]|Hin].
    { simplify_eq. destruct Hov; [done|]. key_order. }
    rewrite Forall_forall in Hhd. pose proof (Hhd _ Hin) as Hlt. simpl in Hlt. rewrite <- Hc in Hlt.
    destruct (inv_ordered m v' v c' c I Ec' Ec Hlt) as [Hn Hle].
    destruct Hov; [done|]. key_order.
Qed.

(** PD's documented use of version ids: a version id names one range. *)
Definition ver_id_consistent (r : RegionWithLeader.t) (m : RegionCacheMap) : Prop :=
  ∀ c, ver_id_to_region m !! RegionWithLeader.ver_id r = Some c →
    RegionWithLeader.range (creg c) = RegionWithLeader.range r.

(** What [add_region] evicts. *)
Definition conflicts (r : RegionWithLeader.t) (c : CachedRegion.t) : Prop :=
  intersects (creg c) r ∨ rid c = RegionWithLeader.id r.

Lemma add_region_shape ttl e r m : cache_inv m → range_wf r → ver_id_consistent r m →
  ∃ l, add_region ttl e r m =
    insert_region r (RegionCacheTtl.next_ttl ttl (now e) (jitter e)) (foldl remove_ver_id m l) ∧
    ∀ v c, ver_id_to_region m !! v = Some c → v ∈ l ↔ conflicts r c.
Proof.
  intros I W Hcons. unfold add_region.
  set (rem0 := match id_to_ver_id m !! _ with Some _ => _ | None => _ end).
  set (sr := if is_empty _ then _ else _).
  assert (sr = List.filter (λ p, is_empty (RegionWithLeader.end_key r) ||
    key_ltb p.1 (RegionWithLeader.end_key r)) (key_to_ver_id m)) as Hsr.
  { subst sr. destruct (is_empty _); simpl; [|done].
    generalize (key_to_ver_id m). intros l0. induction l0; simpl; congruence. }
  assert (bwf sr) as Hwf by (rewrite Hsr; apply bfilter_wf, I).
  assert (∀ p, p ∈ rev sr ↔ p ∈ key_to_ver_id m ∧ (RegionWithLeader.end_key r = [] ∨
     key_lt p.1 (RegionWithLeader.end_key r))) as Hin.
  { intros p. rewrite list_elem_of_In, <- in_rev, Hsr, filter_In, <- list_elem_of_In.
    rewrite orb_true_iff. unfold key_ltb. rewrite bool_decide_eq_true.
    destruct (is_empty_spec (RegionWithLeader.end_key r)); naive_solver. }
  destruct (scan_overlaps_spec m r (rev sr) [] rem0 I) as (S & -> & HS).
  { by apply bwf_rev. }
  { apply Forall_forall. intros [k v] [H _]%Hin. by apply bget_Some_In; [apply I|]. }
  exists (elements S). split; [done|].
  intros v c Ec. rewrite elem_of_elements, HS.
  destruct (inv_region _ I _ _ Ec) as (Hv & Wc & Hk & Hid).
  assert ((∃ c', (rstart c', v) ∈ rev sr ∧ ver_id_to_region m !! v = Some c' ∧
    (rend c' = [] ∨ key_lt (RegionWithLeader.start_key r) (rend c'))) ↔ intersects (creg c) r) as ->.
  { rewrite intersects_iff by done. setoid_rewrite Hin. split.
    - intros (c' & [_ H1] & E' & H2). simplify_eq. tauto.
    - intros [H1 H2]. exists c. split_and!; [|done..]. by apply bget_Some_In; [apply I|]. }
  unfold conflicts. subst rem0. split.
  - intros [H|H]; [|by left]. right.
    destruct (id_to_ver_id m !! RegionWithLeader.id r) as [v'|] eqn:Ei; [|by apply elem_of_empty in H].
    case_decide; [|by apply elem_of_empty in H]. apply elem_of_singleton in H as ->.
    destruct (inv_id _ I _ _ Ei) as (c' & ? & ?). by simplify_eq.
  - intros [H|H]; [by right|]. rewrite H in Hid. rewrite Hid.
    case_decide as D; [left; by apply elem_of_singleton|]. right.
    assert (v = RegionWithLeader.ver_id r) as -> by (destruct (decide (v = RegionWithLeader.ver_id r)); tauto).
    pose proof (Hcons c Ec) as [= Hs He]. unfold intersects.
    exists (RegionWithLeader.start_key r). split; [|by apply contains_start].
    rewrite <- Hs. by apply contains_start.
Qed.

Lemma add_region_inv ttl e r m : cache_inv m → range_wf r → ver_id_consistent r m →
  cache_inv (add_region ttl e r m).
Proof.
  intros I W Hc. destruct (add_region_shape ttl e r m I W Hc) as (l & -> & Hl).
  destruct (remove_all_spec l m I) as [I' E]. apply insert_region_inv; [done..|].
  intros v c [E1 E2]%E. rewrite (Hl v c E1) in E2. unfold conflicts in E2. tauto.
Qed.

Lemma set_ttl_inv m v t : cache_inv m → cache_inv (set_ttl v t m).
Proof.
  intros I. unfold set_ttl.
  assert (∀ v' c', alter (λ c, CachedRegion.mk (creg c) t) v (ver_id_to_region m) !! v' = Some c' →
    ∃ c, ver_id_to_region m !! v' = Some c ∧ creg c' = creg c) as H.
  { intros v' c' E. destruct (decide (v = v')) as [<-|Hne].
    - rewrite lookup_alter_eq in E. destruct (ver_id_to_region m !! v) eqn:E'; [|done].
      simpl in E. simplify_eq. eauto.
    - rewrite lookup_alter_ne in E by done. eauto. }
  assert (∀ v' c, ver_id_to_region m !! v' = Some c →
    ∃ c', alter (λ c, CachedRegion.mk (creg c) t) v (ver_id_to_region m) !! v' = Some c' ∧
          creg c' = creg c) as H'.
  { intros v' c E. destruct (decide (v = v')) as [<-|Hne].
    - rewrite lookup_alter_eq, E. simpl. eauto.
    - rewrite lookup_alter_ne by done. eauto. }
  split; simpl.
  - intros v' c' (c & E & ->)%H. by apply I.
  - intros k v' Hk. destruct (inv_key _ I _ _ Hk) as (c & (c' & ? & E)%H' & <-).
    exists c'. by rewrite E.
  - intros k v' Hk. destruct (inv_id _ I _ _ Hk) as (c & (c' & ? & E)%H' & <-).
    exists c'. by rewrite E.
  - apply I.
  - intros v1 v2 c1 c2 (d1 & E1 & ->)%H (d2 & E2 & ->)%H. by apply (inv_disjoint _ I).
Qed.

Lemma update_leader_inv ttl e v p m : cache_inv m → cache_inv (update_leader ttl e v p m).
Proof.
  intros I. unfold update_leader. destruct (ver_id_to_region m !! v) as [c|] eqn:E; [|done].
  set (c0 := CachedRegion.mk _ _).
  assert (∀ v' c', <[v := c0]> (ver_id_to_region m) !! v' = Some c' →
    ∃ c, ver_id_to_region m !! v' = Some c ∧
      RegionWithLeader.region (creg c') = RegionWithLeader.region (creg c)) as H.
  { intros v' c' [[<- <-]|[_ ?]]%lookup_insert_Some; by eauto. }
  assert (∀ v' c1, ver_id_to_region m !! v' = Some c1 →
    ∃ c', <[v := c0]> (ver_id_to_region m) !! v' = Some c' ∧
      RegionWithLeader.region (creg c') = RegionWithLeader.region (creg c1)) as H'.
  { intros v' c1 E1. destruct (decide (v = v')) as [<-|Hne].
    - rewrite lookup_insert_eq. simplify_eq. eexists. by split.
    - rewrite lookup_insert_ne by done. eauto. }
  destruct I as [I1 I2 I3 I4 I5].
  unfold range_wf, intersects, RegionWithLeader.contains, RegionWithLeader.ver_id,
    RegionWithLeader.id, RegionWithLeader.start_key, RegionWithLeader.end_key in I1, I2, I3, I5.
  split; unfold range_wf, intersects, RegionWithLeader.contains, RegionWithLeader.ver_id,
    RegionWithLeader.id, RegionWithLeader.start_key, RegionWithLeader.end_key;
    cbn [ver_id_to_region key_to_ver_id id_to_ver_id].
  - intros v' c' (d & Ed & ->)%H. by apply I1.
  - intros k v' Hk. destruct (I2 _ _ Hk) as (d & (c' & ? & Ed)%H' & <-). exists c'. by rewrite Ed.
  - intros k v' Hk. destruct (I3 _ _ Hk) as (d & (c' & ? & Ed)%H' & <-). exists c'. by rewrite Ed.
  - done.
  - intros v1 v2 c1 c2 (d1 & E1 & ->)%H (d2 & E2 & ->)%H. by apply I5.
Qed.

Lemma invalidate_is_remove v m : invalidate_region_cache v m = remove_ver_id m v.
Proof. done. Qed.

(** ** Lookup by key *)

Lemma candidate_spec m key v c : cache_inv m → ver_id_to_region m !! v = Some c →
  RegionWithLeader.contains (creg c) key = true →
  candidate key m = Some (rstart c, v).
Proof.
  intros I E Hc. apply contains_spec in Hc as [Hle Hend]. simpl in *.
  destruct (inv_region _ I _ _ E) as (_ & W & Hk & _).
  apply last_le_Some; [apply I|]. split_and!; [by apply bget_Some_In; [apply I|] | done |].
  intros s' v' Hin Hle'. apply bget_Some_In in Hin; [|apply I].
  destruct (inv_key _ I _ _ Hin) as (c' & E' & <-).
  destruct (decide (key_le (rstart c') (rstart c))) as [|Hgt]; [done|]. exfalso.
  apply key_not_le in Hgt. destruct (inv_ordered m v v' c c' I E E' Hgt) as [? ?].
  destruct Hend; [done|]. key_order.
Qed.

Lemma candidate_cached m key s v : cache_inv m → candidate key m = Some (s, v) →
  ∃ c, ver_id_to_region m !! v = Some c ∧ rstart c = s.
Proof.
  intros I H. apply last_le_Some in H as (Hin & _); [|apply I].
  apply bget_Some_In in Hin; [|apply I]. by apply I.
Qed.

(** The region for a key is alive when its TTL check succeeds. *)
Definition alive (ttl : RegionCacheTtl.t) (e : Env) (c : CachedRegion.t) : Prop :=
  (RegionCacheTtl.check_and_refresh ttl e (CachedRegion.ttl_epoch_sec c)).1 = true.

Lemma try_cached_by_key_inv ttl e key m :
  cache_inv m → cache_inv (try_cached_by_key ttl e key m).1.
Proof.
  intros I. unfold try_cached_by_key. destruct (candidate key m) as [[s v]|]; [|done].
  destruct (ver_id_to_region m !! v); [|done].
  destruct (RegionCacheTtl.check_and_refresh _ _ _). by apply set_ttl_inv.
Qed.

Lemma try_cached_by_id_inv ttl e id m :
  cache_inv m → cache_inv (try_cached_by_id ttl e id m).1.
Proof.
  intros I. unfold try_cached_by_id. destruct (id_to_ver_id m !! id); [|done].
  destruct (ver_id_to_region m !! _); [|done].
  destruct (RegionCacheTtl.check_and_refresh _ _ _). by apply set_ttl_inv.
Qed.

(** ** Theorems *)

(** The critical sections that run on the shared cache, one per lock acquisition.  An
    addition takes a region as PD reports it: its range is not empty, and a version id
    names one range, since the version is raised whenever a split or merge changes the
    range (metapb.proto); [add_region] itself checks neither. *)
Inductive cache_step (ttl : RegionCacheTtl.t) : RegionCacheMap → RegionCacheMap → Prop :=
| step_add e r m : range_wf r → ver_id_consistent r m → cache_step ttl m (add_region ttl e r m)
| step_update_leader e v p m : cache_step ttl m (update_leader ttl e v p m)
| step_invalidate v m : cache_step ttl m (invalidate_region_cache v m)
| step_lookup_key e k m : cache_step ttl m (try_cached_by_key ttl e k m).1
| step_lookup_id e i m : cache_step ttl m (try_cached_by_id ttl e i m).1.

(** C7: in every cache reachable by any interleaving of additions, leader
    updates, invalidations and lookups, the three indexes agree and no two cached regions
    intersect (the invariant stated in the source).  The added regions are as PD reports
    them: not empty, and with the range of the cached entry of the same version id, if
    there is one. *)
Theorem region_cache_invariant ttl m :
  rtc (cache_step ttl) RegionCacheMap_new m → cache_inv m.
Proof.
  revert m. apply (rtc_ind_r cache_inv); [apply new_inv|].
  intros x y _ Hxy Hx. destruct Hxy.
  - by apply add_region_inv.
  - by apply update_leader_inv.
  - rewrite invalidate_is_remove. by apply remove_ver_id_inv.
  - by apply try_cached_by_key_inv.
  - by apply try_cached_by_id_inv.
Qed.

Definition sample_ttl : RegionCacheTtl.t := RegionCacheTtl.new 600 60.
Definition sample_env (t : Z) : Env := mkEnv t 7 [].
Definition sample_region (id ver : Z) (s e : Key) : RegionWithLeader.t :=
  RegionWithLeader.mk (Region.mk id s e (Some (RegionEpoch.mk 1 ver)) []) None.
Definition sample_cache : RegionCacheMap :=
  add_region sample_ttl (sample_env 100) (sample_region 2 1 [5] [])
    (add_region sample_ttl (sample_env 100) (sample_region 1 1 [] [5]) RegionCacheMap_new).

Lemma region_cache_invariant_witness : cache_inv sample_cache.
Proof.
  apply (region_cache_invariant sample_ttl). eapply rtc_l; [|eapply rtc_l; [|apply rtc_refl]].
  - apply (step_add sample_ttl (sample_env 100) (sample_region 1 1 [] [5]));
      [by right | by intros ?].
  - apply (step_add sample_ttl (sample_env 100) (sample_region 2 1 [5] []));
      [by left | intros c Hc; by vm_compute in Hc].
Defined.

(** C8: [add_region] refines its specification.  Let the cache satisfy the invariant
    above, let the new region's range hold some key, and let a cached entry with the new
    region's version id, if there is one, have the new region's range (PD raises the
    version of the epoch whenever a split or merge changes a range).  Then afterwards the
    cache holds the new region, with a fresh TTL, and exactly those old entries that
    neither intersect it nor have its region id: the early exit of the backward scan
    misses no overlapping region, and nothing else is evicted. *)
Theorem add_region_refines ttl e r m :
  cache_inv m → range_wf r → ver_id_consistent r m →
  ∀ v c, ver_id_to_region (add_region ttl e r m) !! v = Some c ↔
    (v = RegionWithLeader.ver_id r ∧
     c = CachedRegion.mk r (RegionCacheTtl.next_ttl ttl (now e) (jitter e))) ∨
    (ver_id_to_region m !! v = Some c ∧
     ¬ intersects (CachedRegion.region c) r ∧
     RegionWithLeader.id (CachedRegion.region c) ≠ RegionWithLeader.id r).
Proof.
  intros I W Hc v c. destruct (add_region_shape ttl e r m I W Hc) as (l & -> & Hl).
  destruct (remove_all_spec l m I) as [I' E]. unfold insert_region. simpl.
  rewrite lookup_insert_Some, E. split.
  - intros [[<- <-]|[Hne [E1 E2]]]; [by left|]. right. rewrite (Hl v c E1) in E2.
    unfold conflicts in E2. tauto.
  - intros [[-> ->]|(E1 & Hni & Hid)]; [by left|]. right. split_and!; [|done|].
    + intros <-. destruct (inv_region _ I _ _ E1) as (Hv & Wc & _).
      apply Hni. pose proof (Hc c E1) as [= Hs He]. exists (RegionWithLeader.start_key r).
      split; [rewrite <- Hs|]; by apply contains_start.
    + rewrite (Hl v c E1). unfold conflicts. tauto.
Qed.

(** Four regions; the one added next overlaps two of them, has the id of a third, and
    leaves the fourth alone. *)
Definition crowded_cache : RegionCacheMap :=
  foldl (λ m r, add_region sample_ttl (sample_env 100) r m) RegionCacheMap_new
    [sample_region 5 1 [] [2]; sample_region 1 1 [2] [5];
     sample_region 2 1 [5] [9]; sample_region 3 1 [9] []].
Definition crowding_region : RegionWithLeader.t := sample_region 3 2 [3] [6].

Lemma crowded_cache_inv : cache_inv crowded_cache.
Proof.
  unfold crowded_cache. cbn [foldl].
  repeat (apply add_region_inv; [|first [by left | by right]|intros c Hc; by vm_compute in Hc]).
  apply new_inv.
Qed.

Lemma add_region_refines_witness :
  let after := ver_id_to_region (add_region sample_ttl (sample_env 200) crowding_region crowded_cache) in
  (∀ id v c, (id, v) ∈ [(1, 1); (2, 1); (3, 1)] → after !! RegionVerId.mk id 1 v ≠ Some c) ∧
  after !! RegionVerId.mk 5 1 1 =
    Some (CachedRegion.mk (sample_region 5 1 [] [2]) (RegionCacheTtl.next_ttl sample_ttl 100 7)) ∧
  after !! RegionVerId.mk 3 1 2 =
    Some (CachedRegion.mk crowding_region (RegionCacheTtl.next_ttl sample_ttl 200 7)).
Proof.
  pose proof (add_region_refines sample_ttl (sample_env 200) crowding_region crowded_cache
    crowded_cache_inv (or_intror eq_refl) ltac:(intros c Hc; by vm_compute in Hc)) as H.
  cbv zeta. split_and!.
  - intros id v c Hin E. apply H in E as [[E _]|(E & Hni & Hid)].
    + by repeat (apply elem_of_cons in Hin as [[= -> ->]|Hin] || apply elem_of_nil in Hin).
    + repeat (apply elem_of_cons in Hin as [[= -> ->]|Hin] || by apply elem_of_nil in Hin);
        vm_compute in E; injection E as <-.
      * apply Hni. by exists [3].
      * apply Hni. by exists [5].
      * by apply Hid.
  - apply H. right. split_and!; [by vm_compute| |done].
    intros (k & H1 & H2). apply contains_spec in H1 as [_ H1], H2 as [H2 _]. simpl in H1, H2.
    destruct H1 as [?|H1]; [done|]. assert (key_lt [2] [3]) by done. key_order.
  - apply H. by left.
Defined.

(** A lookup by key is sound and complete: it returns a region exactly when a
    cached region that has not expired holds the key, and that region is the one it
    returns (disjointness makes it unique). *)
Theorem cache_lookup_correct ttl e key m : cache_inv m →
  ∀ r, (try_cached_by_key ttl e key m).2 = Some r ↔
    ∃ v c, ver_id_to_region m !! v = Some c ∧ CachedRegion.region c = r ∧
           RegionWithLeader.contains r key = true ∧ alive ttl e c.
Proof.
  intros I r. unfold try_cached_by_key, alive. split.
  - destruct (candidate key m) as [[s v]|]; [|done].
    destruct (ver_id_to_region m !! v) as [c|] eqn:E; [|done].
    destruct (RegionCacheTtl.check_and_refresh ttl e (CachedRegion.ttl_epoch_sec c)) as [al t] eqn:Et.
    simpl. destruct (al && _) eqn:Ea; [|done]. intros [= <-].
    apply andb_true_iff in Ea as [-> ?]. exists v, c. by rewrite Et.
  - intros (v & c & E & <- & Hc & Hal).
    rewrite (candidate_spec m key v c I E Hc), E.
    destruct (RegionCacheTtl.check_and_refresh ttl e (CachedRegion.ttl_epoch_sec c)) as [al t].
    simpl in *. by rewrite Hal, Hc.
Qed.

Lemma cache_lookup_correct_witness :
  (try_cached_by_key sample_ttl (sample_env 700) [7]
    (add_region sample_ttl (sample_env 100) (sample_region 2 1 [5] []) RegionCacheMap_new)).2
  = Some (sample_region 2 1 [5] []).
Proof.
  apply (cache_lookup_correct sample_ttl (sample_env 700) [7]).
  - apply add_region_inv; [apply new_inv | by left | by intros ?].
  - exists (RegionVerId.mk 2 1 1). eexists. split; [by vm_compute|]. by vm_compute.
Defined.

(** A region that the cache returns for a key holds the key. *)
Lemma try_cached_contains ttl e key m m' r :
  try_cached_by_key ttl e key m = (m', Some r) → RegionWithLeader.contains r key = true.
Proof.
  unfold try_cached_by_key. destruct (candidate key m) as [[s v]|]; [|done].
  destruct (ver_id_to_region m !! v) as [c|]; [|done].
  destruct (RegionCacheTtl.check_and_refresh _ _ _) as [al t].
  destruct (al && _) eqn:Ea; [|done]. intros [= _ <-]. by apply andb_true_iff in Ea as [_ ?].
Qed.

(** So does the region that [get_region_by_key] returns, if PD's answers do. *)
Lemma get_region_by_key_contains ttl e1 e2 e3 pd key m r :
  (∀ r, pd = Ok r → RegionWithLeader.contains r key = true) →
  (get_region_by_key ttl e1 e2 e3 pd key m).2 = Ok r → RegionWithLeader.contains r key = true.
Proof.
  intros Hpd. unfold get_region_by_key, read_through_region_by_key.
  destruct (try_cached_by_key ttl e1 key m) as [m1 [r1|]] eqn:E1; simpl.
  { intros [= <-]. by eapply try_cached_contains. }
  destruct (try_cached_by_key ttl e2 key m1) as [m2 [r2|]] eqn:E2; simpl.
  { intros [= <-]. by eapply try_cached_contains. }
  destruct pd; [|done]. intros [= <-]. by apply Hpd.
Qed.

(** The TTL check: with the TTL enabled it fails exactly on an expired entry, and
    an entry that passes is good for at least the time that remains or the base TTL. *)
Lemma check_and_refresh_spec c e cell :
  0 < RegionCacheTtl.base_sec c → contention e = [] →
  in_i64 (now e) → in_i64 (RegionCacheTtl.base_sec c) → 0 ≤ jitter e →
  (RegionCacheTtl.check_and_refresh c e cell).1 = (now e <=? cell) ∧
  (now e ≤ cell ≤ i64_max → cell ≤ (RegionCacheTtl.check_and_refresh c e cell).2).
Proof.
  intros Hb Hc Hn Hbb Hj. unfold RegionCacheTtl.check_and_refresh, RegionCacheTtl.is_enabled.
  rewrite (proj2 (Z.ltb_lt _ _)) by done. rewrite Hc. cbn [negb RegionCacheTtl.refresh_loop].
  unfold RegionCacheTtl.next_ttl, RegionCacheTtl.is_enabled.
  rewrite (proj2 (Z.ltb_lt 0 _)) by done. cbn [negb].
  generalize dependent (RegionCacheTtl.base_sec c). intros base Hb Hbb.
  set (j := if 0 <? RegionCacheTtl.jitter_sec c then jitter e else 0).
  assert (0 ≤ j) by (subst j; case_zb; lia). clearbody j.
  change (0 =? 0) with true. cbn iota.
  destruct (Z.ltb_spec cell (now e)), (Z.leb_spec (now e) cell); cbn [fst snd]; try lia;
    try (split; [done|lia]).
  destruct (Z.ltb_spec (sat_add_i64 (now e) base) cell); cbn [fst snd]; split; try done;
    intros [? ?]; by apply sat_add_i64_ge.
Qed.

(** ** Merging concurrent loads of one key

    [in_flight_region_by_key] restricted to one key.  A task joins the load that
    is in flight or becomes the loader; the loader removes the marker and then
    notifies.  A [Notify] is a number; [notify_waiters] wakes the tasks whose
    [notified()] future exists, and stores nothing for later ones. *)
Module SingleFlight.
Inductive pc :=
| Start                    (* about to look at the cache *)
| Joined (n : nat)         (* cloned the notify, lock released, future not yet created *)
| Waiting (n : nat)        (* [notify.notified().await] *)
| Loader (n : nat)         (* inserted the marker, fetching *)
| Cleared (n : nat)        (* removed the marker, about to notify *)
| Returned.

Record state := mkState { in_flight : option nat; fresh : nat; tasks : gmap nat pc }.

Definition init (ts : gset nat) : state := mkState None 0 (gset_to_gmap Start ts).

(** [notify_waiters] *)
Definition wake (n : nat) (p : pc) : pc :=
  match p with Waiting n' => if decide (n' = n) then Start else p | _ => p end.

Inductive step : state → state → Prop :=
| s_hit f n ts t : ts !! t = Some Start →
    step (mkState f n ts) (mkState f n (<[t := Returned]> ts))
| s_join f n ts t : ts !! t = Some Start →
    step (mkState (Some f) n ts) (mkState (Some f) n (<[t := Joined f]> ts))
| s_lead n ts t : ts !! t = Some Start →
    step (mkState None n ts) (mkState (Some n) (S n) (<[t := Loader n]> ts))
| s_wait f n ts t i : ts !! t = Some (Joined i) →
    step (mkState f n ts) (mkState f n (<[t := Waiting i]> ts))
| s_clear f n ts t i : ts !! t = Some (Loader i) →
    step (mkState f n ts) (mkState None n (<[t := Cleared i]> ts))
| s_notify f n ts t i : ts !! t = Some (Cleared i) →
    step (mkState f n ts) (mkState f n (wake i <$> <[t := Returned]> ts)).

(** A marker is in the map exactly while its loader runs, and there is one loader. *)
Definition inv (s : state) : Prop :=
  (∀ t i, tasks s !! t = Some (Loader i) → in_flight s = Some i) ∧
  (∀ t1 t2 i, tasks s !! t1 = Some (Loader i) → tasks s !! t2 = Some (Loader i) → t1 = t2) ∧
  (∀ t i, tasks s !! t = Some (Loader i) → (i < fresh s)%nat).

Lemma wake_loader n p i : wake n p = Loader i ↔ p = Loader i.
Proof. destruct p; simpl; try done. case_decide; naive_solver. Qed.

Lemma inv_step s s' : inv s → step s s' → inv s'.
Proof.
  intros (I1 & I2 & I3) H.
  destruct H as [f n ts t E|f n ts t E|n ts t E|f n ts t i E|f n ts t i E|f n ts t i E];
    unfold inv in *; simpl in *.
  1,2,4: split_and!; repeat intros ?;
    repeat match goal with H : _ !! _ = Some (Loader _) |- _ =>
      apply lookup_insert_Some in H as [[? ?]|[? ?]]; [done|] end; eauto.
  - assert (∀ t i, ts !! t = Some (Loader i) → False) as Hno by (intros ? ? ?%I1; done).
    split_and!.
    + intros t' i [[? [=]]|[_ ?%Hno]]%lookup_insert_Some; [by subst | done].
    + intros t1 t2 i [[? [=]]|[_ ?%Hno]]%lookup_insert_Some
        [[? [=]]|[_ ?%Hno]]%lookup_insert_Some; [by subst | done..].
    + intros t' i [[? [=]]|[_ ?%Hno]]%lookup_insert_Some; [lia | done].
  - assert (∀ t' i', <[t := Cleared i]> ts !! t' = Some (Loader i') → False) as Hno.
    { intros t' i' [[? ?]|[Hne E']]%lookup_insert_Some; [done|].
      assert (i' = i) as -> by (apply I1 in E; apply I1 in E'; congruence).
      by apply Hne, (I2 _ _ i). }
    split_and!; naive_solver.
  - assert (∀ t' i', (wake i <$> <[t := Returned]> ts) !! t' = Some (Loader i') →
      ts !! t' = Some (Loader i')) as Hk.
    { intros t' i'. rewrite lookup_fmap_Some. intros (p & Hp & Hl). apply wake_loader in Hp as ->.
      by apply lookup_insert_Some in Hl as [[? ?]|[_ ?]]. }
    split_and!; naive_solver.
Qed.

(** Loads of one key are merged: in every interleaving of any set of tasks at
    most one task fetches the region from PD at a time. *)
Theorem single_flight ts s t1 t2 i1 i2 : rtc step (init ts) s →
  tasks s !! t1 = Some (Loader i1) → tasks s !! t2 = Some (Loader i2) → t1 = t2.
Proof.
  intros H. assert (inv s) as (I1 & I2 & _).
  { revert s H. apply (rtc_ind_r inv).
    - unfold inv, init; simpl. split_and!; repeat intros ?;
        by repeat match goal with H : gset_to_gmap _ _ !! _ = _ |- _ =>
          apply lookup_gset_to_gmap_Some in H as [_ H] end.
    - intros. by eapply inv_step. }
  intros E1 E2. pose proof (I1 _ _ E1). pose proof (I1 _ _ E2). simplify_eq. by eapply I2.
Qed.

Lemma single_flight_witness : ∃ s, rtc step (init {[0%nat; 1%nat]}) s ∧
  tasks s !! 0%nat = Some (Loader 0) ∧ 0%nat = 0%nat.
Proof.
  set (s := mkState (Some 0%nat) 1 (<[0%nat := Loader 0]> (gset_to_gmap Start {[0%nat; 1%nat]}))).
  exists s. assert (rtc step (init {[0%nat; 1%nat]}) s) as H.
  { eapply rtc_l; [apply (s_lead _ _ 0%nat); by vm_compute|]. apply rtc_refl. }
  split; [exact H|]. split; [by vm_compute|].
  by apply (single_flight _ _ 0%nat 0%nat 0%nat 0%nat H); vm_compute.
Defined.

(** A waiter whose notify has no loader left to fire it. *)
Definition orphan (t i : nat) (s : state) : Prop :=
  tasks s !! t = Some (Waiting i) ∧ (i < fresh s)%nat ∧ in_flight s ≠ Some i ∧
  (∀ t', tasks s !! t' ≠ Some (Loader i) ∧ tasks s !! t' ≠ Some (Cleared i)).

Lemma orphan_step t i s s' : orphan t i s → step s s' → orphan t i s'.
Proof.
  intros (Ht & Hi & Hf & Hno) H.
  destruct H as [f n ts u E|f n ts u E|n ts u E|f n ts u j E|f n ts u j E|f n ts u j E];
    unfold orphan in *; simpl in *.
  1-5: assert (u ≠ t) by congruence;
    (split_and!; [by rewrite lookup_insert_ne | lia | try done; try congruence |]).
  all: try (intros t'; split; intros [[? ?]|[? ?]]%lookup_insert_Some; simplify_eq; try lia; naive_solver).
  - intros [= ->]. lia.
  - assert (u ≠ t) by congruence. assert (j ≠ i) by (intros ->; naive_solver).
    split_and!; [|lia|done|].
    + rewrite lookup_fmap, lookup_insert_ne, Ht by done. simpl. by rewrite decide_False.
    + intros t'; rewrite lookup_fmap; destruct (decide (u = t')) as [<-|];
        [by rewrite lookup_insert_eq|]; rewrite lookup_insert_ne by done;
        destruct (ts !! t') as [p|] eqn:Ep; [|done]; simpl;
        destruct p; simpl; try case_decide; try done; pose proof (Hno t'); naive_solver.
Qed.

(** The wake-up of a joining task can be lost: it clones the notify and releases the
    lock, the loader removes the marker and notifies, and only then does the task
    create its [notified()] future.  From that state on it waits forever, in every
    continuation. *)
Theorem lost_wakeup : ∃ s, rtc step (init {[0%nat; 1%nat]}) s ∧
  ∀ s', rtc step s s' → tasks s' !! 1%nat = Some (Waiting 0).
Proof.
  exists (mkState None 1 {[0%nat := Returned; 1%nat := Waiting 0]}). split.
  - eapply rtc_l; [apply (s_lead _ _ 0%nat); by vm_compute|].
    eapply rtc_l; [apply (s_join _ _ _ 1%nat); by vm_compute|].
    eapply rtc_l; [apply (s_clear _ _ _ 0%nat 0%nat); by vm_compute|].
    eapply rtc_l; [apply (s_notify _ _ _ 0%nat 0%nat); by vm_compute|].
    eapply rtc_l; [apply (s_wait _ _ _ 1%nat 0%nat); by vm_compute|].
    match goal with |- rtc _ ?a ?b => replace a with b; [apply rtc_refl | by vm_compute] end.
  - intros s' H.
    assert (orphan 1 0 s') as [? _]; [|done].
    revert s' H. apply (rtc_ind_r (orphan 1 0)).
    + unfold orphan; simpl. split_and!; [by vm_compute | lia | done |].
      intros t'. split; intros [[_ ?]|[_ [_ ?]%lookup_singleton_Some]]%lookup_insert_Some; done.
    + intros. by eapply orphan_step.
Qed.
End SingleFlight.
