(* ===== verification/Sharding.v ===== *)
(** * Sharding requests over regions (src/src/pd/client.rs, src/src/request/shard.rs,
      src/src/store/mod.rs, src/src/compat.rs)

    A request on keys, mutations or ranges is cut into one shard per region.  The
    code drives the cuts by asking [region_for_key] again and again while the
    region layout may change, so the lookup is a parameter indexed by the number of
    the call; the class [RegionLookup] states the one thing the code relies on, that
    a region returned for a key holds the key, and the last section shows that
    the lookup through the region cache and the memcomparable codec provides it.
    The theorems: sharding loses no key and no part of a range, sends nothing to a region
    that does not hold it, and ends. *)

From Stdlib Require Import Sorting.Sorted Sorting.Permutation.
From S2P Require Import Prelude Keys Proto Errors Codec Ranges BTree Regions.

(** [PdClient::region_for_key], at the [t]-th call. *)
Abbreviation Lookup := (nat → list Z → Result RegionWithLeader.t) (only parsing).

(** What the sharding code relies on. *)
Class RegionLookup (pd : nat → list Z → Result RegionWithLeader.t) : Prop := {
  lookup_contains : ∀ t k r, wf_key k → pd t k = Ok r → RegionWithLeader.contains r k = true;
  lookup_wf : ∀ t k r, wf_key k → pd t k = Ok r → wf_key (RegionWithLeader.end_key r)
}.

(** ** Streams

    [stream_fn]: the items of a fallible stream up to its end; an error is
    emitted once and ends the stream.  [None]: not ended within [fuel] items. *)
Section stream.
Context {S T : Type} (func : nat → S → Result (option (S * T))).

Fixpoint stream_fn (fuel : nat) (t : nat) (state : S) : option (list (Result T)) :=
  match fuel with
  | O => None
  | Datatypes.S fuel' =>
      match func t state with
      | Ok (Some (next_state, item)) =>
          rest ← stream_fn fuel' (Datatypes.S t) next_state; Some (Ok item :: rest)
      | Ok None => Some []
      | Err err => Some [Err err]
      end
  end.
End stream.

(** The items of a stream that ends without an error. *)
Definition all_ok {T} (items : list (Result T)) : option (list T) := mapM ok items.

(** The stream ends within the fuel and has no error. *)
Definition completes {T} (s : option (list (Result T))) (items : list T) : Prop :=
  s = Some (map Ok items).

Section sharding.
Context (pd : nat → list Z → Result RegionWithLeader.t).

(** ** [group_keys_by_region] *)

(** The inner loop: the keys from the front that the region holds. *)
Fixpoint take_region {K} (key_of : K → Key) (region : RegionWithLeader.t)
    (keys : list K) (grouped : list K) : list K * list K :=
  match keys with
  | [] => (grouped, [])
  | k :: keys' =>
      if negb (RegionWithLeader.contains region (key_of k)) then (grouped, keys)
      else take_region key_of region keys' (grouped ++ [k])
  end.

Definition group_keys_step {K} (key_of : K → Key) (t : nat) (keys : list K) :
    Result (option (list K * (list K * RegionWithLeader.t))) :=
  match keys with
  | [] => Ok None
  | key :: keys =>
      region ← pd t (key_of key);
      let '(grouped, keys) := take_region key_of region keys [key] in
      Ok (Some (keys, (grouped, region)))
  end.

Definition group_keys_by_region {K} (key_of : K → Key) (fuel : nat) (keys : list K) :=
  stream_fn (group_keys_step key_of) fuel 0 keys.

(** ** [regions_for_range] and [region_stream_for_range] *)

Definition regions_for_range_step (end_key : option Key) (t : nat) (start_key : option Key) :
    Result (option (option Key * RegionWithLeader.t)) :=
  match start_key with
  | None => Ok None
  | Some start_key =>
      region ← pd t start_key;
      let region_end := RegionWithLeader.end_key region in
      if match end_key with
         | Some x => key_leb x region_end && negb (is_empty x)
         | None => false
         end || is_empty region_end
      then Ok (Some (None, region))
      else Ok (Some (Some region_end, region))
  end.

Definition regions_for_range (fuel : nat) (range : BoundRange.t) :=
  let '(start_key, end_key) := BoundRange.into_keys range in
  stream_fn (regions_for_range_step end_key) fuel 0 (Some start_key).

(** [TryStreamExt::map_ok] *)
Definition map_ok {A B} (f : A → B) (items : list (Result A)) : list (Result B) :=
  map (λ r, match r with Ok a => Ok (f a) | Err e => Err e end) items.

Definition region_stream_for_range (fuel : nat) (range : Key * Key) :
    option (list (Result ((Key * Key) * RegionWithLeader.t))) :=
  map_ok (λ region, (range_intersection (RegionWithLeader.range region) range, region))
    <$> regions_for_range fuel (stream_bound_range range).

(** ** [group_ranges_by_region]

    [ranges] is the code's reversed vector with its back at the head of the list,
    so [pop] and [push] work on the head.  A range is [(start_key, end_key)]. *)

Definition splits (region_end end_key : Key) : bool :=
  negb (is_empty region_end) && (key_ltb region_end end_key || is_empty end_key).

Fixpoint group_ranges_loop (region_start region_end : Key)
    (ranges grouped : list (list Z * list Z)) : list (list Z * list Z) * list (list Z * list Z) :=
  match ranges with
  | [] => (grouped, [])
  | (start_key, end_key) :: ranges' =>
      if key_ltb start_key region_start || key_ltb region_end start_key then (grouped, ranges)
      else if splits region_end end_key then
        (grouped ++ [(start_key, region_end)], (region_end, end_key) :: ranges')
      else group_ranges_loop region_start region_end ranges' (grouped ++ [(start_key, end_key)])
  end.

Definition group_ranges_step (t : nat) (ranges : list (list Z * list Z)) :
    Result (option (list (list Z * list Z) * (list (list Z * list Z) * RegionWithLeader.t))) :=
  match ranges with
  | [] => Ok None
  | (start_key, end_key) :: ranges =>
      region ← pd t start_key;
      let region_start := RegionWithLeader.start_key region in
      let region_end := RegionWithLeader.end_key region in
      if splits region_end end_key then
        Ok (Some ((region_end, end_key) :: ranges, ([(start_key, region_end)], region)))
      else
        let '(grouped, ranges) :=
          group_ranges_loop region_start region_end ranges [(start_key, end_key)] in
        Ok (Some (ranges, (grouped, region)))
  end.

Definition group_ranges_by_region (fuel : nat) (ranges : list (list Z * list Z)) :=
  stream_fn group_ranges_step fuel 0 ranges.

(** ** [Batchable::batches] *)

Section batches.
Context {Item : Type} (item_size : Item → Z).

Fixpoint batches_loop (batch_size : Z) (items : list Item)
    (batches : list (list Item)) (batch : list Item) (size : Z) : list (list Item) :=
  match items with
  | [] => if negb (is_empty batch) then batches ++ [batch] else batches
  | item :: items' =>
      let sz := item_size item in
      if (batch_size <=? size + sz) && negb (is_empty batch)
      then batches_loop batch_size items' (batches ++ [batch]) [item] sz
      else batches_loop batch_size items' batches (batch ++ [item]) (size + sz)
  end.

Definition batches (items : list Item) (batch_size : Z) : list (list Item) :=
  batches_loop batch_size items [] [] 0.
End batches.

(** ** Shards of the batched requests

    [slice::sort_by] on the key (a stable sort). *)
Fixpoint sort_insert {K} (key_of : K → Key) (x : K) (l : list K) : list K :=
  match l with
  | [] => [x]
  | y :: l' => if key_leb (key_of x) (key_of y) then x :: l else y :: sort_insert key_of x l'
  end.
Fixpoint sort_by_key {K} (key_of : K → Key) (l : list K) : list K :=
  match l with [] => [] | x :: l' => sort_insert key_of x (sort_by_key key_of l') end.

(** The [shards] body that prewrite, flush, commit, raw batch put and raw batch
    delete share.  The error arm is [stream::iter(Err(e))]: a [Result] iterates over
    its [Ok] value, so this is the empty stream. *)
Definition flat_map_batches {K} (size_of : K → Z) (batch_size : Z)
    (r : Result (list K * RegionWithLeader.t)) : list (Result (list K * RegionWithLeader.t)) :=
  match r with
  | Ok (keys, region) => map (λ batch, Ok (batch, region)) (batches size_of keys batch_size)
  | Err e => []
  end.

Definition batched_shards {K} (key_of : K → Key) (size_of : K → Z) (batch_size : Z)
    (fuel : nat) (items : list K) : option (list (Result (list K * RegionWithLeader.t))) :=
  (λ rs, concat (map (flat_map_batches size_of batch_size) rs))
    <$> group_keys_by_region key_of fuel (sort_by_key key_of items).

(** [shards] of [shardable_keys!] requests. *)
Definition keys_shards (fuel : nat) (keys : list (list Z)) :=
  group_keys_by_region id fuel (sort_by_key id keys).

(** [shards] and [apply_shard] of [shardable_range!] requests. *)
Record RangeReq := mkRangeReq { rr_start_key : Key; rr_end_key : Key; rr_reverse : bool }.

Definition range_shards (fuel : nat) (req : RangeReq) :=
  let range := if rr_reverse req then (rr_end_key req, rr_start_key req)
               else (rr_start_key req, rr_end_key req) in
  region_stream_for_range fuel range.

Definition range_apply_shard (shard : Key * Key) (req : RangeReq) : RangeReq :=
  if rr_reverse req then mkRangeReq shard.2 shard.1 (rr_reverse req)
  else mkRangeReq shard.1 shard.2 (rr_reverse req).
End sharding.

(** [TXN_COMMIT_BATCH_SIZE] and the mutation size of [PrewriteRequest] and
    [FlushRequest] (src/src/transaction/requests.rs). *)
Definition TXN_COMMIT_BATCH_SIZE : Z := 16 * 1024.
Definition mutation_size (m : PbMutation.t) : Z :=
  Z.of_nat (length (PbMutation.key m)) + Z.of_nat (length (PbMutation.value m)).
Definition key_size (k : Key) : Z := Z.of_nat (length k).

(** ** Grouping keys *)

Lemma take_region_spec {K} (key_of : K → Key) r keys g :
  ∃ a b, take_region key_of r keys g = (g ++ a, b) ∧ keys = a ++ b ∧
    Forall (λ k, RegionWithLeader.contains r (key_of k) = true) a.
Proof.
  revert g. induction keys as [|k keys IH]; intros g; simpl.
  - exists [], []. by rewrite app_nil_r.
  - destruct (RegionWithLeader.contains r (key_of k)) eqn:E; simpl.
    + destruct (IH (g ++ [k])) as (a & b & -> & -> & H). exists (k :: a), b.
      rewrite <- app_assoc. split_and!; [done..|]. by constructor.
    + exists [], (k :: keys). by rewrite app_nil_r.
Qed.

(** The groups of a list of keys: each holds keys of its region only, and they
    are the keys in order, up to the first lookup that fails. *)
Definition grouped_prefix {K} (key_of : K → Key) (keys : list K)
    (groups : list (list K * RegionWithLeader.t)) (tail : list (Result (list K * RegionWithLeader.t))) : Prop :=
  Forall (λ g, g.1 ≠ [] ∧
    Forall (λ k, RegionWithLeader.contains g.2 (key_of k) = true) g.1) groups ∧
  ∃ rest, concat (map fst groups) ++ rest = keys ∧
    ((tail = [] ∧ rest = []) ∨ ∃ e, tail = [Err e] ∧ rest ≠ []).

Lemma group_keys_stream pd {K} (key_of : K → Key) (Hpd : RegionLookup pd) fuel t keys :
  Forall (λ k, wf_key (key_of k)) keys → (length keys < fuel)%nat →
  ∃ groups tail, stream_fn (group_keys_step pd key_of) fuel t keys = Some (map Ok groups ++ tail) ∧
    grouped_prefix key_of keys groups tail.
Proof.
  revert t keys. induction fuel as [|fuel IH]; intros t keys Hwf Hf; [lia|].
  destruct keys as [|k keys]; simpl.
  { exists [], []. split; [done|]. split; [constructor|]. exists []. naive_solver. }
  apply Forall_cons in Hwf as [Hk Hwf].
  destruct (pd t (key_of k)) as [r|e] eqn:E; simpl.
  - destruct (take_region_spec key_of r keys [k]) as (a & b & -> & -> & Ha). simpl.
    destruct (IH (S t) b) as (groups & tail & -> & HF & rest & Hc & Ht).
    { by apply Forall_app in Hwf as [_ ?]. }
    { simpl in Hf. rewrite length_app in Hf. lia. }
    exists ((k :: a, r) :: groups), tail. split; [done|]. split.
    + constructor; [|done]. split; [done|]. constructor; [by eapply lookup_contains | done].
    + exists rest. simpl. rewrite <- app_assoc, Hc. done.
  - exists [], [Err e]. split; [done|]. split; [constructor|]. exists (k :: keys). naive_solver.
Qed.

(** ** Regions of a range *)

(** [b] is a bound on the region ends that lookups can return. *)
Definition layout_bounded (pd : nat → list Z → Result RegionWithLeader.t) (B : list Key) : Prop :=
  ∀ t k r, pd t k = Ok r → RegionWithLeader.end_key r = [] ∨ RegionWithLeader.end_key r ∈ B.

(** The layout does not change: two regions ever returned are equal or disjoint. *)
Definition layout_stable (pd : nat → list Z → Result RegionWithLeader.t) : Prop :=
  ∀ t1 k1 r1 t2 k2 r2, pd t1 k1 = Ok r1 → pd t2 k2 = Ok r2 → intersects r1 r2 → r1 = r2.

(** The number of boundaries after a key: it shrinks when a scan moves on. *)
Definition ends_after (B : list Key) (k : Key) : nat := length (List.filter (key_ltb k) B).

Lemma ends_after_lt B k e : key_lt k e → e ∈ B → (ends_after B e < ends_after B k)%nat.
Proof.
  intros Hlt. unfold ends_after. induction B as [|b B IH]; intros Hin; [by apply elem_of_nil in Hin|].
  assert (∀ B', length (List.filter (key_ltb e) B') ≤ length (List.filter (key_ltb k) B'))%nat as Hle.
  { clear B IH Hin. intros B. induction B as [|b' B IH]; simpl; [lia|].
    destruct (key_ltb_spec e b'), (key_ltb_spec k b'); simpl; try lia. exfalso. key_order. }
  simpl. apply elem_of_cons in Hin as [<-|Hin].
  - destruct (key_ltb_spec e e) as [?|_]; [by destruct (KeyOrder.lt_irrefl e)|].
    destruct (key_ltb_spec k e); [|done]. simpl. specialize (Hle B). lia.
  - specialize (IH Hin). destruct (key_ltb_spec e b), (key_ltb_spec k b); simpl; try lia.
    exfalso. key_order.
Qed.

Lemma contains_end_gt r k : RegionWithLeader.contains r k = true →
  RegionWithLeader.end_key r = [] ∨ key_lt k (RegionWithLeader.end_key r).
Proof. rewrite contains_spec. intros [_ ?]. done. Qed.

Definition range_end_ok (end_key : option Key) (k : Key) : Prop :=
  match end_key with Some (x :: e) => key_lt k (x :: e) | _ => True end.

Lemma regions_stream pd (Hpd : RegionLookup pd) B end_key : layout_bounded pd B →
  ∀ fuel t start, wf_key start → (S (ends_after B start) < fuel)%nat →
  ∃ regions tail,
    stream_fn (regions_for_range_step pd end_key) fuel t (Some start) = Some (map Ok regions ++ tail) ∧
    Forall (λ r, ∃ t k, pd t k = Ok r) regions ∧
    ((∃ e, tail = [Err e]) ∨
     (tail = [] ∧ ∀ k, key_le start k → range_end_ok end_key k →
        ∃ r, r ∈ regions ∧ RegionWithLeader.contains r k = true)).
Proof.
  intros HB. induction fuel as [|fuel IH]; intros t start Hwf Hf; [lia|]. simpl.
  destruct (pd t start) as [r|e] eqn:E; simpl.
  2: { exists [], [Err e]. split; [done|]. split; [constructor|]. left. by exists e. }
  pose proof (lookup_contains t start r Hwf E) as Hc. pose proof (contains_end_gt r start Hc) as Hend.
  apply contains_spec in Hc as [Hle _]. simpl in Hle.
  assert (∀ k, key_le start k → RegionWithLeader.end_key r = [] ∨ key_lt k (RegionWithLeader.end_key r) →
    RegionWithLeader.contains r k = true) as Hin.
  { intros k ? ?. apply contains_spec. split; [simpl; key_order | done]. }
  match goal with |- context [if ?b then _ else _] => destruct b eqn:Est end.
  - destruct fuel as [|fuel]; [lia|]. simpl. exists [r], []. split; [done|].
    split; [repeat constructor; eauto|]. right. split; [done|].
    intros k Hk Hke. exists r. split; [by apply elem_of_cons; left|]. apply Hin; [done|].
    apply orb_true_iff in Est as [Est|Est].
    + destruct end_key as [[|x e]|]; simpl in *; [by rewrite andb_false_r in Est| |done].
      rewrite andb_true_r in Est. apply bool_decide_eq_true in Est. right. key_order.
    + left. by destruct (is_empty_spec (RegionWithLeader.end_key r)).
  - apply orb_false_iff in Est as [_ Hne].
    destruct (is_empty_spec (RegionWithLeader.end_key r)) as [|Hne']; [done|].
    destruct Hend as [?|Hlt]; [done|]. destruct (HB _ _ _ E) as [?|HinB]; [done|].
    pose proof (ends_after_lt B _ _ Hlt HinB).
    destruct (IH (S t) (RegionWithLeader.end_key r)) as (rs & tail & -> & HF & Htail);
      [by eapply lookup_wf | lia |].
    exists (r :: rs), tail. split; [done|]. split; [constructor; eauto|].
    destruct Htail as [?|[-> Hcov]]; [by left|]. right. split; [done|].
    intros k Hk Hke. destruct (decide (key_lt k (RegionWithLeader.end_key r))) as [|Hge].
    + exists r. split; [by apply elem_of_cons; left|]. apply Hin; [done | by right].
    + apply key_not_lt in Hge. destruct (Hcov k Hge Hke) as (r' & ? & ?).
      exists r'. split; [by apply elem_of_cons; right | done].
Qed.

(** With a stable layout the regions come in order, without overlap. *)
Definition before (a b : RegionWithLeader.t) : Prop :=
  RegionWithLeader.end_key a ≠ [] ∧ key_le (RegionWithLeader.end_key a) (RegionWithLeader.start_key b).

Lemma next_region_after pd (Hpd : RegionLookup pd) : layout_stable pd →
  ∀ t1 k1 r1 t2 r2, wf_key k1 → pd t1 k1 = Ok r1 → RegionWithLeader.end_key r1 ≠ [] →
  pd t2 (RegionWithLeader.end_key r1) = Ok r2 → before r1 r2.
Proof.
  intros Hst t1 k1 r1 t2 r2 Hwf E1 Hne E2. split; [done|].
  pose proof (lookup_contains _ _ _ Hwf E1) as C1.
  pose proof (lookup_contains _ _ _ (lookup_wf _ _ _ Hwf E1) E2) as C2.
  apply contains_spec in C1 as [A1 [?|A2]]; [done|]. apply contains_spec in C2 as [A3 A4]. simpl in *.
  destruct (decide (key_le (RegionWithLeader.end_key r1) (RegionWithLeader.start_key r2))) as [|Hlt]; [done|].
  apply key_not_le in Hlt. exfalso.
  assert (intersects r1 r2) as X.
  { apply intersects_iff; unfold range_wf.
    - right. key_order.
    - destruct A4; [by left | right; key_order].
    - split; [by right|]. destruct A4; [by left | right; key_order]. }
  apply (Hst _ _ _ _ _ _ E1 E2) in X as ->.
  destruct A4 as [?|A4]; [done|]. by apply KeyOrder.lt_irrefl in A4.
Qed.

Lemma regions_stream_sorted pd (Hpd : RegionLookup pd) end_key : layout_stable pd →
  ∀ fuel t start regions tail, wf_key start →
    stream_fn (regions_for_range_step pd end_key) fuel t (Some start) = Some (map Ok regions ++ tail) →
    StronglySorted before regions ∧
    ∀ t0 k0 r0, wf_key k0 → pd t0 k0 = Ok r0 → RegionWithLeader.end_key r0 = start → start ≠ [] →
      Forall (before r0) regions.
Proof.
  intros Hst. induction fuel as [|fuel IH]; intros t start regions tail Hwf; [done|]. simpl.
  destruct (pd t start) as [r|e] eqn:E; simpl.
  2: { destruct regions; [|done]. intros _. split; [constructor | by constructor]. }
  assert (∀ t0 k0 r0, wf_key k0 → pd t0 k0 = Ok r0 → RegionWithLeader.end_key r0 = start → start ≠ [] →
    before r0 r) as Hhd.
  { intros t0 k0 r0 Hk0 E0 <- Hne. by eapply next_region_after. }
  match goal with |- context [if ?b then _ else _] => destruct b eqn:Est end.
  - destruct fuel as [|fuel]; [done|]. simpl.
    destruct regions as [|r1 rs]; simpl; [intros _; split; [constructor | by constructor]|].
    intros [= <- H]. symmetry in H. apply app_eq_nil in H as [H _]. apply map_eq_nil in H as ->.
    split; [repeat constructor|]. intros. constructor; [by eauto | constructor].
  - destruct (stream_fn _ _ _ _) as [items|] eqn:Es; [|done]. simpl.
    apply orb_false_iff in Est as [_ Hne].
    destruct (is_empty_spec (RegionWithLeader.end_key r)) as [|Hne']; [done|].
    destruct regions as [|r1 rs]; simpl; intros [= H1].
    { split; [constructor | by constructor]. }
    subst. destruct (IH _ _ rs tail (lookup_wf _ _ _ Hwf E) Es) as [HS Hall].
    specialize (Hall _ _ _ Hwf E eq_refl Hne').
    split; [by constructor|]. intros t0 k0 r0 Hk0 E0 Hs Hn. pose proof (Hhd _ _ _ Hk0 E0 Hs Hn) as [B1 B2].
    constructor; [done|]. eapply Forall_impl; [exact Hall|]. intros x [_ B3].
    split; [done|]. apply lookup_contains in E; [|done]. apply contains_spec in E as [A1 [?|A2]]; [done|].
    simpl in *. subst start. key_order.
Qed.

Lemma StronglySorted_lookup {A} (R : A → A → Prop) l i j x y : StronglySorted R l →
  l !! i = Some x → l !! j = Some y → (i < j)%nat → R x y.
Proof.
  intros HS. revert i j. induction HS as [|z l HS IH HF]; intros i j Hi Hj Hij; [done|].
  destruct i as [|i], j as [|j]; simpl in *; try lia.
  - simplify_eq. rewrite Forall_forall in HF. by eapply HF, list_elem_of_lookup_2.
  - apply (IH i j); [done..|lia].
Qed.

Lemma shards_disjoint rs range i j ri rj k : StronglySorted before rs →
  rs !! i = Some ri → rs !! j = Some rj →
  in_key_range (range_intersection (RegionWithLeader.range ri) range) k →
  in_key_range (range_intersection (RegionWithLeader.range rj) range) k → i = j.
Proof.
  intros HS Hi Hj [Ki _]%range_intersection_iff [Kj _]%range_intersection_iff.
  destruct (Nat.lt_trichotomy i j) as [Hij|[?|Hij]]; [|done|]; exfalso.
  - destruct (StronglySorted_lookup before rs i j ri rj) as [B1 B2]; [done..|].
    destruct Ki as [_ [?|?]], Kj as [? _]; simpl in *; [done|]. key_order.
  - destruct (StronglySorted_lookup before rs j i rj ri) as [B1 B2]; [done..|].
    destruct Kj as [_ [?|?]], Ki as [? _]; simpl in *; [done|]. key_order.
Qed.

(** ** Grouping ranges *)

Definition in_ranges (rs : list (list Z * list Z)) (k : Key) : Prop :=
  ∃ r, r ∈ rs ∧ in_key_range r k.

Lemma in_ranges_cons r rs k : in_ranges (r :: rs) k ↔ in_key_range r k ∨ in_ranges rs k.
Proof. unfold in_ranges. setoid_rewrite elem_of_cons. naive_solver. Qed.
Lemma in_ranges_app rs rs' k : in_ranges (rs ++ rs') k ↔ in_ranges rs k ∨ in_ranges rs' k.
Proof. unfold in_ranges. setoid_rewrite elem_of_app. naive_solver. Qed.
Lemma in_ranges_nil k : ¬ in_ranges [] k.
Proof. intros (r & ?%elem_of_nil & _). done. Qed.

(** The split of a range at the end of the region. *)
Lemma splits_spec region_end s e k :
  splits region_end e = true → key_le s region_end →
  in_key_range (s, e) k ↔ in_key_range (s, region_end) k ∨ in_key_range (region_end, e) k.
Proof.
  unfold splits, in_key_range. simpl. rewrite andb_true_iff, orb_true_iff, negb_true_iff.
  destruct (is_empty_spec region_end) as [|Hne]; [naive_solver|].
  unfold key_ltb. rewrite bool_decide_eq_true. intros [_ H] Hs.
  assert (e = [] ∨ key_lt region_end e) as H'.
  { destruct H; [by right | left; by destruct (is_empty_spec e)]. }
  clear H. destruct (decide (key_lt k region_end)) as [Hk|Hk].
  - split; [intros [? ?]; left; tauto|].
    intros [[? _]|[? _]]; [|exfalso; key_order]. split; [done|].
    destruct H'; [by left | right; key_order].
  - apply key_not_lt in Hk. split; [intros [? ?]; right; tauto|].
    intros [[? [?|?]]|[? ?]]; [done | exfalso; key_order | split; [key_order | done]].
Qed.

Lemma unsplit_inside region_end e k : splits region_end e = false →
  e = [] ∨ key_lt k e → region_end = [] ∨ key_lt k region_end.
Proof.
  unfold splits. destruct (is_empty_spec region_end) as [|Hne]; [by left|]. simpl.
  intros [H1 H2]%orb_false_iff. apply bool_decide_eq_false, key_not_lt in H1.
  destruct (is_empty_spec e) as [|He]; [done|]. intros [?|?]; [done|]. right. key_order.
Qed.

(** The weight of a list of ranges for termination. *)
Definition ranges_weight (B : list Key) (rs : list (list Z * list Z)) : nat :=
  sum_list (map (λ r, S (ends_after B r.1)) rs).

Lemma group_ranges_loop_spec B r ranges grouped :
  range_wf r →
  ∃ g rest, group_ranges_loop (RegionWithLeader.start_key r) (RegionWithLeader.end_key r) ranges grouped
      = (grouped ++ g, rest) ∧
    (∀ k, in_ranges ranges k ↔ in_ranges g k ∨ in_ranges rest k) ∧
    (∀ k, in_ranges g k → RegionWithLeader.contains r k = true) ∧
    (ranges_weight B rest ≤ ranges_weight B ranges)%nat ∧
    (wf_key (RegionWithLeader.end_key r) → Forall (λ x : list Z * list Z, wf_key x.1) ranges →
     Forall (λ x : list Z * list Z, wf_key x.1) rest).
Proof.
  intros W. revert grouped. induction ranges as [|[s e] ranges IH]; intros grouped; simpl.
  { exists [], []. rewrite app_nil_r. split_and!; [done| |by intros k ?%in_ranges_nil|done|done].
    intros k. pose proof (in_ranges_nil k). tauto. }
  destruct (key_ltb_spec s (RegionWithLeader.start_key r)) as [L1|L1]; simpl.
  { exists [], ((s, e) :: ranges). rewrite app_nil_r. split_and!;
      [done | intros k; pose proof (in_ranges_nil k); tauto | by intros k ?%in_ranges_nil | done | done]. }
  destruct (key_ltb_spec (RegionWithLeader.end_key r) s) as [L2|L2]; simpl.
  { exists [], ((s, e) :: ranges). rewrite app_nil_r. split_and!;
      [done | intros k; pose proof (in_ranges_nil k); tauto | by intros k ?%in_ranges_nil | done | done]. }
  apply key_not_lt in L1. apply key_not_lt in L2.
  destruct (splits (RegionWithLeader.end_key r) e) eqn:Sp.
  - exists [(s, RegionWithLeader.end_key r)], ((RegionWithLeader.end_key r, e) :: ranges).
    split_and!; [done| | | | by intros ? [_ ?]%Forall_cons; constructor].
    + intros k. rewrite !in_ranges_cons. pose proof (in_ranges_nil k).
      rewrite (splits_spec _ s e k Sp L2). tauto.
    + intros k. rewrite in_ranges_cons. intros [[H1 H2]|?%in_ranges_nil]; [|done].
      apply contains_spec. split; simpl in *; [key_order | done].
    + unfold ranges_weight. simpl.
      assert (ends_after B (RegionWithLeader.end_key r) ≤ ends_after B s)%nat; [|lia].
      unfold ends_after. clear IH Sp. induction B as [|b B IH]; simpl; [lia|].
      destruct (key_ltb_spec (RegionWithLeader.end_key r) b), (key_ltb_spec s b); simpl; try lia.
      exfalso. key_order.
  - destruct (IH (grouped ++ [(s, e)])) as (g & rest & -> & Hin & Hc & Hw & Hwf').
    exists ((s, e) :: g), rest. rewrite <- app_assoc.
    split_and!; [done| | | | intros ? [_ ?]%Forall_cons; by apply Hwf'].
    + intros k. rewrite !in_ranges_cons, Hin. tauto.
    + intros k. rewrite in_ranges_cons. intros [[H1 H2]|?]; [|auto]. simpl in *.
      apply contains_spec. split; simpl; [key_order|]. by eapply unsplit_inside.
    + unfold ranges_weight in *. simpl. lia.
Qed.

(** What the groups of a list of ranges cover. *)
Definition in_groups (gs : list (list (list Z * list Z) * RegionWithLeader.t)) (k : Key) : Prop :=
  ∃ g, g ∈ gs ∧ in_ranges g.1 k.

Lemma group_ranges_stream pd (Hpd : RegionLookup pd) B : layout_bounded pd B →
  ∀ fuel t ranges, Forall (λ r : list Z * list Z, wf_key r.1) ranges →
  (ranges_weight B ranges < fuel)%nat →
  ∃ groups tail,
    stream_fn (group_ranges_step pd) fuel t ranges = Some (map Ok groups ++ tail) ∧
    (∀ g k, g ∈ groups → in_ranges g.1 k → RegionWithLeader.contains g.2 k = true) ∧
    ((∃ e, tail = [Err e]) ∨ (tail = [] ∧ ∀ k, in_ranges ranges k ↔ in_groups groups k)).
Proof.
  intros HB. induction fuel as [|fuel IH]; intros t ranges Hwf Hf; [lia|].
  assert (∀ (g : list (list Z * list Z) * RegionWithLeader.t) gs k,
    in_groups (g :: gs) k ↔ in_ranges g.1 k ∨ in_groups gs k) as Hcons.
  { intros. unfold in_groups. setoid_rewrite elem_of_cons. naive_solver. }
  destruct ranges as [|[s e] ranges]; simpl.
  { exists [], []. split_and!; [done | by intros ? ? ?%elem_of_nil |]. right. split; [done|].
    intros k. split; [by intros ?%in_ranges_nil | by intros (? & ?%elem_of_nil & _)]. }
  apply Forall_cons in Hwf as [Hs0 Hwf]. simpl in Hs0.
  destruct (pd t s) as [r|err] eqn:E; simpl.
  2: { exists [], [Err err]. split_and!; [done | by intros ? ? ?%elem_of_nil |]. left. by exists err. }
  pose proof (lookup_contains t s r Hs0 E) as Hc. pose proof (lookup_wf t s r Hs0 E) as Hew. apply contains_spec in Hc as [Hs He]. simpl in *.
  assert (range_wf r) as W by (destruct He; [by left | right; key_order]).
  unfold ranges_weight in Hf. simpl in Hf.
  destruct (splits (RegionWithLeader.end_key r) e) eqn:Sp.
  - assert (RegionWithLeader.end_key r ≠ []) as Hne.
    { unfold splits in Sp. by destruct (RegionWithLeader.end_key r). }
    destruct He as [?|He]; [done|]. destruct (HB _ _ _ E) as [?|HinB]; [done|].
    pose proof (ends_after_lt B _ _ He HinB).
    destruct (IH (S t) ((RegionWithLeader.end_key r, e) :: ranges)) as (gs & tail & -> & Hg & Ht).
    { by constructor. }
    { unfold ranges_weight. simpl. lia. }
    exists (([(s, RegionWithLeader.end_key r)], r) :: gs), tail. split_and!; [done| |].
    + intros g k [->|Hin]%elem_of_cons; [|by apply Hg]. simpl. rewrite in_ranges_cons.
      intros [[H1 H2]|?%in_ranges_nil]; [|done]. apply contains_spec. simpl in *. split; [simpl; key_order | done].
    + destruct Ht as [?|[-> Hk]]; [by left|]. right. split; [done|]. intros k.
      rewrite Hcons, <- Hk, !in_ranges_cons. simpl. pose proof (in_ranges_nil k).
      rewrite (splits_spec _ s e k Sp) by key_order. rewrite in_ranges_cons. tauto.
  - destruct (group_ranges_loop_spec B r ranges [(s, e)] W) as (g & rest & -> & Hin & Hg & Hw & Hwf').
    simpl.
    destruct (IH (S t) rest) as (gs & tail & -> & Hgs & Ht).
    { by apply Hwf'. }
    { unfold ranges_weight in *. lia. }
    exists (((s, e) :: g, r) :: gs), tail. split_and!; [done| |].
    + intros x k [->|Hx]%elem_of_cons; [|by apply Hgs]. simpl. rewrite in_ranges_cons.
      intros [[H1 H2]|?]; [|auto]. simpl in *. apply contains_spec. split; simpl; [key_order|].
      by eapply unsplit_inside.
    + destruct Ht as [?|[-> Hk]]; [by left|]. right. split; [done|]. intros k.
      rewrite Hcons, <- Hk, !in_ranges_cons, Hin. simpl. rewrite in_ranges_cons. tauto.
Qed.

(** ** Batches *)

Section batches_facts.
Context {Item : Type} (item_size : Item → Z).
Definition total_size (l : list Item) : Z := fold_right Z.add 0 (map item_size l).

Lemma total_size_snoc l x : total_size (l ++ [x]) = total_size l + item_size x.
Proof. unfold total_size. induction l; simpl; lia. Qed.

Definition batch_ok (batch_size : Z) (b : list Item) : Prop :=
  b ≠ [] ∧ (length b = 1%nat ∨ total_size b < batch_size).

Lemma batches_loop_spec batch_size items bs b size :
  size = total_size b → Forall (batch_ok batch_size) bs →
  (b = [] ∨ batch_ok batch_size b) →
  concat (batches_loop item_size batch_size items bs b size) = concat bs ++ b ++ items ∧
  Forall (batch_ok batch_size) (batches_loop item_size batch_size items bs b size).
Proof.
  revert bs b size. induction items as [|x items IH]; intros bs b size -> Hbs Hb; simpl.
  - destruct (is_empty_spec b) as [->|Hne]; simpl; [by rewrite !app_nil_r|].
    rewrite concat_app. simpl. rewrite !app_nil_r. split; [done|].
    apply Forall_app. split; [done|]. constructor; [naive_solver | constructor].
  - destruct (Z.leb_spec batch_size (total_size b + item_size x)), (is_empty_spec b) as [->|Hne]; simpl.
    + destruct (IH bs [x] (total_size [] + item_size x)) as [-> ?].
      { unfold total_size. simpl. lia. } { done. } { right. split; [done | by left]. }
      done.
    + destruct (IH (bs ++ [b]) [x] (item_size x)) as [-> ?].
      { unfold total_size. simpl. lia. }
      { apply Forall_app. split; [done|]. constructor; [naive_solver | constructor]. }
      { right. split; [done | by left]. }
      rewrite concat_app. simpl. rewrite app_nil_r, <- !app_assoc. done.
    + destruct (IH bs [x] (total_size [] + item_size x)) as [-> ?].
      { unfold total_size. simpl. lia. } { done. } { right. split; [done | by left]. }
      done.
    + destruct (IH bs (b ++ [x]) (total_size b + item_size x)) as [-> ?].
      { by rewrite total_size_snoc. } { done. }
      { right. split; [by destruct b|]. right. rewrite total_size_snoc. lia. }
      by rewrite <- !app_assoc.
Qed.
End batches_facts.

Lemma sort_insert_perm {K} (key_of : K → Key) x l :
  Permutation (sort_insert key_of x l) (x :: l).
Proof.
  induction l as [|y l IH]; simpl; [done|]. case_key; [done|].
  rewrite IH. apply perm_swap.
Qed.
Lemma sort_by_key_perm {K} (key_of : K → Key) l : Permutation (sort_by_key key_of l) l.
Proof. induction l as [|x l IH]; simpl; [done|]. by rewrite sort_insert_perm, IH. Qed.

(** ** Theorems *)

(** Grouping keys by region loses nothing and misroutes nothing.  Whatever the
    lookup answers at each call (as long as a returned region holds the key asked
    for), the stream ends; the groups are non-empty, hold only keys of their region,
    and concatenate to the input, or to the part before the key whose lookup failed,
    which is then reported as the last item. *)
Theorem group_keys_by_region_correct pd {K} (key_of : K → Key) keys fuel :
  RegionLookup pd → Forall (λ k, wf_key (key_of k)) keys → (length keys < fuel)%nat →
  ∃ groups tail,
    group_keys_by_region pd key_of fuel keys = Some (map Ok groups ++ tail) ∧
    Forall (λ g, g.1 ≠ [] ∧
      Forall (λ k, RegionWithLeader.contains g.2 (key_of k) = true) g.1) groups ∧
    ∃ rest, concat (map fst groups) ++ rest = keys ∧
      ((tail = [] ∧ rest = []) ∨ ∃ e, tail = [Err e] ∧ rest ≠ []).
Proof. intros Hpd Hwf Hf. by apply group_keys_stream. Qed.

(** A sample cluster of two regions split at the key [m] (109). *)
Definition sample_pd (t : nat) (k : Key) : Result RegionWithLeader.t :=
  if key_ltb k [109] then Ok (sample_region 1 1 [] [109]) else Ok (sample_region 2 1 [109] []).

#[export] Instance sample_pd_lookup : RegionLookup sample_pd.
Proof.
  split; intros t k r _; unfold sample_pd; destruct (key_ltb_spec k [109]); intros [= <-].
  - apply contains_spec. split; simpl; [apply key_empty_le | by right].
  - apply contains_spec. split; simpl; [by apply key_not_lt | by left].
  - simpl. unfold wf_key, in_u8. repeat constructor; lia.
  - constructor.
Qed.

Lemma group_keys_by_region_correct_witness : ∃ groups tail,
  group_keys_by_region sample_pd id 4 [[97]; [98]; [120]] = Some (map Ok groups ++ tail).
Proof.
  destruct (group_keys_by_region_correct sample_pd id [[97]; [98]; [120]] 4) as (g & tl & H & _).
  - exact sample_pd_lookup.
  - unfold wf_key, in_u8. repeat constructor; simpl; lia.
  - simpl. lia.
  - by exists g, tl.
Defined.

(** The shards of a range: the lemma behind the theorem below and the plans of range requests. *)
Lemma region_stream_spec pd B range fuel :
  RegionLookup pd → layout_bounded pd B → wf_key range.1 → (S (ends_after B range.1) < fuel)%nat →
  ∃ shards tail,
    region_stream_for_range pd fuel range = Some (map Ok shards ++ tail) ∧
    (∀ s, s ∈ shards → s.1 = range_intersection (RegionWithLeader.range s.2) range ∧ ∃ t k, pd t k = Ok s.2) ∧
    ((∃ e, tail = [Err e]) ∨
     (tail = [] ∧
      (∀ k, in_key_range range k ↔ ∃ s, s ∈ shards ∧ in_key_range s.1 k) ∧
      (layout_stable pd → ∀ i j si sj k, shards !! i = Some si → shards !! j = Some sj →
         in_key_range si.1 k → in_key_range sj.1 k → i = j))).
Proof.
  intros Hpd HB Hwf Hf. destruct range as [s e]. unfold region_stream_for_range, regions_for_range.
  set (endo := if is_empty e then None else Some e).
  assert (BoundRange.into_keys (stream_bound_range (s, e)) = (s, endo)) as ->.
  { subst endo. unfold stream_bound_range. simpl.
    destruct (is_empty_spec e); [done | apply from_pair_into_keys]. }
  destruct (regions_stream pd Hpd B endo HB fuel 0 s Hwf Hf) as (rs & tail & Es & HF & Ht).
  set (f := λ r, (range_intersection (RegionWithLeader.range r) (s, e), r)).
  exists (map f rs), (map_ok f tail). split_and!.
  - rewrite Es. simpl. unfold map_ok. by rewrite map_app, !map_map.
  - intros x Hx. apply list_elem_of_fmap in Hx as (r & -> & Hr). split; [done|].
    rewrite Forall_forall in HF. by apply HF.
  - destruct Ht as [[err ->]|[-> Hcov]]; [left; by exists err|]. right. split_and!; [done| |].
    + intros k. split.
      * intros Hk. destruct (Hcov k) as (r & Hr & Hc); [by destruct Hk| |].
        { destruct Hk as [_ [Hk|Hk]]; simpl in Hk; subst endo; [by subst e|].
          destruct e; simpl; [done|]. done. }
        exists (f r). split; [by apply list_elem_of_fmap_2|]. unfold f. cbn [fst snd].
        apply range_intersection_iff. split; [by apply contains_spec | done].
      * intros (x & Hx & Hk). apply list_elem_of_fmap in Hx as (r & -> & _). unfold f in Hk. cbn [fst snd] in Hk.
        by apply range_intersection_iff in Hk as [_ ?].
    + intros Hst i j si sj k Hi Hj Ki Kj. change (map f rs) with (f <$> rs) in Hi, Hj.
      apply (regions_stream_sorted pd Hpd endo Hst) in Es as [HS _]; [|done].
      apply list_lookup_fmap_Some in Hi as (ri & -> & Hi).
      apply list_lookup_fmap_Some in Hj as (rj & -> & Hj).
      exact (shards_disjoint rs (s, e) i j ri rj k HS Hi Hj Ki Kj).
Qed.

(** C29: a range request is cut into shards that cover it exactly.  For every
    lookup whose region ends come from a finite set, the stream ends; if no lookup
    fails, a key is in some shard exactly when it is in the requested range; every
    shard is inside its region; and while the region layout does not change no
    key is in two shards. *)
Theorem region_stream_for_range_correct pd B range fuel :
  RegionLookup pd → layout_bounded pd B → wf_key range.1 → (S (ends_after B range.1) < fuel)%nat →
  ∃ shards tail,
    region_stream_for_range pd fuel range = Some (map Ok shards ++ tail) ∧
    (∀ s k, s ∈ shards → in_key_range s.1 k → RegionWithLeader.contains s.2 k = true) ∧
    ((∃ e, tail = [Err e]) ∨
     (tail = [] ∧
      (∀ k, in_key_range range k ↔ ∃ s, s ∈ shards ∧ in_key_range s.1 k) ∧
      (layout_stable pd → ∀ i j si sj k, shards !! i = Some si → shards !! j = Some sj →
         in_key_range si.1 k → in_key_range sj.1 k → i = j))).
Proof.
  intros Hpd HB Hwf Hf. destruct (region_stream_spec pd B range fuel Hpd HB Hwf Hf) as (sh & tl & E & Hs & Ht).
  exists sh, tl. split_and!; [done | | done]. intros s k Hin. destruct (Hs s Hin) as [-> _].
  intros [? _]%range_intersection_iff. by apply contains_spec.
Qed.

Lemma sample_pd_bounded : layout_bounded sample_pd [[109]].
Proof.
  intros t k r. unfold sample_pd. destruct (key_ltb k [109]); intros [= <-]; simpl;
    [right; by apply elem_of_cons; left | by left].
Qed.

Lemma region_stream_for_range_correct_witness : ∃ shards tail,
  region_stream_for_range sample_pd 3 ([97], [120]) = Some (map Ok shards ++ tail).
Proof.
  destruct (region_stream_for_range_correct sample_pd [[109]] ([97], [120]) 3) as (g & tl & H & _).
  - exact sample_pd_lookup.
  - exact sample_pd_bounded.
  - unfold wf_key, in_u8. repeat constructor; simpl; lia.
  - vm_compute. lia.
  - by exists g, tl.
Defined.

(** Splitting a list of ranges at region boundaries preserves the set of keys.
    The stream ends, every range of a group lies inside the group's region, and (when no
    lookup fails) a key is in one of the groups' ranges exactly when it is in one
    of the requested ranges. *)
Theorem group_ranges_by_region_correct pd B ranges fuel :
  RegionLookup pd → layout_bounded pd B → Forall (λ r, wf_key r.1) ranges →
  (ranges_weight B ranges < fuel)%nat →
  ∃ groups tail,
    group_ranges_by_region pd fuel ranges = Some (map Ok groups ++ tail) ∧
    (∀ g k, g ∈ groups → in_ranges g.1 k → RegionWithLeader.contains g.2 k = true) ∧
    ((∃ e, tail = [Err e]) ∨ (tail = [] ∧ ∀ k, in_ranges ranges k ↔ in_groups groups k)).
Proof. intros Hpd HB Hwf Hf. by apply group_ranges_stream with B. Qed.

Lemma group_ranges_by_region_correct_witness : ∃ groups tail,
  group_ranges_by_region sample_pd 8 [([97], [120]); ([121], [])] = Some (map Ok groups ++ tail).
Proof.
  destruct (group_ranges_by_region_correct sample_pd [[109]] [([97], [120]); ([121], [])] 8)
    as (g & tl & H & _).
  - exact sample_pd_lookup.
  - exact sample_pd_bounded.
  - unfold wf_key, in_u8. repeat constructor; simpl; lia.
  - vm_compute. lia.
  - by exists g, tl.
Defined.

(** Batching keeps every item in order, makes no empty batch, and a batch of
    more than one item stays below the size limit. *)
Theorem batches_correct {Item} (item_size : Item → Z) items batch_size :
  concat (batches item_size items batch_size) = items ∧
  Forall (λ b, b ≠ [] ∧ (length b = 1%nat ∨ total_size item_size b < batch_size))
    (batches item_size items batch_size).
Proof. apply batches_loop_spec; [done | constructor | by left]. Qed.

Lemma flat_map_batches_ok {K} (size_of : K → Z) n (groups : list (list K * RegionWithLeader.t)) :
  ∃ shards, concat (map (flat_map_batches size_of n) (map Ok groups)) = map Ok shards ∧
    concat (map fst shards) = concat (map fst groups) ∧
    (∀ P, Forall (λ g : list K * RegionWithLeader.t, Forall (P g.2) g.1) groups →
          Forall (λ s : list K * RegionWithLeader.t, Forall (P s.2) s.1) shards).
Proof.
  induction groups as [|[g r] groups (shards & E & Hc & HP)]; simpl.
  { exists []. split_and!; [done..|]. constructor. }
  destruct (batches_loop_spec size_of n g [] [] 0) as [Hb _]; [done|constructor|by left|].
  fold (batches size_of g n) in Hb. simpl in Hb.
  exists (map (λ b, (b, r)) (batches size_of g n) ++ shards). split_and!.
  - rewrite E, map_app, map_map. done.
  - rewrite map_app, concat_app, map_map, Hc. simpl. by rewrite map_id, Hb.
  - intros P HF. apply Forall_cons in HF as [H1 H2]. apply Forall_app. split; [|by apply HP].
    apply Forall_map. simpl in *. apply Forall_forall. intros b Hin. simpl.
    rewrite Forall_forall in H1 |- *. intros x Hx. apply H1. rewrite <- Hb.
    rewrite list_elem_of_In. apply in_concat. exists b. rewrite <- !list_elem_of_In. done.
Qed.

Lemma group_keys_no_err pd {K} (key_of : K → Key) fuel t l items e :
  (∀ t k, is_ok (pd t k) = true) →
  stream_fn (group_keys_step pd key_of) fuel t l = Some items → Err e ∉ items.
Proof.
  intros Hok. revert t l items. induction fuel as [|f IH]; intros t l items; [done|].
  destruct l as [|k l]; simpl.
  - intros [= <-]. by intros ?%elem_of_nil.
  - specialize (Hok t (key_of k)). destruct (pd t (key_of k)) as [r|]; [|done]. simpl.
    destruct (take_region _ _ _ _) as [g ks].
    destruct (stream_fn _ f _ _) as [its|] eqn:E; [|done]. simpl. intros [= <-].
    rewrite elem_of_cons. intros [?|?]; [done|]. by eapply IH.
Qed.

(** The shards of a prewrite, flush or commit are the whole request.  When no
    region lookup fails, the shards hold exactly the request's mutations (or
    keys), each in a shard of a region that holds its key. *)
Theorem batched_shards_complete pd {K} (key_of : K → Key) (size_of : K → Z) n items fuel :
  RegionLookup pd → (∀ t k, is_ok (pd t k) = true) → Forall (λ k, wf_key (key_of k)) items →
  (length items < fuel)%nat →
  ∃ shards, batched_shards pd key_of size_of n fuel items = Some (map Ok shards) ∧
    Permutation (concat (map fst shards)) items ∧
    Forall (λ s, Forall (λ k, RegionWithLeader.contains s.2 (key_of k) = true) s.1) shards.
Proof.
  intros Hpd Hok Hwf Hf. unfold batched_shards.
  destruct (group_keys_stream pd key_of Hpd fuel 0 (sort_by_key key_of items))
    as (groups & tail & E & HF & rest & Hc & Ht).
  { by rewrite sort_by_key_perm. }
  { by rewrite (Permutation_length (sort_by_key_perm key_of items)). }
  unfold group_keys_by_region. rewrite E. simpl.
  assert (tail = [] ∧ rest = []) as [-> ->].
  { destruct Ht as [|(e & -> & Hr)]; [done|]. exfalso. eapply group_keys_no_err; [exact Hok | exact E |].
    apply elem_of_app. right. by apply elem_of_cons; left. }
  rewrite app_nil_r in Hc |- *.
  destruct (flat_map_batches_ok size_of n groups) as (shards & -> & Hcc & HP).
  exists shards. split_and!; [done | | ].
  - rewrite Hcc, Hc. apply sort_by_key_perm.
  - apply (HP (λ r k, RegionWithLeader.contains r (key_of k) = true)).
    eapply Forall_impl; [exact HF|]. naive_solver.
Qed.

Lemma batched_shards_complete_witness : ∃ shards,
  batched_shards sample_pd id key_size TXN_COMMIT_BATCH_SIZE 4 [[120]; [97]; [98]] = Some (map Ok shards).
Proof.
  destruct (batched_shards_complete sample_pd id key_size TXN_COMMIT_BATCH_SIZE [[120]; [97]; [98]] 4)
    as (sh & H & _).
  - exact sample_pd_lookup.
  - intros t k. unfold sample_pd. by destruct (key_ltb k [109]).
  - unfold wf_key, in_u8. repeat constructor; simpl; lia.
  - simpl. lia.
  - by exists sh.
Defined.

(** A failed region lookup is not reported by the batched requests: the shards
    before it are returned as if they were the whole request, although the plain
    key requests do report it. *)
Theorem batched_shards_drop_error :
  let pd := λ (t : nat) (k : Key), match t with O => sample_pd t k | _ => Err NoCurrentRegions end in
  batched_shards pd id key_size TXN_COMMIT_BATCH_SIZE 4 [[97]; [120]] =
    Some [Ok ([[97]], sample_region 1 1 [] [109])] ∧
  keys_shards pd 4 [[97]; [120]] =
    Some [Ok ([[97]], sample_region 1 1 [] [109]); Err NoCurrentRegions].
Proof. split; by vm_compute. Qed.

(** ** The lookup through the codec *)

(** [PdClient::decode_region] *)
Definition decode_region (region : RegionWithLeader.t) (enable_codec : bool) :
    Result RegionWithLeader.t :=
  if enable_codec then
    s ← decode_bytes_in_place (RegionWithLeader.start_key region) false;
    e ← decode_bytes_in_place (RegionWithLeader.end_key region) false;
    Ok (RegionWithLeader.mk (Region.with_range (RegionWithLeader.region region) s e)
          (RegionWithLeader.leader region))
  else Ok region.

(** [PdRpcClient::region_for_key] and [region_for_id]; [get] is the region cache. *)
Definition region_for_key (enable_codec : bool)
    (get : nat → Key → Result RegionWithLeader.t) (t : nat) (key : Key) : Result RegionWithLeader.t :=
  let key := if enable_codec then to_encoded key else key in
  region ← get t key;
  decode_region region enable_codec.

Definition region_for_id (enable_codec : bool) (get : Z → Result RegionWithLeader.t) (id : Z) :
    Result RegionWithLeader.t :=
  region ← get id;
  decode_region region enable_codec.

(** A region boundary as TiKV reports it in transactional mode: empty, or the
    encoding of a key. *)
Definition encoded_boundary (b : Key) : Prop := b = [] ∨ ∃ k, wf_key k ∧ b = to_encoded k.

Lemma to_encoded_ne k : wf_key k → to_encoded k ≠ [].
Proof.
  intros Hk E. pose proof (encode_bytes_length k false) as H. unfold to_encoded in E.
  rewrite E in H. unfold max_encoded_bytes_size, ENC_GROUP_SIZE in H. simpl in H. lia.
Qed.

Lemma decode_boundary b : encoded_boundary b →
  ∃ k, decode_bytes_in_place b false = Ok k ∧ wf_key k ∧ (b = [] ∧ k = [] ∨ b = to_encoded k).
Proof.
  intros [->|(k & Hk & ->)]; [exists [] | exists k].
  - split_and!; [done | constructor | by left].
  - split_and!; [by apply decode_to_encoded | done | by right].
Qed.

Lemma encoded_empty_le k : wf_key k → key_le (to_encoded []) (to_encoded k).
Proof. intros. apply encode_bytes_le; [constructor | done | apply key_empty_le]. Qed.

Lemma decode_region_contains_iff r k : wf_key k →
  encoded_boundary (RegionWithLeader.start_key r) → encoded_boundary (RegionWithLeader.end_key r) →
  RegionWithLeader.end_key r ≠ to_encoded [] →
  ∃ r', decode_region r true = Ok r' ∧ wf_key (RegionWithLeader.end_key r') ∧
    RegionWithLeader.ver_id r' = RegionWithLeader.ver_id r ∧
    RegionWithLeader.contains r' k = RegionWithLeader.contains r (to_encoded k).
Proof.
  intros Hk Hs He Hne. unfold decode_region.
  destruct (decode_boundary _ Hs) as (s & -> & Ws & Es). simpl.
  destruct (decode_boundary _ He) as (e & -> & We & Ee). simpl.
  eexists. split_and!; [done | done | done |]. unfold RegionWithLeader.contains. f_equal.
  - change (RegionWithLeader.start_key _) with s at 1. apply bool_decide_ext.
    destruct Es as [[-> ->]| ->]; [split; intros; apply key_empty_le|]. symmetry. by apply encode_bytes_le.
  - change (RegionWithLeader.end_key _) with e at 1 2.
    destruct Ee as [[-> ->]|Ee]; [by rewrite !orb_true_r|]. rewrite Ee in Hne |- *.
    assert (e ≠ []) by (intros ->; done).
    destruct (is_empty_spec e) as [|_]; [done|].
    destruct (is_empty_spec (to_encoded e)) as [E|_]; [by apply to_encoded_ne in E|].
    rewrite !orb_false_r. apply bool_decide_ext. symmetry. by apply encode_bytes_lt.
Qed.

(** What the region cache returns: a region that holds the key asked for, with
    boundaries as TiKV reports them. *)
Class EncodedLookup (enable_codec : bool) (get : nat → list Z → Result RegionWithLeader.t) : Prop := {
  get_contains : ∀ t k r, get t k = Ok r → RegionWithLeader.contains r k = true;
  get_end_wf : ∀ t k r, get t k = Ok r → wf_key (RegionWithLeader.end_key r);
  get_encoded : ∀ t k r, enable_codec = true → get t k = Ok r →
    encoded_boundary (RegionWithLeader.start_key r) ∧ encoded_boundary (RegionWithLeader.end_key r) ∧
    RegionWithLeader.end_key r ≠ to_encoded []
}.

(** The client's lookup provides what the sharding code relies on. *)
#[export] Instance region_for_key_lookup enable_codec get :
  EncodedLookup enable_codec get → RegionLookup (region_for_key enable_codec get).
Proof.
  intros Hg. split; intros t k r Hk; unfold region_for_key; destruct enable_codec;
    destruct (get t _) as [r0|] eqn:E; cbn [mbind result_bind]; try done.
  - destruct (get_encoded _ _ _ eq_refl E) as (Hs & He & Hne).
    destruct (decode_region_contains_iff r0 k Hk Hs He Hne) as (r' & -> & _ & _ & Hc).
    intros [= <-]. rewrite Hc. by eapply get_contains.
  - intros [= <-]. by eapply get_contains.
  - destruct (get_encoded _ _ _ eq_refl E) as (Hs & He & Hne).
    destruct (decode_region_contains_iff r0 k Hk Hs He Hne) as (r' & -> & ? & _).
    by intros [= <-].
  - intros [= <-]. by eapply get_end_wf.
Qed.

(** The codec does not change which region a key belongs to.  A region reported
    with encoded boundaries decodes, and the decoded region holds a key exactly when the
    reported one holds the encoded key; only an upper boundary that encodes the empty
    key, which no region has, would be read as unbounded. *)
Theorem decode_region_contains r k : wf_key k →
  encoded_boundary (RegionWithLeader.start_key r) → encoded_boundary (RegionWithLeader.end_key r) →
  RegionWithLeader.end_key r ≠ to_encoded [] →
  ∃ r', decode_region r true = Ok r' ∧ wf_key (RegionWithLeader.end_key r') ∧
    RegionWithLeader.ver_id r' = RegionWithLeader.ver_id r ∧
    RegionWithLeader.contains r' k = RegionWithLeader.contains r (to_encoded k).
Proof. apply decode_region_contains_iff. Qed.

Lemma decode_region_contains_witness : ∃ r',
  decode_region (sample_region 1 1 (to_encoded [97]) (to_encoded [109])) true = Ok r' ∧
  RegionWithLeader.contains r' [98] = true.
Proof.
  assert (∀ k, encoded_boundary (to_encoded [k]) ∨ ¬ in_u8 k) as H.
  { intros k. destruct (decide (0 ≤ k < 256)); [left | right; unfold in_u8; lia].
    right. exists [k]. split; [by apply Forall_cons_2; [|apply Forall_nil_2] | done]. }
  destruct (decode_region_contains
    (sample_region 1 1 (to_encoded [97]) (to_encoded [109])) [98]) as (r' & E & _ & _ & C).
  - unfold wf_key, in_u8. repeat constructor; lia.
  - destruct (H 97) as [|H']; [done | exfalso; apply H'; unfold in_u8; lia].
  - destruct (H 109) as [|H']; [done | exfalso; apply H'; unfold in_u8; lia].
  - by vm_compute.
  - exists r'. split; [exact E|]. rewrite C. by vm_compute.
Defined.
