(* ===== verification/Backoffs.v ===== *)
(** * Retry backoff (src/src/backoff.rs)

    [Backoff] decides how long to wait before a retry and when to give up.  A random
    draw is an input: [gen_range(0..n)] is the draw modulo [n], and a panic when
    the range is empty.  The theorem bounds every delay of every kind and the
    number of retries; the two statements after it show what the doubling does once
    it leaves the 64-bit range. *)

From S2P Require Import Prelude.

Inductive BackoffKind := KNone | NoJitter | FullJitter | EqualJitter | DecorrelatedJitter.
#[export] Instance BackoffKind_eq_dec : EqDecision BackoffKind.
Proof. solve_decision. Defined.

Module Backoff.
Record t := mk {
  kind : BackoffKind;
  current_attempts : Z;
  max_attempts : Z;
  base_delay_ms : Z;
  current_delay_ms : Z;
  max_delay_ms : Z
}.

Definition with_attempt (b : t) (attempts delay : Z) : t :=
  mk (kind b) attempts (max_attempts b) (base_delay_ms b) delay (max_delay_ms b).

Definition is_none (b : t) : bool := bool_decide (kind b = KNone).

Definition no_backoff : t := mk KNone 0 0 0 0 0.
Definition no_jitter_backoff (base max attempts : Z) : t :=
  mk NoJitter 0 attempts base base max.
Definition full_jitter_backoff (base max attempts : Z) : t :=
  let base := Z.max base 1 in
  let max := Z.max max 1 in
  mk FullJitter 0 attempts base base max.
Definition equal_jitter_backoff (base max attempts : Z) : t :=
  let base := Z.max base 2 in
  let max := Z.max max 2 in
  mk EqualJitter 0 attempts base base max.
Definition decorrelated_jitter_backoff (base max attempts : Z) : t :=
  let base := Z.max base 1 in
  let max := Z.max max base in
  mk DecorrelatedJitter 0 attempts base base max.
End Backoff.

(** A call either panics, gives up, or returns a delay with the new state. *)
Inductive Delay := Panic | GiveUp (b : Backoff.t) | Wait (ms : Z) (b : Backoff.t).

(** [rng.gen_range(0..n)] *)
Definition gen_range (draw n : Z) : option Z := if 0 <? n then Some (draw mod n) else None.

Definition next_delay_duration (b : Backoff.t) (draw : Z) : Delay :=
  if Backoff.max_attempts b <=? Backoff.current_attempts b then GiveUp b else
  let attempts := Backoff.current_attempts b + 1 in
  let cur := Backoff.current_delay_ms b in
  let doubled := wrap_u64 (Z.shiftl cur 1) in
  match Backoff.kind b with
  | KNone => GiveUp (Backoff.with_attempt b attempts cur)
  | NoJitter =>
      let delay_ms := Z.min (Backoff.max_delay_ms b) cur in
      Wait delay_ms (Backoff.with_attempt b attempts doubled)
  | FullJitter =>
      let delay_ms := Z.min (Backoff.max_delay_ms b) cur in
      match gen_range draw delay_ms with
      | None => Panic
      | Some delay_ms => Wait delay_ms (Backoff.with_attempt b attempts doubled)
      end
  | EqualJitter =>
      let delay_ms := Z.min (Backoff.max_delay_ms b) cur in
      let half_delay_ms := Z.shiftr delay_ms 1 in
      match gen_range draw half_delay_ms with
      | None => Panic
      | Some d => Wait (d + half_delay_ms) (Backoff.with_attempt b attempts doubled)
      end
  | DecorrelatedJitter =>
      let upper_exclusive := Z.max (sat_sub_u64 (sat_mul_u64 cur 3) (Backoff.base_delay_ms b)) 1 in
      match gen_range draw upper_exclusive with
      | None => Panic
      | Some d =>
          let delay_ms := Z.min (d + Backoff.base_delay_ms b) (Backoff.max_delay_ms b) in
          Wait delay_ms (Backoff.with_attempt b attempts delay_ms)
      end
  end.

(** The state after one call per draw, while the calls return delays. *)
Fixpoint backoff_after (b : Backoff.t) (draws : list Z) : option Backoff.t :=
  match draws with
  | [] => Some b
  | d :: draws' =>
      match next_delay_duration b d with
      | Wait _ b' => backoff_after b' draws'
      | _ => None
      end
  end.

(** The attempts a backoff has left. *)
Definition attempts_left (b : Backoff.t) : nat :=
  Z.to_nat (Backoff.max_attempts b - Backoff.current_attempts b).

(** The constants of the client. *)
Definition DEFAULT_REGION_BACKOFF := Backoff.no_jitter_backoff 2 500 10.
Definition DEFAULT_STORE_BACKOFF := Backoff.no_jitter_backoff 2 1000 10.
Definition OPTIMISTIC_BACKOFF := Backoff.no_jitter_backoff 2 500 10.
Definition PESSIMISTIC_BACKOFF := Backoff.no_jitter_backoff 2 500 10.

(** ** Bounds *)

(** The documented delay of the [i]-th retry (from 0). *)
Definition exp_delay (b : Backoff.t) (i : nat) : Z :=
  Z.min (Backoff.max_delay_ms b) (Backoff.base_delay_ms b * 2 ^ Z.of_nat i).

Definition delay_ok (b : Backoff.t) (i : nat) (ms : Z) : Prop :=
  match Backoff.kind b with
  | KNone => False
  | NoJitter => ms = exp_delay b i
  | FullJitter => 0 ≤ ms < exp_delay b i
  | EqualJitter => exp_delay b i / 2 ≤ ms < exp_delay b i
  | DecorrelatedJitter => Backoff.base_delay_ms b ≤ ms ≤ Backoff.max_delay_ms b
  end.

(** What the constructors guarantee. *)
Definition backoff_new (b : Backoff.t) : Prop :=
  Backoff.current_attempts b = 0 ∧ Backoff.current_delay_ms b = Backoff.base_delay_ms b ∧
  0 ≤ Backoff.base_delay_ms b ∧ 0 ≤ Backoff.max_delay_ms b ∧
  match Backoff.kind b with
  | KNone => False
  | NoJitter => True
  | FullJitter => 1 ≤ Backoff.base_delay_ms b ∧ 1 ≤ Backoff.max_delay_ms b
  | EqualJitter => 2 ≤ Backoff.base_delay_ms b ∧ 2 ≤ Backoff.max_delay_ms b
  | DecorrelatedJitter => 1 ≤ Backoff.base_delay_ms b ≤ Backoff.max_delay_ms b
  end ∧
  Backoff.max_delay_ms b ≤ u64_max ∧
  Backoff.base_delay_ms b * 2 ^ Backoff.max_attempts b ≤ u64_max.

(** The state after [i] retries. *)
Definition backoff_at (b0 b : Backoff.t) (i : nat) : Prop :=
  Backoff.kind b = Backoff.kind b0 ∧ Backoff.max_attempts b = Backoff.max_attempts b0 ∧
  Backoff.base_delay_ms b = Backoff.base_delay_ms b0 ∧
  Backoff.max_delay_ms b = Backoff.max_delay_ms b0 ∧
  Backoff.current_attempts b = Z.of_nat i ∧
  match Backoff.kind b0 with
  | DecorrelatedJitter => Backoff.base_delay_ms b0 ≤ Backoff.current_delay_ms b ≤ Backoff.max_delay_ms b0
  | _ => Backoff.current_delay_ms b = Backoff.base_delay_ms b0 * 2 ^ Z.of_nat i
  end.

Lemma gen_range_spec draw n : 0 < n → ∃ d, gen_range draw n = Some d ∧ 0 ≤ d < n.
Proof.
  intros. unfold gen_range. rewrite (proj2 (Z.ltb_lt _ _)) by done.
  eexists. split; [done|]. by apply Z.mod_pos_bound.
Qed.

Lemma doubled_spec base n i : 0 ≤ base → base * 2 ^ n ≤ u64_max → Z.of_nat i < n →
  0 ≤ base * 2 ^ Z.of_nat i ≤ u64_max ∧
  wrap_u64 (Z.shiftl (base * 2 ^ Z.of_nat i) 1) = base * 2 ^ Z.of_nat (S i).
Proof.
  intros Hb Hmax Hi.
  assert (2 ^ Z.of_nat (S i) = 2 * 2 ^ Z.of_nat i) as E.
  { rewrite Nat2Z.inj_succ, Z.pow_succ_r by lia. lia. }
  assert (2 ^ Z.of_nat (S i) ≤ 2 ^ n) by (apply Z.pow_le_mono_r; lia).
  assert (0 < 2 ^ Z.of_nat i) by (apply Z.pow_pos_nonneg; lia).
  assert (base * 2 ^ Z.of_nat (S i) ≤ base * 2 ^ n) by (apply Z.mul_le_mono_nonneg_l; lia).
  rewrite E in *. split; [nia|].
  rewrite Z.shiftl_mul_pow2 by lia. change (2 ^ 1) with 2. rewrite wrap_u64_small; [lia|].
  unfold in_u64. nia.
Qed.

Lemma next_delay_step b0 b i draw : backoff_new b0 → backoff_at b0 b i →
  Z.of_nat i < Backoff.max_attempts b0 →
  ∃ ms b', next_delay_duration b draw = Wait ms b' ∧ delay_ok b0 i ms ∧ backoff_at b0 b' (S i).
Proof.
  intros (Ha & Hc & Hb & Hm & Hk & Hu & Hp) (Ek & Em & Eb & Ed & Ea & Ecur) Hi.
  destruct (doubled_spec _ _ i Hb Hp Hi) as [Hr Hd].
  unfold next_delay_duration, delay_ok, backoff_at, exp_delay in *.
  rewrite Em, Ea, (proj2 (Z.leb_gt _ _)) by lia. rewrite Ek, Ed, Eb in *.
  assert (Z.of_nat i + 1 = Z.of_nat (S i)) as Hs by lia.
  assert (0 < 2 ^ Z.of_nat i) as Hpow by (apply Z.pow_pos_nonneg; lia).
  destruct (Backoff.kind b0) eqn:K0; [done| | | |].
  - rewrite Ecur, Hd, Hs. do 2 eexists. split; [done|]. split; [done|]. simpl. by rewrite Ek.
  - rewrite Ecur, Hd, Hs.
    destruct (gen_range_spec draw (Z.min (Backoff.max_delay_ms b0) (Backoff.base_delay_ms b0 * 2 ^ Z.of_nat i)))
      as (d & -> & Hdr); [nia|].
    do 2 eexists. split; [done|]. split; [done|]. simpl. by rewrite Ek.
  - rewrite Ecur, Hd, Hs. rewrite Z.shiftr_div_pow2 by lia. change (2 ^ 1) with 2.
    set (temp := Z.min _ _) in *. assert (2 ≤ temp) by (subst temp; nia).
    assert (1 ≤ temp / 2) by (apply Z.div_le_lower_bound; lia).
    destruct (gen_range_spec draw (temp / 2)) as (d & -> & Hdr); [lia|].
    do 2 eexists. split; [done|]. split.
    + pose proof (Z.mul_div_le temp 2). lia.
    + simpl. by rewrite Ek.
  - set (up := Z.max _ 1). assert (1 ≤ up) as Hup by (subst up; lia).
    destruct (gen_range_spec draw up) as (d & -> & Hdr); [lia|].
    do 2 eexists. split; [done|]. split; [lia|]. simpl. rewrite Ek, Hs. split_and!; lia || done.
Qed.

Lemma backoff_after_spec b0 : backoff_new b0 → ∀ draws b i, backoff_at b0 b i →
  Z.of_nat (i + length draws) ≤ Backoff.max_attempts b0 →
  ∃ b', backoff_after b draws = Some b' ∧ backoff_at b0 b' (i + length draws).
Proof.
  intros Hnew. induction draws as [|d draws IH]; intros b i Hat Hle; simpl.
  - exists b. by rewrite Nat.add_0_r.
  - simpl in Hle. destruct (next_delay_step b0 b i d Hnew Hat) as (ms & b' & -> & _ & Hat'); [lia|].
    rewrite Nat.add_succ_r. destruct (IH b' (S i) Hat') as (b'' & ? & ?); [lia|]. eauto.
Qed.

(** Retries are bounded in number and in delay.  For a backoff of any kind
    whose doubling stays in range, whatever the random draws: each of the first
    [max_attempts] calls returns a delay within the documented bounds (never more than
    the maximum, exactly [min(max, base * 2^i)] without jitter) and does not panic, and
    from then on every call gives up. *)
Theorem backoff_delays b draws draw : backoff_new b →
  Z.of_nat (length draws) ≤ Backoff.max_attempts b →
  ∃ b', backoff_after b draws = Some b' ∧
    if Z.of_nat (length draws) <? Backoff.max_attempts b
    then ∃ ms b'', next_delay_duration b' draw = Wait ms b'' ∧ delay_ok b (length draws) ms
    else next_delay_duration b' draw = GiveUp b'.
Proof.
  intros Hnew Hlen.
  assert (backoff_at b b 0) as H0.
  { destruct Hnew as (Ha & Hc & Hb & Hm & Hk & Hu & Hp). unfold backoff_at.
    rewrite Hc. change (2 ^ Z.of_nat 0) with 1. destruct (Backoff.kind b); naive_solver lia. }
  destruct (backoff_after_spec b Hnew draws b 0 H0 Hlen) as (b' & E & Hat).
  exists b'. split; [done|]. simpl in Hat. destruct (Z.ltb_spec (Z.of_nat (length draws)) (Backoff.max_attempts b)).
  - destruct (next_delay_step b b' (length draws) draw Hnew Hat) as (ms & b'' & ? & ? & _); [done|]. eauto.
  - destruct Hat as (_ & Em & _ & _ & Ea & _). unfold next_delay_duration.
    by rewrite Em, Ea, (proj2 (Z.leb_le _ _)) by lia.
Qed.

Lemma backoff_delays_witness : ∃ b', backoff_after DEFAULT_REGION_BACKOFF [0; 0; 0] = Some b' ∧
  ∃ ms b'', next_delay_duration b' 0 = Wait ms b'' ∧ delay_ok DEFAULT_REGION_BACKOFF 3 ms.
Proof.
  apply (backoff_delays DEFAULT_REGION_BACKOFF [0; 0; 0] 0).
  - unfold backoff_new, u64_max. simpl. split_and!; lia || done.
  - simpl. lia.
Defined.

(** With more than 62 attempts the doubling of a delay of 4 ms leaves the 64-bit
    range: the delay becomes zero instead of staying at the maximum, and with full
    jitter the next draw is from an empty range. *)
Theorem backoff_doubling_wraps :
  (∃ b b', backoff_after (Backoff.no_jitter_backoff 4 500 100) (replicate 62 0) = Some b ∧
    next_delay_duration b 0 = Wait 0 b') ∧
  (∃ b, backoff_after (Backoff.full_jitter_backoff 4 500 100) (replicate 62 0) = Some b ∧
    next_delay_duration b 0 = Panic).
Proof.
  split.
  - exists (Backoff.mk NoJitter 62 100 4 0 500), (Backoff.mk NoJitter 63 100 4 0 500).
    split; vm_compute; reflexivity.
  - exists (Backoff.mk FullJitter 62 100 4 0 500). split; vm_compute; reflexivity.
Qed.

(** ** Counting attempts *)

Lemma wait_uses_attempt b d ms b' : next_delay_duration b d = Wait ms b' →
  attempts_left b = S (attempts_left b') ∧ Backoff.kind b' = Backoff.kind b.
Proof.
  unfold next_delay_duration, attempts_left.
  destruct (Z.leb_spec (Backoff.max_attempts b) (Backoff.current_attempts b)); [done|].
  repeat case_match; intros; simplify_eq; cbn; (split; [lia | congruence]).
Qed.

Lemma give_up_exhausted b d b' : Backoff.kind b ≠ KNone → next_delay_duration b d = GiveUp b' →
  attempts_left b = 0%nat.
Proof.
  intros Hk. unfold next_delay_duration, attempts_left.
  destruct (Z.leb_spec (Backoff.max_attempts b) (Backoff.current_attempts b)); [lia|].
  repeat case_match; done.
Qed.
