(* ===== verification/KeyFlags.v ===== *)
(** * Per-key flags (src/src/transaction/key_flags.rs)

    [KeyFlags] is a [u16] bit set, [FlagsOp] the operations on it.  The lemmas
    give the meaning of every query after every operation; the buffer's proofs use them
    instead of bit arithmetic. *)

From S2P Require Import Prelude.

Definition PRESUME_KEY_NOT_EXISTS : Z := Z.shiftl 1 0.
Definition PREWRITE_ONLY : Z := Z.shiftl 1 1.
Definition ASSERT_EXIST : Z := Z.shiftl 1 2.
Definition ASSERT_NOT_EXIST : Z := Z.shiftl 1 3.

(** [!x] on [u16] *)
Definition not_u16 (x : Z) : Z := Z.lxor x 65535.

Definition KeyFlags : Type := Z.
Definition KeyFlags_default : KeyFlags := 0.

Definition has_presume_key_not_exists (f : KeyFlags) : bool :=
  negb (Z.land f PRESUME_KEY_NOT_EXISTS =? 0).
Definition has_prewrite_only (f : KeyFlags) : bool :=
  negb (Z.land f PREWRITE_ONLY =? 0).
Definition has_assert_exist (f : KeyFlags) : bool :=
  negb (Z.land f ASSERT_EXIST =? 0) && (Z.land f ASSERT_NOT_EXIST =? 0).
Definition has_assert_not_exist (f : KeyFlags) : bool :=
  negb (Z.land f ASSERT_NOT_EXIST =? 0) && (Z.land f ASSERT_EXIST =? 0).
Definition has_assert_unknown (f : KeyFlags) : bool :=
  negb (Z.land f ASSERT_EXIST =? 0) && negb (Z.land f ASSERT_NOT_EXIST =? 0).
Definition has_assertion_flags (f : KeyFlags) : bool :=
  negb (Z.land f (Z.lor ASSERT_EXIST ASSERT_NOT_EXIST) =? 0).

Inductive FlagsOp :=
| SetPresumeKeyNotExists | DelPresumeKeyNotExists
| SetPrewriteOnly | DelPrewriteOnly
| SetAssertExist | SetAssertNotExist | SetAssertUnknown | SetAssertNone.

Definition apply (f : KeyFlags) (op : FlagsOp) : KeyFlags :=
  match op with
  | SetPresumeKeyNotExists => Z.lor f PRESUME_KEY_NOT_EXISTS
  | DelPresumeKeyNotExists => Z.land f (not_u16 PRESUME_KEY_NOT_EXISTS)
  | SetPrewriteOnly => Z.lor f PREWRITE_ONLY
  | DelPrewriteOnly => Z.land f (not_u16 PREWRITE_ONLY)
  | SetAssertExist => Z.lor (Z.land f (not_u16 ASSERT_NOT_EXIST)) ASSERT_EXIST
  | SetAssertNotExist => Z.lor (Z.land f (not_u16 ASSERT_EXIST)) ASSERT_NOT_EXIST
  | SetAssertUnknown => Z.lor f (Z.lor ASSERT_EXIST ASSERT_NOT_EXIST)
  | SetAssertNone => Z.land f (not_u16 (Z.lor ASSERT_EXIST ASSERT_NOT_EXIST))
  end.

(** ** Bits *)

Lemma land_bit f i : 0 ≤ i → negb (Z.land f (Z.shiftl 1 i) =? 0) = Z.testbit f i.
Proof.
  intros Hi. rewrite Z.shiftl_1_l. apply eq_iff_eq_true.
  rewrite negb_true_iff, Z.eqb_neq. split.
  - intros H. destruct (Z.testbit f i) eqn:E; [done|]. exfalso. apply H.
    apply Z.bits_inj'. intros n Hn. rewrite Z.land_spec, Z.bits_0, Z.pow2_bits_eqb by done.
    destruct (Z.eqb_spec i n); [subst; by rewrite E | apply andb_false_r].
  - intros E H. apply (f_equal (λ z, Z.testbit z i)) in H.
    by rewrite Z.land_spec, Z.bits_0, Z.pow2_bits_true, E in H.
Qed.

(** The four flags as booleans: presume-not-exists, prewrite-only, assert-exist,
    assert-not-exist. *)
Definition flag (f : KeyFlags) (i : Z) : bool := Z.testbit f i.

Lemma has_presume_flag f : has_presume_key_not_exists f = flag f 0.
Proof. by apply land_bit. Qed.
Lemma has_prewrite_only_flag f : has_prewrite_only f = flag f 1.
Proof. by apply land_bit. Qed.
Lemma has_assert_exist_flag f : has_assert_exist f = flag f 2 && negb (flag f 3).
Proof.
  unfold has_assert_exist, ASSERT_EXIST, ASSERT_NOT_EXIST. rewrite land_bit by done.
  unfold flag. by rewrite <- (land_bit f 3), negb_involutive by done.
Qed.
Lemma has_assert_not_exist_flag f : has_assert_not_exist f = flag f 3 && negb (flag f 2).
Proof.
  unfold has_assert_not_exist, ASSERT_EXIST, ASSERT_NOT_EXIST. rewrite (land_bit f 3) by done.
  unfold flag. by rewrite <- (land_bit f 2), negb_involutive by done.
Qed.

Lemma flag_apply f op i : 0 ≤ i < 4 →
  flag (apply f op) i =
  match op with
  | SetPresumeKeyNotExists => (i =? 0) || flag f i
  | DelPresumeKeyNotExists => negb (i =? 0) && flag f i
  | SetPrewriteOnly => (i =? 1) || flag f i
  | DelPrewriteOnly => negb (i =? 1) && flag f i
  | SetAssertExist => (i =? 2) || negb (i =? 3) && flag f i
  | SetAssertNotExist => (i =? 3) || negb (i =? 2) && flag f i
  | SetAssertUnknown => (i =? 2) || (i =? 3) || flag f i
  | SetAssertNone => negb (i =? 2) && negb (i =? 3) && flag f i
  end.
Proof.
  intros Hi. assert (i = 0 ∨ i = 1 ∨ i = 2 ∨ i = 3) as [->|[->|[->| ->]]] by lia;
    unfold flag; destruct op; unfold apply; rewrite ?Z.lor_spec, ?Z.land_spec;
    match goal with |- context [Z.testbit f ?i] => generalize (Z.testbit f i) end;
    intros []; vm_compute; reflexivity.
Qed.

(** Flags other than the one an operation is about do not change. *)
Lemma prewrite_only_apply f op :
  has_prewrite_only (apply f op) =
  match op with
  | SetPrewriteOnly => true
  | DelPrewriteOnly => false
  | _ => has_prewrite_only f
  end.
Proof. rewrite !has_prewrite_only_flag, flag_apply by lia. by destruct op. Qed.

Lemma presume_apply f op :
  has_presume_key_not_exists (apply f op) =
  match op with
  | SetPresumeKeyNotExists => true
  | DelPresumeKeyNotExists => false
  | _ => has_presume_key_not_exists f
  end.
Proof. rewrite !has_presume_flag, flag_apply by lia. by destruct op. Qed.

Lemma assert_exist_apply f op :
  has_assert_exist (apply f op) =
  match op with
  | SetAssertExist => true
  | SetAssertNotExist | SetAssertUnknown | SetAssertNone => false
  | _ => has_assert_exist f
  end.
Proof.
  rewrite !has_assert_exist_flag, !flag_apply by lia. destruct op; simpl; try done;
    by destruct (flag f 2), (flag f 3).
Qed.

Lemma assert_not_exist_apply f op :
  has_assert_not_exist (apply f op) =
  match op with
  | SetAssertNotExist => true
  | SetAssertExist | SetAssertUnknown | SetAssertNone => false
  | _ => has_assert_not_exist f
  end.
Proof.
  rewrite !has_assert_not_exist_flag, !flag_apply by lia. destruct op; simpl; try done;
    by destruct (flag f 2), (flag f 3).
Qed.

Create HintDb flags.
#[export] Hint Rewrite prewrite_only_apply presume_apply assert_exist_apply
  assert_not_exist_apply : flags.
