(* ===== verification/Buffers.v ===== *)
(** * The transaction buffer (src/src/transaction/buffer.rs)

    [Buffer] holds a transaction's writes and caches its reads.  A fetch from TiKV is
    a parameter of the operation that needs it.  The theorems: the buffer refines a
    plain key-to-value view (reads see the transaction's own writes, locks and flags do not
    disturb them), reads of a fixed snapshot are stable and never report a cache
    mismatch, a scan returns the first entries of the snapshot overlaid with
    the local puts and deletes although it fetches only a bounded prefix, and the
    mutations sent at commit are determined key by key. *)

From Stdlib Require Import Sorting.Sorted Sorting.Permutation.
From S2P Require Import Prelude Keys Proto Errors Ranges BTree Kv KeyFlags.

Inductive BufferEntry :=
| Cached (value : option Value)
| Locked (cached : option (option Value))
| Put (value : Value)
| Del
| Insert (value : Value)
| CheckNotExist.
#[export] Instance BufferEntry_eq_dec : EqDecision BufferEntry.
Proof. solve_decision. Defined.

Inductive MutationValue := Determined (value : option Value) | Undetermined.
#[export] Instance MutationValue_eq_dec : EqDecision MutationValue.
Proof. solve_decision. Defined.

Inductive ReadValueState := RLocal (v : option Value) | RCached (v : option Value) | RUndetermined.

Record Buffer := mkBuffer {
  primary_key : option Key;
  entry_map : list (list Z * BufferEntry);
  b_key_flags : gmap (list Z) KeyFlags;
  read_commit_ts : gmap (list Z) Z;
  is_pessimistic : bool
}.

Definition Buffer_new (is_pessimistic : bool) : Buffer := mkBuffer None [] ∅ ∅ is_pessimistic.

Definition set_entries (m : list (list Z * BufferEntry)) (b : Buffer) : Buffer :=
  mkBuffer (primary_key b) m (b_key_flags b) (read_commit_ts b) (is_pessimistic b).
Definition set_flags (f : gmap (list Z) KeyFlags) (b : Buffer) : Buffer :=
  mkBuffer (primary_key b) (entry_map b) f (read_commit_ts b) (is_pessimistic b).
Definition set_read_commit_ts (r : gmap (list Z) Z) (b : Buffer) : Buffer :=
  mkBuffer (primary_key b) (entry_map b) (b_key_flags b) r (is_pessimistic b).

(** ** [impl BufferEntry] *)

Definition to_proto_with_key (e : BufferEntry) (key : Key) : option PbMutation.t :=
  match e with
  | Cached _ => None
  | Put v => Some (PbMutation.mk Op_Put key v 0)
  | Del => Some (PbMutation.mk Op_Del key [] 0)
  | Locked _ => Some (PbMutation.mk Op_Lock key [] 0)
  | Insert v => Some (PbMutation.mk Op_Insert key v 0)
  | CheckNotExist => Some (PbMutation.mk Op_CheckNotExists key [] 0)
  end.

Definition get_value (e : BufferEntry) : MutationValue :=
  match e with
  | Cached value => Determined value
  | Put value => Determined (Some value)
  | Del => Determined None
  | Locked None => Undetermined
  | Locked (Some value) => Determined value
  | Insert value => Determined (Some value)
  | CheckNotExist => Determined None
  end.

(** ** [impl Buffer] *)

Definition get_primary_key (b : Buffer) : option Key := primary_key b.

(** [get_or_insert_with] *)
Definition primary_key_or (key : Key) (b : Buffer) : Buffer :=
  mkBuffer (match primary_key b with Some k => Some k | None => Some key end)
    (entry_map b) (b_key_flags b) (read_commit_ts b) (is_pessimistic b).

Definition get_from_mutations (key : Key) (b : Buffer) : MutationValue :=
  match bget key (entry_map b) with Some e => get_value e | None => Undetermined end.

Definition get (key : Key) (b : Buffer) : option Value :=
  match get_from_mutations key b with Determined value => value | Undetermined => None end.

Definition read_value_state (key : Key) (b : Buffer) : ReadValueState :=
  match bget key (entry_map b) with
  | Some (Put value) | Some (Insert value) => RLocal (Some value)
  | Some Del | Some CheckNotExist => RLocal None
  | Some (Cached value) => RCached value
  | Some (Locked (Some value)) => RCached value
  | Some (Locked None) | None => RUndetermined
  end.

Definition cached_commit_ts (key : Key) (b : Buffer) : option Z := read_commit_ts b !! key.

(** The error messages drop the key length. *)
Definition update_cache (key : Key) (value : option Value) (b : Buffer) : Result Buffer :=
  match bget key (entry_map b) with
  | Some (Locked None) => Ok (set_entries (binsert key (Locked (Some value)) (entry_map b)) b)
  | None => Ok (set_entries (binsert key (Cached value) (entry_map b)) b)
  | Some (Cached v) | Some (Locked (Some v)) =>
      if decide (value ≠ v) then Err (InternalError "buffer cache mismatch (entry=cached)") else Ok b
  | Some (Put v) =>
      if decide (value ≠ Some v) then Err (InternalError "buffer cache mismatch (entry=put)") else Ok b
  | Some Del =>
      if decide (value ≠ None) then Err (InternalError "buffer cache mismatch (entry=del)") else Ok b
  | Some (Insert v) =>
      if decide (value ≠ Some v) then Err (InternalError "buffer cache mismatch (entry=insert)")
      else Ok b
  | Some CheckNotExist =>
      if decide (value ≠ None)
      then Err (InternalError "buffer cache mismatch (entry=check_not_exist)") else Ok b
  end.

Definition update_read_cache (key : Key) (value : option Value) (commit_ts : Z) (b : Buffer) :
    Result Buffer :=
  b ← update_cache key value b;
  Ok (match value with
      | None => set_read_commit_ts (delete key (read_commit_ts b)) b
      | Some _ =>
          if negb (commit_ts =? 0)
          then set_read_commit_ts (<[key := commit_ts]> (read_commit_ts b)) b else b
      end).

(** An operation that fails midway leaves the buffer as it was at that point; the
    state comes first, the result second. *)
Definition get_or_else (key : Key) (f : Key → Result (option Value)) (b : Buffer) :
    Buffer * Result (option Value) :=
  match get_from_mutations key b with
  | Determined value => (b, Ok value)
  | Undetermined =>
      match f key with
      | Err e => (b, Err e)
      | Ok value =>
          match update_cache key value b with
          | Err e => (b, Err e)
          | Ok b => (b, Ok value)
          end
      end
  end.

(** [for (k, v) in ..: self.update_cache(k, Some(v))?] *)
Fixpoint update_cache_all (pairs : list (list Z * list Z)) (b : Buffer) : Buffer * Result unit :=
  match pairs with
  | [] => (b, Ok ())
  | (k, v) :: pairs' =>
      match update_cache k (Some v) b with
      | Err e => (b, Err e)
      | Ok b => update_cache_all pairs' b
      end
  end.

Definition batch_get_or_else (keys : list (list Z)) (f : list (list Z) → Result (list KvPair.t))
    (b : Buffer) : Buffer * Result (list KvPair.t) :=
  let values := map (λ key, (key, get_from_mutations key b)) keys in
  let undetermined_keys :=
    map fst (List.filter (λ p : list Z * MutationValue, bool_decide (p.2 = Undetermined)) values) in
  let cached_results :=
    omap (λ p : list Z * MutationValue,
      match p.2 with Determined (Some v) => Some (KvPair.new p.1 v) | _ => None end)
      (List.filter (λ p : list Z * MutationValue, negb (bool_decide (p.2 = Undetermined))) values) in
  match f undetermined_keys with
  | Err e => (b, Err e)
  | Ok fetched_results =>
      match update_cache_all (map KvPair.into_tuple fetched_results) b with
      | (b, Err e) => (b, Err e)
      | (b, Ok _) => (b, Ok (cached_results ++ fetched_results))
      end
  end.

Definition is_del (e : BufferEntry) : bool := match e with Del => true | _ => false end.

(** The loop that overrides the fetched results using local data. *)
Definition override_with (results : list (list Z * list Z))
    (mutation_range : list (list Z * BufferEntry)) : list (list Z * list Z) :=
  foldl (λ results (p : list Z * BufferEntry),
      match p.2 with
      | Put v => binsert p.1 v results
      | Del => bremove p.1 results
      | _ => results
      end) results mutation_range.

Definition scan_and_fetch (range : BoundRange.t) (limit : Z) (do_update_cache reverse : bool)
    (f : BoundRange.t → Z → Result (list KvPair.t)) (b : Buffer) :
    Buffer * Result (list KvPair.t) :=
  let mutation_range := brange range (entry_map b) in
  let deleted_count :=
    Z.min (Z.of_nat (length (List.filter (λ p : list Z * BufferEntry, is_del p.2) mutation_range))) u32_max in
  let redundant_limit := sat_add_u32 limit deleted_count in
  match f range redundant_limit with
  | Err e => (b, Err e)
  | Ok fetched =>
      let results := bcollect (map KvPair.into_tuple fetched) in
      let results := override_with results mutation_range in
      let '(b, r) := if do_update_cache then update_cache_all results b else (b, Ok ()) in
      match r with
      | Err e => (b, Err e)
      | Ok _ =>
          let res := map (λ p : list Z * list Z, KvPair.new p.1 p.2)
                       (if reverse then rev results else results) in
          (b, Ok (take (Z.to_nat limit) res))
      end
  end.

Definition lock (key : Key) (b : Buffer) : Buffer :=
  let b := primary_key_or key b in
  match bget key (entry_map b) with
  | None => set_entries (binsert key (Locked None) (entry_map b)) b
  | Some (Cached v) => set_entries (binsert key (Locked (Some v)) (entry_map b)) b
  | Some _ => b
  end.

Definition unlock (key : Key) (b : Buffer) : Buffer :=
  match bget key (entry_map b) with
  | Some (Locked (Some v)) => set_entries (binsert key (Cached v) (entry_map b)) b
  | Some (Locked None) => set_entries (bremove key (entry_map b)) b
  | _ => b
  end.

Definition key_flags (key : Key) (b : Buffer) : KeyFlags := default KeyFlags_default (b_key_flags b !! key).

Definition update_key_flags (key : Key) (ops : list FlagsOp) (b : Buffer) : Buffer :=
  let origin := default KeyFlags_default (b_key_flags b !! key) in
  let next := foldl apply origin ops in
  if next =? KeyFlags_default then set_flags (delete key (b_key_flags b)) b
  else set_flags (<[key := next]> (b_key_flags b)) b.

Definition insert_entry (key : Key) (entry : BufferEntry) (b : Buffer) : Buffer :=
  let b := match entry with
           | Cached _ | CheckNotExist => b
           | _ => primary_key_or key b
           end in
  let b := match entry with
           | Put _ | Del | Insert _ => update_key_flags key [DelPrewriteOnly] b
           | _ => b
           end in
  set_entries (binsert key entry (entry_map b)) b.

Definition put (key : Key) (value : Value) (b : Buffer) : Buffer :=
  match bget key (entry_map b) with
  | Some (Insert _) | Some CheckNotExist =>
      set_entries (binsert key (Insert value) (entry_map b)) b
  | _ => insert_entry key (Put value) b
  end.

Definition insert (key : Key) (value : Value) (b : Buffer) : Buffer :=
  match bget key (entry_map b) with
  | Some Del => set_entries (binsert key (Put value) (entry_map b)) b
  | _ => insert_entry key (Insert value) b
  end.

Definition delete (key : Key) (b : Buffer) : Buffer :=
  let presume_key_not_exists := has_presume_key_not_exists (key_flags key b) in
  let check :=
    match bget key (entry_map b) with
    | Some (Insert _) | Some CheckNotExist => negb (is_pessimistic b)
    | Some (Put _) => negb (is_pessimistic b) && presume_key_not_exists
    | _ => false
    end in
  if check then
    update_key_flags key [SetPrewriteOnly] (set_entries (binsert key CheckNotExist (entry_map b)) b)
  else insert_entry key Del b.

Definition mutate (m : Mutation) (b : Buffer) : Buffer :=
  match m with
  | MPut key value => put key value b
  | MDelete key => delete key b
  end.

Definition set_assertion (key : Key) (assertion : Assertion) (b : Buffer) : Buffer :=
  let op := match assertion with
            | AssertExist => SetAssertExist
            | AssertNotExist => SetAssertNotExist
            | AssertNone => SetAssertNone
            end in
  update_key_flags key [op] b.

Definition assertion_for_key (key : Key) (b : Buffer) : Assertion :=
  let flags := key_flags key b in
  if has_assert_exist flags then AssertExist
  else if has_assert_not_exist flags then AssertNotExist
  else AssertNone.

(** The body shared by [to_proto_mutations] and [mutation_for_key]. *)
Definition lower_entry (level : AssertionLevel) (b : Buffer) (key : Key) (e : BufferEntry) :
    option PbMutation.t :=
  pb ← to_proto_with_key e key;
  let flags := key_flags key b in
  let op := if (PbMutation.op pb =? Op_Put) && has_presume_key_not_exists flags
            then Op_Insert else PbMutation.op pb in
  let assertion := if decide (level ≠ LevelOff) then assertion_i32 (assertion_for_key key b)
                   else PbMutation.assertion pb in
  Some (PbMutation.mk op (PbMutation.key pb) (PbMutation.value pb) assertion).

Definition to_proto_mutations (level : AssertionLevel) (b : Buffer) : list PbMutation.t :=
  omap (λ p : list Z * BufferEntry, lower_entry level b p.1 p.2) (entry_map b).

Definition mutation_for_key (key : Key) (level : AssertionLevel) (b : Buffer) : option PbMutation.t :=
  e ← bget key (entry_map b);
  lower_entry level b key e.

Definition get_write_size (b : Buffer) : nat :=
  sum_list (map (λ p : list Z * BufferEntry,
    match p.2 with
    | Put val | Insert val => length val + length p.1
    | Del => length p.1
    | _ => 0
    end) (entry_map b))%nat.

(** ** The entries after an operation *)

Definition buffer_wf (b : Buffer) : Prop := bwf (entry_map b).

Lemma entry_map_flags k ops b : entry_map (update_key_flags k ops b) = entry_map b.
Proof. unfold update_key_flags. by case_zb. Qed.
Lemma entry_map_primary k b : entry_map (primary_key_or k b) = entry_map b.
Proof. done. Qed.
Lemma entry_map_insert_entry k e b : entry_map (insert_entry k e b) = binsert k e (entry_map b).
Proof. unfold insert_entry. destruct e; simpl; by rewrite ?entry_map_flags, ?entry_map_primary. Qed.
#[export] Hint Rewrite entry_map_flags entry_map_primary entry_map_insert_entry : buffer.

Lemma view_of_entries k b b' : entry_map b' = entry_map b →
  get_from_mutations k b' = get_from_mutations k b.
Proof. unfold get_from_mutations. by intros ->. Qed.

(** Writing an entry changes the view at its key only. *)
Lemma view_binsert k k' e b b' : buffer_wf b → entry_map b' = binsert k' e (entry_map b) →
  buffer_wf b' ∧
  get_from_mutations k b' = if decide (k' = k) then get_value e else get_from_mutations k b.
Proof.
  unfold buffer_wf, get_from_mutations. intros Hwf ->. split; [by apply binsert_wf|].
  rewrite bget_insert by done. by case_decide.
Qed.

Inductive BufferOp :=
| OpPut (k : Key) (v : Value)
| OpInsert (k : Key) (v : Value)
| OpDelete (k : Key)
| OpMutate (m : Mutation)
| OpLock (k : Key)
| OpUnlock (k : Key)
| OpFlags (k : Key) (ops : list FlagsOp)
| OpAssert (k : Key) (a : Assertion)
| OpPrimary (k : Key).

Definition run_op (b : Buffer) (op : BufferOp) : Buffer :=
  match op with
  | OpPut k v => put k v b
  | OpInsert k v => insert k v b
  | OpDelete k => delete k b
  | OpMutate m => mutate m b
  | OpLock k => lock k b
  | OpUnlock k => unlock k b
  | OpFlags k ops => update_key_flags k ops b
  | OpAssert k a => set_assertion k a b
  | OpPrimary k => primary_key_or k b
  end.

(** What an operation means for the values a transaction sees. *)
Definition spec_op (op : BufferOp) (view : Key → MutationValue) (k : Key) : MutationValue :=
  match op with
  | OpPut k' v | OpInsert k' v | OpMutate (MPut k' v) =>
      if decide (k' = k) then Determined (Some v) else view k
  | OpDelete k' | OpMutate (MDelete k') => if decide (k' = k) then Determined None else view k
  | _ => view k
  end.

Lemma put_view k k' v b : buffer_wf b → buffer_wf (put k' v b) ∧
  get_from_mutations k (put k' v b) =
  if decide (k' = k) then Determined (Some v) else get_from_mutations k b.
Proof.
  intros Hwf. unfold put. destruct (bget k' (entry_map b)) as [[]|];
    (eapply (view_binsert k k' (Insert v)); [done | done]) ||
    (eapply (view_binsert k k' (Put v)); [done | apply entry_map_insert_entry]).
Qed.

Lemma delete_view k k' b : buffer_wf b → buffer_wf (delete k' b) ∧
  get_from_mutations k (delete k' b) =
  if decide (k' = k) then Determined None else get_from_mutations k b.
Proof.
  intros Hwf. unfold delete. match goal with |- context [if ?c then _ else _] => destruct c end.
  - eapply (view_binsert k k' CheckNotExist); [done | by rewrite entry_map_flags].
  - eapply (view_binsert k k' Del); [done | apply entry_map_insert_entry].
Qed.

Lemma lock_view k k' b : buffer_wf b → buffer_wf (lock k' b) ∧
  get_from_mutations k (lock k' b) = get_from_mutations k b.
Proof.
  intros Hwf. unfold lock. rewrite entry_map_primary.
  destruct (bget k' (entry_map b)) as [[v| | | | |]|] eqn:E; try done.
  - destruct (view_binsert k k' (Locked (Some v)) b
      (set_entries (binsert k' (Locked (Some v)) (entry_map b)) (primary_key_or k' b))) as [? ->]; [done..|].
    split; [done|]. case_decide; [|done]. subst. unfold get_from_mutations. by rewrite E.
  - destruct (view_binsert k k' (Locked None) b
      (set_entries (binsert k' (Locked None) (entry_map b)) (primary_key_or k' b))) as [? ->]; [done..|].
    split; [done|]. case_decide; [|done]. subst. unfold get_from_mutations. by rewrite E.
Qed.

Lemma unlock_view k k' b : buffer_wf b → buffer_wf (unlock k' b) ∧
  get_from_mutations k (unlock k' b) = get_from_mutations k b.
Proof.
  intros Hwf. unfold unlock. destruct (bget k' (entry_map b)) as [[|[v|]| | | |]|] eqn:E; try done.
  - destruct (view_binsert k k' (Cached v) b (set_entries (binsert k' (Cached v) (entry_map b)) b))
      as [? ->]; [done..|]. split; [done|]. case_decide; [|done]. subst. unfold get_from_mutations. by rewrite E.
  - split; [by apply bremove_wf|]. unfold get_from_mutations. simpl. rewrite bget_remove by done.
    case_decide; [|done]. subst. by rewrite E.
Qed.

Lemma run_op_view op b : buffer_wf b →
  buffer_wf (run_op b op) ∧
  ∀ k, get_from_mutations k (run_op b op) = spec_op op (λ k, get_from_mutations k b) k.
Proof.
  intros Hwf. destruct op as [k' v|k' v|k'|[k' v|k']|k'|k'|k' ops|k' a|k']; simpl.
  - split; [by apply (put_view k') | intros; by apply put_view].
  - unfold insert.
    assert (∀ k b', entry_map b' = binsert k' (Put v) (entry_map b) ∨
        entry_map b' = binsert k' (Insert v) (entry_map b) →
      buffer_wf b' ∧ get_from_mutations k b' =
        if decide (k' = k) then Determined (Some v) else get_from_mutations k b) as H.
    { intros k b' [E|E]; by eapply view_binsert in E. }
    assert (∀ x, (x = insert_entry k' (Insert v) b ∨ x = set_entries (binsert k' (Put v) (entry_map b)) b) →
      buffer_wf x ∧ ∀ k, get_from_mutations k x =
        if decide (k' = k) then Determined (Some v) else get_from_mutations k b) as H'.
    { intros x Hx. split; [apply (H k') | intros; apply H];
        (destruct Hx as [->| ->]; [right; apply entry_map_insert_entry | by left]). }
    apply H'. destruct (bget k' (entry_map b)) as [[]|]; auto.
  - split; [by apply (delete_view k') | intros; by apply delete_view].
  - split; [by apply (put_view k') | intros; by apply put_view].
  - split; [by apply (delete_view k') | intros; by apply delete_view].
  - split; [by apply (lock_view k') | intros; by apply lock_view].
  - split; [by apply (unlock_view k') | intros; by apply unlock_view].
  - split; [unfold buffer_wf; by rewrite entry_map_flags | intros; apply view_of_entries, entry_map_flags].
  - split; [unfold buffer_wf, set_assertion; by rewrite entry_map_flags
           | intros; apply view_of_entries, entry_map_flags].
  - done.
Qed.

(** C9: the buffer refines its abstract view.  After any sequence of puts, inserts,
    deletes, locks, unlocks and flag updates, the value the buffer determines for a key
    is the one the last write of the key left (deleted keys read as absent); locking,
    unlocking and flags never change what a read sees. *)
Theorem buffer_refines_view pessimistic ops k :
  get_from_mutations k (foldl run_op (Buffer_new pessimistic) ops) =
  foldl (λ view op, spec_op op view) (λ _, Undetermined) ops k.
Proof.
  enough (∀ b view, buffer_wf b → (∀ k, get_from_mutations k b = view k) →
    get_from_mutations k (foldl run_op b ops) = foldl (λ view op, spec_op op view) view ops k) as H.
  { apply H; [constructor | done]. }
  induction ops as [|op ops IH]; intros b view Hwf Hv; simpl; [done|].
  destruct (run_op_view op b Hwf) as [Hwf' Hv']. apply IH; [done|].
  intros k0. rewrite Hv'. destruct op as [| | |[]| | | | |]; simpl; by rewrite ?Hv.
Qed.

(** ** Reads of a snapshot *)

(** The entries agree with a snapshot: what was read from it is what it holds, and
    keys presumed absent are absent. *)
Definition coherent (snap : list (list Z * list Z)) (b : Buffer) : Prop :=
  ∀ k e, bget k (entry_map b) = Some e →
    match e with
    | Cached v | Locked (Some v) => v = bget k snap
    | Insert _ | CheckNotExist => bget k snap = None
    | _ => True
    end.

(** What the transaction reads: its own writes first, then the snapshot. *)
Definition snapshot_read (snap : list (list Z * list Z)) (b : Buffer) (k : Key) : option Value :=
  match get_from_mutations k b with Determined v => v | Undetermined => bget k snap end.

Lemma update_cache_undetermined snap k b : buffer_wf b → coherent snap b →
  get_from_mutations k b = Undetermined →
  ∃ b', update_cache k (bget k snap) b = Ok b' ∧ buffer_wf b' ∧ coherent snap b' ∧
    ∀ k', snapshot_read snap b' k' = snapshot_read snap b k'.
Proof.
  intros Hwf Hco Hu. unfold get_from_mutations in Hu. unfold update_cache.
  destruct (bget k (entry_map b)) as [e|] eqn:E.
  - destruct e as [|[|]| | | |]; try done. eexists. split; [done|].
    destruct (view_binsert k k (Locked (Some (bget k snap))) b (set_entries
      (binsert k (Locked (Some (bget k snap))) (entry_map b)) b)) as [Hwf' _]; [done..|].
    split; [done|]. split.
    + intros k' e. simpl. rewrite bget_insert by done. case_decide; [|by apply Hco].
      intros [= <-]. by subst.
    + intros k'. unfold snapshot_read, get_from_mutations. simpl. rewrite bget_insert by done.
      case_decide; [subst; by rewrite E | done].
  - eexists. split; [done|].
    destruct (view_binsert k k (Cached (bget k snap)) b (set_entries
      (binsert k (Cached (bget k snap)) (entry_map b)) b)) as [Hwf' _]; [done..|].
    split; [done|]. split.
    + intros k' e. simpl. rewrite bget_insert by done. case_decide; [|by apply Hco].
      intros [= <-]. by subst.
    + intros k'. unfold snapshot_read, get_from_mutations. simpl. rewrite bget_insert by done.
      case_decide; [subst; by rewrite E | done].
Qed.

(** Caching the value a read already sees is accepted. *)
Lemma update_cache_visible snap k v b : buffer_wf b → coherent snap b →
  snapshot_read snap b k = v →
  ∃ b', update_cache k v b = Ok b' ∧ buffer_wf b' ∧ coherent snap b' ∧
    ∀ k', snapshot_read snap b' k' = snapshot_read snap b k'.
Proof.
  intros Hwf Hco <-. destruct (get_from_mutations k b) eqn:E.
  - exists b. split_and!; [|done..]. unfold snapshot_read. rewrite E.
    unfold get_from_mutations in E. unfold update_cache.
    destruct (bget k (entry_map b)) as [[|[|]| | | |]|]; try done; simpl in E; simplify_eq;
      by rewrite decide_False by (intros H; by apply H).
  - unfold snapshot_read at 1. rewrite E. by apply update_cache_undetermined.
Qed.

(** Reads are repeatable.  With TiKV answering from one snapshot and a buffer
    coherent with it, [get_or_else] returns the transaction's own write if there is
    one and the snapshot's value otherwise, never a cache mismatch, and caching the
    answer changes no later read and keeps the buffer coherent. *)
Theorem get_or_else_repeatable snap k b : buffer_wf b → coherent snap b →
  let '(b', r) := get_or_else k (λ k, Ok (bget k snap)) b in
  r = Ok (snapshot_read snap b k) ∧ buffer_wf b' ∧ coherent snap b' ∧
  ∀ k', snapshot_read snap b' k' = snapshot_read snap b k'.
Proof.
  intros Hwf Hco. unfold get_or_else. destruct (get_from_mutations k b) eqn:E.
  - split_and!; [|done..]. unfold snapshot_read. by rewrite E.
  - destruct (update_cache_undetermined snap k b Hwf Hco E) as (b' & -> & ? & ? & ?).
    split_and!; [|done..]. unfold snapshot_read. by rewrite E.
Qed.

Lemma get_or_else_repeatable_witness :
  let '(b', r) := get_or_else [1] (λ k, Ok (bget k [([1], [7])])) (put [2] [9] (Buffer_new false)) in
  r = Ok (snapshot_read [([1], [7])] (put [2] [9] (Buffer_new false)) [1]) ∧ buffer_wf b' ∧
  coherent [([1], [7])] b' ∧
  ∀ k', snapshot_read [([1], [7])] b' k' =
        snapshot_read [([1], [7])] (put [2] [9] (Buffer_new false)) k'.
Proof.
  apply (get_or_else_repeatable [([1], [7])] [1] (put [2] [9] (Buffer_new false))).
  - unfold buffer_wf. vm_compute. repeat constructor.
  - intros k e H. change (entry_map (put [2] [9] (Buffer_new false))) with [([2], Put [9])] in H.
    simpl in H. by destruct (key_cmp k [2]); simplify_eq.
Defined.

Lemma update_cache_all_visible snap pairs b : buffer_wf b → coherent snap b →
  Forall (λ p : list Z * list Z, snapshot_read snap b p.1 = Some p.2) pairs →
  ∃ b', update_cache_all pairs b = (b', Ok ()) ∧ buffer_wf b' ∧ coherent snap b' ∧
    ∀ k', snapshot_read snap b' k' = snapshot_read snap b k'.
Proof.
  intros Hwf Hco HF. revert b Hwf Hco HF. induction pairs as [|[k v] pairs IH]; intros b Hwf Hco HF; simpl.
  { by exists b. }
  apply Forall_cons in HF as [Hk HF]. simpl in Hk.
  destruct (update_cache_visible snap k (Some v) b Hwf Hco Hk) as (b1 & -> & Hwf1 & Hco1 & Hr1).
  destruct (IH b1 Hwf1 Hco1) as (b2 & -> & ? & ? & Hr2).
  { eapply Forall_impl; [exact HF|]. intros p. by rewrite Hr1. }
  exists b2. split_and!; [done..|]. intros k'. by rewrite Hr2, Hr1.
Qed.

Lemma elem_of_keyed_filter {A B} (h : A → B) (g : A * B → bool) (l : list A) x :
  x ∈ map fst (List.filter g (map (λ a, (a, h a)) l)) ↔ x ∈ l ∧ g (x, h x) = true.
Proof.
  rewrite list_elem_of_In, in_map_iff, list_elem_of_In. split.
  - intros ([a b] & <- & [(a' & [= -> <-] & Hin)%in_map_iff Hg]%filter_In). done.
  - intros [Hin Hg]. exists (x, h x). split; [done|]. apply filter_In. split; [|done].
    apply in_map_iff. by exists x.
Qed.

Lemma elem_of_keyed_omap {A B C} (h : A → B) (g : A * B → bool) (f : A * B → option C) (l : list A) y :
  y ∈ omap f (List.filter g (map (λ a, (a, h a)) l)) ↔
  ∃ x, x ∈ l ∧ g (x, h x) = true ∧ f (x, h x) = Some y.
Proof.
  rewrite list_elem_of_omap. split.
  - intros ([a b] & Hin & Hf). rewrite list_elem_of_In in Hin.
    apply filter_In in Hin as [(a' & [= -> <-] & Hin)%in_map_iff Hg].
    exists a. by rewrite list_elem_of_In.
  - intros (x & Hin & Hg & Hf). exists (x, h x). split; [|done]. apply list_elem_of_In, filter_In.
    split; [|done]. apply in_map_iff. exists x. by rewrite <- list_elem_of_In.
Qed.

(** A batch read is the batch of single reads.  When TiKV answers from the
    snapshot, [batch_get_or_else] returns exactly the requested keys that have a
    value for the transaction, with that value, fetching only what the buffer does
    not determine, and leaves every later read unchanged. *)
Theorem batch_get_or_else_correct snap keys f b : buffer_wf b → coherent snap b →
  (∀ ks, ∃ l, f ks = Ok l ∧
     ∀ k v, (k, v) ∈ map KvPair.into_tuple l ↔ k ∈ ks ∧ bget k snap = Some v) →
  ∃ b' out, batch_get_or_else keys f b = (b', Ok out) ∧
    (∀ k v, (k, v) ∈ map KvPair.into_tuple out ↔ k ∈ keys ∧ snapshot_read snap b k = Some v) ∧
    buffer_wf b' ∧ coherent snap b' ∧ ∀ k', snapshot_read snap b' k' = snapshot_read snap b k'.
Proof.
  intros Hwf Hco Hf. unfold batch_get_or_else.
  set (values := map (λ key, (key, get_from_mutations key b)) keys).
  set (und := map fst _). destruct (Hf und) as (l & -> & Hl).
  assert (∀ k, k ∈ und ↔ k ∈ keys ∧ get_from_mutations k b = Undetermined) as Hund.
  { intros k. unfold und, values. rewrite elem_of_keyed_filter. simpl. by rewrite bool_decide_eq_true. }
  destruct (update_cache_all_visible snap (map KvPair.into_tuple l) b Hwf Hco) as (b' & -> & ? & ? & ?).
  { apply Forall_forall. intros [k v] [Hk Hv]%Hl. apply Hund in Hk as [_ Hk]. simpl.
    unfold snapshot_read. by rewrite Hk. }
  do 2 eexists. split; [done|]. split; [|done]. intros k v.
  rewrite map_app, elem_of_app, Hl, Hund. unfold snapshot_read.
  assert ((k, v) ∈ map KvPair.into_tuple (omap (λ p : list Z * MutationValue,
      match p.2 with Determined (Some v0) => Some (KvPair.new p.1 v0) | _ => None end)
      (List.filter (λ p : list Z * MutationValue, negb (bool_decide (p.2 = Undetermined))) values)) ↔
    k ∈ keys ∧ get_from_mutations k b = Determined (Some v)) as ->.
  { rewrite (list_elem_of_fmap KvPair.into_tuple). unfold values. split.
    - intros (p & Hp & (k0 & Hin & _ & Hm)%elem_of_keyed_omap). simpl in Hm.
      destruct (get_from_mutations k0 b) as [[v0|]|] eqn:E; try done. injection Hm as <-.
      injection Hp as -> ->. done.
    - intros [Hin E]. exists (KvPair.new k v). split; [done|].
      apply elem_of_keyed_omap. exists k. simpl. by rewrite E. }
  destruct (get_from_mutations k b) as [[v0|]|]; split; intuition congruence.
Qed.

Lemma batch_get_or_else_correct_witness : ∃ b' out,
  batch_get_or_else [[1]; [2]] (λ ks, Ok (omap (λ k, KvPair.new k <$> bget k [([1], [7])]) ks))
    (Buffer_new false) = (b', Ok out) ∧ coherent [([1], [7])] b'.
Proof.
  destruct (batch_get_or_else_correct [([1], [7])] [[1]; [2]]
    (λ ks, Ok (omap (λ k, KvPair.new k <$> bget k [([1], [7])]) ks)) (Buffer_new false))
    as (b' & out & E & _ & _ & Hc & _).
  - constructor.
  - by intros k e.
  - intros ks. eexists. split; [done|]. intros k v.
    rewrite (list_elem_of_fmap KvPair.into_tuple). setoid_rewrite list_elem_of_omap. split.
    + intros (p & Hp & x & Hx & Hm). destruct (bget x [([1], [7])]) as [y|] eqn:Ex; [|done].
      simpl in Hm. injection Hm as <-. by injection Hp as -> ->.
    + intros [Hk Hb]. exists (KvPair.new k v). split; [done|]. exists k. by rewrite Hb.
  - by exists b', out.
Defined.

(** ** Scans *)

Lemma override_wf X muts : bwf X → bwf (override_with X muts).
Proof.
  unfold override_with. revert X. induction muts as [|[k e] muts IH]; intros X HX; simpl; [done|].
  apply IH. destruct e; simpl; auto using binsert_wf, bremove_wf.
Qed.

Lemma bget_override k X muts : bwf X → bwf muts →
  bget k (override_with X muts) =
  match bget k muts with Some (Put v) => Some v | Some Del => None | _ => bget k X end.
Proof.
  unfold override_with. revert X. induction muts as [|[k0 e] muts IH]; intros X HX Hm; simpl; [done|].
  apply bwf_cons in Hm as [Hlt Hm]. rewrite IH; [|destruct e; simpl; auto using binsert_wf, bremove_wf|done].
  destruct (KeyOrder.compare_spec k k0) as [->|Hk|Hk].
  - rewrite (bget_lt_all k0 muts) by done. destruct e; simpl; try done.
    + by rewrite bget_insert, decide_True.
    + by rewrite bget_remove, decide_True.
  - rewrite (bget_lt_all k muts); [|by eapply Forall_lt_trans].
    assert (k0 ≠ k) by (intros ->; by apply KeyOrder.lt_irrefl in Hk).
    destruct e; simpl; try done; [by rewrite bget_insert, decide_False | by rewrite bget_remove, decide_False].
  - assert (k0 ≠ k) by (intros ->; by apply KeyOrder.lt_irrefl in Hk).
    assert (bget k match e with Put v => binsert k0 v X | Del => bremove k0 X | _ => X end = bget k X) as ->.
    { destruct e; simpl; try done; [by rewrite bget_insert, decide_False | by rewrite bget_remove, decide_False]. }
    done.
Qed.

(** How many entries satisfy a predicate on keys, and how the overlay changes it. *)
Definition count {V} (P : Key → bool) (L : list (list Z * V)) : nat :=
  length (List.filter (λ p, P p.1) L).

Lemma count_binsert {V} (P : Key → bool) k (v : V) L : (count P L ≤ count P (binsert k v L))%nat.
Proof.
  unfold count. induction L as [|[k' v'] L IH]; simpl; [lia|].
  destruct (KeyOrder.compare_spec k k') as [->|H|H]; simpl; repeat case_match; simpl; lia.
Qed.
Lemma count_bremove {V} (P : Key → bool) k (L : list (list Z * V)) :
  (count P L ≤ S (count P (bremove k L)))%nat.
Proof.
  unfold count. induction L as [|[k' v'] L IH]; simpl; [lia|].
  destruct (KeyOrder.compare_spec k k') as [->|H|H]; simpl; repeat case_match; simpl; lia.
Qed.

Lemma count_override P X muts :
  (count P X ≤ count P (override_with X muts) +
     length (List.filter (λ p : list Z * BufferEntry, is_del p.2) muts))%nat.
Proof.
  unfold override_with. revert X. induction muts as [|[k e] muts IH]; intros X; simpl; [lia|].
  destruct e; simpl; try apply IH.
  - pose proof (count_binsert P k value X). specialize (IH (binsert k value X)). lia.
  - pose proof (count_bremove P k X). specialize (IH (bremove k X)). lia.
Qed.

(** A downward closed predicate cuts a sorted map into a prefix and a suffix. *)
Lemma filter_prefix {V} (P : Key → bool) (L : list (list Z * V)) : bwf L →
  (∀ a b, key_lt a b → P b = true → P a = true) →
  L = List.filter (λ p, P p.1) L ++ List.filter (λ p, negb (P p.1)) L.
Proof.
  intros HL HP. induction L as [|[k v] L IH]; simpl; [done|].
  apply bwf_cons in HL as [Hlt HL]. destruct (P k) eqn:E; simpl; [f_equal; by apply IH|].
  assert (List.filter (λ p, P p.1) L = []) as ->.
  { clear IH HL. induction L as [|[k' v'] L IH]; simpl; [done|].
    apply Forall_cons in Hlt as [H1 H2]. simpl in H1. destruct (P k') eqn:E'; [|by apply IH].
    exfalso. by rewrite (HP k k') in E. }
  simpl. f_equal. clear IH HL. induction L as [|[k' v'] L IH]; simpl; [done|].
  apply Forall_cons in Hlt as [H1 H2]. simpl in H1. destruct (P k') eqn:E'.
  - exfalso. by rewrite (HP k k') in E.
  - simpl. f_equal. by apply IH.
Qed.

Lemma bget_bcollect {V} (l : list (list Z * V)) k v : NoDup (map fst l) →
  bget k (bcollect l) = Some v ↔ (k, v) ∈ l.
Proof.
  intros Hnd. unfold bcollect. rewrite bget_foldl_insert; [|constructor|done]. split.
  - destruct (list_find _ l) as [[i p]|] eqn:E; [|done]. intros [= <-].
    apply list_find_Some in E as (Hl & <- & _). destruct p. by eapply list_elem_of_lookup_2.
  - intros Hin. destruct (list_find (λ p : list Z * V, p.1 = k) l) as [[i [k' v']]|] eqn:E.
    + apply list_find_Some in E as (Hl & ? & _). simpl in *. subst k'. f_equal.
      apply list_elem_of_lookup_1 in Hin as [j Hj].
      assert (i = j) as <-; [|by rewrite Hl in Hj; injection Hj].
      eapply (NoDup_lookup (map fst l)); [done| |];
        change (map fst l) with (fst <$> l); rewrite list_lookup_fmap; [by rewrite Hl | by rewrite Hj].
    + apply list_find_None in E. rewrite Forall_forall in E. by destruct (E _ Hin).
Qed.

Lemma bwf_NoDup {V} (m : list (list Z * V)) : bwf m → NoDup (map fst m).
Proof.
  induction m as [|[k v] m IH]; simpl; intros Hm; [constructor|]. apply bwf_cons in Hm as [Hlt Hm].
  apply NoDup_cons. split; [|by apply IH]. intros Hin. apply list_elem_of_fmap in Hin as (p & -> & Hp).
  rewrite Forall_forall in Hlt. specialize (Hlt _ Hp). by apply KeyOrder.lt_irrefl in Hlt.
Qed.

(** Collecting the entries of a sorted map in any order gives the map back. *)
Lemma bcollect_perm {V} (l m : list (list Z * V)) : bwf m → Permutation l m → bcollect l = m.
Proof.
  intros Hm HP. apply bwf_ext; [apply bcollect_wf | done |]. intros k. apply option_eq. intros v.
  rewrite bget_bcollect, bget_Some_In; [by rewrite HP | done |].
  rewrite (Permutation_map fst HP). by apply bwf_NoDup.
Qed.

(** Cutting a sorted map at an entry. *)
Lemma bwf_middle {V} (A B : list (list Z * V)) a : bwf (A ++ a :: B) →
  Forall (λ p, key_lt p.1 a.1) A ∧ Forall (λ p, key_lt a.1 p.1) B.
Proof.
  unfold bwf. rewrite map_app. simpl. intros HS.
  apply stdpp.sorting.StronglySorted_app in HS as (H1 & _ & H3). apply StronglySorted_inv in H3 as [_ H3].
  split; [|by rewrite Forall_map in H3]. apply Forall_forall. intros p Hp.
  apply H1; [by apply (list_elem_of_fmap_2 fst) | by apply elem_of_cons; left].
Qed.

Lemma cut_before {V} (S : list (list Z * V)) i a : bwf S → S !! i = Some a →
  take i S = List.filter (λ p, key_ltb p.1 a.1) S ∧
  drop (Datatypes.S i) S = List.filter (λ p, key_ltb a.1 p.1) S.
Proof.
  intros HS Ha. pose proof (take_drop_middle S i a Ha) as E.
  assert (bwf (take i S ++ a :: drop (Datatypes.S i) S)) as HS' by (by rewrite E).
  destruct (bwf_middle _ _ _ HS') as [H1 H2].
  assert (key_ltb a.1 a.1 = false) as Ha0 by (apply bool_decide_eq_false, KeyOrder.lt_irrefl).
  rewrite <- E at 2 4. rewrite !List.filter_app. simpl. rewrite Ha0. split.
  - rewrite filter_all, filter_none, app_nil_r; [done| |].
    + eapply Forall_impl; [exact H2|]. intros p Hp. apply bool_decide_eq_false. intros Hc.
      simpl in Hp. key_order.
    + eapply Forall_impl; [exact H1|]. intros p Hp. by apply bool_decide_eq_true.
  - rewrite filter_none, filter_all; [done| |].
    + eapply Forall_impl; [exact H2|]. intros p Hp. by apply bool_decide_eq_true.
    + eapply Forall_impl; [exact H1|]. intros p Hp. apply bool_decide_eq_false. intros Hc.
      simpl in Hp. key_order.
Qed.

(** Entries collected from a sorted map, in any order and with repetitions, are these entries. *)
Lemma bget_foldl_within (S l : list (list Z * list Z)) k v : bwf S → ∀ m, bwf m →
  (∀ p, p ∈ l → p ∈ S) → (∀ k v, bget k m = Some v → (k, v) ∈ S) →
  bget k (foldl (λ m p, binsert p.1 p.2 m) m l) = Some v ↔ bget k m = Some v ∨ (k, v) ∈ l.
Proof.
  intros HS. induction l as [|[k' v'] l IH]; intros m Hm Hl HmS; cbn [foldl].
  { rewrite elem_of_nil. tauto. }
  assert ((k', v') ∈ S) as Hk' by (apply Hl; by left).
  rewrite IH; [|by apply binsert_wf | intros; apply Hl; by right|].
  - rewrite bget_insert, elem_of_cons by done. cbn [fst snd]. destruct (decide (k' = k)) as [->|Hne].
    2: { split; [by intros [?|?]; auto|]. intros [?|[[= <- _]|?]]; by auto. }
    split; [intros [[= ->]|?]; auto|]. intros [E|[[= ->]|?]]; [|by left | by right].
    left. apply HmS in E. apply bget_Some_In in E, Hk'; [|done..]. congruence.
  - intros k0 v0. rewrite bget_insert by done. cbn [fst snd]. destruct (decide (k' = k0)) as [->|]; [by intros [= <-] | apply HmS].
Qed.

Lemma bget_bcollect_within (S l : list (list Z * list Z)) k v : bwf S → (∀ p, p ∈ l → p ∈ S) →
  bget k (bcollect l) = Some v ↔ (k, v) ∈ l.
Proof. intros HS Hl. unfold bcollect. rewrite (bget_foldl_within S); [naive_solver | done | constructor | done | done]. Qed.

(** What a fetch of [n] entries must return: entries of the range, in any order, and among them the first [n] in scan order.  A
    request over several regions returns up to [n] entries of each. *)
Definition enough (n : nat) (reverse : bool) (S l : list (list Z * list Z)) : Prop :=
  (∀ p, p ∈ l → p ∈ S) ∧ ∀ p, p ∈ take n (if reverse then rev S else S) → p ∈ l.

Lemma enough_exact n reverse (S : list (list Z * list Z)) : enough n reverse S (take n (if reverse then rev S else S)).
Proof.
  split; [|done]. intros p Hp. assert (p ∈ if reverse then rev S else S) as H
    by (rewrite <- (take_drop n (if reverse then rev S else S)), elem_of_app; by left).
  destruct reverse; [|done]. by rewrite list_elem_of_In, <- in_rev, <- list_elem_of_In in H.
Qed.

(** The first entries, in scan order, are selected by a one-sided key predicate. *)
Lemma first_cut (S : list (list Z * list Z)) (n : nat) (reverse : bool) : bwf S → (n < length S)%nat →
  ∃ P, (∀ p, p ∈ List.filter (λ p, P p.1) S → p ∈ take n (if reverse then rev S else S)) ∧
    length (List.filter (λ p, P p.1) S) = n ∧
    ∀ a b, key_lt a b → if reverse then P a = true → P b = true else P b = true → P a = true.
Proof.
  intros HS Hgt. destruct reverse.
  - destruct (lookup_lt_is_Some_2 S (length S - Datatypes.S n)) as [a Ha]; [lia|].
    destruct (cut_before S _ a HS Ha) as [_ Ed].
    replace (Datatypes.S (length S - Datatypes.S n)) with (length S - n)%nat in Ed by lia.
    exists (key_ltb a.1). rewrite <- Ed. split_and!; [| rewrite length_drop; lia |].
    + intros p Hp. rewrite firstn_rev. by rewrite list_elem_of_In, <- in_rev, <- list_elem_of_In.
    + intros x y Hxy Hx. apply bool_decide_eq_true in Hx. apply bool_decide_eq_true. key_order.
  - destruct (lookup_lt_is_Some_2 S n) as [a Ha]; [lia|].
    destruct (cut_before S _ a HS Ha) as [Et _]. exists (λ k, key_ltb k a.1). rewrite <- Et.
    split_and!; [done | rewrite length_take; lia |].
    intros x y Hxy Hx. apply bool_decide_eq_true in Hx. apply bool_decide_eq_true. key_order.
Qed.

(** The entries a fetch returns, as a sorted map: entries of the range, and all of them or at least those a
    one-sided key predicate selects, as many as were asked for. *)
Lemma fetch_cut (S l : list (list Z * list Z)) (n : nat) (reverse : bool) : bwf S → enough n reverse S l →
  (∀ k v, bget k (bcollect l) = Some v → bget k S = Some v) ∧
  (bcollect l = S ∨ ∃ P, (∀ k, P k = true → bget k (bcollect l) = bget k S) ∧ length (List.filter (λ p, P p.1) S) = n ∧
       ∀ a b, key_lt a b → if reverse then P a = true → P b = true else P b = true → P a = true).
Proof.
  intros HS [Hsub Hfirst].
  assert (∀ k v, bget k (bcollect l) = Some v → bget k S = Some v) as Hin.
  { intros k v. rewrite (bget_bcollect_within S), bget_Some_In by done. apply Hsub. }
  split; [done|]. destruct (decide (length S ≤ n)%nat) as [Hle|Hgt].
  - left. apply bwf_ext; [apply bcollect_wf | done|]. intros k. apply option_eq. intros v. split; [apply Hin|].
    rewrite (bget_bcollect_within S), bget_Some_In by done. intros Hk. apply Hfirst. destruct reverse.
    + rewrite take_ge by (rewrite length_rev; lia). by rewrite list_elem_of_In, <- in_rev, <- list_elem_of_In.
    + by rewrite take_ge by lia.
  - right. destruct (first_cut S n reverse HS) as (P & HP & Hlen & Hside); [lia|]. exists P. split_and!; [|done..].
    intros k Hk. apply option_eq. intros v. split; [apply Hin|]. rewrite (bget_bcollect_within S), bget_Some_In by done.
    intros HkS. apply Hfirst, HP. rewrite list_elem_of_In, filter_In, <- list_elem_of_In. done.
Qed.

(** The first [limit] entries, in scan order, only depend on the entries a
    one-sided predicate selects, if these are enough. *)
Lemma take_scan_order (P : Key → bool) (L : list (list Z * list Z)) (n : nat) (reverse : bool) :
  bwf L → (∀ a b, key_lt a b → if reverse then P a = true → P b = true else P b = true → P a = true) →
  (n ≤ count P L)%nat →
  take n (if reverse then rev L else L) =
  take n (if reverse then rev (List.filter (λ p, P p.1) L) else List.filter (λ p, P p.1) L).
Proof.
  intros HL HP Hn. unfold count in Hn. destruct reverse.
  - rewrite (filter_prefix (λ k, negb (P k)) L HL) at 1.
    2: { intros a b Hab. specialize (HP a b Hab). destruct (P a), (P b); simpl in *; intuition congruence. }
    rewrite rev_app_distr.
    assert (List.filter (λ p : list Z * list Z, negb (negb (P p.1))) L = List.filter (λ p, P p.1) L) as ->.
    { apply filter_ext. intros. apply negb_involutive. }
    apply take_app_le. by rewrite length_rev.
  - rewrite (filter_prefix P L HL HP) at 1. by apply take_app_le.
Qed.

(** The values a scan sees in a range: the snapshot overlaid with local puts and
    deletes. *)
Definition scan_view (snap : list (list Z * list Z)) (b : Buffer) (range : BoundRange.t) :
    list (list Z * list Z) :=
  override_with (brange range snap) (brange range (entry_map b)).

Lemma scan_view_get snap b range k : bwf snap → buffer_wf b →
  bget k (scan_view snap b range) =
  if BoundRange.contains range k then
    match bget k (entry_map b) with
    | Some (Put v) => Some v
    | Some Del => None
    | _ => bget k snap
    end
  else None.
Proof.
  intros Hs Hb. unfold scan_view. rewrite bget_override by (by apply bfilter_wf).
  unfold brange. rewrite !bget_filter by done. simpl.
  destruct (BoundRange.contains range k), (bget k (entry_map b)) as [[]|], (bget k snap); done.
Qed.

Lemma overlay_take snap b range (limit : nat) (reverse : bool) l :
  bwf snap → buffer_wf b →
  let muts := brange range (entry_map b) in
  let d := length (List.filter (λ p : list Z * BufferEntry, is_del p.2) muts) in
  enough (limit + d) reverse (brange range snap) l →
  take limit (let R := override_with (bcollect l) muts in if reverse then rev R else R) =
  take limit (let M := scan_view snap b range in if reverse then rev M else M) ∧
  ∀ k v, bget k (override_with (bcollect l) muts) = Some v → bget k (scan_view snap b range) = Some v.
Proof.
  intros Hs Hb muts d Hl. set (S := brange range snap) in *. assert (bwf S) as HS by (by apply bfilter_wf).
  assert (bwf muts) as Hm by (by apply bfilter_wf). pose proof (bcollect_wf l) as HT.
  destruct (fetch_cut S l (limit + d) reverse HS Hl) as [Hin Hcut]. set (T := bcollect l) in *. unfold scan_view. fold S muts.
  split.
  - destruct Hcut as [->|(P & HTget & Hlen & HP)]; [done|].
    assert (List.filter (λ p, P p.1) T = List.filter (λ p, P p.1) S) as ET.
    { apply bwf_ext; [by apply bfilter_wf..|]. intros k. rewrite !bget_filter by done. cbn.
      destruct (P k) eqn:Ek; [by rewrite HTget|]. by destruct (bget k T), (bget k S). }
    assert (List.filter (λ p, P p.1) (override_with T muts) =
            List.filter (λ p, P p.1) (override_with S muts)) as EP.
    { apply bwf_ext; [by apply bfilter_wf, override_wf..|]. intros k.
      rewrite !bget_filter by (by apply override_wf). rewrite !bget_override by done. cbn.
      destruct (P k) eqn:Ek; [by rewrite HTget|]. by repeat case_match. }
    pose proof (count_override P T muts) as Hco. fold d in Hco. unfold count in Hco at 1. rewrite ET, Hlen in Hco.
    assert (limit ≤ count P (override_with T muts))%nat as H1 by lia.
    assert (limit ≤ count P (override_with S muts))%nat as H2 by (unfold count in *; by rewrite <- EP).
    rewrite (take_scan_order P _ limit reverse (override_wf T muts HT) HP H1).
    rewrite (take_scan_order P _ limit reverse (override_wf S muts HS) HP H2). by rewrite EP.
  - intros k v. rewrite !bget_override by done. destruct (bget k muts) as [[]|]; try done; apply Hin.
Qed.

(** The lemma behind the theorem below and the scans over regions (ScanPlans.v). *)
Lemma scan_and_fetch_exact snap b range limit (reverse do_update : bool) f :
  bwf snap → buffer_wf b → coherent snap b → 0 ≤ limit →
  limit + Z.of_nat (length (List.filter (λ p : list Z * BufferEntry, is_del p.2)
                              (brange range (entry_map b)))) ≤ u32_max →
  (let n := limit + Z.of_nat (length (List.filter (λ p : list Z * BufferEntry, is_del p.2) (brange range (entry_map b)))) in
   ∃ l, f range n = Ok l ∧ enough (Z.to_nat n) reverse (brange range snap) (map KvPair.into_tuple l)) →
  ∃ b', scan_and_fetch range limit do_update reverse f b =
      (b', Ok (map (λ p, KvPair.new p.1 p.2)
                 (take (Z.to_nat limit)
                    (if reverse then rev (scan_view snap b range) else scan_view snap b range)))) ∧
    coherent snap b' ∧ ∀ k, snapshot_read snap b' k = snapshot_read snap b k.
Proof.
  intros Hs Hb Hco Hl Hmax Hf. unfold scan_and_fetch.
  set (d := length _) in *. rewrite (Z.min_l (Z.of_nat d)) by lia.
  unfold sat_add_u32. rewrite (Z.min_l (limit + Z.of_nat d)) by done.
  destruct Hf as (l & -> & Hl').
  replace (Z.to_nat (limit + Z.of_nat d)) with (Z.to_nat limit + d)%nat in Hl' by lia.
  destruct (overlay_take snap b range (Z.to_nat limit) reverse _ Hs Hb Hl') as [Et Hv]. set (R := override_with _ _) in *. cbv zeta in Et.
  assert (∃ b', (if do_update then update_cache_all R b else (b, Ok ())) = (b', Ok ()) ∧
    coherent snap b' ∧ ∀ k, snapshot_read snap b' k = snapshot_read snap b k) as (b' & -> & Hc' & Hr').
  { destruct do_update; [|by exists b].
    destruct (update_cache_all_visible snap R b Hb Hco) as (b' & -> & _ & ? & ?); [|by exists b'].
    apply Forall_forall. intros [k v] Hin. simpl. apply bget_Some_In in Hin.
    2: { apply override_wf, bcollect_wf. }
    apply Hv in Hin. rewrite scan_view_get in Hin by done.
    destruct (BoundRange.contains range k); [|done]. unfold snapshot_read, get_from_mutations.
    destruct (bget k (entry_map b)) as [e|] eqn:E; [|done].
    pose proof (Hco k e E) as He. destruct e as [|[|]| | | |]; simpl in *; congruence. }
  exists b'. split; [|done]. f_equal. f_equal. rewrite firstn_map. f_equal. exact Et.
Qed.

(** C10: a scan is exact although it fetches a bounded prefix.  When a
    fetch of [n] entries returns entries of the range, in any order, with the first [n] entries in scan order among them,
    as the responses of several regions do, the scan returns the first [limit] entries, in scan order, of the snapshot
    overlaid with the transaction's puts and deletes: fetching [limit] plus the number of
    local deletions always suffices.  With a coherent buffer, filling the cache does not fail
    and keeps the buffer coherent. *)
Theorem scan_and_fetch_correct snap b range limit (reverse do_update : bool) f :
  bwf snap → buffer_wf b → coherent snap b → 0 ≤ limit →
  limit + Z.of_nat (length (List.filter (λ p : list Z * BufferEntry, is_del p.2)
                              (brange range (entry_map b)))) ≤ u32_max →
  (∀ n, ∃ l, f range n = Ok l ∧ enough (Z.to_nat n) reverse (brange range snap) (map KvPair.into_tuple l)) →
  ∃ b', scan_and_fetch range limit do_update reverse f b =
      (b', Ok (map (λ p, KvPair.new p.1 p.2)
                 (take (Z.to_nat limit)
                    (if reverse then rev (scan_view snap b range) else scan_view snap b range)))) ∧
    coherent snap b' ∧ ∀ k, snapshot_read snap b' k = snapshot_read snap b k.
Proof. intros Hs Hb Hco Hl Hmax Hf. by apply scan_and_fetch_exact; [.. | apply Hf]. Qed.

Definition sample_snap : list (list Z * list Z) := [([1], [7]); ([3], [8])].
Definition sample_buffer : Buffer := delete [1] (put [2] [9] (Buffer_new false)).

Lemma scan_and_fetch_correct_witness : ∃ b',
  scan_and_fetch BoundRange.from_range_full 1 true false
    (λ r n, Ok (map (λ p, KvPair.new p.1 p.2) (take (Z.to_nat n) (brange r sample_snap)))) sample_buffer
  = (b', Ok [KvPair.new [2] [9]]).
Proof.
  destruct (scan_and_fetch_correct sample_snap sample_buffer BoundRange.from_range_full 1 false true
    (λ r n, Ok (map (λ p, KvPair.new p.1 p.2) (take (Z.to_nat n) (brange r sample_snap)))))
    as (b' & E & _).
  - vm_compute. repeat constructor.
  - unfold buffer_wf. vm_compute. repeat constructor.
  - intros k e H. change (entry_map sample_buffer) with [([1], Del); ([2], Put [9])] in H.
    apply bget_Some_In in H; [|vm_compute; repeat constructor].
    apply elem_of_cons in H as [[= -> ->]|[[= -> ->]|[]%elem_of_nil]%elem_of_cons]; done.
  - lia.
  - vm_compute. done.
  - intros n. eexists. split; [done|]. rewrite map_map. unfold KvPair.into_tuple. simpl.
    rewrite (map_ext _ id) by (by intros []). rewrite map_id. apply (enough_exact _ false).
  - exists b'. rewrite E. vm_compute. reflexivity.
Defined.

(** ** Mutations *)

Lemma lower_entry_key level b k e m : lower_entry level b k e = Some m → PbMutation.key m = k.
Proof. unfold lower_entry. destruct e; simpl; by intros [= <-]. Qed.

Lemma lower_entry_value level b k e m : lower_entry level b k e = Some m →
  (PbMutation.op m = Op_Put ∨ PbMutation.op m = Op_Insert → get_value e = Determined (Some (PbMutation.value m))) ∧
  (PbMutation.op m = Op_Del ∨ PbMutation.op m = Op_CheckNotExists → get_value e = Determined None).
Proof.
  unfold lower_entry. destruct e; simpl; intros [= <-]; simpl;
    unfold Op_Put, Op_Insert, Op_Del, Op_Lock, Op_CheckNotExists in *;
    repeat case_match; split; intros [?|?]; try done; lia.
Qed.

(** The mutations of a commit are determined key by key.  [to_proto_mutations]
    lists, in strictly ascending key order, exactly the mutations [mutation_for_key]
    gives for the buffered keys; and what a mutation writes is what the transaction reads
    back for its key. *)
Theorem to_proto_mutations_correct level b : buffer_wf b →
  StronglySorted key_lt (map PbMutation.key (to_proto_mutations level b)) ∧
  (∀ m, m ∈ to_proto_mutations level b ↔
        mutation_for_key (PbMutation.key m) level b = Some m) ∧
  (∀ m, m ∈ to_proto_mutations level b →
    (PbMutation.op m = Op_Put ∨ PbMutation.op m = Op_Insert →
       get_from_mutations (PbMutation.key m) b = Determined (Some (PbMutation.value m))) ∧
    (PbMutation.op m = Op_Del ∨ PbMutation.op m = Op_CheckNotExists →
       get_from_mutations (PbMutation.key m) b = Determined None)).
Proof.
  intros Hwf. unfold to_proto_mutations, mutation_for_key.
  assert (∀ m, m ∈ omap (λ p : list Z * BufferEntry, lower_entry level b p.1 p.2) (entry_map b) →
    ∃ e, bget (PbMutation.key m) (entry_map b) = Some e ∧
         lower_entry level b (PbMutation.key m) e = Some m) as Hm.
  { intros m ([k e] & Hin & Hl)%list_elem_of_omap. simpl in Hl.
    apply lower_entry_key in Hl as Hk. rewrite Hk. exists e. split; [|done]. by apply bget_Some_In. }
  split_and!.
  - clear Hm. unfold buffer_wf in Hwf. revert Hwf. generalize (entry_map b). intros L.
    induction L as [|[k e] L IH]; intros HL; simpl; [constructor|].
    apply bwf_cons in HL as [Hlt HL]. specialize (IH HL).
    destruct (lower_entry level b k e) as [m|] eqn:E; simpl; [|done].
    constructor; [done|]. apply Forall_map, Forall_forall. intros m' ([k' e'] & Hin & Hl)%list_elem_of_omap.
    simpl in Hl. apply lower_entry_key in E, Hl. rewrite E, Hl. rewrite Forall_forall in Hlt.
    by apply (Hlt (k', e')).
  - intros m. split.
    + intros (e & -> & He)%Hm. done.
    + destruct (bget (PbMutation.key m) (entry_map b)) as [e|] eqn:E; [|done]. simpl. intros Hl.
      apply list_elem_of_omap. exists (PbMutation.key m, e). split; [|done]. by apply bget_Some_In.
  - intros m (e & He & Hl)%Hm. unfold get_from_mutations. rewrite He. by eapply lower_entry_value.
Qed.

Lemma to_proto_mutations_correct_witness :
  StronglySorted key_lt (map PbMutation.key (to_proto_mutations LevelOff sample_buffer)).
Proof.
  apply (to_proto_mutations_correct LevelOff sample_buffer).
  unfold buffer_wf. vm_compute. repeat constructor.
Defined.

(** ** Behaviours the transaction layer has to know about *)

(** In an optimistic transaction, putting a key that was inserted and then deleted
    restores the insertion but leaves the key marked prewrite-only, unlike
    inserting it again: the mutation is prewritten and the key is then excluded from the
    commit phase. *)
Theorem put_after_delete_stays_prewrite_only :
  let b := put [1] [8] (delete [1] (insert [1] [7] (Buffer_new false))) in
  let b' := insert [1] [8] (delete [1] (insert [1] [7] (Buffer_new false))) in
  mutation_for_key [1] LevelOff b = Some (PbMutation.mk Op_Insert [1] [8] 0) ∧
  mutation_for_key [1] LevelOff b' = mutation_for_key [1] LevelOff b ∧
  has_prewrite_only (key_flags [1] b) = true ∧ has_prewrite_only (key_flags [1] b') = false.
Proof. by vm_compute. Qed.

(** A scan does not see a key the transaction inserted, although a read of the key does. *)
Theorem scan_misses_own_insert :
  let b := insert [1] [7] (Buffer_new false) in
  get [1] b = Some [7] ∧
  (scan_and_fetch BoundRange.from_range_full 10 true false (λ _ _, Ok []) b).2 = Ok [].
Proof. by vm_compute. Qed.
