(* ===== verification/Latches.v ===== *)
(** * Local transaction latches (src/src/transaction/latch.rs)

    Commits with overlapping keys are serialised inside the process by latches: hashed
    slots hold a node per key (owner and newest commit timestamp) and a waiting list.
    The [Arc<LatchLock>]s live in a heap indexed by lock ids.  Every operation that runs
    under one slot mutex is one atomic function; the scheduler, the committing
    tasks and recycling interleave in a step relation.  The theorem: two
    transactions never own a latch on the same key.  LatchProgress.v shows that the
    transactions all get through. *)

From stdpp Require Import relations.
From Stdlib Require Import Sorting.Sorted.
From S2P Require Import Prelude Keys Timestamps.

(** ** Timestamps and hashing *)

Definition EXPIRE_DURATION_MS : Z := 2 * 60 * 1000.
Definition CHECK_INTERVAL_MS : Z := 60 * 1000.
Definition CHECK_COUNTER : Z := 50000.
Definition LATCH_LIST_COUNT : nat := 5.

Definition extract_physical_ms (ts : Z) : Z := Z.shiftr ts 18.
(** In milliseconds. *)
Definition tso_sub (ts1 ts2 : Z) : Z :=
  let t1 := extract_physical_ms ts1 in
  let t2 := extract_physical_ms ts2 in
  sat_sub_u64 t1 t2.

Definition rotate_left_u32 (x n : Z) : Z :=
  wrap_u32 (Z.lor (Z.shiftl x n) (Z.shiftr x (32 - n))).
Definition wrapping_mul_u32 (x y : Z) : Z := wrap_u32 (x * y).

Definition C1 : Z := 3432918353.
Definition C2 : Z := 461845907.

Definition mix_k1 (k1 : Z) : Z :=
  wrapping_mul_u32 (rotate_left_u32 (wrapping_mul_u32 k1 C1) 15) C2.

Definition fmix32 (h : Z) : Z :=
  let h := Z.lxor h (Z.shiftr h 16) in
  let h := wrapping_mul_u32 h 2246822507 in
  let h := Z.lxor h (Z.shiftr h 13) in
  let h := wrapping_mul_u32 h 3266489909 in
  Z.lxor h (Z.shiftr h 16).

(** The body loop over four-byte blocks; the rest is the tail. *)
Fixpoint murmur3_body (data : list Z) (h1 : Z) : Z * list Z :=
  match data with
  | b0 :: b1 :: b2 :: b3 :: rest =>
      let k1 := Z.lor b0 (Z.lor (Z.shiftl b1 8) (Z.lor (Z.shiftl b2 16) (Z.shiftl b3 24))) in
      let h1 := Z.lxor h1 (mix_k1 k1) in
      let h1 := rotate_left_u32 h1 13 in
      let h1 := wrap_u32 (wrapping_mul_u32 h1 5 + 3864292196) in
      murmur3_body rest h1
  | tail => (h1, tail)
  end.

Definition murmur3_tail (tail : list Z) : Z :=
  match tail with
  | [t0; t1; t2] => Z.lxor (Z.lxor (Z.lxor 0 (Z.shiftl t2 16)) (Z.shiftl t1 8)) t0
  | [t0; t1] => Z.lxor (Z.lxor 0 (Z.shiftl t1 8)) t0
  | [t0] => Z.lxor 0 t0
  | _ => 0
  end.

Definition murmur3_x86_32 (data : list Z) (seed : Z) : Z :=
  let len := wrap_u32 (Z.of_nat (length data)) in
  let '(h1, tail) := murmur3_body data seed in
  let h1 := if negb (is_empty tail) then Z.lxor h1 (mix_k1 (murmur3_tail tail)) else h1 in
  fmix32 (Z.lxor h1 len).

(** ** Data *)

Module LatchLock.
Record t := mk {
  start_ts : Z;
  keys : list (list Z);
  required_slots : list nat;
  acquired_count : nat;
  commit_ts : Z;
  stale : bool
}.
Definition new (start_ts : Z) (keys : list (list Z)) (required_slots : list nat) : t :=
  mk start_ts keys required_slots 0 0 false.
Definition required_len (l : t) : nat := length (required_slots l).
Definition set_acquired (n : nat) (l : t) : t :=
  mk (start_ts l) (keys l) (required_slots l) n (commit_ts l) (stale l).
Definition inc_acquired (l : t) : t := set_acquired (S (acquired_count l)) l.
Definition mark_stale (l : t) : t :=
  mk (start_ts l) (keys l) (required_slots l) (acquired_count l) (commit_ts l) true.
Definition set_commit_ts (ts : Z) (l : t) : t :=
  mk (start_ts l) (keys l) (required_slots l) (acquired_count l) ts (stale l).
Definition is_locked (l : t) : bool :=
  negb (stale l) && negb (acquired_count l =? required_len l)%nat.
End LatchLock.

Module Node.
Record t := mk { max_commit_ts : Z; value : option nat }.
Definition empty : t := mk 0 None.
End Node.

Module Slot.
Record t := mk { nodes : gmap (list Z) Node.t; waiting : list nat }.
Definition default : t := mk ∅ [].

(** [SlotInner::recycle] *)
Definition recycle (current_ts : Z) (s : t) : t :=
  mk (filter (λ p, bool_decide (is_Some (Node.value p.2)) ||
                   (tso_sub current_ts (Node.max_commit_ts p.2) <? EXPIRE_DURATION_MS) = true)
        (nodes s)) (waiting s).
End Slot.

Record Latches := mkLatches { slots : list Slot.t; locks : gmap nat LatchLock.t }.

Inductive AcquireResult := Success | ALocked | Stale.

(** [usize::next_power_of_two] *)
Definition next_power_of_two (n : Z) : Z := if n <=? 1 then 1 else 2 ^ Z.log2_up n.

(** [LatchesScheduler::new] and [Latches::new] *)
Definition Latches_new (size : Z) : Latches :=
  let size := if size =? 0 then 1 else size in
  let size := next_power_of_two size in
  mkLatches (replicate (Z.to_nat size) Slot.default) ∅.

(** ** Operations *)

Definition slot_id (n : nat) (key : Key) : nat :=
  let hash := murmur3_x86_32 key 0 in
  Z.to_nat (Z.land hash (Z.of_nat n - 1)).

(** [keys.sort(); keys.dedup()] *)
Fixpoint sort_dedup_insert (k : Key) (l : list (list Z)) : list (list Z) :=
  match l with
  | [] => [k]
  | k' :: l' =>
      match key_cmp k k' with
      | Eq => l
      | Lt => k :: l
      | Gt => k' :: sort_dedup_insert k l'
      end
  end.
Definition sort_dedup (keys : list (list Z)) : list (list Z) := foldr sort_dedup_insert [] keys.

Definition gen_lock (start_ts : Z) (keys : list (list Z)) (s : Latches) : LatchLock.t :=
  let keys := sort_dedup keys in
  LatchLock.new start_ts keys (map (slot_id (length (slots s))) keys).

Definition set_slot (i : nat) (slot : Slot.t) (s : Latches) : Latches :=
  mkLatches (<[i := slot]> (slots s)) (locks s).
Definition set_lock (l : nat) (lk : LatchLock.t) (s : Latches) : Latches :=
  mkLatches (slots s) (<[l := lk]> (locks s)).

(** [nodes.entry(key).or_insert_with(..)] *)
Definition node_or_insert (key : Key) (slot : Slot.t) : Node.t :=
  match Slot.nodes slot !! key with Some n => n | None => Node.empty end.

(** [None] is a panic (an index out of range). *)
Definition acquire_slot (l : nat) (s : Latches) : option (Latches * AcquireResult) :=
  lk ← locks s !! l;
  let idx := LatchLock.acquired_count lk in
  key ← LatchLock.keys lk !! idx;
  slot_id ← LatchLock.required_slots lk !! idx;
  inner ← slots s !! slot_id;
  let inner := if (LATCH_LIST_COUNT <=? size (Slot.nodes inner))%nat
               then Slot.recycle (LatchLock.start_ts lk) inner else inner in
  let node := node_or_insert key inner in
  let inner := Slot.mk (<[key := node]> (Slot.nodes inner)) (Slot.waiting inner) in
  if LatchLock.start_ts lk <? Node.max_commit_ts node then
    Some (set_lock l (LatchLock.mark_stale lk) (set_slot slot_id inner s), Stale)
  else
    match Node.value node with
    | None =>
        let node := Node.mk (Node.max_commit_ts node) (Some l) in
        let inner := Slot.mk (<[key := node]> (Slot.nodes inner)) (Slot.waiting inner) in
        Some (set_lock l (LatchLock.inc_acquired lk) (set_slot slot_id inner s), Success)
    | Some _ =>
        let inner := Slot.mk (Slot.nodes inner) (Slot.waiting inner ++ [l]) in
        Some (set_slot slot_id inner s, ALocked)
    end.

(** Is the waiting lock [w] blocked on [key]? *)
Definition blocked_on (s : Latches) (key : Key) (w : nat) : bool :=
  match locks s !! w with
  | None => false
  | Some wl =>
      (LatchLock.acquired_count wl <? LatchLock.required_len wl)%nat &&
      match LatchLock.keys wl !! LatchLock.acquired_count wl with
      | Some k => key_eqb k key
      | None => false
      end
  end.

(** The first waiting lock blocked on the key, removed from the list. *)
Fixpoint take_waiter (s : Latches) (key : Key) (waiting : list nat) : option (nat * list nat) :=
  match waiting with
  | [] => None
  | w :: rest =>
      if blocked_on s key w then Some (w, rest)
      else match take_waiter s key rest with
           | Some (x, rest') => Some (x, w :: rest')
           | None => None
           end
  end.

(** [release_slot]; the outer [option] is a panic. *)
Definition release_slot (l : nat) (s : Latches) : option (Latches * option nat) :=
  lk ← locks s !! l;
  match LatchLock.acquired_count lk with
  | O => Some (s, None)
  | S idx =>
      let s := set_lock l (LatchLock.set_acquired idx lk) s in
      key ← LatchLock.keys lk !! idx;
      slot_id ← LatchLock.required_slots lk !! idx;
      inner ← slots s !! slot_id;
      let node := node_or_insert key inner in
      let inner := Slot.mk (<[key := node]> (Slot.nodes inner)) (Slot.waiting inner) in
      let wrong_owner :=
        match Node.value node with Some owner => negb (owner =? l)%nat | None => false end in
      if wrong_owner then Some (set_slot slot_id inner s, None) else
      let max_ts := Z.max (Node.max_commit_ts node) (LatchLock.commit_ts lk) in
      let inner := Slot.mk (<[key := Node.mk max_ts None]> (Slot.nodes inner)) (Slot.waiting inner) in
      match take_waiter s key (Slot.waiting inner) with
      | None => Some (set_slot slot_id inner s, None)
      | Some (next, waiting) =>
          nl ← locks s !! next;
          if LatchLock.start_ts nl <? max_ts then
            let inner := Slot.mk (<[key := Node.mk max_ts (Some next)]> (Slot.nodes inner)) waiting in
            Some (set_lock next (LatchLock.mark_stale (LatchLock.inc_acquired nl))
                    (set_slot slot_id inner s), Some next)
          else
            Some (set_slot slot_id (Slot.mk (Slot.nodes inner) waiting) s, Some next)
      end
  end.

(** [Latches::recycle] on one slot (it takes one slot mutex at a time). *)
Definition recycle_slot (i : nat) (current_ts : Z) (s : Latches) : Latches :=
  match slots s !! i with
  | Some inner => set_slot i (Slot.recycle current_ts inner) s
  | None => s
  end.

(** [Latches::acquire], [Latches::release] and [LatchesScheduler::wakeup] as one
    task runs them when nothing interleaves. *)
Fixpoint acquire_loop (fuel : nat) (l : nat) (s : Latches) : option (Latches * AcquireResult) :=
  lk ← locks s !! l;
  if (LatchLock.acquired_count lk <? LatchLock.required_len lk)%nat then
    match fuel with
    | O => None
    | S fuel' =>
        '(s, status) ← acquire_slot l s;
        match status with
        | Success => acquire_loop fuel' l s
        | _ => Some (s, status)
        end
    end
  else Some (s, Success).

Definition acquire (l : nat) (s : Latches) : option (Latches * AcquireResult) :=
  lk ← locks s !! l;
  if LatchLock.stale lk then Some (s, Stale)
  else acquire_loop (LatchLock.required_len lk) l s.

Fixpoint release_loop (fuel : nat) (l : nat) (s : Latches) (wakeups : list nat) :
    option (Latches * list nat) :=
  lk ← locks s !! l;
  match LatchLock.acquired_count lk, fuel with
  | O, _ => Some (s, wakeups)
  | S _, O => None
  | S _, S fuel' =>
      '(s, next) ← release_slot l s;
      release_loop fuel' l s (match next with Some n => wakeups ++ [n] | None => wakeups end)
  end.

Definition release (l : nat) (s : Latches) : option (Latches * list nat) :=
  lk ← locks s !! l;
  release_loop (LatchLock.acquired_count lk) l s [].

(** The second component lists the locks that are woken ([lock.wake()]). *)
Fixpoint wakeup (wakeups : list nat) (s : Latches) (woken : list nat) : option (Latches * list nat) :=
  match wakeups with
  | [] => Some (s, woken)
  | w :: rest =>
      '(s, status) ← acquire w s;
      wakeup rest s (match status with ALocked => woken | _ => woken ++ [w] end)
  end.

(** One unlock event in the scheduler's background task, with its recycling decision. *)
Definition should_recycle (commit_ts start_ts last_recycle_ts counter : Z) : bool :=
  (start_ts <? commit_ts) &&
  ((CHECK_INTERVAL_MS <? tso_sub commit_ts last_recycle_ts) || (CHECK_COUNTER <? counter)).

Definition handle_unlock (l : nat) (last_recycle_ts counter : Z) (s : Latches) :
    option (Latches * list nat * Z * Z * bool) :=
  '(s, wakeups) ← release l s;
  '(s, woken) ← wakeup wakeups s [];
  lk ← locks s !! l;
  let commit_ts := LatchLock.commit_ts lk in
  if should_recycle commit_ts (LatchLock.start_ts lk) last_recycle_ts counter
  then Some (s, woken, commit_ts, 1, true)
  else Some (s, woken, last_recycle_ts, counter + 1, false).

(** [LatchesScheduler::lock] up to its [await]. *)
Definition scheduler_lock (l : nat) (start_ts : Z) (keys : list (list Z)) (s : Latches) :
    option (Latches * AcquireResult) :=
  acquire l (set_lock l (gen_lock start_ts keys s) s).

(** ** Views of the state *)

Definition slot_owner (slot : Slot.t) (k : Key) : option nat := Slot.nodes slot !! k ≫= Node.value.
Definition slot_max (slot : Slot.t) (k : Key) : Z :=
  default 0 (Node.max_commit_ts <$> Slot.nodes slot !! k).

Definition slot_of (s : Latches) (k : Key) : Slot.t :=
  default Slot.default (slots s !! slot_id (length (slots s)) k).
(** The owner of the latch of a key, and the newest commit seen on it. *)
Definition owner (s : Latches) (k : Key) : option nat := slot_owner (slot_of s k) k.
Definition max_ts (s : Latches) (k : Key) : Z := slot_max (slot_of s k) k.
(** The key a lock acquires next. *)
Definition next_key (s : Latches) (l : nat) : option Key :=
  lk ← locks s !! l; LatchLock.keys lk !! LatchLock.acquired_count lk.
(** All the waiting locks, and those of one slot. *)
Definition all_waiting (s : Latches) : list nat := concat (map Slot.waiting (slots s)).
Definition waits_in (s : Latches) (i l : nat) : Prop :=
  ∃ slot, slots s !! i = Some slot ∧ l ∈ Slot.waiting slot.

Lemma recycle_owner ts slot k : slot_owner (Slot.recycle ts slot) k = slot_owner slot k.
Proof.
  unfold slot_owner, Slot.recycle. simpl. destruct (Slot.nodes slot !! k) as [n|] eqn:E.
  - destruct (decide (bool_decide (is_Some (Node.value n)) ||
      (tso_sub ts (Node.max_commit_ts n) <? EXPIRE_DURATION_MS) = true)) as [H|H].
    + by rewrite (map_lookup_filter_Some_2 _ _ _ _ E H).
    + rewrite (proj2 (map_lookup_filter_None _ _ _)); simpl.
      * destruct (Node.value n) as [o|]; [|done]. exfalso. apply H.
        by rewrite bool_decide_eq_true_2 by eauto.
      * right. intros n' En. by simplify_eq.
  - by rewrite (map_lookup_filter_None_2) by (left; done).
Qed.

Lemma recycle_max ts slot k :
  slot_max (Slot.recycle ts slot) k = slot_max slot k ∨ slot_max (Slot.recycle ts slot) k = 0.
Proof.
  unfold slot_max, Slot.recycle. simpl.
  destruct (filter _ (Slot.nodes slot) !! k) as [n|] eqn:E; [left|by right].
  by apply map_lookup_filter_Some in E as [-> _].
Qed.

Lemma insert_owner slot k n w k' :
  slot_owner (Slot.mk (<[k := n]> (Slot.nodes slot)) w) k' =
  if decide (k = k') then Node.value n else slot_owner slot k'.
Proof.
  unfold slot_owner. simpl. case_decide; subst; [by rewrite lookup_insert_eq | by rewrite lookup_insert_ne].
Qed.
Lemma insert_max slot k n w k' :
  slot_max (Slot.mk (<[k := n]> (Slot.nodes slot)) w) k' =
  if decide (k = k') then Node.max_commit_ts n else slot_max slot k'.
Proof.
  unfold slot_max. simpl. case_decide; subst; [by rewrite lookup_insert_eq | by rewrite lookup_insert_ne].
Qed.
Lemma node_or_insert_owner k slot : Node.value (node_or_insert k slot) = slot_owner slot k.
Proof. unfold node_or_insert, slot_owner. by destruct (Slot.nodes slot !! k). Qed.
Lemma node_or_insert_max k slot : Node.max_commit_ts (node_or_insert k slot) = slot_max slot k.
Proof. unfold node_or_insert, slot_max. by destruct (Slot.nodes slot !! k). Qed.

(** Replacing one slot. *)
Section set_slot.
Context (s : Latches) (i : nat) (inner inner' : Slot.t) (Ei : slots s !! i = Some inner).

Lemma slot_of_set k :
  slot_of (set_slot i inner' s) k =
    (if decide (i = slot_id (length (slots s)) k) then inner' else slot_of s k) ∧
  (i = slot_id (length (slots s)) k → slot_of s k = inner).
Proof.
  apply lookup_lt_Some in Ei as Hi. unfold slot_of, set_slot. simpl. rewrite length_insert. split.
  - case_decide as Hk; [subst; by rewrite list_lookup_insert_eq | by rewrite list_lookup_insert_ne].
  - intros <-. by rewrite Ei.
Qed.

Lemma set_slot_owner k0 v : i = slot_id (length (slots s)) k0 →
  (∀ k, slot_owner inner' k = if decide (k0 = k) then v else slot_owner inner k) →
  ∀ k, owner (set_slot i inner' s) k = if decide (k0 = k) then v else owner s k.
Proof.
  intros Hi H k. unfold owner. destruct (slot_of_set k) as [-> E]. destruct (decide (i = _)) as [Hk|Hk].
  - by rewrite E, H by done.
  - rewrite decide_False; [done|]. congruence.
Qed.

Lemma set_slot_max (R : list Z → Z → Z → Prop) : (∀ k x, R k x x) →
  (∀ k, R k (slot_max inner k) (slot_max inner' k)) →
  ∀ k, R k (max_ts s k) (max_ts (set_slot i inner' s) k).
Proof.
  intros Hr H k. unfold max_ts. destruct (slot_of_set k) as [-> E]. case_decide; [|done].
  by rewrite E.
Qed.

Lemma set_slot_waiting : ∃ R, all_waiting s ≡ₚ Slot.waiting inner ++ R ∧
  all_waiting (set_slot i inner' s) ≡ₚ Slot.waiting inner' ++ R.
Proof.
  apply lookup_lt_Some in Ei as Hi. unfold all_waiting, set_slot. simpl.
  exists (concat (map Slot.waiting (take i (slots s))) ++ concat (map Slot.waiting (drop (S i) (slots s)))).
  rewrite (insert_take_drop (slots s) i inner') by done.
  rewrite <- (take_drop_middle (slots s) i inner Ei) at 1.
  rewrite !map_app, !concat_app. simpl. split; rewrite !app_assoc;
    apply Permutation_app_tail, Permutation_app_comm.
Qed.

Lemma set_slot_waits_in j l : waits_in (set_slot i inner' s) j l →
  (j = i ∧ l ∈ Slot.waiting inner') ∨ (j ≠ i ∧ waits_in s j l).
Proof.
  intros (slot & [(-> & <- & _)|[Hne ?]]%list_lookup_insert_Some & Hl); [by left|].
  right. split; [done|]. by exists slot.
Qed.
End set_slot.

Lemma land_le_r a m : 0 ≤ m → 0 ≤ Z.land a m ≤ m.
Proof.
  intros Hm. split; [apply Z.land_nonneg; lia|].
  assert (Z.ldiff m a + Z.land m a = m) as E.
  { rewrite Z.add_nocarry_lxor, Z.lxor_lor, Z.lor_ldiff_and; [done|..];
      apply Z.bits_inj'; intros n Hn; rewrite ?Z.land_spec, ?Z.ldiff_spec, Z.bits_0;
      by destruct (Z.testbit m n), (Z.testbit a n). }
  rewrite Z.land_comm. assert (0 ≤ Z.ldiff m a) by (apply Z.ldiff_nonneg; lia). lia.
Qed.

(** A slot index is always in range: [self.slots[slot_id]] does not panic. *)
Lemma slot_id_range n k : (0 < n)%nat → (slot_id n k < n)%nat.
Proof.
  intros Hn. unfold slot_id. pose proof (land_le_r (murmur3_x86_32 k 0) (Z.of_nat n - 1)). lia.
Qed.

(** ** What one atomic operation does *)

Definition lock_ok (n : nat) (lk : LatchLock.t) : Prop :=
  LatchLock.required_slots lk = map (slot_id n) (LatchLock.keys lk) ∧
  StronglySorted key_lt (LatchLock.keys lk) ∧
  (LatchLock.acquired_count lk ≤ length (LatchLock.keys lk))%nat ∧ 0 ≤ LatchLock.start_ts lk.

Lemma required_len_keys n lk : lock_ok n lk →
  LatchLock.required_len lk = length (LatchLock.keys lk).
Proof. intros (E & _). unfold LatchLock.required_len. by rewrite E, length_map. Qed.

Record acquire_post (l : nat) (lk : LatchLock.t) (k : Key) (s s' : Latches) (r : AcquireResult) : Prop := {
  ap_len : length (slots s') = length (slots s);
  ap_owner : ∀ k', owner s' k' =
    if decide (k = k') then match r with Success => Some l | _ => owner s k end else owner s k';
  ap_max : ∀ k', max_ts s' k' = max_ts s k' ∨ max_ts s' k' = 0;
  ap_locks : locks s' = match r with
    | Success => <[l := LatchLock.inc_acquired lk]> (locks s)
    | Stale => <[l := LatchLock.mark_stale lk]> (locks s)
    | ALocked => locks s end;
  ap_waiting : all_waiting s' ≡ₚ match r with ALocked => l :: all_waiting s | _ => all_waiting s end;
  ap_waits_in : ∀ j x, waits_in s' j x →
    waits_in s j x ∨ (r = ALocked ∧ x = l ∧ j = slot_id (length (slots s)) k);
  ap_result : match r with
    | Success => owner s k = None
    | ALocked => ∃ o, owner s k = Some o
    | Stale => LatchLock.start_ts lk < max_ts s k end
}.

(** The slot after [entry(key).or_insert_with] on the (possibly recycled) slot. *)
Definition entered (lk : LatchLock.t) (k : Key) (inner : Slot.t) : Slot.t :=
  let inner := if (LATCH_LIST_COUNT <=? size (Slot.nodes inner))%nat
               then Slot.recycle (LatchLock.start_ts lk) inner else inner in
  Slot.mk (<[k := node_or_insert k inner]> (Slot.nodes inner)) (Slot.waiting inner).

Lemma entered_spec lk k inner :
  (∀ k', slot_owner (entered lk k inner) k' = slot_owner inner k') ∧
  (∀ k', slot_max (entered lk k inner) k' = slot_max inner k' ∨ slot_max (entered lk k inner) k' = 0) ∧
  Slot.waiting (entered lk k inner) = Slot.waiting inner.
Proof.
  unfold entered. set (b := (LATCH_LIST_COUNT <=? size (Slot.nodes inner))%nat).
  set (inner1 := if b then _ else inner).
  assert (∀ k', slot_owner inner1 k' = slot_owner inner k') as Ho.
  { intros k'. unfold inner1. destruct b; [apply recycle_owner | done]. }
  assert (∀ k', slot_max inner1 k' = slot_max inner k' ∨ slot_max inner1 k' = 0) as Hm.
  { intros k'. unfold inner1. destruct b; [apply recycle_max | by left]. }
  split_and!.
  - intros k'. rewrite insert_owner. case_decide; [subst; by rewrite node_or_insert_owner | done].
  - intros k'. rewrite insert_max. case_decide; [subst; by rewrite node_or_insert_max | done].
  - unfold inner1. by destruct b.
Qed.

Lemma acquire_slot_eq l lk k s inner : lock_ok (length (slots s)) lk → locks s !! l = Some lk →
  LatchLock.keys lk !! LatchLock.acquired_count lk = Some k →
  slots s !! slot_id (length (slots s)) k = Some inner →
  let i := slot_id (length (slots s)) k in
  let inner2 := entered lk k inner in
  acquire_slot l s =
    if LatchLock.start_ts lk <? slot_max inner2 k then
      Some (set_lock l (LatchLock.mark_stale lk) (set_slot i inner2 s), Stale)
    else match slot_owner inner2 k with
      | None => Some (set_lock l (LatchLock.inc_acquired lk)
          (set_slot i (Slot.mk (<[k := Node.mk (slot_max inner2 k) (Some l)]> (Slot.nodes inner2))
                         (Slot.waiting inner2)) s), Success)
      | Some _ => Some (set_slot i (Slot.mk (Slot.nodes inner2) (Slot.waiting inner2 ++ [l])) s, ALocked)
      end.
Proof.
  intros (Er & _) El Ek Ei i inner2. unfold acquire_slot. rewrite El. simpl. rewrite Ek. simpl.
  rewrite Er. change (map ?f ?x) with (f <$> x). rewrite list_lookup_fmap, Ek. simpl. fold i.
  unfold i. rewrite Ei. simpl. subst inner2. unfold entered, slot_max, slot_owner. simpl.
  by rewrite !lookup_insert_eq.
Qed.

Lemma acquire_slot_spec l lk k s : (0 < length (slots s))%nat →
  lock_ok (length (slots s)) lk → locks s !! l = Some lk →
  LatchLock.keys lk !! LatchLock.acquired_count lk = Some k →
  ∃ s' r, acquire_slot l s = Some (s', r) ∧ acquire_post l lk k s s' r.
Proof.
  intros Hn Hok El Ek. destruct (lookup_lt_is_Some_2 _ _ (slot_id_range _ k Hn)) as [inner Ei].
  rewrite (acquire_slot_eq l lk k s inner) by done.
  destruct (entered_spec lk k inner) as (Ho & Hm & Hw). cbv zeta.
  set (inner2 := entered lk k inner) in *. clearbody inner2.
  destruct (slot_of_set s _ inner inner Ei k) as [_ Eso]. specialize (Eso eq_refl).
  pose proof (λ inner', set_slot_max s _ inner inner' Ei (λ _ a b, b = a ∨ b = 0) (λ _ _, or_introl eq_refl)) as Hmax.
  destruct (Z.ltb_spec (LatchLock.start_ts lk) (slot_max inner2 k)) as [Hlt|Hge].
  - do 2 eexists. split; [done|]. split.
    + apply length_insert.
    + apply (set_slot_owner s _ inner inner2 Ei k (owner s k) eq_refl). intros k'. rewrite Ho.
      case_decide as Hk; [rewrite <- Hk; unfold owner; by rewrite Eso | done].
    + by apply Hmax.
    + done.
    + destruct (set_slot_waiting s _ inner inner2 Ei) as (R & -> & ->). by rewrite Hw.
    + intros j x Hin. apply (set_slot_waits_in s _ inner _ Ei) in Hin as [[-> Hx]|[_ ?]]; [|by left]. left. exists inner. by rewrite <- Hw.
    + unfold max_ts. rewrite Eso. destruct Hok as (_ & _ & _ & ?). destruct (Hm k) as [E|E]; rewrite E in Hlt; lia.
  - rewrite Ho. destruct (slot_owner inner k) as [o|] eqn:Eo; do 2 eexists; (split; [done|]); split.
    + apply length_insert.
    + apply (set_slot_owner s _ inner _ Ei k (owner s k) eq_refl). intros k'.
      match goal with |- _ = ?r => change (slot_owner inner2 k' = r) end.
      rewrite Ho. case_decide as Hk; [rewrite <- Hk; unfold owner; by rewrite Eso | done].
    + by apply Hmax.
    + done.
    + destruct (set_slot_waiting s _ inner (Slot.mk (Slot.nodes inner2) (Slot.waiting inner2 ++ [l])) Ei) as (R & -> & ->).
      simpl. rewrite Hw. symmetry. rewrite <- app_assoc. apply Permutation_middle.
    + intros j x Hin. apply (set_slot_waits_in s _ inner _ Ei) in Hin as [[-> Hx]|[_ ?]]; [|by left]. simpl in Hx.
      rewrite Hw in Hx. apply elem_of_app in Hx as [Hx|Hx%list_elem_of_singleton]; [left; by exists inner | right; done].
    + exists o. unfold owner. by rewrite Eso.
    + apply length_insert.
    + apply (set_slot_owner s _ inner _ Ei k (Some l) eq_refl). intros k'.
      rewrite (insert_owner inner2), Ho. by case_decide.
    + apply Hmax. intros k'. rewrite (insert_max inner2). case_decide as Hk; [rewrite <- Hk|]; apply Hm.
    + done.
    + destruct (set_slot_waiting s _ inner (Slot.mk (<[k:=Node.mk (slot_max inner2 k) (Some l)]>
        (Slot.nodes inner2)) (Slot.waiting inner2)) Ei) as (R & -> & ->). simpl. by rewrite Hw.
    + intros j x Hin. apply (set_slot_waits_in s _ inner _ Ei) in Hin as [[-> Hx]|[_ ?]]; [|by left]. left. exists inner. simpl in Hx. by rewrite <- Hw.
    + unfold owner. by rewrite Eso.
Qed.

Lemma take_waiter_spec s key waiting :
  match take_waiter s key waiting with
  | None => ∀ x, x ∈ waiting → blocked_on s key x = false
  | Some (w, rest) => blocked_on s key w = true ∧ waiting ≡ₚ w :: rest
  end.
Proof.
  induction waiting as [|w waiting IH]; simpl; [by intros x ?%elem_of_nil|].
  destruct (blocked_on s key w) eqn:E; [done|].
  destruct (take_waiter s key waiting) as [[x rest]|].
  - destruct IH as [Hb ->]. split; [done|]. apply Permutation_swap.
  - intros x [->|?]%elem_of_cons; [done | by apply IH].
Qed.

Lemma blocked_on_next s k w : blocked_on s k w = true → next_key s w = Some k.
Proof.
  unfold blocked_on, next_key. destruct (locks s !! w) as [wl|]; [|done]. simpl.
  intros [_ H]%andb_true_iff. destruct (LatchLock.keys wl !! _) as [k'|]; [|done].
  by apply bool_decide_eq_true in H as ->.
Qed.

Lemma blocked_on_intro s k w wl n : locks s !! w = Some wl → lock_ok n wl →
  next_key s w = Some k → blocked_on s k w = true.
Proof.
  unfold blocked_on, next_key. intros E Hok. rewrite E. simpl. intros Hk. rewrite Hk.
  rewrite (required_len_keys n wl Hok). apply andb_true_iff. split.
  - apply Nat.ltb_lt. by eapply lookup_lt_Some.
  - by apply bool_decide_eq_true.
Qed.

(** What releasing the last acquired latch of a lock that owns it does: the freed
    key goes to nobody, to a waiter found stale, or a waiter is to be woken. *)
Inductive handover := NoWaiter | Granted (w : nat) (wl : LatchLock.t) | Wake (w : nat).

Definition handover_next (h : handover) : option nat :=
  match h with NoWaiter => None | Granted w _ | Wake w => Some w end.

Record release_post (l : nat) (lk : LatchLock.t) (idx : nat) (k : Key) (s s' : Latches) (h : handover) : Prop := {
  rp_len : length (slots s') = length (slots s);
  rp_locks : let base := <[l := LatchLock.set_acquired idx lk]> (locks s) in
    locks s' = match h with
      | Granted w wl => <[w := LatchLock.mark_stale (LatchLock.inc_acquired wl)]> base
      | _ => base end;
  rp_owner : ∀ k', owner s' k' =
    if decide (k = k') then match h with Granted w _ => Some w | _ => None end else owner s k';
  rp_max : ∀ k', k' ≠ k → max_ts s' k' = max_ts s k';
  rp_waiting : all_waiting s ≡ₚ match handover_next h with
    | None => all_waiting s' | Some w => w :: all_waiting s' end;
  rp_waits_in : ∀ j x, waits_in s' j x → waits_in s j x;
  rp_next : let s1 := set_lock l (LatchLock.set_acquired idx lk) s in
    match h with
    | NoWaiter => ∀ x, waits_in s (slot_id (length (slots s)) k) x → blocked_on s1 k x = false
    | Granted w wl => waits_in s (slot_id (length (slots s)) k) w ∧ blocked_on s1 k w = true ∧ locks s1 !! w = Some wl
    | Wake w => waits_in s (slot_id (length (slots s)) k) w ∧ blocked_on s1 k w = true ∧
        ∃ wl, locks s1 !! w = Some wl ∧ max_ts s' k ≤ LatchLock.start_ts wl
    end
}.

(** Views after the node of [k] is rewritten in its slot and the queue replaced. *)
Section write_node.
Context (s : Latches) (k : Key) (inner : Slot.t) (Ei : slots s !! slot_id (length (slots s)) k = Some inner).
Context (mx : Z) (v : option nat) (w' : list nat).
#[local] Abbreviation written := (set_slot (slot_id (length (slots s)) k) (Slot.mk (<[k := Node.mk mx v]> (Slot.nodes inner)) w') s).

Lemma written_owner k' : owner written k' = if decide (k = k') then v else owner s k'.
Proof. apply (set_slot_owner s _ inner _ Ei k v eq_refl). intros k0. by rewrite insert_owner. Qed.

Lemma written_max_other k' : k' ≠ k → max_ts written k' = max_ts s k'.
Proof.
  apply (set_slot_max s _ inner _ Ei (λ k' a b, k' ≠ k → b = a)); [done|]. intros k0 Hk0. by rewrite insert_max, decide_False.
Qed.

Lemma written_max : max_ts written k = mx.
Proof.
  unfold max_ts. destruct (slot_of_set s _ inner (Slot.mk (<[k := Node.mk mx v]> (Slot.nodes inner)) w') Ei k) as [-> _].
  by rewrite decide_True, insert_max, decide_True.
Qed.

Lemma written_waits_in j x : (∀ y, y ∈ w' → y ∈ Slot.waiting inner) → waits_in written j x → waits_in s j x.
Proof. intros Hw Hin. apply (set_slot_waits_in s _ inner _ Ei) in Hin as [[-> Hx]|[_ ?]]; [|done]. exists inner. auto. Qed.

Lemma written_waiting : ∃ R, all_waiting s ≡ₚ Slot.waiting inner ++ R ∧ all_waiting written ≡ₚ w' ++ R.
Proof. exact (set_slot_waiting s _ inner (Slot.mk (<[k := Node.mk mx v]> (Slot.nodes inner)) w') Ei). Qed.
End write_node.

Lemma release_slot_spec l lk k idx s : lock_ok (length (slots s)) lk → locks s !! l = Some lk →
  LatchLock.acquired_count lk = S idx → LatchLock.keys lk !! idx = Some k → owner s k = Some l →
  ∃ s' h, release_slot l s = Some (s', handover_next h) ∧ release_post l lk idx k s s' h.
Proof.
  intros (Er & _) El Ea Ek Eo. unfold release_slot. rewrite El. simpl. rewrite Ea, Ek. simpl.
  rewrite Er. change (map ?f ?x) with (f <$> x). rewrite list_lookup_fmap, Ek. simpl.
  unfold owner, slot_of in Eo.
  destruct (slots s !! slot_id (length (slots s)) k) as [inner|] eqn:Ei; [|done]. simpl in *.
  rewrite node_or_insert_owner, node_or_insert_max, Eo, Nat.eqb_refl. simpl.
  rewrite insert_insert_eq. set (mx := Z.max _ _).
  set (s1 := set_lock l (LatchLock.set_acquired idx lk) s).
  pose proof (take_waiter_spec s1 k (Slot.waiting inner)) as Htw.
  destruct (take_waiter s1 k (Slot.waiting inner)) as [[w rest]|].
  - destruct Htw as [Hb Hp].
    assert (waits_in s (slot_id (length (slots s)) k) w) as Hwin.
    { exists inner. split; [done|]. rewrite Hp. by apply elem_of_cons; left. }
    assert (∃ wl, locks s1 !! w = Some wl) as [wl Ewl].
    { unfold blocked_on in Hb. destruct (locks s1 !! w); [eauto | done]. }
    simpl in Ewl |- *. rewrite Ewl. simpl.
    assert (∀ y, y ∈ rest → y ∈ Slot.waiting inner) as Hrest by (intros y Hy; rewrite Hp; by apply elem_of_cons; right).
    assert (∀ v, all_waiting s ≡ₚ w :: all_waiting (set_slot (slot_id (length (slots s)) k)
      (Slot.mk (<[k := Node.mk mx v]> (Slot.nodes inner)) rest) s)) as Hwt.
    { intros v. destruct (written_waiting s k inner Ei mx v rest) as (R & -> & ->). by rewrite Hp. }
    destruct (Z.ltb_spec (LatchLock.start_ts wl) mx) as [Hlt|Hge].
    + rewrite insert_insert_eq. eexists _, (Granted w wl). split; [done|]. split; [apply length_insert | done | | | apply Hwt | | done].
      * exact (written_owner s k inner Ei mx (Some w) rest).
      * exact (written_max_other s k inner Ei mx (Some w) rest).
      * intros j x. exact (written_waits_in s k inner Ei mx (Some w) rest j x Hrest).
    + eexists _, (Wake w). split; [done|]. split; [apply length_insert | done | | | apply Hwt | |].
      * exact (written_owner s k inner Ei mx None rest).
      * exact (written_max_other s k inner Ei mx None rest).
      * intros j x. exact (written_waits_in s k inner Ei mx None rest j x Hrest).
      * split_and!; [done..|]. exists wl. split; [done|].
        etransitivity; [apply Z.eq_le_incl; exact (written_max s k inner Ei mx None rest) | done].
  - eexists _, NoWaiter. split; [done|]. split; [apply length_insert | done | | | | |].
    + exact (written_owner s k inner Ei mx None (Slot.waiting inner)).
    + exact (written_max_other s k inner Ei mx None (Slot.waiting inner)).
    + destruct (written_waiting s k inner Ei mx None (Slot.waiting inner)) as (R & E1 & E2). simpl. rewrite E1. symmetry. exact E2.
    + intros j x. by apply (written_waits_in s k inner Ei mx None (Slot.waiting inner) j x).
    + intros s2 x (slot & E & Hx). simplify_eq. by apply Htw.
Qed.

(** ** The latch invariant *)

Record core_inv (s : Latches) : Prop := {
  ci_slots : (0 < length (slots s))%nat;
  ci_locks : ∀ l lk, locks s !! l = Some lk → lock_ok (length (slots s)) lk;
  (** a lock owns the keys it has acquired, ... *)
  ci_holds : ∀ l lk idx k, locks s !! l = Some lk → (idx < LatchLock.acquired_count lk)%nat →
    LatchLock.keys lk !! idx = Some k → owner s k = Some l;
  (** ... and every owner has acquired the key; *)
  ci_owns : ∀ l k, owner s k = Some l → ∃ lk idx, locks s !! l = Some lk ∧
    (idx < LatchLock.acquired_count lk)%nat ∧ LatchLock.keys lk !! idx = Some k;
  (** a waiting lock is not stale and waits in the slot of its next key, once. *)
  ci_waits : ∀ j x, waits_in s j x → ∃ lk k, locks s !! x = Some lk ∧ LatchLock.stale lk = false ∧
    next_key s x = Some k ∧ slot_id (length (slots s)) k = j;
  ci_nodup : NoDup (all_waiting s)
}.

Lemma waits_in_all s x : x ∈ all_waiting s ↔ ∃ j, waits_in s j x.
Proof.
  unfold all_waiting, waits_in. generalize (slots s). intros L. induction L as [|sl L IH]; simpl.
  - split; [by intros ?%elem_of_nil | by intros (j & slot & ? & _)].
  - rewrite elem_of_app, IH. split.
    + intros [Hx|(j & slot & Hj & Hx)]; [by exists 0%nat, sl | by exists (S j), slot].
    + intros ([|j] & slot & Hj & Hx); simpl in Hj; [simplify_eq; by left | right; eauto].
Qed.

Lemma sorted_keys_inj n lk i j k : lock_ok n lk →
  LatchLock.keys lk !! i = Some k → LatchLock.keys lk !! j = Some k → i = j.
Proof.
  intros (_ & HS & _). revert i j. induction HS as [|a L HS IH HF]; intros i j Hi Hj; [done|].
  rewrite Forall_forall in HF.
  destruct i as [|i], j as [|j]; simpl in *; [done| | |f_equal; by apply IH]; simplify_eq.
  - apply list_elem_of_lookup_2, HF in Hj. by apply KeyOrder.lt_irrefl in Hj.
  - apply list_elem_of_lookup_2, HF in Hi. by apply KeyOrder.lt_irrefl in Hi.
Qed.

Lemma sorted_keys_lt n lk i j a b : lock_ok n lk → (i < j)%nat →
  LatchLock.keys lk !! i = Some a → LatchLock.keys lk !! j = Some b → key_lt a b.
Proof.
  intros (_ & HS & _). revert i j. induction HS as [|c L HS IH HF]; intros i j Hij Hi Hj; [done|].
  destruct i as [|i], j as [|j]; simpl in *; try lia; [|apply (IH i j); [lia|done..]].
  simplify_eq. rewrite Forall_forall in HF. by apply HF, list_elem_of_lookup_2 in Hj || by eapply HF, list_elem_of_lookup_2.
Qed.

(** Changing a lock without touching its keys or count. *)
Lemma next_key_insert s s' l lk x : locks s' = <[l := lk]> (locks s) → x ≠ l → next_key s' x = next_key s x.
Proof. intros E Hne. unfold next_key. by rewrite E, lookup_insert_ne. Qed.

Lemma core_acquire l lk k s s' r : core_inv s → locks s !! l = Some lk →
  LatchLock.keys lk !! LatchLock.acquired_count lk = Some k → LatchLock.stale lk = false →
  l ∉ all_waiting s → acquire_post l lk k s s' r → core_inv s'.
Proof.
  intros I El Ek Hst Hnw P. pose proof (ci_locks _ I _ _ El) as Hok.
  assert (∀ x, x ≠ l → locks s' !! x = locks s !! x) as Hx.
  { intros x Hne. rewrite (ap_locks _ _ _ _ _ _ P). destruct r; by rewrite ?lookup_insert_ne by done. }
  assert (∃ lk', locks s' !! l = Some lk' ∧ LatchLock.keys lk' = LatchLock.keys lk ∧
    lock_ok (length (slots s)) lk' ∧ LatchLock.acquired_count lk' =
      match r with Success => S (LatchLock.acquired_count lk) | _ => LatchLock.acquired_count lk end ∧
    (r = ALocked → lk' = lk)) as (lk' & El' & Hk' & Hok' & Ha' & Hlk').
  { rewrite (ap_locks _ _ _ _ _ _ P). destruct Hok as (O1 & O2 & O3 & O4). apply lookup_lt_Some in Ek as Hlen.
    destruct r; rewrite ?lookup_insert_eq; eexists; (split; [done || exact El|]);
      (split; [done|]); (split; [|done]); split_and!; done || (simpl; lia). }
  split.
  - rewrite (ap_len _ _ _ _ _ _ P). apply I.
  - rewrite (ap_len _ _ _ _ _ _ P). intros x y E. destruct (decide (x = l)) as [->|Hne]; [by simplify_eq|].
    rewrite Hx in E by done. by apply (ci_locks _ I) in E.
  - intros x y idx k' E Hidx Hkey. rewrite (ap_owner _ _ _ _ _ _ P).
    destruct (decide (x = l)) as [->|Hne].
    + simplify_eq. rewrite Hk' in Hkey. rewrite Ha' in Hidx. destruct (decide (k = k')) as [<-|Hkk].
      * pose proof (sorted_keys_inj _ _ _ _ _ Hok Hkey Ek) as ->. destruct r; [done | lia | lia].
      * apply (ci_holds _ I l lk idx k' El); [|done]. destruct r; try lia.
        assert (idx ≠ LatchLock.acquired_count lk) by congruence. lia.
    + rewrite Hx in E by done. pose proof (ci_holds _ I x y idx k' E Hidx Hkey) as Ho.
      case_decide as Hkk; [|done]. subst k'. destruct r; [|done|done].
      pose proof (ap_result _ _ _ _ _ _ P) as Hr. simpl in Hr. congruence.
  - intros x k'. rewrite (ap_owner _ _ _ _ _ _ P). intros Ho.
    assert (owner s k' = Some x → ∃ lk0 idx, locks s' !! x = Some lk0 ∧
      (idx < LatchLock.acquired_count lk0)%nat ∧ LatchLock.keys lk0 !! idx = Some k') as Hold.
    { intros (y & idx & E & Hidx & Hkey)%(ci_owns _ I). destruct (decide (x = l)) as [->|Hne].
      - simplify_eq. exists lk', idx. rewrite Hk', Ha'. split_and!; [done| |done]. destruct r; lia.
      - exists y, idx. by rewrite Hx. }
    case_decide as Hkk; [|by apply Hold]. subst k'. destruct r; [|by apply Hold|by apply Hold].
    injection Ho as <-. exists lk', (LatchLock.acquired_count lk). rewrite Hk', Ha'. split_and!; [done|lia|done].
  - rewrite (ap_len _ _ _ _ _ _ P). intros j x [Hw|(-> & -> & ->)]%(ap_waits_in _ _ _ _ _ _ P).
    + destruct (ci_waits _ I _ _ Hw) as (y & ky & E & Hs & Hn & Hj).
      assert (x ≠ l) as Hne by (intros ->; apply Hnw, waits_in_all; eauto).
      exists y, ky. rewrite Hx by done. split_and!; [done..| |done]. unfold next_key. rewrite Hx by done. exact Hn.
    + exists lk', k. rewrite (Hlk' eq_refl) in El' |- *. split_and!; [done..| |done].
      unfold next_key. rewrite El'. exact Ek.
  - rewrite (ap_waiting _ _ _ _ _ _ P). pose proof (ci_nodup _ I). destruct r; [done| |done].
    by apply NoDup_cons.
Qed.

(** The lock granted by a handover. *)
Definition granted (h : handover) : option (nat * LatchLock.t) :=
  match h with Granted w wl => Some (w, wl) | _ => None end.

Lemma release_locks l lk idx k s s' h : locks s !! l = Some lk → l ∉ all_waiting s →
  release_post l lk idx k s s' h →
  locks s' !! l = Some (LatchLock.set_acquired idx lk) ∧
  (∀ x, x ≠ l → (∀ wl, granted h ≠ Some (x, wl)) → locks s' !! x = locks s !! x) ∧
  (∀ w wl, granted h = Some (w, wl) → w ≠ l ∧ locks s !! w = Some wl ∧
     locks s' !! w = Some (LatchLock.mark_stale (LatchLock.inc_acquired wl)) ∧
     LatchLock.keys wl !! LatchLock.acquired_count wl = Some k ∧ w ∈ all_waiting s).
Proof.
  intros El Hnw P. pose proof (rp_next _ _ _ _ _ _ _ P) as Hn. simpl in Hn.
  assert (∀ x, waits_in s (slot_id (length (slots s)) k) x → x ≠ l) as Hwne.
  { intros x Hx ->. apply Hnw, waits_in_all. eauto. }
  rewrite (rp_locks _ _ _ _ _ _ _ P). destruct h as [|w wl|w]; simpl in *.
  - split_and!; [by rewrite lookup_insert_eq | | done]. intros. by rewrite lookup_insert_ne.
  - destruct Hn as (Hw & Hb & Ew). pose proof (Hwne _ Hw) as Hne.
    rewrite lookup_insert_ne in Ew by done. split_and!.
    + by rewrite lookup_insert_ne, lookup_insert_eq.
    + intros x Hx Hg. rewrite !lookup_insert_ne; [done..|]. intros ->. by eapply Hg.
    + intros w' wl' [= <- <-]. apply blocked_on_next in Hb. unfold next_key in Hb. simpl in Hb.
      rewrite lookup_insert_ne, Ew in Hb by done. simpl in Hb.
      split_and!; [done | done | by rewrite lookup_insert_eq | done | apply waits_in_all; eauto].
  - split_and!; [by rewrite lookup_insert_eq | | done]. intros. by rewrite lookup_insert_ne.
Qed.

Section core_release.
Context (l : nat) (lk : LatchLock.t) (idx : nat) (k : Key) (s s' : Latches) (h : handover).
Context (I : core_inv s) (El : locks s !! l = Some lk) (Ea : LatchLock.acquired_count lk = S idx).
Context (Ek : LatchLock.keys lk !! idx = Some k) (Hnw : l ∉ all_waiting s) (P : release_post l lk idx k s s' h).

Lemma released_owner k' : owner s' k' = if decide (k = k') then fst <$> granted h else owner s k'.
Proof. rewrite (rp_owner _ _ _ _ _ _ _ P). by destruct h. Qed.

Lemma granted_or_not x : (∃ wl, granted h = Some (x, wl)) ∨ (∀ wl, granted h ≠ Some (x, wl)).
Proof.
  destruct (granted h) as [[w wl]|]; [|by right]. destruct (decide (x = w)) as [->|]; [left; eauto | right; congruence].
Qed.

Lemma released_locks_ok x y : locks s' !! x = Some y → lock_ok (length (slots s')) y.
Proof.
  destruct (release_locks _ _ _ _ _ _ _ El Hnw P) as (F1 & F2 & F3). rewrite (rp_len _ _ _ _ _ _ _ P).
  intros E. destruct (decide (x = l)) as [->|Hne].
  { rewrite F1 in E. injection E as <-. destruct (ci_locks _ I _ _ El) as (O1 & O2 & O3 & O4). split_and!; simpl; [done..|lia|done]. }
  destruct (granted_or_not x) as [[wl Hg]|Hg]; [|rewrite F2 in E by done; by apply (ci_locks _ I) in E].
  destruct (F3 _ _ Hg) as (_ & E0 & E1 & Hk & _). rewrite E1 in E. injection E as <-.
  destruct (ci_locks _ I _ _ E0) as (O1 & O2 & O3 & O4). apply lookup_lt_Some in Hk. split_and!; simpl; [done..|lia|done].
Qed.

Lemma released_holds x y i k' : locks s' !! x = Some y → (i < LatchLock.acquired_count y)%nat → LatchLock.keys y !! i = Some k' →
  owner s' k' = Some x.
Proof.
  destruct (release_locks _ _ _ _ _ _ _ El Hnw P) as (F1 & F2 & F3). pose proof (ci_locks _ I _ _ El) as Hok.
  assert (owner s k = Some l) as Hkl by (apply (ci_holds _ I l lk idx k); [done | lia | done]).
  intros E Hi Hkey. rewrite released_owner. destruct (decide (x = l)) as [->|Hne].
  { rewrite F1 in E. injection E as <-. simpl in *. case_decide as Hkk.
    - subst k'. pose proof (sorted_keys_inj _ _ _ _ _ Hok Hkey Ek). lia.
    - apply (ci_holds _ I l lk i k' El); [lia | done]. }
  destruct (granted_or_not x) as [[wl Hg]|Hg].
  - destruct (F3 _ _ Hg) as (_ & E0 & E1 & Hk & _). rewrite E1 in E. injection E as <-. simpl in *.
    case_decide as Hkk; [by rewrite Hg|]. apply (ci_holds _ I x wl i k' E0); [|done].
    assert (i ≠ LatchLock.acquired_count wl) by congruence. lia.
  - rewrite F2 in E by done. pose proof (ci_holds _ I x y i k' E Hi Hkey) as Ho.
    case_decide as Hkk; [|done]. subst k'. congruence.
Qed.

Lemma released_owns x k' : owner s' k' = Some x →
  ∃ y i, locks s' !! x = Some y ∧ (i < LatchLock.acquired_count y)%nat ∧ LatchLock.keys y !! i = Some k'.
Proof.
  destruct (release_locks _ _ _ _ _ _ _ El Hnw P) as (F1 & F2 & F3). rewrite released_owner. case_decide as Hkk.
  - destruct (granted h) as [[w wl]|] eqn:Hg; [|done]. intros [= <-]. subst k'.
    destruct (F3 _ _ eq_refl) as (_ & E0 & E1 & Hk & _). do 2 eexists. split; [exact E1|]. simpl. split; [|exact Hk]. lia.
  - intros (y & i & E & Hi & Hkey)%(ci_owns _ I). destruct (decide (x = l)) as [->|Hne].
    { simplify_eq. eexists _, i. split; [exact F1|]. simpl. split; [|done]. assert (i ≠ idx) by congruence. lia. }
    destruct (granted_or_not x) as [[wl Hg]|Hg]; [|exists y, i; by rewrite F2].
    destruct (F3 _ _ Hg) as (_ & E0 & E1 & Hk & _). simplify_eq. eexists _, i. split; [exact E1|]. simpl. split; [lia|done].
Qed.

(** Who still waits was not granted the key. *)
Lemma waits_not_granted j x : waits_in s' j x → waits_in s j x ∧ x ≠ l ∧ ∀ wl, granted h ≠ Some (x, wl).
Proof.
  intros Hw. split; [by apply (rp_waits_in _ _ _ _ _ _ _ P)|]. split.
  - intros ->. apply Hnw, waits_in_all. exists j. by apply (rp_waits_in _ _ _ _ _ _ _ P).
  - intros wl Hg. pose proof (rp_waiting _ _ _ _ _ _ _ P) as Hp. pose proof (ci_nodup _ I) as Hnd.
    destruct h as [|w wl'|]; try done. injection Hg as -> ->. simpl in Hp. rewrite Hp in Hnd.
    apply NoDup_cons in Hnd as [Hni _]. apply Hni, waits_in_all. eauto.
Qed.

Lemma core_release : core_inv s'.
Proof.
  destruct (release_locks _ _ _ _ _ _ _ El Hnw P) as (F1 & F2 & F3). split.
  - rewrite (rp_len _ _ _ _ _ _ _ P). apply I.
  - apply released_locks_ok.
  - apply released_holds.
  - apply released_owns.
  - rewrite (rp_len _ _ _ _ _ _ _ P). intros j x (Hw & Hne & Hg)%waits_not_granted.
    destruct (ci_waits _ I _ _ Hw) as (y & ky & E & Hs & Hnk & Hj).
    exists y, ky. rewrite F2 by done. split_and!; [done..| |done]. unfold next_key. rewrite F2 by done. exact Hnk.
  - pose proof (rp_waiting _ _ _ _ _ _ _ P) as Hp. pose proof (ci_nodup _ I) as Hnd. rewrite Hp in Hnd.
    destruct (handover_next h); [|done]. by apply NoDup_cons in Hnd as [_ ?].
Qed.
End core_release.

(** The invariant only depends on the views. *)
Lemma core_views s s' : core_inv s → length (slots s') = length (slots s) →
  (∀ k, owner s' k = owner s k) → all_waiting s' = all_waiting s →
  (∀ j x, waits_in s' j x → waits_in s j x) → locks s' = locks s → core_inv s'.
Proof.
  intros I Hl Ho Hw Hwi El. assert (∀ x, next_key s' x = next_key s x) as Hn by (intros; unfold next_key; by rewrite El).
  split; rewrite ?Hl, ?El, ?Hw; try apply I.
  - intros. rewrite Ho. by eapply ci_holds.
  - intros l k. rewrite Ho. apply I.
  - intros j x Hx%Hwi. rewrite Hn. by apply (ci_waits _ I).
Qed.

Lemma recycle_slot_views i ts s :
  length (slots (recycle_slot i ts s)) = length (slots s) ∧
  (∀ k, owner (recycle_slot i ts s) k = owner s k) ∧
  (∀ k, max_ts (recycle_slot i ts s) k = max_ts s k ∨ max_ts (recycle_slot i ts s) k = 0) ∧
  all_waiting (recycle_slot i ts s) = all_waiting s ∧
  (∀ j x, waits_in (recycle_slot i ts s) j x → waits_in s j x) ∧
  locks (recycle_slot i ts s) = locks s.
Proof.
  unfold recycle_slot. destruct (slots s !! i) as [inner|] eqn:Ei; [|by split_and!; auto].
  split_and!.
  - apply length_insert.
  - intros k. unfold owner. destruct (slot_of_set s i inner (Slot.recycle ts inner) Ei k) as [-> E].
    case_decide; [|done]. rewrite E by done. apply recycle_owner.
  - apply (set_slot_max s i inner _ Ei (λ _ a b, b = a ∨ b = 0)); [by left | apply recycle_max].
  - unfold all_waiting, set_slot. simpl. f_equal. change (map ?f ?l) with (f <$> l).
    rewrite list_fmap_insert. simpl. apply list_insert_id. by rewrite list_lookup_fmap, Ei.
  - intros j x Hin. apply (set_slot_waits_in s _ inner _ Ei) in Hin as [[-> Hx]|[_ ?]]; [|done].
    by exists inner.
  - done.
Qed.

(** Changing the timestamps of a lock. *)
Lemma core_set_lock s l lk lk' : core_inv s → locks s !! l = Some lk →
  LatchLock.keys lk' = LatchLock.keys lk → LatchLock.required_slots lk' = LatchLock.required_slots lk →
  LatchLock.acquired_count lk' = LatchLock.acquired_count lk → LatchLock.start_ts lk' = LatchLock.start_ts lk →
  LatchLock.stale lk' = LatchLock.stale lk → core_inv (set_lock l lk' s).
Proof.
  intros I El E1 E2 E3 E4 E5.
  assert (∀ x, next_key (set_lock l lk' s) x = next_key s x) as Hn.
  { intros x. unfold next_key. simpl. destruct (decide (x = l)) as [->|].
    - rewrite lookup_insert_eq, El. simpl. by rewrite E1, E3.
    - by rewrite lookup_insert_ne. }
  split; simpl.
  - apply I.
  - intros x y [[<- <-]|[_ ?]]%lookup_insert_Some; [|by eapply I]. unfold lock_ok.
    rewrite E1, E2, E3, E4. by apply (ci_locks _ I) in El.
  - intros x y i k [[<- <-]|[_ E]]%lookup_insert_Some Hi Hk.
    + rewrite E1 in Hk. rewrite E3 in Hi. by apply (ci_holds _ I l lk i k).
    + by apply (ci_holds _ I x y i k).
  - intros x k (y & i & E & Hi & Hk)%(ci_owns _ I). destruct (decide (x = l)) as [->|].
    + simplify_eq. exists lk', i. rewrite lookup_insert_eq, E1, E3. done.
    + exists y, i. by rewrite lookup_insert_ne.
  - intros j x (y & k & E & Hs & Hk & Hj)%(ci_waits _ I). rewrite Hn. destruct (decide (x = l)) as [->|].
    + simplify_eq. exists lk', k. rewrite lookup_insert_eq, E5. done.
    + exists y, k. by rewrite lookup_insert_ne.
  - apply I.
Qed.

Lemma sort_dedup_sorted keys : StronglySorted key_lt (sort_dedup keys).
Proof.
  induction keys as [|k keys IH]; simpl; [constructor|].
  revert IH. generalize (sort_dedup keys). intros L HL. induction HL as [|a L HS IH HF]; simpl; [repeat constructor|].
  destruct (KeyOrder.compare_spec k a) as [->|H|H]; [by constructor| |].
  - constructor; [by constructor|]. constructor; [done|]. eapply Forall_impl; [exact HF|]. intros x Hx. simpl in Hx. key_order.
  - constructor; [done|]. clear HS IH. induction HF as [|b L Hb HF IH]; simpl; [by repeat constructor|].
    destruct (key_cmp k b); repeat constructor; auto.
Qed.

(** A new lock, which holds nothing and is not referenced yet. *)
Lemma core_new_lock s l st keys : core_inv s → locks s !! l = None → 0 ≤ st →
  core_inv (set_lock l (gen_lock st keys s) s).
Proof.
  intros I El Hst.
  assert (∀ x, x ≠ l → next_key (set_lock l (gen_lock st keys s) s) x = next_key s x) as Hn.
  { intros x Hx. unfold next_key. simpl. by rewrite lookup_insert_ne. }
  split; simpl.
  - apply I.
  - intros x y [[<- <-]|[_ ?]]%lookup_insert_Some; [|by eapply I].
    split_and!; [done | apply sort_dedup_sorted | simpl; lia | done].
  - intros x y i k [[<- <-]|[_ E]]%lookup_insert_Some Hi Hk; [simpl in Hi; lia|].
    by apply (ci_holds _ I x y i k).
  - intros x k (y & i & E & Hi & Hk)%(ci_owns _ I). exists y, i.
    rewrite lookup_insert_ne by congruence. done.
  - intros j x (y & k & E & Hs & Hk & Hj)%(ci_waits _ I). assert (x ≠ l) by congruence.
    exists y, k. rewrite Hn, lookup_insert_ne by done. done.
  - apply I.
Qed.

Lemma core_init size : 0 ≤ size → core_inv (Latches_new size).
Proof.
  intros Hs. unfold Latches_new. set (n := if size =? 0 then 1 else size).
  assert (1 ≤ n) by (subst n; case_zb; lia).
  assert (0 < next_power_of_two n) as Hp.
  { unfold next_power_of_two. case_zb; [lia|]. apply Z.pow_pos_nonneg; [lia | apply Z.log2_up_nonneg]. }
  assert (∀ m k, slot_owner (default Slot.default (replicate m Slot.default !! k)) = slot_owner Slot.default) as Ho.
  { intros m k. destruct (replicate m Slot.default !! k) eqn:E; [|done]. by apply lookup_replicate in E as [-> _]. }
  split; simpl.
  - rewrite length_replicate. lia.
  - done.
  - done.
  - intros l k. unfold owner, slot_of. simpl. by rewrite Ho.
  - intros j x (slot & E & Hx). simpl in E. apply lookup_replicate in E as [-> _]. by apply elem_of_nil in Hx.
  - unfold all_waiting. simpl. generalize (Z.to_nat (next_power_of_two n)). intros m.
    induction m; simpl; [constructor | done].
Qed.

(** ** The scheduler and its clients *)

(** Who may act on a lock: its own task, nobody (it waits), the holder of its guard,
    the unlock channel, the scheduler releasing it, or the scheduler waking it. *)
Inductive Status := Running | Blocked | Guard | Queued | Releasing | Pending.
#[export] Instance Status_eq_dec : EqDecision Status.
Proof. solve_decision. Defined.

Record Sys := mkSys {
  lat : Latches;
  status : gmap nat Status;
  releasing : option nat;
  pending : list nat
}.

Definition sys_init (size : Z) : Sys := mkSys (Latches_new size) ∅ None [].

(** The status after an attempt to acquire a slot. *)
Definition status_after (r : AcquireResult) (now : Status) : Status :=
  match r with Success => now | ALocked => Blocked | Stale => Guard end.

(** The steps that take the transactions further: a task acquires its next latch, or has them all, or drops its guard; the
    scheduler receives an unlock, releases one latch, has released them all, or goes on with the locks to wake up: it
    acquires the next latch for the first of them, or wakes its task. *)
Inductive work : Sys → Sys → Prop :=
| work_acquire s st rel pend l lk k s' r : st !! l = Some Running → locks s !! l = Some lk →
    LatchLock.stale lk = false → next_key s l = Some k → acquire_slot l s = Some (s', r) →
    work (mkSys s st rel pend) (mkSys s' (<[l := status_after r Running]> st) rel pend)
| work_acquired s st rel pend l : st !! l = Some Running → next_key s l = None →
    work (mkSys s st rel pend) (mkSys s (<[l := Guard]> st) rel pend)
| work_drop s st rel pend l : st !! l = Some Guard →
    work (mkSys s st rel pend) (mkSys s (<[l := Queued]> st) rel pend)
| work_recv s st l : st !! l = Some Queued →
    work (mkSys s st None []) (mkSys s (<[l := Releasing]> st) (Some l) [])
| work_release s st pend l s' next : release_slot l s = Some (s', next) →
    (∃ lk, locks s !! l = Some lk ∧ LatchLock.acquired_count lk ≠ 0%nat) →
    work (mkSys s st (Some l) pend)
      (mkSys s' (match next with Some w => <[w := Pending]> st | None => st end) (Some l)
         (match next with Some w => pend ++ [w] | None => pend end))
| work_released s st pend l lk : locks s !! l = Some lk → LatchLock.acquired_count lk = 0%nat →
    work (mkSys s st (Some l) pend) (mkSys s (delete l st) None pend)
| work_wake s st w rest lk k s' r : locks s !! w = Some lk → LatchLock.stale lk = false →
    next_key s w = Some k → acquire_slot w s = Some (s', r) →
    work (mkSys s st None (w :: rest))
      (mkSys s' (<[w := status_after r Pending]> st) None (match r with Success => w :: rest | _ => rest end))
| work_woken s st w rest lk : locks s !! w = Some lk → LatchLock.stale lk = true ∨ next_key s w = None →
    work (mkSys s st None (w :: rest)) (mkSys s (<[w := Guard]> st) None rest).

(** The system: these steps, new transactions, commit timestamps set through the guards, and recycling. *)
Inductive sys_step : Sys → Sys → Prop :=
| sys_work S S' : work S S' → sys_step S S'
| sys_lock s st rel pend l ts keys : locks s !! l = None → st !! l = None → 0 ≤ ts →
    sys_step (mkSys s st rel pend) (mkSys (set_lock l (gen_lock ts keys s) s) (<[l := Running]> st) rel pend)
| sys_commit s st rel pend l lk ts : st !! l = Some Guard → locks s !! l = Some lk →
    sys_step (mkSys s st rel pend) (mkSys (set_lock l (LatchLock.set_commit_ts ts lk) s) st rel pend)
| sys_recycle s st rel pend i ts :
    sys_step (mkSys s st rel pend) (mkSys (recycle_slot i ts s) st rel pend).

(** No wake-up is lost: a free key that somebody waits for has a pending waker
    that will not find itself stale on it. *)
Definition will_wake (s : Latches) (pend : list nat) : Prop :=
  ∀ x k, x ∈ all_waiting s → next_key s x = Some k → owner s k = None →
    ∃ w wl, w ∈ pend ∧ locks s !! w = Some wl ∧ LatchLock.stale wl = false ∧
      next_key s w = Some k ∧ max_ts s k ≤ LatchLock.start_ts wl.

Record sys_inv (S : Sys) : Prop := {
  si_core : core_inv (lat S);
  si_wait : ∀ x, x ∈ all_waiting (lat S) → status S !! x = Some Blocked;
  si_nodup : NoDup (pending S);
  si_pend : ∀ x, x ∈ pending S → status S !! x = Some Pending;
  si_rel : ∀ l, releasing S = Some l → status S !! l = Some Releasing;
  si_wake : will_wake (lat S) (pending S)
}.

Lemma will_wake_acquire l lk k s s' r pend pend' : core_inv s → locks s !! l = Some lk →
  LatchLock.keys lk !! LatchLock.acquired_count lk = Some k → l ∉ all_waiting s →
  acquire_post l lk k s s' r → will_wake s pend → (∀ w, w ∈ pend → w ≠ l → w ∈ pend') →
  will_wake s' pend'.
Proof.
  intros I El Ek Hnw P W Hp x k' Hx Hnx Ho.
  assert (∀ y, y ≠ l → locks s' !! y = locks s !! y) as Hy.
  { intros y Hne. rewrite (ap_locks _ _ _ _ _ _ P). destruct r; by rewrite ?lookup_insert_ne. }
  assert (∀ y, y ≠ l → next_key s' y = next_key s y) as Hny by (intros; unfold next_key; by rewrite Hy).
  assert (next_key s l = Some k) as Hnl by (unfold next_key; by rewrite El).
  rewrite (ap_owner _ _ _ _ _ _ P) in Ho. pose proof (ap_result _ _ _ _ _ _ P) as Hr.
  assert (x ≠ l ∧ x ∈ all_waiting s ∧ owner s k' = None ∧ (k = k' → r = Stale)) as (Hne & Hx' & Ho' & Hrk).
  { rewrite (ap_waiting _ _ _ _ _ _ P) in Hx. destruct r; simpl in *.
    - assert (x ≠ l) by (intros ->; done). case_decide; [done|]. done.
    - destruct Hr as [o Hr]. apply elem_of_cons in Hx as [->|Hx].
      + unfold next_key in Hnx. rewrite (ap_locks _ _ _ _ _ _ P), El in Hnx. simpl in Hnx.
        rewrite Ek in Hnx. injection Hnx as ->. rewrite decide_True in Ho by done. congruence.
      + assert (x ≠ l) by (intros ->; done). split; [done|]. split; [done|].
        case_decide; [congruence|]. split; [done|]. by intros ->.
    - assert (x ≠ l) by (intros ->; done). split; [done|]. split; [done|]. case_decide; subst; done. }
  rewrite Hny in Hnx by done. destruct (W x k' Hx' Hnx Ho') as (w & wl & Hw & Ew & Hs & Hnw' & Hm).
  assert (w ≠ l) as Hwl.
  { intros ->. rewrite Hnl in Hnw'. injection Hnw' as <-. specialize (Hrk eq_refl) as ->. simpl in Hr.
    rewrite El in Ew. injection Ew as <-. lia. }
  exists w, wl. split_and!; [by apply Hp | by rewrite Hy | done | by rewrite Hny |].
  destruct (ap_max _ _ _ _ _ _ P k') as [->| ->]; [done|].
  by destruct (ci_locks _ I _ _ Ew) as (_ & _ & _ & ?).
Qed.

Lemma will_wake_release l lk idx k s s' h pend : core_inv s → locks s !! l = Some lk →
  LatchLock.acquired_count lk = S idx → LatchLock.keys lk !! idx = Some k → l ∉ all_waiting s →
  release_post l lk idx k s s' h → will_wake s pend → l ∉ pend →
  (∀ x, x ∈ pend → x ∉ all_waiting s) →
  will_wake s' (match handover_next h with Some w => pend ++ [w] | None => pend end).
Proof.
  intros I El Ea Ek Hnw P W Hlp Hpw x k' Hx Hnx Ho.
  destruct (release_locks _ _ _ _ _ _ _ El Hnw P) as (F1 & F2 & F3).
  pose proof (rp_waiting _ _ _ _ _ _ _ P) as Hp. pose proof (ci_nodup _ I) as Hnd. rewrite Hp in Hnd.
  assert (x ∈ all_waiting s ∧ ∀ wl, granted h ≠ Some (x, wl)) as [Hxs Hxg].
  { destruct h as [|w wl|w]; simpl in *; rewrite Hp; [done| |].
    - apply NoDup_cons in Hnd as [Hni _]. split; [by apply elem_of_cons; right|]. intros wl' [= -> ->]. done.
    - split; [by apply elem_of_cons; right | done]. }
  assert (x ≠ l) as Hxl by (intros ->; done).
  assert (next_key s x = Some k') as Hnx'. { unfold next_key in *. by rewrite F2 in Hnx. }
  rewrite (rp_owner _ _ _ _ _ _ _ P) in Ho. pose proof (rp_next _ _ _ _ _ _ _ P) as Hn. simpl in Hn.
  destruct (decide (k = k')) as [<-|Hkk].
  - apply waits_in_all in Hxs as [j Hj]. destruct (ci_waits _ I _ _ Hj) as (xl & kx & Ex & _ & Hkx & Hjx).
    assert (kx = k) as -> by congruence. subst j.
    assert (blocked_on (set_lock l (LatchLock.set_acquired idx lk) s) k x = true) as Hb.
    { apply (blocked_on_intro _ _ _ xl (length (slots s))); simpl.
      - by rewrite lookup_insert_ne.
      - by apply (ci_locks _ I x).
      - unfold next_key. simpl. by rewrite lookup_insert_ne. }
    destruct h as [|w wl|w]; simpl in *; [|done|].
    + rewrite (Hn x Hj) in Hb. done.
    + destruct Hn as (Hw & Hbw & wl & Ewl & Hm). exists w, wl.
      assert (w ≠ l) as Hwl by (intros ->; apply Hnw, waits_in_all; eauto).
      rewrite lookup_insert_ne in Ewl by done.
      destruct (ci_waits _ I _ _ Hw) as (wl' & kw & Ew' & Hs & Hkw & _).
      rewrite Ewl in Ew'. injection Ew' as <-.
      apply blocked_on_next in Hbw. unfold next_key in Hbw. simpl in Hbw.
      rewrite lookup_insert_ne, Ewl in Hbw by done.
      split_and!; [apply elem_of_app; right; by apply elem_of_cons; left | by rewrite F2 | done | | done].
      unfold next_key. rewrite F2 by done. by rewrite Ewl.
  - destruct (W x k' Hxs Hnx' Ho) as (w & wl & Hw & Ew & Hs & Hnw' & Hm).
    assert (w ≠ l) by (intros ->; done).
    assert (∀ wl, granted h ≠ Some (w, wl)) as Hg.
    { intros wl' Hg. destruct (F3 _ _ Hg) as (_ & _ & _ & _ & Hin). by apply (Hpw w Hw). }
    exists w, wl. rewrite (rp_max _ _ _ _ _ _ _ P) by done. split_and!; [|by rewrite F2 | done | | done].
    + destruct (handover_next h); [apply elem_of_app; by left | done].
    + unfold next_key in *. by rewrite F2.
Qed.

Lemma sys_acquire_inv s st rel pend l lk k s' r now rest :
  sys_inv (mkSys s st rel pend) → locks s !! l = Some lk → LatchLock.stale lk = false →
  next_key s l = Some k → acquire_slot l s = Some (s', r) → st !! l = Some now → now ≠ Blocked →
  (∀ x, rel = Some x → x ≠ l) →
  NoDup rest → (∀ x, x ∈ pend → x ≠ l → x ∈ rest) → (∀ x, x ∈ rest → x ∈ pend) →
  (l ∈ rest → now = Pending ∧ r = Success) →
  sys_inv (mkSys s' (<[l := status_after r now]> st) rel rest).
Proof.
  intros [I Iw Ind Ip Ir Iwk] El Hst Hk Ha Hnow Hnb Hrel Hnd Hp1 Hp2 Hlr. simpl in *.
  unfold next_key in Hk. rewrite El in Hk. simpl in Hk.
  assert (l ∉ all_waiting s) as Hnw by (intros Hx%Iw; congruence).
  destruct (acquire_slot_spec l lk k s (ci_slots _ I) (ci_locks _ I _ _ El) El Hk) as (s2 & r2 & E & P).
  rewrite Ha in E. injection E as <- <-. split; simpl.
  - by eapply core_acquire.
  - intros x Hx. rewrite (ap_waiting _ _ _ _ _ _ P) in Hx. destruct (decide (x = l)) as [->|Hne].
    + rewrite lookup_insert_eq. destruct r; simpl in *; [by apply Hnw in Hx | done | by apply Hnw in Hx].
    + rewrite lookup_insert_ne by done. apply Iw. destruct r; [done| |done].
      by apply elem_of_cons in Hx as [?|?].
  - done.
  - intros x Hx. destruct (decide (x = l)) as [->|Hne].
    + rewrite lookup_insert_eq. by destruct (Hlr Hx) as [-> ->].
    + rewrite lookup_insert_ne by done. by apply Ip, Hp2.
  - intros x E. rewrite lookup_insert_ne by (by apply not_eq_sym, Hrel). by apply Ir.
  - by eapply will_wake_acquire.
Qed.

Lemma sys_lock_inv s st rel pend l ts keys : sys_inv (mkSys s st rel pend) →
  locks s !! l = None → st !! l = None → 0 ≤ ts →
  sys_inv (mkSys (set_lock l (gen_lock ts keys s) s) (<[l := Running]> st) rel pend).
Proof.
  intros HI El Est Hts. destruct HI as [I Iw Ind Ip Ir Iwk]. simpl in *.
  assert (∀ x v, st !! x = Some v → <[l := Running]> st !! x = Some v) as Hst.
  { intros x v Hx. rewrite lookup_insert_ne; [done|congruence]. }
  split; simpl; [by apply core_new_lock | auto..|].
  assert (∀ x k, next_key s x = Some k → x ≠ l) as Hnx.
  { intros x k Hx ->. unfold next_key in Hx. by rewrite El in Hx. }
  intros x k Hx Hn Ho.
  assert (x ≠ l) by (intros ->; apply Iw in Hx; simpl in Hx; congruence).
  unfold next_key in Hn. simpl in Hn. rewrite lookup_insert_ne in Hn by done.
  destruct (Iwk x k Hx Hn Ho) as (w & wl & ? & Ew & ? & Hnw & ?). exists w, wl.
  pose proof (Hnx _ _ Hnw). simpl. unfold next_key. simpl. rewrite !lookup_insert_ne by done. done.
Qed.

Lemma sys_release_inv s st pend l lk s' next : sys_inv (mkSys s st (Some l) pend) →
  release_slot l s = Some (s', next) → locks s !! l = Some lk → LatchLock.acquired_count lk ≠ 0%nat →
  sys_inv (mkSys s' (match next with Some w => <[w := Pending]> st | None => st end) (Some l)
             (match next with Some w => pend ++ [w] | None => pend end)).
Proof.
  intros HI Ha El Hac. destruct HI as [I Iw Ind Ip Ir Iwk]. simpl in *. specialize (Ir l eq_refl) as Hl.
  destruct (LatchLock.acquired_count lk) as [|idx] eqn:Ea; [done|].
  destruct (ci_locks _ I _ _ El) as (_ & _ & Hle & _).
  destruct (lookup_lt_is_Some_2 (LatchLock.keys lk) idx) as [k Ek]; [lia|].
  assert (l ∉ all_waiting s) as Hnw by (intros Hx%Iw; congruence).
  destruct (release_slot_spec l lk k idx s (ci_locks _ I _ _ El) El Ea Ek) as (s2 & h & E & P).
  { apply (ci_holds _ I l lk idx k); [done | lia | done]. }
  rewrite Ha in E. injection E as <- ->.
  pose proof (rp_waiting _ _ _ _ _ _ _ P) as Hp. pose proof (ci_nodup _ I) as Hnd. rewrite Hp in Hnd.
  pose proof (will_wake_release l lk idx k s s' h pend I El Ea Ek Hnw P Iwk) as Hww.
  assert (l ∉ pend) as Hlp by (intros Hx%Ip; congruence).
  assert (∀ x, x ∈ pend → x ∉ all_waiting s) as Hpw by (intros x Hx%Ip Hx'%Iw; congruence).
  specialize (Hww Hlp Hpw). destruct (handover_next h) as [w|] eqn:Eh.
  + apply NoDup_cons in Hnd as [Hni Hnd].
    assert (st !! w = Some Blocked) as Hw by (apply Iw; rewrite Hp; by apply elem_of_cons; left).
    split; simpl; [by eapply core_release | | | | | done].
    * intros x Hx. rewrite lookup_insert_ne by (intros ->; done). apply Iw. rewrite Hp. by apply elem_of_cons; right.
    * apply NoDup_app. split_and!; [done | intros x Hx%Ip ->%list_elem_of_singleton; congruence | apply NoDup_singleton].
    * intros x [Hx| ->%list_elem_of_singleton]%elem_of_app; [|by rewrite lookup_insert_eq].
      rewrite lookup_insert_ne; [by apply Ip|]. intros ->. apply Ip in Hx. congruence.
    * intros x [= <-]. rewrite lookup_insert_ne by congruence. done.
  + split; simpl; [by eapply core_release | | done | done | by intros x [= <-] | done].
    intros x Hx. apply Iw. by rewrite Hp.
Qed.

(** A task that neither waits nor is pending moves on, and nobody else notices. *)
Lemma stage_other (st : gmap nat Status) l old new x v : st !! l = Some old → st !! x = Some v → v ≠ old → <[l := new]> st !! x = Some v.
Proof. intros Hl Hx Hv. rewrite lookup_insert_ne; [done | congruence]. Qed.

Lemma sys_stage_inv s st rel pend l old new : sys_inv (mkSys s st rel pend) → st !! l = Some old →
  old ≠ Blocked → old ≠ Pending → (old = Releasing → rel = None) → sys_inv (mkSys s (<[l := new]> st) rel pend).
Proof.
  intros [I Iw Ind Ip Ir Iwk] Hl Hb Hp Hr. simpl in *. split; simpl; auto.
  - intros x Hx. eapply stage_other; eauto.
  - intros x Hx. eapply stage_other; eauto.
  - intros x Hx. eapply stage_other; eauto. intros <-. by rewrite Hr in Hx.
Qed.

Lemma sys_commit_ts_inv s st rel pend l lk ts : sys_inv (mkSys s st rel pend) → st !! l = Some Guard → locks s !! l = Some lk →
  sys_inv (mkSys (set_lock l (LatchLock.set_commit_ts ts lk) s) st rel pend).
Proof.
  intros [I Iw Ind Ip Ir Iwk] Hl El. simpl in *. split; simpl; [by eapply core_set_lock | done..|].
  assert (∀ x, next_key (set_lock l (LatchLock.set_commit_ts ts lk) s) x = next_key s x) as Hn.
  { intros x. unfold next_key. simpl. destruct (decide (x = l)) as [->|]; [by rewrite lookup_insert_eq, El | by rewrite lookup_insert_ne]. }
  intros x k Hx. rewrite Hn. intros Hk Ho. destruct (Iwk x k Hx Hk Ho) as (w & wl & ? & Ew & ? & ? & ?).
  assert (w ≠ l) by (intros ->; apply Ip in H; congruence).
  exists w, wl. rewrite Hn. simpl. rewrite lookup_insert_ne by done. done.
Qed.

Lemma sys_woken_inv s st w rest lk : sys_inv (mkSys s st None (w :: rest)) → locks s !! w = Some lk →
  LatchLock.stale lk = true ∨ next_key s w = None → sys_inv (mkSys s (<[w := Guard]> st) None rest).
Proof.
  intros [I Iw Ind Ip Ir Iwk] El Hk. simpl in *. apply NoDup_cons in Ind as [Hni Hnd].
  assert (st !! w = Some Pending) as Hw by (apply Ip; by apply elem_of_cons; left).
  split; simpl; auto.
  - intros x Hx. eapply stage_other; eauto.
  - intros x Hx. rewrite lookup_insert_ne by (intros <-; done). apply Ip. by apply elem_of_cons; right.
  - done.
  - intros x k Hx Hnx Ho. destruct (Iwk x k Hx Hnx Ho) as (y & yl & Hy & Ey & Hys & Hyn & Hym).
    exists y, yl. split_and!; try done. apply elem_of_cons in Hy as [->|]; [|done].
    exfalso. rewrite El in Ey. injection Ey as <-. destruct Hk; congruence.
Qed.

Lemma sys_recycle_inv s st rel pend i ts : sys_inv (mkSys s st rel pend) → sys_inv (mkSys (recycle_slot i ts s) st rel pend).
Proof.
  intros [I Iw Ind Ip Ir Iwk]. simpl in *. destruct (recycle_slot_views i ts s) as (V1 & V2 & V3 & V4 & V5 & V6).
  split; simpl; [by eapply core_views | by rewrite V4 | done..|].
  intros x k. rewrite V4. unfold next_key. rewrite V6, V2. intros Hx Hn Ho.
  destruct (Iwk x k Hx Hn Ho) as (w & wl & ? & Ew & ? & ? & ?). exists w, wl. split_and!; try done.
  destruct (V3 k) as [->| ->]; [done|]. by destruct (ci_locks _ I _ _ Ew) as (_ & _ & _ & ?).
Qed.

Lemma work_inv S S' : sys_inv S → work S S' → sys_inv S'.
Proof.
  intros HI Hstep. destruct Hstep as
    [s st rel pend l lk k s' r Hl El Hs Hk Ha|s st rel pend l Hl Hk|s st rel pend l Hl|s st l Hl
    |s st pend l s' next Ha (lk & El & Hac)|s st pend l lk El Hac|s st w rest lk k s' r El Hs Hk Ha|s st w rest lk El Hk].
  - (* acquire by the task *) pose proof HI as [I Iw Ind Ip Ir Iwk]. simpl in *.
    eapply sys_acquire_inv; try done.
    + intros x Hx ->. apply Ir in Hx. congruence.
    + intros Hx%Ip. congruence.
  - (* all acquired *) by eapply sys_stage_inv.
  - (* drop *) by eapply sys_stage_inv.
  - (* receive *) destruct (sys_stage_inv _ _ _ _ l Queued Releasing HI) as [J Jw Jnd Jp _ Jwk]; [done..|].
    split; simpl in *; auto. intros x [= <-]. by rewrite lookup_insert_eq.
  - (* release one slot *) by eapply sys_release_inv.
  - (* end of release *) destruct HI as [I Iw Ind Ip Ir Iwk]. simpl in *. specialize (Ir l eq_refl) as Hl.
    assert (∀ x v, st !! x = Some v → v ≠ Releasing → delete l st !! x = Some v) as Hst.
    { intros x v Hx Hv. rewrite lookup_delete_ne; [done|congruence]. }
    split; simpl; auto. done.
  - (* wake: acquire one slot *) pose proof HI as [I Iw Ind Ip Ir Iwk]. simpl in *.
    apply NoDup_cons in Ind as Ind'. destruct Ind' as [Hni Hnd].
    assert (st !! w = Some Pending) as Hw by (apply Ip; by apply elem_of_cons; left).
    eapply sys_acquire_inv; try done.
    + by destruct r.
    + intros x [->|Hx]%elem_of_cons Hne; [done|]. destruct r; [by apply elem_of_cons; right | done..].
    + intros x Hx. destruct r; [done | by apply elem_of_cons; right..].
    + destruct r; [done | done..].
  - (* woken *) by eapply sys_woken_inv.
Qed.

Lemma sys_step_inv S S' : sys_inv S → sys_step S S' → sys_inv S'.
Proof.
  intros HI Hstep. destruct Hstep as [S S' Hw|s st rel pend l ts keys El Est Hts|s st rel pend l lk ts Hl El|s st rel pend i ts].
  - by eapply work_inv.
  - by apply sys_lock_inv.
  - by apply sys_commit_ts_inv.
  - by apply sys_recycle_inv.
Qed.

Lemma sys_reachable_inv size S : 0 ≤ size → rtc sys_step (sys_init size) S → sys_inv S.
Proof.
  intros Hs. revert S. apply (rtc_ind_r sys_inv).
  - split; simpl; [by apply core_init | | constructor | by intros x ?%elem_of_nil | done |].
    + intros x [j (slot & E & Hx)]%waits_in_all. simpl in E. apply lookup_replicate in E as [-> _].
      by apply elem_of_nil in Hx.
    + intros x k [j (slot & E & Hx)]%waits_in_all. simpl in E. apply lookup_replicate in E as [-> _].
      by apply elem_of_nil in Hx.
  - intros x y _ Hstep Hx. by eapply sys_step_inv.
Qed.

(** ** Theorems *)

(** [l] has acquired the latch of [k]. *)
Definition holds (s : Latches) (l : nat) (k : Key) : Prop :=
  ∃ lk idx, locks s !! l = Some lk ∧ (idx < LatchLock.acquired_count lk)%nat ∧
    LatchLock.keys lk !! idx = Some k.

(** C6: mutual exclusion.  In every interleaving of any number of committing
    transactions, the unlock scheduler and recycling, two transactions never hold
    the latch of the same key. *)
Theorem latch_mutual_exclusion size S l1 l2 k : 0 ≤ size → rtc sys_step (sys_init size) S →
  holds (lat S) l1 k → holds (lat S) l2 k → l1 = l2.
Proof.
  intros Hs HR (lk1 & i1 & E1 & H1 & K1) (lk2 & i2 & E2 & H2 & K2).
  destruct (sys_reachable_inv size S Hs HR) as [I _ _ _ _ _].
  pose proof (ci_holds _ I _ _ _ _ E1 H1 K1). pose proof (ci_holds _ I _ _ _ _ E2 H2 K2). congruence.
Qed.

(** One transaction locks key [1] on a single slot. *)
Definition sample_sys : Sys :=
  match acquire_slot 0 (set_lock 0 (gen_lock 5 [[1]] (Latches_new 1)) (Latches_new 1)) with
  | Some (s, r) => mkSys s {[0%nat := Running]} None []
  | None => sys_init 1
  end.

Lemma sample_sys_reachable : rtc sys_step (sys_init 1) sample_sys.
Proof.
  eapply rtc_l; [apply (sys_lock _ _ _ _ 0%nat 5 [[1]]); [by vm_compute | done | lia]|].
  apply rtc_once. change sample_sys with (mkSys (lat sample_sys) (<[0%nat := status_after Success Running]>
    (<[0%nat := Running]> ∅)) None []).
  eapply sys_work, (work_acquire _ _ _ _ 0%nat _ [1] (lat sample_sys) Success); by vm_compute.
Qed.

(** A second transaction waits for the key. *)
Definition sample_waiting : Sys :=
  match acquire_slot 1 (set_lock 1 (gen_lock 6 [[1]] (lat sample_sys)) (lat sample_sys)) with
  | Some (s, r) => mkSys s {[0%nat := Running; 1%nat := Blocked]} None []
  | None => sample_sys
  end.

Lemma sample_waiting_reachable : rtc sys_step (sys_init 1) sample_waiting.
Proof.
  etransitivity; [exact sample_sys_reachable|].
  change sample_sys with (mkSys (lat sample_sys) {[0%nat := Running]} None []).
  eapply rtc_l; [apply (sys_lock _ _ _ _ 1%nat 6 [[1]]); [by vm_compute | done | lia]|].
  apply rtc_once.
  assert (sample_waiting = mkSys (lat sample_waiting) (<[1%nat := status_after ALocked Running]>
    (<[1%nat := Running]> {[0%nat := Running]})) None []) as -> by (by vm_compute).
  eapply sys_work, (work_acquire _ _ _ _ 1%nat _ [1] (lat sample_waiting) ALocked); by vm_compute.
Qed.

Lemma sample_waiting_holds : holds (lat sample_waiting) 0 [1].
Proof. eexists _, 0%nat. split; [by vm_compute|]. split; [vm_compute; lia | by vm_compute]. Qed.

Lemma latch_mutual_exclusion_witness :
  holds (lat sample_waiting) 0 [1] ∧ 0%nat = 0%nat ∧ ¬ holds (lat sample_waiting) 1 [1].
Proof.
  split_and!; [exact sample_waiting_holds | |].
  - exact (latch_mutual_exclusion 1 sample_waiting 0 0 [1] ltac:(lia) sample_waiting_reachable
             sample_waiting_holds sample_waiting_holds).
  - intros H. discriminate (latch_mutual_exclusion 1 sample_waiting 1 0 [1] ltac:(lia)
      sample_waiting_reachable H sample_waiting_holds).
Defined.
