(* ===== verification/LatchProgress.v ===== *)
(** * Progress of the latches (src/src/transaction/latch.rs)

    On top of Latches.v: no task that sleeps in [LatchLock::wait] is forgotten, the transactions always find a step to do
    until all of them have had their latches and given them back, and this takes finitely many steps.  The background task,
    which handles one unlock event after the other, is one of the schedules. *)

From stdpp Require Import relations.
From Stdlib Require Import Sorting.Sorted.
From S2P Require Import Prelude Keys Timestamps Latches.

(** The task of [x] sleeps until its lock is woken: the lock waits in a slot, or the scheduler has taken it from there. *)
Definition asleep (S : Sys) (x : nat) : Prop := status S !! x = Some Blocked ∨ status S !! x = Some Pending.

(** ** What the status of a task says *)

Record task_inv (S : Sys) : Prop := {
  ti_blocked : ∀ x, status S !! x = Some Blocked → x ∈ all_waiting (lat S);
  ti_pending : ∀ x, status S !! x = Some Pending → x ∈ pending S;
  ti_releasing : ∀ x, status S !! x = Some Releasing → releasing S = Some x;
  (** a lock that has a latch has a task, and every task has its lock; *)
  ti_held : ∀ x lk, locks (lat S) !! x = Some lk → LatchLock.acquired_count lk ≠ 0%nat → is_Some (status S !! x);
  ti_known : ∀ x, is_Some (status S !! x) → is_Some (locks (lat S) !! x);
  (** a task that still acquires latches is not stale. *)
  ti_fresh : ∀ x lk, status S !! x = Some Running → locks (lat S) !! x = Some lk → LatchLock.stale lk = false
}.

Lemma task_acquire_inv s st rel pend rest l lk k s' r now : core_inv s → task_inv (mkSys s st rel pend) →
  locks s !! l = Some lk → next_key s l = Some k → acquire_slot l s = Some (s', r) →
  st !! l = Some now → now = Running ∨ now = Pending → LatchLock.stale lk = false →
  (∀ x, x ∈ pend → x ≠ l → x ∈ rest) → (now = Pending → r = Success → l ∈ rest) →
  task_inv (mkSys s' (<[l := status_after r now]> st) rel rest).
Proof.
  intros I [Tb Tp Tr Th Tk Tf] El Hk Ha Hnow Hn Hs Hp Hl. unfold next_key in Hk. rewrite El in Hk. cbn in *.
  destruct (acquire_slot_spec l lk k s (ci_slots _ I) (ci_locks _ I _ _ El) El Hk) as (s2 & r2 & E & P).
  rewrite Ha in E. injection E as <- <-.
  assert (∀ x, x ≠ l → locks s' !! x = locks s !! x) as Hlk.
  { intros x Hx. rewrite (ap_locks _ _ _ _ _ _ P). destruct r; by rewrite ?lookup_insert_ne. }
  split; cbn; intros x; destruct (decide (x = l)) as [->|Hx]; rewrite ?lookup_insert_eq, ?(lookup_insert_ne _ _ _ _ (not_eq_sym Hx));
    rewrite ?(Hlk x Hx); try done; try by eauto.
  - rewrite (ap_waiting _ _ _ _ _ _ P). destruct r; cbn; destruct Hn as [->| ->]; try done; intros _; by left.
  - intros Hx'%Tb. rewrite (ap_waiting _ _ _ _ _ _ P). destruct r; [done | by right | done].
  - destruct r; cbn; [|done..]. intros [= ->]. by apply Hl.
  - destruct r; cbn; destruct Hn as [->| ->]; done.
  - intros _. rewrite (ap_locks _ _ _ _ _ _ P). destruct r; rewrite ?lookup_insert_eq; eauto.
  - intros lk' Hr. destruct r; cbn in Hr; [|done..]. rewrite (ap_locks _ _ _ _ _ _ P), lookup_insert_eq. by intros [= <-].
Qed.

(** A task moves on to a status in which it neither sleeps, nor acquires or releases latches. *)
Lemma task_stage_inv s st rel pend rest l old new : task_inv (mkSys s st rel pend) → st !! l = Some old →
  new = Guard ∨ new = Queued → (∀ x, x ∈ pend → x ≠ l → x ∈ rest) → task_inv (mkSys s (<[l := new]> st) rel rest).
Proof.
  intros [Tb Tp Tr Th Tk Tf] Hl Hn Hp. cbn in *. assert (∀ v, new = v → v = Guard ∨ v = Queued) as Hv by (by intros v <-).
  split; cbn; intros x; destruct (decide (x = l)) as [->|Hx]; rewrite ?lookup_insert_eq, ?(lookup_insert_ne _ _ _ _ (not_eq_sym Hx));
    try (intros [= ?%Hv]; naive_solver); eauto. intros lk [= ?%Hv]. naive_solver.
Qed.

(** What the scheduler finds when it releases a latch. *)
Lemma release_step_post s st pend l lk s' next : sys_inv (mkSys s st (Some l) pend) → release_slot l s = Some (s', next) →
  locks s !! l = Some lk → LatchLock.acquired_count lk ≠ 0%nat →
  ∃ idx k h, LatchLock.acquired_count lk = S idx ∧ l ∉ all_waiting s ∧ next = handover_next h ∧ release_post l lk idx k s s' h.
Proof.
  intros [I Iw Ind Ip Ir Iwk] Ha El Hac. cbn in *. specialize (Ir l eq_refl) as Hl.
  destruct (LatchLock.acquired_count lk) as [|idx] eqn:Ea; [done|].
  destruct (ci_locks _ I _ _ El) as (_ & _ & Hle & _).
  destruct (lookup_lt_is_Some_2 (LatchLock.keys lk) idx) as [k Ek]; [lia|].
  destruct (release_slot_spec l lk k idx s (ci_locks _ I _ _ El) El Ea Ek) as (s2 & h & E & P).
  { apply (ci_holds _ I l lk idx k); [done | lia | done]. }
  rewrite Ha in E. injection E as <- Eh. exists idx, k, h. split_and!; [done | by intros Hx%Iw; congruence | done | done].
Qed.

(** The lock that a release takes from a slot was waiting there. *)
Lemma release_waiter s st pend l lk s' w : sys_inv (mkSys s st (Some l) pend) → release_slot l s = Some (s', Some w) →
  locks s !! l = Some lk → LatchLock.acquired_count lk ≠ 0%nat → st !! w = Some Blocked.
Proof.
  intros HI Ha El Hac. destruct (release_step_post _ _ _ _ _ _ _ HI Ha El Hac) as (idx & k & h & _ & _ & Eh & P).
  pose proof (rp_waiting _ _ _ _ _ _ _ P) as Hp. rewrite <- Eh in Hp. apply (si_wait _ HI). cbn. rewrite Hp. by left.
Qed.

Lemma task_release_inv s st pend l lk s' next : sys_inv (mkSys s st (Some l) pend) → task_inv (mkSys s st (Some l) pend) →
  release_slot l s = Some (s', next) → locks s !! l = Some lk → LatchLock.acquired_count lk ≠ 0%nat →
  task_inv (mkSys s' (match next with Some w => <[w := Pending]> st | None => st end) (Some l)
              (match next with Some w => pend ++ [w] | None => pend end)).
Proof.
  intros HI [Tb Tp Tr Th Tk Tf] Ha El Hac. destruct (release_step_post _ _ _ _ _ _ _ HI Ha El Hac) as (idx & k & h & Ea & Hnw & -> & P).
  destruct HI as [I Iw Ind Ip Ir Iwk]. cbn in *. specialize (Ir l eq_refl) as Hl.
  destruct (release_locks _ _ _ _ _ _ _ El Hnw P) as (F1 & F2 & F3).
  pose proof (rp_waiting _ _ _ _ _ _ _ P) as Hp.
  assert (∀ x, is_Some (locks s' !! x) ↔ is_Some (locks s !! x)) as Hsome.
  { intros x. destruct (decide (x = l)) as [->|Hx]; [rewrite F1, El; by split; eauto|].
    destruct (granted_or_not h x) as [[wl Hg]|Hg]; [|by rewrite F2]. destruct (F3 _ _ Hg) as (_ & -> & -> & _). by split; eauto. }
  assert (∀ w, handover_next h = Some w → w ∈ all_waiting s ∧ w ≠ l) as Hw.
  { intros w Ew. rewrite Ew in Hp. assert (w ∈ all_waiting s) by (rewrite Hp; by left). split; [done | by intros ->]. }
  assert (∀ x, is_Some (st !! x) → is_Some ((match handover_next h with Some w => <[w := Pending]> st | None => st end) !! x)) as Hst.
  { intros x Hx. destruct (handover_next h) as [w|]; [|done]. destruct (decide (x = w)) as [->|]; rewrite ?lookup_insert_eq, ?lookup_insert_ne; eauto. }
  assert (∀ x v, (match handover_next h with Some w => <[w := Pending]> st | None => st end) !! x = Some v →
    (handover_next h = Some x ∧ v = Pending) ∨ (handover_next h ≠ Some x ∧ st !! x = Some v)) as Hcase.
  { intros x v. destruct (handover_next h) as [w|]; [|by right]. destruct (decide (x = w)) as [->|Hne].
    - rewrite lookup_insert_eq. intros [= <-]. by left.
    - rewrite lookup_insert_ne by done. right. split; [congruence | done]. }
  split; cbn.
  - intros x [[_ ?]|[Hne Hx%Tb]]%Hcase; [done|]. rewrite Hp in Hx. destruct (handover_next h) as [w|]; [|done].
    apply elem_of_cons in Hx as [->|?]; done.
  - intros x [[-> _]|[_ Hx%Tp]]%Hcase; [apply elem_of_app; right; by left|]. destruct (handover_next h); [|done]. apply elem_of_app. by left.
  - intros x [[_ ?]|[_ Hx%Tr]]%Hcase; done.
  - intros x lk' Ex Hc. apply Hst. destruct (decide (x = l)) as [->|Hx]; [eauto|].
    destruct (granted_or_not h x) as [[wl Hg]|Hg]; [destruct (F3 _ _ Hg) as (_ & _ & _ & _ & Hin%Iw); eauto|].
    rewrite F2 in Ex by done. by eapply Th.
  - intros x [v Hv]. apply Hsome, Tk. apply Hcase in Hv as [[Hn _]|[_ ?]]; [|eauto]. apply Hw in Hn as [?%Iw _]. eauto.
  - intros x lk' [[_ ?]|[Hne Hx]]%Hcase Ex; [done|]. rewrite F2 in Ex; [by eapply Tf | congruence|].
    intros wl Hg. destruct h; cbn in *; simplify_eq.
Qed.

Lemma task_work_inv S S' : sys_inv S → task_inv S → work S S' → task_inv S'.
Proof.
  intros HI HT Hstep. destruct Hstep as
    [s st rel pend l lk k s' r Hl El Hs Hk Ha|s st rel pend l Hl Hk|s st rel pend l Hl|s st l Hl
    |s st pend l s' next Ha (lk & El & Hac)|s st pend l lk El Hac|s st w rest lk k s' r El Hs Hk Ha|s st w rest lk El Hk].
  - eapply (task_acquire_inv s st rel pend pend l lk k s' r Running); eauto. { exact (si_core _ HI). } done.
  - eapply task_stage_inv; eauto.
  - eapply task_stage_inv; eauto.
  - destruct HT as [Tb Tp Tr Th Tk Tf]. cbn in *.
    split; cbn; intros x; destruct (decide (x = l)) as [->|Hx]; rewrite ?lookup_insert_eq, ?(lookup_insert_ne _ _ _ _ (not_eq_sym Hx)); eauto; try done.
    intros Hr%Tr. done.
  - by eapply task_release_inv.
  - pose proof (si_rel _ HI l eq_refl) as Hl. destruct HT as [Tb Tp Tr Th Tk Tf]. cbn in *.
    split; cbn; intros x; destruct (decide (x = l)) as [->|Hx]; rewrite ?lookup_delete_eq, ?(lookup_delete_ne _ _ _ (not_eq_sym Hx)); eauto; try done.
    + intros Hr%Tr. congruence.
    + intros lk' E Hc. congruence.
  - assert (st !! w = Some Pending) as Hw by (apply (si_pend _ HI w); by left).
    eapply (task_acquire_inv s st None (w :: rest) _ w lk k s' r Pending); eauto.
    + exact (si_core _ HI).
    + intros x [->|Hx]%elem_of_cons Hne; [done|]. destruct r; [by right | done..].
    + intros _ ->. by left.
  - assert (st !! w = Some Pending) as Hw by (apply (si_pend _ HI w); by left).
    eapply task_stage_inv; eauto. intros x [->|Hx]%elem_of_cons Hne; done.
Qed.

Lemma task_step_inv S S' : sys_inv S → task_inv S → sys_step S S' → task_inv S'.
Proof.
  intros HI HT Hstep. destruct Hstep as [S S' Hw|s st rel pend l ts keys El Est Hts|s st rel pend l lk ts Hl El|s st rel pend i ts].
  - by eapply task_work_inv.
  - destruct HT as [Tb Tp Tr Th Tk Tf]. cbn in *. split; cbn; intros x; destruct (decide (x = l)) as [->|Hx];
      rewrite ?lookup_insert_eq, ?(lookup_insert_ne _ _ _ _ (not_eq_sym Hx)); eauto; try done. by intros lk _ [= <-].
  - destruct HT as [Tb Tp Tr Th Tk Tf]. cbn in *. split; cbn; eauto; intros x; destruct (decide (x = l)) as [->|Hx];
      rewrite ?lookup_insert_eq, ?(lookup_insert_ne _ _ _ _ (not_eq_sym Hx)); eauto. intros lk'. rewrite Hl. done.
  - destruct HT as [Tb Tp Tr Th Tk Tf]. cbn in *. destruct (recycle_slot_views i ts s) as (V1 & V2 & V3 & V4 & V5 & V6).
    split; cbn; rewrite ?V4, ?V6; done.
Qed.

Lemma reachable_task_inv size S : 0 ≤ size → rtc sys_step (sys_init size) S → sys_inv S ∧ task_inv S.
Proof.
  intros Hs Hr. split; [by eapply sys_reachable_inv|]. revert S Hr. apply (rtc_ind_r task_inv).
  - split; cbn; try done. by intros x [].
  - intros x y Hx Hstep HT. eapply task_step_inv; [by eapply sys_reachable_inv | done | done].
Qed.

(** ** The transactions run out of steps *)

(** How many steps a lock can still make and cause: [n] keys, [a] of them acquired.  Each latch it releases lets one other lock go on. *)
Definition task_weight (v : Status) (lk : LatchLock.t) : nat :=
  let n := length (LatchLock.keys lk) in
  let a := LatchLock.acquired_count lk in
  match v with
  | Running => 10 * n + (n - a) + 6
  | Pending => 10 * n + (n - a) + 5
  | Blocked => 10 * n + (n - a) + 4
  | Guard => 10 * a + 3
  | Queued => 10 * a + 2
  | Releasing => 10 * a + 1
  end.
Definition weight_of (S : Sys) (x : nat) : nat :=
  match status S !! x, locks (lat S) !! x with Some v, Some lk => task_weight v lk | _, _ => 0 end.
Definition weight (ids : list nat) (S : Sys) : nat := sum_list_with (weight_of S) ids.

Lemma weight_of_task S x v lk : status S !! x = Some v → locks (lat S) !! x = Some lk → weight_of S x = task_weight v lk.
Proof. unfold weight_of. by intros -> ->. Qed.

Lemma sum_list_with_le {A} (f g d e : A → nat) ids : (∀ x, g x + d x ≤ f x + e x)%nat →
  (sum_list_with g ids + sum_list_with d ids ≤ sum_list_with f ids + sum_list_with e ids)%nat.
Proof. intros H. induction ids as [|x ids IH]; cbn; [lia|]. specialize (H x). lia. Qed.

Lemma sum_indicator_ge (l : nat) c ids : l ∈ ids → (c ≤ sum_list_with (λ x, if decide (x = l) then c else 0) ids)%nat.
Proof. induction ids as [|x ids IH]; cbn; [by intros ?%elem_of_nil|]. intros [->|?%IH]%elem_of_cons; [|lia]. rewrite decide_True by done. lia. Qed.

Lemma sum_indicator_out (y : nat) ids : y ∉ ids → sum_list_with (λ x, if decide (Some y = Some x) then 1 else 0)%nat ids = 0%nat.
Proof.
  induction ids as [|x ids IH]; cbn; [done|]. intros [? ?]%not_elem_of_cons. rewrite decide_False by congruence. by rewrite IH.
Qed.

Lemma sum_indicator_le (w : option nat) ids : NoDup ids →
  (sum_list_with (λ x, if decide (w = Some x) then 1 else 0) ids ≤ match w with Some _ => 1 | None => 0 end)%nat.
Proof.
  induction 1 as [|x ids Hni Hnd IH]; cbn; [by destruct w; lia|]. case_decide as E; [|done]. subst w. rewrite sum_indicator_out by done. lia.
Qed.

(** A step that takes [c] from the weight of [l], and adds at most one to that of [w], takes something from the weight. *)
Lemma weight_drop ids (f g : nat → nat) l c (w : option nat) : NoDup ids → l ∈ ids → (match w with Some _ => 1 | None => 0 end < c)%nat →
  (∀ x, g x + (if decide (x = l) then c else 0) ≤ f x + (if decide (w = Some x) then 1 else 0))%nat →
  (sum_list_with g ids < sum_list_with f ids)%nat.
Proof.
  intros Hnd Hl Hc H. apply (sum_list_with_le f g _ _ ids) in H. pose proof (sum_indicator_ge l c ids Hl). pose proof (sum_indicator_le w ids Hnd). lia.
Qed.

(** ... and one that only makes [l] lighter, too. *)
Lemma weight_drop_one ids S S' l : NoDup ids → l ∈ ids → (∀ x, x ≠ l → weight_of S' x = weight_of S x) →
  (weight_of S' l < weight_of S l)%nat → (weight ids S' < weight ids S)%nat.
Proof.
  intros Hnd Hl Hx Hlt. apply (weight_drop ids (weight_of S) (weight_of S') l 1 None); [done | done | lia|].
  intros x. rewrite (decide_False (P := None = Some x)) by done. destruct (decide (x = l)) as [->|]; [lia|]. rewrite Hx by done. lia.
Qed.

Lemma weight_stage ids s st rel rel' pend pend' l lk old new : NoDup ids → l ∈ ids → st !! l = Some old → locks s !! l = Some lk →
  (task_weight new lk < task_weight old lk)%nat →
  (weight ids (mkSys s (<[l := new]> st) rel' pend') < weight ids (mkSys s st rel pend))%nat.
Proof.
  intros Hnd Hl Hst El Hlt. apply (weight_drop_one ids _ _ l); [done | done | |].
  - intros x Hx. unfold weight_of. cbn. by rewrite lookup_insert_ne.
  - erewrite weight_of_task; [|cbn; by rewrite lookup_insert_eq | exact El]. by erewrite weight_of_task.
Qed.

Lemma weight_acquire ids s st rel pend rest l lk k s' r now : core_inv s → NoDup ids → l ∈ ids →
  locks s !! l = Some lk → next_key s l = Some k → acquire_slot l s = Some (s', r) → st !! l = Some now → now = Running ∨ now = Pending →
  (weight ids (mkSys s' (<[l := status_after r now]> st) rel rest) < weight ids (mkSys s st rel pend))%nat.
Proof.
  intros I Hnd Hl El Hk Ha Hst Hn. unfold next_key in Hk. rewrite El in Hk. cbn in Hk.
  destruct (acquire_slot_spec l lk k s (ci_slots _ I) (ci_locks _ I _ _ El) El Hk) as (s2 & r2 & E & P).
  rewrite Ha in E. injection E as <- <-. pose proof (lookup_lt_Some _ _ _ Hk) as Hlt.
  apply (weight_drop_one ids _ _ l); [done | done | |].
  - intros x Hx. unfold weight_of. cbn. rewrite lookup_insert_ne, (ap_locks _ _ _ _ _ _ P) by done. destruct r; by rewrite ?lookup_insert_ne.
  - rewrite (weight_of_task (mkSys s st rel pend) l now lk Hst El). unfold weight_of. cbn. rewrite lookup_insert_eq, (ap_locks _ _ _ _ _ _ P).
    destruct r; rewrite ?lookup_insert_eq, ?El; destruct Hn as [->| ->]; unfold task_weight; cbn; lia.
Qed.

Lemma weight_release ids s st pend l lk s' next : sys_inv (mkSys s st (Some l) pend) → NoDup ids → l ∈ ids →
  release_slot l s = Some (s', next) → locks s !! l = Some lk → LatchLock.acquired_count lk ≠ 0%nat →
  (weight ids (mkSys s' (match next with Some w => <[w := Pending]> st | None => st end) (Some l)
     (match next with Some w => pend ++ [w] | None => pend end)) < weight ids (mkSys s st (Some l) pend))%nat.
Proof.
  intros HI Hnd Hl Ha El Hac. destruct (release_step_post _ _ _ _ _ _ _ HI Ha El Hac) as (idx & k & h & Ea & Hnw & -> & P).
  destruct HI as [I Iw Ind Ip Ir Iwk]. cbn in *. specialize (Ir l eq_refl) as Hst.
  destruct (release_locks _ _ _ _ _ _ _ El Hnw P) as (F1 & F2 & F3).
  pose proof (rp_waiting _ _ _ _ _ _ _ P) as Hp.
  apply (weight_drop ids _ _ l 10 (handover_next h)); [done | done | by destruct (handover_next h); lia|].
  intros x. destruct (decide (x = l)) as [->|Hx].
  - assert (handover_next h ≠ Some l) as Hn. { intros Eh. rewrite Eh in Hp. apply Hnw. rewrite Hp. by left. }
    rewrite (decide_False _ _ Hn). unfold weight_of. cbn. rewrite F1, El.
    assert ((match handover_next h with Some w => <[w := Pending]> st | None => st end) !! l = Some Releasing) as ->.
    { destruct (handover_next h); [|done]. rewrite lookup_insert_ne by congruence. done. }
    rewrite Hst. unfold task_weight. cbn. rewrite Ea. lia.
  - destruct (decide (handover_next h = Some x)) as [Eh|Eh].
    + rewrite Eh in *. assert (st !! x = Some Blocked) as Hb by (apply Iw; rewrite Hp; by left).
      destruct (granted_or_not h x) as [[wl Hg]|Hg].
      * destruct (F3 _ _ Hg) as (_ & E1 & E2 & Hk & _). pose proof (lookup_lt_Some _ _ _ Hk).
        unfold weight_of. cbn. rewrite lookup_insert_eq, E1, E2, Hb. unfold task_weight. cbn. lia.
      * unfold weight_of. cbn. rewrite lookup_insert_eq, (F2 x Hx Hg), Hb. destruct (locks s !! x); [|lia]. unfold task_weight. cbn. lia.
    + unfold weight_of. cbn. assert (∀ wl, granted h ≠ Some (x, wl)) as Hg by (intros wl Hg; destruct h; cbn in *; congruence).
      rewrite (F2 x Hx Hg). assert ((match handover_next h with Some w => <[w := Pending]> st | None => st end) !! x = st !! x) as ->; [|lia].
      destruct (handover_next h); [|done]. rewrite lookup_insert_ne by congruence. done.
Qed.

Lemma weight_work ids S S' : sys_inv S → task_inv S → work S S' → NoDup ids → (∀ x, is_Some (status S !! x) → x ∈ ids) →
  (weight ids S' < weight ids S)%nat ∧ ∀ x, is_Some (status S' !! x) → x ∈ ids.
Proof.
  intros HI HT Hstep Hnd Hids.
  assert (∀ (st : gmap nat Status) l v (x : nat), (∀ x, is_Some (st !! x) → x ∈ ids) → is_Some (st !! l) →
    is_Some (<[l := v]> st !! x) → x ∈ ids) as Hins.
  { intros st l v x Hst Hl. destruct (decide (x = l)) as [->|]; [by intros _; apply Hst|]. rewrite lookup_insert_ne by done. apply Hst. }
  pose proof (si_core _ HI) as I. destruct Hstep as
    [s st rel pend l lk k s' r Hl El Hs Hk Ha|s st rel pend l Hl Hk|s st rel pend l Hl|s st l Hl
    |s st pend l s' next Ha (lk & El & Hac)|s st pend l lk El Hac|s st w rest lk k s' r El Hs Hk Ha|s st w rest lk El Hk]; cbn in *.
  - split; [|eauto]. eapply weight_acquire; eauto.
  - destruct (ti_known _ HT l) as [lk El]; [cbn; eauto|]. split; [|eauto]. destruct (ci_locks _ I _ _ El) as (_ & _ & ? & _).
    eapply weight_stage; eauto. unfold task_weight. lia.
  - destruct (ti_known _ HT l) as [lk El]; [cbn; eauto|]. split; [|eauto]. eapply weight_stage; eauto. unfold task_weight. lia.
  - destruct (ti_known _ HT l) as [lk El]; [cbn; eauto|]. split; [|eauto]. eapply weight_stage; eauto. unfold task_weight. lia.
  - pose proof (si_rel _ HI l eq_refl) as Hl. cbn in Hl. split; [eapply weight_release; eauto|]. destruct next as [w|]; [|done].
    intros x. apply Hins; [done|]. exists Blocked. by eapply release_waiter.
  - pose proof (si_rel _ HI l eq_refl) as Hl. cbn in Hl. split.
    + apply (weight_drop_one ids _ _ l); [done | eauto | |].
      * intros x Hx. unfold weight_of. cbn. by rewrite lookup_delete_ne.
      * rewrite (weight_of_task (mkSys s st (Some l) pend) l Releasing lk Hl El). unfold weight_of. cbn. rewrite lookup_delete_eq. unfold task_weight. lia.
    + intros x. destruct (decide (x = l)) as [->|]; [rewrite lookup_delete_eq; by intros []|]. rewrite lookup_delete_ne by done. apply Hids.
  - assert (st !! w = Some Pending) as Hw by (apply (si_pend _ HI w); by left). split; [|eauto]. eapply weight_acquire; eauto.
  - assert (st !! w = Some Pending) as Hw by (apply (si_pend _ HI w); by left). split; [|eauto].
    destruct (ci_locks _ I _ _ El) as (_ & _ & ? & _). eapply weight_stage; eauto. unfold task_weight. lia.
Qed.

(** [n] steps take [n] from the weight. *)
Lemma weight_steps ids n S S' : nsteps work n S S' → sys_inv S → task_inv S → NoDup ids → (∀ x, is_Some (status S !! x) → x ∈ ids) →
  (n + weight ids S' ≤ weight ids S)%nat.
Proof.
  induction 1 as [S|n S S1 S' Hw _ IH]; intros HI HT Hnd Hids; [lia|].
  destruct (weight_work ids S S1 HI HT Hw Hnd Hids) as [Hlt Hids'].
  specialize (IH (work_inv _ _ HI Hw) (task_work_inv _ _ HI HT Hw) Hnd Hids'). lia.
Qed.

(** ** There is always a step to do *)

(** A waiting lock whose next key is the greatest among the waiting ones. *)
Lemma max_waiter s l L : (∀ x, x ∈ l :: L → ∃ k, next_key s x = Some k) →
  ∃ x k, x ∈ l :: L ∧ next_key s x = Some k ∧
    ∀ y ky, y ∈ l :: L → next_key s y = Some ky → key_le ky k.
Proof.
  revert l. induction L as [|a L IH]; intros l H.
  - destruct (H l) as [k Hk]; [by apply elem_of_cons; left|]. exists l, k. split_and!; [by apply elem_of_cons; left | done |].
    intros y ky [->|?%elem_of_nil]%elem_of_cons Hy; [|done]. simplify_eq. apply KeyOrder.le_refl.
  - destruct (IH a) as (x & k & Hx & Hk & Hm); [intros y Hy; apply H; by apply elem_of_cons; right|].
    destruct (H l) as [kl Hkl]; [by apply elem_of_cons; left|].
    destruct (decide (key_le kl k)) as [Hle|Hgt].
    + exists x, k. split_and!; [by apply elem_of_cons; right | done |].
      intros y ky [->|Hy]%elem_of_cons Hyk; [by simplify_eq | by eapply Hm].
    + apply key_not_le in Hgt. exists l, kl. split_and!; [by apply elem_of_cons; left | done |].
      intros y ky [->|Hy]%elem_of_cons Hyk; [simplify_eq; apply KeyOrder.le_refl|].
      specialize (Hm y ky Hy Hyk). key_order.
Qed.

(** A lock that waits waits for a key that is owned, or somebody is about to take it. *)
Lemma waiter_owner S x : sys_inv S → pending S = [] → x ∈ all_waiting (lat S) →
  ∃ k o, next_key (lat S) x = Some k ∧ owner (lat S) k = Some o ∧ ∀ k', next_key (lat S) o = Some k' → key_lt k k'.
Proof.
  intros [I _ _ _ _ W] Hp Hx. rewrite Hp in W. pose proof Hx as [j Hj]%waits_in_all.
  destruct (ci_waits _ I _ _ Hj) as (lk & k & E & _ & Hk & _). exists k. destruct (owner (lat S) k) as [o|] eqn:Eo.
  - exists o. split_and!; [done..|]. intros k' Hk'. destruct (ci_owns _ I _ _ Eo) as (ol & idx & Eol & Hi & Hko).
    unfold next_key in Hk'. rewrite Eol in Hk'. cbn in Hk'. eapply sorted_keys_lt; [by eapply ci_locks | exact Hi | done | done].
  - by destruct (W x k Hx Hk Eo) as (w & _ & ?%elem_of_nil & _).
Qed.

(** If anyone waits, some owner does not. *)
Lemma some_owner_runs S : sys_inv S → pending S = [] → all_waiting (lat S) ≠ [] →
  ∃ k o, owner (lat S) k = Some o ∧ o ∉ all_waiting (lat S).
Proof.
  intros HI Hp Hne. pose proof (waiter_owner S) as Hall. destruct (all_waiting (lat S)) as [|l L] eqn:EL; [done|].
  destruct (max_waiter (lat S) l L) as (x & k & Hx & Hk & Hm).
  { intros x Hx. destruct (Hall x HI Hp) as (k & _ & ? & _); [by rewrite ?EL | eauto]. }
  destruct (Hall x HI Hp) as (k' & o & Hk' & Ho & Hlt); [by rewrite ?EL|]. simplify_eq. exists k, o. split; [done|].
  intros Hin. destruct (Hall o HI Hp) as (k2 & o2 & Hk2 & _); [by rewrite ?EL|]. specialize (Hlt _ Hk2).
  specialize (Hm _ _ Hin Hk2). key_order.
Qed.

Lemma acquire_possible s l lk k : core_inv s → locks s !! l = Some lk → next_key s l = Some k → ∃ s' r, acquire_slot l s = Some (s', r).
Proof.
  intros I El Hk. unfold next_key in Hk. rewrite El in Hk.
  destruct (acquire_slot_spec l lk k s (ci_slots _ I) (ci_locks _ I _ _ El) El Hk) as (s2 & r2 & E & _). eauto.
Qed.

(** The scheduler goes on while it releases a lock or has locks to wake. *)
Lemma scheduler_works S : sys_inv S → task_inv S → releasing S ≠ None ∨ pending S ≠ [] → ∃ S', work S S'.
Proof.
  destruct S as [s st rel pend]. intros HI HT. pose proof (si_core _ HI) as I. cbn in *. destruct rel as [l|].
  - intros _. pose proof (si_rel _ HI l eq_refl) as Hl. destruct (ti_known _ HT l) as [lk El]; [eauto|]. cbn in El.
    destruct (LatchLock.acquired_count lk) as [|idx] eqn:Ea; [eexists; by eapply work_released|].
    destruct (ci_locks _ I _ _ El) as (_ & _ & Hle & _). destruct (lookup_lt_is_Some_2 (LatchLock.keys lk) idx) as [k Ek]; [lia|].
    destruct (release_slot_spec l lk k idx s (ci_locks _ I _ _ El) El Ea Ek) as (s2 & h & E & _).
    { apply (ci_holds _ I l lk idx k); [done | lia | done]. }
    eexists. eapply work_release; [exact E|]. exists lk. by rewrite Ea.
  - destruct pend as [|w rest]; [by intros [?|?]|]. intros _. assert (w ∈ w :: rest) as Hw by (by left). apply (si_pend _ HI) in Hw. cbn in Hw.
    destruct (ti_known _ HT w) as [lk El]; [cbn; eauto|]. cbn in El.
    destruct (next_key s w) as [k|] eqn:Ek; [|eexists; eapply work_woken; eauto].
    destruct (LatchLock.stale lk) eqn:Es; [eexists; eapply work_woken; eauto|].
    destruct (acquire_possible s w lk k I El Ek) as (s' & r & E). eexists. by eapply work_wake.
Qed.

(** While there is a task, there is a step. *)
Lemma tasks_work S : sys_inv S → task_inv S → status S ≠ ∅ → ∃ S', work S S'.
Proof.
  intros HI HT Hne. destruct (decide (releasing S = None ∧ pending S = [])) as [[Hr Hp]|Hb].
  2:{ apply scheduler_works; [done | done|]. destruct (releasing S); [by left|]. right. intros E. by apply Hb. }
  assert (∀ x v, status S !! x = Some v → v ≠ Blocked → ∃ S', work S S') as Hstep.
  { intros x v Hx Hv. destruct (ti_known _ HT x) as [lk El]; [eauto|]. pose proof (ti_pending _ HT x) as Tp. pose proof (ti_releasing _ HT x) as Tr.
    pose proof (ti_fresh _ HT x lk) as Tf. pose proof (si_core _ HI) as I. destruct S as [s st rel pend]. cbn in *. subst rel pend. destruct v.
    - destruct (next_key s x) as [k|] eqn:Ek; [|eexists; by eapply work_acquired].
      destruct (acquire_possible s x lk k I El Ek) as (s' & r & E). eexists. eapply work_acquire; eauto.
    - done.
    - eexists. by eapply work_drop.
    - eexists. by eapply work_recv.
    - by discriminate (Tr Hx).
    - by apply Tp, elem_of_nil in Hx. }
  apply map_choose in Hne as (x & v & Hx). destruct (decide (v = Blocked)) as [->|Hv]; [|by eapply Hstep].
  apply (ti_blocked _ HT) in Hx. destruct (some_owner_runs S HI Hp) as (k & o & Ho & Hno); [by intros E; rewrite E in Hx; apply elem_of_nil in Hx|].
  destruct (ci_owns _ (si_core _ HI) _ _ Ho) as (ol & idx & Eol & Hi & _). destruct (ti_held _ HT o ol Eol) as [v Hv]; [lia|].
  apply (Hstep o v Hv). intros ->. by apply Hno, (ti_blocked _ HT).
Qed.

(** ** The background task

    [Latches::acquire], [Latches::release] and [LatchesScheduler::wakeup] take several steps.  Run without
    interruption, they are schedules of the system. *)

Lemma rtc_work_inv S S' : rtc work S S' → sys_inv S → task_inv S → sys_inv S' ∧ task_inv S'.
Proof. induction 1 as [|S S1 S' Hw _ IH]; intros HI HT; [done|]. apply IH; [by eapply work_inv | by eapply task_work_inv]. Qed.

Lemma acquire_slot_locks l s s' r x : acquire_slot l s = Some (s', r) → is_Some (locks s !! x) → is_Some (locks s' !! x).
Proof.
  unfold acquire_slot. intros H Hx. repeat (case_match || (apply bind_Some in H as (? & ? & H))); simplify_eq; cbn; try done;
    (destruct (decide (x = l)) as [->|]; [rewrite lookup_insert_eq; eauto | by rewrite lookup_insert_ne]).
Qed.

Section one_waiter.
Context (w : nat) (rest : list nat) (st : gmap nat Status).

Lemma acquire_loop_runs fuel : ∀ s lk, sys_inv (mkSys s st None (w :: rest)) → task_inv (mkSys s st None (w :: rest)) →
  locks s !! w = Some lk → LatchLock.stale lk = false → (LatchLock.required_len lk ≤ LatchLock.acquired_count lk + fuel)%nat →
  ∃ s' r, acquire_loop fuel w s = Some (s', r) ∧ (∀ x, is_Some (locks s !! x) → is_Some (locks s' !! x)) ∧
    rtc work (mkSys s st None (w :: rest)) (mkSys s' (<[w := match r with ALocked => Blocked | _ => Guard end]> st) None rest).
Proof.
  induction fuel as [|fuel IH]; intros s lk HI HT El Hs Hf; pose proof (si_core _ HI) as I; cbn in I;
    pose proof (required_len_keys _ _ (ci_locks _ I _ _ El)) as Hlen; cbn [acquire_loop]; rewrite El; cbn [mbind option_bind].
  all: destruct (Nat.ltb_spec (LatchLock.acquired_count lk) (LatchLock.required_len lk)) as [Hlt|Hge]; try lia.
  all: try (exists s, Success; split_and!; [done | done|]; apply rtc_once; eapply work_woken; [exact El|]; right;
    unfold next_key; rewrite El; cbn; apply lookup_ge_None_2; lia).
  destruct (lookup_lt_is_Some_2 (LatchLock.keys lk) (LatchLock.acquired_count lk)) as [k Ek]; [lia|].
  assert (next_key s w = Some k) as Hk by (unfold next_key; by rewrite El).
  destruct (acquire_slot_spec w lk k s (ci_slots _ I) (ci_locks _ I _ _ El) El Ek) as (s1 & r1 & E & P). rewrite E. cbn.
  assert (work (mkSys s st None (w :: rest)) (mkSys s1 (<[w := status_after r1 Pending]> st) None
    (match r1 with Success => w :: rest | _ => rest end))) as Hw by (by eapply work_wake).
  pose proof (λ x, acquire_slot_locks w s s1 r1 x E) as Hlocks.
  destruct r1; [|exists s1, ALocked; split_and!; [done | done | by apply rtc_once] | exists s1, Stale; split_and!; [done | done | by apply rtc_once]].
  assert (<[w := Pending]> st = st) as Est by (apply insert_id, (si_pend _ HI w); by left). cbn in Hw. rewrite Est in Hw.
  destruct (IH s1 (LatchLock.inc_acquired lk)) as (s' & r & -> & Hl & Hr).
  - by eapply work_inv.
  - by eapply task_work_inv.
  - by rewrite (ap_locks _ _ _ _ _ _ P), lookup_insert_eq.
  - done.
  - unfold LatchLock.required_len in *. cbn. lia.
  - exists s', r. split_and!; [done | eauto | by eapply rtc_l].
Qed.

Lemma acquire_runs s : sys_inv (mkSys s st None (w :: rest)) → task_inv (mkSys s st None (w :: rest)) →
  ∃ s' r, acquire w s = Some (s', r) ∧ (∀ x, is_Some (locks s !! x) → is_Some (locks s' !! x)) ∧
    rtc work (mkSys s st None (w :: rest)) (mkSys s' (<[w := match r with ALocked => Blocked | _ => Guard end]> st) None rest).
Proof.
  intros HI HT. assert (st !! w = Some Pending) as Hw by (apply (si_pend _ HI w); by left).
  destruct (ti_known _ HT w) as [lk El]; [cbn; eauto|]. cbn in El. unfold acquire. rewrite El. cbn.
  destruct (LatchLock.stale lk) eqn:Es; [|eapply acquire_loop_runs; eauto; lia].
  exists s, Stale. split_and!; [done | done|]. apply rtc_once. eapply work_woken; eauto.
Qed.
End one_waiter.

(** [wakeup]: every lock is woken, and its task gets its guard, or it waits again. *)
Lemma wakeup_runs ws : ∀ s st acc, sys_inv (mkSys s st None ws) → task_inv (mkSys s st None ws) →
  ∃ s' woken st', wakeup ws s acc = Some (s', acc ++ woken) ∧ rtc work (mkSys s st None ws) (mkSys s' st' None []) ∧
    (∀ x, is_Some (locks s !! x) → is_Some (locks s' !! x)) ∧
    (∀ x, x ∈ woken → x ∈ ws) ∧
    (∀ x, st' !! x = if decide (x ∈ woken) then Some Guard else if decide (x ∈ ws) then Some Blocked else st !! x).
Proof.
  induction ws as [|w ws IH]; intros s st acc HI HT; cbn [wakeup].
  { exists s, [], st. rewrite app_nil_r. split_and!; [done | done | done | done|]. intros x. rewrite !decide_False; [done|..]; by apply not_elem_of_nil. }
  destruct (acquire_runs w ws st s HI HT) as (s1 & r & -> & Hl1 & Hr1). cbn.
  destruct (rtc_work_inv _ _ Hr1 HI HT) as [HI1 HT1]. pose proof (si_nodup _ HI) as [Hni _]%NoDup_cons.
  destruct (IH s1 _ (match r with ALocked => acc | _ => acc ++ [w] end) HI1 HT1) as (s' & woken & st' & -> & Hr & Hl & Hin & Hst).
  assert (w ∉ woken) as Hnw by (by intros ?%Hin).
  exists s', (match r with ALocked => woken | _ => w :: woken end), st'. split_and!.
  - destruct r; by rewrite <- ?app_assoc.
  - by etransitivity.
  - eauto.
  - intros x. destruct r; rewrite ?elem_of_cons; naive_solver.
  - intros x. rewrite Hst. destruct (decide (x = w)) as [->|Hne].
    + rewrite lookup_insert_eq. destruct r; repeat case_decide; set_solver.
    + rewrite lookup_insert_ne by done. destruct r; repeat case_decide; set_solver.
Qed.

(** [release]: the locks taken from the slots were asleep there. *)
Lemma release_loop_runs l fuel : ∀ s st pend lk acc, sys_inv (mkSys s st (Some l) pend) → task_inv (mkSys s st (Some l) pend) →
  locks s !! l = Some lk → (LatchLock.acquired_count lk ≤ fuel)%nat →
  ∃ s' ws st' lk', release_loop fuel l s acc = Some (s', acc ++ ws) ∧
    rtc work (mkSys s st (Some l) pend) (mkSys s' st' (Some l) (pend ++ ws)) ∧
    locks s' !! l = Some lk' ∧ LatchLock.acquired_count lk' = 0%nat ∧
    (∀ x, x ∈ ws → st !! x = Some Blocked) ∧ (∀ x, x ∉ ws → st' !! x = st !! x).
Proof.
  induction fuel as [|fuel IH]; intros s st pend lk acc HI HT El Hf; cbn [release_loop]; rewrite El; cbn [mbind option_bind].
  all: destruct (LatchLock.acquired_count lk) as [|idx] eqn:Ea; [exists s, [], st, lk; rewrite !app_nil_r;
    split_and!; [done | done | done | done | by intros ? ?%elem_of_nil | done] | try lia].
  destruct (ci_locks _ (si_core _ HI) _ _ El) as (_ & _ & Hle & _). destruct (lookup_lt_is_Some_2 (LatchLock.keys lk) idx) as [k Ek]; [lia|].
  destruct (release_slot_spec l lk k idx s (ci_locks _ (si_core _ HI) _ _ El) El Ea Ek) as (s1 & h & E & P).
  { apply (ci_holds _ (si_core _ HI) l lk idx k); [done | lia | done]. }
  rewrite E. cbn.
  assert (l ∉ all_waiting s) as Hnw. { intros Hx%(si_wait _ HI). pose proof (si_rel _ HI l eq_refl). cbn in *. congruence. }
  destruct (release_locks _ _ _ _ _ _ _ El Hnw P) as (F1 & _).
  assert (∃ lk, locks s !! l = Some lk ∧ LatchLock.acquired_count lk ≠ 0%nat) as Hlk by (exists lk; split; [done | lia]).
  pose proof (work_release s st pend l s1 (handover_next h) E Hlk) as Hw.
  destruct (IH s1 _ _ (LatchLock.set_acquired idx lk) (match handover_next h with Some n => acc ++ [n] | None => acc end)
    (work_inv _ _ HI Hw) (task_work_inv _ _ HI HT Hw) F1) as (s' & ws & st' & lk' & -> & Hr & El' & Ea' & Hb & Hst); [cbn; lia|].
  pose proof (release_waiter s st pend l lk s1) as Hwaiter.
  exists s', (match handover_next h with Some w => w :: ws | None => ws end), st', lk'.
  destruct (handover_next h) as [w|]; rewrite <- ?app_assoc in *; (split_and!; [done | by eapply rtc_l | done | done | |]); try done.
  - specialize (Hwaiter w HI E El). intros x [->|Hx]%elem_of_cons; [apply Hwaiter; lia|].
    specialize (Hb x Hx). destruct (decide (x = w)) as [->|]; [by rewrite lookup_insert_eq in Hb | by rewrite lookup_insert_ne in Hb].
  - intros x [? ?]%not_elem_of_cons. rewrite Hst by done. by rewrite lookup_insert_ne.
Qed.

(** One unlock event: the background task releases the latches of [l] and wakes up whom it can. *)
Lemma handle_unlock_runs l last counter s st : sys_inv (mkSys s st None []) → task_inv (mkSys s st None []) → st !! l = Some Queued →
  ∃ s' woken last' counter' b st', handle_unlock l last counter s = Some (s', woken, last', counter', b) ∧
    rtc work (mkSys s st None []) (mkSys s' st' None []) ∧ st' !! l = None ∧
    (∀ x, x ∈ woken → st !! x = Some Blocked ∧ st' !! x = Some Guard) ∧
    (∀ x, x ≠ l → x ∉ woken → st' !! x = st !! x).
Proof.
  intros HI HT Hl. destruct (ti_known _ HT l) as [lk El]; [cbn; eauto|]. cbn in El.
  pose proof (work_recv s st l Hl) as Hrecv. pose proof (work_inv _ _ HI Hrecv) as HI1. pose proof (task_work_inv _ _ HI HT Hrecv) as HT1.
  destruct (release_loop_runs l (LatchLock.acquired_count lk) s _ _ lk [] HI1 HT1 El) as (s1 & ws & st1 & lk1 & E1 & R1 & El1 & Ea1 & Hb1 & Hst1); [lia|].
  destruct (rtc_work_inv _ _ R1 HI1 HT1) as [HI2 HT2]. pose proof (work_released s1 st1 ([] ++ ws) l lk1 El1 Ea1) as Hrel.
  pose proof (work_inv _ _ HI2 Hrel) as HI3. pose proof (task_work_inv _ _ HI2 HT2 Hrel) as HT3.
  destruct (wakeup_runs ws s1 (delete l st1) [] HI3 HT3) as (s2 & woken & st2 & E2 & R2 & Hlocks & Hin & Hst2).
  destruct (Hlocks l) as [lk2 El2]; [eauto|]. unfold handle_unlock, release. rewrite El. cbn. rewrite E1. cbn. rewrite E2. cbn. rewrite El2. cbn.
  assert (∀ x, x ∈ ws → x ≠ l ∧ st !! x = Some Blocked) as Hws.
  { intros x Hx%Hb1. destruct (decide (x = l)) as [->|]; [by rewrite lookup_insert_eq in Hx|]. by rewrite lookup_insert_ne in Hx. }
  assert (∃ last' counter' b, (if should_recycle (LatchLock.commit_ts lk2) (LatchLock.start_ts lk2) last counter
    then Some (s2, woken, LatchLock.commit_ts lk2, 1, true) else Some (s2, woken, last, counter + 1, false)) = Some (s2, woken, last', counter', b))
    as (last' & counter' & b & ->) by (case_match; eauto).
  exists s2, woken, last', counter', b, st2. split_and!; [done | | | |].
  - eapply rtc_l; [exact Hrecv|]. etransitivity; [exact R1|]. by eapply rtc_l.
  - rewrite Hst2, !decide_False; [by rewrite lookup_delete_eq | by intros ?%Hws; naive_solver | by intros ?%Hin%Hws; naive_solver].
  - intros x Hx. rewrite Hst2, decide_True by done. split; [by apply Hws, Hin | done].
  - intros x Hx Hn. rewrite Hst2, decide_False by done. case_decide as Hxw; [by symmetry; apply Hws|].
    rewrite lookup_delete_ne, Hst1, lookup_insert_ne by done. done.
Qed.

(** [LatchesScheduler::lock], up to its wait: the task of a new lock acquires what it can, and has its guard or sleeps. *)
Section new_task.
Context (l : nat) (rel : option nat) (pend : list nat) (st : gmap nat Status) (st_l : st !! l = Some Running).

Lemma task_acquires fuel : ∀ s lk, sys_inv (mkSys s st rel pend) → task_inv (mkSys s st rel pend) →
  locks s !! l = Some lk → LatchLock.stale lk = false → (LatchLock.required_len lk ≤ LatchLock.acquired_count lk + fuel)%nat →
  ∃ s' r, acquire_loop fuel l s = Some (s', r) ∧
    rtc work (mkSys s st rel pend) (mkSys s' (<[l := match r with ALocked => Blocked | _ => Guard end]> st) rel pend).
Proof.
  induction fuel as [|fuel IH]; intros s lk HI HT El Hs Hf; pose proof (si_core _ HI) as I; cbn in I;
    pose proof (required_len_keys _ _ (ci_locks _ I _ _ El)) as Hlen; cbn [acquire_loop]; rewrite El; cbn [mbind option_bind].
  all: destruct (Nat.ltb_spec (LatchLock.acquired_count lk) (LatchLock.required_len lk)) as [Hlt|Hge]; try lia.
  all: try (exists s, Success; split; [done|]; apply rtc_once, work_acquired; [done|];
    unfold next_key; rewrite El; cbn; apply lookup_ge_None_2; lia).
  destruct (lookup_lt_is_Some_2 (LatchLock.keys lk) (LatchLock.acquired_count lk)) as [k Ek]; [lia|].
  assert (next_key s l = Some k) as Hk by (unfold next_key; by rewrite El).
  destruct (acquire_slot_spec l lk k s (ci_slots _ I) (ci_locks _ I _ _ El) El Ek) as (s1 & r1 & E & P). rewrite E. cbn.
  assert (work (mkSys s st rel pend) (mkSys s1 (<[l := status_after r1 Running]> st) rel pend)) as Hw by (by eapply work_acquire).
  destruct r1; [|exists s1, ALocked; split; [done | by apply rtc_once] | exists s1, Stale; split; [done | by apply rtc_once]].
  cbn in Hw. rewrite (insert_id st l Running st_l) in Hw.
  destruct (IH s1 (LatchLock.inc_acquired lk)) as (s' & r & -> & Hr).
  - by eapply work_inv.
  - by eapply task_work_inv.
  - by rewrite (ap_locks _ _ _ _ _ _ P), lookup_insert_eq.
  - done.
  - unfold LatchLock.required_len in *. cbn. lia.
  - exists s', r. split; [done | by eapply rtc_l].
Qed.
End new_task.

Lemma scheduler_lock_runs S l ts keys : sys_inv S → task_inv S → locks (lat S) !! l = None → status S !! l = None → 0 ≤ ts →
  ∃ s' r, scheduler_lock l ts keys (lat S) = Some (s', r) ∧
    rtc sys_step S (mkSys s' (<[l := match r with ALocked => Blocked | _ => Guard end]> (status S)) (releasing S) (pending S)).
Proof.
  destruct S as [s st rel pend]. cbn. intros HI HT El Est Hts. unfold scheduler_lock, acquire. cbn. rewrite lookup_insert_eq. cbn.
  pose proof (sys_lock s st rel pend l ts keys El Est Hts) as Hstep.
  destruct (task_acquires l rel pend (<[l := Running]> st) (lookup_insert_eq _ _ _) (length (LatchLock.required_slots (gen_lock ts keys s)))
    (set_lock l (gen_lock ts keys s) s) (gen_lock ts keys s)) as (s' & r & E & Hr).
  - by eapply sys_step_inv.
  - by eapply task_step_inv.
  - cbn. by rewrite lookup_insert_eq.
  - done.
  - unfold LatchLock.required_len. lia.
  - exists s', r. split; [exact E|]. eapply rtc_l; [exact Hstep|]. rewrite insert_insert_eq in Hr.
    clear -Hr. induction Hr as [|? ? ? Hw _ IH]; [done|]. eapply rtc_l; [by apply sys_work | done].
Qed.

(** C32: no deadlock and no lost wake-up.  In every state that any number of committing transactions, the unlock scheduler and
    recycling can reach in any interleaving: (1) the lock of a task that sleeps waits in a slot, or is among
    the locks the scheduler is about to wake up; (2) when there are none of these, a sleeping transaction waits for a key that some
    transaction owns, and if the owner itself needs another key then a greater one; (3) while there
    is a transaction there is a step that takes one further, and without new transactions only finitely many of these
    steps follow, in any order; so all transactions get their latches, and every sleeping task is woken, provided the guards are dropped;
    (4) when the background task is idle and receives an unlock, it does not panic and runs such steps: it releases the lock, every lock it calls
    [wake] on slept in a slot and its task now has its guard, and all other tasks are where they were; (5) a new transaction that calls
    [lock] does not panic either and runs steps of the system: it gets its guard or goes to sleep. *)
Theorem latch_progress size S : 0 ≤ size → rtc sys_step (sys_init size) S →
  (∀ x, asleep S x → x ∈ all_waiting (lat S) ∨ x ∈ pending S) ∧
  (pending S = [] → ∀ x, asleep S x → ∃ k o, next_key (lat S) x = Some k ∧ owner (lat S) k = Some o ∧
     ∀ k', next_key (lat S) o = Some k' → key_lt k k') ∧
  (status S ≠ ∅ → ∃ S', work S S') ∧
  (∃ N, ∀ n S', nsteps work n S S' → (n ≤ N)%nat) ∧
  (∀ l last counter, releasing S = None → pending S = [] → status S !! l = Some Queued →
     ∃ s' woken last' counter' b st', handle_unlock l last counter (lat S) = Some (s', woken, last', counter', b) ∧
       rtc work S (mkSys s' st' None []) ∧ st' !! l = None ∧
       (∀ x, x ∈ woken → status S !! x = Some Blocked ∧ st' !! x = Some Guard) ∧
       (∀ x, x ≠ l → x ∉ woken → st' !! x = status S !! x)) ∧
  (∀ l ts keys, locks (lat S) !! l = None → status S !! l = None → 0 ≤ ts →
     ∃ s' r, scheduler_lock l ts keys (lat S) = Some (s', r) ∧
       rtc sys_step S (mkSys s' (<[l := match r with ALocked => Blocked | _ => Guard end]> (status S)) (releasing S) (pending S))).
Proof.
  intros Hs HR. destruct (reachable_task_inv size S Hs HR) as [HI HT].
  assert (∀ x, asleep S x → x ∈ all_waiting (lat S) ∨ x ∈ pending S) as Hsleep.
  { intros x [Hx|Hx]; [left; by apply (ti_blocked _ HT) | right; by apply (ti_pending _ HT)]. }
  split_and!; [done | | by apply tasks_work | | | by intros; apply scheduler_lock_runs].
  - intros Hp x [Hx|Hx]%Hsleep; [by apply waiter_owner | by rewrite Hp in Hx; apply elem_of_nil in Hx].
  - exists (weight (elements (dom (status S))) S). intros n S' Hn.
    apply (weight_steps (elements (dom (status S)))) in Hn; [lia | done | done | apply NoDup_elements|].
    intros x. by rewrite elem_of_elements, elem_of_dom.
  - destruct S as [s st rel pend]. cbn in *. intros l last counter -> ->. by apply handle_unlock_runs.
Qed.

Lemma latch_progress_witness :
  status sample_waiting !! 1%nat = Some Blocked ∧ (1%nat ∈ all_waiting (lat sample_waiting) ∨ 1%nat ∈ pending sample_waiting).
Proof.
  split; [by vm_compute|].
  apply (latch_progress 1 sample_waiting ltac:(lia) sample_waiting_reachable). left. by vm_compute.
Defined.

(** The first transaction commits and its unlock arrives: the second one is woken. *)
Example sample_wakeup :
  (λ r, (r.1.1.1.2)) <$> handle_unlock 0 0 0 (lat sample_waiting) = Some [1%nat].
Proof. by vm_compute. Qed.
