(* ===== verification/Locks.v ===== *)
(** * Lock resolution (src/src/transaction/lock.rs, [TransactionStatus] of
      src/src/transaction/requests.rs)

    When a request meets locks of other transactions, the client finds out how
    those transactions ended and commits or rolls back their locks.  The RPCs
    (region lookup, cleanup, check-txn-status, resolve-lock) are parameters; the
    commands sent are recorded in a trace.  The theorems: a transaction's locks are
    all resolved with the one outcome its primary has, async-commit recovery computes
    the commit timestamp the protocol defines, and garbage collection records a
    region as cleaned exactly for the transactions it resolved there. *)

From S2P Require Import Prelude Keys Proto Errors Timestamps Backoffs.

(** ** Transaction status *)

Definition Action_NoAction : Z := 0.
Definition Action_TtlExpireRollback : Z := 1.
Definition Action_LockNotExistRollback : Z := 2.

Inductive TransactionStatusKind :=
| KCommitted (ts : Timestamp.t)
| KRolledBack
| KLocked (ttl : Z) (lock_info : LockInfo.t).

Module TransactionStatus.
Record t := mk { kind : TransactionStatusKind; action : Z; is_expired : bool }.

(** [From<(u64, u64, Option<LockInfo>)>] and [From<CheckTxnStatusResponse>] *)
Definition kind_from (ts ttl : Z) (info : option LockInfo.t) : TransactionStatusKind :=
  if negb (ts =? 0) then KCommitted (Timestamp.from_version ts)
  else match info with
       | Some info => KLocked ttl info
       | None => KRolledBack
       end.

(** [Action::try_from(..).unwrap_or(NoAction)]: the generated enum has the values 0 to 5. *)
Definition action_try_from (a : Z) : Z := if (0 <=? a) && (a <=? 5) then a else Action_NoAction.

Definition from_response (action commit_version lock_ttl : Z) (lock_info : option LockInfo.t) : t :=
  mk (kind_from commit_version lock_ttl lock_info) (action_try_from action) false.

Definition check_ttl (s : t) (current : Timestamp.t) : t :=
  match kind s with
  | KLocked ttl lock_info =>
      if as_i64 ttl <=? Timestamp.physical current -
           Timestamp.physical (Timestamp.from_version (LockInfo.lock_version lock_info))
      then mk (kind s) (action s) true else s
  | _ => s
  end.

Definition is_cacheable (s : t) : bool :=
  match kind s with
  | KRolledBack | KCommitted _ => true
  | KLocked _ _ =>
      is_expired s &&
      ((action s =? Action_NoAction) || (action s =? Action_LockNotExistRollback) ||
       (action s =? Action_TtlExpireRollback))
  end.
End TransactionStatus.

(** ** [resolve_locks] *)

Definition lock_expired (ts : Timestamp.t) (lock : LockInfo.t) : bool :=
  as_i64 (LockInfo.lock_ttl lock) <=?
  Timestamp.physical ts - Timestamp.physical (Timestamp.from_version (LockInfo.lock_version lock)).

(** The commands sent, with what the server answered. *)
Inductive Command :=
| CCleanup (primary : Key) (version commit_version : Z)
| CResolve (key : Key) (version commit_version : Z) (region : RegionVerId.t).

Section resolve_locks.
(** The region of a key at the [t]-th lock, the cleanup RPC (by primary and start
    version, giving the commit version), and the resolve-lock RPC with its retries
    (giving the region it resolved in). *)
Context (region_for_key : nat → Key → Result RegionVerId.t).
Context (cleanup : Key → Z → Result Z).
Context (resolve_lock_with_retry : nat → Key → Z → Z → Result RegionVerId.t).

Fixpoint resolve_loop (t : nat) (expired_locks : list LockInfo.t)
    (commit_versions : gmap Z Z) (clean_regions : gmap Z (gset RegionVerId.t))
    (trace : list Command) : Result () * list Command :=
  match expired_locks with
  | [] => (Ok (), trace)
  | lock :: rest =>
      let version := LockInfo.lock_version lock in
      match region_for_key t (LockInfo.primary_lock lock) with
      | Err e => (Err e, trace)
      | Ok region_ver_id =>
          if match clean_regions !! version with
             | Some regions => bool_decide (region_ver_id ∈ regions)
             | None => false
             end
          then resolve_loop (S t) rest commit_versions clean_regions trace
          else
            let '(outcome, commit_versions, trace) :=
              match commit_versions !! version with
              | Some commit_version => (Ok commit_version, commit_versions, trace)
              | None =>
                  match cleanup (LockInfo.primary_lock lock) version with
                  | Err e => (Err e, commit_versions, trace)
                  | Ok commit_version =>
                      (Ok commit_version, <[version := commit_version]> commit_versions,
                       trace ++ [CCleanup (LockInfo.primary_lock lock) version commit_version])
                  end
              end in
            match outcome with
            | Err e => (Err e, trace)
            | Ok commit_version =>
                match resolve_lock_with_retry t (LockInfo.key lock) version commit_version with
                | Err e => (Err e, trace)
                | Ok cleaned_region =>
                    resolve_loop (S t) rest commit_versions
                      (<[version := {[cleaned_region]} ∪ default ∅ (clean_regions !! version)]> clean_regions)
                      (trace ++ [CResolve (LockInfo.key lock) version commit_version cleaned_region])
                end
            end
      end
  end.

(** The live locks and the commands; the timestamp is PD's answer. *)
Definition resolve_locks (ts : Timestamp.t) (locks : list LockInfo.t) :
    Result (list LockInfo.t) * list Command :=
  let expired_locks := List.filter (lock_expired ts) locks in
  let live_locks := List.filter (λ l, negb (lock_expired ts l)) locks in
  match resolve_loop 0 expired_locks ∅ ∅ [] with
  | (Ok _, trace) => (Ok live_locks, trace)
  | (Err e, trace) => (Err e, trace)
  end.
End resolve_locks.

(** ** [resolve_lock_with_retry] *)

Definition RESOLVE_LOCK_RETRY_LIMIT : nat := 10.

Section resolve_retry.
(** At attempt [i]: the store of the key (its region's version id), the answer of
    the resolve-lock plan, and the region-error handler. *)
Context (store_for_key : nat → Result RegionVerId.t).
Context (execute : nat → Result ()).
Context (handle_region_error : nat → RegionError.t → Result bool).
Context (draw : nat → Z).

(** [n] attempts are left; the second component counts the attempts made.  [None]
    is a panic of the backoff. *)
Fixpoint resolve_retry_loop (n : nat) (i : nat) (region_backoff : Backoff.t) (error : option Error) :
    option (Result RegionVerId.t) * nat :=
  match n with
  | O =>
      (Some (match error with
             | Some err => Err err
             | None => Err (InternalError "resolve lock retry loop exhausted without producing an error")
             end), i)
  | S n' =>
      match store_for_key i with
      | Err e => (Some (Err e), i)
      | Ok ver_id =>
          match execute i with
          | Ok _ => (Some (Ok ver_id), S i)
          | Err (ExtractedErrors errors) =>
              match last errors with
              | Some (ERegionError region_error) =>
                  let error := Some (ERegionError region_error) in
                  match handle_region_error i region_error with
                  | Err e => (Some (Err e), S i)
                  | Ok resolved =>
                      if negb resolved && negb (n' =? 0)%nat then
                        match next_delay_duration region_backoff (draw i) with
                        | Wait _ b | GiveUp b => resolve_retry_loop n' (S i) b error
                        | Panic => (None, S i)
                        end
                      else resolve_retry_loop n' (S i) region_backoff error
                  end
              | Some e => (Some (Err e), S i)
              | None =>
                  (Some (Err (InternalError
                    "ResolveLock returned ExtractedErrors([]), which violates plan invariants")), S i)
              end
          | Err e => (Some (Err e), S i)
          end
      end
  end.

Definition resolve_lock_with_retry (region_backoff : Backoff.t) : option (Result RegionVerId.t) * nat :=
  resolve_retry_loop RESOLVE_LOCK_RETRY_LIMIT 0 region_backoff None.
End resolve_retry.

(** ** Async-commit recovery: [check_all_secondaries] *)

(** A response with the number of keys of its shard. *)
Record SecondaryResponse := mkSecondaryResponse {
  sr_locks : list LockInfo.t; sr_commit_ts : Z; sr_expected : nat }.

Module SecondaryLocksStatus.
Record t := mk { commit_ts : option Timestamp.t; min_commit_ts : Z; fallback_2pc : bool }.
End SecondaryLocksStatus.

(** The inner loop over the locks: [None] is the early return for 2PC fallback. *)
Fixpoint secondary_locks_loop (locks : list LockInfo.t) (missing_lock : bool) (min_commit_ts : Z) :
    option Z :=
  match locks with
  | [] => Some min_commit_ts
  | lock :: rest =>
      if negb (LockInfo.use_async_commit lock) then None
      else secondary_locks_loop rest missing_lock
             (if negb missing_lock then Z.max min_commit_ts (LockInfo.min_commit_ts lock) else min_commit_ts)
  end.

Fixpoint secondaries_loop (responses : list SecondaryResponse) (primary_min_commit_ts : Z)
    (min_commit_ts : Z) (missing_lock : bool) (determined_commit_ts : option Z) :
    Result SecondaryLocksStatus.t :=
  match responses with
  | [] =>
      Ok (match determined_commit_ts with
          | Some commit_ts =>
              SecondaryLocksStatus.mk (Timestamp.try_from_version commit_ts) commit_ts false
          | None => SecondaryLocksStatus.mk None min_commit_ts false
          end)
  | resp :: rest =>
      if (length (sr_locks resp) <? sr_expected resp)%nat then
        match determined_commit_ts with
        | None =>
            if negb (sr_commit_ts resp =? 0) && (sr_commit_ts resp <? min_commit_ts)
            then Err (InternalError "commit ts must be >= min commit ts")
            else secondaries_loop rest primary_min_commit_ts min_commit_ts true (Some (sr_commit_ts resp))
        | Some prev =>
            if prev =? sr_commit_ts resp
            then secondaries_loop rest primary_min_commit_ts min_commit_ts true determined_commit_ts
            else Err (InternalError "commit ts mismatch in async commit recovery")
        end
      else
        match secondary_locks_loop (sr_locks resp) missing_lock min_commit_ts with
        | None => Ok (SecondaryLocksStatus.mk None primary_min_commit_ts true)
        | Some min_commit_ts =>
            secondaries_loop rest primary_min_commit_ts min_commit_ts missing_lock determined_commit_ts
        end
  end.

Definition check_all_secondaries (responses : list SecondaryResponse) (primary_min_commit_ts : Z) :
    Result SecondaryLocksStatus.t :=
  secondaries_loop responses primary_min_commit_ts primary_min_commit_ts false None.

(** ** [LockResolver] *)

Module ResolveLocksContext.
Record t := mk {
  resolved : gmap Z TransactionStatus.t;
  clean_regions : gmap Z (gset RegionVerId.t)
}.
Definition new : t := mk ∅ ∅.
Definition get_resolved (txn_id : Z) (c : t) : option TransactionStatus.t := resolved c !! txn_id.
Definition save_resolved (txn_id : Z) (s : TransactionStatus.t) (c : t) : t :=
  mk (<[txn_id := s]> (resolved c)) (clean_regions c).
Definition is_region_cleaned (txn_id : Z) (region : RegionVerId.t) (c : t) : bool :=
  match clean_regions c !! txn_id with
  | Some regions => bool_decide (region ∈ regions)
  | None => false
  end.
Definition save_cleaned_region (txn_id : Z) (region : RegionVerId.t) (c : t) : t :=
  mk (resolved c)
     (<[txn_id := {[region]} ∪ default ∅ (clean_regions c !! txn_id)]> (clean_regions c)).
End ResolveLocksContext.

Section resolver.
(** The check-txn-status RPC (by transaction, force-sync-commit and whether a
    pessimistic lock is resolved), PD's clock, the check-secondary-locks RPC and the
    batched resolve RPC of the region. *)
Context (check_status_rpc : Z → Key → bool → bool → Result TransactionStatus.t).
Context (get_timestamp : Result Timestamp.t).
Context (secondaries_rpc : list (list Z) → Z → Result (list SecondaryResponse)).
Context (batch_resolve_rpc : list (Z * Z) → Result ()).

Definition check_txn_status (ctx : ResolveLocksContext.t) (txn_id : Z) (primary : Key)
    (force_sync_commit resolving_pessimistic_lock : bool) :
    ResolveLocksContext.t * Result TransactionStatus.t :=
  match ResolveLocksContext.get_resolved txn_id ctx with
  | Some s => (ctx, Ok s)
  | None =>
      match check_status_rpc txn_id primary force_sync_commit resolving_pessimistic_lock with
      | Err e => (ctx, Err e)
      | Ok res =>
          match get_timestamp with
          | Err e => (ctx, Err e)
          | Ok current =>
              let res := TransactionStatus.check_ttl res current in
              (if TransactionStatus.is_cacheable res
               then ResolveLocksContext.save_resolved txn_id res ctx else ctx, Ok res)
          end
      end
  end.

(** The commit timestamp that decides one lock's transaction, [0] for a rollback. *)
Definition decide_txn (ctx : ResolveLocksContext.t) (l : LockInfo.t) :
    ResolveLocksContext.t * Result Z :=
  let txn_id := LockInfo.lock_version l in
  let pessimistic := LockInfo.lock_type l =? Op_PessimisticLock in
  let finish (status : TransactionStatus.t) : Result Z :=
    match TransactionStatus.kind status with
    | KLocked _ lock_info => Err (ResolveLockError [lock_info])
    | KCommitted ts => Ok (Timestamp.version ts)
    | KRolledBack => Ok 0
    end in
  match check_txn_status ctx txn_id (LockInfo.primary_lock l) false pessimistic with
  | (ctx, Err e) => (ctx, Err e)
  | (ctx, Ok status) =>
      match TransactionStatus.kind status with
      | KLocked _ lock_info =>
          match secondaries_rpc (LockInfo.secondaries lock_info) txn_id with
          | Err e => (ctx, Err e)
          | Ok responses =>
              match check_all_secondaries responses (LockInfo.min_commit_ts lock_info) with
              | Err e => (ctx, Err e)
              | Ok secondary_status =>
                  if SecondaryLocksStatus.fallback_2pc secondary_status then
                    match check_txn_status ctx txn_id (LockInfo.primary_lock l) true pessimistic with
                    | (ctx, Err e) => (ctx, Err e)
                    | (ctx, Ok status) => (ctx, finish status)
                    end
                  else
                    (ctx, Ok (match SecondaryLocksStatus.commit_ts secondary_status with
                              | Some ts => Timestamp.version ts
                              | None => SecondaryLocksStatus.min_commit_ts secondary_status
                              end))
              end
          end
      | _ => (ctx, finish status)
      end
  end.

Fixpoint cleanup_loop (region : RegionVerId.t) (locks : list LockInfo.t)
    (ctx : ResolveLocksContext.t) (txn_infos : gmap Z Z) : ResolveLocksContext.t * Result (gmap Z Z) :=
  match locks with
  | [] => (ctx, Ok txn_infos)
  | l :: rest =>
      let txn_id := LockInfo.lock_version l in
      if bool_decide (is_Some (txn_infos !! txn_id)) ||
         ResolveLocksContext.is_region_cleaned txn_id region ctx
      then cleanup_loop region rest ctx txn_infos
      else
        match decide_txn ctx l with
        | (ctx, Err e) => (ctx, Err e)
        | (ctx, Ok commit_ts) => cleanup_loop region rest ctx (<[txn_id := commit_ts]> txn_infos)
        end
  end.

Definition cleanup_locks (region : RegionVerId.t) (locks : list LockInfo.t)
    (ctx : ResolveLocksContext.t) : ResolveLocksContext.t * Result () :=
  match locks with
  | [] => (ctx, Ok ())
  | _ =>
      match cleanup_loop region locks ctx ∅ with
      | (ctx, Err e) => (ctx, Err e)
      | (ctx, Ok txn_infos) =>
          let infos := map_to_list txn_infos in
          match batch_resolve_rpc infos with
          | Err e => (ctx, Err e)
          | Ok _ =>
              (foldl (λ ctx p, ResolveLocksContext.save_cleaned_region p.1 region ctx) ctx infos, Ok ())
          end
      end
  end.
End resolver.

(** ** [resolve_locks]: one outcome per transaction *)

Definition cleanup_version (c : Command) : option Z :=
  match c with CCleanup _ v _ => Some v | CResolve _ _ _ _ => None end.

Section resolve_locks_proof.
Context (region_for_key : nat → Key → Result RegionVerId.t).
Context (cleanup : Key → Z → Result Z).
Context (resolve_rpc : nat → Key → Z → Z → Result RegionVerId.t).

(** Every resolve command comes after the cleanup that decided its transaction and
    carries its outcome, and no transaction is decided twice. *)
Definition outcome_consistent (trace : list Command) : Prop :=
  NoDup (omap cleanup_version trace) ∧
  (∀ p v c, CCleanup p v c ∈ trace → cleanup p v = Ok c) ∧
  (∀ before k v c r after, trace = before ++ CResolve k v c r :: after →
     ∃ p, CCleanup p v c ∈ before).

Record resolve_inv (commit_versions : gmap Z Z) (clean_regions : gmap Z (gset RegionVerId.t))
    (trace : list Command) : Prop := {
  ri_consistent : outcome_consistent trace;
  ri_versions : ∀ v c, commit_versions !! v = Some c ↔ ∃ p, CCleanup p v c ∈ trace;
  ri_regions : ∀ v rs r, clean_regions !! v = Some rs → r ∈ rs → ∃ k c, CResolve k v c r ∈ trace
}.

Lemma cleanup_version_elem v (trace : list Command) :
  v ∈ omap cleanup_version trace ↔ ∃ p c, CCleanup p v c ∈ trace.
Proof.
  rewrite list_elem_of_omap. split.
  - intros ([p v' c|] & Hin & E); simplify_eq/=. eauto.
  - intros (p & c & Hin). by exists (CCleanup p v c).
Qed.

Lemma outcome_consistent_cleanup trace p v c :
  outcome_consistent trace → (∀ p c, CCleanup p v c ∉ trace) → cleanup p v = Ok c →
  outcome_consistent (trace ++ [CCleanup p v c]).
Proof.
  intros (Hnd & Hc & Hb) Hnew E. split_and!.
  - rewrite omap_app. simpl. apply NoDup_app. split_and!; [done | | apply NoDup_singleton].
    intros x (p' & c' & Hin)%cleanup_version_elem ->%list_elem_of_singleton. by eapply Hnew.
  - intros p' v' c' [Hin | Hin%list_elem_of_singleton]%elem_of_app; [by apply Hc | by simplify_eq].
  - intros before k v' c' r after Eq.
    destruct after as [|x after _] using rev_ind.
    + apply app_inj_tail in Eq as [_ Eq]. done.
    + rewrite app_comm_cons, app_assoc in Eq. apply app_inj_tail in Eq as [Eq _]. by eapply Hb.
Qed.

Lemma outcome_consistent_resolve trace p k v c r :
  outcome_consistent trace → CCleanup p v c ∈ trace →
  outcome_consistent (trace ++ [CResolve k v c r]).
Proof.
  intros (Hnd & Hc & Hb) Hin. split_and!.
  - rewrite omap_app. simpl. by rewrite app_nil_r.
  - intros p' v' c' [Hin' | Hin'%list_elem_of_singleton]%elem_of_app; [by apply Hc | done].
  - intros before k' v' c' r' after Eq.
    destruct after as [|x after _] using rev_ind.
    + apply app_inj_tail in Eq as [-> [= -> -> -> ->]]. eauto.
    + rewrite app_comm_cons, app_assoc in Eq. apply app_inj_tail in Eq as [Eq _]. by eapply Hb.
Qed.

Lemma resolve_inv_cleanup cvs crs trace p v c :
  resolve_inv cvs crs trace → cvs !! v = None → cleanup p v = Ok c →
  resolve_inv (<[v := c]> cvs) crs (trace ++ [CCleanup p v c]).
Proof.
  intros [Hc Hv Hr] Hnone E.
  assert (∀ p c, CCleanup p v c ∉ trace) as Hnew.
  { intros p' c' Hin. assert (cvs !! v = Some c') by (apply Hv; eauto). congruence. }
  split.
  - by apply outcome_consistent_cleanup.
  - intros v' c'. setoid_rewrite elem_of_app. setoid_rewrite list_elem_of_singleton.
    destruct (decide (v = v')) as [<-|].
    + rewrite lookup_insert_eq. split; [intros [= ->]; eauto|].
      intros (p' & [? | ?]); [by destruct (Hnew p' c') | by simplify_eq].
    + rewrite lookup_insert_ne, Hv by done. split; [naive_solver|].
      intros (p' & [? | ?]); [eauto | by simplify_eq].
  - intros v' rs r E1 E2. destruct (Hr _ _ _ E1 E2) as (k & c' & ?). exists k, c'. set_solver.
Qed.

Lemma resolve_inv_resolve cvs crs trace k v c r :
  resolve_inv cvs crs trace → cvs !! v = Some c →
  resolve_inv cvs (<[v := {[r]} ∪ default ∅ (crs !! v)]> crs) (trace ++ [CResolve k v c r]).
Proof.
  intros [Hc Hv Hr] E. destruct (proj1 (Hv v c) E) as [p Hp]. split.
  - by eapply outcome_consistent_resolve.
  - intros v' c'. rewrite Hv. setoid_rewrite elem_of_app. setoid_rewrite list_elem_of_singleton.
    naive_solver.
  - intros v' rs r' E1 E2. setoid_rewrite elem_of_app. setoid_rewrite list_elem_of_singleton.
    destruct (decide (v = v')) as [<-|].
    + rewrite lookup_insert_eq in E1. simplify_eq.
      apply elem_of_union in E2 as [->%elem_of_singleton | E2]; [eauto|].
      destruct (crs !! v) as [rs|] eqn:E3; [|set_solver].
      destruct (Hr _ _ _ E3 E2) as (k' & c' & ?). eauto.
    + rewrite lookup_insert_ne in E1 by done. destruct (Hr _ _ _ E1 E2) as (k' & c' & ?). eauto.
Qed.

(** What the loop did with an expired lock. *)
Definition lock_handled (trace : list Command) (l : LockInfo.t) : Prop :=
  ∃ k c r, CResolve k (LockInfo.lock_version l) c r ∈ trace ∧
    (k = LockInfo.key l ∨ ∃ t, region_for_key t (LockInfo.primary_lock l) = Ok r).

(** The commands of a trace that concern the locks [ls] only. *)
Definition commands_from (ls : list LockInfo.t) (trace : list Command) : Prop :=
  ∀ k v c r, CResolve k v c r ∈ trace →
    ∃ l, l ∈ ls ∧ LockInfo.key l = k ∧ LockInfo.lock_version l = v.

(** What a loop over [ls] that went from [trace] to [trace'] has done. *)
Definition resolved (ls : list LockInfo.t) (trace : list Command) (res : Result ()) (trace' : list Command) : Prop :=
  outcome_consistent trace' ∧ ∃ new, trace' = trace ++ new ∧ commands_from ls new ∧ (res = Ok () → Forall (lock_handled trace') ls).

Lemma commands_weaken l ls new : commands_from ls new → commands_from (l :: ls) new.
Proof. intros Hnew k v c r Hin. destruct (Hnew _ _ _ _ Hin) as (l' & ? & ?). exists l'. set_solver. Qed.

Lemma resolved_none cvs crs ls trace res : resolve_inv cvs crs trace → ls = [] ∨ res ≠ Ok () → resolved ls trace res trace.
Proof.
  intros Hinv Hr. split; [apply Hinv|]. exists []. rewrite app_nil_r. split_and!; [done | by intros ?????%elem_of_nil|].
  intros Hok. destruct Hr as [->|?]; [constructor | done].
Qed.

Lemma resolved_cons l ls trace new1 res trace' : resolved ls (trace ++ new1) res trace' → commands_from (l :: ls) new1 →
  (res = Ok () → lock_handled trace' l) → resolved (l :: ls) trace res trace'.
Proof.
  intros (Hc & new & -> & Hnew & Hdone) Hnew1 Hl. split; [done|]. exists (new1 ++ new). split_and!; [by rewrite app_assoc | |].
  - intros k v c r [Hin|Hin]%elem_of_app; [by eapply Hnew1 | by eapply commands_weaken].
  - intros Hok. constructor; [by apply Hl | by apply Hdone].
Qed.

(** The command to resolve the lock [l] at the outcome [c] of its transaction, and the rest of the loop. *)
Lemma resolve_one t l ls cvs crs trace new1 c res trace' :
  (∀ cvs crs trace0, resolve_inv cvs crs trace0 →
     resolve_loop region_for_key cleanup resolve_rpc (S t) ls cvs crs trace0 = (res, trace') → resolved ls trace0 res trace') →
  resolve_inv cvs crs (trace ++ new1) → commands_from (l :: ls) new1 → cvs !! LockInfo.lock_version l = Some c →
  match resolve_rpc t (LockInfo.key l) (LockInfo.lock_version l) c with
  | Err e => (Err e, trace ++ new1)
  | Ok cleaned_region => resolve_loop region_for_key cleanup resolve_rpc (S t) ls cvs
      (<[LockInfo.lock_version l := {[cleaned_region]} ∪ default ∅ (crs !! LockInfo.lock_version l)]> crs)
      ((trace ++ new1) ++ [CResolve (LockInfo.key l) (LockInfo.lock_version l) c cleaned_region])
  end = (res, trace') → resolved (l :: ls) trace res trace'.
Proof.
  intros IH Hinv Hnew1 Hc E. destruct (resolve_rpc _ _ _ _) as [r|e].
  - apply IH in E as Hr; [|by apply resolve_inv_resolve]. rewrite <- app_assoc in Hr. eapply resolved_cons; [exact Hr | |].
    + intros k v c' r' [Hin | Hin%list_elem_of_singleton]%elem_of_app; [by eapply Hnew1|]. simplify_eq. exists l. set_solver.
    + intros _. destruct Hr as (_ & new & -> & _). exists (LockInfo.key l), c, r. set_solver.
  - inv_res. destruct (resolved_none cvs crs ls (trace ++ new1) (Err e)) as (Hcons & _); [done | by right|].
    split; [done|]. by exists new1.
Qed.

Lemma resolve_loop_spec ls : ∀ t cvs crs trace res trace',
  resolve_inv cvs crs trace →
  resolve_loop region_for_key cleanup resolve_rpc t ls cvs crs trace = (res, trace') → resolved ls trace res trace'.
Proof.
  induction ls as [|l ls IH]; intros t cvs crs trace res trace' Hinv E; cbn [resolve_loop] in E.
  { inv_res. by eapply resolved_none; [|left]. }
  assert (∀ e, (Err e, trace) = (res, trace') → resolved (l :: ls) trace res trace') as Hstop.
  { intros e [= <- <-]. by eapply resolved_none; [|right]. }
  destruct (region_for_key t (LockInfo.primary_lock l)) as [region|e] eqn:Er; [|by eapply Hstop].
  destruct (match crs !! _ with Some _ => _ | None => _ end) eqn:Eskip.
  - destruct (crs !! LockInfo.lock_version l) as [rs|] eqn:Ers; [|done]. apply bool_decide_eq_true in Eskip.
    apply (resolved_cons l ls trace []); [rewrite app_nil_r; by eapply IH | by intros ?????%elem_of_nil|].
    intros _. destruct (ri_regions _ _ _ Hinv _ _ _ Ers Eskip) as (k & c & ?).
    destruct (IH _ _ _ _ _ _ Hinv E) as (_ & new & -> & _). exists k, c, region. split; [set_solver|]. right. eauto.
  - clear Eskip. destruct (cvs !! LockInfo.lock_version l) as [c|] eqn:Ec.
    + eapply (resolve_one t l ls cvs crs trace []); rewrite ?app_nil_r; eauto. by intros ?????%elem_of_nil.
    + destruct (cleanup _ _) as [c|e] eqn:Ecl; [|by eapply Hstop].
      eapply (resolve_one t l ls _ crs trace [CCleanup (LockInfo.primary_lock l) (LockInfo.lock_version l) c]);
        [by eauto | by apply resolve_inv_cleanup | | apply lookup_insert_eq | exact E].
      intros ????  ?%list_elem_of_singleton. done.
Qed.

Lemma resolve_inv_init : resolve_inv ∅ ∅ [].
Proof.
  split.
  - split_and!; [constructor | set_solver |]. intros [] **; done.
  - intros v c. rewrite lookup_empty. split; [done|]. intros [p ?%elem_of_nil]. done.
  - intros v rs r. by rewrite lookup_empty.
Qed.
End resolve_locks_proof.

(** C16: a transaction met by [resolve_locks] has one outcome.  Whatever the RPCs
    answer, and also when the call fails half-way: each transaction is cleaned up at
    most once, every resolve-lock command comes after the cleanup of its transaction's
    primary and carries exactly the commit version the cleanup returned, and only
    expired locks of the input are resolved.  When the call succeeds it returns the
    locks that have not expired, in order, and every expired lock was resolved, or the
    region of its primary was one where its transaction had been resolved. *)
Theorem resolve_locks_one_outcome region_for_key cleanup resolve_rpc ts locks res trace :
  resolve_locks region_for_key cleanup resolve_rpc ts locks = (res, trace) →
  outcome_consistent cleanup trace ∧
  commands_from (List.filter (lock_expired ts) locks) trace ∧
  (∀ live, res = Ok live →
     live = List.filter (λ l, negb (lock_expired ts l)) locks ∧
     ∀ l, l ∈ locks → lock_expired ts l = true → lock_handled region_for_key trace l).
Proof.
  unfold resolve_locks. intros E.
  destruct (resolve_loop _ _ _ _ _ _ _ _) as [r tr] eqn:El.
  destruct (resolve_loop_spec _ _ _ _ _ _ _ _ _ _ (resolve_inv_init cleanup) El)
    as (Hc & new & -> & Hnew & Hdone). simpl in *.
  assert (trace = new) as -> by (destruct r; by inv_res).
  split_and!; [done | done |]. intros live ->. destruct r as [[]|e]; inv_res. split; [done|].
  intros l Hl Hexp. specialize (Hdone eq_refl). rewrite Forall_forall in Hdone. apply Hdone.
  rewrite list_elem_of_In, filter_In, <- list_elem_of_In. done.
Qed.

(** A lock of the transaction started at [v] with primary [p], expired at once. *)
Definition sample_lock (p k : Key) (v : Z) : LockInfo.t :=
  LockInfo.mk p v k 0 1 Op_Put 0 false 0 [] 0 [] false.

(** Two regions, split at the key [5]. *)
Definition sample_region (k : Key) : RegionVerId.t :=
  RegionVerId.mk (match k with b :: _ => if b <? 5 then 1 else 2 | [] => 1 end) 1 1.

Definition sample_resolve (locks : list LockInfo.t) : Result (list LockInfo.t) * list Command :=
  resolve_locks (λ _ k, Ok (sample_region k)) (λ _ v, Ok (v + 10))
    (λ _ k _ _, Ok (sample_region k)) (Timestamp.from_version 262144) locks.

Lemma resolve_locks_one_outcome_witness :
  ∃ trace, sample_resolve [sample_lock [1] [1] 3; sample_lock [9] [2] 3] = (Ok [], trace) ∧
    length trace = 3%nat ∧ outcome_consistent (λ _ v, Ok (v + 10)) trace.
Proof.
  eexists. split; [by vm_compute|]. split; [by vm_compute|].
  refine (proj1 (resolve_locks_one_outcome (λ _ k, Ok (sample_region k)) (λ _ v, Ok (v + 10))
    (λ _ k _ _, Ok (sample_region k)) (Timestamp.from_version 262144)
    [sample_lock [1] [1] 3; sample_lock [9] [2] 3] (Ok []) _ _)).
  by vm_compute.
Defined.

(** The skip test looks up the region of the primary, while the recorded region is
    the one of the resolved key: once the primary of a transaction is resolved, its
    locks in the other regions are skipped.  Here the lock on [9], in the second
    region, is reported as resolved although no command was sent for it. *)
Lemma resolve_locks_skips_other_region :
  sample_resolve [sample_lock [1] [1] 3; sample_lock [1] [9] 3] =
    (Ok [], [CCleanup [1] 3 13; CResolve [1] 3 13 (RegionVerId.mk 1 1 1)]).
Proof. by vm_compute. Qed.

(** ** [resolve_lock_with_retry] *)

Lemma next_delay_no_jitter b d : Backoff.kind b = NoJitter →
  ∃ b', Backoff.kind b' = NoJitter ∧
    (next_delay_duration b d = GiveUp b' ∨ ∃ ms, next_delay_duration b d = Wait ms b').
Proof.
  intros Hk. unfold next_delay_duration. rewrite Hk. case_zb; eexists; (split; [|eauto]); done.
Qed.

Section resolve_retry_proof.
Context (store_for_key : nat → Result RegionVerId.t).
Context (execute : nat → Result ()).
Context (handle_region_error : nat → RegionError.t → Result bool).
Context (draw : nat → Z).

(** The attempts before [i] met region errors that the handler accepted. *)
Definition region_error_at (j : nat) : Prop :=
  ∃ v errors e, store_for_key j = Ok v ∧ execute j = Err (ExtractedErrors errors) ∧
    last errors = Some (ERegionError e) ∧ ∃ resolved, handle_region_error j e = Ok resolved.

Lemma resolve_retry_loop_spec n : ∀ i b err res count,
  Backoff.kind b = NoJitter → (n = 0%nat → is_Some err) →
  resolve_retry_loop store_for_key execute handle_region_error draw n i b err = (res, count) →
  (i ≤ count ≤ i + n)%nat ∧
  match res with
  | Some (Ok v) => ∃ j, (i ≤ j < i + n)%nat ∧ store_for_key j = Ok v ∧ execute j = Ok () ∧
      count = S j ∧ ∀ j', (i ≤ j' < j)%nat → region_error_at j'
  | Some (Err _) => count = (i + n)%nat → n ≠ 0%nat →
      ∀ j', (i ≤ j' < i + n - 1)%nat → region_error_at j'
  | None => False
  end.
Proof.
  induction n as [|n IH]; intros i b err res count Hk Herr E; cbn [resolve_retry_loop] in E.
  { inv_res. split; [lia|]. destruct (Herr eq_refl) as [? ->]. done. }
  destruct (store_for_key i) as [v|e] eqn:Es; inv_res; [|split; lia].
  assert (∀ r c errors re resolved b', execute i = Err (ExtractedErrors errors) →
    last errors = Some (ERegionError re) → handle_region_error i re = Ok resolved →
    Backoff.kind b' = NoJitter →
    resolve_retry_loop store_for_key execute handle_region_error draw n (S i) b'
      (Some (ERegionError re)) = (r, c) → (i ≤ c ≤ i + S n)%nat ∧
    match r with
    | Some (Ok v) => ∃ j, (i ≤ j < i + S n)%nat ∧ store_for_key j = Ok v ∧ execute j = Ok () ∧
        c = S j ∧ ∀ j', (i ≤ j' < j)%nat → region_error_at j'
    | Some (Err _) => c = (i + S n)%nat → S n ≠ 0%nat →
        ∀ j', (i ≤ j' < i + S n - 1)%nat → region_error_at j'
    | None => False
    end) as Hnext.
  { intros r c errors re resolved b' E1 E2 E3 Hk' E'.
    assert (region_error_at i) as Hi by (exists v, errors, re; eauto 10).
    assert (∀ m, (∀ j', (S i ≤ j' < m)%nat → region_error_at j') →
              ∀ j', (i ≤ j' < m)%nat → region_error_at j') as Hshift.
    { intros m Hm j' Hj. destruct (decide (j' = i)) as [->|]; [done | apply Hm; lia]. }
    destruct (IH _ _ (Some (ERegionError re)) _ _ Hk' ltac:(by eauto) E') as [Hc Hr]. split; [lia|].
    destruct r as [[v'|e']|]; [| |done].
    - destruct Hr as (j & ? & ? & ? & ? & ?). exists j. split_and!; eauto; lia.
    - intros Hcount _ j' Hj. eapply Hshift; [|exact Hj]. intros j'' Hj''. apply Hr; lia. }
  destruct (execute i) as [[]|ex] eqn:Ee.
  { inv_res. split; [lia|]. exists i. split_and!; auto; lia. }
  destruct ex; try (inv_res; split; [lia|]; intros; assert (n = 0%nat) by lia; lia).
  destruct (last errors) as [le|] eqn:El; [|inv_res; split; [lia|]; intros; lia].
  destruct le; try (inv_res; split; [lia|]; intros; lia).
  destruct (handle_region_error i _) as [resolved|e'] eqn:Eh; [|inv_res; split; [lia|]; intros; lia].
  destruct (negb resolved && _); [|by eapply Hnext].
  destruct (next_delay_no_jitter b (draw i) Hk) as (b' & Hk' & [E' | [ms E']]);
    rewrite E' in E; by eapply Hnext.
Qed.
End resolve_retry_proof.

(** [resolve_lock_with_retry] with the client's region backoff always returns,
    after at most ten attempts.  It succeeds only with the region of an attempt whose
    resolve-lock request succeeded, all the attempts before it having failed with a
    region error that the handler accepted; when all ten attempts were used without
    success, the first nine failed with such region errors. *)
Theorem resolve_lock_retry_bounded store_for_key execute handle_region_error draw :
  ∃ res count,
    resolve_lock_with_retry store_for_key execute handle_region_error draw DEFAULT_REGION_BACKOFF
      = (Some res, count) ∧ (count ≤ RESOLVE_LOCK_RETRY_LIMIT)%nat ∧
    match res with
    | Ok v => ∃ j, count = S j ∧ store_for_key j = Ok v ∧ execute j = Ok () ∧
        ∀ j', (j' < j)%nat → region_error_at store_for_key execute handle_region_error j'
    | Err _ => count = RESOLVE_LOCK_RETRY_LIMIT →
        ∀ j', (j' < 9)%nat → region_error_at store_for_key execute handle_region_error j'
    end.
Proof.
  unfold resolve_lock_with_retry, RESOLVE_LOCK_RETRY_LIMIT.
  destruct (resolve_retry_loop _ _ _ _ _ _ _ _) as [r c] eqn:E.
  apply resolve_retry_loop_spec in E as [Hc Hr]; [|done|done].
  destruct r as [r|]; [|done]. exists r, c. split_and!; [done | lia |]. destruct r.
  - destruct Hr as (j & ? & ? & ? & ? & Hj). exists j. split_and!; auto. intros. apply Hj. lia.
  - intros -> j' Hj. apply Hr; lia.
Qed.

(** ** Async-commit recovery *)

(** A response with fewer locks than the keys asked for. *)
Definition lock_missing (r : SecondaryResponse) : bool := (length (sr_locks r) <? sr_expected r)%nat.

(** The largest [min_commit_ts] of the primary and of all the locks returned. *)
Definition max_min_commit_ts (primary : Z) (responses : list SecondaryResponse) : Z :=
  foldl (λ m l, Z.max m (LockInfo.min_commit_ts l)) primary (responses ≫= sr_locks).

(** The locks a response contributes are all async-commit locks. *)
Definition async_response (r : SecondaryResponse) : Prop :=
  lock_missing r = false → Forall (λ l, LockInfo.use_async_commit l = true) (sr_locks r).

Lemma secondary_locks_loop_spec locks (missing : bool) m :
  match secondary_locks_loop locks missing m with
  | Some m' => Forall (λ l, LockInfo.use_async_commit l = true) locks ∧
      m' = (if missing then m else foldl (λ m l, Z.max m (LockInfo.min_commit_ts l)) m locks)
  | None => ∃ l, l ∈ locks ∧ LockInfo.use_async_commit l = false
  end.
Proof.
  revert m. induction locks as [|l locks IH]; intros m; cbn [secondary_locks_loop].
  { split; [done|]. by destruct missing. }
  destruct (LockInfo.use_async_commit l) eqn:Ea; cbn [negb]; [|exists l; set_solver].
  specialize (IH (if negb missing then Z.max m (LockInfo.min_commit_ts l) else m)).
  destruct (secondary_locks_loop _ _ _).
  - destruct IH as [? ->]. split; [by constructor|]. by destruct missing.
  - destruct IH as (l' & ? & ?). exists l'. set_solver.
Qed.

(** The outcome of the loop after the responses seen so far. *)
Definition secondaries_ok (primary : Z) (s : SecondaryLocksStatus.t) (m : Z)
    (determined : option Z) (rest : list SecondaryResponse) : Prop :=
  if SecondaryLocksStatus.fallback_2pc s then
    s = SecondaryLocksStatus.mk None primary true ∧
    ∃ r l, r ∈ rest ∧ lock_missing r = false ∧ l ∈ sr_locks r ∧ LockInfo.use_async_commit l = false
  else
    Forall async_response rest ∧
    match determined with
    | Some c => Forall (λ r, lock_missing r = true → sr_commit_ts r = c) rest ∧
        s = SecondaryLocksStatus.mk (Timestamp.try_from_version c) c false
    | None =>
        (Forall (λ r, lock_missing r = false) rest ∧
         s = SecondaryLocksStatus.mk None (max_min_commit_ts m rest) false) ∨
        ∃ c, (∃ r, r ∈ rest ∧ lock_missing r = true) ∧ (c = 0 ∨ m ≤ c) ∧
          Forall (λ r, lock_missing r = true → sr_commit_ts r = c) rest ∧
          s = SecondaryLocksStatus.mk (Timestamp.try_from_version c) c false
    end.

Lemma foldl_max_ge locks m :
  m ≤ foldl (λ m l, Z.max m (LockInfo.min_commit_ts l)) m locks.
Proof. revert m. induction locks as [|l locks IH]; intros m; simpl; [lia|]. specialize (IH (Z.max m (LockInfo.min_commit_ts l))). lia. Qed.

(** A fallback decided by a later response. *)
Ltac weaken_fallback E :=
  destruct E as (? & r' & l & ? & ?); split; [done|]; exists r', l; set_solver.

Lemma secondaries_loop_determined rest : ∀ primary m c s,
  secondaries_loop rest primary m true (Some c) = Ok s →
  secondaries_ok primary s m (Some c) rest.
Proof.
  induction rest as [|r rest IH]; intros primary m c s E; cbn [secondaries_loop] in E.
  { inv_res. unfold secondaries_ok. simpl. auto. }
  destruct (length (sr_locks r) <? sr_expected r)%nat eqn:Em.
  - destruct (Z.eqb_spec c (sr_commit_ts r)) as [->|]; [|done]. apply IH in E.
    unfold secondaries_ok in *. destruct (SecondaryLocksStatus.fallback_2pc s).
    + weaken_fallback E.
    + destruct E as (Ha & Hc & ?). split_and!; [constructor; [|done] | constructor; [|done] | done].
      * unfold async_response, lock_missing. rewrite Em. done.
      * done.
  - pose proof (secondary_locks_loop_spec (sr_locks r) true m) as Hl.
    destruct (secondary_locks_loop _ _ _) as [m'|].
    + destruct Hl as [Hl ->]. apply IH in E.
      unfold secondaries_ok in *. destruct (SecondaryLocksStatus.fallback_2pc s).
      * weaken_fallback E.
      * destruct E as (Ha & Hc & ?). split_and!; [constructor; [|done] | constructor; [|done] | done].
        -- by intros _.
        -- unfold lock_missing. by rewrite Em.
    + inv_res. unfold secondaries_ok. simpl. split; [done|]. destruct Hl as (l & ? & ?).
      exists r, l. split_and!; [set_solver | done | done | done].
Qed.

Lemma secondaries_loop_spec rest : ∀ primary m s,
  secondaries_loop rest primary m false None = Ok s → secondaries_ok primary s m None rest.
Proof.
  induction rest as [|r rest IH]; intros primary m s E; cbn [secondaries_loop] in E.
  { inv_res. unfold secondaries_ok. simpl. split; [done|]. left. done. }
  destruct (length (sr_locks r) <? sr_expected r)%nat eqn:Em.
  - destruct (negb _ && _) eqn:Ec; [done|]. apply secondaries_loop_determined in E.
    unfold secondaries_ok in *. destruct (SecondaryLocksStatus.fallback_2pc s).
    + weaken_fallback E.
    + destruct E as (Ha & Hc & ?). split; [constructor; [|done]|].
      { unfold async_response, lock_missing. rewrite Em. done. }
      right. exists (sr_commit_ts r). split_and!; [exists r; set_solver | | by constructor | done].
      apply andb_false_iff in Ec as [Ec%negb_false_iff%Z.eqb_eq | Ec%Z.ltb_ge]; auto.
  - pose proof (secondary_locks_loop_spec (sr_locks r) false m) as Hl.
    destruct (secondary_locks_loop _ _ _) as [m'|].
    + destruct Hl as [Hl ->]. apply IH in E.
      unfold secondaries_ok in *. destruct (SecondaryLocksStatus.fallback_2pc s).
      * weaken_fallback E.
      * destruct E as (Ha & Hc). split; [constructor; [by intros _ | done]|].
        destruct Hc as [[Hf ->] | (c & Hex & Hmin & Hf & ->)].
        -- left. split; [by constructor|]. unfold max_min_commit_ts. cbn [mbind list_bind].
           by rewrite foldl_app.
        -- right. exists c. split_and!; [set_solver | | constructor; [|done] | done].
           ++ pose proof (foldl_max_ge (sr_locks r) m). lia.
           ++ unfold lock_missing. by rewrite Em.
    + inv_res. unfold secondaries_ok. simpl. split; [done|]. destruct Hl as (l & ? & ?).
      exists r, l. split_and!; [set_solver | done | done | done].
Qed.

(** C17: async-commit recovery computes the outcome the protocol defines.  When
    [check_all_secondaries] answers without falling back, every response with all its
    locks has async-commit locks only, and: if no lock is missing the transaction
    commits at the largest [min_commit_ts] of the primary and all secondaries; if
    some lock is missing, all the responses with a missing lock report the same
    commit timestamp, which decides the transaction and is [0] (rolled back) or not
    below the primary's [min_commit_ts].  A fallback to two-phase commit happens only
    when a lock without async commit was returned. *)
Theorem check_all_secondaries_correct responses primary s :
  check_all_secondaries responses primary = Ok s →
  if SecondaryLocksStatus.fallback_2pc s then
    s = SecondaryLocksStatus.mk None primary true ∧
    ∃ r l, r ∈ responses ∧ lock_missing r = false ∧ l ∈ sr_locks r ∧
      LockInfo.use_async_commit l = false
  else
    Forall async_response responses ∧
    ((Forall (λ r, lock_missing r = false) responses ∧
      s = SecondaryLocksStatus.mk None (max_min_commit_ts primary responses) false) ∨
     ∃ c, (∃ r, r ∈ responses ∧ lock_missing r = true) ∧ (c = 0 ∨ primary ≤ c) ∧
       Forall (λ r, lock_missing r = true → sr_commit_ts r = c) responses ∧
       s = SecondaryLocksStatus.mk (Timestamp.try_from_version c) c false).
Proof. intros E. apply (secondaries_loop_spec _ _ _ _ E). Qed.

Definition async_lock (k : Key) (min_commit_ts : Z) : LockInfo.t :=
  LockInfo.mk [1] 3 k 0 1 Op_Put 0 true min_commit_ts [] 0 [] false.

Lemma check_all_secondaries_correct_witness :
  let rs := [mkSecondaryResponse [async_lock [2] 7] 0 1; mkSecondaryResponse [async_lock [3] 9] 0 1] in
  check_all_secondaries rs 5 = Ok (SecondaryLocksStatus.mk None 9 false) ∧ Forall async_response rs.
Proof.
  intros rs. split; [reflexivity|].
  exact (proj1 (check_all_secondaries_correct rs 5 (SecondaryLocksStatus.mk None 9 false) eq_refl)).
Defined.

(** ** [cleanup_locks] *)

Definition cleaned (ctx : ResolveLocksContext.t) (v : Z) (region : RegionVerId.t) : Prop :=
  ResolveLocksContext.is_region_cleaned v region ctx = true.

Lemma cleaned_clean_regions ctx ctx' v region :
  ResolveLocksContext.clean_regions ctx' = ResolveLocksContext.clean_regions ctx →
  cleaned ctx' v region ↔ cleaned ctx v region.
Proof. unfold cleaned, ResolveLocksContext.is_region_cleaned. by intros ->. Qed.

Lemma save_cleaned_region_cleaned ctx v r v' r' :
  cleaned (ResolveLocksContext.save_cleaned_region v r ctx) v' r' ↔
    (v' = v ∧ r' = r) ∨ cleaned ctx v' r'.
Proof.
  unfold cleaned, ResolveLocksContext.is_region_cleaned. simpl.
  destruct (decide (v = v')) as [<-|].
  - rewrite lookup_insert_eq, bool_decide_eq_true.
    destruct (ResolveLocksContext.clean_regions ctx !! v); simpl;
      rewrite ?bool_decide_eq_true; set_solver.
  - rewrite lookup_insert_ne by done. naive_solver.
Qed.

Lemma save_all_cleaned (infos : list (Z * Z)) region : ∀ ctx v r,
  cleaned (foldl (λ ctx p, ResolveLocksContext.save_cleaned_region p.1 region ctx) ctx infos) v r ↔
    (r = region ∧ v ∈ infos.*1) ∨ cleaned ctx v r.
Proof.
  induction infos as [|[v0 c0] infos IH]; intros ctx v r; simpl.
  { rewrite elem_of_nil. naive_solver. }
  rewrite IH, save_cleaned_region_cleaned, elem_of_cons. simpl. naive_solver.
Qed.

Section cleanup_proof.
Context (check_status_rpc : Z → Key → bool → bool → Result TransactionStatus.t).
Context (get_timestamp : Result Timestamp.t).
Context (secondaries_rpc : list (list Z) → Z → Result (list SecondaryResponse)).
Context (batch_resolve_rpc : list (Z * Z) → Result ()).

Notation decide_txn := (decide_txn check_status_rpc get_timestamp secondaries_rpc).
Notation cleanup_loop := (cleanup_loop check_status_rpc get_timestamp secondaries_rpc).

Lemma check_txn_status_clean_regions ctx v p f r :
  ResolveLocksContext.clean_regions (check_txn_status check_status_rpc get_timestamp ctx v p f r).1 =
  ResolveLocksContext.clean_regions ctx.
Proof. unfold check_txn_status. by repeat case_match; simplify_eq/=. Qed.

Lemma decide_txn_clean_regions ctx l :
  ResolveLocksContext.clean_regions (decide_txn ctx l).1 = ResolveLocksContext.clean_regions ctx.
Proof.
  unfold Locks.decide_txn.
  pose proof (check_txn_status_clean_regions ctx (LockInfo.lock_version l) (LockInfo.primary_lock l)
    false (LockInfo.lock_type l =? Op_PessimisticLock)) as H1.
  destruct (check_txn_status _ _ ctx _ _ false _) as [ctx1 [s|e]]; simpl in H1; [|done].
  destruct (TransactionStatus.kind s); [done | done |].
  destruct (secondaries_rpc _ _); [|done]. destruct (check_all_secondaries _ _) as [s'|]; [|done].
  destruct (SecondaryLocksStatus.fallback_2pc s'); [|done].
  pose proof (check_txn_status_clean_regions ctx1 (LockInfo.lock_version l) (LockInfo.primary_lock l)
    true (LockInfo.lock_type l =? Op_PessimisticLock)) as H2.
  destruct (check_txn_status _ _ ctx1 _ _ true _) as [ctx2 [s2|e]]; simpl in H2; simpl; congruence.
Qed.

(** The loop decides each transaction once, from some lock of it. *)
Lemma cleanup_loop_spec region locks : ∀ ctx infos ctx' res,
  cleanup_loop region locks ctx infos = (ctx', res) →
  ResolveLocksContext.clean_regions ctx' = ResolveLocksContext.clean_regions ctx ∧
  ∀ infos', res = Ok infos' →
    infos ⊆ infos' ∧
    (∀ l, l ∈ locks → is_Some (infos' !! LockInfo.lock_version l) ∨
                      cleaned ctx (LockInfo.lock_version l) region) ∧
    (∀ v c, infos' !! v = Some c → infos !! v = Some c ∨
       ∃ l ctx1, l ∈ locks ∧ LockInfo.lock_version l = v ∧ (decide_txn ctx1 l).2 = Ok c).
Proof.
  induction locks as [|l locks IH]; intros ctx infos ctx' res E; cbn [Locks.cleanup_loop] in E.
  { inv_res. split; [done|]. intros infos' ?. inv_res.
    split_and!; [done | intros ? ?%elem_of_nil; done | auto]. }
  destruct (bool_decide _ || _) eqn:Eskip.
  - destruct (IH _ _ _ _ E) as [Hc Hok]. split; [done|]. intros infos' ->.
    destruct (Hok _ eq_refl) as (Hsub & Hall & Hfrom). split_and!; [done | |].
    + intros l' [-> | ?]%elem_of_cons; [|auto]. apply orb_true_iff in Eskip as [Hs | Hs]; [|by right].
      apply bool_decide_eq_true in Hs as [c Hs]. left. exists c. by eapply lookup_weaken.
    + intros v c Hv. destruct (Hfrom _ _ Hv) as [? | (l' & ctx1 & ? & ?)]; [by left|].
      right. exists l', ctx1. set_solver.
  - pose proof (decide_txn_clean_regions ctx l) as Hd.
    destruct (decide_txn ctx l) as [ctx1 [c|e]] eqn:Ed; simpl in Hd; [|by inv_res].
    apply orb_false_iff in Eskip as [Hnew _]. apply bool_decide_eq_false in Hnew.
    destruct (IH _ _ _ _ E) as [Hc Hok]. split; [congruence|]. intros infos' ->.
    destruct (Hok _ eq_refl) as (Hsub & Hall & Hfrom). split_and!.
    + etransitivity; [|exact Hsub]. apply insert_subseteq. by apply eq_None_not_Some.
    + intros l' [-> | Hl']%elem_of_cons.
      * left. exists c. eapply lookup_weaken; [apply lookup_insert_eq | done].
      * destruct (Hall _ Hl') as [? | Hcl]; [by left|]. right. by eapply cleaned_clean_regions.
    + intros v c' Hv. destruct (Hfrom _ _ Hv) as [Hi | (l' & ctx2 & ? & ?)].
      * apply lookup_insert_Some in Hi as [[<- <-] | [_ ?]]; [|by left]. right.
        exists l, ctx. rewrite Ed. set_solver.
      * right. exists l', ctx2. set_solver.
Qed.

End cleanup_proof.

(** Garbage collection records as cleaned exactly what it resolved.  When
    [cleanup_locks] succeeds on a region's locks, every transaction among them is
    recorded as cleaned in that region; it sent one batch with one decision per
    transaction, each decision computed for a lock of the input; and the records
    that were added are those of the batch.  When it fails, no record is added. *)
Theorem cleanup_locks_correct check_rpc get_ts secondaries_rpc batch_rpc region locks ctx ctx' res :
  cleanup_locks check_rpc get_ts secondaries_rpc batch_rpc region locks ctx = (ctx', res) →
  match res with
  | Err _ => ∀ v r, cleaned ctx' v r ↔ cleaned ctx v r
  | Ok _ =>
      ∃ infos : list (Z * Z), (locks ≠ [] → batch_rpc infos = Ok ()) ∧ NoDup infos.*1 ∧
        (∀ l, l ∈ locks → cleaned ctx' (LockInfo.lock_version l) region) ∧
        (∀ v c, (v, c) ∈ infos → ∃ l ctx1, l ∈ locks ∧ LockInfo.lock_version l = v ∧
           (decide_txn check_rpc get_ts secondaries_rpc ctx1 l).2 = Ok c) ∧
        (∀ v r, cleaned ctx' v r ↔ (r = region ∧ v ∈ infos.*1) ∨ cleaned ctx v r)
  end.
Proof.
  intros E. destruct locks as [|l0 ls] eqn:El; cbn [cleanup_locks] in E.
  { inv_res. exists []. split_and!; [done | constructor | intros ? ?%elem_of_nil; done
      | intros ?? ?%elem_of_nil; done | intros; rewrite elem_of_nil; naive_solver]. }
  rewrite <- El in *. clear El.
  destruct (cleanup_loop _ _ _ _ _ _ _) as [ctx1 r1] eqn:Eloop.
  destruct (cleanup_loop_spec _ _ _ _ _ _ _ _ _ Eloop) as [Hc Hok].
  destruct r1 as [infos|e]; [|inv_res; intros; by apply cleaned_clean_regions].
  destruct (Hok _ eq_refl) as (_ & Hall & Hfrom).
  destruct (batch_rpc _) as [[]|e] eqn:Eb; inv_res; [|intros; by apply cleaned_clean_regions].
  exists (map_to_list infos). split_and!; [done | apply NoDup_fst_map_to_list | | |].
  - intros l Hl. rewrite save_all_cleaned. destruct (Hall _ Hl) as [[c Hv] | Hcl].
    + left. split; [done|]. apply list_elem_of_fmap. exists (LockInfo.lock_version l, c).
      split; [done | by apply elem_of_map_to_list].
    + right. by apply (cleaned_clean_regions ctx).
  - intros v c Hin%elem_of_map_to_list. destruct (Hfrom _ _ Hin) as [Hv | Hv]; [|done].
    by rewrite lookup_empty in Hv.
  - intros v r. rewrite save_all_cleaned, (cleaned_clean_regions ctx) by done. done.
Qed.

Lemma cleanup_locks_correct_witness :
  ∃ ctx', cleanup_locks (λ _ _ _ _, Ok (TransactionStatus.mk KRolledBack 0 false))
    (Ok (Timestamp.from_version 262144)) (λ _ _, Ok []) (λ _, Ok ()) (sample_region [1])
    [sample_lock [1] [1] 3] ResolveLocksContext.new = (ctx', Ok ()) ∧
    cleaned ctx' 3 (sample_region [1]).
Proof.
  eexists. split; [reflexivity|].
  destruct (cleanup_locks_correct (λ _ _ _ _, Ok (TransactionStatus.mk KRolledBack 0 false))
    (Ok (Timestamp.from_version 262144)) (λ _ _, Ok []) (λ _, Ok ()) (sample_region [1])
    [sample_lock [1] [1] 3] ResolveLocksContext.new _ (Ok ()) eq_refl) as (infos & _ & _ & Hall & _).
  apply (Hall (sample_lock [1] [1] 3)). left.
Defined.

(** An expired primary lock of an async-commit transaction is cached by
    [check_txn_status] when the server took no action.  When the secondaries then ask
    for a fallback, the second, forced check is answered from that cache, so
    [cleanup_locks] fails although the forced check would have rolled the transaction
    back. *)
Lemma cleanup_fallback_answered_from_cache :
  let primary := LockInfo.mk [1] 3 [1] 0 1 Op_Put 0 true 7 [[2]] 0 [] false in
  let secondary := LockInfo.mk [1] 3 [2] 0 1 Op_Put 0 false 0 [] 0 [] false in
  let check_rpc (_ : Z) (_ : Key) (force_sync_commit _ : bool) : Result TransactionStatus.t :=
    Ok (if force_sync_commit then TransactionStatus.mk KRolledBack Action_TtlExpireRollback false
        else TransactionStatus.mk (KLocked 0 primary) Action_NoAction false) in
  (cleanup_locks check_rpc (Ok (Timestamp.from_version 262144))
    (λ _ _, Ok [mkSecondaryResponse [secondary] 0 1]) (λ _, Ok ()) (sample_region [1])
    [primary] ResolveLocksContext.new).2 = Err (ResolveLockError [primary]).
Proof. reflexivity. Qed.
