(* ===== verification/Requests.v ===== *)
(** * Transactional requests and responses (src/src/transaction/requests.rs,
      src/src/transaction/lowering.rs, src/src/util/iter.rs)

    The requests a transaction sends, their constructors, the shards of a prewrite,
    the merging of responses and the extraction of locks from them.  A request has the
    protobuf fields its constructor or its caller sets; the [Context] that
    [RequestContext::apply_to] fills in is in Contexts.v.

    The theorems: a prewrite tries one-phase commit only when one request carries the
    whole transaction (with a counterexample when check-not-exists mutations are
    present), and the results of a pessimistic lock are paired with their keys. *)

From Stdlib Require Import Sorting.Permutation.
From S2P Require Import Prelude Keys Proto Errors Ranges Kv Timestamps Regions Sharding Locks.

(** ** Requests *)

Module GetRequest.
Record t := mk { key : Key; version : Z; need_commit_ts : bool }.
End GetRequest.
Module BatchGetRequest.
Record t := mk { keys : list (list Z); version : Z; need_commit_ts : bool }.
End BatchGetRequest.
Module ScanRequest.
Record t := mk { start_key : Key; end_key : Key; limit : Z; key_only : bool; version : Z; reverse : bool }.
End ScanRequest.
Module ResolveLockRequest.
Record t := mk { start_version : Z; commit_version : Z; txn_infos : list (Z * Z) }.
End ResolveLockRequest.
Module CleanupRequest.
Record t := mk { key : Key; start_version : Z }.
End CleanupRequest.

(** [PessimisticAction::DoPessimisticCheck] *)
Definition DoPessimisticCheck : Z := 1.

Module PrewriteRequest.
Record t := mk {
  mutations : list PbMutation.t;
  primary_lock : Key;
  start_version : Z;
  lock_ttl : Z;
  for_update_ts : Z;
  pessimistic_actions : list Z;
  use_async_commit : bool;
  try_one_pc : bool;
  min_commit_ts : Z;
  max_commit_ts : Z;
  secondaries : list (list Z);
  assertion_level : AssertionLevel;
  txn_size : Z
}.
End PrewriteRequest.

Module FlushRequest.
Record t := mk {
  mutations : list PbMutation.t; primary_key : Key; start_ts : Z; min_commit_ts : Z;
  generation : Z; lock_ttl : Z; assertion_level : AssertionLevel }.
End FlushRequest.
Module CommitRequest.
Record t := mk { keys : list (list Z); start_version : Z; commit_version : Z; primary_key : Key }.
End CommitRequest.
Module BatchRollbackRequest.
Record t := mk { keys : list (list Z); start_version : Z }.
End BatchRollbackRequest.
Module PessimisticRollbackRequest.
Record t := mk { keys : list (list Z); start_version : Z; for_update_ts : Z }.
End PessimisticRollbackRequest.

(** [PessimisticLockWakeUpMode] and [LockOptions] (transaction.rs) *)
Inductive WakeUpMode := WakeUpModeNormal | WakeUpModeForceLock.
#[export] Instance WakeUpMode_eq_dec : EqDecision WakeUpMode.
Proof. solve_decision. Defined.

Module LockOptions.
Record t := mk {
  wait_timeout_ms : Z; return_values : bool; check_existence : bool;
  lock_only_if_exists : bool; wake_up_mode : WakeUpMode }.
Definition new : t := mk 0 false false false WakeUpModeNormal.
Definition with_return_values (v : bool) (o : t) : t :=
  mk (wait_timeout_ms o) v (check_existence o) (lock_only_if_exists o) (wake_up_mode o).
End LockOptions.

Module PessimisticLockRequest.
Record t := mk {
  mutations : list PbMutation.t; primary_lock : Key; start_version : Z; lock_ttl : Z;
  for_update_ts : Z; is_first_lock : bool; options : LockOptions.t; min_commit_ts : Z }.
End PessimisticLockRequest.
Module ScanLockRequest.
Record t := mk { start_key : Key; end_key : Key; max_version : Z; limit : Z }.
End ScanLockRequest.
Module TxnHeartBeatRequest.
Record t := mk { start_version : Z; primary_lock : Key; advise_lock_ttl : Z }.
End TxnHeartBeatRequest.

(** ** Constructors: lowering.rs calls the function of the same name in requests.rs *)

Definition new_get_request_with_need_commit_ts (key : Key) (timestamp : Timestamp.t)
    (need_commit_ts : bool) : GetRequest.t :=
  GetRequest.mk key (Timestamp.version timestamp) need_commit_ts.
Definition new_get_request (key : Key) (timestamp : Timestamp.t) : GetRequest.t :=
  new_get_request_with_need_commit_ts key timestamp false.

Definition new_batch_get_request_with_need_commit_ts (keys : list (list Z)) (timestamp : Timestamp.t)
    (need_commit_ts : bool) : BatchGetRequest.t :=
  BatchGetRequest.mk keys (Timestamp.version timestamp) need_commit_ts.
Definition new_batch_get_request (keys : list (list Z)) (timestamp : Timestamp.t) : BatchGetRequest.t :=
  new_batch_get_request_with_need_commit_ts keys timestamp false.

Definition new_scan_request (range : BoundRange.t) (timestamp : Timestamp.t) (limit : Z)
    (key_only reverse : bool) : ScanRequest.t :=
  let '(start_key, end_key) := BoundRange.into_keys range in
  let end_key := default [] end_key in
  let '(s, e) := if negb reverse then (start_key, end_key) else (end_key, start_key) in
  ScanRequest.mk s e limit key_only (Timestamp.version timestamp) reverse.

Definition new_resolve_lock_request (start_version commit_version : Z) : ResolveLockRequest.t :=
  ResolveLockRequest.mk start_version commit_version [].
Definition new_batch_resolve_lock_request (txn_infos : list (Z * Z)) : ResolveLockRequest.t :=
  ResolveLockRequest.mk 0 0 txn_infos.
Definition new_cleanup_request (key : Key) (start_version : Z) : CleanupRequest.t :=
  CleanupRequest.mk key start_version.

Definition new_prewrite_request (mutations : list PbMutation.t) (primary_lock : Key)
    (start_version : Timestamp.t) (lock_ttl : Z) : PrewriteRequest.t :=
  PrewriteRequest.mk mutations primary_lock (Timestamp.version start_version) lock_ttl
    0 [] false false 0 0 [] LevelOff 0.
Definition new_pessimistic_prewrite_request (mutations : list PbMutation.t) (primary_lock : Key)
    (start_version : Timestamp.t) (lock_ttl : Z) (for_update_ts : Timestamp.t) : PrewriteRequest.t :=
  PrewriteRequest.mk mutations primary_lock (Timestamp.version start_version) lock_ttl
    (Timestamp.version for_update_ts) (replicate (length mutations) DoPessimisticCheck)
    false false 0 0 [] LevelOff 0.

Definition new_flush_request (mutations : list PbMutation.t) (primary_key : Key)
    (start_ts generation lock_ttl : Z) : FlushRequest.t :=
  FlushRequest.mk mutations primary_key start_ts (sat_add_u64 start_ts 1) generation lock_ttl LevelOff.

Definition new_commit_request (keys : list (list Z)) (start_version commit_version : Timestamp.t) :
    CommitRequest.t :=
  CommitRequest.mk keys (Timestamp.version start_version) (Timestamp.version commit_version) [].
Definition new_commit_request_with_primary_key (keys : list (list Z)) (primary_key : option Key)
    (start_version commit_version : Timestamp.t) : CommitRequest.t :=
  CommitRequest.mk keys (Timestamp.version start_version) (Timestamp.version commit_version)
    (default [] primary_key).

Definition new_batch_rollback_request (keys : list (list Z)) (start_version : Timestamp.t) :
    BatchRollbackRequest.t :=
  BatchRollbackRequest.mk keys (Timestamp.version start_version).
Definition new_pessimistic_rollback_request (keys : list (list Z))
    (start_version for_update_ts : Timestamp.t) : PessimisticRollbackRequest.t :=
  PessimisticRollbackRequest.mk keys (Timestamp.version start_version) (Timestamp.version for_update_ts).

Definition new_pessimistic_lock_request (locks : list (list Z * Assertion)) (primary_lock : Key)
    (start_version : Timestamp.t) (lock_ttl : Z) (for_update_ts : Timestamp.t) (is_first_lock : bool)
    (options : LockOptions.t) : PessimisticLockRequest.t :=
  PessimisticLockRequest.mk
    (map (λ l : list Z * Assertion, PbMutation.mk Op_PessimisticLock l.1 [] (assertion_i32 l.2)) locks)
    primary_lock (Timestamp.version start_version) lock_ttl (Timestamp.version for_update_ts)
    is_first_lock options (sat_add_u64 (Timestamp.version for_update_ts) 1).

Definition new_scan_lock_request (range : BoundRange.t) (safepoint : Timestamp.t) (limit : Z) :
    ScanLockRequest.t :=
  let '(start_key, end_key) := BoundRange.into_keys range in
  ScanLockRequest.mk start_key (default [] end_key) (Timestamp.version safepoint) limit.

Definition new_heart_beat_request (start_ts : Timestamp.t) (primary_lock : Key) (ttl : Z) :
    TxnHeartBeatRequest.t :=
  TxnHeartBeatRequest.mk (Timestamp.version start_ts) primary_lock ttl.

(** ** Sharding a prewrite *)

Record PrewriteShard := mkPrewriteShard { ps_mutations : list PbMutation.t; ps_txn_size : Z }.

(** The batches of one region's mutations; the error arm is the empty stream. *)
Definition prewrite_region_shards (r : Result (list PbMutation.t * RegionWithLeader.t)) :
    list (Result (PrewriteShard * RegionWithLeader.t)) :=
  match r with
  | Ok (mutations, region) =>
      let txn_size := Z.of_nat (length mutations) in
      map (λ batch, Ok (mkPrewriteShard batch txn_size, region))
        (batches mutation_size mutations TXN_COMMIT_BATCH_SIZE)
  | Err _ => []
  end.

Definition prewrite_shards (pd : nat → list Z → Result RegionWithLeader.t) (fuel : nat)
    (req : PrewriteRequest.t) : option (list (Result (PrewriteShard * RegionWithLeader.t))) :=
  let mutations := sort_by_key PbMutation.key (PrewriteRequest.mutations req) in
  (λ rs, concat (map prewrite_region_shards rs))
    <$> group_keys_by_region pd PbMutation.key fuel mutations.

Definition apply_shard (shard : PrewriteShard) (req : PrewriteRequest.t) : PrewriteRequest.t :=
  let is_primary_shard :=
    existsb (λ m, key_eqb (PbMutation.key m) (PrewriteRequest.primary_lock req)) (ps_mutations shard) in
  let secondaries :=
    if PrewriteRequest.use_async_commit req && negb is_primary_shard then []
    else PrewriteRequest.secondaries req in
  let try_one_pc :=
    if PrewriteRequest.try_one_pc req &&
       (negb is_primary_shard || negb (length (ps_mutations shard) =? length secondaries + 1)%nat)
    then false else PrewriteRequest.try_one_pc req in
  PrewriteRequest.mk (ps_mutations shard) (PrewriteRequest.primary_lock req)
    (PrewriteRequest.start_version req) (PrewriteRequest.lock_ttl req)
    (PrewriteRequest.for_update_ts req) (PrewriteRequest.pessimistic_actions req)
    (PrewriteRequest.use_async_commit req) try_one_pc
    (PrewriteRequest.min_commit_ts req) (PrewriteRequest.max_commit_ts req) secondaries
    (PrewriteRequest.assertion_level req) (ps_txn_size shard).

(** [apply_store] after the region context is set: a retry disables resolve-lock-lite. *)
Definition apply_store (attempt : nat) (req : PrewriteRequest.t) : PrewriteRequest.t :=
  if (0 <? attempt)%nat then
    PrewriteRequest.mk (PrewriteRequest.mutations req) (PrewriteRequest.primary_lock req)
      (PrewriteRequest.start_version req) (PrewriteRequest.lock_ttl req)
      (PrewriteRequest.for_update_ts req) (PrewriteRequest.pessimistic_actions req)
      (PrewriteRequest.use_async_commit req) (PrewriteRequest.try_one_pc req)
      (PrewriteRequest.min_commit_ts req) (PrewriteRequest.max_commit_ts req)
      (PrewriteRequest.secondaries req) (PrewriteRequest.assertion_level req) u64_max
  else req.

(** ** Responses *)

(** [kvrpcpb::KvPair] *)
Module PbKvPair.
Record t := mk { error : option KeyError.t; key : Key; value : Value; commit_ts : Z }.
Definition into (p : t) : KvPair.t := KvPair.new_with_commit_ts (key p) (value p) (commit_ts p).
End PbKvPair.

Module PrewriteResponse.
Record t := mk { min_commit_ts : Z; one_pc_commit_ts : Z }.
End PrewriteResponse.

(** A response with [pairs] and an [error] (batch get, scan). *)
Record PairsResponse := mkPairsResponse { pr_pairs : list PbKvPair.t; pr_error : option KeyError.t }.

(** [take_locks] of [pair_locks!], of [error_locks!] and of the responses with an
    [errors] list. *)
Definition pair_locks (r : PairsResponse) : list LockInfo.t :=
  if is_empty (pr_pairs r) then option_list (pr_error r ≫= KeyError.locked)
  else omap (λ p, PbKvPair.error p ≫= KeyError.locked) (pr_pairs r).
Definition error_locks (error : option KeyError.t) : list LockInfo.t :=
  option_list (error ≫= KeyError.locked).
Definition errors_locks (errors : list KeyError.t) : list LockInfo.t := omap KeyError.locked errors.

(** [flat_map_ok(..).collect()]: the items in order, or the first error. *)
Definition flat_map_ok {A B} (f : A → list B) (input : list (Result A)) : Result (list B) :=
  foldr (λ r acc,
    match r with
    | Err e => Err e
    | Ok a => rest ← acc; Ok (f a ++ rest)
    end) (Ok []) input.

(** [Merge<BatchGetResponse>] and [Merge<ScanResponse>] for [Collect] *)
Definition collect_pairs (input : list (Result PairsResponse)) : Result (list KvPair.t) :=
  flat_map_ok (λ resp, map PbKvPair.into (pr_pairs resp)) input.

(** ** Merging pessimistic lock responses *)

Inductive LockResultType := LockResultNormal | LockResultLockedWithConflict | LockResultFailed.
Definition lock_result_type (t : Z) : LockResultType :=
  if t =? 0 then LockResultNormal else if t =? 1 then LockResultLockedWithConflict else LockResultFailed.

Record LockKeyResult := mkLockKeyResult { lr_type : Z; lr_value : Value; lr_existence : bool }.
Module PessimisticLockResponse.
Record t := mk { results : list LockKeyResult; values : list (list Z); not_founds : list bool }.
End PessimisticLockResponse.

(** One response with the mutations of its shard. *)
Definition merge_lock_response (resp : PessimisticLockResponse.t) (mutations : list PbMutation.t) :
    Result (list KvPair.t) :=
  let n := length mutations in
  let results := PessimisticLockResponse.results resp in
  if negb (is_empty results) then
    if negb (length results =? n)%nat
    then Err (InternalError "PessimisticLockResponse.results length mismatch")
    else Ok (omap (λ p : PbMutation.t * LockKeyResult,
                match lock_result_type (lr_type p.2) with
                | LockResultNormal | LockResultLockedWithConflict =>
                    if lr_existence p.2 then Some (KvPair.new (PbMutation.key p.1) (lr_value p.2)) else None
                | LockResultFailed => None
                end) (zip mutations results))
  else
    let values := PessimisticLockResponse.values resp in
    let not_founds := PessimisticLockResponse.not_founds resp in
    let values := if is_empty values && negb (is_empty mutations) then replicate n [] else values in
    if negb (length values =? n)%nat
    then Err (InternalError "PessimisticLockResponse.values length mismatch")
    else if negb (is_empty not_founds) && negb (length not_founds =? n)%nat
    then Err (InternalError "PessimisticLockResponse.not_founds length mismatch")
    else if is_empty not_founds then
      Ok (omap (λ p : PbMutation.t * list Z,
            if negb (is_empty p.2) then Some (KvPair.new (PbMutation.key p.1) p.2) else None)
          (zip mutations values))
    else
      Ok (omap (λ p : (PbMutation.t * list Z) * bool,
            if negb p.2 then Some (KvPair.new (PbMutation.key p.1.1) p.1.2) else None)
          (zip (zip mutations values) not_founds)).

(** [Merge<ResponseWithShard<PessimisticLockResponse, ..>> for CollectWithShard] *)
Definition collect_with_shard
    (input : list (Result (PessimisticLockResponse.t * list PbMutation.t))) : Result (list KvPair.t) :=
  let oks := omap ok input in
  let first_err := head (omap (λ r : Result (PessimisticLockResponse.t * list PbMutation.t),
                      match r with Ok _ => None | Err e => Some e end) input) in
  match first_err with
  | Some err => Err (PessimisticLockError err (concat (map (λ p, map PbMutation.key p.2) oks)))
  | None => flat_map_ok id (map (λ p, merge_lock_response p.1 p.2) oks)
  end.


(** ** One-phase commit *)

Lemma prewrite_region_shards_ok (groups : list (list PbMutation.t * RegionWithLeader.t)) :
  ∃ shards, concat (map prewrite_region_shards (map Ok groups)) = map Ok shards ∧
    concat (map (λ s, ps_mutations s.1) shards) = concat (map fst groups) ∧
    Forall (λ s, ps_mutations s.1 ≠ []) shards.
Proof.
  induction groups as [|[g r] groups (shards & E & Hc & HP)]; simpl.
  { exists []. split_and!; [done..|]. constructor. }
  destruct (batches_loop_spec mutation_size TXN_COMMIT_BATCH_SIZE g [] [] 0) as [Hb Hne];
    [done | constructor | by left |].
  fold (batches mutation_size g TXN_COMMIT_BATCH_SIZE) in Hb, Hne. simpl in Hb.
  exists (map (λ b, (mkPrewriteShard b (Z.of_nat (length g)), r))
            (batches mutation_size g TXN_COMMIT_BATCH_SIZE) ++ shards). split_and!.
  - rewrite E, map_app, map_map. done.
  - rewrite map_app, concat_app, map_map, Hc. simpl. by rewrite map_id, Hb.
  - apply Forall_app. split; [|done]. apply Forall_map. eapply Forall_impl; [exact Hne|].
    intros b [? _]. done.
Qed.

Lemma has_primary_spec shard req :
  existsb (λ m, key_eqb (PbMutation.key m) (PrewriteRequest.primary_lock req)) (ps_mutations shard) = true ↔
  PrewriteRequest.primary_lock req ∈ map PbMutation.key (ps_mutations shard).
Proof.
  rewrite existsb_exists, list_elem_of_In, in_map_iff. split; intros (m & ? & ?); exists m.
  - by destruct (key_eqb_spec (PbMutation.key m) (PrewriteRequest.primary_lock req)).
  - by destruct (key_eqb_spec (PbMutation.key m) (PrewriteRequest.primary_lock req)).
Qed.

(** A shard keeps the one-phase flag when it has the primary and as many mutations
    as there are keys to commit. *)
Lemma apply_shard_one_pc shard req : PrewriteRequest.try_one_pc req = true →
  PrewriteRequest.try_one_pc (apply_shard shard req) = true ↔
    PrewriteRequest.primary_lock req ∈ map PbMutation.key (ps_mutations shard) ∧
    length (ps_mutations shard) = S (length (PrewriteRequest.secondaries req)).
Proof.
  intros H1. rewrite <- has_primary_spec. unfold apply_shard; cbn [PrewriteRequest.try_one_pc]. rewrite H1.
  destruct (existsb _ _); simpl; [|naive_solver]. rewrite andb_false_r.
  destruct (Nat.eqb_spec (length (ps_mutations shard)) (length (PrewriteRequest.secondaries req) + 1));
    simpl; split; intros; destruct_and?; try done; try lia; (split; [done | lia]).
Qed.

Lemma concat_length_singleton {A} (ls : list (list A)) l :
  Forall (λ x, x ≠ []) ls → l ∈ ls → (length (concat ls) ≤ length l)%nat → ls = [l].
Proof.
  intros Hne (l1 & l2 & ->)%list_elem_of_split Hlen.
  apply Forall_app in Hne as [H1 [_ H2]%Forall_cons].
  rewrite concat_app, !length_app in Hlen. simpl in Hlen. rewrite length_app in Hlen.
  assert (∀ ls : list (list A), Forall (λ x, x ≠ []) ls → length (concat ls) = 0%nat → ls = []) as Hnil.
  { intros [|[|] ?] Hf ?; [done | by inversion Hf | done]. }
  rewrite (Hnil l1), (Hnil l2) by (done || lia). done.
Qed.

(** When no region lookup fails, the shards of a prewrite are its mutations, and none is empty. *)
Lemma prewrite_shards_spec pd fuel req :
  RegionLookup pd → (∀ t k, is_ok (pd t k) = true) →
  Forall (λ m, wf_key (PbMutation.key m)) (PrewriteRequest.mutations req) →
  (length (PrewriteRequest.mutations req) < fuel)%nat →
  ∃ shards, prewrite_shards pd fuel req = Some (map Ok shards) ∧
    concat (map (λ s, ps_mutations s.1) shards) ≡ₚ PrewriteRequest.mutations req ∧
    Forall (λ s, ps_mutations s.1 ≠ []) shards.
Proof.
  intros Hpd Hok Hwf Hf. unfold prewrite_shards.
  set (sorted := sort_by_key PbMutation.key (PrewriteRequest.mutations req)).
  assert (sorted ≡ₚ PrewriteRequest.mutations req) as Hperm by apply sort_by_key_perm.
  destruct (group_keys_stream pd PbMutation.key Hpd fuel 0 sorted)
    as (groups & tail & E & HF & rest & Hc & Ht); [by rewrite Hperm | by rewrite (Permutation_length Hperm) |].
  assert (tail = [] ∧ rest = []) as [-> ->].
  { destruct Ht as [|(e & -> & Hr)]; [done|]. exfalso. eapply group_keys_no_err; [exact Hok | exact E |].
    apply elem_of_app. right. by apply elem_of_cons; left. }
  unfold group_keys_by_region. rewrite E. cbn [fmap option_fmap option_map].
  rewrite app_nil_r in Hc |- *.
  destruct (prewrite_region_shards_ok groups) as (shards & -> & Hcc & Hne).
  rewrite <- Hc, <- Hcc in Hperm. by exists shards.
Qed.

(** One-phase commit is tried only by a request that carries the whole
    transaction.  When every mutation of a prewrite is to be committed (its keys are
    the primary and the secondaries) and no region lookup fails, the shards hold exactly the
    mutations, and a shard's request keeps the one-phase flag if and only if it is the
    only one; with async commit exactly the shard of the primary keeps the list of
    secondaries. *)
Theorem prewrite_one_pc_single_request pd fuel req :
  RegionLookup pd → (∀ t k, is_ok (pd t k) = true) →
  Forall (λ m, wf_key (PbMutation.key m)) (PrewriteRequest.mutations req) →
  (length (PrewriteRequest.mutations req) < fuel)%nat →
  map PbMutation.key (PrewriteRequest.mutations req)
    ≡ₚ PrewriteRequest.primary_lock req :: PrewriteRequest.secondaries req →
  PrewriteRequest.try_one_pc req = true →
  ∃ shards, prewrite_shards pd fuel req = Some (map Ok shards) ∧
    concat (map (λ s, ps_mutations s.1) shards) ≡ₚ PrewriteRequest.mutations req ∧
    ∀ s, s ∈ shards →
      (PrewriteRequest.try_one_pc (apply_shard s.1 req) = true ↔ shards = [s]) ∧
      (PrewriteRequest.use_async_commit req = true →
       PrewriteRequest.primary_lock req ∉ map PbMutation.key (ps_mutations s.1) →
       PrewriteRequest.secondaries (apply_shard s.1 req) = []) ∧
      (PrewriteRequest.primary_lock req ∈ map PbMutation.key (ps_mutations s.1) →
       PrewriteRequest.secondaries (apply_shard s.1 req) = PrewriteRequest.secondaries req).
Proof.
  intros Hpd Hok Hwf Hf Hkeys H1.
  destruct (prewrite_shards_spec pd fuel req Hpd Hok Hwf Hf) as (shards & E & Hperm & Hne).
  exists shards. split_and!; [done | done |]. intros s Hs.
  pose proof (Permutation_length Hkeys) as Hlen. rewrite length_map in Hlen. simpl in Hlen.
  split; [|split].
  - rewrite apply_shard_one_pc by done. split.
    + intros [_ Hl].
      assert (map (λ s, ps_mutations s.1) shards = [ps_mutations s.1]) as E1.
      { apply concat_length_singleton; [by apply Forall_map | by apply (list_elem_of_fmap_2 (λ s, ps_mutations s.1)) |].
        rewrite (Permutation_length Hperm), Hl, Hlen. done. }
      destruct shards as [|s' [|]]; [done | | done]. by apply list_elem_of_singleton in Hs as ->.
    + intros ->. simpl in Hperm. rewrite app_nil_r in Hperm. rewrite Hperm, Hkeys. split; [left|].
      exact Hlen.
  - intros Ha Hn. unfold apply_shard; cbn [PrewriteRequest.secondaries]. rewrite Ha.
    destruct (existsb _ _) eqn:Ep; [|done]. by apply has_primary_spec in Ep.
  - intros Hin%has_primary_spec. unfold apply_shard; cbn [PrewriteRequest.secondaries].
    by rewrite Hin, andb_false_r.
Qed.

(** A put of the key [k] and a check that [k] does not exist. *)
Definition sample_put (k : Key) : PbMutation.t := PbMutation.mk Op_Put k [7] 0.
Definition sample_check (k : Key) : PbMutation.t := PbMutation.mk Op_CheckNotExists k [] 0.

(** The prewrite of [mutations], with the primary [a] (97). *)
Definition sample_prewrite (mutations : list PbMutation.t) (secondaries : list (list Z)) :
    PrewriteRequest.t :=
  PrewriteRequest.mk mutations [97] 5 3000 0 [] false true 6 9 secondaries LevelOff 0.

Lemma prewrite_one_pc_single_request_witness :
  ∃ shards, prewrite_shards sample_pd 4 (sample_prewrite [sample_put [97]; sample_put [98]] [[98]])
    = Some (map Ok shards).
Proof.
  destruct (prewrite_one_pc_single_request sample_pd 4
    (sample_prewrite [sample_put [97]; sample_put [98]] [[98]])) as (sh & H & _).
  - exact sample_pd_lookup.
  - intros t k. unfold sample_pd. by destruct (key_ltb k [109]).
  - unfold wf_key, in_u8. repeat constructor; simpl; lia.
  - simpl. lia.
  - reflexivity.
  - reflexivity.
  - by exists sh.
Defined.

(** With a check-not-exists mutation the count of [apply_shard] is off: the mutations
    of the first region are a write and a check, as many as there are keys to commit, so its
    request asks for one-phase commit although the write of [z] (122) is in another
    region and is only prewritten. *)
Lemma one_pc_with_check_not_exists :
  let req := sample_prewrite [sample_put [97]; sample_check [98]; sample_put [122]] [[122]] in
  option_map (map (λ s, option_map (λ s, (map PbMutation.key (ps_mutations s.1),
                 PrewriteRequest.try_one_pc (apply_shard s.1 req))) (ok s)))
    (prewrite_shards sample_pd 4 req) =
  Some [Some ([[97]; [98]], true); Some ([[122]], false)].
Proof. by vm_compute. Qed.

(** ** Merging pessimistic lock responses: correctness *)

(** What TiKV reported for the [i]-th key of a shard: its value when the key is locked and exists. *)
Definition reported (resp : PessimisticLockResponse.t) (i : nat) : option Value :=
  match PessimisticLockResponse.results resp, PessimisticLockResponse.not_founds resp with
  | [], [] => v ← PessimisticLockResponse.values resp !! i; if is_empty v then None else Some v
  | [], not_founds =>
      not_found ← not_founds !! i;
      if not_found : bool then None else Some (default [] (PessimisticLockResponse.values resp !! i))
  | results, _ =>
      r ← results !! i;
      match lock_result_type (lr_type r) with
      | LockResultFailed => None
      | _ => if lr_existence r then Some (lr_value r) else None
      end
  end.

(** The pairs of one shard: key by key, in the order of the request. *)
Definition reported_pairs (p : PessimisticLockResponse.t * list PbMutation.t) : list KvPair.t :=
  omap id (imap (λ i m, KvPair.new (PbMutation.key m) <$> reported p.1 i) p.2).

Lemma omap_imap {A B C} (f : B → option C) (g : nat → A → option C) (l : list A) (k : list B) :
  length k = length l →
  (∀ i x y, l !! i = Some x → k !! i = Some y → f y = g i x) →
  omap f k = omap id (imap g l).
Proof.
  revert k g. induction l as [|x l IH]; intros [|y k] g Hlen H; try done.
  injection Hlen as Hlen. cbn [imap]. cbn. rewrite (H 0%nat x y) by done.
  rewrite (IH k (g ∘ S)); [by destruct (g 0%nat x)|done|]. intros i. by apply (H (S i)).
Qed.

Lemma merge_lock_response_reported resp ms out :
  merge_lock_response resp ms = Ok out → out = reported_pairs (resp, ms).
Proof.
  unfold merge_lock_response, reported_pairs, reported.
  destruct resp as [results values nfs]; cbn [PessimisticLockResponse.results
    PessimisticLockResponse.values PessimisticLockResponse.not_founds fst snd].
  destruct results as [|r0 results]; cbn [is_empty negb].
  - set (values' := if is_empty values && negb (is_empty ms) then _ else values).
    destruct (Nat.eqb_spec (length values') (length ms)) as [Hlen|]; [|done]. cbn [negb].
    assert (∀ i v, values' !! i = Some v → v = default [] (values !! i)) as Hv.
    { intros i v. unfold values'. destruct values as [|v0 values]; cbn [is_empty andb].
      - destruct ms; [done|]. cbn [is_empty negb]. intros [-> _]%lookup_replicate. done.
      - intros ->. done. }
    destruct nfs as [|nf nfs]; cbn [is_empty negb andb].
    + intros [= <-]. apply omap_imap; [rewrite length_zip; lia|].
      intros i m [m' v] Hm [Hm' Hi]%lookup_zip_Some. cbn [fst snd]. simplify_eq.
      rewrite (Hv i v Hi). destruct (values !! i) as [[|]|]; done.
    + destruct (Nat.eqb_spec (length (nf :: nfs)) (length ms)) as [Hn|]; [|done]. cbn [negb].
      intros [= <-]. apply omap_imap; [rewrite !length_zip; lia|].
      intros i m [[m' v] b] Hm [[Hm' Hi]%lookup_zip_Some Hb]%lookup_zip_Some. cbn [fst snd]. simplify_eq.
      rewrite Hb, (Hv i v Hi). by destruct b.
  - destruct (Nat.eqb_spec (length (r0 :: results)) (length ms)); [|done]. cbn [negb]. intros [= <-].
    apply omap_imap; [rewrite length_zip; lia|].
    intros i m [m' r] Hm [Hm' Hi]%lookup_zip_Some. cbn [fst snd]. simplify_eq. rewrite Hi. simpl.
    destruct (lock_result_type _), (lr_existence r); done.
Qed.

(** Every list of the answer that is present has one entry per key. *)
Definition aligned (p : PessimisticLockResponse.t * list PbMutation.t) : bool :=
  let one_each {A} (l : list A) := is_empty l || (length l =? length p.2)%nat in
  if is_empty (PessimisticLockResponse.results p.1)
  then one_each (PessimisticLockResponse.values p.1) && one_each (PessimisticLockResponse.not_founds p.1)
  else one_each (PessimisticLockResponse.results p.1).

Ltac case_natb := match goal with |- context [(?a =? ?b)%nat] => destruct (a =? b)%nat end; simpl.

Lemma merge_lock_response_aligned p :
  if aligned p then merge_lock_response p.1 p.2 = Ok (reported_pairs p)
  else ∃ msg, merge_lock_response p.1 p.2 = Err (InternalError msg).
Proof.
  destruct p as [resp ms]. pose proof (merge_lock_response_reported resp ms) as Hr.
  destruct (aligned (resp, ms)) eqn:E; cbn [fst snd].
  - destruct (merge_lock_response resp ms) as [out|e] eqn:Em; [f_equal; by apply Hr|]. exfalso. clear Hr.
    revert E Em. unfold aligned, merge_lock_response. destruct resp as [[|r rs] vs nfs]; simpl.
    + destruct vs as [|v vs], nfs as [|nf nfs], ms as [|m ms]; simpl; rewrite ?length_replicate, ?Nat.eqb_refl;
        repeat case_natb; done.
    + by intros ->.
  - revert E. unfold aligned, merge_lock_response. destruct resp as [[|r rs] vs nfs]; simpl.
    + destruct vs as [|v vs], nfs as [|nf nfs], ms as [|m ms]; simpl; rewrite ?length_replicate, ?Nat.eqb_refl;
        repeat case_natb; try done; eauto.
    + intros ->. eauto.
Qed.

(** The answers of the shards that locked their keys. *)
Definition locked_shards (input : list (Result (PessimisticLockResponse.t * list PbMutation.t))) :
  list (PessimisticLockResponse.t * list PbMutation.t) := omap ok input.

Lemma flat_map_ok_cons {A B} (f : A → list B) r rs :
  flat_map_ok f (r :: rs) =
  match r with Ok a => rest ← flat_map_ok f rs; Ok (f a ++ rest) | Err e => Err e end.
Proof. done. Qed.

Lemma first_error {A} (input : list (Result A)) :
  match head (omap (λ r : Result A, match r with Ok _ => None | Err e => Some e end) input) with
  | Some e => ∃ before after, input = map Ok before ++ Err e :: after
  | None => input = map Ok (omap ok input)
  end.
Proof.
  induction input as [|[a|e] input IH]; [done | | by exists [], input]. cbn.
  change (list_omap _ _ ?f ?l) with (omap f l).
  destruct (head _) as [e|].
  - destruct IH as (before & after & ->). by exists (a :: before), after.
  - by rewrite IH at 1.
Qed.

(** The results of locking keys in several regions are merged without mixing them
    up.  If every shard succeeded with well-formed answers, the pairs returned are, shard by
    shard and key by key in request order, the keys that exist with the value TiKV
    reported for exactly that key, whichever of the three answer formats was used.  If
    some shard failed, the error is that of the first failed shard and carries exactly the
    keys of the shards that succeeded, which are the ones to unlock.  Otherwise an answer
    had a list of the wrong length, which is an error and never a wrong pairing. *)
Theorem collect_with_shard_correct input :
  match collect_with_shard input with
  | Ok out => input = map Ok (locked_shards input) ∧ Forall aligned (locked_shards input) ∧
      out = concat (map reported_pairs (locked_shards input))
  | Err (PessimisticLockError inner success_keys) =>
      (∃ before after, input = map Ok before ++ Err inner :: after) ∧
      success_keys = concat (map (λ p, map PbMutation.key p.2) (locked_shards input))
  | Err e => input = map Ok (locked_shards input) ∧ ¬ Forall aligned (locked_shards input) ∧
      ∃ msg, e = InternalError msg
  end.
Proof.
  unfold collect_with_shard. pose proof (first_error input) as Hf. fold (locked_shards input) in *.
  destruct (head _) as [e|]; [by split|].
  generalize (locked_shards input) Hf. clear Hf. intros shards Hin.
  assert (match flat_map_ok id (map (λ p, merge_lock_response p.1 p.2) shards) with
          | Ok out => Forall aligned shards ∧ out = concat (map reported_pairs shards)
          | Err e => ¬ Forall aligned shards ∧ ∃ msg, e = InternalError msg end) as H.
  { clear Hin. induction shards as [|p shards IH]; [by split|]. cbn [map]. rewrite flat_map_ok_cons.
    pose proof (merge_lock_response_aligned p) as Hp.
    destruct (aligned p) eqn:Ea; [rewrite Hp | destruct Hp as [msg ->]].
    - destruct (flat_map_ok _ _) as [out|e]; cbn; rewrite Forall_cons, Ea; naive_solver.
    - rewrite Forall_cons, Ea. naive_solver. }
  destruct (flat_map_ok _ _) as [out|e]; [naive_solver|]. destruct H as [H [msg ->]]. eauto.
Qed.
