(* ===== verification/Effects.v ===== *)
(** * Effects of a transaction

    A transaction works on its own state and talks to PD and TiKV.  A computation
    takes the state and the events so far and returns an outcome, the new state and
    the events with its own appended.  What the cluster answers may depend on all
    earlier events, so an answer is a function of them; the functions are the fields
    of [Cluster], the arguments of every definition that sends a request.  A request is sent
    through the plan of its kind (src/src/request/plan.rs: sharding, lock resolution,
    retries, merging), whose final answer is what a field returns. *)

From S2P Require Import Prelude Keys Proto Errors Timestamps Kv Requests.

(** What a transaction does that others can see. *)
Inductive Event :=
| EvTimestamp
| EvPrewrite (r : PrewriteRequest.t)
| EvCommit (r : CommitRequest.t)
| EvBatchRollback (r : BatchRollbackRequest.t)
| EvPessimisticLock (r : PessimisticLockRequest.t)
| EvPessimisticRollback (r : PessimisticRollbackRequest.t)
| EvFlush (r : FlushRequest.t)
| EvResolveFlushed (start_ts commit_ts : Z) (range : Key * Key)
| EvHeartBeat (r : TxnHeartBeatRequest.t)
| EvHeartBeatTask (primary_key : Key)
| EvLatchLock (start_ts : Z) (keys : list (list Z))
| EvLatchUnlock (commit_ts : option Z).

Record Cluster := {
  get_timestamp : list Event → Result Timestamp.t;
  answer_prewrite : list Event → PrewriteRequest.t → Result (list PrewriteResponse.t);
  answer_commit : list Event → CommitRequest.t → Result unit;
  answer_batch_rollback : list Event → BatchRollbackRequest.t → Result unit;
  answer_pessimistic_lock : list Event → PessimisticLockRequest.t → Result (list KvPair.t);
  answer_pessimistic_rollback : list Event → PessimisticRollbackRequest.t → Result unit;
  answer_flush : list Event → FlushRequest.t → Result unit;
  answer_heart_beat : list Event → TxnHeartBeatRequest.t → Result Z;
  (** reads: the value and its commit timestamp, or not found; they leave no event *)
  answer_get : list Event → GetRequest.t → Result (option (list Z * Z));
  answer_batch_get : list Event → BatchGetRequest.t → Result (list KvPair.t);
  answer_scan : list Event → ScanRequest.t → Result (list KvPair.t);
  (** [guard.is_stale()] once [latches.lock] has returned *)
  latch_is_stale : list Event → Z → list (list Z) → bool;
  (** [start_instant.elapsed()] in milliseconds *)
  elapsed_ms : list Event → Z;
  (** the milliseconds the [i]-th round of a polling loop takes besides its sleep *)
  round_ms : nat → nat;
  (** how often [compare_exchange_weak] fails spuriously *)
  spurious_failures : nat
}.

(** ** The monad *)

Inductive outcome (A : Type) := Return (a : A) | Throw (e : Error) | Panicked.
Arguments Return {A} _.
Arguments Throw {A} _.
Arguments Panicked {A}.

Definition M (S A : Type) : Type := S → list Event → outcome A * S * list Event.

#[export] Instance M_ret S : MRet (M S) := λ A a s t, (Return a, s, t).
#[export] Instance M_bind S : MBind (M S) := λ A B f m s t,
  match m s t with
  | (Return a, s, t) => f a s t
  | (Throw e, s, t) => (Throw e, s, t)
  | (Panicked, s, t) => (Panicked, s, t)
  end.

Section operations.
Context {S : Type}.
Definition throw {A} (e : Error) : M S A := λ s t, (Throw e, s, t).
Definition panic {A} : M S A := λ s t, (Panicked, s, t).
Definition get_state : M S S := λ s t, (Return s, s, t).
Definition modify (f : S → S) : M S unit := λ s t, (Return (), f s, t).
Definition emit (ev : Event) : M S unit := λ s t, (Return (), s, t ++ [ev]).
(** [e?] *)
Definition lift {A} (r : Result A) : M S A := λ s t,
  (match r with Ok a => Return a | Err e => Throw e end, s, t).
(** A request and its answer. *)
Definition send {A} (ev : Event) (answer : list Event → Result A) : M S A := λ s t,
  (match answer t with Ok a => Return a | Err e => Throw e end, s, t ++ [ev]).
(** An observation of the clock. *)
Definition observe {A} (f : list Event → A) : M S A := λ s t, (Return (f t), s, t).
(** The error as a value; a panic goes through. *)
Definition try {A} (m : M S A) : M S (Result A) := λ s t,
  match m s t with
  | (Return a, s, t) => (Return (Ok a), s, t)
  | (Throw e, s, t) => (Return (Err e), s, t)
  | (Panicked, s, t) => (Panicked, s, t)
  end.
Definition when (b : bool) (m : M S unit) : M S unit := if b then m else mret ().
End operations.

(** A computation on a state of its own, dropped at the end. *)
Definition run_with {S S' A} (m : M S' A) (s' : S') : M S A := λ s t,
  let '(r, _, t) := m s' t in (r, s, t).

(** [tokio::spawn]: the task runs on its own; its result is only logged. *)
Definition spawn {S S' A} (m : M S' A) (s' : S') : M S unit := λ s t,
  let '(_, _, t) := m s' t in (Return (), s, t).

(** ** Reasoning

    [safe I P m]: from a state with [I], whatever the outcome, [m] ends in a state with
    [I] and the events it adds satisfy [P]. *)

Definition safe {S A} (I : S → Prop) (P : Event → Prop) (m : M S A) : Prop :=
  ∀ s t, I s → I (m s t).1.2 ∧ ∃ ev, (m s t).2 = t ++ ev ∧ Forall P ev.

Section safe.
Context {S : Type} (I : S → Prop) (P : Event → Prop).

(** A computation that adds no event. *)
Lemma safe_silent {A} (m : M S A) : (∀ s t, I s → I (m s t).1.2 ∧ (m s t).2 = t) → safe I P m.
Proof. intros H s t Hs. destruct (H s t Hs) as [? E]. split; [done|]. exists []. by rewrite app_nil_r. Qed.

Lemma safe_ret {A} (a : A) : safe I P (mret a).
Proof. by apply safe_silent. Qed.
Lemma safe_throw {A} e : safe I P (throw e : M S A).
Proof. by apply safe_silent. Qed.
Lemma safe_panic {A} : safe I P (panic : M S A).
Proof. by apply safe_silent. Qed.
Lemma safe_get : safe I P get_state.
Proof. by apply safe_silent. Qed.
Lemma safe_lift {A} (r : Result A) : safe I P (lift r).
Proof. by apply safe_silent. Qed.
Lemma safe_observe {A} (f : list Event → A) : safe I P (observe f).
Proof. by apply safe_silent. Qed.
Lemma safe_modify (f : S → S) : (∀ s, I s → I (f s)) → safe I P (modify f).
Proof. intros H. apply safe_silent. intros s t Hs. split; [by apply H | done]. Qed.
Lemma safe_emit ev : P ev → safe I P (emit ev).
Proof. intros H s t Hs. split; [done|]. exists [ev]. by repeat constructor. Qed.
Lemma safe_send {A} ev (f : list Event → Result A) : P ev → safe I P (send ev f).
Proof. intros H s t Hs. split; [done|]. exists [ev]. by repeat constructor. Qed.

Lemma safe_bind {A B} (m : M S A) (f : A → M S B) :
  safe I P m → (∀ a, safe I P (f a)) → safe I P (m ≫= f).
Proof.
  intros Hm Hf s t Hs. destruct (Hm s t Hs) as (H1 & e1 & E1 & F1).
  unfold mbind, M_bind. destruct (m s t) as [[[a|e|] s1] t1]; simpl in *; subst t1; [|by eauto..].
  destruct (Hf a s1 (t ++ e1) H1) as (H2 & e2 & -> & F2). split; [done|]. exists (e1 ++ e2).
  by rewrite app_assoc, Forall_app.
Qed.

Lemma safe_try {A} (m : M S A) : safe I P m → safe I P (try m).
Proof.
  intros Hm s t Hs. destruct (Hm s t Hs) as (H1 & e1 & E1 & F1). unfold try.
  destruct (m s t) as [[[a|e|] s1] t1]; simpl in *; by eauto.
Qed.

Lemma safe_when (b : bool) (m : M S unit) : safe I P m → safe I P (when b m).
Proof. intros Hm. destruct b; [done | apply safe_ret]. Qed.

Lemma safe_run_with {S' A} (m : M S' A) s' : safe (λ _, True) P m → safe I P (run_with m s').
Proof.
  intros Hm s t Hs. destruct (Hm s' t) as (_ & e1 & E1 & F1); [done|]. unfold run_with.
  destruct (m s' t) as [[r s1] t1]; simpl in *. by eauto.
Qed.

Lemma safe_spawn {S' A} (m : M S' A) s' : safe (λ _, True) P m → safe I P (spawn m s').
Proof.
  intros Hm s t Hs. destruct (Hm s' t) as (_ & e1 & E1 & F1); [done|]. unfold spawn.
  destruct (m s' t) as [[r s1] t1]; simpl in *. by eauto.
Qed.
End safe.

(** The answer to a request, errors included. *)
Lemma try_send {S A} ev (f : list Event → Result A) (s : S) t :
  try (send ev f) s t = (Return (f t), s, t ++ [ev]).
Proof. unfold try, send. by destruct (f t). Qed.

Create HintDb effects.
#[export] Hint Resolve safe_ret safe_throw safe_panic safe_get safe_lift safe_observe safe_modify
  safe_emit safe_send safe_when safe_run_with safe_spawn : effects.

(** Safety of a computation from its parts: case analysis follows the code. *)
Ltac solve_safe :=
  repeat match goal with
  | |- ∀ _, _ => intros ?
  | |- safe _ _ (mbind _ _) => apply safe_bind
  | |- safe _ _ (try _) => apply safe_try
  | |- safe _ _ (when _ _) => apply safe_when
  | |- safe _ _ (run_with _ _) => apply safe_run_with
  | |- safe _ _ (spawn _ _) => apply safe_spawn
  | |- safe _ _ (modify _) => apply safe_modify; solve [intros; first [done | assumption]]
  | |- safe _ _ (send _ _) => apply safe_send; done
  | |- safe _ _ (emit _) => apply safe_emit; done
  | |- safe _ _ _ => solve [eauto 3 with effects]
  | |- safe _ _ (match ?x with _ => _ end) => destruct x
  | |- safe _ _ (let '_ := ?x in _) => destruct x
  end.
