(* ===== verification/Pipelined.v ===== *)
(** * Pipelined transactions (src/src/transaction/pipelined.rs)

    A pipelined transaction flushes its mutations while it runs, one flush at a time,
    and remembers the smallest range that holds every flushed key; commit and rollback
    resolve the locks of that range region by region.  The task of a flush sends its
    request when it is spawned (unless the transaction was cancelled) and its answer
    is read by [flush_wait].

    The theorems: after [flush_all] everything that was recorded has been flushed, the
    range covers every key ever flushed, and the resolution of a range visits regions
    that cover it. *)

From Stdlib Require Import Sorting.Sorted.
From S2P Require Import Prelude Keys Proto Errors Ranges BTree Timestamps Regions Sharding Kv Requests Effects.

Definition PIPELINED_LOCK_TTL_MS : Z := 20000.

Record PipelinedTxnState := mkPipelined {
  p_min_flush_keys : nat;
  p_generation : Z;
  p_mutable : list (list Z * PbMutation.t);
  p_flushing : option (Result unit);
  p_flushed_start : option Key;
  p_flushed_end_exclusive : option Key;
  p_cancelled : bool
}.

Definition PipelinedTxnState_new (min_flush_keys : nat) : PipelinedTxnState :=
  mkPipelined min_flush_keys 0 [] None None None false.

Definition set_mutable (m : list (list Z * PbMutation.t)) (p : PipelinedTxnState) : PipelinedTxnState :=
  mkPipelined (p_min_flush_keys p) (p_generation p) m (p_flushing p) (p_flushed_start p)
    (p_flushed_end_exclusive p) (p_cancelled p).
Definition set_flushing (f : option (Result unit)) (p : PipelinedTxnState) : PipelinedTxnState :=
  mkPipelined (p_min_flush_keys p) (p_generation p) (p_mutable p) f (p_flushed_start p)
    (p_flushed_end_exclusive p) (p_cancelled p).
Definition set_generation (g : Z) (p : PipelinedTxnState) : PipelinedTxnState :=
  mkPipelined (p_min_flush_keys p) g (p_mutable p) (p_flushing p) (p_flushed_start p)
    (p_flushed_end_exclusive p) (p_cancelled p).

Definition cancel (p : PipelinedTxnState) : PipelinedTxnState :=
  mkPipelined (p_min_flush_keys p) (p_generation p) (p_mutable p) (p_flushing p) (p_flushed_start p)
    (p_flushed_end_exclusive p) true.

Definition record_mutation (key : Key) (mutation : option PbMutation.t) (p : PipelinedTxnState) :
    PipelinedTxnState :=
  set_mutable (match mutation with
               | Some m => binsert key m (p_mutable p)
               | None => bremove key (p_mutable p)
               end) p.

Definition update_flushed_range (min_key max_key : Key) (p : PipelinedTxnState) : PipelinedTxnState :=
  let max_key_exclusive := next_key max_key in
  let flushed_start :=
    match p_flushed_start p with
    | Some existing => if key_leb existing min_key then Some existing else Some min_key
    | None => Some min_key
    end in
  let flushed_end_exclusive :=
    match p_flushed_end_exclusive p with
    | Some existing => if key_leb max_key_exclusive existing then Some existing else Some max_key_exclusive
    | None => Some max_key_exclusive
    end in
  mkPipelined (p_min_flush_keys p) (p_generation p) (p_mutable p) (p_flushing p) flushed_start
    flushed_end_exclusive (p_cancelled p).

Definition flushed_range (p : PipelinedTxnState) : option (Key * Key) :=
  s ← p_flushed_start p; e ← p_flushed_end_exclusive p; Some (s, e).

Section flush.
Context (cl : Cluster).
Context (start_ts : Z) (primary_key : Key) (assertion_level : AssertionLevel).

Definition flush_wait : M PipelinedTxnState unit :=
  p ← get_state;
  match p_flushing p with
  | None => mret ()
  | Some result =>
      modify (set_flushing None) ;; lift result
  end.

Definition flush_request (mutations : list PbMutation.t) (generation : Z) : FlushRequest.t :=
  let r := new_flush_request mutations primary_key start_ts generation PIPELINED_LOCK_TTL_MS in
  FlushRequest.mk (FlushRequest.mutations r) (FlushRequest.primary_key r) (FlushRequest.start_ts r)
    (FlushRequest.min_commit_ts r) (FlushRequest.generation r) (FlushRequest.lock_ttl r) assertion_level.

(** The spawned task.  The event is the plan that starts; a [cancel] while it runs can cut it short, and it then reports
    success.  Only the rollback cancels, and it ignores what the task reports and resolves the whole range of the flushed keys, so this
    is left out, and so is the [JoinError] of a task that panics. *)
Definition flush_task (cancelled : bool) (request : FlushRequest.t) :
    M PipelinedTxnState (Result unit) :=
  if cancelled then mret (Ok ())
  else try (send (EvFlush request) (λ t, answer_flush cl t request)).

Definition start_flush : M PipelinedTxnState unit :=
  flush_wait ;;
  p ← get_state;
  if is_empty (p_mutable p) then mret () else
  modify (λ p, set_generation (sat_add_u64 (p_generation p) 1) p) ;;
  match head (p_mutable p), last (p_mutable p) with
  | Some (min_key, _), Some (max_key, _) =>
      modify (update_flushed_range min_key max_key) ;;
      modify (set_mutable []) ;;
      p' ← get_state;
      handle ← flush_task (p_cancelled p') (flush_request (map snd (p_mutable p)) (p_generation p'));
      modify (set_flushing (Some handle))
  | _, _ => throw (InternalError "pipelined mutable buffer unexpectedly empty")
  end.

Definition maybe_flush : M PipelinedTxnState unit :=
  p ← get_state;
  if bool_decide (is_Some (p_flushing p)) then mret ()
  else if (length (p_mutable p) <? p_min_flush_keys p)%nat then mret ()
  else start_flush.

(** The loop of [flush_all]: two rounds are enough, because a flush empties the
    mutable buffer ([flush_all_fuel] below). *)
Fixpoint flush_all_loop (fuel : nat) : M PipelinedTxnState unit :=
  match fuel with
  | O => panic
  | S fuel =>
      flush_wait ;;
      p ← get_state;
      if is_empty (p_mutable p) then mret ()
      else start_flush ;; flush_all_loop fuel
  end.

Definition flush_all : M PipelinedTxnState unit := flush_all_loop 2.
End flush.

(** ** [resolve_flushed_locks]

    The loop that collects one store per region, as a stream; [map_region_to_store]
    is the PD client's.  Then a resolve-lock request is sent to every region, and the
    first error, in the order of the regions, is returned. *)
Section resolve.
Context (pd : nat → list Z → Result RegionWithLeader.t).
Context (map_region_to_store : RegionWithLeader.t → Result RegionWithLeader.t).
Context (resolve_lock : RegionWithLeader.t → ResolveLockRequest.t → Result unit).

Definition past_end (end_key key : Key) : bool := negb (is_empty end_key) && key_leb end_key key.

Definition resolve_flushed_step (end_key : Key) (t : nat) (key : option Key) :
    Result (option (option Key * RegionWithLeader.t)) :=
  match key with
  | None => Ok None
  | Some key =>
      if past_end end_key key then Ok None else
      region ← pd t key;
      let next := RegionWithLeader.end_key region in
      store ← map_region_to_store region;
      if is_empty next then Ok (Some (None, store))
      else if past_end end_key next then Ok (Some (None, store))
      else Ok (Some (Some next, store))
  end.

(** [None]: the loop did not end within [fuel] rounds. *)
Definition resolve_flushed_locks (fuel : nat) (start_ts commit_ts : Z) (range : Key * Key) :
    option (Result unit) :=
  items ← stream_fn (resolve_flushed_step range.2) fuel 0 (Some range.1);
  Some (stores ← flat_map_ok (λ s, [s]) items;
        _ ← flat_map_ok (λ _, []) (map (λ s, resolve_lock s (new_resolve_lock_request start_ts commit_ts)) stores)
              : Result (list unit);
        Ok ()).
End resolve.

(** ** Flushing *)

(** What happens to the state before commit: a write is recorded, a flush is offered. *)
Inductive PipelinedOp := PRecord (key : Key) (mutation : option PbMutation.t) | PMaybeFlush.

Section flush_proof.
Context (cl : Cluster) (start_ts : Z) (primary_key : Key) (level : AssertionLevel).

Definition run_pipelined_op (op : PipelinedOp) : M PipelinedTxnState unit :=
  match op with
  | PRecord key mutation => modify (record_mutation key mutation)
  | PMaybeFlush => maybe_flush cl start_ts primary_key level
  end.
Fixpoint run_pipelined (ops : list PipelinedOp) : M PipelinedTxnState unit :=
  match ops with [] => mret () | op :: ops => run_pipelined_op op ;; run_pipelined ops end.

(** The mutations recorded by the operations: the last one of each key. *)
Definition recorded (ops : list PipelinedOp) : list (list Z * PbMutation.t) :=
  foldl (λ m op, match op with
                 | PRecord key (Some x) => binsert key x m
                 | PRecord key None => bremove key m
                 | PMaybeFlush => m
                 end) [] ops.

(** The last record of a key. *)
Definition last_record (ops : list PipelinedOp) (k : Key) : option (option PbMutation.t) :=
  foldl (λ r op, match op with
                 | PRecord key x => if key_eqb key k then Some x else r
                 | PMaybeFlush => r
                 end) None ops.

(** The mutation of a key in the last flush that has the key. *)
Definition flushed_value (ev : list Event) (k : Key) : option PbMutation.t :=
  foldl (λ r e, match e with
                | EvFlush q => match List.find (λ m, key_eqb (PbMutation.key m) k) (FlushRequest.mutations q) with
                               | Some m => Some m
                               | None => r
                               end
                | _ => r
                end) None ev.

Definition op_keyed (op : PipelinedOp) : Prop :=
  match op with PRecord key (Some m) => PbMutation.key m = key | _ => True end.

Definition keyed (m : list (list Z * PbMutation.t)) : Prop := Forall (λ p, PbMutation.key p.2 = p.1) m.

Lemma binsert_elem {V} k (v : V) m p : p ∈ binsert k v m → p = (k, v) ∨ p ∈ m.
Proof.
  induction m as [|[k' v'] m IH]; simpl; [set_solver|]. destruct (key_cmp k k'); set_solver.
Qed.
Lemma bremove_elem {V} k (m : list (list Z * V)) p : p ∈ bremove k m → p ∈ m.
Proof. induction m as [|[k' v'] m IH]; simpl; [set_solver|]. destruct (key_cmp k k'); set_solver. Qed.

Lemma recorded_snoc ops op : recorded (ops ++ [op]) =
  match op with
  | PRecord key (Some x) => binsert key x (recorded ops)
  | PRecord key None => bremove key (recorded ops)
  | PMaybeFlush => recorded ops
  end.
Proof. unfold recorded. by rewrite foldl_app. Qed.

Lemma last_record_snoc ops op k : last_record (ops ++ [op]) k =
  match op with
  | PRecord key x => if key_eqb key k then Some x else last_record ops k
  | PMaybeFlush => last_record ops k
  end.
Proof. unfold last_record. by rewrite foldl_app. Qed.

Lemma recorded_wf ops : Forall op_keyed ops → bwf (recorded ops) ∧ keyed (recorded ops).
Proof.
  unfold keyed. induction ops as [|op ops IH] using rev_ind; [repeat constructor|].
  intros [[Hw Hk]%IH [Hop _]%Forall_cons]%Forall_app. rewrite recorded_snoc, Forall_forall in *.
  destruct op as [key [x|]|]; [| |done].
  - split; [by apply binsert_wf|]. intros p [-> | ?]%binsert_elem; [done | by apply Hk].
  - split; [by apply bremove_wf|]. intros p ?%bremove_elem. by apply Hk.
Qed.

Lemma recorded_get ops k : Forall op_keyed ops →
  bget k (recorded ops) = match last_record ops k with Some x => x | None => None end.
Proof.
  induction ops as [|op ops IH] using rev_ind; [done|].
  intros [Hops Hop]%Forall_app. specialize (IH Hops). destruct (recorded_wf ops Hops) as [Hw _].
  rewrite recorded_snoc, last_record_snoc. destruct op as [key [x|]|]; [| |done].
  - rewrite bget_insert by done. destruct (key_eqb_spec key k); destruct (decide _); try done; congruence.
  - rewrite bget_remove by done. destruct (key_eqb_spec key k); destruct (decide _); try done; congruence.
Qed.

Lemma last_record_app ops1 ops2 k :
  last_record (ops1 ++ ops2) k = match last_record ops2 k with Some x => Some x | None => last_record ops1 k end.
Proof.
  induction ops2 as [|op ops2 IH] using rev_ind; [by rewrite app_nil_r|].
  rewrite app_assoc, !last_record_snoc, IH. destruct op as [key x|]; [|done]. by destruct (key_eqb key k).
Qed.

Lemma find_keyed m k : bwf m → keyed m →
  List.find (λ x, key_eqb (PbMutation.key x) k) (map snd m) = bget k m.
Proof.
  induction m as [|[k' v] m IH]; intros Hw Hk; [done|].
  apply bwf_cons in Hw as [Hlt Hw]. apply Forall_cons in Hk as [Hk1 Hk]. simpl in *. rewrite Hk1.
  destruct (key_eqb_spec k' k) as [->|Hne].
  - destruct (KeyOrder.compare_spec k k) as [|?|?]; [done | by destruct (KeyOrder.lt_irrefl k)..].
  - rewrite IH by done. destruct (KeyOrder.compare_spec k k') as [|Hl|Hl]; [done | | done].
    apply bget_lt_all. by eapply Forall_lt_trans.
Qed.

(** ** The flushed range *)

Definition covered (p : PipelinedTxnState) (k : Key) : Prop :=
  ∃ s e, flushed_range p = Some (s, e) ∧ key_le s k ∧ key_lt k e.

Lemma covered_update_new min_key max_key p k : key_le min_key k → key_le k max_key →
  covered (update_flushed_range min_key max_key p) k.
Proof.
  intros H1 H2. pose proof (next_key_gt max_key). unfold covered, flushed_range, update_flushed_range. simpl.
  destruct (p_flushed_start p) as [s|], (p_flushed_end_exclusive p) as [e|]; simpl; repeat case_key;
    (do 2 eexists; split; [reflexivity|]; split; key_order).
Qed.

Lemma covered_update_old min_key max_key p k : covered p k →
  covered (update_flushed_range min_key max_key p) k.
Proof.
  intros (s & e & E & H1 & H2). unfold covered, flushed_range, update_flushed_range in *. simpl in *.
  destruct (p_flushed_start p) as [s'|], (p_flushed_end_exclusive p) as [e'|]; simplify_eq/=.
  repeat case_key; (do 2 eexists; split; [reflexivity|]; split; key_order).
Qed.

Lemma bwf_head_le {V} (m : list (list Z * V)) k0 v0 k v : bwf m → head m = Some (k0, v0) → (k, v) ∈ m → key_le k0 k.
Proof.
  destruct m as [|[a b] m]; [done|]. intros [Hlt _]%bwf_cons [= -> ->] [[= -> ->]|Hin]%elem_of_cons;
    [apply KeyOrder.le_refl|]. rewrite Forall_forall in Hlt. apply KeyOrder.lt_le, (Hlt (k, v)), Hin.
Qed.

Lemma bwf_last_le {V} (m : list (list Z * V)) k1 v1 k v : bwf m → last m = Some (k1, v1) → (k, v) ∈ m → key_le k k1.
Proof.
  induction m as [|[a b] m IH]; [done|]. intros [Hlt Hw]%bwf_cons Hl Hin.
  rewrite last_cons in Hl. rewrite Forall_forall in Hlt. destruct (last m) as [[k2 v2]|] eqn:El.
  - injection Hl as -> ->. apply elem_of_cons in Hin as [[= -> ->]|Hin]; [|by apply IH].
    apply KeyOrder.lt_le, (Hlt (k1, v1)). apply last_Some in El as [l ->]. set_solver.
  - apply last_None in El. subst m. injection Hl as -> ->.
    apply elem_of_cons in Hin as [[= -> ->]|Hin%elem_of_nil]; [apply KeyOrder.le_refl | done].
Qed.

(** A flush of a non-empty buffer, with no flush under way. *)
Lemma start_flush_run p t : p_flushing p = None → p_mutable p ≠ [] → p_cancelled p = false →
  let q := flush_request start_ts primary_key level (map snd (p_mutable p)) (sat_add_u64 (p_generation p) 1) in
  ∃ p', start_flush cl start_ts primary_key level p t = (Return (), p', t ++ [EvFlush q]) ∧
    p_flushing p' = Some (answer_flush cl t q) ∧ p_mutable p' = [] ∧ p_cancelled p' = false ∧
    (∀ k, covered p k → covered p' k) ∧
    (bwf (p_mutable p) → ∀ k v, (k, v) ∈ p_mutable p → covered p' k).
Proof.
  intros Hf Hm Hc. unfold start_flush, flush_wait, mbind, M_bind, get_state. simpl. rewrite Hf. simpl.
  destruct (p_mutable p) as [|[k0 v0] m] eqn:Em; [done|]. cbn [is_empty].
  assert (∃ k1 v1, last ((k0, v0) :: m) = Some (k1, v1)) as (k1 & v1 & El).
  { destruct (last ((k0, v0) :: m)) as [[k1 v1]|] eqn:El; [by exists k1, v1|]. by apply last_None in El. }
  rewrite El. cbn [head modify]. simpl. rewrite Hc. unfold flush_task. rewrite try_send.
  exists (set_flushing (Some (answer_flush cl t (flush_request start_ts primary_key level
    (v0 :: map snd m) (sat_add_u64 (p_generation p) 1)))) (set_mutable [] (update_flushed_range k0 k1
    (set_generation (sat_add_u64 (p_generation p) 1) p)))).
  split_and!; [done | done | done | done | |].
  - intros k Hk. by apply covered_update_old.
  - intros Hw k v Hin. apply covered_update_new; [by eapply bwf_head_le | by eapply bwf_last_le].
Qed.

Notation run := (run_pipelined).
Notation flush_all := (flush_all cl start_ts primary_key level).

(** Before commit at most one flush happens: the handle of the first one is only
    taken by [flush_all]. *)
Definition pipelined_inv (t0 : list Event) (ops : list PipelinedOp) (p : PipelinedTxnState)
    (ev : list Event) : Prop :=
  p_cancelled p = false ∧
  ((ev = [] ∧ p_flushing p = None ∧ p_mutable p = recorded ops) ∨
   ∃ ops1 ops2 q, ops = ops1 ++ ops2 ∧ ev = [EvFlush q] ∧
     FlushRequest.mutations q = map snd (recorded ops1) ∧
     p_flushing p = Some (answer_flush cl t0 q) ∧ p_mutable p = recorded ops2 ∧
     ∀ k v, (k, v) ∈ recorded ops1 → covered p k).

Lemma record_mutation_fields key x p :
  p_flushing (record_mutation key x p) = p_flushing p ∧
  p_cancelled (record_mutation key x p) = p_cancelled p ∧
  (∀ k, covered (record_mutation key x p) k ↔ covered p k).
Proof. done. Qed.

Lemma pipelined_record t0 ops p ev key x : pipelined_inv t0 ops p ev →
  pipelined_inv t0 (ops ++ [PRecord key x]) (record_mutation key x p) ev.
Proof.
  intros (Hc & [(-> & Hf & Hm) | (ops1 & ops2 & q & -> & -> & Hq & Hf & Hm & Hcov)]); (split; [done|]).
  - left. split_and!; [done | done |]. rewrite recorded_snoc. simpl. rewrite Hm. by destruct x.
  - right. exists ops1, (ops2 ++ [PRecord key x]), q. split_and!; try done.
    + by rewrite app_assoc.
    + rewrite recorded_snoc. simpl. rewrite Hm. by destruct x.
Qed.

Lemma pipelined_inv_skip t0 ops p ev : pipelined_inv t0 ops p ev →
  pipelined_inv t0 (ops ++ [PMaybeFlush]) p ev.
Proof.
  intros (Hc & [(-> & Hf & Hm) | (ops1 & ops2 & q & -> & -> & Hq & Hf & Hm & Hcov)]); (split; [done|]).
  - left. by rewrite recorded_snoc.
  - right. exists ops1, (ops2 ++ [PMaybeFlush]), q. rewrite app_assoc, recorded_snoc. done.
Qed.

Lemma pipelined_maybe_flush t0 ops p ev : Forall op_keyed ops → pipelined_inv t0 ops p ev →
  ∃ p' ev', maybe_flush cl start_ts primary_key level p (t0 ++ ev) = (Return (), p', t0 ++ ev') ∧
    pipelined_inv t0 (ops ++ [PMaybeFlush]) p' ev'.
Proof.
  intros Hk Hinv. unfold maybe_flush, mbind, M_bind, get_state.
  destruct (bool_decide_reflect (is_Some (p_flushing p))) as [|Hnone].
  { exists p, ev. split; [done | by apply pipelined_inv_skip]. }
  destruct (_ <? _)%nat; [exists p, ev; split; [done | by apply pipelined_inv_skip]|].
  destruct Hinv as (Hc & [(-> & Hf & Hm) | (? & ? & ? & ? & ? & ? & Hf & ?)]); [|naive_solver].
  rewrite app_nil_r. destruct (decide (p_mutable p = [])) as [Hnil|Hne].
  - exists p, []. rewrite app_nil_r. split; [|apply pipelined_inv_skip; split; [done|left; done]].
    unfold start_flush, flush_wait, mbind, M_bind, get_state. simpl. rewrite Hf. simpl. by rewrite Hnil.
  - destruct (start_flush_run p t0 Hf Hne Hc) as (p' & E & Hf' & Hm' & Hc' & Hold & Hnew).
    rewrite E. do 2 eexists. split; [done|]. split; [done|]. right.
    exists ops, [PMaybeFlush]. eexists. split_and!; try done.
    + simpl. by rewrite Hm.
    + rewrite <- Hm. apply Hnew. rewrite Hm. by apply recorded_wf.
Qed.

Lemma run_pipelined_inv t0 ops : ∀ done p ev, Forall op_keyed (done ++ ops) →
  pipelined_inv t0 done p ev →
  ∃ p' ev', run ops p (t0 ++ ev) = (Return (), p', t0 ++ ev') ∧ pipelined_inv t0 (done ++ ops) p' ev'.
Proof.
  induction ops as [|op ops IH]; intros done p ev Hk Hinv; cbn [run_pipelined].
  { exists p, ev. by rewrite app_nil_r. }
  assert (∃ p1 ev1, run_pipelined_op op p (t0 ++ ev) = (Return (), p1, t0 ++ ev1) ∧
    pipelined_inv t0 (done ++ [op]) p1 ev1) as (p1 & ev1 & E1 & Hinv1).
  { destruct op as [key x|]; simpl.
    - exists (record_mutation key x p), ev. split; [done | by apply pipelined_record].
    - apply pipelined_maybe_flush; [|done]. by apply Forall_app in Hk as [? _]. }
  unfold mbind, M_bind. rewrite E1.
  replace (done ++ op :: ops) with ((done ++ [op]) ++ ops) in * by (by rewrite <- app_assoc).
  by apply IH.
Qed.

(** The flushes of a run: the first request of a run, and what [flush_all] adds. *)
Definition flush_answered (t0 : list Event) (ev : list Event) : Prop :=
  ∀ before q after, ev = before ++ EvFlush q :: after → answer_flush cl (t0 ++ before) q = Ok ().

Lemma flush_wait_run p t : flush_wait p t =
  match p_flushing p with
  | None => (Return (), p, t)
  | Some r => (match r with Ok _ => Return () | Err e => Throw e end, set_flushing None p, t)
  end.
Proof.
  unfold flush_wait, mbind, M_bind, get_state. by destruct (p_flushing p) as [[[]|]|].
Qed.

Lemma flush_all_loop_run fuel p t : flush_all_loop cl start_ts primary_key level (S fuel) p t =
  match flush_wait p t with
  | (Return _, p, t) =>
      if is_empty (p_mutable p) then (Return (), p, t)
      else match start_flush cl start_ts primary_key level p t with
           | (Return _, p, t) => flush_all_loop cl start_ts primary_key level fuel p t
           | (Throw e, p, t) => (Throw e, p, t)
           | (Panicked, p, t) => (Panicked, p, t)
           end
  | (Throw e, p, t) => (Throw e, p, t)
  | (Panicked, p, t) => (Panicked, p, t)
  end.
Proof.
  cbn [flush_all_loop]. unfold mbind, M_bind, get_state.
  destruct (flush_wait p t) as [[[]?]?]; try done. by destruct (is_empty _).
Qed.

(** One round of [flush_all] on a buffer with no flush under way. *)
Lemma flush_all_round p t fuel : p_flushing p = None → p_cancelled p = false →
  bwf (p_mutable p) → p_mutable p ≠ [] →
  ∃ p' q, FlushRequest.mutations q = map snd (p_mutable p) ∧
    flush_all_loop cl start_ts primary_key level (S (S fuel)) p t =
      (match answer_flush cl t q with Ok _ => Return () | Err e => Throw e end, p', t ++ [EvFlush q]) ∧
    p_mutable p' = [] ∧ p_flushing p' = None ∧
    (∀ k, covered p k → covered p' k) ∧ (∀ k v, (k, v) ∈ p_mutable p → covered p' k).
Proof.
  intros Hf Hc Hw Hne. destruct (start_flush_run p t Hf Hne Hc) as (p1 & E & Hf1 & Hm1 & Hc1 & Hold & Hnew).
  exists (set_flushing None p1), (flush_request start_ts primary_key level (map snd (p_mutable p))
    (sat_add_u64 (p_generation p) 1)). split; [done|]. split.
  - rewrite flush_all_loop_run, flush_wait_run, Hf.
    destruct (is_empty_spec (p_mutable p)); [done|].
    rewrite E, flush_all_loop_run, flush_wait_run, Hf1.
    destruct (answer_flush _ _ _) as [[]|]; [|done]. simpl. by rewrite Hm1.
  - split_and!; [done | done | | by apply Hnew]. intros k Hk. by apply Hold.
Qed.

Lemma flushed_value_snoc ev q k : flushed_value (ev ++ [EvFlush q]) k =
  match List.find (λ m, key_eqb (PbMutation.key m) k) (FlushRequest.mutations q) with
  | Some m => Some m
  | None => flushed_value ev k
  end.
Proof. unfold flushed_value. by rewrite foldl_app. Qed.

(** The mutations of a flush of the recorded operations. *)
Lemma flushed_recorded ev q ops k : Forall op_keyed ops →
  FlushRequest.mutations q = map snd (recorded ops) →
  flushed_value (ev ++ [EvFlush q]) k =
    match last_record ops k with Some (Some m) => Some m | _ => flushed_value ev k end.
Proof.
  intros Hk Hq. rewrite flushed_value_snoc, Hq. destruct (recorded_wf ops Hk).
  rewrite find_keyed, recorded_get by done. by destruct (last_record ops k) as [[]|].
Qed.

Lemma covered_requests p ops q : Forall op_keyed ops →
  FlushRequest.mutations q = map snd (recorded ops) →
  (∀ k v, (k, v) ∈ recorded ops → covered p k) →
  ∀ m, m ∈ FlushRequest.mutations q → covered p (PbMutation.key m).
Proof.
  intros Hk -> Hcov m ([k v] & -> & Hin)%list_elem_of_fmap. destruct (recorded_wf ops Hk) as [_ Hkeyed].
  unfold keyed in Hkeyed. rewrite Forall_forall in Hkeyed. pose proof (Hkeyed _ Hin) as ->. by eapply Hcov.
Qed.

Lemma flush_answered_nil t0 : flush_answered t0 [].
Proof. intros [] **; done. Qed.
Lemma flush_answered_snoc t0 ev q : flush_answered t0 ev → answer_flush cl (t0 ++ ev) q = Ok () →
  flush_answered t0 (ev ++ [EvFlush q]).
Proof.
  intros H1 H2 before q' after E. destruct after as [|x after _] using rev_ind.
  - apply app_inj_tail in E as [-> [= ->]]. done.
  - rewrite app_comm_cons, app_assoc in E. apply app_inj_tail in E as [E _]. by eapply H1.
Qed.

(** What [flush_all] guarantees after the operations [ops]. *)
Definition flushed_all (t0 : list Event) (ops : list PipelinedOp) (p : PipelinedTxnState)
    (ev : list Event) : Prop :=
  p_mutable p = [] ∧ flush_answered t0 ev ∧
  (∀ k m, last_record ops k = Some (Some m) → flushed_value ev k = Some m) ∧
  (∀ q m, EvFlush q ∈ ev → m ∈ FlushRequest.mutations q → covered p (PbMutation.key m)).

Lemma recorded_nil_last ops k m : Forall op_keyed ops → recorded ops = [] →
  last_record ops k ≠ Some (Some m).
Proof. intros Hk Hn E. pose proof (recorded_get ops k Hk) as H. by rewrite Hn, E in H. Qed.

Lemma flush_all_first t0 ops p : Forall op_keyed ops → p_cancelled p = false →
  p_flushing p = None → p_mutable p = recorded ops →
  ∃ res p' ev, flush_all p t0 = (res, p', t0 ++ ev) ∧ res ≠ Panicked ∧ (length ev ≤ 1)%nat ∧
    (res = Return () → flushed_all t0 ops p' ev).
Proof.
  intros Hk Hc Hf Hm. unfold Pipelined.flush_all. destruct (decide (recorded ops = [])) as [Hn|Hne].
  - exists (Return ()), p, []. rewrite flush_all_loop_run, flush_wait_run, Hf, Hm, Hn, app_nil_r.
    split_and!; [done | done | simpl; lia |]. intros _. split_and!; [by rewrite Hm | apply flush_answered_nil | |].
    + intros k m E. by destruct (recorded_nil_last ops k m Hk Hn).
    + intros q m ?%elem_of_nil. done.
  - destruct (flush_all_round p t0 0 Hf Hc) as (p' & q & Hq & E & Hm' & _ & _ & Hnew);
      [rewrite Hm; by apply recorded_wf | by rewrite Hm |].
    rewrite Hm in *. exists (match answer_flush cl t0 q with Ok _ => Return () | Err e => Throw e end), p', [EvFlush q].
    split_and!; [done | by destruct (answer_flush cl t0 q) | done |]. intros Hres. split_and!; [done | | |].
    + apply (flush_answered_snoc t0 [] q); [apply flush_answered_nil|]. rewrite app_nil_r.
      by destruct (answer_flush cl t0 q) as [[]|].
    + intros k m El. rewrite (flushed_recorded [] q ops), El by done. done.
    + intros q' m [= ->]%list_elem_of_singleton. by apply covered_requests with ops.
Qed.

Lemma flush_all_second t0 ops1 ops2 q p : Forall op_keyed (ops1 ++ ops2) → p_cancelled p = false →
  FlushRequest.mutations q = map snd (recorded ops1) → p_flushing p = Some (answer_flush cl t0 q) →
  p_mutable p = recorded ops2 → (∀ k v, (k, v) ∈ recorded ops1 → covered p k) →
  ∃ res p' ev, flush_all p (t0 ++ [EvFlush q]) = (res, p', t0 ++ EvFlush q :: ev) ∧ res ≠ Panicked ∧
    (length ev ≤ 1)%nat ∧ (res = Return () → flushed_all t0 (ops1 ++ ops2) p' (EvFlush q :: ev)).
Proof.
  intros [Hk1 Hk2]%Forall_app Hc Hq Hf Hm Hcov. unfold Pipelined.flush_all.
  destruct (answer_flush cl t0 q) as [[]|e] eqn:Ea.
  2: { exists (Throw e), (set_flushing None p), []. rewrite flush_all_loop_run, flush_wait_run, Hf.
       split_and!; [done | done | simpl; lia | done]. }
  assert (flush_answered t0 [EvFlush q]) as Ha.
  { apply (flush_answered_snoc t0 [] q); [apply flush_answered_nil|]. by rewrite app_nil_r. }
  destruct (decide (recorded ops2 = [])) as [Hn|Hne].
  - exists (Return ()), (set_flushing None p), []. rewrite flush_all_loop_run, flush_wait_run, Hf. simpl.
    rewrite Hm, Hn. split_and!; [done | done | lia |]. intros _. split_and!; [by simpl; rewrite Hm | done | |].
    + intros k m El. rewrite last_record_app in El. rewrite (flushed_recorded [] q ops1) by done.
      pose proof (recorded_nil_last ops2 k m Hk2 Hn).
      destruct (last_record ops2 k) as [|]; [congruence | by rewrite El].
    + intros q' m [= ->]%list_elem_of_singleton. by apply (covered_requests _ ops1).
  - assert (∃ p' q2, FlushRequest.mutations q2 = map snd (recorded ops2) ∧
      flush_all_loop cl start_ts primary_key level 2 p (t0 ++ [EvFlush q]) =
        (match answer_flush cl (t0 ++ [EvFlush q]) q2 with Ok _ => Return () | Err e => Throw e end, p',
         (t0 ++ [EvFlush q]) ++ [EvFlush q2]) ∧ p_mutable p' = [] ∧
      (∀ k v, (k, v) ∈ recorded ops1 ∨ (k, v) ∈ recorded ops2 → covered p' k))
      as (p' & q2 & Hq2 & E & Hm' & Hcov').
    { destruct (flush_all_round (set_flushing None p) (t0 ++ [EvFlush q]) 0) as (p' & q2 & Hq2 & E & Hm' & _ & Hold & Hnew);
        [done | done | simpl; rewrite Hm; by apply recorded_wf | simpl; by rewrite Hm |].
      cbn [p_mutable set_flushing] in *. rewrite Hm in *. exists p', q2. split_and!; [done | | done | intros k v [Hin|Hin]; eauto].
      rewrite <- E, !flush_all_loop_run, !flush_wait_run, Hf. done. }
    exists (match answer_flush cl (t0 ++ [EvFlush q]) q2 with Ok _ => Return () | Err e => Throw e end), p', [EvFlush q2].
    rewrite <- app_assoc in E. split_and!; [done | by destruct (answer_flush _ _ q2) | done |].
    intros Hres. split_and!; [done | | |].
    + apply (flush_answered_snoc t0 [EvFlush q] q2); [done|]. by destruct (answer_flush cl (t0 ++ [EvFlush q]) q2) as [[]|].
    + intros k m El. rewrite last_record_app in El. rewrite (flushed_recorded [EvFlush q] q2 ops2) by done.
      destruct (last_record ops2 k) as [x|]; [by simplify_eq|]. rewrite (flushed_recorded [] q ops1) by done. by rewrite El.
    + intros q' m [[= ->] | [= ->]%list_elem_of_singleton]%elem_of_cons;
        [apply (covered_requests _ ops1) | apply (covered_requests _ ops2)]; eauto.
Qed.
End flush_proof.

(** C33: a pipelined transaction flushes everything it recorded, and remembers where.
    After any sequence of writes and flush offers, [flush_all] returns; when it
    returns without an error, nothing is left in the buffer, every flush request was
    answered with success, the last flush that has a key carries the last mutation
    recorded for it, and the flushed range holds every key of every flush. *)
Theorem pipelined_flush_complete cl start_ts pk level min_flush_keys ops t0 :
  Forall op_keyed ops →
  ∃ res p ev,
    (run_pipelined cl start_ts pk level ops ;; flush_all cl start_ts pk level)
      (PipelinedTxnState_new min_flush_keys) t0 = (res, p, t0 ++ ev) ∧
    res ≠ Panicked ∧
    (res = Return () →
      p_mutable p = [] ∧ flush_answered cl t0 ev ∧
      (∀ k m, last_record ops k = Some (Some m) → flushed_value ev k = Some m) ∧
      (∀ q m, EvFlush q ∈ ev → m ∈ FlushRequest.mutations q → covered p (PbMutation.key m))).
Proof.
  intros Hk. destruct (run_pipelined_inv cl start_ts pk level t0 ops [] (PipelinedTxnState_new min_flush_keys) [])
    as (p1 & ev1 & E1 & Hinv); [done | by split; [|left] |].
  rewrite app_nil_r in E1. unfold mbind, M_bind. rewrite E1. simpl in Hinv.
  destruct Hinv as (Hc & [(-> & Hf & Hm) | (ops1 & ops2 & q & -> & -> & Hq & Hf & Hm & Hcov)]).
  - rewrite app_nil_r. destruct (flush_all_first cl start_ts pk level t0 ops p1 Hk Hc Hf Hm)
      as (res & p & ev & E & ? & _ & Hok). by exists res, p, ev.
  - destruct (flush_all_second cl start_ts pk level t0 ops1 ops2 q p1 Hk Hc Hq Hf Hm Hcov)
      as (res & p & ev & E & ? & _ & Hok). by exists res, p, (EvFlush q :: ev).
Qed.

(** A cluster that answers every request with success. *)
Definition sample_cluster : Cluster := {|
  get_timestamp := λ t, Ok (Timestamp.from_version (1000 + Z.of_nat (length t)));
  answer_prewrite := λ _ _, Ok [PrewriteResponse.mk 0 0];
  answer_commit := λ _ _, Ok ();
  answer_batch_rollback := λ _ _, Ok ();
  answer_pessimistic_lock := λ _ _, Ok [];
  answer_pessimistic_rollback := λ _ _, Ok ();
  answer_flush := λ _ _, Ok ();
  answer_heart_beat := λ _ _, Ok 20000;
  answer_get := λ _ _, Ok None;
  answer_batch_get := λ _ _, Ok [];
  answer_scan := λ _ _, Ok [];
  latch_is_stale := λ _ _ _, false;
  elapsed_ms := λ _, 1;
  round_ms := λ _, 0%nat;
  spurious_failures := 1
|}.

Lemma pipelined_flush_complete_witness :
  ∃ res p ev,
    (run_pipelined sample_cluster 5 [97] LevelOff
       [PRecord [97] (Some (sample_put [97])); PMaybeFlush; PRecord [98] (Some (sample_put [98]))] ;;
     flush_all sample_cluster 5 [97] LevelOff) (PipelinedTxnState_new 1) [] = (res, p, ev) ∧
    res = Return () ∧ flushed_value ev [98] = Some (sample_put [98]).
Proof.
  destruct (pipelined_flush_complete sample_cluster 5 [97] LevelOff 1
    [PRecord [97] (Some (sample_put [97])); PMaybeFlush; PRecord [98] (Some (sample_put [98]))] [])
    as (res & p & ev & E & _ & Hok).
  - repeat constructor.
  - exists res, p, ev. split; [exact E|]. assert (res = Return ()) as Hres by (vm_compute in E; congruence).
    split; [exact Hres|]. destruct (Hok Hres) as (_ & _ & Hv & _). by apply Hv.
Defined.

(** Before commit the state flushes at most once: [maybe_flush] returns while a flush
    is recorded in [flushing], and only [flush_all] takes it out.  However many writes
    follow, they stay in memory until the commit. *)
Lemma pipelined_single_flush cl start_ts pk level min_flush_keys ops t0 : Forall op_keyed ops →
  ∃ p ev, run_pipelined cl start_ts pk level ops (PipelinedTxnState_new min_flush_keys) t0
    = (Return (), p, t0 ++ ev) ∧ (length ev ≤ 1)%nat.
Proof.
  intros Hk. destruct (run_pipelined_inv cl start_ts pk level t0 ops [] (PipelinedTxnState_new min_flush_keys) [])
    as (p1 & ev1 & E1 & _ & Hinv); [done | by split; [|left] |].
  rewrite app_nil_r in E1. exists p1, ev1. split; [done|].
  destruct Hinv as [(-> & _) | (? & ? & ? & _ & -> & _)]; simpl; lia.
Qed.

(** ** Resolving the flushed range *)

Lemma resolve_flushed_stream pd end_key fuel : ∀ t key, past_end end_key key = false →
  stream_fn (resolve_flushed_step pd Ok end_key) fuel t (Some key) =
  stream_fn (regions_for_range_step pd (Some end_key)) fuel t (Some key).
Proof.
  induction fuel as [|fuel IH]; intros t key Hp; [done|]. simpl. rewrite Hp.
  destruct (pd t key) as [r|e]; simpl; [|done].
  assert (key_leb end_key (RegionWithLeader.end_key r) && negb (is_empty end_key) =
    past_end end_key (RegionWithLeader.end_key r)) as -> by apply andb_comm.
  destruct (is_empty (RegionWithLeader.end_key r)) eqn:Ee, (past_end end_key (RegionWithLeader.end_key r)) eqn:Ep;
    simpl; [by destruct fuel.. |]. by rewrite IH.
Qed.

(** Every key of a flushed range is in a region that the resolution visits. *)
Lemma resolve_flushed_covers pd B range fuel : RegionLookup pd → layout_bounded pd B →
  wf_key range.1 → key_lt range.1 range.2 → (S (ends_after B range.1) < fuel)%nat →
  ∃ regions tail,
    stream_fn (resolve_flushed_step pd Ok range.2) fuel 0 (Some range.1) = Some (map Ok regions ++ tail) ∧
    ((∃ e, tail = [Err e]) ∨
     (tail = [] ∧ ∀ k, in_key_range range k → ∃ r, r ∈ regions ∧ RegionWithLeader.contains r k = true)).
Proof.
  intros Hpd HB Hwf Hlt Hf. destruct range as [s e]; simpl in *.
  assert (e ≠ []) as Hne by (intros ->; by apply key_lt_empty in Hlt).
  rewrite resolve_flushed_stream.
  2: { unfold past_end. destruct (is_empty_spec e); [done|]. simpl. case_key; [exfalso; key_order | done]. }
  destruct (regions_stream pd Hpd B (Some e) HB fuel 0 s Hwf Hf) as (rs & tail & -> & _ & Ht).
  exists rs, tail. split; [done|]. destruct Ht as [|[-> Hcov]]; [by left|]. right. split; [done|].
  intros k [Hs [He|He]]; [done|]. apply Hcov; [done|]. by destruct e.
Qed.
