(* ===== verification/Plans.v ===== *)
(** * Executing requests over regions (src/src/request/plan.rs, src/src/store/errors.rs)

    A request runs as a plan: [RetryableMultiRegion] cuts it into shards, sends each
    shard to its region, and retries a shard (cutting it again) after region and
    transport errors; [ResolveLock] resolves the locks a response reports and asks
    again; [CleanupLocks] scans and resolves the locks of a region batch by batch.

    Answers of PD, of the stores and of the replica selection are parameters, indexed
    by the place of the call in the tree of retries: the plan at a path [p] gives its
    [i]-th shard the path [i :: p], and the retry of that shard runs at the same path.
    Shards run concurrently; [order] gives the order in which they finish.  The semaphore that
    limits how many run at once does not change results and is left out here; Concurrency.v runs the same
    handlers interleaved, with it, and proves that. *)

From Stdlib Require Import Sorting.Permutation.
From S2P Require Import Prelude Keys Proto Errors Ranges Timestamps Kv Regions Sharding Backoffs Locks Requests.

(** The progress of a computation that may retry for ever. *)
Inductive run (A : Type) := Running | Panicks | Done (r : Result A).
Arguments Running {A}.
Arguments Panicks {A}.
Arguments Done {A} _.

Create HintDb plans.

(** ** Region errors *)

(** What the handlers change: the region and store caches of the PD client and the
    routing state that the attempts of one request share. *)
Inductive Action :=
| AInvalidateRegion (v : RegionVerId.t)
| AInvalidateStore (store_id : Z)
| AUpdateLeader (v : RegionVerId.t) (leader : Peer.t)
| AMarkStoreSlow (store_id : Z)
| APinStore (region_id store_id : Z)
| AClearPinnedStore (region_id : Z)
| AAddPendingBackoff (store_id : Z)
| AForceLeader.

Definition is_some {A} (o : option A) : bool := match o with Some _ => true | None => false end.

(** [for r in error.current_regions]: the loop returns early, or falls through. *)
Fixpoint epoch_loop (region : RegionWithLeader.t) (current_regions : list Region.t) :
    option (bool * list Action) :=
  let ver_id := RegionWithLeader.ver_id region in
  match current_regions with
  | [] => None
  | r :: rest =>
      if Region.id r =? RegionWithLeader.id region then
        match Region.region_epoch r, Region.region_epoch (RegionWithLeader.region region) with
        | None, _ => Some (true, [AInvalidateRegion ver_id])
        | Some _, None => Some (true, [AInvalidateRegion ver_id])
        | Some returned, Some current =>
            if (RegionEpoch.conf_ver returned <? RegionEpoch.conf_ver current) ||
               (RegionEpoch.version returned <? RegionEpoch.version current)
            then Some (false, [])
            else epoch_loop region rest
        end
      else epoch_loop region rest
  end.

Definition on_region_epoch_not_match (region : RegionWithLeader.t) (error : EpochNotMatch.t) :
    bool * list Action :=
  let ver_id := RegionWithLeader.ver_id region in
  if is_empty (EpochNotMatch.current_regions error) then (false, [AInvalidateRegion ver_id])
  else match epoch_loop region (EpochNotMatch.current_regions error) with
       | Some out => out
       | None => (true, [AInvalidateRegion ver_id])
       end.

(** [update_leader] is the answer of [pd_client.update_leader]. *)
Definition handle_region_error (update_leader : Result unit) (e : RegionError.t)
    (region : RegionWithLeader.t) : Result bool * list Action :=
  let ver_id := RegionWithLeader.ver_id region in
  match RegionError.not_leader e with
  | Some not_leader =>
      match NotLeader.leader not_leader with
      | Some leader =>
          match update_leader with
          | Ok _ => (Ok true, [AUpdateLeader ver_id leader])
          | Err err => (Err err, [AUpdateLeader ver_id leader; AInvalidateRegion ver_id])
          end
      | None => (Ok false, [AInvalidateRegion ver_id])
      end
  | None =>
      if is_some (RegionError.store_not_match e) then
        (Ok true, AInvalidateRegion ver_id ::
           match RegionWithLeader.get_store_id region with
           | Ok store_id => [AInvalidateStore store_id]
           | Err _ => []
           end)
      else
        match RegionError.epoch_not_match e with
        | Some epoch_not_match =>
            let '(resolved, actions) := on_region_epoch_not_match region epoch_not_match in
            (Ok resolved, actions)
        | None =>
            if is_some (RegionError.region_not_found e) || is_some (RegionError.key_not_in_region e)
            then (Ok true, [AInvalidateRegion ver_id])
            else if is_some (RegionError.stale_command e) then (Ok false, [AInvalidateRegion ver_id])
            else if is_some (RegionError.server_is_busy e) ||
                    is_some (RegionError.max_timestamp_not_synced e) ||
                    is_some (RegionError.read_index_not_ready e) ||
                    is_some (RegionError.proposal_in_merging_mode e)
            then (Ok false, [])
            else if is_some (RegionError.raft_entry_too_large e) then (Err (ERegionError e), [])
            else (Ok false, [AInvalidateRegion ver_id])
        end
  end.

(** Does an action replace what the client knows about the region? *)
Definition refreshes (v : RegionVerId.t) (a : Action) : Prop :=
  a = AInvalidateRegion v ∨ ∃ leader, a = AUpdateLeader v leader.

(** The handler touches no other region, and a resolved error was refreshed. *)
Definition routes_ok (v : RegionVerId.t) (resolved : bool) (actions : list Action) : Prop :=
  (∀ v' leader, AInvalidateRegion v' ∈ actions ∨ AUpdateLeader v' leader ∈ actions → v' = v) ∧
  (resolved = true → ∃ a, a ∈ actions ∧ refreshes v a).

Lemma routes_ok_nil v : routes_ok v false [].
Proof. split; [intros v' leader [H|H]; by apply elem_of_nil in H | done]. Qed.
Lemma routes_ok_invalidate v resolved actions :
  (∀ a, a ∈ actions → ∃ s, a = AInvalidateStore s) →
  routes_ok v resolved (AInvalidateRegion v :: actions).
Proof.
  intros Ha. split.
  - intros v' leader [[H|H%Ha]%elem_of_cons|[H|H%Ha]%elem_of_cons]; naive_solver.
  - intros _. exists (AInvalidateRegion v). split; [by apply elem_of_cons; left | by left].
Qed.
Lemma routes_ok_singleton v resolved : routes_ok v resolved [AInvalidateRegion v].
Proof. apply routes_ok_invalidate. by intros a ?%elem_of_nil. Qed.
#[local] Hint Resolve routes_ok_nil routes_ok_singleton : plans.

Lemma epoch_loop_routes region rs resolved actions : epoch_loop region rs = Some (resolved, actions) →
  routes_ok (RegionWithLeader.ver_id region) resolved actions.
Proof.
  induction rs as [|r rs IH]; cbn; [done|].
  repeat case_match; try done; intros; simplify_eq; auto with plans.
Qed.

Lemma on_region_epoch_not_match_routes region error resolved actions :
  on_region_epoch_not_match region error = (resolved, actions) →
  routes_ok (RegionWithLeader.ver_id region) resolved actions.
Proof.
  unfold on_region_epoch_not_match. destruct (is_empty _); [intros; simplify_eq; auto with plans|].
  destruct (epoch_loop _ _) as [[r a]|] eqn:E; intros; simplify_eq; [|auto with plans].
  by eapply epoch_loop_routes.
Qed.

(** An immediate retry never reuses stale routing.  When the handler of region errors
    asks for a retry without waiting, it has replaced what the cache knew about exactly the
    region that failed (the region is dropped from the cache or its leader updated); and it
    gives up only for an entry that is too large or when the leader could not be updated,
    in which case the region is dropped as well.  No other region is ever touched. *)
Theorem handle_region_error_refreshes update_leader e region res actions :
  handle_region_error update_leader e region = (res, actions) →
  let v := RegionWithLeader.ver_id region in
  (∀ v' leader, AInvalidateRegion v' ∈ actions ∨ AUpdateLeader v' leader ∈ actions → v' = v) ∧
  match res with
  | Ok true => ∃ a, a ∈ actions ∧ refreshes v a
  | Ok false => True
  | Err err =>
      (∃ not_leader leader, RegionError.not_leader e = Some not_leader ∧
         NotLeader.leader not_leader = Some leader ∧ update_leader = Err err ∧
         AInvalidateRegion v ∈ actions) ∨
      (RegionError.raft_entry_too_large e ≠ None ∧ err = ERegionError e ∧ actions = [])
  end.
Proof.
  intros E v. unfold handle_region_error in E. fold v in E.
  assert (∀ resolved, res = Ok resolved → routes_ok v resolved actions →
    (∀ v' leader, AInvalidateRegion v' ∈ actions ∨ AUpdateLeader v' leader ∈ actions → v' = v) ∧
    match res with Ok true => ∃ a, a ∈ actions ∧ refreshes v a | Ok false => True | Err _ => False end)
    as Hok by (intros [] -> [H1 H2]; auto).
  destruct (RegionError.not_leader e) as [not_leader|] eqn:En.
  { destruct (NotLeader.leader not_leader) as [leader|] eqn:El.
    2: { destruct (Hok false) as [H1 _]; simplify_eq; auto with plans. }
    destruct update_leader as [?|err]; simplify_eq; split.
    - set_solver.
    - exists (AUpdateLeader v leader). split; [set_solver | right; eauto].
    - set_solver.
    - left. exists not_leader, leader. set_solver. }
  destruct (is_some (RegionError.store_not_match e)).
  { destruct (Hok true) as [H1 H2]; simplify_eq; [done| |by split].
    apply routes_ok_invalidate. intros a. case_match; [intros ->%list_elem_of_singleton; eauto | by intros ?%elem_of_nil]. }
  destruct (RegionError.epoch_not_match e) as [epoch|].
  { destruct (on_region_epoch_not_match region epoch) as [resolved a] eqn:Eo. simplify_eq.
    apply on_region_epoch_not_match_routes in Eo.
    destruct (Hok resolved) as [H1 H2]; [done..|]. split; [done | by destruct resolved]. }
  repeat (case_match; simplify_eq).
  1: by apply (Hok true); auto with plans.
  1-3: by apply (Hok false); auto with plans.
  split; [set_solver|]. right. split_and!; [|done|done]. by destruct (RegionError.raft_entry_too_large e).
Qed.

(** ** [RetryableMultiRegion] *)

(** [ReadPeer] (src/src/request/read_routing.rs) *)
Record ReadPeer := mkReadPeer { target_peer : Peer.t; rp_replica_read : bool; rp_stale_read : bool }.

Definition STALE_READ_MAX_RETRIES : nat := 120.

(** What a plan does: its shards, with the region each belongs to, and its execution
    against the store it was applied to. *)
Record PlanOps (P Shard Resp : Type) := {
  plan_shards : list nat → P → list (Result (Shard * RegionWithLeader.t));
  plan_apply_shard : Shard → P → P;
  plan_apply_store : list nat → P → Result P;
  plan_execute : list nat → P → Result Resp;
  resp_key_errors : Resp → option (list Error);
  resp_region_error : Resp → option RegionError.t
}.
Arguments plan_shards {P Shard Resp} _ _ _.
Arguments plan_apply_shard {P Shard Resp} _ _ _.
Arguments plan_apply_store {P Shard Resp} _ _ _.
Arguments plan_execute {P Shard Resp} _ _ _.
Arguments resp_key_errors {P Shard Resp} _ _.
Arguments resp_region_error {P Shard Resp} _ _.

(** What a shard handler is answered. *)
Record HandlerEnv := {
  select_peer : list nat → RegionWithLeader.t → nat → Result ReadPeer;
  (** [select_peer_for_request_source], asked when there is a request source *)
  select_source_peer : list nat → RegionWithLeader.t → option (Result ReadPeer);
  map_region_to_store : list nat → RegionWithLeader.t → Result unit;
  take_pending_backoff : list nat → Z → bool;
  is_replica_read_mode : bool;
  answer_update_leader : list nat → Result unit;
  draw : list nat → Z;
  (** the order in which [n] shards finish *)
  order : list nat → nat → list nat
}.

(** The tasks that have finished, in the order in which they did. *)
Definition finished_tasks {A} (order : list nat) (tasks : list (run A)) : list (run A) :=
  List.filter (λ r, match r with Running => false | _ => true end) (omap (λ i, tasks !! i) order).

Section multi_region.
Context {P Shard Resp : Type} (ops : PlanOps P Shard Resp) (env : HandlerEnv).
Context (preserve_region_results : bool).

Abbreviation Results := (list (Result Resp)) (only parsing).

(** [single_plan_handler] on the finished tasks; the rest of a task is cancelled when
    another's error ends the loop. *)
Fixpoint collect_tasks (tasks : list (run Results)) (results : Results) : run Results :=
  match tasks with
  | [] => Done (Ok results)
  | Done (Ok v) :: tasks => collect_tasks tasks (results ++ v)
  | Done (Err e) :: tasks =>
      if preserve_region_results then collect_tasks tasks (results ++ [Err e]) else Done (Err e)
  | Panicks :: _ => Panicks
  | Running :: tasks => collect_tasks tasks results
  end.

Definition join_tasks (path : list nat) (tasks : list (run Results)) : run Results :=
  match collect_tasks (finished_tasks (order env path (length tasks)) tasks) [] with
  | Done (Ok results) =>
      if existsb (λ r, match r with Running => true | _ => false end) tasks
      then Running else Done (Ok results)
  | r => r
  end.

Definition emit_actions {A} (actions : list Action) (r : A * list Action) : A * list Action :=
  (r.1, actions ++ r.2).

(** The handler of a shard ends by returning or by handling its plan again, with [retry].  It is written for any type [A]
    of what it ends with: the sequential execution below takes the results, the interleaved one (Concurrency.v)
    the decision. *)
Section handlers.
Context {A : Type} (ret : run Results → A) (retry : P → Backoff.t → nat → A * list Action).

Definition handle_other_error (path : list nat) (plan : P) (region : RegionVerId.t)
    (store : option Z) (backoff : Backoff.t) (attempt : nat) (e : Error) :
    A * list Action :=
  let actions := AInvalidateRegion region ::
    (if is_grpc_error e then AInvalidateStore <$> option_list store else []) in
  match next_delay_duration backoff (draw env path) with
  | Wait _ backoff => emit_actions actions (retry plan backoff (S attempt))
  | GiveUp _ => (ret (Done (Err e)), actions)
  | Panic => (ret Panicks, actions)
  end.

Definition non_witness_peers (region : RegionWithLeader.t) : nat :=
  length (List.filter (λ p, negb (Peer.is_witness p)) (Region.peers (RegionWithLeader.region region))).

(** The branch of a response with a region error. *)
Definition on_region_error (path : list nat) (plan : P) (region : RegionWithLeader.t)
    (stale_read : bool) (backoff : Backoff.t) (attempt : nat) (e : RegionError.t) :
    A * list Action :=
  if is_some (RegionError.data_is_not_ready e) && stale_read then
    if (STALE_READ_MAX_RETRIES <=? attempt)%nat then (ret (Done (Err (ERegionError e))), [])
    else retry plan backoff (S attempt)
  else
    let region_id := RegionWithLeader.id region in
    let keep_peer := is_some (RegionError.max_timestamp_not_synced e) ||
      is_some (RegionError.read_index_not_ready e) || is_some (RegionError.proposal_in_merging_mode e) in
    let pin_actions :=
      if keep_peer then
        match RegionWithLeader.get_store_id region with
        | Ok store_id => [APinStore region_id store_id]
        | Err _ => []
        end
      else [AClearPinnedStore region_id] in
    if is_replica_read_mode env && is_some (RegionError.stale_command e) then
      let pin_actions := pin_actions ++ [AClearPinnedStore region_id] in
      if (non_witness_peers region <=? S attempt)%nat
      then (ret (Done (Err (ERegionError e))),
            pin_actions ++ [AInvalidateRegion (RegionWithLeader.ver_id region)])
      else emit_actions pin_actions (retry plan backoff (S attempt))
    else
      let '(resolved, actions) := handle_region_error (answer_update_leader env path) e region in
      let actions := pin_actions ++ actions in
      match resolved with
      | Err err => (ret (Done (Err err)), actions)
      | Ok true => emit_actions actions (retry plan backoff (S attempt))
      | Ok false =>
          if is_replica_read_mode env && is_some (RegionError.server_is_busy e) &&
             ((1 <? non_witness_peers region)%nat && (S attempt <? non_witness_peers region)%nat) then
            let busy_actions :=
              match RegionWithLeader.get_store_id region with
              | Ok store_id => [AAddPendingBackoff store_id; AMarkStoreSlow store_id]
              | Err _ => []
              end in
            emit_actions (actions ++ busy_actions) (retry plan backoff (S attempt))
          else
            match next_delay_duration backoff (draw env path) with
            | Wait _ backoff => emit_actions actions (retry plan backoff (S attempt))
            | GiveUp _ => (ret (Done (Err (ERegionError e))), actions)
            | Panic => (ret Panicks, actions)
            end
      end.

(** The part of [single_shard_handler] from the execution on; [region] has the chosen
    peer as its leader. *)
Definition on_execute (path : list nat) (plan : P) (region : RegionWithLeader.t)
    (stale_read : bool) (backoff : Backoff.t) (attempt : nat) : A * list Action :=
  match plan_execute ops path plan with
  | Err e =>
      if is_grpc_error e then
        let store := ok (RegionWithLeader.get_store_id region) in
        emit_actions (AMarkStoreSlow <$> option_list store)
          (handle_other_error path plan (RegionWithLeader.ver_id region) store backoff (S attempt) e)
      else (ret (Done (Err e)), [])
  | Ok resp =>
      match resp_key_errors ops resp with
      | Some e => (ret (Done (Ok [Err (MultipleKeyErrors e)])), [])
      | None =>
          match resp_region_error ops resp with
          | Some e => on_region_error path plan region stale_read backoff attempt e
          | None => (ret (Done (Ok [Ok resp])), [AClearPinnedStore (RegionWithLeader.id region)])
          end
      end
  end.

(** [single_shard_handler] up to the permit; [run_on] is what follows with the permit. *)
Definition prepare_shard (run_on : P → RegionWithLeader.t → bool → Backoff.t → A * list Action) (path : list nat)
    (plan : P) (region : RegionWithLeader.t) (backoff : Backoff.t) (attempt : nat) : A * list Action :=
  match select_peer env path region attempt with
  | Err (LeaderNotFound v) =>
      handle_other_error path plan v None backoff (S attempt) (LeaderNotFound v)
  | Err err => (ret (Done (Err err)), [])
  | Ok read_peer =>
      match RegionWithLeader.leader region with
      | None =>
          handle_other_error path plan (RegionWithLeader.ver_id region) None backoff (S attempt)
            (LeaderNotFound (RegionWithLeader.ver_id region))
      | Some _ =>
          match select_source_peer env path region with
          | Some (Err err) => (ret (Done (Err err)), [])
          | _ =>
              let region := RegionWithLeader.with_leader region (target_peer read_peer) in
              match map_region_to_store env path region ≫= λ _, plan_apply_store ops path plan with
              | Err (LeaderNotFound v) =>
                  handle_other_error path plan v None backoff (S attempt) (LeaderNotFound v)
              | Err err => (ret (Done (Err err)), [])
              | Ok plan =>
                  let run_on := run_on plan region (rp_stale_read read_peer) in
                  match RegionWithLeader.get_store_id region with
                  | Ok store_id =>
                      if take_pending_backoff env path store_id then
                        match next_delay_duration backoff (draw env path) with
                        | Wait _ backoff => run_on backoff
                        | GiveUp _ =>
                            (ret (Done (Err (ERegionError (RegionError.with_message
                               "backoff attempts exhausted while applying pending backoff")))), [])
                        | Panic => (ret Panicks, [])
                        end
                      else run_on backoff
                  | Err _ => run_on backoff
                  end
              end
          end
      end
  end.

Definition single_shard_handler (path : list nat) (plan : P) (region : RegionWithLeader.t)
    (backoff : Backoff.t) (attempt : nat) : A * list Action :=
  prepare_shard (λ plan region stale_read backoff, on_execute path plan region stale_read backoff attempt)
    path plan region backoff attempt.
End handlers.

Fixpoint single_plan_handler (fuel : nat) (path : list nat) (plan : P) (backoff : Backoff.t) (attempt : nat) :
    run Results * list Action :=
  match fuel with
  | O => (Running, [])
  | S fuel =>
      match mapM id (plan_shards ops path plan) with
      | Err e => (Done (Err e), [])
      | Ok shards =>
          let tasks := imap (λ i (s : Shard * RegionWithLeader.t),
            single_shard_handler id (single_plan_handler fuel (i :: path)) (i :: path)
              (plan_apply_shard ops s.1 plan) s.2 backoff attempt) shards in
          (join_tasks path tasks.*1, concat tasks.*2)
      end
  end.

(** [RetryableMultiRegion::execute] *)
Definition multi_region_execute (fuel : nat) (plan : P) (backoff : Backoff.t) : run Results :=
  (single_plan_handler fuel [] plan backoff 0).1.
End multi_region.

(** *** What the results of a request are *)

(** What sharding promises to the execution of a plan: the shards of a plan hold what the
    plan holds, and choosing a store does not change it.  It promises this for valid
    plans (those with well-formed keys), whose shards are valid again. *)
Class PartitionsUpTo {P Shard Resp K : Type} (R : relation (list K)) (ops : PlanOps P Shard Resp) (valid : P → Prop)
    (content : P → list K) : Prop := {
  shards_partition : ∀ path plan shards, valid plan → mapM id (plan_shards ops path plan) = Ok shards →
    R (concat (map (λ s, content (plan_apply_shard ops s.1 plan)) shards)) (content plan);
  shards_valid : ∀ path plan shards s, valid plan → mapM id (plan_shards ops path plan) = Ok shards →
    s ∈ shards → valid (plan_apply_shard ops s.1 plan);
  store_content : ∀ path plan plan', valid plan → plan_apply_store ops path plan = Ok plan' →
    content plan' = content plan ∧ valid plan'
}.

(** Up to which relation contents are compared: the order never matters; for keys every occurrence does, for ranges only the
    elements do, because regions that change between lookups may be asked twice for the same keys. *)
Class ContentEquiv {K : Type} (R : relation (list K)) : Prop := {
  content_equivalence :: Equivalence R;
  content_app :: Proper (R ==> R ==> R) app;
  content_perm : ∀ l k, l ≡ₚ k → R l k
}.
#[export] Instance perm_content_equiv {K} : ContentEquiv (@Permutation K).
Proof. split; [apply _ | apply _ | done]. Qed.

Definition same_elements {K} (l k : list K) : Prop := ∀ x, x ∈ l ↔ x ∈ k.
#[export] Instance same_elements_content_equiv {K} : ContentEquiv (@same_elements K).
Proof.
  split.
  - split; [by intros l x | by intros l k H x; symmetry | by intros l k m H1 H2 x; rewrite (H1 x)].
  - intros l l' Hl k k' Hk x. by rewrite !elem_of_app, (Hl x), (Hk x).
  - intros l k H x. by rewrite H.
Qed.

(** Every part of the request exactly once. *)
Abbreviation Partitions := (PartitionsUpTo Permutation).

Lemma omap_lookup_seq_app {A} (l k : list A) :
  omap (λ i, (k ++ l) !! i) (seq (length k) (length l)) = l.
Proof.
  revert k. induction l as [|x l IH]; intros k; [done|]. cbn [length seq].
  change (omap ?f (?i :: ?l0)) with (match f i with Some y => y :: omap f l0 | None => omap f l0 end).
  cbn beta. rewrite list_lookup_middle by done. f_equal.
  specialize (IH (k ++ [x])). rewrite length_app, <- app_assoc in IH. cbn in IH.
  by rewrite Nat.add_1_r in IH.
Qed.
Lemma omap_lookup_seq {A} (l : list A) : omap (λ i, l !! i) (seq 0 (length l)) = l.
Proof. apply (omap_lookup_seq_app l []). Qed.

Lemma omap_lookup_snd {A B} (l : list (A * B)) o :
  omap (λ i, map snd l !! i) o = map snd (omap (λ i, l !! i) o).
Proof.
  induction o as [|i o IH]; [done|]. cbn.
  replace (map snd l !! i) with (snd <$> l !! i) by (symmetry; apply list_lookup_fmap).
  destruct (l !! i); cbn; [f_equal|]; exact IH.
Qed.

Lemma Forall2_with_l {A B} (R : A → B → Prop) (Q : A → Prop) l k :
  Forall2 R l k → Forall Q l → Forall2 (λ x y, R x y ∧ Q x) l k.
Proof. induction 1; intros HQ; inversion HQ; subst; constructor; auto. Qed.

Section covers.
Context {P Shard Resp K : Type} {R : relation (list K)} {Hcontent : ContentEquiv R}.
Context (ops : PlanOps P Shard Resp) (env : HandlerEnv) (preserve : bool) (valid : P → Prop) (content : P → list K).

(** One response of the final results: the part of the request it answers, answered without
    a region error, or with key errors; with [preserve] a part may also have failed. *)
Definition answers (l : P * Result Resp) : Prop :=
  match l.2 with
  | Ok resp => ∃ path, plan_execute ops path l.1 = Ok resp ∧
      resp_key_errors ops resp = None ∧ resp_region_error ops resp = None
  | Err e => preserve = true ∨ ∃ path resp es, plan_execute ops path l.1 = Ok resp ∧
      resp_key_errors ops resp = Some es ∧ e = MultipleKeyErrors es
  end.

(** The results belong to valid parts that make up the whole plan. *)
Definition covers (plan : P) (results : list (Result Resp)) : Prop :=
  ∃ parts : list (P * Result Resp), map snd parts = results ∧
    R (concat (map (content ∘ fst) parts)) (content plan) ∧
    Forall (λ l, valid l.1 ∧ answers l) parts.

Lemma covers_single plan r : valid plan → answers (plan, r) → covers plan [r].
Proof.
  intros Hv H. exists [(plan, r)]. split_and!; [done | | by constructor]. cbn. by rewrite app_nil_r.
Qed.
Lemma covers_content plan plan' results : content plan' = content plan → covers plan' results → covers plan results.
Proof. intros E (parts & ? & H & ?). exists parts. by rewrite <- E. Qed.

Lemma covers_app plans resultss : Forall2 covers plans resultss →
  ∃ parts : list (P * Result Resp), map snd parts = concat resultss ∧
    R (concat (map (content ∘ fst) parts)) (concat (map content plans)) ∧
    Forall (λ l, valid l.1 ∧ answers l) parts.
Proof.
  induction 1 as [|plan r plans rs (p1 & E1 & H1 & F1) _ (p2 & E2 & H2 & F2)]; cbn; [exists []; split_and!; [done | done | constructor]|].
  exists (p1 ++ p2). rewrite !map_app, concat_app, E1, E2. split_and!; [done | | by apply Forall_app].
  by rewrite H1, H2.
Qed.

Section shard.
Context {HP : PartitionsUpTo R ops valid content}.
Context (retry : P → Backoff.t → nat → run (list (Result Resp)) * list Action).
Context (Hretry : ∀ plan b a results, valid plan → (retry plan b a).1 = Done (Ok results) → covers plan results).

Lemma handle_other_error_covers path plan v s b a e results : valid plan →
  (handle_other_error env id retry path plan v s b a e).1 = Done (Ok results) → covers plan results.
Proof. intros Hv. unfold handle_other_error. case_match; cbn; [done.. | by apply Hretry]. Qed.

Lemma on_region_error_covers path plan region stale b a e results : valid plan →
  (on_region_error env id retry path plan region stale b a e).1 = Done (Ok results) → covers plan results.
Proof.
  intros Hv. unfold on_region_error. destruct (_ && stale); [destruct (_ <=? a)%nat; [done | by apply Hretry]|].
  cbv zeta. set (pins := if _ || _ then _ else _).
  destruct (_ && _); [destruct (_ <=? _)%nat; [done | cbn; by apply Hretry]|].
  destruct (handle_region_error _ _ _) as [[[]|err] actions]; [cbn; by apply Hretry | | done].
  destruct (_ && _ && _); [cbn; by apply Hretry|].
  destruct (next_delay_duration _ _); [done | done | cbn; by apply Hretry].
Qed.

Lemma on_execute_covers path plan region stale b a results : valid plan →
  (on_execute ops env id retry path plan region stale b a).1 = Done (Ok results) → covers plan results.
Proof.
  intros Hv. unfold on_execute. destruct (plan_execute ops path plan) as [resp|e] eqn:E.
  - destruct (resp_key_errors ops resp) as [es|] eqn:Ek.
    { cbn. intros [= <-]. apply covers_single; [done|]. cbn. eauto 10. }
    destruct (resp_region_error ops resp) as [re|] eqn:Er; [by apply on_region_error_covers|].
    cbn. intros [= <-]. apply covers_single; [done|]. cbn. eauto.
  - destruct (is_grpc_error e); [|done]. cbn. by apply handle_other_error_covers.
Qed.

Lemma single_shard_covers path plan region b a results : valid plan →
  (single_shard_handler ops env id retry path plan region b a).1 = Done (Ok results) → covers plan results.
Proof.
  intros Hv. unfold single_shard_handler, prepare_shard.
  destruct (select_peer _ _ _ _) as [peer|e]; [|case_match; try done; by apply handle_other_error_covers].
  destruct (RegionWithLeader.leader region); [|by apply handle_other_error_covers].
  assert (∀ plan' region b, plan_apply_store ops path plan = Ok plan' →
    (on_execute ops env id retry path plan' region (rp_stale_read peer) b a).1 = Done (Ok results) →
    covers plan results) as Hexec.
  { intros plan' region' b' Es He. destruct (store_content path plan plan' Hv Es) as [Hc Hv'].
    apply on_execute_covers in He; [|done]. by eapply covers_content. }
  assert (∀ e, (match e with
    | LeaderNotFound v => handle_other_error env id retry path plan v None b (S a) (LeaderNotFound v)
    | err => (Done (Err err), []) end).1 = Done (Ok results) → covers plan results) as Herr.
  { intros e. destruct e; try done. by apply handle_other_error_covers. }
  cbv zeta. set (region' := RegionWithLeader.with_leader _ _).
  destruct (select_source_peer _ _ _) as [[?|?]|]; [|done|];
    (destruct (map_region_to_store _ _ _) as [?|em]; cbn; [|apply Herr];
     destruct (plan_apply_store ops path plan) as [plan'|e'] eqn:Es; [|apply Herr];
     repeat (case_match; cbn); try done; by eapply Hexec).
Qed.
End shard.

Lemma collect_tasks_done (ts : list (run (list (Result Resp)))) : ∀ acc results,
  Forall (λ t, t ≠ Running) ts →
  collect_tasks preserve ts acc = Done (Ok results) →
  ∃ vs, results = acc ++ concat vs ∧
    Forall2 (λ t v, t = Done (Ok v) ∨ (preserve = true ∧ ∃ e : Error, t = Done (Err e) ∧ v = [Err e])) ts vs.
Proof.
  induction ts as [|t ts IH]; intros acc results HF E; cbn in E.
  { injection E as ->. exists []. by rewrite app_nil_r. }
  apply Forall_cons in HF as [Ht HF]. destruct t as [| |[v|e]]; [done | done | |].
  - destruct (IH _ _ HF E) as (vs & -> & H2). exists (v :: vs). rewrite <- app_assoc. split; [done|].
    constructor; [by left | done].
  - destruct preserve eqn:Ep; [|done]. destruct (IH _ _ HF E) as (vs & -> & H2). exists ([Err e] :: vs).
    rewrite <- app_assoc. split; [done|]. constructor; [|done]. right. eauto.
Qed.

Lemma join_tasks_done path (tps : list (P * run (list (Result Resp)))) results :
  order env path (length tps) ≡ₚ seq 0 (length tps) →
  join_tasks env preserve path (map snd tps) = Done (Ok results) →
  ∃ plans vs, results = concat vs ∧ plans ≡ₚ map fst tps ∧
    Forall2 (λ plan v, (plan, Done (Ok v)) ∈ tps ∨ (preserve = true ∧ ∃ e, v = [Err e])) plans vs.
Proof.
  intros Ho. unfold join_tasks. rewrite length_map.
  destruct (existsb _ _) eqn:Ex; [by repeat case_match|].
  assert (Forall (λ t, t ≠ Running) (map snd tps)) as HR.
  { apply Forall_forall. intros t Ht ->. apply not_true_iff_false in Ex. apply Ex.
    apply existsb_exists. exists Running. split; [by apply list_elem_of_In | done]. }
  set (L := omap (λ i, tps !! i) (order env path (length tps))).
  assert (L ≡ₚ tps) as HL by (unfold L; rewrite Ho; by rewrite omap_lookup_seq).
  assert (finished_tasks (order env path (length tps)) (map snd tps) = map snd L) as ->.
  { unfold finished_tasks. replace (omap _ _) with (map snd L).
    - apply List.forallb_filter_id. apply forallb_forall. intros t Ht%list_elem_of_In.
      rewrite HL in Ht. rewrite Forall_forall in HR. specialize (HR t Ht). by destruct t.
    - unfold L. symmetry. apply omap_lookup_snd. }
  destruct (collect_tasks _ _ _) as [| |[results'|e]] eqn:Ec; try done. intros [= ->].
  apply collect_tasks_done in Ec as (vs & -> & H2); [|by rewrite HL].
  exists (map fst L), vs. split_and!; [done | by rewrite HL |].
  assert (∀ p, p ∈ L → p ∈ tps) as Hsub by (intros p; by rewrite HL).
  clear Ho HR HL Ex. clearbody L. revert vs H2. induction L as [|[p t] L IH]; intros vs H2; inversion H2; subst; [constructor|].
  constructor.
  - match goal with H : _ ∨ _ |- _ => destruct H as [->|[-> (e & _ & ->)]] end.
    + left. apply Hsub. by apply elem_of_cons; left.
    + right. eauto.
  - apply IH; [|done]. intros q Hq. apply Hsub. by apply elem_of_cons; right.
Qed.
End covers.

Section plan_covers.
Context {P Shard Resp K : Type} {R : relation (list K)} {Hcontent : ContentEquiv R}.
Context (ops : PlanOps P Shard Resp) (env : HandlerEnv) (preserve : bool).
Context (valid : P → Prop) (content : P → list K) {HP : PartitionsUpTo R ops valid content}.
Context (Horder : ∀ path n, order env path n ≡ₚ seq 0 n).

Lemma single_plan_covers fuel : ∀ path plan b a results, valid plan →
  (single_plan_handler ops env preserve fuel path plan b a).1 = Done (Ok results) →
  covers (R:=R) ops preserve valid content plan results.
Proof.
  induction fuel as [|fuel IH]; intros path plan b a results Hvalid; [done|]. cbn [single_plan_handler].
  destruct (mapM id (plan_shards ops path plan)) as [shards|e] eqn:Es; [|done]. cbn [fst].
  set (handler := λ i (s : Shard * RegionWithLeader.t), single_shard_handler ops env id
    (single_plan_handler ops env preserve fuel (i :: path)) (i :: path)
    (plan_apply_shard ops s.1 plan) s.2 b a).
  set (tps := imap (λ i s, (plan_apply_shard ops s.1 plan, (handler i s).1)) shards).
  assert ((imap handler shards).*1 = map snd tps) as ->.
  { unfold tps. change (map snd) with (fmap (M:=list) (@snd P (run (list (Result Resp))))). by rewrite !fmap_imap. }
  assert (map fst tps = map (λ s, plan_apply_shard ops s.1 plan) shards) as Hfst.
  { unfold tps. change (map fst) with (fmap (M:=list) (@fst P (run (list (Result Resp))))).
    rewrite fmap_imap. apply imap_const. }
  intros (plans & vs & -> & Hp & H2)%join_tasks_done; [|apply Horder].
  assert (Forall valid plans) as Hvs.
  { rewrite Hp, Hfst. apply Forall_map, Forall_forall. intros s Hs. by eapply shards_valid. }
  destruct (covers_app (R:=R) ops preserve valid content plans vs) as (parts & E1 & E2 & HF).
  { eapply Forall2_impl; [exact (Forall2_with_l _ _ _ _ H2 Hvs)|]. intros p v [[Hin|[-> [e ->]]] Hpv].
    - apply list_elem_of_lookup_1 in Hin as [i Hi]. unfold tps in Hi.
      apply list_lookup_imap_Some in Hi as (s & Hs & Hi). injection Hi as -> Hv.
      unfold handler in Hv. eapply single_shard_covers; [done | | | by symmetry].
      + intros. by eapply IH.
      + eapply shards_valid; [done..|]. by eapply list_elem_of_lookup_2.
    - apply covers_single; [done|]. by left. }
  exists parts. split_and!; [done | | done]. etrans; [exact E2|].
  etrans; [apply content_perm; by rewrite Hp|]. rewrite Hfst, map_map. by eapply shards_partition.
Qed.
End plan_covers.

(** C12: a request that its shards partition is answered completely and exactly once.
    The hypothesis on the plan is the class [Partitions]: for a valid request, whenever every
    shard was found, the shards together hold exactly what the request holds, each is valid
    again, and choosing a store changes nothing.  It is proved from PD's region lookups for the
    requests cut by key ([keys_ops_partitions], [keyed_partitions], the raw checksum), and for
    prewrite and commit where every lookup succeeds; a request in batches does not have it when
    a lookup fails ([batched_request_incomplete] below), and this claim is not about it.
    For a plan with the hypothesis, whatever the lookups, the stores and the replica selection
    answer, in whatever order the shards finish and however often they are cut and retried: when
    the execution over regions returns results, these are the answers for parts of the request
    that together are exactly the request, nothing lost and nothing twice, each again a valid
    request.  Each part was answered without a region error, or with key errors that are
    reported for it; only when region results are preserved may a part also have failed, and
    then its error is among the results. *)
Theorem multi_region_execute_complete {P Shard Resp K} (ops : PlanOps P Shard Resp) env preserve
    valid (content : P → list K) fuel plan backoff results :
  Partitions ops valid content → valid plan → (∀ path n, order env path n ≡ₚ seq 0 n) →
  multi_region_execute ops env preserve fuel plan backoff = Done (Ok results) →
  ∃ parts : list (P * Result Resp), map snd parts = results ∧
    concat (map (content ∘ fst) parts) ≡ₚ content plan ∧
    Forall (λ l, valid l.1 ∧ answers ops preserve l) parts.
Proof. intros HP Hv Ho E. exact (single_plan_covers ops env preserve valid content Ho fuel _ _ _ _ _ Hv E). Qed.

(** *** Key requests *)

(** A [shardable_keys!] request that reads through [pd] at each place of the retry tree. *)
Definition keys_ops {Resp} (pd : list nat → nat → list Z → Result RegionWithLeader.t)
    (execute : list nat → list (list Z) → Result Resp) (key_errors : Resp → option (list Error))
    (region_error : Resp → option RegionError.t) : PlanOps (list (list Z)) (list (list Z)) Resp := {|
  plan_shards path keys := default [] (keys_shards (pd path) (S (length keys)) keys);
  plan_apply_shard shard _ := shard;
  plan_apply_store _ keys := Ok keys;
  plan_execute := execute;
  resp_key_errors := key_errors;
  resp_region_error := region_error
|}.

Lemma mapM_ok_app {A} (l : list A) (tail : list (Result A)) out :
  mapM id (map Ok l ++ tail) = Ok out → ∃ out', mapM id tail = Ok out' ∧ out = l ++ out'.
Proof.
  revert out. induction l as [|x l IH]; intros out; [by exists out|]. cbn.
  destruct (mapM id (map Ok l ++ tail)) as [o|e] eqn:E; [|done]. cbn. intros [= <-].
  destruct (IH o eq_refl) as (out' & -> & ->). by exists out'.
Qed.

Lemma mapM_ok_elem {A} (l : list (Result A)) out x : mapM id l = Ok out → x ∈ out → Ok x ∈ l.
Proof.
  revert out. induction l as [|[y|e] l IH]; intros out; [intros [= <-] ?%elem_of_nil; done | | done]. cbn.
  destruct (mapM id l) as [o|e] eqn:E; [|done]. cbn. intros [= <-] [->|Hx]%elem_of_cons.
  - by apply elem_of_cons; left.
  - apply elem_of_cons; right. by apply (IH o).
Qed.

(** Cutting keys by region is such a partition, whatever the lookups answer. *)
#[export] Instance keys_ops_partitions {Resp} pd execute key_errors region_error :
  (∀ path, RegionLookup (pd path)) →
  Partitions (@keys_ops Resp pd execute key_errors region_error) (Forall wf_key) id.
Proof.
  intros Hpd.
  assert (∀ path keys shards, Forall wf_key keys →
    mapM id (default [] (keys_shards (pd path) (S (length keys)) keys)) = Ok shards →
    concat (map fst shards) ≡ₚ keys) as Hparts.
  { intros path keys shards Hwf. unfold keys_shards, group_keys_by_region.
    destruct (group_keys_stream (pd path) id (Hpd path) (S (length keys)) 0 (sort_by_key id keys))
      as (groups & tail & -> & _ & rest & Hc & Ht).
    { by rewrite sort_by_key_perm. }
    { rewrite (Permutation_length (sort_by_key_perm id keys)). lia. }
    cbn [default]. intros (out' & Ho & ->)%mapM_ok_app.
    destruct Ht as [[-> ->]|(e & -> & _)]; [|done]. injection Ho as <-.
    rewrite !app_nil_r in *. by rewrite Hc, sort_by_key_perm. }
  split.
  - intros path keys shards Hwf E. cbn in E |- *. by eapply Hparts.
  - intros path keys shards s Hwf E Hs. cbn in E |- *. specialize (Hparts path keys shards Hwf E).
    rewrite Forall_forall in Hwf |- *. intros k Hk. apply Hwf. rewrite <- Hparts.
    apply list_elem_of_In, in_concat. exists s.1. split; [|by apply list_elem_of_In].
    by apply in_map, list_elem_of_In.
  - by intros path keys keys' Hwf [= <-].
Qed.

(** A cluster of two regions whose stores answer every request, the second of them once with
    a region error; tasks finish in the reverse order. *)
Definition led (r : RegionWithLeader.t) : RegionWithLeader.t :=
  RegionWithLeader.with_leader r (Peer.mk 1 (RegionWithLeader.id r) 0 false).
Definition led_pd (path : list nat) (t : nat) (k : Key) : Result RegionWithLeader.t := led <$> sample_pd t k.
#[export] Instance led_pd_lookup path : RegionLookup (led_pd path).
Proof.
  split; intros t k r Hk; unfold led_pd; destruct (sample_pd t k) as [r0|] eqn:E; intros [= <-].
  - by apply (lookup_contains t k r0 Hk E).
  - by apply (lookup_wf t k r0 Hk E).
Qed.

Definition sample_handler_env : HandlerEnv := {|
  select_peer path r attempt := ok_or (RegionWithLeader.leader r) (LeaderNotFound (RegionWithLeader.ver_id r))
    ≫= λ p, Ok (mkReadPeer p false false);
  select_source_peer path r := None;
  map_region_to_store path r := Ok ();
  take_pending_backoff path s := false;
  is_replica_read_mode := false;
  answer_update_leader path := Ok ();
  draw path := 0;
  order path n := rev (seq 0 n)
|}.
Definition busy : RegionError.t :=
  RegionError.mk EmptyString None None None None (Some ()) None None None None None None None.
Definition sample_execute (path : list nat) (keys : list (list Z)) : Result (list (list Z) * option RegionError.t) :=
  Ok (keys, if bool_decide (path = [1%nat]) then Some busy else None).
Definition sample_keys_ops := keys_ops led_pd sample_execute (λ _, None) snd.

Lemma multi_region_execute_complete_witness : ∃ parts : list (list (list Z) * Result _),
  map snd parts = [Ok ([[120]], None); Ok ([[97]], None)] ∧
  concat (map (id ∘ fst) parts) ≡ₚ [[97]; [120]] ∧
  Forall (λ l, Forall wf_key l.1 ∧ answers sample_keys_ops false l) parts.
Proof.
  apply (multi_region_execute_complete sample_keys_ops sample_handler_env false (Forall wf_key) id 5
    [[97]; [120]] DEFAULT_REGION_BACKOFF [Ok ([[120]], None); Ok ([[97]], None)]).
  - apply keys_ops_partitions. apply led_pd_lookup.
  - unfold wf_key, in_u8. repeat constructor; lia.
  - intros path n. apply Permutation_sym, Permutation_rev.
  - by vm_compute.
Defined.

(** A request in batches (prewrite, flush, commit) is not partitioned by its shards: when
    the region of a key cannot be found, the key is dropped, and a commit that was sent only for
    the other keys is reported as done. *)
Definition batched_ops {Resp} (pd : list nat → nat → list Z → Result RegionWithLeader.t)
    (execute : list nat → list (list Z) → Result Resp) (key_errors : Resp → option (list Error))
    (region_error : Resp → option RegionError.t) : PlanOps (list (list Z)) (list (list Z)) Resp := {|
  plan_shards path keys :=
    default [] (batched_shards (pd path) id key_size TXN_COMMIT_BATCH_SIZE (S (length keys)) keys);
  plan_apply_shard shard _ := shard;
  plan_apply_store _ keys := Ok keys;
  plan_execute := execute;
  resp_key_errors := key_errors;
  resp_region_error := region_error
|}.

Lemma batched_request_incomplete :
  let pd path (t : nat) k := match t with O => led_pd path t k | _ => Err NoCurrentRegions end in
  multi_region_execute (batched_ops pd (λ _ keys, Ok keys) (λ _, None) (λ _, None)) sample_handler_env false
    5 [[97]; [120]] DEFAULT_REGION_BACKOFF = Done (Ok [Ok [[97]]]).
Proof. by vm_compute. Qed.

(** *** Termination *)

Section termination.
Context {P Shard Resp : Type} (ops : PlanOps P Shard Resp) (env : HandlerEnv) (preserve : bool).
(** [N] peers that can serve reads, [B] region errors that are settled without waiting. *)
Context (N B : nat).

(** The store answers the plan with a region error after which the client retries without waiting. *)
Definition settled_at_once (path : list nat) (plan : P) (region : RegionWithLeader.t) : bool :=
  match plan_execute ops path plan with
  | Ok resp =>
      match resp_region_error ops resp with
      | Some e => match (handle_region_error (answer_update_leader env path) e region).1 with Ok b => b | Err _ => false end
      | None => false
      end
  | Err _ => false
  end.

(** Rounds that may still follow at depth [len] of the retry tree. *)
Definition retries_left (len : nat) (b : Backoff.t) (attempt : nat) : nat :=
  Nat.max STALE_READ_MAX_RETRIES N - attempt + (B - len) + attempts_left b.

Section shard.
Context (retry : P → Backoff.t → nat → run (list (Result Resp)) * list Action) (m : nat) (path : list nat) (len : nat).
Context (Hlen : length path = S len).
Context (Hretry : ∀ plan b a, (retries_left (S len) b a < m)%nat → (retry plan b a).1 ≠ Running).

Lemma retry_after_wait b d ms b' a a' plan : (retries_left len b a ≤ m)%nat → (a ≤ a')%nat →
  next_delay_duration b d = Wait ms b' → (retry plan b' a').1 ≠ Running.
Proof. intros Hm Ha [Hw _]%wait_uses_attempt. apply Hretry. unfold retries_left in *. lia. Qed.

Lemma retry_early b a plan : (retries_left len b a ≤ m)%nat →
  (a < Nat.max STALE_READ_MAX_RETRIES N)%nat → (retry plan b (S a)).1 ≠ Running.
Proof. intros Hm Ha. apply Hretry. unfold retries_left in *. lia. Qed.

Lemma handle_other_error_ends plan v s b a a' e : (retries_left len b a ≤ m)%nat → (a ≤ a')%nat →
  (handle_other_error env id retry path plan v s b a' e).1 ≠ Running.
Proof.
  intros Hm Ha. unfold handle_other_error. destruct (next_delay_duration _ _) eqn:E; [done..|].
  cbn. eapply retry_after_wait; [exact Hm | lia | done].
Qed.

Lemma on_region_error_ends plan resp region stale b a e : (retries_left len b a ≤ m)%nat →
  (non_witness_peers region ≤ N)%nat → plan_execute ops path plan = Ok resp →
  resp_region_error ops resp = Some e → ((B < length path)%nat → settled_at_once path plan region = false) →
  (on_region_error env id retry path plan region stale b a e).1 ≠ Running.
Proof.
  intros Hm Hn Ex Er Hres. unfold settled_at_once in Hres. rewrite Ex, Er in Hres. unfold on_region_error.
  destruct (_ && stale).
  { destruct (Nat.leb_spec STALE_READ_MAX_RETRIES a); [done|]. apply retry_early; [done|lia]. }
  cbv zeta. set (pins := if _ || _ then _ else _).
  destruct (_ && _).
  { destruct (Nat.leb_spec (non_witness_peers region) (S a)); [done|]. cbn. apply retry_early; [done|lia]. }
  destruct (handle_region_error _ _ _) as [[[]|err] actions]; [| |done].
  { cbn in Hres |- *. apply Hretry. destruct (decide (B < length path)%nat) as [Hb|Hb].
    - by specialize (Hres Hb).
    - unfold retries_left in *. lia. }
  destruct (_ && _ && _) eqn:Eb.
  - cbn. apply retry_early; [done|]. apply andb_prop in Eb as [_ [_ Eb]%andb_prop].
    apply Nat.ltb_lt in Eb. lia.
  - destruct (next_delay_duration _ _) eqn:E; [done..|]. cbn. eapply retry_after_wait; [exact Hm | lia | done].
Qed.

Lemma on_execute_ends plan region stale b a : (retries_left len b a ≤ m)%nat →
  (non_witness_peers region ≤ N)%nat → ((B < length path)%nat → settled_at_once path plan region = false) →
  (on_execute ops env id retry path plan region stale b a).1 ≠ Running.
Proof.
  intros Hm Hn Hs. unfold on_execute. destruct (plan_execute ops path plan) as [resp|e] eqn:E.
  - destruct (resp_key_errors ops resp); [done|].
    destruct (resp_region_error ops resp) eqn:Er; [|done]. by eapply on_region_error_ends.
  - destruct (is_grpc_error e); [|done]. cbn. eapply handle_other_error_ends; [exact Hm | lia].
Qed.

(** Up to the execution, whatever it runs on. *)
Lemma prepare_shard_ends run_on plan region b a : (retries_left len b a ≤ m)%nat →
  (∀ plan' r s b', (attempts_left b' ≤ attempts_left b)%nat → non_witness_peers r = non_witness_peers region →
     (run_on plan' r s b').1 ≠ Running) →
  (prepare_shard ops env id retry run_on path plan region b a).1 ≠ Running.
Proof.
  intros Hm Hrun. unfold prepare_shard.
  assert (∀ plan v s e, (handle_other_error env id retry path plan v s b (S a) e).1 ≠ Running) as Hother
    by (intros; eapply handle_other_error_ends; [exact Hm | lia]).
  destruct (select_peer _ _ _ _) as [peer|e]; [|by destruct e].
  destruct (RegionWithLeader.leader region); [|done].
  cbv zeta. set (region' := RegionWithLeader.with_leader _ _).
  assert (∀ b' plan, (attempts_left b' ≤ attempts_left b)%nat →
    (run_on plan region' (rp_stale_read peer) b').1 ≠ Running) as Hexec by (intros; by apply Hrun).
  destruct (select_source_peer _ _ _) as [[?|?]|]; [|done|];
    (destruct (_ ≫= _) as [plan'|e']; [|by destruct e'];
     destruct (RegionWithLeader.get_store_id region'); [|by apply Hexec];
     destruct (take_pending_backoff _ _ _); [|by apply Hexec];
     destruct (next_delay_duration _ _) eqn:E; [done..|];
     apply Hexec; apply wait_uses_attempt in E as [E _]; lia).
Qed.

Lemma single_shard_ends plan region b a : (retries_left len b a ≤ m)%nat →
  (non_witness_peers region ≤ N)%nat → (∀ plan region, (B < length path)%nat → settled_at_once path plan region = false) →
  (single_shard_handler ops env id retry path plan region b a).1 ≠ Running.
Proof.
  intros Hm Hn Hs. apply prepare_shard_ends; [done|]. intros plan' r s b' Hb Hr.
  apply on_execute_ends; [unfold retries_left in *; lia | by rewrite Hr | auto].
Qed.
End shard.

Lemma collect_tasks_ends ts : ∀ acc : list (Result Resp), collect_tasks preserve ts acc ≠ Running.
Proof. induction ts as [|[| |[v|e]] ts IH]; intros acc; cbn; try done. by destruct preserve. Qed.

Lemma join_tasks_ends path (tasks : list (run (list (Result Resp)))) :
  Forall (λ t, t ≠ Running) tasks → join_tasks env preserve path tasks ≠ Running.
Proof.
  intros HF. unfold join_tasks. destruct (existsb _ _) eqn:Ex.
  - apply existsb_exists in Ex as (t & Ht%list_elem_of_In & E). rewrite Forall_forall in HF.
    specialize (HF t Ht). by destruct t.
  - pose proof (collect_tasks_ends (finished_tasks (order env path (length tasks)) tasks) []).
    by destruct (collect_tasks _ _ _) as [| |[]].
Qed.

Lemma single_plan_ends fuel :
  (∀ path plan shards s, mapM id (plan_shards ops path plan) = Ok shards → s ∈ shards → (non_witness_peers s.2 ≤ N)%nat) →
  (∀ path plan region, (B < length path)%nat → settled_at_once path plan region = false) → ∀ path plan b a, (retries_left (length path) b a < fuel)%nat →
  (single_plan_handler ops env preserve fuel path plan b a).1 ≠ Running.
Proof.
  intros Hpeers Hsettled. induction fuel as [|fuel IH]; intros path plan b a Hf; [lia|]. cbn [single_plan_handler].
  destruct (mapM id (plan_shards ops path plan)) as [shards|e] eqn:Es; [|done]. cbn [fst].
  apply join_tasks_ends. rewrite fmap_imap. apply Forall_forall. intros t Ht.
  apply list_elem_of_lookup_1 in Ht as [i Hi]. apply list_lookup_imap_Some in Hi as (s & Hs & ->). cbn.
  eapply (single_shard_ends _ fuel _ (length path)); [done | | lia | | by intros; apply Hsettled].
  - intros plan' b' a' Hm. apply IH. cbn. lia.
  - eapply Hpeers; [exact Es|]. by eapply list_elem_of_lookup_2.
Qed.
End termination.

(** The retries of a request end.  With any backoff, when regions have at most [N]
    peers and from depth [B] of the retry tree on no region error is settled without
    waiting, the execution over regions ends within the fuel that counts the
    retries which may still follow: the bounded ones of stale reads and replica
    switching, the [B] immediate ones, and the attempts of the backoff. *)
Theorem multi_region_execute_terminates {P Shard Resp} (ops : PlanOps P Shard Resp) env preserve N B
    fuel plan backoff :
  (∀ path plan shards s, mapM id (plan_shards ops path plan) = Ok shards → s ∈ shards →
     (non_witness_peers s.2 ≤ N)%nat) →
  (∀ path plan region, (B < length path)%nat → settled_at_once ops env path plan region = false) →
  (Nat.max STALE_READ_MAX_RETRIES N + B + attempts_left backoff < fuel)%nat →
  multi_region_execute ops env preserve fuel plan backoff ≠ Running.
Proof.
  intros Hn Hr Hf. apply (single_plan_ends ops env preserve N B _ Hn Hr). unfold retries_left. cbn. lia.
Qed.

(** Without a bound on the immediate retries there is none on the whole: a store that keeps
    naming a leader makes the client retry for ever, without waiting and without using
    up its backoff. *)
Definition not_leader_error : RegionError.t :=
  RegionError.mk EmptyString (Some (NotLeader.mk 1 (Some (Peer.mk 1 1 0 false))))
    None None None None None None None None None None None.

Lemma resolved_errors_retry_forever fuel : ∀ path attempt,
  (single_plan_handler (keys_ops led_pd (λ _ keys, Ok keys) (λ _, None) (λ _, Some not_leader_error))
     sample_handler_env false fuel path [[97]] DEFAULT_REGION_BACKOFF attempt).1 = Running.
Proof.
  induction fuel as [|fuel IH]; intros path attempt; [done|].
  cbn [single_plan_handler]. change (mapM id _) with
    (Ok (E:=Error) [([[97]] : list (list Z), led (Regions.sample_region 1 1 [] [109]))]).
  cbn -[join_tasks single_plan_handler]. specialize (IH (0%nat :: path) (S attempt)).
  destruct (single_plan_handler _ _ _ fuel _ _ _ _) as [r t]. cbn in IH |- *. by subst r.
Qed.

(** The regions of the groups are regions the lookup returned. *)
Lemma group_keys_regions pd {K} (key_of : K → Key) fuel : ∀ t l items g r,
  stream_fn (group_keys_step pd key_of) fuel t l = Some items → Ok (g, r) ∈ items → ∃ t k, pd t k = Ok r.
Proof.
  induction fuel as [|fuel IH]; intros t l items g r; [done|]. cbn [stream_fn].
  destruct l as [|k l]; cbn; [intros [= <-] ?%elem_of_nil; done|].
  destruct (pd t (key_of k)) as [r0|e] eqn:E; cbn.
  - destruct (take_region _ _ _ _) as [g0 rest]. destruct (stream_fn _ fuel _ _) as [its|] eqn:Es; [|done].
    intros [= <-] [H|H]%elem_of_cons; [simplify_eq; eauto | by eapply IH].
  - intros [= <-] H. by apply list_elem_of_singleton in H.
Qed.

Lemma multi_region_execute_terminates_witness :
  multi_region_execute sample_keys_ops sample_handler_env false 131 [[97]; [120]] DEFAULT_REGION_BACKOFF ≠ Running.
Proof.
  apply (multi_region_execute_terminates sample_keys_ops sample_handler_env false 0 0).
  - intros path keys shards [ks r] E Hs. change (plan_shards _ _ _) with
      (default [] (stream_fn (group_keys_step (led_pd path) id) (S (length keys)) 0 (sort_by_key id keys))) in E.
    destruct (stream_fn _ _ _ _) as [items|] eqn:Ei; cbn [default] in E; [|injection E as <-; by apply elem_of_nil in Hs].
    eapply mapM_ok_elem in E; [|exact Hs]. eapply group_keys_regions in Ei as (t & k & Ek); [|exact E].
    unfold led_pd, sample_pd in Ek. destruct (key_ltb _ _); injection Ek as <-; vm_compute; lia.
  - intros path keys region _. unfold settled_at_once. cbn. by case_bool_decide.
  - apply Nat.ltb_lt. by vm_compute.
Defined.

Lemma handle_region_error_refreshes_witness :
  ∃ a, a ∈ [AUpdateLeader (RegionVerId.mk 1 1 1) (Peer.mk 1 1 0 false)] ∧ refreshes (RegionVerId.mk 1 1 1) a.
Proof.
  apply (handle_region_error_refreshes (Ok ()) not_leader_error (Regions.sample_region 1 1 [] [109]) (Ok true)).
  by vm_compute.
Defined.
