(* ===== verification/Semaphores.v ===== *)
(** * The semaphore of the request plans

    The plans of src/src/request/plan.rs bound their requests in flight with a semaphore of the runtime (tokio::sync::Semaphore),
    whose code is not part of the repository.  Here it is a parameter: [Semaphore.Ops] are its operations, [Semaphore.Laws] what its
    documentation promises of them.  [Semaphore.acquire], [release] and [drop_tasks] are what the tasks of a plan do with it: they take
    a permit or wait for one, give it back, and give it back when they are dropped.  The invariant of permits and tasks is proved
    from the laws, for any tasks that say who holds a permit and who waits ([Users]); Concurrency.v uses it for the
    handlers of a request over regions, AllStores.v for those of a request to all stores.  [Semaphore.fifo] is a semaphore that
    has the laws, for the examples. *)

From stdpp Require Import gmap.
From S2P Require Import Prelude.

(** ** Sums over the tasks *)

Section totals.
Context {K V : Type} `{Countable K}.

Definition total (f : K → V → nat) (m : gmap K V) : nat := sum_list_with (λ kv, f kv.1 kv.2) (map_to_list m).

Lemma total_fresh f m k v : m !! k = None → total f (<[k := v]> m) = (f k v + total f m)%nat.
Proof. intros Hk. unfold total. by rewrite map_to_list_insert. Qed.

Lemma total_update f m k v v' : m !! k = Some v → (total f (<[k := v']> m) + f k v = total f m + f k v')%nat.
Proof.
  intros Hk. rewrite <- (insert_delete_id m k v Hk), insert_insert_eq. rewrite !total_fresh by apply lookup_delete_eq. lia.
Qed.

Lemma total_filter f (p : K → bool) m :
  (total f (filter (λ kv, p kv.1 = true) m) + total f (filter (λ kv, p kv.1 = false) m) = total f m)%nat.
Proof.
  induction m as [|k v m Hk IH] using map_ind; [by rewrite !map_filter_empty|].
  rewrite (total_fresh f m) by done. destruct (p k) eqn:E.
  - rewrite map_filter_insert_True, (map_filter_insert_not (λ kv, p kv.1 = false)) by (cbn; congruence).
    rewrite total_fresh; [lia|]. apply map_lookup_filter_None. by left.
  - rewrite map_filter_insert_not, (map_filter_insert_True (λ kv, p kv.1 = false)) by (cbn; congruence).
    rewrite total_fresh; [lia|]. apply map_lookup_filter_None. by left.
Qed.

Lemma total_pos f m : (0 < total f m)%nat → ∃ k v, m !! k = Some v ∧ (0 < f k v)%nat.
Proof.
  induction m as [|k v m Hk IH] using map_ind; [unfold total; rewrite map_to_list_empty; cbn; lia|].
  rewrite total_fresh by done. destruct (f k v) eqn:E.
  - intros (k' & v' & Hk' & Hv')%IH. exists k', v'. rewrite lookup_insert_ne; [done | congruence].
  - intros _. exists k, v. rewrite lookup_insert_eq, E. split; [done | lia].
Qed.

Lemma total_le f m : ∀ m', (∀ k, match m !! k with
    | Some v => ∃ v', m' !! k = Some v' ∧ (f k v' ≤ f k v)%nat
    | None => m' !! k = None
    end) → (total f m' ≤ total f m)%nat.
Proof.
  induction m as [|k v m Hk IH] using map_ind; intros m' Hm.
  - assert (m' = ∅) as ->; [|done]. apply map_empty. intros k. specialize (Hm k). by rewrite lookup_empty in Hm.
  - pose proof (Hm k) as Hv. rewrite lookup_insert_eq in Hv. destruct Hv as (v' & Hv' & Hle).
    rewrite <- (insert_delete_id m' k v' Hv'), !total_fresh by (done || apply lookup_delete_eq).
    enough (total f (delete k m') ≤ total f m)%nat by lia. apply IH. intros k'. destruct (decide (k = k')) as [<-|Hne].
    + rewrite Hk. apply lookup_delete_eq.
    + rewrite lookup_delete_ne by done. specialize (Hm k'). by rewrite lookup_insert_ne in Hm.
Qed.
End totals.

(** ** Orders of completion *)

(** The tasks taken so far, then the others. *)
Definition continued (l : list nat) (n : nat) : list nat := l ++ List.filter (λ i, negb (bool_decide (i ∈ l))) (seq 0 n).

Section orders.
Context (l : list nat) (n : nat) (Hl : NoDup l) (Hin : ∀ i, i ∈ l → (i < n)%nat).

Lemma taken_submseteq : l ⊆+ seq 0 n.
Proof. apply NoDup_submseteq; [done|]. intros i Hi. apply elem_of_seq. apply Hin in Hi. lia. Qed.

Lemma taken_length : (length l ≤ n)%nat.
Proof. pose proof (submseteq_length _ _ taken_submseteq) as H. by rewrite length_seq in H. Qed.

(** As long as not all are taken, one is left. *)
Lemma task_left : length l ≠ n → ∃ i, (i < n)%nat ∧ i ∉ l.
Proof.
  intros Hn. pose proof taken_length. destruct (decide (Forall (λ i, i ∈ l) (seq 0 n))) as [HF|HF].
  - assert (seq 0 n ⊆+ l) as Hs.
    { apply NoDup_submseteq; [apply NoDup_seq|]. by intros i Hi; rewrite Forall_forall in HF; apply HF. }
    apply submseteq_length in Hs. rewrite length_seq in Hs. lia.
  - apply not_Forall_Exists in HF; [|apply _]. apply Exists_exists in HF as (i & Hi%elem_of_seq & Hn'). exists i. split; [lia | done].
Qed.

Lemma continued_all : continued l n ≡ₚ seq 0 n.
Proof.
  apply NoDup_Permutation; [apply NoDup_app; split_and!; [done | |] | apply NoDup_seq |].
  - intros i Hi. rewrite list_elem_of_In, filter_In. intros [_ Hf]. by rewrite bool_decide_eq_true_2 in Hf.
  - apply NoDup_ListNoDup, List.NoDup_filter, seq_NoDup.
  - intros i. unfold continued.
    rewrite elem_of_app, (list_elem_of_In (List.filter _ _)), filter_In, <- list_elem_of_In, negb_true_iff, bool_decide_eq_false, elem_of_seq.
    specialize (Hin i). destruct (decide (i ∈ l)) as [Hi|Hi]; [specialize (Hin Hi)|]; naive_solver lia.
Qed.

Lemma continued_full : length l = n → continued l n = l.
Proof.
  intros E. pose proof (Permutation_length continued_all) as H. unfold continued in *. rewrite length_app, length_seq in H.
  destruct (List.filter _ _); [apply app_nil_r | cbn in H; lia].
Qed.
End orders.

(** ** The semaphore *)

Module Semaphore.

(** The operations of a semaphore, and two observations of its state. *)
Class Ops (K : Type) := {
  t : Type;
  new : nat → t;
  available : t → nat;
  waiters : t → list K;
  (** the task [k] asks for a permit: whether it has it at once *)
  ask : K → t → bool * t;
  (** a permit comes back: which task gets it *)
  give : t → option K * t;
  (** the tasks that meet a condition stop waiting *)
  leave : (K → bool) → t → t
}.

(** What the documentation of the semaphore promises: it starts with its permits available; a permit that is available is given at
    once, otherwise the task waits; permits are given in the order in which they were asked for, so that a permit that comes back goes
    to the first waiter, also when its task is not polled before others ask; a task that stops waiting loses its place. *)
Class Laws {K : Type} (Sem : Ops K) : Prop := {
  new_available n : available (new n) = n;
  new_waiters n : waiters (new n) = [];
  ask_spec k s : match ask k s with
    | (true, s') => available s = S (available s') ∧ waiters s' = waiters s
    | (false, s') => available s = 0%nat ∧ available s' = 0%nat ∧ waiters s' = waiters s ++ [k]
    end;
  give_spec s : match give s with
    | (None, s') => waiters s = [] ∧ waiters s' = [] ∧ available s' = S (available s)
    | (Some k, s') => waiters s = k :: waiters s' ∧ available s' = available s
    end;
  leave_spec gone s : available (leave gone s) = available s ∧
    waiters (leave gone s) = List.filter (λ k, negb (gone k)) (waiters s)
}.

Section semaphore.
Context {K V : Type} `{Countable K} {Sem : Ops K}.

(** What the semaphore means to its users: who holds a permit, who waits, and what a waiter becomes that gets one. *)
Record Users := mkUsers { holds : V → bool; queued : V → bool; assign : V → V }.
Context (users : Users).

(** [permits.acquire()] of the task [k]: it goes on as [granted], or waits as [waiting]. *)
Definition acquire (k : K) (granted waiting : V) (s : t * gmap K V) : t * gmap K V :=
  match ask k s.1 with
  | (true, s1) => (s1, <[k := granted]> s.2)
  | (false, s1) => (s1, <[k := waiting]> s.2)
  end.

(** A permit is dropped. *)
Definition release (s : t * gmap K V) : t * gmap K V :=
  match give s.1 with
  | (None, s1) => (s1, s.2)
  | (Some k, s1) => (s1, alter (assign users) k s.2)
  end.

Fixpoint releases (n : nat) (s : t * gmap K V) : t * gmap K V :=
  match n with O => s | S n => releases n (release s) end.

Definition holders (m : gmap K V) : nat := total (λ _ v, Nat.b2n (holds users v)) m.

(** The futures of the tasks [dropped] are dropped: they leave the queue and return their permits.  (Dropped one by one, in any order,
    the permits pass through those of them that still wait, and come to the same.) *)
Definition drop_tasks (dropped : K → bool) (s : t * gmap K V) : t * gmap K V :=
  releases (holders (filter (λ kv, dropped kv.1 = true) s.2))
    (leave dropped s.1, filter (λ kv, dropped kv.1 = false) s.2).

Class Lawful : Prop := {
  queued_free v : queued users v = true → holds users v = false;
  assign_holds v : queued users v = true → holds users (assign users v) = true;
  assign_leaves v : queued users v = true → queued users (assign users v) = false
}.

(** Of [cap] permits, [k] are on their way back. *)
Record inv (cap k : nat) (s : t * gmap K V) : Prop := {
  inv_permits : (available s.1 + holders s.2 + k = cap)%nat;
  inv_waiters : ∀ q, q ∈ waiters s.1 ↔ ∃ v, s.2 !! q = Some v ∧ queued users v = true;
  inv_nodup : NoDup (waiters s.1);
  inv_eager : waiters s.1 ≠ [] → available s.1 = 0%nat
}.

Lemma holders_pos m : (0 < holders m)%nat → ∃ k v, m !! k = Some v ∧ holds users v = true.
Proof. intros (k & v & Hk & Hv)%total_pos. exists k, v. split; [done|]. destruct (holds users v); [done | cbn in Hv; lia]. Qed.

Context {laws : Laws Sem} {lawful : Lawful}.

Lemma inv_new cap m : (∀ q v, m !! q = Some v → holds users v = false ∧ queued users v = false) → inv cap 0 (new cap, m).
Proof.
  intros Hm. split; cbn; rewrite ?new_available, ?new_waiters.
  - enough (holders m = 0%nat) by lia. destruct (holders m) eqn:E; [done|].
    destruct (holders_pos m) as (k & v & Hk & Hv); [lia|]. destruct (Hm k v Hk). congruence.
  - intros q. split; [by intros ?%elem_of_nil | intros (v & [_ ?]%Hm & ?); congruence].
  - constructor.
  - done.
Qed.

(** A task changes without the semaphore, or returns its permit. *)
Lemma inv_set cap k k' s m q v v' : inv cap k (s, m) → m !! q = Some v →
  queued users v = false → queued users v' = false →
  (k' + Nat.b2n (holds users v') = k + Nat.b2n (holds users v))%nat → inv cap k' (s, <[q := v']> m).
Proof.
  intros [Hp Hw Hn He] Hq Hv Hv' Hk. split; cbn in *; [| | done | done].
  - pose proof (total_update (λ _ v, Nat.b2n (holds users v)) m q v v' Hq). unfold holders in *. lia.
  - intros q'. rewrite Hw. destruct (decide (q' = q)) as [->|]; [|by rewrite lookup_insert_ne].
    rewrite Hq, lookup_insert_eq. split; intros (w & [= <-] & ?); congruence.
Qed.

(** A new task. *)
Lemma inv_fresh cap k s m q v : inv cap k (s, m) → m !! q = None →
  holds users v = false → queued users v = false → inv cap k (s, <[q := v]> m).
Proof.
  intros [Hp Hw Hn He] Hq Hh Hv. split; cbn in *; [| | done | done].
  - unfold holders in *. rewrite total_fresh, Hh by done. done.
  - intros q'. rewrite Hw. destruct (decide (q' = q)) as [->|]; [|by rewrite lookup_insert_ne].
    rewrite Hq, lookup_insert_eq. split; intros (w & [=] & ?); simplify_eq; congruence.
Qed.

Lemma inv_acquire cap k s m q v granted waiting : inv cap k (s, m) → m !! q = Some v →
  queued users v = false → holds users v = false → queued users granted = false → holds users granted = true →
  queued users waiting = true → inv cap k (acquire q granted waiting (s, m)).
Proof.
  intros [Hp Hw Hn He] Hq Hv Hh Hg Hgh Hwt. unfold acquire. cbn in *.
  pose proof (total_update (λ _ v, Nat.b2n (holds users v)) m q v granted Hq) as Hug.
  pose proof (total_update (λ _ v, Nat.b2n (holds users v)) m q v waiting Hq) as Huw.
  cbn beta in Hug, Huw. rewrite Hh, Hgh in Hug. rewrite Hh, (queued_free waiting) in Huw by done. cbn in Hug, Huw. unfold holders in *.
  assert (q ∉ waiters s) as Hnq by (rewrite Hw, Hq; intros (w & [= <-] & ?); congruence).
  pose proof (ask_spec q s) as Hask. destruct (ask q s) as [[] s']; split; cbn in *.
  - unfold holders. lia.
  - intros q'. rewrite (proj2 Hask), Hw. destruct (decide (q' = q)) as [->|]; [|by rewrite lookup_insert_ne].
    rewrite Hq, lookup_insert_eq. split; intros (w & [= <-] & ?); congruence.
  - by rewrite (proj2 Hask).
  - intros Hne. rewrite (proj2 Hask) in Hne. specialize (He Hne). lia.
  - unfold holders. lia.
  - intros q'. rewrite (proj2 (proj2 Hask)), elem_of_app, list_elem_of_singleton, Hw. destruct (decide (q' = q)) as [->|].
    + rewrite lookup_insert_eq. split; [eauto | auto].
    + rewrite lookup_insert_ne by done. naive_solver.
  - rewrite (proj2 (proj2 Hask)). apply NoDup_app. split_and!; [done | | apply NoDup_singleton]. by intros q' ? ->%list_elem_of_singleton.
  - intros _. apply Hask.
Qed.

Lemma alter_as_insert (f : V → V) (m : gmap K V) q v : m !! q = Some v → alter f q m = <[q := f v]> m.
Proof.
  intros Hq. apply map_eq. intros i. destruct (decide (q = i)) as [<-|].
  - by rewrite lookup_alter_eq, lookup_insert_eq, Hq.
  - by rewrite lookup_alter_ne, lookup_insert_ne.
Qed.

Lemma inv_release cap k s : inv cap (S k) s → inv cap k (release s).
Proof.
  destruct s as [sem m]. intros [Hp Hw Hn He]. unfold release. cbn in *.
  pose proof (give_spec sem) as Hgive. destruct (give sem) as [[q|] sem'].
  2: { destruct Hgive as (Hw0 & Hw' & Ha). split; cbn; rewrite ?Hw', ?Ha; [lia | by rewrite <- Hw0 | constructor | done]. }
  destruct Hgive as [Hw' Ha]. rewrite Hw' in *.
  destruct (proj1 (Hw q)) as (v & Hq & Hv); [by apply elem_of_cons; left|].
  apply NoDup_cons in Hn as [Hnq Hn]. split; cbn.
  - rewrite (alter_as_insert (assign users) m q v Hq). pose proof (total_update (λ _ v, Nat.b2n (holds users v)) m q v (assign users v) Hq) as Hu. cbn beta in Hu.
    rewrite (queued_free v), (assign_holds v) in Hu by done. cbn in Hu. unfold holders in *. lia.
  - intros q'. destruct (decide (q' = q)) as [->|Hqq].
    + rewrite lookup_alter_eq, Hq. split; [done|]. intros (v' & [= <-] & Hv'). by rewrite assign_leaves in Hv'.
    + rewrite lookup_alter_ne, <- Hw, elem_of_cons by done. naive_solver.
  - done.
  - intros _. rewrite Ha. by apply He.
Qed.

Lemma inv_releases cap n : ∀ k s, inv cap (n + k) s → inv cap k (releases n s).
Proof. induction n as [|n IH]; intros k s Hs; [done|]. by apply IH, inv_release. Qed.

(** The remaining tasks, with the permits of the dropped ones on their way back. *)
Lemma inv_drop_filter cap k dropped s : inv cap k s →
  inv cap (holders (filter (λ kv, dropped kv.1 = true) s.2) + k)
    (leave dropped s.1, filter (λ kv, dropped kv.1 = false) s.2).
Proof.
  destruct s as [sem m]. intros [Hp Hw Hn He]. cbn in *. pose proof (total_filter (λ _ v, Nat.b2n (holds users v)) dropped m) as Hf.
  destruct (leave_spec dropped sem) as [Ha Hl]. unfold holders in *. split; cbn; rewrite ?Ha, ?Hl.
  - unfold holders; lia.
  - intros q. rewrite list_elem_of_In, filter_In, <- list_elem_of_In, Hw, negb_true_iff. setoid_rewrite map_lookup_filter_Some. naive_solver.
  - by apply NoDup_ListNoDup, List.NoDup_filter, NoDup_ListNoDup.
  - intros Hne. apply He. by intros E; rewrite E in Hne.
Qed.

Lemma inv_drop cap k dropped s : inv cap k s → inv cap k (drop_tasks dropped s).
Proof. intros Hs. by apply inv_releases, inv_drop_filter. Qed.

(** What releasing and dropping do to the tasks. *)
Definition assigned (v v' : V) : Prop := v' = v ∨ (queued users v = true ∧ v' = assign users v).

Lemma releases_lookup cap n : ∀ k s q, inv cap (n + k) s →
  match s.2 !! q with
  | Some v => ∃ v', (releases n s).2 !! q = Some v' ∧ assigned v v'
  | None => (releases n s).2 !! q = None
  end.
Proof.
  induction n as [|n IH]; intros k s q Hs; cbn.
  { destruct (s.2 !! q) as [v|]; [|done]. exists v. split; [done | by left]. }
  specialize (IH k (release s) q (inv_release _ _ _ Hs)). destruct s as [sem m]. cbn in *.
  unfold release in *. cbn in *. pose proof (give_spec sem) as Hgive. destruct (give sem) as [[q0|] sem']; cbn in *; [|done].
  destruct (inv_waiters _ _ _ Hs q0) as [Hw _]. cbn in Hw. rewrite (proj1 Hgive) in Hw.
  destruct Hw as (v0 & Hq0 & Hv0); [by apply elem_of_cons; left|].
  destruct (decide (q0 = q)) as [->|Hne].
  - rewrite lookup_alter_eq, Hq0 in IH. rewrite Hq0. cbn in IH. destruct IH as (v' & Hv' & [->|[Hq' _]]).
    + exists (assign users v0). split; [done | by right].
    + by rewrite assign_leaves in Hq'.
  - by rewrite lookup_alter_ne in IH by done.
Qed.

Lemma drop_lookup cap k (dropped : K → bool) s q : inv cap k s →
  match s.2 !! q with
  | Some v => if dropped q then (drop_tasks dropped s).2 !! q = None
              else ∃ v', (drop_tasks dropped s).2 !! q = Some v' ∧ assigned v v'
  | None => (drop_tasks dropped s).2 !! q = None
  end.
Proof.
  intros Hs. pose proof (releases_lookup cap _ k _ q (inv_drop_filter _ _ dropped _ Hs)) as Hr. cbn [snd] in Hr.
  unfold drop_tasks. destruct (filter (λ kv : K * V, dropped kv.1 = false) s.2 !! q) as [v|] eqn:E.
  - apply map_lookup_filter_Some in E as [-> E]. cbn in E. by rewrite E.
  - rewrite Hr. destruct (s.2 !! q) as [v|] eqn:Eq; [|done]. apply map_lookup_filter_None in E as [E|E]; [congruence|].
    specialize (E v Eq). cbn in E. by apply not_false_iff_true in E as ->.
Qed.
End semaphore.

(** A counter and a queue. *)
Definition fifo (K : Type) : Ops K := {|
  t := nat * list K;
  new n := (n, []);
  available := fst;
  waiters := snd;
  ask k s := match s.1 with S n => (true, (n, s.2)) | O => (false, (0%nat, s.2 ++ [k])) end;
  give s := match s.2 with k :: w => (Some k, (s.1, w)) | [] => (None, (S s.1, [])) end;
  leave gone s := (s.1, List.filter (λ k, negb (gone k)) s.2)
|}.
Lemma fifo_laws K : Laws (fifo K).
Proof. split; [done | done | by intros k [[|n] w] | by intros [n [|k w]] | done]. Qed.
End Semaphore.
