(* ===== verification/Concurrency.v ===== *)
(** * The interleaved execution over regions (src/src/request/plan.rs)

    Plans.v runs the shards of a request one after the other.  The code runs them as one future: a plan handler keeps the
    futures of its shards in a [FuturesUnordered] and takes their results in the order in which they end; a shard
    handler holds a permit of one semaphore (Semaphores.v), shared by the whole tree of retries, while it executes; a handler
    that returns early drops the futures it still has, with the permits and the places in the queue they hold.

    - [MultiRegion]: the tree of handlers as a state machine over paths, one atomic step per [Event], and its invariants.
    - the theorems: the permits bound the requests in flight and none is lost; some handler can always move until the
      request ends; every schedule ends; and every schedule gives a result of the sequential execution. *)

From stdpp Require Import gmap.
From S2P Require Import Prelude Keys Proto Errors Regions Sharding Backoffs Requests Plans Semaphores.

(** ** What a shard handler decides *)

Section decisions.
Context {P Shard Resp : Type} (ops : PlanOps P Shard Resp) (env : HandlerEnv).

Abbreviation Results := (list (Result Resp)) (only parsing).

(** A shard handler returns, or handles its plan again. *)
Inductive HandlerEnd := Returns (r : run Results) | Again (plan : P) (backoff : Backoff.t) (attempt : nat).

(** What a shard handler executes with its permit. *)
Record Ready := mkReady {
  r_plan : P; r_region : RegionWithLeader.t; r_stale_read : bool; r_backoff : Backoff.t; r_attempt : nat
}.

Inductive Prepared := Decided (d : HandlerEnd) | Prepares (r : Ready).

Definition prepare_decision (path : list nat) (plan : P) (region : RegionWithLeader.t) (backoff : Backoff.t)
    (attempt : nat) : Prepared :=
  (prepare_shard ops env (Decided ∘ Returns) (λ plan backoff attempt, (Decided (Again plan backoff attempt), []))
     (λ plan region stale_read backoff, (Prepares (mkReady plan region stale_read backoff attempt), []))
     path plan region backoff attempt).1.

Definition execute_decision (path : list nat) (r : Ready) : HandlerEnd :=
  (on_execute ops env Returns (λ plan backoff attempt, (Again plan backoff attempt, []))
     path (r_plan r) (r_region r) (r_stale_read r) (r_backoff r) (r_attempt r)).1.

(** The handlers do nothing with what they end with. *)
Section natural.
Context {A B : Type} (f : A → B) (ret : run Results → A).
Context (retry : P → Backoff.t → nat → A * list Action) (retry' : P → Backoff.t → nat → B * list Action).
Context (Hretry : ∀ p b a, (retry' p b a).1 = f (retry p b a).1).

Lemma handle_other_error_natural path plan v s b a e :
  (handle_other_error env (f ∘ ret) retry' path plan v s b a e).1 = f (handle_other_error env ret retry path plan v s b a e).1.
Proof. unfold handle_other_error. case_match; [done | done | apply Hretry]. Qed.

Lemma on_region_error_natural path plan region stale b a e :
  (on_region_error env (f ∘ ret) retry' path plan region stale b a e).1 =
  f (on_region_error env ret retry path plan region stale b a e).1.
Proof.
  unfold on_region_error. cbv zeta. destruct (_ && stale); [case_match; [done | apply Hretry]|].
  destruct (_ && _); [case_match; [done | apply Hretry]|].
  destruct (handle_region_error _ _ _) as [[[]|err] actions]; [apply Hretry | | done].
  destruct (_ && _ && _); [apply Hretry|]. case_match; [done | done | apply Hretry].
Qed.

Lemma on_execute_natural path plan region stale b a :
  (on_execute ops env (f ∘ ret) retry' path plan region stale b a).1 = f (on_execute ops env ret retry path plan region stale b a).1.
Proof.
  unfold on_execute. destruct (plan_execute ops path plan) as [resp|e].
  - destruct (resp_key_errors ops resp); [done|]. destruct (resp_region_error ops resp); [|done].
    apply on_region_error_natural.
  - destruct (is_grpc_error e); [|done]. apply handle_other_error_natural.
Qed.

Lemma prepare_shard_natural run_on run_on' path plan region b a :
  (∀ p r s b, (run_on' p r s b).1 = f (run_on p r s b : A * list Action).1) →
  (prepare_shard ops env (f ∘ ret) retry' run_on' path plan region b a).1 =
  f (prepare_shard ops env ret retry run_on path plan region b a).1.
Proof.
  intros Hrun. unfold prepare_shard. cbv zeta.
  destruct (select_peer _ _ _ _) as [peer|e]; [|destruct e; try done; apply handle_other_error_natural].
  destruct (RegionWithLeader.leader region); [|apply handle_other_error_natural].
  destruct (select_source_peer _ _ _) as [[?|?]|]; [|done|];
    (destruct (_ ≫= _) as [plan'|e']; [|destruct e'; try done; apply handle_other_error_natural];
     repeat case_match; try done; apply Hrun).
Qed.
End natural.

(** What follows a decision. *)
Definition follow (retry : P → Backoff.t → nat → run Results) (d : HandlerEnd) : run Results :=
  match d with Returns r => r | Again plan backoff attempt => retry plan backoff attempt end.

Lemma execute_decision_follow retry path r :
  (on_execute ops env id retry path (r_plan r) (r_region r) (r_stale_read r) (r_backoff r) (r_attempt r)).1 =
  follow (λ p b a, (retry p b a).1) (execute_decision path r).
Proof. unfold execute_decision. by rewrite <- (on_execute_natural (follow (λ p b a, (retry p b a).1)) Returns _ retry). Qed.

Lemma prepare_decision_follow retry path plan region b a :
  (single_shard_handler ops env id retry path plan region b a).1 =
  match prepare_decision path plan region b a with
  | Decided d => follow (λ p b a, (retry p b a).1) d
  | Prepares r =>
      (on_execute ops env id retry path (r_plan r) (r_region r) (r_stale_read r) (r_backoff r) (r_attempt r)).1
  end.
Proof.
  unfold prepare_decision, single_shard_handler.
  apply (prepare_shard_natural (λ o, match o with
    | Decided d => follow (λ p b a, (retry p b a).1) d
    | Prepares r => (on_execute ops env id retry path (r_plan r) (r_region r) (r_stale_read r) (r_backoff r) (r_attempt r)).1
    end) (Decided ∘ Returns)); done.
Qed.

(** A handler that returns has a result. *)
Definition ended (d : HandlerEnd) : Prop := d ≠ Returns Running.

Lemma handle_other_error_decides {A} (g : A → Prop) ret retry path plan v s b a e :
  (∀ r, r ≠ Running → g (ret r)) → (∀ p b a, g (retry p b a).1) → g (@handle_other_error P Resp env A ret retry path plan v s b a e).1.
Proof. intros Hret Hretry. unfold handle_other_error. case_match; [by apply Hret | by apply Hret | apply Hretry]. Qed.

Lemma execute_decision_ended path r : ended (execute_decision path r).
Proof.
  unfold execute_decision, on_execute. destruct (plan_execute _ _ _) as [resp|e].
  - destruct (resp_key_errors ops resp); [done|]. destruct (resp_region_error ops resp); [|done].
    unfold on_region_error. cbv zeta. destruct (_ && _); [by case_match|]. destruct (_ && _); [by case_match|].
    destruct (handle_region_error _ _ _) as [[[]|err] actions]; [done | | done].
    destruct (_ && _ && _); [done|]. by case_match.
  - destruct (is_grpc_error e); [|done]. apply (handle_other_error_decides ended); [by intros r' Hr [= ->] | done].
Qed.

Lemma prepare_decision_ended path plan region b a d : prepare_decision path plan region b a = Decided d → ended d.
Proof.
  set (g o := ∀ d, o = Decided d → ended d). assert (∀ v s b a e, g (handle_other_error env (Decided ∘ Returns)
    (λ plan backoff attempt, (Decided (Again plan backoff attempt), [])) path plan v s b a e).1) as Hother.
  { intros. apply (handle_other_error_decides g); [intros r Hr d' [= <-] [= ->]; done | by intros p' b' a' d' [= <-]]. }
  revert d. change (g (prepare_decision path plan region b a)). unfold prepare_decision, prepare_shard. cbv zeta.
  assert (∀ r, r ≠ Running → g (Decided (Returns r))) as Hret by (intros r Hr d' [= <-] [= ->]; done).
  destruct (select_peer _ _ _ _) as [peer|e]; [|destruct e; by try apply Hret].
  destruct (RegionWithLeader.leader region); [|apply Hother].
  destruct (select_source_peer _ _ _) as [[?|?]|]; [|by apply Hret|];
    (destruct (_ ≫= _) as [plan'|e']; [|destruct e'; by try apply Hret];
     repeat case_match; cbn; by try apply Hret).
Qed.
End decisions.

Arguments Returns {P Resp} _.
Arguments Again {P Resp} _ _ _.
Arguments mkReady {P} _ _ _ _ _.
Arguments r_plan {P} _.
Arguments r_region {P} _.
Arguments r_stale_read {P} _.
Arguments r_backoff {P} _.
Arguments r_attempt {P} _.
Arguments Decided {P Resp} _.
Arguments Prepares {P Resp} _.

(** ** The tree of handlers *)

Module MultiRegion.
Section multi_region.
Context {P Shard Resp : Type} (ops : PlanOps P Shard Resp) (env : HandlerEnv) (preserve_region_results : bool).
Context {Sem : Semaphore.Ops (list nat)}.

Abbreviation Results := (list (Result Resp)) (only parsing).
Abbreviation path := (list nat) (only parsing).

(** A plan handler that awaits its shards: what it handles, the shards whose results it took, in that order, and these. *)
Record Join := mkJoin {
  j_plan : P; j_backoff : Backoff.t; j_attempt : nat; j_shards : list (Shard * RegionWithLeader.t);
  j_collected : list nat; j_results : Results
}.

Inductive Stage :=
| Planning (plan : P) (backoff : Backoff.t) (attempt : nat)      (** [single_plan_handler] is called *)
| Joining (j : Join)                                             (** [tasks.next().await] *)
| Preparing (plan : P) (region : RegionWithLeader.t) (backoff : Backoff.t) (attempt : nat)
                                                                 (** [single_shard_handler] is called *)
| Acquiring (r : Ready (P:=P))                                   (** before [permits.acquire()] *)
| Queued (r : Ready (P:=P))                                      (** in [permits.acquire().await] *)
| Assigned (r : Ready (P:=P))                                    (** it has a permit and was not polled since *)
| Executing (r : Ready (P:=P))                                   (** [plan.execute().await] *)
| Finished (r : run Results).

Definition users : Semaphore.Users (V:=Stage) := {|
  Semaphore.holds st := match st with Assigned _ | Executing _ => true | _ => false end;
  Semaphore.queued st := match st with Queued _ => true | _ => false end;
  Semaphore.assign st := match st with Queued r => Assigned r | st => st end
|}.

#[global] Instance users_lawful : Semaphore.Lawful users.
Proof. split; by intros []. Qed.

(** The handlers by their paths.  [joined] records in which order a plan handler that ended took the results of its shards,
    and how many shards it had. *)
Record State := mkState {
  permits : Semaphore.t (K:=path); tasks : gmap path Stage; joined : gmap path (nat * list nat)
}.

Definition set_stage (p : path) (st : Stage) (s : State) : State :=
  mkState (permits s) (<[p := st]> (tasks s)) (joined s).

Definition with_sys (sys : Semaphore.t (K:=path) * gmap path Stage) (s : State) : State := mkState sys.1 sys.2 (joined s).

(** A handler that ended a round of a shard. *)
Definition decide_stage (d : HandlerEnd (P:=P) (Resp:=Resp)) : Stage :=
  match d with Returns r => Finished r | Again plan backoff attempt => Planning plan backoff attempt end.

(** [single_shard_handler] of each shard: the futures are made, not polled. *)
Fixpoint spawn (p : path) (i : nat) (children : list Stage) (m : gmap path Stage) : gmap path Stage :=
  match children with [] => m | c :: children => <[i :: p := c]> (spawn p (S i) children m) end.

Definition shard_stages (plan : P) (backoff : Backoff.t) (attempt : nat) (shards : list (Shard * RegionWithLeader.t)) : list Stage :=
  map (λ s, Preparing (plan_apply_shard ops s.1 plan) s.2 backoff attempt) shards.

Definition below (p q : path) : bool := bool_decide (p `suffix_of` q ∧ p ≠ q).

(** The plan handler at [p] returns; the futures it has left are dropped. *)
Definition finish (p : path) (n : nat) (collected : list nat) (r : run Results) (s : State) : State :=
  let sys := Semaphore.drop_tasks users (below p) (permits s, <[p := Finished r]> (tasks s)) in
  mkState sys.1 sys.2 (<[p := (n, collected)]> (joined s)).

(** The future of the handler at [p] is polled, and gets to its next await. *)
Definition poll (p : path) (s : State) : option State :=
  st ← tasks s !! p;
  match st with
  | Planning plan backoff attempt =>
      match mapM id (plan_shards ops p plan) with
      | Err e => Some (set_stage p (Finished (Done (Err e))) s)
      | Ok shards =>
          Some (mkState (permits s)
            (spawn p 0 (shard_stages plan backoff attempt shards)
               (<[p := Joining (mkJoin plan backoff attempt shards [] [])]> (tasks s))) (joined s))
      end
  | Preparing plan region backoff attempt =>
      Some (set_stage p match prepare_decision ops env p plan region backoff attempt with
                        | Decided d => decide_stage d
                        | Prepares r => Acquiring r
                        end s)
  | Acquiring r => Some (with_sys (Semaphore.acquire p (Executing r) (Queued r) (permits s, tasks s)) s)
  | Assigned r => Some (set_stage p (Executing r) s)
  | Executing r =>
      Some (with_sys (Semaphore.release users (permits s, <[p := decide_stage (execute_decision ops env p r)]> (tasks s))) s)
  | Joining j =>
      if (length (j_collected j) =? length (j_shards j))%nat
      then Some (finish p (length (j_shards j)) (j_collected j) (Done (Ok (j_results j))) s)
      else None
  | Queued _ | Finished _ => None
  end.

(** [tasks.next()] of the plan handler at [p] yields the result of the shard [i]. *)
Definition collect (p : path) (i : nat) (s : State) : option State :=
  st ← tasks s !! p; child ← tasks s !! (i :: p);
  match st, child with
  | Joining j, Finished res =>
      if bool_decide (i ∈ j_collected j) then None
      else
        let collected := j_collected j ++ [i] in
        let goes_on results :=
          set_stage p (Joining (mkJoin (j_plan j) (j_backoff j) (j_attempt j) (j_shards j) collected results)) s in
        match res with
        | Done (Ok v) => Some (goes_on (j_results j ++ v))
        | Done (Err e) =>
            if preserve_region_results then Some (goes_on (j_results j ++ [Err e]))
            else Some (finish p (length (j_shards j)) collected (Done (Err e)) s)
        | Panicks => Some (finish p (length (j_shards j)) collected Panicks s)
        | Running => None
        end
  | _, _ => None
  end.

Inductive Event := Poll (p : path) | Collect (p : path) (i : nat).

Definition step (s : State) (e : Event) : option State :=
  match e with Poll p => poll p s | Collect p i => collect p i s end.

(** [RetryableMultiRegion::execute] *)
Definition init (concurrency : nat) (plan : P) (backoff : Backoff.t) : State :=
  mkState (Semaphore.new (Nat.max concurrency 1)) {[ [] := Planning plan backoff 0 ]} ∅.

(** *** What a handler stands for *)

Definition set_order (ord : path → nat → list nat) : HandlerEnv := {|
  select_peer := select_peer env; select_source_peer := select_source_peer env;
  map_region_to_store := map_region_to_store env; take_pending_backoff := take_pending_backoff env;
  is_replica_read_mode := is_replica_read_mode env; answer_update_leader := answer_update_leader env;
  draw := draw env; order := ord
|}.

Context (plan0 : P) (backoff0 : Backoff.t).

(** The sequential handler in which the shards of the plan at [p] finish in the order [ord p n]. *)
Definition sequential (ord : path → nat → list nat) (fuel : nat) (p : path) :
    P → Backoff.t → nat → run Results * list Action :=
  single_plan_handler ops (set_order ord) preserve_region_results fuel p.

Definition static (st : Stage) : option (P * Backoff.t * nat * list (Shard * RegionWithLeader.t)) :=
  match st with Joining j => Some (j_plan j, j_backoff j, j_attempt j, j_shards j) | _ => None end.

(** What the handler at [p] gives its caller, which is the plan handler at the tail of [p]. *)
Definition expected (ord : path → nat → list nat) (fuel : nat) (m : gmap path Stage) (p : path) : run Results :=
  match p with
  | [] => (sequential ord fuel [] plan0 backoff0 0).1
  | i :: p' =>
      match m !! p' ≫= static with
      | Some (plan, backoff, attempt, shards) =>
          match shards !! i with
          | Some s => (single_shard_handler ops (set_order ord) id (sequential ord fuel p) p
                         (plan_apply_shard ops s.1 plan) s.2 backoff attempt).1
          | None => Running
          end
      | None => Running
      end
  end.

(** What a handler that has not ended will give. *)
Definition meaning (ord : path → nat → list nat) (fuel : nat) (p : path) (st : Stage) : run Results :=
  match st with
  | Planning plan backoff attempt => (sequential ord fuel p plan backoff attempt).1
  | Joining j => (sequential ord fuel p (j_plan j) (j_backoff j) (j_attempt j)).1
  | Preparing plan region backoff attempt =>
      (single_shard_handler ops (set_order ord) id (sequential ord fuel p) p plan region backoff attempt).1
  | Acquiring r | Queued r | Assigned r | Executing r =>
      (on_execute ops (set_order ord) id (sequential ord fuel p) p (r_plan r) (r_region r) (r_stale_read r)
         (r_backoff r) (r_attempt r)).1
  | Finished r => r
  end.

Definition spec (ord : path → nat → list nat) (m : gmap path Stage) (p : path) (st : Stage) : Prop :=
  match st with
  | Finished r => ∃ F, ∀ fuel, (F ≤ fuel)%nat → expected ord fuel m p = r
  | st => ∀ fuel, expected ord fuel m p = meaning ord fuel p st
  end.

(** The orders that continue those recorded. *)
Definition agrees (ord : path → nat → list nat) (jn : gmap path (nat * list nat)) : Prop :=
  (∀ p n, ord p n ≡ₚ seq 0 n) ∧ ∀ p n l, jn !! p = Some (n, l) → l `prefix_of` ord p n.

(** The results a plan handler has taken are those of shards that ended. *)
Record join_ok (m : gmap path Stage) (p : path) (j : Join) : Prop := {
  join_shards : mapM id (plan_shards ops p (j_plan j)) = Ok (j_shards j);
  join_nodup : NoDup (j_collected j);
  join_taken : ∃ rs, Forall2 (λ i r, m !! (i :: p) = Some (Finished r)) (j_collected j) rs ∧
    ∀ rest, collect_tasks preserve_region_results (rs ++ rest) [] = collect_tasks preserve_region_results rest (j_results j)
}.

Record good (s : State) : Prop := {
  g_root : is_Some (tasks s !! []);
  g_parent i p st : tasks s !! (i :: p) = Some st →
    ∃ j, tasks s !! p = Some (Joining j) ∧ (i < length (j_shards j))%nat;
  g_children p j i : tasks s !! p = Some (Joining j) → (i < length (j_shards j))%nat → is_Some (tasks s !! (i :: p));
  g_join p j : tasks s !! p = Some (Joining j) → join_ok (tasks s) p j;
  g_ended p r : tasks s !! p = Some (Finished r) → r ≠ Running;
  g_spec p st ord : tasks s !! p = Some st → agrees ord (joined s) → spec ord (tasks s) p st;
  g_joined p n l : joined s !! p = Some (n, l) →
    NoDup l ∧ (∀ i, i ∈ l → (i < n)%nat) ∧ ∃ q r, q `suffix_of` p ∧ tasks s !! q = Some (Finished r)
}.

Context {laws : Semaphore.Laws Sem}.

Lemma suffix_cons_cases (p q : path) i : p `suffix_of` i :: q → p = i :: q ∨ p `suffix_of` q.
Proof. intros [[|x k] E]; cbn in E; [by left|]. right. exists k. congruence. Qed.

Lemma good_ancestor s p : good s → ∀ q st, tasks s !! q = Some st → p `suffix_of` q → p ≠ q →
  ∃ j, tasks s !! p = Some (Joining j).
Proof.
  intros Hg q. induction q as [|i q IH]; intros st Hq Hp Hne; [by apply suffix_nil_inv in Hp|].
  apply suffix_cons_cases in Hp as [->|Hp]; [done|]. destruct (g_parent s Hg i q st Hq) as (j & Hj & _).
  destruct (decide (p = q)) as [->|]; [eauto | by eapply IH].
Qed.

(** A live handler has not been recorded. *)
Lemma good_fresh s p st : good s → tasks s !! p = Some st → (∀ r, st ≠ Finished r) → joined s !! p = None.
Proof.
  intros Hg Hp Hst. destruct (joined s !! p) as [[n l]|] eqn:E; [|done].
  destruct (g_joined s Hg p n l E) as (_ & _ & q & r & Hq & Hr). destruct (decide (q = p)) as [->|Hne]; [naive_solver|].
  destruct (good_ancestor s q Hg p st Hp Hq Hne). congruence.
Qed.

Lemma agrees_insert ord jn p x : jn !! p = None → agrees ord (<[p := x]> jn) → agrees ord jn.
Proof.
  intros Hp [Hperm Hpre]. split; [done|]. intros q n l Hq. apply Hpre. rewrite lookup_insert_ne; [done | congruence].
Qed.

(** The caller of a handler is told apart only by its shards. *)
Lemma expected_ext ord fuel m m' p : (∀ i p', p = i :: p' → m !! p' ≫= static = m' !! p' ≫= static) →
  expected ord fuel m p = expected ord fuel m' p.
Proof. intros H. destruct p as [|i p']; [done|]. cbn. by rewrite (H i p' eq_refl). Qed.

Lemma spec_ext ord m m' p st : (∀ i p', p = i :: p' → m !! p' ≫= static = m' !! p' ≫= static) →
  spec ord m p st → spec ord m' p st.
Proof.
  intros H. assert (∀ fuel, expected ord fuel m p = expected ord fuel m' p) as E by (intros; by apply expected_ext).
  destruct st; cbn; try (intros Hs fuel; by rewrite <- E). intros (F & HF). exists F. intros. rewrite <- E. auto.
Qed.

(** *** The moves of the machine keep the invariant *)

(** A handler moves: it was not ended, keeps its shards, and stands for what it stood for. *)
Lemma good_set s p st st' : good s → tasks s !! p = Some st → (∀ r, st ≠ Finished r) → static st' = static st →
  (∀ ord, agrees ord (joined s) → spec ord (tasks s) p st → spec ord (tasks s) p st') →
  st' ≠ Finished Running → (∀ j, st' = Joining j → join_ok (tasks s) p j) → good (set_stage p st' s).
Proof.
  intros Hg Hp Hnf Hst Hspec Hend Hj. unfold set_stage.
  assert (∀ q, <[p := st']> (tasks s) !! q ≫= static = tasks s !! q ≫= static) as Hstatic.
  { intros q. destruct (decide (p = q)) as [<-|]; [by rewrite lookup_insert_eq, Hp; cbn|by rewrite lookup_insert_ne]. }
  assert (∀ q r, tasks s !! q = Some (Finished r) → <[p := st']> (tasks s) !! q = Some (Finished r)) as Hfin.
  { intros q r Hq. rewrite lookup_insert_ne; [done|]. intros <-. naive_solver. }
  assert (∀ q j, join_ok (tasks s) q j → join_ok (<[p := st']> (tasks s)) q j) as Hjoin.
  { intros q j [H1 H2 (rs & H3 & H4)]. split; [done | done|]. exists rs. split; [|done].
    eapply Forall2_impl; [exact H3|]. cbn. auto. }
  split; cbn.
  - destruct (decide (p = [])) as [->|]; [rewrite lookup_insert_eq; eauto | rewrite lookup_insert_ne by done; apply Hg].
  - intros i q sq Hq. assert (∃ st0, tasks s !! (i :: q) = Some st0) as [st0 H0].
    { destruct (decide (p = i :: q)) as [->|]; [eauto|]. rewrite lookup_insert_ne in Hq by done. eauto. }
    destruct (g_parent s Hg i q st0 H0) as (j & Hq0 & Hi). specialize (Hstatic q). rewrite Hq0 in Hstatic. cbn in Hstatic.
    destruct (<[p := st']> (tasks s) !! q) as [[]|]; cbn in Hstatic; simplify_eq. eexists. split; [done|]. congruence.
  - intros q j i Hq Hi. specialize (Hstatic q). rewrite Hq in Hstatic. cbn in Hstatic.
    destruct (tasks s !! q) as [[]|] eqn:Eq; cbn in Hstatic; simplify_eq.
    destruct (g_children s Hg q _ i Eq) as [sc Hc]; [congruence|].
    destruct (decide (p = i :: q)) as [->|]; [rewrite lookup_insert_eq; eauto | rewrite lookup_insert_ne by done; eauto].
  - intros q j Hq. apply Hjoin. destruct (decide (p = q)) as [<-|].
    + rewrite lookup_insert_eq in Hq. apply Hj. congruence.
    + rewrite lookup_insert_ne in Hq by done. by apply Hg.
  - intros q r Hq. destruct (decide (p = q)) as [<-|].
    + rewrite lookup_insert_eq in Hq. congruence.
    + rewrite lookup_insert_ne in Hq by done. by eapply Hg.
  - intros q sq ord Hq Ha. apply (spec_ext ord (tasks s)); [by intros|]. destruct (decide (p = q)) as [<-|].
    + rewrite lookup_insert_eq in Hq. simplify_eq. apply Hspec; [done|]. by eapply g_spec.
    + rewrite lookup_insert_ne in Hq by done. by eapply g_spec.
  - intros q n l Hq. destruct (g_joined s Hg q n l Hq) as (H1 & H2 & q' & r & H3 & H4). split_and!; [done | done|]. eauto.
Qed.

(** Waiters get permits. *)
Lemma good_assign s s' : good s → joined s' = joined s →
  (∀ q, match tasks s !! q with
        | Some st => ∃ st', tasks s' !! q = Some st' ∧ Semaphore.assigned users st st'
        | None => tasks s' !! q = None
        end) → good s'.
Proof.
  intros Hg Hjn Hm.
  assert (∀ q st', tasks s' !! q = Some st' → ∃ st, tasks s !! q = Some st ∧ Semaphore.assigned users st st') as Hback.
  { intros q st' Hq. specialize (Hm q). destruct (tasks s !! q) as [st|]; [|congruence]. destruct Hm as (? & ? & ?).
    exists st. split; congruence. }
  assert (∀ q st, tasks s !! q = Some st → Semaphore.queued users st = false → tasks s' !! q = Some st) as Hkeep.
  { intros q st Hq Hst. specialize (Hm q). rewrite Hq in Hm. destruct Hm as (st' & Hq' & [->|[? ?]]); [done | congruence]. }
  assert (∀ q st', tasks s' !! q = Some st' → Semaphore.holds users st' = false → tasks s !! q = Some st') as Hsame.
  { intros q st' Hq Hst. destruct (Hback q st' Hq) as (st & Hst0 & [->|[Hqd ->]]); [done|]. by destruct st. }
  assert (∀ q, tasks s !! q ≫= static = tasks s' !! q ≫= static) as Hstatic.
  { intros q. specialize (Hm q). destruct (tasks s !! q) as [st|]; [|by rewrite Hm].
    destruct Hm as (st' & -> & [->|[Hqd ->]]); [done | by destruct st]. }
  split.
  - specialize (Hm []). destruct (g_root s Hg) as [st E]. rewrite E in Hm. destruct Hm as (? & ? & _). eauto.
  - intros i q st' Hq. destruct (Hback _ _ Hq) as (st & Hst & _). destruct (g_parent s Hg i q st Hst) as (j & Hj & Hi).
    exists j. split; [by apply Hkeep | done].
  - intros q j i Hq Hi. apply Hsame in Hq; [|done]. destruct (g_children s Hg q j i Hq Hi) as [sc Hc].
    specialize (Hm (i :: q)). rewrite Hc in Hm. destruct Hm as (? & ? & _). eauto.
  - intros q j Hq. apply Hsame in Hq; [|done]. destruct (g_join s Hg q j Hq) as [H1 H2 (rs & H3 & H4)].
    split; [done | done|]. exists rs. split; [|done]. eapply Forall2_impl; [exact H3|]. cbn. intros. by apply Hkeep.
  - intros q r Hq. apply Hsame in Hq; [|done]. by eapply Hg.
  - intros q st' ord Hq Ha. rewrite Hjn in Ha. apply (spec_ext ord (tasks s)); [by intros|].
    destruct (Hback q st' Hq) as (st & Hst & [->|[Hqd ->]]); [by eapply g_spec|].
    pose proof (g_spec s Hg q st ord Hst Ha). by destruct st.
  - intros q n l Hq. rewrite Hjn in Hq. destruct (g_joined s Hg q n l Hq) as (H1 & H2 & q' & r & H3 & H4).
    split_and!; [done | done|]. exists q', r. split; [done|]. by apply Hkeep.
Qed.

Lemma spawn_child (p : path) (cs : list Stage) (m : gmap path Stage) : ∀ (i j : nat) (c : Stage), cs !! j = Some c → spawn p i cs m !! ((i + j)%nat :: p) = Some c.
Proof.
  induction cs as [|c0 cs IH]; intros i [|j] c Hj; cbn in Hj |- *; simplify_eq.
  - by rewrite Nat.add_0_r, lookup_insert_eq.
  - rewrite lookup_insert_ne by (intros [=]; lia). rewrite <- Nat.add_succ_comm. by apply IH.
Qed.

Lemma spawn_other (p : path) (cs : list Stage) (m : gmap path Stage) (q : path) : ∀ i, (∀ j, (j < length cs)%nat → q ≠ (i + j)%nat :: p) → spawn p i cs m !! q = m !! q.
Proof.
  induction cs as [|c0 cs IH]; intros i Hq; cbn in *; [done|]. rewrite lookup_insert_ne.
  - apply IH. intros j Hj ->. apply (Hq (S j)); [lia|]. by rewrite Nat.add_succ_r.
  - intros <-. apply (Hq 0%nat); [lia|]. by rewrite Nat.add_0_r.
Qed.

(** A plan handler makes the futures of its shards. *)
Section spawning.
Context (s : State) (p : path) (plan : P) (backoff : Backoff.t) (attempt : nat) (shards : list (Shard * RegionWithLeader.t)).
Context (Hg : good s) (Hp : tasks s !! p = Some (Planning plan backoff attempt)).
Context (Hs : mapM id (plan_shards ops p plan) = Ok shards).

Definition spawned : gmap path Stage :=
  spawn p 0 (shard_stages plan backoff attempt shards) (<[p := Joining (mkJoin plan backoff attempt shards [] [])]> (tasks s)).

Lemma no_children i : tasks s !! (i :: p) = None.
Proof. destruct (tasks s !! (i :: p)) eqn:E; [|done]. destruct (g_parent s Hg i p _ E) as (j & Hj & _). congruence. Qed.

Lemma spawned_cases q st : spawned !! q = Some st →
  (q = p ∧ st = Joining (mkJoin plan backoff attempt shards [] [])) ∨ (q ≠ p ∧ tasks s !! q = Some st) ∨
  ∃ i x, q = i :: p ∧ shards !! i = Some x ∧ st = Preparing (plan_apply_shard ops x.1 plan) x.2 backoff attempt.
Proof.
  unfold spawned, shard_stages. intros Hq. assert ((∃ i, q = i :: p ∧ (i < length shards)%nat) ∨ ∀ i, (i < length shards)%nat → q ≠ i :: p) as [(i & -> & Hi)|Hn].
  { destruct q as [|i q]; [by right|]. destruct (decide (q = p)) as [->|]; [|right; intros; congruence].
    destruct (decide (i < length shards)%nat); [eauto|]. right. intros i' Hi' [= ->]. done. }
  - apply lookup_lt_is_Some in Hi as [x Hx]. right. right. exists i, x. split_and!; [done | done|].
    erewrite (spawn_child p _ _ 0 i) in Hq; [by injection Hq as <-|]. by rewrite list_lookup_fmap, Hx.
  - rewrite spawn_other in Hq by (rewrite length_map; intros j Hj; by apply Hn).
    destruct (decide (p = q)) as [<-|]; [rewrite lookup_insert_eq in Hq | rewrite lookup_insert_ne in Hq by done]; naive_solver.
Qed.

Lemma spawned_self : spawned !! p = Some (Joining (mkJoin plan backoff attempt shards [] [])).
Proof.
  unfold spawned. rewrite spawn_other; [by rewrite lookup_insert_eq|]. intros j _ E%(f_equal length). cbn in E. lia.
Qed.

Lemma spawned_shard i x : shards !! i = Some x →
  spawned !! (i :: p) = Some (Preparing (plan_apply_shard ops x.1 plan) x.2 backoff attempt).
Proof. intros Hx. apply (spawn_child p _ _ 0 i). unfold shard_stages. by rewrite list_lookup_fmap, Hx. Qed.

Lemma spawned_old q st : tasks s !! q = Some st → q ≠ p → spawned !! q = Some st.
Proof.
  intros Hq Hne. unfold spawned. rewrite spawn_other; [by rewrite lookup_insert_ne|].
  intros j _ ->. cbn in Hq. by rewrite no_children in Hq.
Qed.

Lemma good_spawn : good (mkState (permits s) spawned (joined s)).
Proof.
  assert (∀ q, q ≠ p → tasks s !! q ≫= static = spawned !! q ≫= static) as Hstatic.
  { intros q Hq. destruct (tasks s !! q) as [st|] eqn:E; [by rewrite (spawned_old q st)|].
    destruct (spawned !! q) as [st'|] eqn:E'; [|done]. apply spawned_cases in E' as [[-> _]|[[_ E']|(i & x & -> & _ & ->)]]; [done | congruence | done]. }
  split; cbn.
  - destruct (decide ([] = p)) as [E|Hne]; [rewrite E, spawned_self; eauto|]. destruct (g_root s Hg) as [st E].
    rewrite (spawned_old [] st E Hne). eauto.
  - intros i q st [[E ->]|[[Hne Hq]|(i' & x & E & Hx & ->)]]%spawned_cases.
    + pose proof Hp as Hq. rewrite <- E in Hq. destruct (g_parent s Hg i q _ Hq) as (j & Hj & Hi). exists j. split; [|done].
      apply spawned_old; [done|]. rewrite <- E. intros E'%(f_equal length). cbn in E'. lia.
    + destruct (g_parent s Hg i q _ Hq) as (j & Hj & Hi). exists j. split; [|done]. apply spawned_old; [done|]. congruence.
    + injection E as -> ->. rewrite spawned_self. eexists. split; [done|]. cbn. by eapply lookup_lt_Some.
  - intros q j i [[-> [= ->]]|[[Hne Hq]|(i' & x & -> & Hx & [=])]]%spawned_cases Hi.
    + cbn in Hi. apply lookup_lt_is_Some in Hi as [x Hx]. rewrite (spawned_shard i x Hx). eauto.
    + destruct (g_children s Hg q j i Hq Hi) as [st Hst]. destruct (decide (i :: q = p)) as [->|Hn]; [rewrite spawned_self; eauto|].
      rewrite (spawned_old _ st Hst Hn). eauto.
  - intros q j [[-> [= ->]]|[[Hne Hq]|(i' & x & -> & Hx & [=])]]%spawned_cases.
    + split; cbn; [done | constructor|]. exists []. split; [constructor | done].
    + destruct (g_join s Hg q j Hq) as [H1 H2 (rs & H3 & H4)]. split; [done | done|]. exists rs. split; [|done].
      eapply Forall2_impl; [exact H3|]. cbn. intros i r Hi. apply spawned_old; [done|]. congruence.
  - intros q r [[-> [=]]|[[Hne Hq]|(i' & x & -> & Hx & [=])]]%spawned_cases. by eapply Hg.
  - intros q st ord [[-> ->]|[[Hne Hq]|(i & x & -> & Hx & ->)]]%spawned_cases Ha.
    + pose proof (g_spec s Hg p _ ord Hp Ha) as Hsp. cbn in Hsp |- *. intros fuel. rewrite <- Hsp. apply expected_ext.
      intros i p' E. symmetry. apply Hstatic. rewrite E. intros E'%(f_equal length). cbn in E'. lia.
    + apply (spec_ext ord (tasks s)); [|by eapply g_spec]. intros i p' ->. apply Hstatic. intros ->.
      by rewrite no_children in Hq.
    + cbn. intros fuel. by rewrite spawned_self; cbn; rewrite Hx.
  - intros q n l Hq. destruct (g_joined s Hg q n l Hq) as (H1 & H2 & q' & r & H3 & H4). split_and!; [done | done|].
    exists q', r. split; [done|]. apply spawned_old; [done|]. congruence.
Qed.
End spawning.

Lemma eventually_all {A} (g : nat → nat → A) l rs : Forall2 (λ i r, ∃ F, ∀ f, (F ≤ f)%nat → g f i = r) l rs →
  ∃ F, ∀ f, (F ≤ f)%nat → Forall2 (λ i r, g f i = r) l rs.
Proof.
  induction 1 as [|i r l rs (F1 & H1) _ (F2 & H2)]; [exists 0%nat; constructor|].
  exists (Nat.max F1 F2). intros f Hf. constructor; [apply H1 | apply H2]; lia.
Qed.

(** Tasks that have finished are taken in the order in which they did. *)
Lemma finished_prefix {A} (ts : list (run A)) l rs l' : Forall2 (λ i r, ts !! i = Some r ∧ r ≠ Running) l rs →
  finished_tasks (l ++ l') ts = rs ++ finished_tasks l' ts.
Proof.
  intros H. unfold finished_tasks. induction H as [|i r l rs [Hi Hr] _ IH]; [done|].
  cbn. rewrite Hi. cbn. destruct r; [done | | ]; cbn; f_equal; exact IH.
Qed.

Lemma taken_in_range s p j l rs : good s → tasks s !! p = Some (Joining j) →
  Forall2 (λ i r, tasks s !! (i :: p) = Some (Finished r)) l rs → ∀ i, i ∈ l → (i < length (j_shards j))%nat.
Proof.
  intros Hg Hp Hrs i [k Hk]%list_elem_of_lookup_1. destruct (Forall2_lookup_l _ _ _ _ _ Hrs Hk) as (r' & _ & Hc).
  destruct (g_parent s Hg i p _ Hc) as (j' & Hj' & Hi). rewrite Hp in Hj'. by injection Hj' as ->.
Qed.

(** A plan handler ends with [r], after it has taken the results [rs] of the shards [l]. *)
Section finishing.
Context (s : State) (p : path) (j : Join) (l : list nat) (rs : list (run Results)) (r : run Results).
Context (Hg : good s) (Hp : tasks s !! p = Some (Joining j)).
Context (Hl : NoDup l) (Hrs : Forall2 (λ i r, tasks s !! (i :: p) = Some (Finished r)) l rs).
Context (Hr : (length l = length (j_shards j) ∧ collect_tasks preserve_region_results rs [] = r) ∨
  (∀ rest, collect_tasks preserve_region_results (rs ++ rest) [] = r) ∧ (∀ v, r ≠ Done (Ok v))).

Definition shard_runs (ord : path → nat → list nat) (fuel : nat) : list (run Results) :=
  (imap (λ i (x : Shard * RegionWithLeader.t),
     single_shard_handler ops (set_order ord) id (sequential ord fuel (i :: p)) (i :: p)
       (plan_apply_shard ops x.1 (j_plan j)) x.2 (j_backoff j) (j_attempt j)) (j_shards j)).*1.

Lemma shard_runs_expected ord fuel i : (i < length (j_shards j))%nat →
  shard_runs ord fuel !! i = Some (expected ord fuel (tasks s) (i :: p)).
Proof.
  intros Hi. apply lookup_lt_is_Some in Hi as [x Hx]. unfold shard_runs. rewrite list_lookup_fmap, list_lookup_imap, Hx. cbn.
  rewrite Hp. cbn. by rewrite Hx.
Qed.

(** In the end every taken shard has the result that was taken. *)
Lemma taken_results ord : agrees ord (joined s) →
  ∃ F, ∀ fuel, (F ≤ fuel)%nat → Forall2 (λ i r, shard_runs ord fuel !! i = Some r ∧ r ≠ Running) l rs.
Proof.
  intros Ha. destruct (eventually_all (λ f i, expected ord f (tasks s) (i :: p)) l rs) as (F & HF).
  { eapply Forall2_impl; [exact Hrs|]. cbn. intros i r' Hi. exact (g_spec s Hg _ _ ord Hi Ha). }
  exists F. intros fuel Hf. pose proof (taken_in_range s p j l rs Hg Hp Hrs) as Hin. specialize (HF fuel Hf). apply Forall2_same_length_lookup_2.
  - by eapply Forall2_length.
  - intros k i r' Hk Hr'. pose proof (Forall2_lookup_lr _ _ _ _ _ _ HF Hk Hr') as <-.
    pose proof (Forall2_lookup_lr _ _ _ _ _ _ Hrs Hk Hr') as Hfin. cbn in Hfin. split.
    + apply shard_runs_expected, Hin. by eapply list_elem_of_lookup_2.
    + by eapply (g_ended s Hg).
Qed.

Lemma full_range : length l = length (j_shards j) → ∀ i, (i < length (j_shards j))%nat → i ∈ l.
Proof.
  intros Hlen i Hi. assert (l ≡ₚ seq 0 (length (j_shards j))) as ->; [|apply elem_of_seq; lia].
  apply submseteq_length_Permutation; [|rewrite length_seq; lia]. apply NoDup_submseteq; [done|].
  intros k Hk%(taken_in_range s p j l rs Hg Hp Hrs). apply elem_of_seq. lia.
Qed.

Lemma joined_result ord : agrees ord (joined s) → ord p (length (j_shards j)) ≡ₚ seq 0 (length (j_shards j)) →
  l `prefix_of` ord p (length (j_shards j)) →
  ∃ F, ∀ fuel, (F ≤ fuel)%nat → join_tasks (set_order ord) preserve_region_results p (shard_runs ord fuel) = r.
Proof.
  intros Ha Hperm [l' Hord]. destruct (taken_results ord Ha) as (F & HF). exists F. intros fuel Hf. specialize (HF fuel Hf).
  assert (length (shard_runs ord fuel) = length (j_shards j)) as Hlen by (unfold shard_runs; by rewrite length_fmap, length_imap).
  unfold join_tasks. rewrite Hlen. cbn [order set_order]. rewrite Hord, (finished_prefix _ _ _ _ HF).
  destruct Hr as [[Hfull Hc]|[Hc Hnok]].
  - assert (l' = []) as ->.
    { apply Permutation_length in Hperm. rewrite Hord, length_app, length_seq, Hfull in Hperm. destruct l'; [done | cbn in Hperm; lia]. }
    rewrite app_nil_r, Hc. destruct (existsb _ _) eqn:Ex; [|by destruct r as [| |[]]].
    apply existsb_exists in Ex as (t & Ht%list_elem_of_In & Et). apply list_elem_of_lookup_1 in Ht as [i Hi].
    assert (i ∈ l) as Hil by (apply full_range; [done|]; rewrite <- Hlen; by eapply lookup_lt_Some).
    apply list_elem_of_lookup_1 in Hil as [k Hk]. destruct (Forall2_lookup_l _ _ _ _ _ HF Hk) as (r' & _ & Hi' & Hne).
    rewrite Hi in Hi'. injection Hi' as ->. by destruct r'.
  - rewrite Hc. destruct r as [| |[v|]]; try done. by destruct (Hnok v).
Qed.

Definition pruned : gmap path Stage := filter (λ kv, below p kv.1 = false) (<[p := Finished r]> (tasks s)).

Lemma pruned_self : pruned !! p = Some (Finished r).
Proof. apply map_lookup_filter_Some. rewrite lookup_insert_eq. split; [done|]. apply bool_decide_eq_false. by intros []. Qed.

Lemma pruned_cases q st : pruned !! q = Some st →
  (q = p ∧ st = Finished r) ∨ (q ≠ p ∧ ¬ p `suffix_of` q ∧ tasks s !! q = Some st).
Proof.
  intros [Hq Hb]%map_lookup_filter_Some. cbn in Hb. apply bool_decide_eq_false in Hb. destruct (decide (p = q)) as [<-|Hne].
  - rewrite lookup_insert_eq in Hq. injection Hq as <-. by left.
  - rewrite lookup_insert_ne in Hq by done. right. split_and!; [congruence | intros ?; by apply Hb | done].
Qed.

Lemma pruned_old q st : tasks s !! q = Some st → ¬ p `suffix_of` q → pruned !! q = Some st.
Proof.
  intros Hq Hne. apply map_lookup_filter_Some. rewrite lookup_insert_ne by (by intros <-). split; [done|].
  apply bool_decide_eq_false. by intros [].
Qed.

(** The caller of a handler that is kept is kept. *)
Lemma pruned_parent q st i q' : pruned !! q = Some st → q = i :: q' → q' ≠ p ∧ ¬ p `suffix_of` q'.
Proof.
  intros Hq ->. assert (¬ p `suffix_of` q') as Hn.
  { intros Hs. apply pruned_cases in Hq as [[E _]|(_ & Hn & _)].
    - rewrite <- E in Hs. apply suffix_length in Hs. cbn in Hs. lia.
    - by apply Hn, suffix_cons_r. }
  split; [by intros ->|done].
Qed.

Lemma pruned_static q st : pruned !! q = Some st → ∀ i q', q = i :: q' → tasks s !! q' ≫= static = pruned !! q' ≫= static.
Proof.
  intros Hq i q' E. destruct (pruned_parent q st i q' Hq E) as [Hne Hn].
  destruct (tasks s !! q') as [st'|] eqn:E'; [by rewrite (pruned_old q' st')|].
  destruct (pruned !! q') as [st'|] eqn:E2; [|done]. by apply pruned_cases in E2 as [[-> _]|(_ & _ & ?)]; congruence.
Qed.

Lemma good_prune : good (mkState (permits s) pruned (<[p := (length (j_shards j), l)]> (joined s))).
Proof.
  assert (joined s !! p = None) as Hfresh by (by eapply good_fresh).
  split; cbn.
  - destruct (decide ([] = p)) as [E|Hne]; [rewrite E, pruned_self; eauto|].
    destruct (g_root s Hg) as [st E]. exists st. apply pruned_old; [done|]. intros ?%suffix_nil_inv. congruence.
  - intros i q st Hq. destruct (pruned_parent _ _ i q Hq eq_refl) as [Hne Hn].
    assert (∃ st0, tasks s !! (i :: q) = Some st0) as [st0 H0] by (apply pruned_cases in Hq as [[-> _]|(_ & _ & ?)]; eauto).
    destruct (g_parent s Hg i q st0 H0) as (j' & Hj' & Hi). exists j'. split; [by apply pruned_old | done].
  - intros q j' i [[_ [=]]|(Hne & Hn & Hq)]%pruned_cases Hi. destruct (g_children s Hg q j' i Hq Hi) as [st Hst].
    destruct (decide (i :: q = p)) as [->|Hip]; [rewrite pruned_self; eauto|].
    rewrite (pruned_old _ st); [eauto | done|]. by intros [->|?]%suffix_cons_cases.
  - intros q j' [[_ [=]]|(Hne & Hn & Hq)]%pruned_cases. destruct (g_join s Hg q j' Hq) as [H1 H2 (rs' & H3 & H4)].
    split; [done | done|]. exists rs'. split; [|done]. eapply Forall2_impl; [exact H3|]. cbn. intros i r' Hi.
    apply pruned_old; [done|]. intros [E|?]%suffix_cons_cases; [rewrite <- E in Hi; congruence | done].
  - intros q r' [[_ [= ->]]|(Hne & Hn & Hq)]%pruned_cases; [|by eapply Hg].
    destruct Hr as [[_ <-]|[Hc _]]; [apply collect_tasks_ends|]. rewrite <- (Hc []). apply collect_tasks_ends.
  - intros q st ord Hq Ha. pose proof (agrees_insert _ _ _ _ Hfresh Ha) as Ha'.
    apply (spec_ext ord (tasks s)); [by eapply pruned_static|]. apply pruned_cases in Hq as [[-> ->]|(_ & _ & Hq)]; [|by eapply g_spec].
    destruct Ha as [Hperm Hpre]. destruct (joined_result ord Ha' (Hperm _ _)) as (F & HF).
    { apply Hpre. by rewrite lookup_insert_eq. }
    exists (S F). intros [|fuel] Hf; [lia|]. pose proof (g_spec s Hg p _ ord Hp Ha') as Hsp. cbn in Hsp. rewrite Hsp.
    unfold sequential. cbn [single_plan_handler]. rewrite (join_shards _ _ _ (g_join s Hg p j Hp)). cbn [fst].
    apply (HF fuel). lia.
  - intros q n l' Hq. destruct (decide (p = q)) as [<-|Hne].
    + rewrite lookup_insert_eq in Hq. injection Hq as <- <-. split_and!; [done | exact (taken_in_range s p j l rs Hg Hp Hrs)|].
      exists p, r. split; [done | apply pruned_self].
    + rewrite lookup_insert_ne in Hq by done. destruct (g_joined s Hg q n l' Hq) as (H1 & H2 & q' & r' & H3 & H4).
      split_and!; [done | done|]. destruct (decide (p `suffix_of` q')) as [Hs|Hs].
      * exists p, r. split; [by trans q' | apply pruned_self].
      * exists q', r'. split; [done | by apply pruned_old].
Qed.

Lemma good_finish cap k : Semaphore.inv users cap k (permits s, tasks s) →
  good (finish p (length (j_shards j)) l r s) ∧
  Semaphore.inv users cap k (permits (finish p (length (j_shards j)) l r s), tasks (finish p (length (j_shards j)) l r s)).
Proof.
  intros Hi. assert (Semaphore.inv users cap k (permits s, <[p := Finished r]> (tasks s))) as Hi'.
  { eapply Semaphore.inv_set; [exact Hi | exact Hp | done..]. }
  unfold finish. cbn. split.
  - eapply good_assign; [exact good_prune | done|]. cbn. intros q.
    exact (Semaphore.releases_lookup users cap _ k _ q (Semaphore.inv_drop_filter users _ _ (below p) _ Hi')).
  - pose proof (Semaphore.inv_drop users cap k (below p) _ Hi') as Hd. by rewrite (surjective_pairing (Semaphore.drop_tasks _ _ _)) in Hd.
Qed.
End finishing.

(** *** Every step keeps the invariant *)

Definition inv (cap : nat) (s : State) : Prop := good s ∧ Semaphore.inv users cap 0 (permits s, tasks s).

Lemma decide_stage_not_running d : ended d → decide_stage d ≠ Finished Running.
Proof. destruct d; cbn; [|done]. intros Hd [= ->]. by apply Hd. Qed.

(** What a handler decides, it stands for. *)
Lemma spec_decide ord m p st d : (∀ r, st ≠ Finished r) →
  (∀ fuel, meaning ord fuel p st = follow (λ pl b a, (sequential ord fuel p pl b a).1) d) →
  spec ord m p st → spec ord m p (decide_stage d).
Proof.
  intros Hnf Hm Hs. assert (∀ fuel, expected ord fuel m p = meaning ord fuel p st) as E.
  { destruct st; try exact Hs. by destruct (Hnf r). }
  destruct d as [r|pl b a]; cbn; [exists 0%nat|]; intros; by rewrite E, Hm.
Qed.

Lemma inv_spawn (cap : nat) (sem : Semaphore.t (K:=path)) (m : gmap path Stage) (p : path) (cs : list Stage) : ∀ i : nat, Semaphore.inv users cap 0 (sem, m) →
  (∀ k, m !! (k :: p) = None) → Forall (λ c, Semaphore.holds users c = false ∧ Semaphore.queued users c = false) cs →
  Semaphore.inv users cap 0 (sem, spawn p i cs m).
Proof.
  induction cs as [|c cs IH]; intros i Hi Hm Hcs; [done|]. apply Forall_cons in Hcs as [[Hh Hq] Hcs]. cbn.
  apply Semaphore.inv_fresh; [by apply IH | | done | done]. rewrite spawn_other; [done|]. intros k _ [= E]. lia.
Qed.

Lemma inv_plan cap s p plan backoff attempt shards : inv cap s →
  tasks s !! p = Some (Planning plan backoff attempt) → mapM id (plan_shards ops p plan) = Ok shards →
  inv cap (mkState (permits s) (spawned s p plan backoff attempt shards) (joined s)).
Proof.
  intros [Hg Hi] Hp Hs. split; [by apply good_spawn|]. cbn. unfold spawned. apply inv_spawn.
  - eapply Semaphore.inv_set; [exact Hi | exact Hp | done..].
  - intros k. rewrite lookup_insert_ne; [by eapply no_children|]. intros E%(f_equal length). cbn in E. lia.
  - unfold shard_stages. by apply Forall_map, Forall_true.
Qed.

(** A step of a handler that takes or gives no permit. *)
Lemma inv_set_stage cap s p st st' : inv cap s → tasks s !! p = Some st → (∀ r, st ≠ Finished r) → static st' = static st →
  (∀ ord, agrees ord (joined s) → spec ord (tasks s) p st → spec ord (tasks s) p st') → st' ≠ Finished Running →
  (∀ j, st' = Joining j → join_ok (tasks s) p j) →
  Semaphore.queued users st = false → Semaphore.queued users st' = false → Semaphore.holds users st' = Semaphore.holds users st →
  inv cap (set_stage p st' s).
Proof.
  intros [Hg Hi] Hp Hnf Hst Hspec Hend Hj Hq Hq' Hh. split; [by eapply good_set|].
  eapply Semaphore.inv_set; [exact Hi | exact Hp | done | done | by rewrite Hh].
Qed.

Lemma inv_prepare cap s p plan region backoff attempt : inv cap s →
  tasks s !! p = Some (Preparing plan region backoff attempt) →
  inv cap (set_stage p match prepare_decision ops env p plan region backoff attempt with
                       | Decided d => decide_stage d
                       | Prepares r => Acquiring r
                       end s).
Proof.
  intros Hi Hp.
  assert (∀ ord fuel, meaning ord fuel p (Preparing plan region backoff attempt) =
    match prepare_decision ops env p plan region backoff attempt with
    | Decided d => follow (λ pl b a, (sequential ord fuel p pl b a).1) d
    | Prepares r => meaning ord fuel p (Acquiring r)
    end) as Hm by (intros; exact (prepare_decision_follow ops (set_order ord) _ p plan region backoff attempt)).
  pose proof (λ d, prepare_decision_ended ops env p plan region backoff attempt d) as Hend.
  destruct (prepare_decision ops env p plan region backoff attempt) as [d|r].
  - specialize (Hend d eq_refl).
    eapply inv_set_stage; [exact Hi | exact Hp | done | by destruct d | | by apply decide_stage_not_running | by destruct d | done | by destruct d | by destruct d].
    intros ord _. apply spec_decide; [done|]. intros fuel. apply Hm.
  - eapply inv_set_stage; [exact Hi | exact Hp | done | done | | done | done | done | done | done].
    intros ord _ Hs fuel. rewrite Hs. apply Hm.
Qed.

Lemma good_permits s (sem : Semaphore.t (K:=path)) : good s → good (mkState sem (tasks s) (joined s)).
Proof. by intros []. Qed.

(** With the permit or in the queue, the handler is to execute the same. *)
Lemma good_granted s (sem : Semaphore.t (K:=path)) p r st st' : good s → tasks s !! p = Some st → st' = Executing r ∨ st' = Queued r →
  st = Acquiring r ∨ st = Assigned r → good (mkState sem (<[p := st']> (tasks s)) (joined s)).
Proof.
  intros Hg Hp Hst' Hst. apply (good_permits (set_stage p st' s)).
  eapply good_set; [done | exact Hp |..]; destruct Hst as [->| ->], Hst' as [->| ->]; done.
Qed.

Lemma inv_acquiring cap s p r : inv cap s → tasks s !! p = Some (Acquiring r) →
  inv cap (with_sys (Semaphore.acquire p (Executing r) (Queued r) (permits s, tasks s)) s).
Proof.
  intros [Hg Hi] Hp. split.
  - unfold with_sys, Semaphore.acquire. destruct (Semaphore.ask _ _) as [[] ?]; cbn; eapply good_granted; eauto.
  - pose proof (Semaphore.inv_acquire users cap 0 (permits s) (tasks s) p _ (Executing r) (Queued r) Hi Hp) as Ha.
    cbn. rewrite <- surjective_pairing. by apply Ha.
Qed.

Lemma inv_executed cap s p r : inv cap s → tasks s !! p = Some (Executing r) →
  inv cap (with_sys (Semaphore.release users (permits s, <[p := decide_stage (execute_decision ops env p r)]> (tasks s))) s).
Proof.
  intros [Hg Hi] Hp. set (d := execute_decision ops env p r).
  assert (good (set_stage p (decide_stage d) s)) as Hg'.
  { eapply good_set; [done | exact Hp | done | by destruct d | | apply decide_stage_not_running, execute_decision_ended | by destruct d].
    intros ord _. apply spec_decide; [done|]. intros fuel. exact (execute_decision_follow ops (set_order ord) _ p r). }
  assert (Semaphore.inv users cap 1 (permits s, <[p := decide_stage d]> (tasks s))) as Hi'.
  { eapply Semaphore.inv_set; [exact Hi | exact Hp | done | by destruct d | by destruct d]. }
  split.
  - eapply good_assign; [exact Hg' | done|]. intros q. exact (Semaphore.releases_lookup users cap 1 0 _ q Hi').
  - unfold with_sys. cbn [permits tasks]. rewrite <- surjective_pairing. exact (Semaphore.inv_release users cap 0 _ Hi').
Qed.

(** The shard's result joins those taken. *)
Lemma inv_taken cap s p j i r results : inv cap s → tasks s !! p = Some (Joining j) →
  tasks s !! (i :: p) = Some (Finished r) → i ∉ j_collected j →
  (∀ rest, collect_tasks preserve_region_results (r :: rest) (j_results j) = collect_tasks preserve_region_results rest results) →
  inv cap (set_stage p (Joining (mkJoin (j_plan j) (j_backoff j) (j_attempt j) (j_shards j) (j_collected j ++ [i]) results)) s).
Proof.
  intros Hi Hp Hc Hn Hr. destruct (g_join s (proj1 Hi) p j Hp) as [H1 H2 (rs & H3 & H4)].
  eapply inv_set_stage; [exact Hi | exact Hp | done | done | by intros ord _ | done | | done | done | done].
  intros j' [= <-]. split; cbn; [done | |].
  - apply NoDup_app. split_and!; [done | | apply NoDup_singleton]. by intros q ? ->%list_elem_of_singleton.
  - exists (rs ++ [r]). split; [apply Forall2_app; [done | by repeat constructor]|].
    intros rest. rewrite <- app_assoc, H4. apply Hr.
Qed.

(** The shard's result ends the plan handler. *)
Lemma inv_fails cap s p j i r : inv cap s → tasks s !! p = Some (Joining j) →
  tasks s !! (i :: p) = Some (Finished r) → i ∉ j_collected j →
  (∀ rest, collect_tasks preserve_region_results (r :: rest) (j_results j) = r) → (∀ v, r ≠ Done (Ok v)) →
  inv cap (finish p (length (j_shards j)) (j_collected j ++ [i]) r s).
Proof.
  intros [Hg Hi] Hp Hc Hn Hr Hv. destruct (g_join s Hg p j Hp) as [H1 H2 (rs & H3 & H4)].
  apply (good_finish s p j _ (rs ++ [r]) r); try done.
  - apply NoDup_app. split_and!; [done | | apply NoDup_singleton]. by intros q ? ->%list_elem_of_singleton.
  - apply Forall2_app; [done | by repeat constructor].
  - right. split; [|done]. intros rest. rewrite <- app_assoc, H4. apply Hr.
Qed.

Lemma inv_all_taken cap s p j : inv cap s → tasks s !! p = Some (Joining j) →
  length (j_collected j) = length (j_shards j) →
  inv cap (finish p (length (j_shards j)) (j_collected j) (Done (Ok (j_results j))) s).
Proof.
  intros [Hg Hi] Hp Hl. destruct (g_join s Hg p j Hp) as [H1 H2 (rs & H3 & H4)].
  apply (good_finish s p j _ rs); try done. left. split; [done|]. specialize (H4 []). by rewrite app_nil_r in H4.
Qed.

Lemma step_inv cap s e s' : inv cap s → step s e = Some s' → inv cap s'.
Proof.
  intros Hi. destruct e as [p|p i]; cbn; unfold poll, collect.
  - destruct (tasks s !! p) as [st|] eqn:Hp; [|done]. cbn. destruct st as [plan b a|j|plan region b a|r|r|r|r|r]; try done.
    + destruct (mapM id (plan_shards ops p plan)) as [shards|e] eqn:Es; intros [= <-]; [by apply inv_plan|].
      eapply inv_set_stage; [exact Hi | exact Hp | done | done | | done | done | done | done | done].
      intros ord _ Hs. exists 1%nat. intros [|fuel] Hf; [lia|]. rewrite Hs. cbn. unfold sequential. cbn [single_plan_handler]. by rewrite Es.
    + destruct (Nat.eqb_spec (length (j_collected j)) (length (j_shards j))); [|done]. intros [= <-]. by apply inv_all_taken.
    + intros [= <-]. by apply inv_prepare.
    + intros [= <-]. by apply inv_acquiring.
    + intros [= <-]. eapply inv_set_stage; [exact Hi | exact Hp | done | done | by intros ord _ | done | done | done | done | done].
    + intros [= <-]. by apply inv_executed.
  - destruct (tasks s !! p) as [st|] eqn:Hp; [|done]. destruct (tasks s !! (i :: p)) as [child|] eqn:Hc; [|done]. cbn.
    destruct st as [|j| | | | | |]; try done. destruct child as [| | | | | | |r]; try done. case_bool_decide as Hn; [done|].
    destruct r as [| |[v|e]]; [done | | |].
    + intros [= <-]. by apply inv_fails.
    + intros [= <-]. by eapply inv_taken.
    + destruct preserve_region_results eqn:Epr; intros [= <-].
      * eapply inv_taken; [done.. |]. intros rest. cbn. by rewrite Epr.
      * apply inv_fails; try done. intros rest. cbn. by rewrite Epr.
Qed.

Lemma init_inv concurrency : inv (Nat.max concurrency 1) (init concurrency plan0 backoff0).
Proof.
  unfold init. split; [split; cbn|].
  - rewrite lookup_singleton_eq. eauto.
  - intros i p st [[=] _]%lookup_singleton_Some.
  - intros p j i [_ [=]]%lookup_singleton_Some.
  - intros p j [_ [=]]%lookup_singleton_Some.
  - intros p r [_ [=]]%lookup_singleton_Some.
  - intros p st ord [<- <-]%lookup_singleton_Some _. by intros fuel.
  - intros p n l Hp. by rewrite lookup_empty in Hp.
  - cbn. apply (Semaphore.inv_new users). by intros q v [<- <-]%lookup_singleton_Some.
Qed.

Lemma run_inv concurrency es s : run_steps step (init concurrency plan0 backoff0) es = Some s →
  inv (Nat.max concurrency 1) s.
Proof. apply run_steps_inv; [intros; by eapply step_inv | apply init_inv]. Qed.

(** *** Progress *)

Lemma depth_bounded (m : gmap path Stage) : ∃ D, ∀ q st, m !! q = Some st → (length q ≤ D)%nat.
Proof.
  induction m as [|q st m Hq (D & HD)] using map_ind; [exists 0%nat; by intros q st; rewrite lookup_empty|].
  exists (Nat.max D (length q)). intros q' st' [[<- _]|[_ H]]%lookup_insert_Some; [lia|]. apply HD in H. lia.
Qed.

Lemma finished_or_live (st : Stage) : (∃ r, st = Finished r) ∨ ∀ r, st ≠ Finished r.
Proof. destruct st; eauto. Qed.

(** Whoever holds a permit can move; so can someone when a handler waits for one. *)
Lemma holder_moves s p st : tasks s !! p = Some st → Semaphore.holds users st = true → ∃ s', step s (Poll p) = Some s'.
Proof. intros Hp Hh. cbn. unfold poll. rewrite Hp. cbn. destruct st; eauto; done. Qed.

Lemma live_moves cap s : (0 < cap)%nat → inv cap s → ∀ n p st, tasks s !! p = Some st → (∀ r, st ≠ Finished r) →
  (∀ q st, tasks s !! q = Some st → (length q < n + length p)%nat) → ∃ e s', step s e = Some s'.
Proof.
  intros Hcap [Hg Hi] n. induction n as [|n IH]; intros p st Hp Hst Hd; [specialize (Hd p st Hp); lia|].
  destruct st as [plan b a|j|plan region b a|r|r|r|r|r];
    try (exists (Poll p); cbn; unfold poll; rewrite Hp; cbn; repeat case_match; by eauto).
  - destruct (g_join s Hg p j Hp) as [H1 H2 (rs & H3 & H4)].
    destruct (Nat.eqb (length (j_collected j)) (length (j_shards j))) eqn:Ec.
    { exists (Poll p). cbn. unfold poll. rewrite Hp. cbn. rewrite Ec. eauto. }
    apply Nat.eqb_neq in Ec. destruct (task_left (j_collected j) (length (j_shards j))) as (i & Hil & Hin);
      [done | exact (taken_in_range s p j _ rs Hg Hp H3) | done|].
    destruct (g_children s Hg p j i Hp Hil) as [child Hc].
    destruct (finished_or_live child) as [[r ->]|Hnf].
    + exists (Collect p i). cbn. unfold collect. rewrite Hp, Hc. cbn. rewrite bool_decide_eq_false_2 by done.
      pose proof (g_ended s Hg _ _ Hc) as Hr. destruct r as [| |[v|e]]; [done | eauto | eauto |]. destruct preserve_region_results; eauto.
    + apply (IH (i :: p) child Hc Hnf). intros q sq Hq. apply Hd in Hq. cbn. lia.
  - destruct (Semaphore.inv_waiters _ _ _ _ Hi p) as [_ Hw]. specialize (Hw (ex_intro _ _ (conj Hp eq_refl))). cbn in Hw.
    pose proof (Semaphore.inv_eager _ _ _ _ Hi) as He. cbn in He.
    assert (Semaphore.available (permits s) = 0%nat) as H0 by (apply He; intros E; rewrite E in Hw; by apply elem_of_nil in Hw).
    destruct (Semaphore.holders_pos users (tasks s)) as (q & v & Hq & Hv); [pose proof (Semaphore.inv_permits _ _ _ _ Hi) as Hpm; cbn in Hpm; lia|].
    destruct (holder_moves s q v Hq Hv). eauto.
  - by destruct (Hst r).
Qed.

Lemma run_moves cap s : (0 < cap)%nat → inv cap s → (∀ r, tasks s !! [] ≠ Some (Finished r)) → ∃ e s', step s e = Some s'.
Proof.
  intros Hcap Hi Hr. destruct (depth_bounded (tasks s)) as (D & HD). destruct (g_root s (proj1 Hi)) as [st Hst].
  apply (live_moves cap s Hcap Hi (S D) [] st Hst); [congruence|]. intros q sq Hq%HD. cbn. lia.
Qed.

(** *** The order of a schedule *)

(** The recorded orders, continued by the shards that were not taken. *)
Definition recorded_order (jn : gmap path (nat * list nat)) (p : path) (n : nat) : list nat :=
  match jn !! p with
  | Some (n', l) => if (n' =? n)%nat then continued l n else seq 0 n
  | None => seq 0 n
  end.

Lemma recorded_order_agrees s : good s → agrees (recorded_order (joined s)) (joined s).
Proof.
  intros Hg. split.
  - intros p n. unfold recorded_order. destruct (joined s !! p) as [[n' l]|] eqn:E; [|done].
    destruct (Nat.eqb_spec n' n) as [->|]; [|done]. destruct (g_joined s Hg p n l E) as (Hnd & Hin & _).
    by apply continued_all.
  - intros p n l E. unfold recorded_order. rewrite E, Nat.eqb_refl. by eexists.
Qed.

(** The result of a schedule that ends is one of the sequential execution. *)
Lemma finished_sequential cap s r : inv cap s → tasks s !! [] = Some (Finished r) →
  ∃ ord F, agrees ord (joined s) ∧ ∀ fuel, (F ≤ fuel)%nat → (sequential ord fuel [] plan0 backoff0 0).1 = r.
Proof.
  intros [Hg _] Hr. pose proof (recorded_order_agrees s Hg) as Ha.
  destruct (g_spec s Hg [] _ _ Hr Ha) as (F & HF). by exists (recorded_order (joined s)), F.
Qed.

(** *** Every schedule ends *)

Section termination.
(** The bounds a schedule may keep: [N] peers that can serve reads in a region, [width] shards of a plan, and depth [B] of the retry
    tree, from which on no region error is settled without waiting. *)
Context (N B width : nat).

(** A step that goes beyond them. *)
Definition exceeds (s : State) (e : Event) : bool :=
  match e with
  | Poll p =>
      match tasks s !! p with
      | Some (Planning plan _ _) =>
          match mapM id (plan_shards ops p plan) with
          | Ok shards => (width <? length shards)%nat || existsb (λ x, (N <? non_witness_peers x.2)%nat) shards
          | Err _ => false
          end
      | Some (Executing r) => (B <? length p)%nat && settled_at_once ops env p (r_plan r) (r_region r)
      | _ => false
      end
  | Collect _ _ => false
  end.

(** The steps that a plan handler with [m] rounds left may cause. *)
Fixpoint plan_weight (m : nat) : nat := 2 + width * (7 + match m with O => 0 | S m => plan_weight m end).

Definition retry_weight (m : nat) : nat := match m with O => 0 | S m => plan_weight m end.

(** The rounds left to the shard handler at [p], which is one below its plan. *)
Definition rounds (p : path) (backoff : Backoff.t) (attempt : nat) : nat :=
  retry_weight (retries_left N B (pred (length p)) backoff attempt).

Definition weight (p : path) (st : Stage) : nat :=
  match st with
  | Finished _ => 0
  | Planning _ backoff attempt => plan_weight (retries_left N B (length p) backoff attempt)
  | Joining j => 1 + (length (j_shards j) - length (j_collected j))
  | Preparing _ _ backoff attempt => 6 + rounds p backoff attempt
  | Acquiring r => 5 + rounds p (r_backoff r) (r_attempt r)
  | Queued r => 4 + rounds p (r_backoff r) (r_attempt r)
  | Assigned r => 3 + rounds p (r_backoff r) (r_attempt r)
  | Executing r => 2 + rounds p (r_backoff r) (r_attempt r)
  end.

Definition bounded (p : path) (st : Stage) : Prop :=
  match st with
  | Preparing _ region _ _ => p ≠ [] ∧ (non_witness_peers region ≤ N)%nat
  | Acquiring r | Queued r | Assigned r | Executing r => p ≠ [] ∧ (non_witness_peers (r_region r) ≤ N)%nat
  | _ => True
  end.

Lemma plan_weight_mono m m' : (m ≤ m')%nat → (plan_weight m ≤ plan_weight m')%nat.
Proof.
  revert m'. induction m as [|m IH]; intros [|m'] Hm; cbn [plan_weight]; [done | nia | lia|].
  specialize (IH m' ltac:(lia)). nia.
Qed.

Lemma retry_weight_mono m m' : (m ≤ m')%nat → (retry_weight m ≤ retry_weight m')%nat.
Proof. destruct m, m'; cbn [retry_weight]; try lia. intros. apply plan_weight_mono. lia. Qed.

Lemma plan_weight_retry m m' : (m < m')%nat → (plan_weight m ≤ retry_weight m')%nat.
Proof. destruct m'; [lia|]. intros. apply plan_weight_mono. lia. Qed.

(** A handler that decides to handle its plan again has fewer rounds left; the probe is a retry that runs for ever when there
    are not. *)
Definition probe (len m : nat) (plan : P) (backoff : Backoff.t) (attempt : nat) : run Results * list Action :=
  (if (retries_left N B (S len) backoff attempt <? m)%nat then Panicks else Running, []).

Lemma probe_follow len m d : follow (λ pl b a, (probe len m pl b a).1) d ≠ Running →
  ∀ p, length p = S len → (weight p (decide_stage d) ≤ retry_weight m)%nat ∧ bounded p (decide_stage d).
Proof.
  intros Hd p Hp. destruct d as [r|pl b a]; cbn [decide_stage weight bounded]; [split; [lia | done]|]. split; [|done].
  unfold follow, probe in Hd. cbn [fst] in Hd. destruct (Nat.ltb_spec (retries_left N B (S len) b a) m); [|done]. rewrite Hp. by apply plan_weight_retry.
Qed.

Lemma probe_runs len m plan b a : (retries_left N B (S len) b a < m)%nat → (probe len m plan b a).1 ≠ Running.
Proof. intros H. unfold probe. cbn [fst]. by apply Nat.ltb_lt in H as ->. Qed.

Lemma executed_weight p r : bounded p (Executing r) → ((B < length p)%nat → settled_at_once ops env p (r_plan r) (r_region r) = false) →
  (weight p (decide_stage (execute_decision ops env p r)) ≤ rounds p (r_backoff r) (r_attempt r))%nat ∧
  bounded p (decide_stage (execute_decision ops env p r)).
Proof.
  intros [Hp Hn] Hs. destruct p as [|i p]; [done|]. set (m := retries_left N B (length p) (r_backoff r) (r_attempt r)).
  apply (probe_follow (length p) m); [|done]. rewrite <- (execute_decision_follow ops env (probe (length p) m)).
  eapply (on_execute_ends ops env N B _ m _ (length p)); [done | apply probe_runs | unfold m; lia | done | done].
Qed.

Lemma prepared_ready p plan region b a r : prepare_decision ops env p plan region b a = Prepares r →
  r_attempt r = a ∧ (attempts_left (r_backoff r) ≤ attempts_left b)%nat ∧ non_witness_peers (r_region r) = non_witness_peers region.
Proof.
  set (g (o : Prepared (P:=P) (Resp:=Resp)) := ∀ r : Ready (P:=P), o = Prepares r → r_attempt r = a ∧ (attempts_left (r_backoff r) ≤ attempts_left b)%nat ∧
    non_witness_peers (r_region r) = non_witness_peers region).
  assert (∀ v s b a e, g (handle_other_error env (Decided ∘ Returns)
    (λ plan backoff attempt, (Decided (Again plan backoff attempt), [])) p plan v s b a e).1) as Hother.
  { intros. by apply (handle_other_error_decides env g). }
  revert r. change (g (prepare_decision ops env p plan region b a)). unfold prepare_decision, prepare_shard. cbv zeta.
  destruct (select_peer _ _ _ _) as [peer|e]; [|by destruct e]. destruct (RegionWithLeader.leader region); [|apply Hother].
  destruct (select_source_peer _ _ _) as [[?|?]|]; [|done|];
    (destruct (_ ≫= _) as [plan'|e']; [|by destruct e'];
     repeat (case_match; cbn); try done; intros r' [= <-]; cbn; split_and!; try done;
     match goal with E : next_delay_duration _ _ = Wait _ _ |- _ => apply wait_uses_attempt in E as [E _]; lia end).
Qed.

Lemma prepared_weight p plan region b a : bounded p (Preparing plan region b a) →
  match prepare_decision ops env p plan region b a with
  | Decided d => (weight p (decide_stage d) ≤ rounds p b a)%nat ∧ bounded p (decide_stage d)
  | Prepares r => (rounds p (r_backoff r) (r_attempt r) ≤ rounds p b a)%nat ∧ bounded p (Acquiring r)
  end.
Proof.
  intros [Hp Hn]. destruct p as [|i p]; [done|]. set (m := retries_left N B (length p) b a).
  pose proof (prepare_shard_natural ops env
    (λ o, match o with Decided d => follow (λ pl b a, (probe (length p) m pl b a).1) d | Prepares _ => Panicks end)
    (Decided ∘ Returns) (λ plan backoff attempt, (Decided (Again plan backoff attempt), [])) (probe (length p) m) (λ _ _ _, eq_refl)
    (λ plan region stale_read backoff, (Prepares (mkReady plan region stale_read backoff a), [])) (λ _ _ _ _, (Panicks, []))
    (i :: p) plan region b a (λ _ _ _ _, eq_refl)) as Hf.
  fold (prepare_decision ops env (i :: p) plan region b a) in Hf.
  destruct (prepare_decision ops env (i :: p) plan region b a) as [d|r] eqn:E.
  - apply (probe_follow (length p) m); [|done]. rewrite <- Hf.
    eapply (prepare_shard_ends ops env N B _ m _ (length p)); [done | apply probe_runs | unfold m; lia | done].
  - apply prepared_ready in E as (-> & Hb & Hr). split; [|split; [done | by rewrite Hr]].
    unfold rounds. apply retry_weight_mono. unfold retries_left. lia.
Qed.

(** Waiters that get permits come closer to the end. *)
Lemma assigned_weight p st st' : Semaphore.assigned users st st' → (weight p st' ≤ weight p st)%nat ∧ (bounded p st → bounded p st').
Proof. intros [->|[Hq ->]]; [done|]. destruct st; try done. cbn [weight]. split; [cbn; lia | done]. Qed.

Lemma releases_weight cap n sys : Semaphore.inv users cap (n + 0) sys →
  (total weight (Semaphore.releases users n sys).2 ≤ total weight sys.2)%nat.
Proof.
  intros Hi. apply total_le. intros q. pose proof (Semaphore.releases_lookup users cap n 0 sys q Hi) as Hq.
  destruct (sys.2 !! q); [|done]. destruct Hq as (st' & Hq & Ha). exists st'. split; [done|]. by apply assigned_weight.
Qed.

Lemma spawn_weight (p : path) (k : nat) (m : gmap path Stage) (cs : list Stage) : ∀ i : nat, (∀ k, m !! (k :: p) = None) →
  (∀ i c, c ∈ cs → (weight (i :: p) c ≤ k)%nat) → (total weight (spawn p i cs m) ≤ total weight m + length cs * k)%nat.
Proof.
  induction cs as [|c cs IH]; intros i Hm Hk; cbn [spawn length]; [lia|]. rewrite total_fresh.
  - specialize (IH (S i) Hm). pose proof (Hk i c ltac:(by apply elem_of_cons; left)).
    assert (∀ i c, c ∈ cs → (weight (i :: p) c ≤ k)%nat) as Hk' by (intros; apply Hk; by apply elem_of_cons; right).
    specialize (IH Hk'). lia.
  - rewrite spawn_other; [done|]. intros j _ [= E]. lia.
Qed.

Lemma set_weight s p st st' : tasks s !! p = Some st → (weight p st' < weight p st)%nat →
  (total weight (<[p := st']> (tasks s)) < total weight (tasks s))%nat.
Proof. intros Hp Hw. pose proof (total_update weight (tasks s) p st st' Hp). lia. Qed.

Lemma finish_weight cap s p n l r j : inv cap s → tasks s !! p = Some (Joining j) →
  (total weight (tasks (finish p n l r s)) < total weight (tasks s))%nat.
Proof.
  intros [_ Hi] Hp. pose proof (set_weight s p _ (Finished r) Hp ltac:(cbn; lia)) as Hs.
  assert (Semaphore.inv users cap 0 (permits s, <[p := Finished r]> (tasks s))) as Hi'
    by (eapply Semaphore.inv_set; [exact Hi | exact Hp | done..]).
  unfold finish. cbn [tasks]. unfold Semaphore.drop_tasks.
  pose proof (releases_weight cap _ _ (Semaphore.inv_drop_filter users cap 0 (below p) _ Hi')) as Hr. cbn [snd fst] in Hr |- *.
  pose proof (total_filter weight (below p) (<[p := Finished r]> (tasks s))). lia.
Qed.

Lemma plan_step_weight s p plan b a shards : good s → tasks s !! p = Some (Planning plan b a) →
  mapM id (plan_shards ops p plan) = Ok shards → (length shards ≤ width)%nat → (total weight (spawned s p plan b a shards) < total weight (tasks s))%nat.
Proof.
  intros Hg Hp Hs Hw. unfold spawned.
  set (j := Joining (mkJoin plan b a shards [] [])).
  pose proof (total_update weight (tasks s) p _ j Hp) as Hu.
  pose proof (spawn_weight p (6 + retry_weight (retries_left N B (length p) b a)) (<[p := j]> (tasks s))
    (shard_stages plan b a shards) 0) as Hsp.
  enough (length (shard_stages plan b a shards) * (6 + retry_weight (retries_left N B (length p) b a)) + weight p j <
    weight p (Planning plan b a))%nat.
  { assert (total weight (spawn p 0 (shard_stages plan b a shards) (<[p:=j]> (tasks s))) ≤ total weight (<[p:=j]> (tasks s)) +
      length (shard_stages plan b a shards) * (6 + retry_weight (retries_left N B (length p) b a)))%nat; [|lia].
    apply Hsp.
    - intros k. rewrite lookup_insert_ne; [by eapply no_children|]. intros E%(f_equal length). cbn in E. lia.
    - intros i c Hc. unfold shard_stages in Hc. apply list_elem_of_fmap in Hc as (x & -> & _). done. }
  unfold shard_stages. rewrite length_map. cbn [weight j j_shards j_collected length].
  set (m := retries_left _ _ _ _ _). assert (plan_weight m = 2 + width * (7 + retry_weight m))%nat as -> by (by destruct m). nia.
Qed.

Definition all_bounded (m : gmap path Stage) : Prop := map_Forall bounded m.

Lemma bounded_releases cap n sys : Semaphore.inv users cap (n + 0) sys → all_bounded sys.2 →
  all_bounded (Semaphore.releases users n sys).2.
Proof.
  intros Hi Hb q st' Hq'. pose proof (Semaphore.releases_lookup users cap n 0 sys q Hi) as Hq.
  destruct (sys.2 !! q) as [st|] eqn:E; [|congruence]. destruct Hq as (st1 & Hq & Ha). rewrite Hq' in Hq. injection Hq as <-.
  apply (assigned_weight q) in Ha as [_ Ha]. by apply Ha, Hb.
Qed.

Lemma bounded_finish cap s p n l r j : inv cap s → tasks s !! p = Some (Joining j) → all_bounded (tasks s) →
  all_bounded (tasks (finish p n l r s)).
Proof.
  intros [_ Hi] Hp Hb. assert (Semaphore.inv users cap 0 (permits s, <[p := Finished r]> (tasks s))) as Hi'
    by (eapply Semaphore.inv_set; [exact Hi | exact Hp | done..]).
  unfold finish. cbn [tasks]. unfold Semaphore.drop_tasks.
  apply (bounded_releases cap); [exact (Semaphore.inv_drop_filter users cap 0 (below p) _ Hi')|]. cbn [snd].
  intros q st [Hq _]%map_lookup_filter_Some. by eapply (map_Forall_insert_2 bounded (tasks s)); [| exact Hb | exact Hq].
Qed.

Lemma bounded_spawned s p plan b a shards : good s → tasks s !! p = Some (Planning plan b a) →
  mapM id (plan_shards ops p plan) = Ok shards → Forall (λ x, (non_witness_peers x.2 ≤ N)%nat) shards →
  all_bounded (tasks s) → all_bounded (spawned s p plan b a shards).
Proof.
  intros Hg Hp Hs Hpeers Hb q st Hq. apply (spawned_cases s p plan b a shards) in Hq
    as [[_ ->]|[[_ Hq]|(i & x & -> & Hx & ->)]]; [done | by apply Hb |].
  split; [done|]. rewrite Forall_forall in Hpeers. apply Hpeers. by eapply list_elem_of_lookup_2.
Qed.

Lemma plan_within s p plan b a shards : tasks s !! p = Some (Planning plan b a) → mapM id (plan_shards ops p plan) = Ok shards →
  exceeds s (Poll p) = false → (length shards ≤ width)%nat ∧ Forall (λ x, (non_witness_peers x.2 ≤ N)%nat) shards.
Proof.
  intros Hp Hs. unfold exceeds. rewrite Hp, Hs. intros [Hw Hn]%orb_false_iff. split; [by apply Nat.ltb_ge|].
  apply Forall_forall. intros x Hx. apply Nat.ltb_ge. apply not_true_iff_false. intros E. apply not_true_iff_false in Hn. apply Hn.
  apply existsb_exists. exists x. split; [by apply list_elem_of_In | done].
Qed.

Lemma execution_within s p r : tasks s !! p = Some (Executing r) → exceeds s (Poll p) = false →
  (B < length p)%nat → settled_at_once ops env p (r_plan r) (r_region r) = false.
Proof. intros Hp. unfold exceeds. rewrite Hp. intros [Hb|Hs]%andb_false_iff Hl; [|done]. apply Nat.ltb_ge in Hb. lia. Qed.

Lemma set_closer s p st st' : all_bounded (tasks s) → tasks s !! p = Some st → (weight p st' < weight p st)%nat → bounded p st' →
  all_bounded (<[p := st']> (tasks s)) ∧ (total weight (<[p := st']> (tasks s)) < total weight (tasks s))%nat.
Proof. intros Hb Hp Hw Hst. split; [by apply map_Forall_insert_2 | by eapply set_weight]. Qed.

(** Every step comes closer to the end. *)
Lemma poll_closer cap s p s' : inv cap s → all_bounded (tasks s) → exceeds s (Poll p) = false → poll p s = Some s' →
  all_bounded (tasks s') ∧ (total weight (tasks s') < total weight (tasks s))%nat.
Proof.
  intros Hi Hb Hx. unfold poll. destruct (tasks s !! p) as [st|] eqn:Hp; [|done]. cbn.
  destruct st as [plan b a|j|plan region b a|r|r|r|r|r]; try done.
  - destruct (mapM id (plan_shards ops p plan)) as [shards|e] eqn:Es; intros [= <-].
    + destruct (plan_within s p plan b a shards Hp Es Hx).
      split; [by apply bounded_spawned; [apply Hi|..] | by apply plan_step_weight; [apply Hi|..]].
    + eapply set_closer; [done | exact Hp | | done]. cbn [weight]. destruct (retries_left _ _ _ _ _); cbn; lia.
  - destruct (_ =? _)%nat; [|done]. intros [= <-]. split; [by eapply bounded_finish | by eapply finish_weight].
  - intros [= <-]. pose proof (prepared_weight p plan region b a (Hb p _ Hp)) as Hw.
    destruct (prepare_decision _ _ _ _ _ _ _) as [d|r]; destruct Hw as [Hw Hbd];
      (eapply set_closer; [done | exact Hp | cbn [weight]; lia | done]).
  - intros [= <-]. unfold with_sys, Semaphore.acquire. cbn [fst snd].
    destruct (Semaphore.ask _ _) as [[] ?]; cbn [tasks fst snd]; (eapply set_closer; [done | exact Hp | cbn [weight]; lia | by apply (Hb p _ Hp)]).
  - intros [= <-]. eapply set_closer; [done | exact Hp | cbn [weight]; lia | by apply (Hb p _ Hp)].
  - intros [= <-]. destruct (executed_weight p r (Hb p _ Hp) (execution_within s p r Hp Hx)) as [Hw Hbd]. set (d := execute_decision ops env p r) in *.
    destruct (set_closer s p _ (decide_stage d) Hb Hp) as [Hb' Hw']; [cbn [weight] in *; lia | done|].
    assert (Semaphore.inv users cap 1 (permits s, <[p := decide_stage d]> (tasks s))) as Hi'
      by (eapply Semaphore.inv_set; [exact (proj2 Hi) | exact Hp | done | by destruct d | by destruct d]).
    unfold with_sys. cbn [tasks]. split; [by apply (bounded_releases cap 1 _ Hi')|].
    pose proof (releases_weight cap 1 _ Hi'). cbn [Semaphore.releases snd] in *. lia.
Qed.

Lemma collect_closer cap s p i s' : inv cap s → all_bounded (tasks s) → collect p i s = Some s' →
  all_bounded (tasks s') ∧ (total weight (tasks s') < total weight (tasks s))%nat.
Proof.
  intros Hi Hb. unfold collect. destruct (tasks s !! p) as [st|] eqn:Hp; [|done].
  destruct (tasks s !! (i :: p)) as [child|] eqn:Hc; [|done]. cbn.
  destruct st as [|j| | | | | |]; try done. destruct child as [| | | | | | |r]; try done. case_bool_decide as Hn; [done|].
  assert (length (j_collected j) < length (j_shards j))%nat as Hlt.
  { destruct (g_join s (proj1 Hi) p j Hp) as [_ H2 (rs & H3 & _)].
    assert (j_collected j ++ [i] ⊆+ seq 0 (length (j_shards j))) as Hsub%submseteq_length; [|rewrite length_app, length_seq in Hsub; cbn in Hsub; lia].
    apply NoDup_submseteq; [apply NoDup_app; split_and!; [done | by intros q ? ->%list_elem_of_singleton | apply NoDup_singleton]|].
    intros k [Hk| ->%list_elem_of_singleton]%elem_of_app; apply elem_of_seq.
    - apply (taken_in_range s p j _ rs (proj1 Hi) Hp H3) in Hk. lia.
    - destruct (g_parent s (proj1 Hi) i p _ Hc) as (j' & Hj' & ?). rewrite Hp in Hj'. injection Hj' as <-. lia. }
  assert (∀ results, all_bounded (<[p := Joining (mkJoin (j_plan j) (j_backoff j) (j_attempt j) (j_shards j) (j_collected j ++ [i]) results)]> (tasks s)) ∧
    (total weight (<[p := Joining (mkJoin (j_plan j) (j_backoff j) (j_attempt j) (j_shards j) (j_collected j ++ [i]) results)]> (tasks s)) < total weight (tasks s))%nat) as Hgo.
  { intros results. eapply set_closer; [done | exact Hp | | done]. cbn [weight j_shards j_collected]. rewrite length_app. cbn. lia. }
  assert (∀ r, all_bounded (tasks (finish p (length (j_shards j)) (j_collected j ++ [i]) r s)) ∧
    (total weight (tasks (finish p (length (j_shards j)) (j_collected j ++ [i]) r s)) < total weight (tasks s))%nat) as Hfin
    by (intros r'; split; [by eapply bounded_finish | by eapply finish_weight]).
  destruct r as [| |[v|e]]; [done | | | destruct preserve_region_results]; intros [= <-]; (apply Hfin || apply Hgo).
Qed.

(** Either every step comes closer to the end, or one goes beyond the bounds. *)
Lemma run_bounded cap : ∀ es s s', inv cap s → all_bounded (tasks s) → run_steps step s es = Some s' →
  (length es + total weight (tasks s') ≤ total weight (tasks s))%nat ∨
  ∃ es1 e es2 s1, es = es1 ++ e :: es2 ∧ run_steps step s es1 = Some s1 ∧ exceeds s1 e = true.
Proof.
  induction es as [|e es IH]; intros s s' Hi Hb; [intros [= <-]; left; cbn; lia|]. rewrite run_steps_cons.
  destruct (step s e) as [s1|] eqn:E; [|done]. cbn [mbind option_bind]. intros Hr.
  destruct (exceeds s e) eqn:Hx; [right; by exists [], e, es, s|].
  assert (all_bounded (tasks s1) ∧ (total weight (tasks s1) < total weight (tasks s))%nat) as [Hb1 Hw1]
    by (destruct e; [by eapply poll_closer | by eapply collect_closer]).
  destruct (IH s1 s' (step_inv _ _ _ _ Hi E) Hb1 Hr) as [?|(es1 & e1 & es2 & s2 & -> & Hr2 & Hx2)]; [left; cbn [length]; lia|].
  right. exists (e :: es1), e1, es2, s2. split; [done|]. split; [by rewrite run_steps_cons, E | done].
Qed.

Lemma init_weight concurrency : total weight (tasks (init concurrency plan0 backoff0)) = plan_weight (retries_left N B 0 backoff0 0).
Proof. unfold init. cbn [tasks]. unfold total. rewrite map_to_list_singleton. cbn. lia. Qed.
End termination.
End multi_region.
End MultiRegion.

(** ** What the interleaved execution guarantees *)

Section theorems.
Context {P Shard Resp : Type} (ops : PlanOps P Shard Resp) (env : HandlerEnv) (preserve_region_results : bool).
Context {Sem : Semaphore.Ops (list nat)} {laws : Semaphore.Laws Sem}.
Import MultiRegion.

(** The requests that are with the stores. *)
Definition in_flight (s : State (P:=P) (Shard:=Shard) (Resp:=Resp)) : nat :=
  total (λ _ st, Nat.b2n match st with Executing _ => true | _ => false end) (tasks s).

Lemma in_flight_holders s : (in_flight s ≤ Semaphore.holders users (tasks s))%nat.
Proof.
  unfold in_flight, Semaphore.holders. induction (tasks s) as [|k st m Hk IH] using map_ind; [done|].
  rewrite !total_fresh by done. apply Nat.add_le_mono; [destruct st; cbn; lia | exact IH].
Qed.

(** Only the result is left of a request that ended. *)
Lemma ended_alone cap plan0 backoff0 s r : inv ops env preserve_region_results plan0 backoff0 cap s →
  tasks s !! [] = Some (Finished r) → ∀ q st, tasks s !! q = Some st → q = [].
Proof.
  intros [Hg _] Hr q st Hq. destruct (decide ([] = q)) as [|Hne]; [done|].
  destruct (good_ancestor _ _ _ _ _ s [] Hg q st Hq) as [j Hj]; [apply suffix_nil | done | congruence].
Qed.
End theorems.

(** C15: the handlers use the semaphore so that its permits bound what a request asks of the stores at once.  For every semaphore that
    behaves as documented ([Semaphore.Laws]), in every schedule of the handlers of a request over regions, early returns that
    drop handlers with their permits included: at most [max(concurrency, 1)] requests are with the stores, every permit is available
    or held by a handler, and when the request has ended all permits are back and nobody waits. *)
Theorem permits_bound_requests {P Shard Resp} (ops : PlanOps P Shard Resp) env preserve {Sem : Semaphore.Ops (list nat)}
    concurrency plan backoff es s : Semaphore.Laws Sem →
  run_steps (MultiRegion.step ops env preserve) (MultiRegion.init concurrency plan backoff) es = Some s →
  (in_flight s ≤ Nat.max concurrency 1)%nat ∧
  (Semaphore.available (MultiRegion.permits s) + Semaphore.holders MultiRegion.users (MultiRegion.tasks s) =
     Nat.max concurrency 1)%nat ∧
  ∀ r, MultiRegion.tasks s !! [] = Some (MultiRegion.Finished r) →
    Semaphore.available (MultiRegion.permits s) = Nat.max concurrency 1 ∧ Semaphore.waiters (MultiRegion.permits s) = [].
Proof.
  intros laws Hr. pose proof (MultiRegion.run_inv _ _ _ _ _ _ _ _ Hr) as Hi. pose proof (in_flight_holders s).
  destruct Hi as [Hg Hs]. pose proof (Semaphore.inv_permits _ _ _ _ Hs) as Hp. cbn in Hp. split_and!; [lia | lia|].
  intros r Hroot. pose proof (ended_alone _ _ _ _ _ _ s r (conj Hg Hs) Hroot) as Hal. split.
  - destruct (Semaphore.holders MultiRegion.users (MultiRegion.tasks s)) eqn:E; [lia|].
    destruct (Semaphore.holders_pos MultiRegion.users (MultiRegion.tasks s)) as (q & st & Hq & Hh); [lia|].
    rewrite (Hal q st Hq), Hroot in Hq. by injection Hq as <-.
  - destruct (Semaphore.waiters (MultiRegion.permits s)) as [|q w] eqn:E; [done|].
    destruct (proj1 (Semaphore.inv_waiters _ _ _ _ Hs q)) as (st & Hq & Hqd); [cbn; rewrite E; by apply elem_of_cons; left|].
    cbn in Hq. rewrite (Hal q st Hq), Hroot in Hq. by injection Hq as <-.
Qed.

(** C13: running the shards at the same time changes nothing about the results.  Whatever the schedule, and for every semaphore that
    behaves as documented ([Semaphore.Laws]), the result of a request that ends is the result of the sequential execution in which the
    shards of each plan finish in some order; where a plan handler ended, this order begins with the shards whose
    results it took, in the order in which it took them. *)
Theorem schedules_sequential {P Shard Resp} (ops : PlanOps P Shard Resp) env preserve {Sem : Semaphore.Ops (list nat)}
    concurrency plan backoff es s r : Semaphore.Laws Sem →
  run_steps (MultiRegion.step ops env preserve) (MultiRegion.init concurrency plan backoff) es = Some s →
  MultiRegion.tasks s !! [] = Some (MultiRegion.Finished r) →
  ∃ ord, (∀ path n, ord path n ≡ₚ seq 0 n) ∧
    (∀ path n taken, MultiRegion.joined s !! path = Some (n, taken) → taken `prefix_of` ord path n) ∧
    ∃ F, ∀ fuel, (F ≤ fuel)%nat → multi_region_execute ops (MultiRegion.set_order env ord) preserve fuel plan backoff = r.
Proof.
  intros laws Hr Hroot.
  destruct (MultiRegion.finished_sequential ops env preserve plan backoff _ s r (MultiRegion.run_inv _ _ _ _ _ _ _ _ Hr) Hroot)
    as (ord & F & [Hord Hpre] & HF). exists ord. split; [done|]. split; [done|]. exists F. exact HF.
Qed.

(** C14: the handlers of a request over regions never block each other, and only stores or PD can keep a request running.
    For every semaphore that behaves as documented ([Semaphore.Laws]) and in every schedule: either the request has ended
    or some handler can move.  And for any numbers [N], [B] and [width], a schedule that is longer than a bound given by them and the
    backoff has a step at which a plan was cut into more than [width] shards, or a region with more than [N] peers was
    met, or, deeper than [B] in the retry tree, a store's region error was settled without waiting: the retries of stale
    reads, of replica switching and of the backoff are bounded by the code itself. *)
Theorem schedules_end {P Shard Resp} (ops : PlanOps P Shard Resp) env preserve {Sem : Semaphore.Ops (list nat)}
    N B width concurrency plan backoff es s : Semaphore.Laws Sem →
  run_steps (MultiRegion.step ops env preserve) (MultiRegion.init concurrency plan backoff) es = Some s →
  ((∃ r, r ≠ Running ∧ MultiRegion.tasks s !! [] = Some (MultiRegion.Finished r)) ∨
   ∃ e s', MultiRegion.step ops env preserve s e = Some s') ∧
  ((length es ≤ MultiRegion.plan_weight width (retries_left N B 0 backoff 0))%nat ∨
   ∃ es1 e es2 s1, es = es1 ++ e :: es2 ∧
     run_steps (MultiRegion.step ops env preserve) (MultiRegion.init concurrency plan backoff) es1 = Some s1 ∧
     MultiRegion.exceeds ops env N B width s1 e = true).
Proof.
  intros laws Hrun. pose proof (MultiRegion.run_inv _ _ _ _ _ _ _ _ Hrun) as Hi. split.
  - destruct (MultiRegion.g_root _ _ _ _ _ s (proj1 Hi)) as [st Hst]. destruct (MultiRegion.finished_or_live st) as [[r ->]|Hnf].
    + left. exists r. split; [by eapply (MultiRegion.g_ended _ _ _ _ _ s (proj1 Hi)) | done].
    + right. eapply (MultiRegion.run_moves ops env preserve plan backoff (Nat.max concurrency 1)); [lia | done | congruence].
  - rewrite <- (MultiRegion.init_weight (Shard:=Shard) (Resp:=Resp) plan backoff N B width concurrency).
    destruct (MultiRegion.run_bounded ops env preserve plan backoff N B width _ es _ s
      (MultiRegion.init_inv ops env preserve plan backoff concurrency)) as [Hb|Hb]; [|exact Hrun|left; lia|by right].
    unfold MultiRegion.init. cbn [MultiRegion.tasks]. by intros q st [<- <-]%lookup_singleton_Some.
Qed.

(** A complete answer is also complete in every schedule. *)
Lemma schedules_complete {P Shard Resp K} (R : relation (list K)) (ops : PlanOps P Shard Resp) env preserve valid
    (content : P → list K) {Sem : Semaphore.Ops (list nat)} concurrency plan backoff es s results :
  Semaphore.Laws Sem → ContentEquiv R → PartitionsUpTo R ops valid content → valid plan →
  run_steps (MultiRegion.step ops env preserve) (MultiRegion.init concurrency plan backoff) es = Some s →
  MultiRegion.tasks s !! [] = Some (MultiRegion.Finished (Done (Ok results))) →
  covers (R:=R) ops preserve valid content plan results.
Proof.
  intros laws HR HP Hv Hr Hroot.
  destruct (MultiRegion.finished_sequential ops env preserve plan backoff _ s _ (MultiRegion.run_inv _ _ _ _ _ _ _ _ Hr) Hroot)
    as (ord & F & [Hord _] & HF).
  by apply (single_plan_covers ops (MultiRegion.set_order env ord) preserve valid content Hord F [] plan backoff 0); [|apply HF].
Qed.

#[local] Existing Instance Semaphore.fifo.

(** Two regions and one permit: the second shard waits for the first, is answered that its store is busy, and is cut and
    sent again. *)
Definition sample_schedule : list MultiRegion.Event :=
  let poll := MultiRegion.Poll in let take := MultiRegion.Collect in
  [poll []; poll [0]; poll [1]; poll [0]; poll [1]; poll [0]; poll [1]; poll [1]; take [] 0; poll [1]; poll [0; 1]; poll [0; 1];
   poll [0; 1]; take [1] 0; poll [1]; take [] 1; poll []]%nat.

(** After the fifth step the second shard is in the queue. *)
Lemma permits_bound_requests_witness : ∃ s,
  run_steps (MultiRegion.step sample_keys_ops sample_handler_env false)
    (MultiRegion.init 0 [[97]; [120]] DEFAULT_REGION_BACKOFF) (take 5 sample_schedule) = Some s ∧
  Semaphore.waiters (MultiRegion.permits s) = [[1%nat]] ∧ (in_flight s ≤ 1)%nat.
Proof.
  eexists. split; [vm_compute; reflexivity|]. split; [reflexivity|].
  apply (proj1 (permits_bound_requests sample_keys_ops sample_handler_env false 0 [[97]; [120]] DEFAULT_REGION_BACKOFF
    (take 5 sample_schedule) _ (Semaphore.fifo_laws _) ltac:(vm_compute; reflexivity))).
Defined.

Lemma schedules_sequential_witness : ∃ ord, (∀ path n, ord path n ≡ₚ seq 0 n) ∧
  [0; 1]%nat `prefix_of` ord [] 2%nat ∧
  ∃ F, ∀ fuel, (F ≤ fuel)%nat →
    multi_region_execute sample_keys_ops (MultiRegion.set_order sample_handler_env ord) false fuel [[97]; [120]]
      DEFAULT_REGION_BACKOFF = Done (Ok [Ok ([[97]], None); Ok ([[120]], None)]).
Proof.
  destruct (schedules_sequential sample_keys_ops sample_handler_env false 0 [[97]; [120]] DEFAULT_REGION_BACKOFF sample_schedule
    _ _ (Semaphore.fifo_laws _) ltac:(vm_compute; reflexivity) ltac:(vm_compute; reflexivity)) as (ord & Hord & Hpre & HF).
  exists ord. split; [exact Hord|]. split; [|exact HF]. apply Hpre. vm_compute. reflexivity.
Defined.

(** A request that is always cut into two shards, the second of which is busy at first. *)
Definition fixed_ops : PlanOps () () (list nat) := {|
  plan_shards path _ := [Ok ((), led (sample_region 1 1 [] [109])); Ok ((), led (sample_region 2 1 [109] []))];
  plan_apply_shard _ plan := plan;
  plan_apply_store _ plan := Ok plan;
  plan_execute path _ := Ok path;
  resp_key_errors _ := None;
  resp_region_error path := if bool_decide (path = [1%nat]) then Some busy else None
|}.

Definition fixed_schedule : list MultiRegion.Event :=
  let poll := MultiRegion.Poll in let take := MultiRegion.Collect in
  [poll []; poll [1]; poll [0]; poll [1]; poll [0]; poll [1]; poll [0]; poll [1]; poll [0; 1]; poll [1; 1]; poll [1; 1]; poll [0; 1];
   poll [1; 1]; poll [0; 1]; take [1] 1; take [1] 0; poll [1]; take [] 1; take [] 0; poll []]%nat.

(** The schedule keeps within the bounds for two shards, no peers and no region error settled at once: it is not longer than they allow. *)
Lemma schedules_end_witness : ∃ s,
  run_steps (MultiRegion.step fixed_ops sample_handler_env false) (MultiRegion.init 2 () DEFAULT_REGION_BACKOFF) fixed_schedule = Some s ∧
  MultiRegion.tasks s !! [] = Some (MultiRegion.Finished (Done (Ok [Ok [1; 1]; Ok [0; 1]; Ok [0]])))%nat ∧
  (length fixed_schedule ≤ MultiRegion.plan_weight 2 (retries_left 0 0 0 DEFAULT_REGION_BACKOFF 0))%nat.
Proof.
  eexists. split; [vm_compute; reflexivity|]. split; [vm_compute; reflexivity|].
  destruct (proj2 (schedules_end fixed_ops sample_handler_env false 0 0 2 2 () DEFAULT_REGION_BACKOFF fixed_schedule _
    (Semaphore.fifo_laws _) ltac:(vm_compute; reflexivity))) as [H|(es1 & [p|] & es2 & s1 & _ & _ & Hx)]; [exact H | | done].
  exfalso. unfold MultiRegion.exceeds in Hx. destruct (MultiRegion.tasks s1 !! p) as [[]|]; try done.
  - unfold settled_at_once in Hx. cbn in Hx. apply andb_true_iff in Hx as [_ Hx]. by case_bool_decide.
Defined.
