(* ===== verification/PlanBuilders.v ===== *)
(** * Building plans (src/src/request/plan_builder.rs, src/src/request/shard.rs, src/src/request/plan.rs)

    A plan is built by nesting: [PlanBuilder::new] wraps a request, and each method of the builder wraps the plan it has
    into another.  Which methods there are for a builder depends on its phase ([NoTarget] or [Targetted]) and on the traits of
    the plan and of its result; [built] is the set of builders that these bounds allow.

    A plan can be executed without what a wrapper must have been given before: a request its [kv_client], [CleanupLocks] its
    store, [PreserveShard] its shard.  The code answers these with internal errors.  [fails] says when an execution meets one,
    whatever PD and the stores answer.

    Requests, shards, stores, contexts and routings are arguments: what they hold is in Contexts.v, ReadRouting.v and
    TxnPlans.v, the executions are in Plans.v and LockPlans.v. *)

From S2P Require Import Prelude Errors Backoffs Plans.

Section builders.
Context {Client Req Shard RegionStore Store RequestContext ReadRouting Keyspace : Type}.
(** [RegionStore::client] and [Store::client] *)
Context (region_client : RegionStore → Client) (store_client : Store → Client).
(** what the traits of requests do: [Shardable] and [StoreRequest] *)
Context (request_clone_apply_shard request_apply_shard : Shard → Req → Req) (request_apply_store : RegionStore → Req → Result Req).
Context (request_apply_kv_store : Store → Req → Req) (request_shardable request_next_batch request_for_stores : Req → bool).

(** ** Plans *)

(** What a plan results in, as far as the bounds of the builder tell results apart: a response, the result of
    [CleanupLocks], a response with its shard, a [Vec<Result<_>>], or what a merge or a processor makes of it. *)
Inductive ResultTy := Response | CleanupResult | WithShard (r : ResultTy) | Vec (r : ResultTy) | Out.

Inductive Plan :=
| Dispatch (request : Req) (kv_client : option Client)
| ResolveLock (inner : Plan) (backoff : Backoff.t) (keyspace : Keyspace) (request_context : RequestContext) (read_routing : ReadRouting)
| CleanupLocks (inner : Plan) (store : option RegionStore) (backoff : Backoff.t) (keyspace : Keyspace) (request_context : RequestContext)
| PreserveShard (inner : Plan) (shard : option Shard)
| RetryableMultiRegion (inner : Plan) (backoff : Backoff.t) (concurrency : nat) (preserve_region_results : bool)
    (request_context : RequestContext) (read_routing : ReadRouting)
| RetryableAllStores (inner : Plan) (backoff : Backoff.t)
| MergeResponse (inner : Plan) (out : ResultTy)
| ProcessResponse (inner : Plan) (out : ResultTy)
| ExtractError (inner : Plan).

Fixpoint result (p : Plan) : ResultTy :=
  match p with
  | Dispatch _ _ => Response
  | ResolveLock inner _ _ _ _ | ExtractError inner => result inner
  | CleanupLocks _ _ _ _ _ => CleanupResult
  | PreserveShard inner _ => WithShard (result inner)
  | RetryableMultiRegion inner _ _ _ _ _ | RetryableAllStores inner _ => Vec (result inner)
  | MergeResponse _ out | ProcessResponse _ out => out
  end.

(** [Shardable], [NextBatch] and [StoreRequest] *)
Fixpoint shardable (p : Plan) : bool :=
  match p with
  | Dispatch req _ => request_shardable req
  | ResolveLock inner _ _ _ _ | CleanupLocks inner _ _ _ _ | PreserveShard inner _ => shardable inner
  | _ => false
  end.
Definition next_batch (p : Plan) : bool := match p with Dispatch req _ => request_next_batch req | _ => false end.
Definition for_stores (p : Plan) : bool := match p with Dispatch req _ => request_for_stores req | _ => false end.

(** [Clone]: the clones of [CleanupLocks] and [PreserveShard] lose their store and their shard. *)
Fixpoint clone (p : Plan) : Plan :=
  match p with
  | Dispatch req c => Dispatch req c
  | ResolveLock inner b k rc rr => ResolveLock (clone inner) b k rc rr
  | CleanupLocks inner _ b k rc => CleanupLocks (clone inner) None b k rc
  | PreserveShard inner _ => PreserveShard (clone inner) None
  | RetryableMultiRegion inner b n pr rc rr => RetryableMultiRegion (clone inner) b n pr rc rr
  | RetryableAllStores inner b => RetryableAllStores (clone inner) b
  | MergeResponse inner out => MergeResponse (clone inner) out
  | ProcessResponse inner out => ProcessResponse (clone inner) out
  | ExtractError inner => ExtractError (clone inner)
  end.

Fixpoint apply_shard (s : Shard) (p : Plan) : Plan :=
  match p with
  | Dispatch req c => Dispatch (request_apply_shard s req) c
  | ResolveLock inner b k rc rr => ResolveLock (apply_shard s inner) b k rc rr
  | CleanupLocks inner st b k rc => CleanupLocks (apply_shard s inner) st b k rc
  | PreserveShard inner _ => PreserveShard (apply_shard s inner) (Some s)
  | p => p
  end.

(** [Dispatch] has its own; the others clone and apply. *)
Definition clone_then_apply_shard (s : Shard) (p : Plan) : Plan :=
  match p with
  | Dispatch req c => Dispatch (request_clone_apply_shard s req) c
  | p => apply_shard s (clone p)
  end.

Fixpoint apply_store (st : RegionStore) (p : Plan) : Result Plan :=
  match p with
  | Dispatch req _ => req ← request_apply_store st req; Ok (Dispatch req (Some (region_client st)))
  | ResolveLock inner b k rc rr => inner ← apply_store st inner; Ok (ResolveLock inner b k rc rr)
  | CleanupLocks inner _ b k rc => inner ← apply_store st inner; Ok (CleanupLocks inner (Some st) b k rc)
  | PreserveShard inner s => inner ← apply_store st inner; Ok (PreserveShard inner s)
  | p => Ok p
  end.

(** [StoreRequest for Dispatch] *)
Definition apply_kv_store (st : Store) (p : Plan) : Plan :=
  match p with Dispatch req _ => Dispatch (request_apply_kv_store st req) (Some (store_client st)) | p => p end.

(** ** Executions that miss something *)

Inductive Missing := KvClient | AttachedStore | AttachedShard.

(** The plans that the plan handlers of a multi-region execution come to handle, shard by shard and round by round. *)
Inductive handled (i : Plan) : Plan → Prop :=
| handled_inner : handled i (clone i)
| handled_shard s p : handled i p → handled i (clone_then_apply_shard s p)
| handled_store st p p' : handled i p → apply_store st p = Ok p' → handled i p'.

Inductive fails : Plan → Missing → Prop :=
| fails_dispatch req : fails (Dispatch req None) KvClient
| fails_resolve inner b k rc rr m : fails inner m → fails (ResolveLock inner b k rc rr) m
(** after a lock that is still alive the clone's plan is executed *)
| fails_resolve_again inner b k rc rr m : fails (clone inner) m → fails (ResolveLock inner b k rc rr) m
| fails_cleanup_store inner b k rc : fails (CleanupLocks inner None b k rc) AttachedStore
| fails_cleanup inner st b k rc m : fails (clone inner) m → fails (CleanupLocks inner (Some st) b k rc) m
| fails_preserve inner s m : fails inner m → fails (PreserveShard inner s) m
| fails_preserve_shard inner : fails (PreserveShard inner None) AttachedShard
| fails_multi_region inner b n pr rc rr s st p p' m :
    handled inner p → apply_store st (clone_then_apply_shard s p) = Ok p' → fails p' m →
    fails (RetryableMultiRegion inner b n pr rc rr) m
| fails_all_stores inner b st m : fails (apply_kv_store st (clone inner)) m → fails (RetryableAllStores inner b) m
| fails_merge inner out m : fails inner m → fails (MergeResponse inner out) m
| fails_process inner out m : fails inner m → fails (ProcessResponse inner out) m
| fails_extract inner m : fails inner m → fails (ExtractError inner) m.

(** ** The builder *)

Inductive Phase := NoTarget | Targetted.

Record PlanBuilder (ph : Phase) := mkBuilder { plan : Plan; request_context : RequestContext; read_routing : ReadRouting }.
Arguments mkBuilder {ph} _ _ _.
Arguments plan {ph} _.
Arguments request_context {ph} _.
Arguments read_routing {ph} _.

(** [req] has the API version and the source that [PlanBuilder::new] writes (Contexts.v). *)
Definition new (req : Req) (rc : RequestContext) (rr : ReadRouting) : PlanBuilder NoTarget := mkBuilder (Dispatch req None) rc rr.
Definition with_request_context {ph} (rc : RequestContext) (b : PlanBuilder ph) : PlanBuilder ph := mkBuilder (plan b) rc (read_routing b).
Definition with_read_routing {ph} (rr : ReadRouting) (b : PlanBuilder ph) : PlanBuilder ph := mkBuilder (plan b) (request_context b) rr.

Definition resolve_lock {ph} (backoff : Backoff.t) (keyspace : Keyspace) (b : PlanBuilder ph) : PlanBuilder ph :=
  mkBuilder (ResolveLock (plan b) backoff keyspace (request_context b) (read_routing b)) (request_context b) (read_routing b).
Definition cleanup_locks {ph} (backoff : Backoff.t) (keyspace : Keyspace) (b : PlanBuilder ph) : PlanBuilder ph :=
  mkBuilder (CleanupLocks (plan b) None backoff keyspace (request_context b)) (request_context b) (read_routing b).
Definition merge {ph} (out : ResultTy) (b : PlanBuilder ph) : PlanBuilder ph :=
  mkBuilder (MergeResponse (plan b) out) (request_context b) (read_routing b).
Definition post_process_default {ph} (out : ResultTy) (b : PlanBuilder ph) : PlanBuilder ph :=
  mkBuilder (ProcessResponse (plan b) out) (request_context b) (read_routing b).
Definition make_retry_multi_region (backoff : Backoff.t) (preserve_region_results : bool) (concurrency : nat)
    (b : PlanBuilder NoTarget) : PlanBuilder Targetted :=
  mkBuilder (RetryableMultiRegion (plan b) backoff concurrency preserve_region_results (request_context b) (read_routing b))
    (request_context b) (read_routing b).

Definition MULTI_REGION_CONCURRENCY : nat := 16.
Definition retry_multi_region (backoff : Backoff.t) := make_retry_multi_region backoff false MULTI_REGION_CONCURRENCY.
Definition retry_multi_region_with_concurrency (backoff : Backoff.t) (concurrency : nat) :=
  make_retry_multi_region backoff false concurrency.
Definition retry_multi_region_preserve_results (backoff : Backoff.t) := make_retry_multi_region backoff true MULTI_REGION_CONCURRENCY.
Definition retry_multi_region_preserve_results_with_concurrency (backoff : Backoff.t) (concurrency : nat) :=
  make_retry_multi_region backoff true concurrency.

(** [set_single_region_store]; only a builder of a [Dispatch] has it. *)
Definition single_region_with_store (st : RegionStore) (b : PlanBuilder NoTarget) : Result (PlanBuilder Targetted) :=
  p ← apply_store st (plan b); Ok (mkBuilder p (request_context b) (read_routing b)).
Definition all_stores (backoff : Backoff.t) (b : PlanBuilder NoTarget) : PlanBuilder Targetted :=
  mkBuilder (RetryableAllStores (plan b) backoff) (request_context b) (read_routing b).
Definition preserve_shard (b : PlanBuilder NoTarget) : PlanBuilder NoTarget :=
  mkBuilder (PreserveShard (plan b) None) (request_context b) (read_routing b).
Definition extract_error (b : PlanBuilder Targetted) : PlanBuilder Targetted :=
  mkBuilder (ExtractError (plan b)) (request_context b) (read_routing b).

(** The builders that the phases and the bounds of the methods allow.  [late] also allows [cleanup_locks] on a builder that
    has its target already. *)
Inductive built (late : bool) : ∀ ph, PlanBuilder ph → Prop :=
| built_new req rc rr : built late NoTarget (new req rc rr)
| built_context ph b rc : built late ph b → built late ph (with_request_context rc b)
| built_routing ph b rr : built late ph b → built late ph (with_read_routing rr b)
| built_resolve_lock ph b backoff k : built late ph b → result (plan b) = Response → built late ph (resolve_lock backoff k b)
| built_cleanup_locks ph b backoff k : built late ph b → shardable (plan b) = true → next_batch (plan b) = true →
    ph = NoTarget ∨ late = true → built late ph (cleanup_locks backoff k b)
| built_merge ph b r out : built late ph b → result (plan b) = Vec r → built late ph (merge out b)
| built_process ph b out : built late ph b → built late ph (post_process_default out b)
| built_multi_region b backoff preserve concurrency : built late NoTarget b → shardable (plan b) = true →
    built late Targetted (make_retry_multi_region backoff preserve concurrency b)
| built_single_region b req st b' : built late NoTarget b → plan b = Dispatch req None →
    single_region_with_store st b = Ok b' → built late Targetted b'
| built_all_stores b backoff : built late NoTarget b → for_stores (plan b) = true → built late Targetted (all_stores backoff b)
| built_preserve_shard b : built late NoTarget b → shardable (plan b) = true → built late NoTarget (preserve_shard b)
| built_extract_error b : built late Targetted b → built late Targetted (extract_error b).

(** ** What is attached when *)

(** Requests with lock resolution: their clones are as good as they are. *)
Fixpoint plain (p : Plan) : Prop :=
  match p with Dispatch _ _ => True | ResolveLock inner _ _ _ _ => plain inner | _ => False end.

(** The plans without a target that can be cut into shards. *)
Fixpoint open (p : Plan) : Prop :=
  match p with
  | Dispatch _ _ => True
  | ResolveLock inner _ _ _ _ => plain inner
  | CleanupLocks inner _ _ _ _ => plain inner
  | PreserveShard inner _ => open inner
  | _ => False
  end.

Fixpoint sharded (p : Plan) : Prop :=
  match p with PreserveShard inner s => s ≠ None ∧ sharded inner | _ => True end.

(** An open plan with all it needs. *)
Fixpoint attached (p : Plan) : Prop :=
  match p with
  | Dispatch _ c => c ≠ None
  | ResolveLock inner _ _ _ _ => plain inner ∧ attached inner
  | CleanupLocks inner st _ _ _ => st ≠ None ∧ plain inner ∧ attached inner
  | PreserveShard inner s => s ≠ None ∧ attached inner
  | _ => False
  end.

Lemma plain_clone p : plain p → clone p = p.
Proof. induction p; cbn; try done. intros Hp. by rewrite IHp. Qed.

Lemma clone_idem p : clone (clone p) = clone p.
Proof. induction p; cbn; congruence. Qed.

Lemma plain_open p : open p → result p = Response → plain p.
Proof. by destruct p. Qed.

Lemma attached_runs p m : attached p → ¬ fails p m.
Proof.
  induction p as [req c|i IH ? ? ? ?|i IH st ? ? ?|i IH s| | | | |]; cbn; try done.
  - intros Hc Hf. by inversion Hf; subst.
  - intros [Hp Ha] Hf. inversion Hf; subst; [by apply IH|]. rewrite plain_clone in * by done. by apply IH.
  - intros (Hs & Hp & Ha) Hf. inversion Hf; subst; [done|]. rewrite plain_clone in * by done. by apply IH.
  - intros [Hs Ha] Hf. inversion Hf; subst; [by apply IH | done].
Qed.

Lemma plain_apply_shard s p : plain p → plain (apply_shard s p).
Proof. induction p; cbn; auto. Qed.

Lemma open_clone p : open p → open (clone p).
Proof. induction p; cbn; auto; intros Hp; by rewrite plain_clone. Qed.

Lemma open_apply_shard s p : open p → open (apply_shard s p) ∧ sharded (apply_shard s p).
Proof. induction p; cbn; try done; [by split; [apply plain_apply_shard|] .. | naive_solver]. Qed.

Lemma open_clone_shard s p : open p → open (clone_then_apply_shard s p) ∧ sharded (clone_then_apply_shard s p).
Proof. intros Hp. destruct p; try done; by apply open_apply_shard, open_clone. Qed.

Lemma plain_apply_store st p p' : plain p → apply_store st p = Ok p' → plain p' ∧ attached p'.
Proof.
  revert p'. induction p; cbn; try done; intros p' Hp E.
  - destruct (request_apply_store st request); [|done]. cbn in E. by simplify_eq.
  - destruct (apply_store st p) as [i|e]; [|done]. cbn in E. simplify_eq. cbn. split; by apply IHp.
Qed.

Lemma open_apply_store st p p' : open p → apply_store st p = Ok p' → open p' ∧ (sharded p → attached p').
Proof.
  revert p'. induction p; cbn; try done; intros p' Hp E.
  - destruct (request_apply_store st request); [|done]. cbn in E. by simplify_eq.
  - destruct (apply_store st p) as [i|e] eqn:Ei; [|done]. cbn in E. simplify_eq. cbn.
    destruct (plain_apply_store st p i Hp Ei). done.
  - destruct (apply_store st p) as [i|e] eqn:Ei; [|done]. cbn in E. simplify_eq. cbn.
    destruct (plain_apply_store st p i Hp Ei). done.
  - destruct (apply_store st p) as [i|e] eqn:Ei; [|done]. cbn in E. simplify_eq. cbn. destruct (IHp i Hp eq_refl). naive_solver.
Qed.

Lemma handled_open i p : open i → handled i p → open p.
Proof.
  intros Hi. induction 1 as [|s p _ IH|st p p' _ IH E]; [by apply open_clone | by apply open_clone_shard |].
  by eapply open_apply_store.
Qed.

(** A multi-region execution attaches what its shards need. *)
Lemma multi_region_runs i b n pr rc rr m : open i → ¬ fails (RetryableMultiRegion i b n pr rc rr) m.
Proof.
  intros Hi Hf. inversion Hf; subst. match goal with H : handled _ _ |- _ => apply (handled_open _ _ Hi) in H as Hp end.
  destruct (open_clone_shard s p Hp) as [Ho Hs].
  match goal with H : apply_store _ _ = Ok _ |- _ => destruct (open_apply_store st _ _ Ho H) as [_ Ha] end.
  by eapply attached_runs; [apply Ha|].
Qed.

(** What every builder has: with a target, its plan and the clone of it miss at most the store of a late [cleanup_locks];
    without one, a plan that can be cut is open. *)
Definition sound (late : bool) (ph : Phase) (b : PlanBuilder ph) : Prop :=
  match ph with
  | NoTarget => shardable (plan b) = true → open (plan b)
  | Targetted => ∀ m, fails (plan b) m ∨ fails (clone (plan b)) m → late = true ∧ m = AttachedStore
  end.

Lemma built_sound late ph b : built late ph b → sound late ph b.
Proof.
  induction 1 as [req rc rr|ph b rc _ IH|ph b rr _ IH|ph b bo k _ IH Hr|ph b bo k _ IH Hs Hn Hl|ph b r out _ IH Hr|ph b out _ IH
    |b bo pr n _ IH Hs|b req st b' _ IH Hd E|b bo _ IH Hs|b _ IH Hs|b _ IH]; try done.
  - destruct ph; cbn in *; [intros Hs; by apply plain_open; [apply IH|]|]. intros m [Hf|Hf]; inversion Hf; subst; apply IH; auto.
    rewrite clone_idem in *. auto.
  - destruct (plan b) as [req c| | | | | | | |] eqn:Ep; try done. destruct ph; cbn in *; rewrite Ep; [done|].
    destruct Hl as [?|Hl]; [done|]. intros m [Hf|Hf]; inversion Hf; subst; done.
  - destruct ph; cbn in *; [done|]. intros m [Hf|Hf]; inversion Hf; subst; apply IH; auto.
  - destruct ph; cbn in *; [done|]. intros m [Hf|Hf]; inversion Hf; subst; apply IH; auto.
  - cbn in *. intros m [Hf|Hf]; by apply multi_region_runs in Hf; auto using open_clone.
  - unfold single_region_with_store in E. rewrite Hd in E. cbn in E. destruct (request_apply_store st req) as [req'|e]; [|done].
    cbn in E. simplify_eq. cbn. intros m [Hf|Hf]; inversion Hf.
  - destruct (plan b) as [req c| | | | | | | |] eqn:Ep; try done. cbn. rewrite Ep. cbn.
    intros m [Hf|Hf]; inversion Hf; subst; match goal with H : fails (apply_kv_store _ _) _ |- _ => inversion H end.
  - cbn in *. intros m [Hf|Hf]; inversion Hf; subst; apply IH; auto.
Qed.
End builders.

Arguments plan {Client Req Shard RegionStore RequestContext ReadRouting Keyspace ph} _.

(** C21: a plan that has been built has what it needs.  Whatever methods of the builder are called, in whatever order its phases and
    bounds allow, an execution of the plan it returns never finds a request without its client, [PreserveShard] without its
    shard or [CleanupLocks] without its store, for any answers of PD and the stores, with retries, clones and the resolution of
    locks included; the one exception is the store of a [cleanup_locks] called on a builder that already had its target. *)
Theorem built_plans_attached {Client Req Shard RegionStore Store RequestContext ReadRouting Keyspace : Type}
    (region_client : RegionStore → Client) (store_client : Store → Client)
    (request_clone_apply_shard request_apply_shard : Shard → Req → Req) request_apply_store
    (request_apply_kv_store : Store → Req → Req) request_shardable request_next_batch request_for_stores
    late (b : @PlanBuilder Client Req Shard RegionStore RequestContext ReadRouting Keyspace Targetted) m :
  built region_client request_apply_store request_shardable request_next_batch request_for_stores late Targetted b →
  fails region_client store_client request_clone_apply_shard request_apply_shard request_apply_store request_apply_kv_store (plan b) m →
  late = true ∧ m = AttachedStore.
Proof. intros Hb Hf. eapply (built_sound _ _ _ _ _ _ _ _ _ late Targetted b Hb). left. exact Hf. Qed.

(** Pessimistic locks are taken with a plan of this shape: [new], [resolve_lock], [preserve_shard],
    [retry_multi_region_preserve_results], [merge]. *)
Abbreviation SampleBuilder ph := (@PlanBuilder unit unit unit unit unit unit unit ph).

Definition sample_lock_builder : SampleBuilder Targetted :=
  merge Out (retry_multi_region_preserve_results DEFAULT_REGION_BACKOFF
    (preserve_shard (resolve_lock OPTIMISTIC_BACKOFF () (new () () ())))).

Definition sample_fails : Plan → Missing → Prop :=
  @fails unit unit unit unit unit unit unit unit id id (λ _ r, r) (λ _ r, r) (λ _ r, Ok r) (λ _ r, r).
Definition sample_built (late : bool) (ph : Phase) : SampleBuilder ph → Prop :=
  @built unit unit unit unit unit unit unit id (λ _ r, Ok r) (λ _, true) (λ _, true) (λ _, true) late ph.

(** A builder with its target that is told to clean up locks makes a plan that cannot run. *)
Definition sample_target : SampleBuilder Targetted := mkBuilder Targetted (Dispatch () (Some ())) () ().

Lemma late_cleanup_misses_store : sample_built true Targetted (cleanup_locks OPTIMISTIC_BACKOFF () sample_target) ∧
  sample_fails (plan (cleanup_locks OPTIMISTIC_BACKOFF () sample_target)) AttachedStore.
Proof.
  split; [|constructor]. apply built_cleanup_locks; [|reflexivity..|by right].
  by eapply (built_single_region _ _ _ _ _ _ (new () () ()) () ()); [apply built_new| |].
Qed.

Lemma built_plans_attached_witness : sample_built false Targetted sample_lock_builder ∧
  ¬ sample_fails (plan sample_lock_builder) KvClient.
Proof.
  assert (sample_built false Targetted sample_lock_builder) as Hb.
  { eapply built_merge; [|reflexivity]. apply built_multi_region; [|reflexivity]. apply built_preserve_shard; [|reflexivity].
    apply built_resolve_lock; [|reflexivity]. apply built_new. }
  split; [exact Hb|]. intros Hf.
  destruct (built_plans_attached _ _ _ _ _ _ _ _ _ false sample_lock_builder KvClient Hb Hf) as [? _]. discriminate.
Defined.
