(* ===== verification/LockPlans.v ===== *)
(** * Plans that meet errors and locks (src/src/request/plan.rs, src/src/store/errors.rs)

    How the responses of a request become a result: extraction of key and region errors,
    merging, and the two plans that deal with locks.  [ResolveLock] resolves the locks a
    response reports and asks again; [CleanupLocks] walks over the locks of one region in
    batches (garbage collection).  The executions of the inner plan and the lock resolver
    are parameters indexed by the round. *)

From Stdlib Require Import Sorting.Sorted Sorting.Permutation.
From S2P Require Import Prelude Keys Proto Errors Ranges BTree Timestamps Kv Regions Sharding Backoffs Locks Requests Plans.

(** ** Errors of responses *)

(** [extract_errors] and the [key_errors] of the response shapes: a single error, a string,
    pairs, and a list of errors. *)
Definition extract_errors (errors : list (option KeyError.t)) : option (list Error) :=
  let errors := map error_from_key_error (omap id errors) in
  if is_empty errors then None else Some errors.

Definition single_key_errors (error : option KeyError.t) : option (list Error) :=
  (λ e, [error_from_key_error e]) <$> error.
Definition str_key_errors (error : string) : option (list Error) :=
  match error with EmptyString => None | _ => Some [KvError error] end.
Definition pairs_key_errors (pairs : list PbKvPair.t) : option (list Error) :=
  extract_errors (map PbKvPair.error pairs).
Definition list_key_errors (errors : list KeyError.t) : option (list Error) :=
  extract_errors (map Some errors).

(** [HasKeyErrors] and [HasRegionErrors] for [Vec<Result<T>>]; [to_string] is [Display]. *)
Section vec_errors.
Context {R : Type} (to_string : Error → string).
Context (key_errors : R → option (list Error)) (region_error : R → option RegionError.t).

Definition result_key_errors (r : Result R) : option (list Error) :=
  match r with Ok x => key_errors x | Err e => Some [StringError (to_string e)] end.
Definition result_region_error (r : Result R) : option RegionError.t :=
  match r with Ok x => region_error x | Err _ => None end.
Definition vec_key_errors (rs : list (Result R)) : option (list Error) :=
  foldr (λ r rest, match result_key_errors r with Some e => Some e | None => rest end) None rs.
Definition vec_region_errors (rs : list (Result R)) : option (list RegionError.t) :=
  let errors := omap result_region_error rs in
  if is_empty errors then None else Some errors.
End vec_errors.

(** [ExtractError::execute] *)
Definition extract_error {R} (key_errors : R → option (list Error))
    (region_errors : R → option (list RegionError.t)) (inner : Result R) : Result R :=
  result ← inner;
  match key_errors result with
  | Some errors => Err (ExtractedErrors errors)
  | None =>
      match region_errors result with
      | Some errors => Err (ExtractedErrors (map ERegionError errors))
      | None => Ok result
      end
  end.

(** [CollectSingle] and [CollectError] *)
Definition collect_single {R} (input : list (Result R)) : Result R :=
  match input with
  | [r] => r
  | _ => Err (InternalError "CollectSingle expected 1 response")
  end.
Definition collect_error {R} (input : list (Result R)) : Result (list R) := mapM id input.

(** ** [RetryableAllStores::single_store_handler] *)
Section all_stores.
Context {R : Type} (execute : nat → Result R) (draw : nat → Z).
Context (key_errors : R → option (list Error)) (region_error : R → option RegionError.t).

Fixpoint single_store_handler (fuel i : nat) (backoff : Backoff.t) : run R :=
  match fuel with
  | O => Running
  | S fuel =>
      match execute i with
      | Ok resp =>
          match key_errors resp with
          | Some e => Done (Err (MultipleKeyErrors e))
          | None =>
              match region_error resp with
              | Some e => Done (Err (ERegionError e))
              | None => Done (Ok resp)
              end
          end
      | Err e =>
          if is_grpc_error e then
            match next_delay_duration backoff (draw i) with
            | Wait _ backoff => single_store_handler fuel (S i) backoff
            | GiveUp _ => Done (Err e)
            | Panic => Panicks
            end
          else Done (Err e)
      end
  end.
End all_stores.

(** ** [ResolveLock] *)

Class LockResponse (R : Type) := {
  take_locks : R → list LockInfo.t * R;
  set_region_error : RegionError.t → R → R;
  default_response : R
}.

Definition reroute_to_leader {R} `{LockResponse R} : R :=
  set_region_error
    (RegionError.set_epoch_not_match RegionError.default (Some (EpochNotMatch.mk []))) default_response.

Section resolve_lock.
Context {R : Type} `{LockResponse R}.
(** In round [i]: the answer of the inner plan, of [resolve_locks] (the locks that are
    still alive), whether the read is a stale read, and the random draw. *)
Context (inner : nat → Result R) (resolve : nat → list LockInfo.t → Result (list LockInfo.t)).
Context (is_stale_read : nat → bool) (draw : nat → Z) (initial : Backoff.t).

Fixpoint resolve_lock_loop (fuel i : nat) (backoff : Backoff.t) (result : R) : run R * list Action :=
  match fuel with
  | O => (Running, [])
  | S fuel =>
      let '(locks, result) := take_locks result in
      if is_empty locks then (Done (Ok result), [])
      else if Backoff.is_none initial then (Done (Err (ResolveLockError locks)), [])
      else
        let stale_read_meet_lock := is_stale_read i in
        let forced := if stale_read_meet_lock then [AForceLeader] else [] in
        match resolve i locks with
        | Err e => (Done (Err e), forced)
        | Ok live_locks =>
            if stale_read_meet_lock then
              if is_empty live_locks then (Done (Ok reroute_to_leader), forced)
              else match next_delay_duration backoff (draw i) with
                   | GiveUp _ => (Done (Err (ResolveLockError live_locks)), forced)
                   | Wait _ _ => (Done (Ok reroute_to_leader), forced)
                   | Panic => (Panicks, forced)
                   end
            else
              let again backoff :=
                match inner (S i) with
                | Ok result => resolve_lock_loop fuel (S i) backoff result
                | Err e => (Done (Err e), [])
                end in
              if is_empty live_locks then again backoff
              else match next_delay_duration backoff (draw i) with
                   | GiveUp _ => (Done (Err (ResolveLockError live_locks)), [])
                   | Wait _ backoff => again backoff
                   | Panic => (Panicks, [])
                   end
        end
  end.

Definition resolve_lock_execute (fuel : nat) : run R * list Action :=
  match inner 0 with
  | Ok result => resolve_lock_loop fuel 0 initial result
  | Err e => (Done (Err e), [])
  end.
End resolve_lock.

Section resolve_lock_proof.
Context {R : Type} `{LockResponse R}.
Context (inner : nat → Result R) (resolve : nat → list LockInfo.t → Result (list LockInfo.t)).
Context (is_stale_read : nat → bool) (initial : Backoff.t).

(** In round [i] the inner plan reported [locks], which were resolved up to [live]. *)
Definition met (i : nat) (locks live : list LockInfo.t) : Prop :=
  ∃ r r', inner i = Ok r ∧ take_locks r = (locks, r') ∧ locks ≠ [] ∧ resolve i locks = Ok live.

(** The rounds of [i, n) that had to wait for live locks. *)
Definition live_round (i : nat) : bool :=
  match inner i with
  | Ok r => match resolve i (take_locks r).1 with Ok live => negb (is_empty live) | Err _ => false end
  | Err _ => false
  end.
Definition waits (i n : nat) : nat := length (List.filter live_round (seq i (n - i))).

(** How the plan ends in round [n]; [used_up] says that the backoff is exhausted. *)
Definition resolve_lock_ends (used_up : Prop) (n : nat) (res : Result R) : Prop :=
  match res with
  | Ok r =>
      (∃ r0, inner n = Ok r0 ∧ take_locks r0 = ([], r)) ∨
      (is_stale_read n = true ∧ r = reroute_to_leader ∧ ∃ locks live, met n locks live)
  | Err e =>
      inner n = Err e ∨
      ∃ r0 locks r', inner n = Ok r0 ∧ take_locks r0 = (locks, r') ∧ locks ≠ [] ∧
        ((Backoff.is_none initial = true ∧ e = ResolveLockError locks) ∨
         resolve n locks = Err e ∨
         ∃ live, resolve n locks = Ok live ∧ live ≠ [] ∧ e = ResolveLockError live ∧ used_up)
  end.

Lemma waits_step i n : (i < n)%nat →
  waits i n = ((if live_round i then 1 else 0) + waits (S i) n)%nat.
Proof.
  intros Hn. unfold waits. replace (n - i)%nat with (S (n - S i)) by lia. cbn [seq List.filter].
  by destruct (live_round i).
Qed.

Lemma resolve_lock_ends_mono (Q1 Q2 : Prop) n res : (Q1 → Q2) →
  resolve_lock_ends Q1 n res → resolve_lock_ends Q2 n res.
Proof. unfold resolve_lock_ends. destruct res; naive_solver. Qed.

(** From round [i] on, with [left] attempts left, the plan resolves the locks it meets and ends. *)
Definition resolves_from (i left : nat) (res : Result R) : Prop :=
  ∃ n, (i ≤ n)%nat ∧ (∀ j, (i ≤ j < n)%nat → ∃ locks live, met j locks live) ∧
    (waits i n ≤ left)%nat ∧ resolve_lock_ends (waits i n = left) n res.

Lemma resolves_now i left res : resolve_lock_ends (left = 0%nat) i res → resolves_from i left res.
Proof.
  intros He. exists i. unfold waits. rewrite Nat.sub_diag. cbn. split_and!; [lia | lia | lia |].
  eapply resolve_lock_ends_mono; [|exact He]. auto.
Qed.

Lemma resolves_next i locks live left left' res : met i locks live →
  left = ((if live_round i then 1 else 0) + left')%nat → resolves_from (S i) left' res →
  resolves_from i left res.
Proof.
  intros Hmet -> (n & Hn & Hj & Hw & He). exists n. rewrite (waits_step i n) by lia.
  split_and!; [lia | | lia |].
  - intros j Hj'. destruct (decide (j = i)) as [->|]; [eauto | apply Hj; lia].
  - eapply resolve_lock_ends_mono; [|exact He]. lia.
Qed.

Lemma met_live_round i locks live : met i locks live → live_round i = negb (is_empty live).
Proof. intros (r & r' & Hi & Et & _ & Er). unfold live_round. by rewrite Hi, Et; cbn; rewrite Er. Qed.

Context (draw : nat → Z).

Lemma resolve_lock_loop_spec fuel : ∀ i b result res,
  inner i = Ok result → Backoff.kind b = Backoff.kind initial →
  (resolve_lock_loop inner resolve is_stale_read draw initial fuel i b result).1 = Done res →
  resolves_from i (attempts_left b) res.
Proof.
  induction fuel as [|fuel IH]; intros i b result res Hi Hk; [done|]. cbn [resolve_lock_loop].
  destruct (take_locks result) as [locks result'] eqn:Et.
  destruct (is_empty_spec locks) as [->|Hne].
  { cbn. intros [= <-]. apply resolves_now. cbn. left. eauto. }
  assert (∀ e, (Backoff.is_none initial = true ∧ e = ResolveLockError locks) ∨ resolve i locks = Err e ∨
    (∃ live, resolve i locks = Ok live ∧ live ≠ [] ∧ e = ResolveLockError live ∧ attempts_left b = 0%nat) →
    resolves_from i (attempts_left b) (Err e)) as Herr.
  { intros e He. apply resolves_now. cbn. right. exists result, locks, result'. done. }
  destruct (Backoff.is_none initial) eqn:En; [cbn; intros [= <-]; apply Herr; by left|].
  destruct (resolve i locks) as [live|e] eqn:Er; [|cbn; intros [= <-]; apply Herr; by right; left].
  assert (met i locks live) as Hmet by (exists result, result'; done).
  assert (∀ b', next_delay_duration b (draw i) = GiveUp b' → live ≠ [] →
    resolves_from i (attempts_left b) (Err (ResolveLockError live))) as Hgive.
  { intros b' Eg Hl. apply Herr. right; right. exists live. split_and!; [done..|].
    eapply give_up_exhausted; [|exact Eg]. rewrite Hk. intros E. unfold Backoff.is_none in En.
    by rewrite bool_decide_eq_false in En. }
  destruct (is_stale_read i) eqn:Es.
  { assert (resolves_from i (attempts_left b) (Ok reroute_to_leader)) as Hre
      by (apply resolves_now; cbn; right; eauto).
    destruct (is_empty_spec live); [cbn; by intros [= <-]|].
    destruct (next_delay_duration b (draw i)) eqn:Ed; cbn; [done | intros [= <-]; by eapply Hgive |
      by intros [= <-]]. }
  assert (∀ b', attempts_left b = ((if live_round i then 1 else 0) + attempts_left b')%nat →
    Backoff.kind b' = Backoff.kind b →
    (match inner (S i) with
     | Ok result => resolve_lock_loop inner resolve is_stale_read draw initial fuel (S i) b' result
     | Err e => (Done (Err e), []) end).1 = Done res → resolves_from i (attempts_left b) res) as Hnext.
  { intros b' Hb Hkb E. eapply resolves_next; [exact Hmet | exact Hb |].
    destruct (inner (S i)) as [result2|e2] eqn:Ei; [eapply IH; [done | congruence | exact E]|].
    cbn in E. injection E as <-. apply resolves_now. cbn. by left. }
  apply met_live_round in Hmet as Hlr. cbv zeta. destruct (is_empty_spec live) as [->|Hl].
  { apply Hnext; [by rewrite Hlr | done]. }
  destruct (next_delay_duration b (draw i)) as [|b'|ms b'] eqn:Ed; cbn; [done | intros [= <-]; by eapply Hgive |].
  apply wait_uses_attempt in Ed as [Ha Hkb]. apply Hnext; [|done]. rewrite Hlr. by destruct live.
Qed.

(** Rounds follow each other only while locks are found. *)
Lemma resolve_lock_loop_ends fuel B : (∀ i locks, (B ≤ i)%nat → locks ≠ [] → resolve i locks ≠ Ok []) →
  ∀ i b result, (attempts_left b + (B - i) < fuel)%nat →
  (resolve_lock_loop inner resolve is_stale_read draw initial fuel i b result).1 ≠ Running.
Proof.
  intros HB. induction fuel as [|fuel IH]; intros i b result Hf; [lia|]. cbn [resolve_lock_loop].
  destruct (take_locks result) as [locks result']. destruct (is_empty_spec locks) as [->|Hne]; [done|].
  destruct (Backoff.is_none initial); [done|]. destruct (resolve i locks) as [live|e] eqn:Er; [|done].
  destruct (is_stale_read i).
  { destruct (is_empty live); [done|]. by destruct (next_delay_duration _ _). }
  cbv zeta. destruct (is_empty_spec live) as [->|Hl].
  - destruct (inner (S i)); [|done]. apply IH. destruct (decide (B ≤ i)%nat); [by destruct (HB i locks) | lia].
  - destruct (next_delay_duration _ _) eqn:Ed; [done..|]. apply wait_uses_attempt in Ed as [Ha _].
    destruct (inner (S i)); [|done]. apply IH. lia.
Qed.
End resolve_lock_proof.

(** C18: a request that meets locks is answered only without them.  When the plan returns a
    response, that response reported no locks in its round (or it is the order to re-route a
    stale read to the leader); the locks of every earlier round were handed to the resolver,
    and the plan waited for live locks at most as often as its backoff allows.  It
    fails only with the error of the request or of the resolver, with the locks it met when
    it must not resolve locks, or with the locks that stay alive once the backoff is used
    up.  When from some round on the resolver never settles all the locks it is given,
    the plan ends within the rounds that remain. *)
Theorem resolve_lock_correct {R} `{LockResponse R} inner resolve is_stale_read draw initial fuel :
  (∀ res, (resolve_lock_execute (R:=R) inner resolve is_stale_read draw initial fuel).1 = Done res →
     ∃ n, (∀ j, (j < n)%nat → ∃ locks live, met inner resolve j locks live) ∧
       (waits inner resolve 0 n ≤ attempts_left initial)%nat ∧
       resolve_lock_ends inner resolve is_stale_read initial
         (waits inner resolve 0 n = attempts_left initial) n res) ∧
  (∀ B, (∀ i locks, (B ≤ i)%nat → locks ≠ [] → resolve i locks ≠ Ok []) →
     (attempts_left initial + B < fuel)%nat →
     (resolve_lock_execute (R:=R) inner resolve is_stale_read draw initial fuel).1 ≠ Running).
Proof.
  unfold resolve_lock_execute. split.
  - intros res E. assert (resolves_from inner resolve is_stale_read initial 0 (attempts_left initial) res)
      as (n & _ & Hj & Hw & He).
    { destruct (inner 0%nat) as [result|e] eqn:Ei; [by eapply resolve_lock_loop_spec|].
      cbn in E. injection E as <-. apply resolves_now. cbn. by left. }
    exists n. split_and!; [|done|done]. intros j Hlt. apply Hj. lia.
  - intros B HB Hf. destruct (inner 0%nat); [|done]. eapply resolve_lock_loop_ends; [exact HB | lia].
Qed.

(** ** [CleanupLocks] *)

(** [ScanLockResponse] and [CleanupLocksResult] *)
Record ScanLockResponse := mkScanLockResponse {
  sl_locks : list LockInfo.t; sl_error : option KeyError.t; sl_region_error : option RegionError.t }.
Record CleanupLocksResult := mkCleanupLocksResult {
  cl_region_error : option RegionError.t; cl_key_error : option (list Error); cl_resolved_locks : nat }.

(** [HasNextBatch for ScanLockResponse] *)
Definition has_next_batch (locks : list LockInfo.t) : option (Key * Key) :=
  (λ lock, (LockInfo.key lock ++ [0], [])) <$> last locks.

Section cleanup_plan.
(** At scan [t]: the answer to a scan of [start, end), and the answer of
    [LockResolver::cleanup_locks] for the locks found. *)
Context (scan : nat → Key → Key → Result ScanLockResponse).
Context (cleanup_locks : nat → list LockInfo.t → Result unit) (draw : nat → Z).
Context (region : RegionWithLeader.t) (batch_size : nat) (async_commit_only : bool).

(** The start of the next batch, if there is one in the region and before the end key. *)
Definition next_range (locks : list LockInfo.t) (end_key : Key) : option Key :=
  match has_next_batch locks with
  | Some (start_key, _) =>
      if RegionWithLeader.contains region start_key && (is_empty end_key || key_ltb start_key end_key)
      then Some start_key else None
  | None => None
  end.

(** The second component lists the batches that were cleaned up, with their scan. *)
Fixpoint cleanup_locks_loop (fuel t : nat) (start_key end_key : Key) (backoff : Backoff.t)
    (resolved_locks : nat) : run CleanupLocksResult * list (nat * list LockInfo.t) :=
  match fuel with
  | O => (Running, [])
  | S fuel =>
      match scan t start_key end_key with
      | Err e => (Done (Err e), [])
      | Ok resp =>
          match single_key_errors (sl_error resp), sl_region_error resp with
          | Some e, _ => (Done (Ok (mkCleanupLocksResult None (Some e) resolved_locks)), [])
          | None, Some e => (Done (Ok (mkCleanupLocksResult (Some e) None resolved_locks)), [])
          | None, None =>
              let locks := sl_locks resp in
              let next := next_range locks end_key in
              if is_empty locks then (Done (Ok (mkCleanupLocksResult None None resolved_locks)), [])
              else
                let has_more := is_some next && negb (length locks <? batch_size)%nat in
                let advance resolved :=
                  match has_more, next with
                  | true, Some start_key => cleanup_locks_loop fuel (S t) start_key end_key backoff resolved
                  | _, _ => (Done (Ok (mkCleanupLocksResult None None resolved)), [])
                  end in
                let locks := if async_commit_only then List.filter LockInfo.use_async_commit locks else locks in
                if is_empty locks then advance resolved_locks
                else
                  match cleanup_locks t locks with
                  | Ok _ =>
                      let '(r, cleaned) := advance (resolved_locks + length locks)%nat in
                      (r, (t, locks) :: cleaned)
                  | Err (ResolveLockError live_locks) =>
                      match next_delay_duration backoff (draw t) with
                      | Wait _ backoff => cleanup_locks_loop fuel (S t) start_key end_key backoff resolved_locks
                      | GiveUp _ => (Done (Err (ResolveLockError live_locks)), [])
                      | Panic => (Panicks, [])
                      end
                  | Err (ExtractedErrors errors) =>
                      match rev errors with
                      | [] => (Done (Err (InternalError "ExtractedErrors was empty")), [])
                      | ERegionError e :: rest =>
                          (Done (Ok (mkCleanupLocksResult (Some e)
                             (if is_empty rest then None else Some (rev rest)) resolved_locks)), [])
                      | _ => (Done (Ok (mkCleanupLocksResult None (Some errors) resolved_locks)), [])
                      end
                  | Err e => (Done (Err e), [])
                  end
          end
      end
  end.
End cleanup_plan.

Lemma sorted_app_rel {A} (R : A → A → Prop) a b x y :
  StronglySorted R (a ++ b) → x ∈ a → y ∈ b → R x y.
Proof.
  induction a as [|z a IH]; cbn; [by intros _ ?%elem_of_nil|]. intros Hs Hx Hy.
  inversion Hs as [|? ? Hs' HF]; subst. apply elem_of_cons in Hx as [->|Hx]; [|by apply IH].
  rewrite Forall_forall in HF. apply HF. apply elem_of_app. by right.
Qed.

Section cleanup_plan_proof.
Context (scan : nat → Key → Key → Result ScanLockResponse).
Context (cleanup_locks : nat → list LockInfo.t → Result unit) (draw : nat → Z).
Context (region : RegionWithLeader.t) (batch_size : nat) (async_commit_only : bool) (end_key : Key).
(** The locks the store has at scan [t]; a scan without an error returns the first ones from
    the start key on, in key order. *)
Context (table : nat → list LockInfo.t).

Definition in_scan (start_key : Key) (l : LockInfo.t) : bool :=
  bool_decide (in_key_range (start_key, end_key) (LockInfo.key l)) &&
  RegionWithLeader.contains region (LockInfo.key l).

Abbreviation loop := (cleanup_locks_loop scan cleanup_locks draw region batch_size async_commit_only) (only parsing).

(** A lock in the scanned range is in the batch, or after all of a full batch. *)
Lemma scan_batch_rest start_key (locks : list LockInfo.t) l :
  StronglySorted (λ a b, key_lt (LockInfo.key a) (LockInfo.key b)) locks →
  l ∈ List.filter (in_scan start_key) locks → (0 < batch_size)%nat →
  let batch := take batch_size (List.filter (in_scan start_key) locks) in
  l ∈ batch ∨
  (length batch = batch_size ∧ ∃ lst, last batch = Some lst ∧ lst ∈ batch ∧
     ∀ x, x ∈ batch → key_lt (LockInfo.key x) (LockInfo.key l)).
Proof.
  intros Hs Hl Hb batch. set (found := List.filter (in_scan start_key) locks) in *.
  assert (StronglySorted (λ a b, key_lt (LockInfo.key a) (LockInfo.key b)) found) as Hsf.
  { subst found. clear -Hs. induction Hs as [|a locks Hs IH Ha]; cbn; [constructor|].
    destruct (in_scan start_key a); [|done]. constructor; [done|]. apply Forall_forall. intros x Hx.
    rewrite Forall_forall in Ha. apply Ha. apply list_elem_of_In in Hx. apply List.filter_In in Hx as [Hx _].
    by apply list_elem_of_In. }
  rewrite <- (take_drop batch_size found) in Hl, Hsf. fold batch in Hl, Hsf.
  apply elem_of_app in Hl as [Hl|Hl]; [by left | right].
  assert (length batch = batch_size) as Hlen.
  { subst batch. rewrite length_take. destruct (decide (batch_size ≤ length found)%nat); [lia|].
    rewrite drop_ge in Hl by lia. by apply elem_of_nil in Hl. }
  split; [done|]. destruct (last batch) as [lst|] eqn:El.
  2: { apply last_None in El. rewrite El in Hlen. cbn in Hlen. lia. }
  exists lst. split_and!; [done | by apply last_Some_elem_of |].
  intros x Hx. by eapply (sorted_app_rel _ _ _ _ _ Hsf).
Qed.

(** The number of locks in the batches. *)
Definition batch_total (cleaned : list (nat * list LockInfo.t)) : nat :=
  sum_list_with (λ p, length p.2) cleaned.

(** The cleaned batches were answered without an error, at scans from [t] on. *)
Lemma cleanup_trace fuel : ∀ t start_key b n r cleaned,
  loop fuel t start_key end_key b n = (r, cleaned) →
  Forall (λ p, (t ≤ p.1)%nat ∧ cleanup_locks p.1 p.2 = Ok ()) cleaned.
Proof.
  assert (∀ t (cleaned : list (nat * list LockInfo.t)),
    Forall (λ p, (S t ≤ p.1)%nat ∧ cleanup_locks p.1 p.2 = Ok ()) cleaned →
    Forall (λ p, (t ≤ p.1)%nat ∧ cleanup_locks p.1 p.2 = Ok ()) cleaned) as Hw.
  { intros t cleaned HF. eapply Forall_impl; [exact HF|]. cbn. intros p [? ?]. split; [lia | done]. }
  induction fuel as [|fuel IH]; intros t start_key b n r cleaned E; cbn [cleanup_locks_loop] in E.
  { simplify_eq. constructor. }
  destruct (scan t start_key end_key) as [resp|e]; [|simplify_eq; constructor].
  destruct (single_key_errors _); [simplify_eq; constructor|].
  destruct (sl_region_error resp); [simplify_eq; constructor|].
  cbv zeta in E. destruct (is_empty (sl_locks resp)); [simplify_eq; constructor|].
  set (batch := if async_commit_only then _ else _) in E.
  set (has_more := _ && negb _) in E. set (next := next_range _ _ _) in E.
  assert (∀ n r cleaned, match has_more, next with
    | true, Some start_key => loop fuel (S t) start_key end_key b n
    | _, _ => (Done (Ok (mkCleanupLocksResult None None n)), []) end = (r, cleaned) →
    Forall (λ p, (S t ≤ p.1)%nat ∧ cleanup_locks p.1 p.2 = Ok ()) cleaned) as Hadv.
  { intros n' r' c' E'. destruct has_more; [|simplify_eq; constructor].
    destruct next; [by eapply IH | simplify_eq; constructor]. }
  destruct (is_empty batch); [by eapply Hw, Hadv|].
  destruct (cleanup_locks t batch) as [[]|err] eqn:Ec.
  - destruct (match has_more, next with true, Some _ => _ | _, _ => _ end) as [r' c'] eqn:Ea in E.
    injection E as <- <-. constructor; [by split|]. by eapply Hw, Hadv.
  - destruct err; try (simplify_eq; constructor).
    + destruct (next_delay_duration _ _); [simplify_eq; constructor..|]. by eapply Hw, IH.
    + destruct (rev _) as [|[] ?]; simplify_eq; constructor.
Qed.

(** The result counts the locks cleaned up. *)
Lemma cleanup_count fuel : ∀ t start_key b n r cleaned,
  loop fuel t start_key end_key b n = (Done (Ok r), cleaned) →
  cl_resolved_locks r = (n + batch_total cleaned)%nat.
Proof.
  induction fuel as [|fuel IH]; intros t start_key b n r cleaned E; cbn [cleanup_locks_loop] in E; [done|].
  assert (∀ k e, (Done (Ok (mkCleanupLocksResult k e n)), []) = (Done (Ok r), cleaned) →
    cl_resolved_locks r = (n + batch_total cleaned)%nat) as Hstop.
  { intros k e [= <- <-]. cbn. lia. }
  destruct (scan t start_key end_key) as [resp|e]; [|done].
  destruct (single_key_errors _); [by eapply Hstop|]. destruct (sl_region_error resp); [by eapply Hstop|].
  cbv zeta in E. destruct (is_empty (sl_locks resp)); [by eapply Hstop|].
  set (batch := if async_commit_only then _ else _) in E.
  set (has_more := _ && negb _) in E. set (next := next_range _ _ _) in E.
  assert (∀ m r' c', match has_more, next with
    | true, Some start_key => loop fuel (S t) start_key end_key b m
    | _, _ => (Done (Ok (mkCleanupLocksResult None None m)), []) end = (Done (Ok r'), c') →
    cl_resolved_locks r' = (m + batch_total c')%nat) as Hadv.
  { intros m r' c' E'. destruct has_more; [destruct next; [by eapply IH|]|];
      injection E' as <- <-; cbn; lia. }
  destruct (is_empty batch); [by eapply Hadv|].
  destruct (cleanup_locks t batch) as [[]|err].
  - destruct (match has_more, next with true, Some _ => _ | _, _ => _ end) as [r' c'] eqn:Ea in E.
    injection E as -> <-. apply Hadv in Ea. rewrite Ea. unfold batch_total. cbn [sum_list_with snd]. lia.
  - destruct err; try done.
    + destruct (next_delay_duration _ _); [done..|]. by eapply IH.
    + destruct (rev _) as [|[] ?]; [done | by eapply Hstop..].
Qed.

Context (Hbatch : (0 < batch_size)%nat).
Context (Hsorted : ∀ t, StronglySorted (λ a b, key_lt (LockInfo.key a) (LockInfo.key b)) (table t)).
Context (Hscan : ∀ t start_key resp, scan t start_key end_key = Ok resp → sl_error resp = None →
  sl_region_error resp = None → sl_locks resp = take batch_size (List.filter (in_scan start_key) (table t))).

(** The keys of [K] that a scan from [start_key] can still find. *)
Definition keys_from (K : list (list Z)) (start_key : Key) : nat :=
  length (List.filter (λ k, key_leb start_key k) K).

Lemma keys_from_next K start_key k : k ∈ K → key_le start_key k →
  (keys_from K (next_key k) < keys_from K start_key)%nat.
Proof.
  intros Hk Hle. unfold keys_from. pose proof (next_key_gt k) as Hgt.
  assert (∀ K', (length (List.filter (λ x, key_leb (next_key k) x) K') ≤
    length (List.filter (λ x, key_leb start_key x) K'))%nat) as Hmono.
  { induction K' as [|x K' IH]; cbn; [lia|].
    destruct (key_leb_spec (next_key k) x), (key_leb_spec start_key x); cbn; try lia.
    exfalso. apply key_not_le in n. key_order. }
  apply list_elem_of_split in Hk as (K1 & K2 & ->). rewrite !List.filter_app, !length_app. cbn.
  destruct (key_leb_spec (next_key k) k); [exfalso; key_order|].
  destruct (key_leb_spec start_key k); [|done]. cbn. pose proof (Hmono K1). pose proof (Hmono K2). lia.
Qed.

Lemma cleanup_loop_ends fuel K : (∀ t x, x ∈ table t → LockInfo.key x ∈ K) →
  ∀ t start_key b n, (keys_from K start_key + attempts_left b < fuel)%nat →
  (loop fuel t start_key end_key b n).1 ≠ Running.
Proof.
  intros HK. induction fuel as [|fuel IH]; intros t start_key b n Hf; [lia|]. cbn [cleanup_locks_loop].
  destruct (scan t start_key end_key) as [resp|e] eqn:Es; [|done].
  unfold single_key_errors. destruct (sl_error resp) eqn:Ee; [done|]. cbn [fmap option_fmap option_map].
  destruct (sl_region_error resp) eqn:Ere; [done|].
  pose proof (Hscan t start_key resp Es Ee Ere) as Hlocks. cbv zeta.
  destruct (is_empty (sl_locks resp)); [done|]. set (batch := if async_commit_only then _ else _).
  set (has_more := _ && negb _). set (next := next_range _ _ _).
  assert (∀ m, (match has_more, next with
    | true, Some start_key => loop fuel (S t) start_key end_key b m
    | _, _ => (Done (Ok (mkCleanupLocksResult None None m)), []) end).1 ≠ Running) as Hadv.
  { intros m. destruct has_more; [|done]. destruct next as [start_key'|] eqn:En; [|done]. apply IH.
    subst next. unfold next_range, has_next_batch in En. destruct (last (sl_locks resp)) as [lst|] eqn:El; [|done].
    cbn in En. destruct (_ && _); [|done]. injection En as <-. fold (next_key (LockInfo.key lst)).
    apply last_Some_elem_of in El. rewrite Hlocks in El. apply elem_of_take in El as (i & Hi & _).
    apply list_elem_of_lookup_2, list_elem_of_In, List.filter_In in Hi as [Hi Hin].
    apply andb_prop in Hin as [[Hle _]%bool_decide_eq_true _].
    pose proof (keys_from_next K start_key (LockInfo.key lst)) as Hless. apply list_elem_of_In in Hi.
    specialize (Hless (HK _ _ Hi) Hle). lia. }
  destruct (is_empty batch); [done|]. destruct (cleanup_locks t batch) as [[]|err].
  - specialize (Hadv (n + length batch)%nat).
    by destruct (match has_more, next with true, Some _ => _ | _, _ => _ end).
  - destruct err; try done.
    + destruct (next_delay_duration _ _) eqn:Ed; [done..|]. apply wait_uses_attempt in Ed as [Ha _].
      apply IH. lia.
    + by destruct (rev _) as [|[] ?].
Qed.

(** A lock that the cleanup has to find: it stays until it is cleaned up. *)
Context (l : LockInfo.t) (Hwf : wf_key (LockInfo.key l)).
Context (Hasync : async_commit_only = true → LockInfo.use_async_commit l = true).

Definition stays (cleaned : list (nat * list LockInfo.t)) (t : nat) : Prop :=
  ∀ t', (t ≤ t')%nat → l ∈ table t' ∨ ∃ p, p ∈ cleaned ∧ (t ≤ p.1 < t')%nat ∧ l ∈ p.2.

(** A lock after the last one of a full batch lies in the next batch. *)
Lemma next_range_found start_key lst locks : in_scan start_key l = true → in_scan start_key lst = true →
  last locks = Some lst → key_lt (LockInfo.key lst) (LockInfo.key l) →
  ∃ start_key', next_range region locks end_key = Some start_key' ∧ in_scan start_key' l = true.
Proof.
  intros Hl Hlst Hlast Hlt. unfold in_scan in *. apply andb_prop in Hl as [[_ Hend]%bool_decide_eq_true Hc].
  apply andb_prop in Hlst as [_ Hcl]. cbn in Hend.
  assert (key_le (next_key (LockInfo.key lst)) (LockInfo.key l)) as Hnext by (by apply next_key_least).
  exists (next_key (LockInfo.key lst)). split.
  - unfold next_range, has_next_batch. rewrite Hlast. cbn [fmap option_fmap option_map].
    fold (next_key (LockInfo.key lst)).
    assert (RegionWithLeader.contains region (next_key (LockInfo.key lst)) = true) as ->.
    { apply contains_spec in Hc as [_ Hc], Hcl as [Hcl _]. apply contains_spec. split.
      - cbn in *. pose proof (next_key_gt (LockInfo.key lst)). key_order.
      - cbn in *. destruct Hc; [by left | right; key_order]. }
    cbn. destruct (is_empty_spec end_key) as [->|He]; [done|]. destruct Hend as [?|Hend]; [done|].
    destruct (key_ltb_spec (next_key (LockInfo.key lst)) end_key); [done|]. exfalso. key_order.
  - apply andb_true_intro. split; [|done]. apply bool_decide_eq_true. by split.
Qed.

(** What is cleaned up of a scan has the lock if the scan has it. *)
Lemma batch_locks locks (batch := if async_commit_only then List.filter LockInfo.use_async_commit locks else locks) :
  (∀ x, x ∈ batch → x ∈ locks) ∧ (l ∈ locks → l ∈ batch).
Proof.
  subst batch. destruct async_commit_only eqn:Ea; [|done]. split.
  - intros x [? _]%list_elem_of_In%List.filter_In. by apply list_elem_of_In.
  - intros ?. apply list_elem_of_In, List.filter_In. split; [by apply list_elem_of_In | by apply Hasync].
Qed.

Lemma cleanup_loop_finds fuel : ∀ t start_key b n r cleaned,
  loop fuel t start_key end_key b n = (Done (Ok r), cleaned) →
  cl_region_error r = None → cl_key_error r = None → in_scan start_key l = true → stays cleaned t →
  ∃ p, p ∈ cleaned ∧ l ∈ p.2.
Proof.
  induction fuel as [|fuel IH]; intros t start_key b n r cleaned E Hr Hk Hin Hst; cbn [cleanup_locks_loop] in E; [done|].
  destruct (scan t start_key end_key) as [resp|e] eqn:Es; [|done].
  unfold single_key_errors in E. destruct (sl_error resp) eqn:Ee; cbn [fmap option_fmap option_map] in E; [by simplify_eq|].
  destruct (sl_region_error resp) eqn:Ere; [by simplify_eq|].
  pose proof (Hscan t start_key resp Es Ee Ere) as Hlocks. cbv zeta in E.
  assert (l ∈ List.filter (in_scan start_key) (table t)) as Hfound.
  { destruct (Hst t ltac:(lia)) as [Ht|(p & _ & ? & _)]; [|lia].
    apply list_elem_of_In, List.filter_In. split; [by apply list_elem_of_In | done]. }
  destruct (is_empty_spec (sl_locks resp)) as [H0|_].
  { rewrite Hlocks in H0. destruct (List.filter _ _); [by apply elem_of_nil in Hfound|].
    destruct batch_size; [lia | done]. }
  set (batch := if async_commit_only then _ else _) in E. destruct (batch_locks (sl_locks resp)) as [Hsub Hl]. fold batch in Hsub, Hl.
  (* the later part of a run, when this round did not clean the lock up *)
  assert (∀ start_key' b' n' r' c', loop fuel (S t) start_key' end_key b' n' = (Done (Ok r'), c') →
    cl_region_error r' = None → cl_key_error r' = None → in_scan start_key' l = true →
    (∀ p, p ∈ cleaned → l ∈ p.2 → p ∈ c') → (∀ p, p ∈ c' → p ∈ cleaned) → ∃ p, p ∈ cleaned ∧ l ∈ p.2) as Hlater.
  { intros start_key' b' n' r' c' E' Hr' Hk' Hin' Hc1 Hc2.
    destruct (IH _ _ _ _ _ _ E' Hr' Hk' Hin') as (p & Hp & Hlp); [|exists p; split; [by apply Hc2 | done]].
    intros t' Ht'. destruct (Hst t' ltac:(lia)) as [?|(p & Hp & Ht & Hlp)]; [by left|]. right. exists p.
    pose proof (Hc1 p Hp Hlp) as Hp'. apply cleanup_trace in E'. rewrite Forall_forall in E'.
    destruct (E' p Hp'). split_and!; [done | lia | lia | done]. }
  set (has_more := _ && negb _) in E. set (next := next_range _ _ _) in E.
  assert (l ∈ batch ∨ ∃ start_key', has_more = true ∧ next = Some start_key' ∧ in_scan start_key' l = true ∧ l ∉ batch) as Hwhere.
  { destruct (scan_batch_rest start_key (table t) l) as [Hmem|[Hlen (lst & Hlast & Hlin & Hlt)]];
      [done..|rewrite <- Hlocks in Hmem; by left; apply Hl|rewrite <- Hlocks in Hlen, Hlast, Hlin, Hlt]. right.
    destruct (next_range_found start_key lst (sl_locks resp)) as (start_key' & En & Hin'); [done | | done | by apply Hlt |].
    { rewrite Hlocks in Hlin. apply elem_of_take in Hlin as (i & Hi & _). apply list_elem_of_lookup_2 in Hi.
      apply list_elem_of_In in Hi. by apply List.filter_In in Hi as [_ ?]. }
    exists start_key'. split_and!; [|done | done |].
    - subst has_more. rewrite En. cbn [is_some andb]. by rewrite Hlen, Nat.ltb_irrefl.
    - intros Hx%Hsub. destruct (KeyOrder.lt_irrefl (LockInfo.key l)). by apply Hlt. }
  clearbody has_more next. destruct (is_empty_spec batch) as [Hb|_].
  { rewrite Hb in Hwhere. destruct Hwhere as [?%elem_of_nil|(start_key' & -> & -> & Hin' & _)]; [done | by eapply Hlater]. }
  destruct (cleanup_locks t batch) as [[]|err].
  - destruct Hwhere as [Hmem|(start_key' & -> & -> & Hin' & Hnot)].
    + destruct (match has_more, next with true, Some _ => _ | _, _ => _ end) as [r' c'] in E.
      injection E as -> <-. exists (t, batch). split; [by apply elem_of_cons; left | done].
    + destruct (cleanup_locks_loop _ _ _ _ _ _ fuel _ _ _ _ _) as [r' c'] eqn:E'. injection E as -> <-.
      eapply (Hlater _ _ _ _ _ E'); [done..| |intros p Hp; by apply elem_of_cons; right].
      by intros p [->|?]%elem_of_cons Hp.
  - destruct err; try done.
    + destruct (next_delay_duration _ _); [done..|]. by eapply Hlater.
    + destruct (rev _) as [|[] ?]; simplify_eq; by cbn in *.
Qed.
End cleanup_plan_proof.

(** Garbage collection skips no lock.  Against a store that answers each scan with the
    first locks of the range in key order: the plan ends, whatever the resolver answers,
    when the locks come from a finite set of keys; and when it returns without an error,
    every lock of the range and region that stayed in the store until it was cleaned up
    (with async commit, when only such locks are asked for) is in a batch that the
    resolver cleaned up successfully, and the count it reports is the number of
    locks in these batches.  Batches that fail are scanned again before moving on. *)
Theorem cleanup_locks_plan_complete scan cleanup_locks draw region batch_size async_commit_only
    start_key end_key (table : nat → list LockInfo.t) fuel backoff :
  (0 < batch_size)%nat →
  (∀ t, StronglySorted (λ a b, key_lt (LockInfo.key a) (LockInfo.key b)) (table t)) →
  (∀ t start_key resp, scan t start_key end_key = Ok resp → sl_error resp = None →
     sl_region_error resp = None →
     sl_locks resp = take batch_size (List.filter (in_scan region end_key start_key) (table t))) →
  let out := cleanup_locks_loop scan cleanup_locks draw region batch_size async_commit_only
               fuel 0 start_key end_key backoff 0 in
  (∀ K, (∀ t x, x ∈ table t → LockInfo.key x ∈ K) → (length K + attempts_left backoff < fuel)%nat →
     out.1 ≠ Running) ∧
  (∀ r, out.1 = Done (Ok r) → cl_region_error r = None → cl_key_error r = None →
     cl_resolved_locks r = batch_total out.2 ∧
     ∀ l, wf_key (LockInfo.key l) → in_scan region end_key start_key l = true →
       (async_commit_only = true → LockInfo.use_async_commit l = true) → stays table l out.2 0 →
       ∃ p, p ∈ out.2 ∧ l ∈ p.2 ∧ cleanup_locks p.1 p.2 = Ok ()).
Proof.
  intros Hb Hs Hscan out. split.
  - intros K HK Hf. eapply cleanup_loop_ends; [exact Hb | exact Hscan | exact HK |].
    assert (keys_from K start_key ≤ length K)%nat by apply List.filter_length_le. lia.
  - intros r Eo Hr Hk. destruct out as [res cleaned] eqn:E. cbn in Eo |- *. subst res out. split.
    + by apply cleanup_count in E.
    + intros l Hwf Hin Ha Hst. destruct (cleanup_loop_finds _ _ _ _ _ _ _ _ Hb Hs Hscan l Hwf Ha _ _ _ _ _ _ _ E Hr Hk Hin Hst)
        as (p & Hp & Hl).
      exists p. split_and!; [done..|]. apply cleanup_trace in E. rewrite Forall_forall in E. by apply E.
Qed.

Definition two_locks : list LockInfo.t := [sample_lock [1] [1] 5; sample_lock [1] [2] 5].
Definition two_locks_region : RegionWithLeader.t := Regions.sample_region 1 1 [] [].
Definition two_locks_scan (t : nat) (start_key end_key : Key) : Result ScanLockResponse :=
  Ok (mkScanLockResponse
        (take 1 (List.filter (in_scan two_locks_region end_key start_key) two_locks)) None None).

Lemma cleanup_locks_plan_complete_witness : ∃ p : nat * list LockInfo.t,
  p ∈ (cleanup_locks_loop two_locks_scan (λ _ _, Ok ()) (λ _, 0) two_locks_region 1 false 5 0 [] [] DEFAULT_REGION_BACKOFF 0).2 ∧
  sample_lock [1] [2] 5 ∈ p.2.
Proof.
  destruct (cleanup_locks_plan_complete two_locks_scan (λ _ _, Ok ()) (λ _, 0) two_locks_region 1 false [] []
    (λ _, two_locks) 5 DEFAULT_REGION_BACKOFF) as [_ H].
  - lia.
  - intros _. apply SSorted_cons; [apply SSorted_cons; [constructor | constructor]|].
    apply Forall_cons. split; [by vm_compute | constructor].
  - intros t start_key resp [= <-] _ _. done.
  - destruct (H (mkCleanupLocksResult None None 2)) as [_ Hl]; [by vm_compute | done | done |].
    destruct (Hl (sample_lock [1] [2] 5)) as (p & Hp & Hin & _).
    + unfold wf_key, in_u8. repeat constructor; cbn; lia.
    + by vm_compute.
    + done.
    + intros t' _. left. apply elem_of_cons; right. apply elem_of_cons; by left.
    + by exists p.
Defined.

(** A response that is a list of locks and a region error. *)
#[export] Instance sample_lock_response : LockResponse (list LockInfo.t * option RegionError.t) := {|
  take_locks r := (r.1, ([], r.2));
  set_region_error e r := (r.1, Some e);
  default_response := ([], None)
|}.

Lemma resolve_lock_correct_witness : ∃ n : nat,
  resolve_lock_ends (λ i, Ok (if (i <? 2)%nat then two_locks else [], None)) (λ _ _, Ok []) (λ _, false)
    OPTIMISTIC_BACKOFF
    (waits (λ i, Ok (if (i <? 2)%nat then two_locks else [], None)) (λ _ _, Ok []) 0 n = 10%nat) n
    (Ok ([], None)).
Proof.
  destruct (resolve_lock_correct (λ i, Ok (if (i <? 2)%nat then two_locks else [], None)) (λ _ _, Ok [])
    (λ _, false) (λ _, 0) OPTIMISTIC_BACKOFF 4) as [H _].
  destruct (H (Ok ([], None))) as (n & _ & _ & He); [by vm_compute|]. by exists n.
Defined.

(** ** What [extract_error] lets through *)

Section vec_errors_proof.
Context {R : Type} (to_string : Error → string).
Context (key_errors : R → option (list Error)) (region_error : R → option RegionError.t).

Lemma vec_key_errors_None rs : vec_key_errors to_string key_errors rs = None →
  Forall (λ r, ∃ x, r = Ok x ∧ key_errors x = None) rs.
Proof.
  induction rs as [|[x|e] rs IH]; [constructor | | done]. cbn. destruct (key_errors x) eqn:E; [done|].
  intros H. constructor; [eauto | by apply IH].
Qed.

(** A request whose errors are extracted succeeds only if every part did. *)
Lemma extract_error_vec rs rs' :
  extract_error (vec_key_errors to_string key_errors) (vec_region_errors region_error) (Ok rs) = Ok rs' →
  rs' = rs ∧ Forall (λ r, ∃ x, r = Ok x ∧ key_errors x = None ∧ region_error x = None) rs.
Proof.
  unfold extract_error. cbn [mbind result_bind].
  destruct (vec_key_errors _ _ rs) eqn:Ek; [done|]. apply vec_key_errors_None in Ek.
  unfold vec_region_errors. destruct (is_empty_spec (omap (result_region_error region_error) rs)) as [Er|]; [|done].
  intros [= ->]. split; [done|]. clear -Ek Er. induction Ek as [|r rs (x & -> & Hx) Ek IH]; [constructor|].
  cbn in Er. destruct (region_error x) eqn:E; [done|]. constructor; [eauto | by apply IH].
Qed.
End vec_errors_proof.

(** The error of a failed part is replaced by its text: a write conflict among the results
    of the regions is no longer recognised as one after [extract_error]. *)
Lemma extract_error_loses_class {R} to_string (key_errors : R → option (list Error)) region_errors c :
  let conflict := MultipleKeyErrors [EWriteConflict c] in
  is_write_conflict conflict = true ∧
  ∃ e, extract_error (vec_key_errors to_string key_errors) region_errors (Ok [Err conflict]) = Err e ∧
    is_write_conflict e = false.
Proof. cbn. split; [done|]. eexists. by split. Qed.

(** The order to re-route a stale read is not the immediate retry that its comment announces: an
    [EpochNotMatch] without regions makes the handler drop the region and wait. *)
Lemma reroute_to_leader_backs_off region :
  handle_region_error (Ok ())
    (RegionError.set_epoch_not_match RegionError.default (Some (EpochNotMatch.mk []))) region =
  (Ok false, [AInvalidateRegion (RegionWithLeader.ver_id region)]).
Proof. done. Qed.
