(* ===== verification/TxnPlans.v ===== *)
(** * Transactional requests as plans (src/src/request/shard.rs,
      src/src/transaction/requests.rs, src/src/request/plan.rs)

    The trait [Shardable] and its implementations: the requests of a transaction and the
    plans that wrap them ([Dispatch], [PreserveShard], [ResolveLock], [CleanupLocks]).
    Every request that is cut by keys satisfies the interface [Keyed], every wrapper
    passes it on, and from it follows what Plans.v asks of a plan ([Partitions]).

    The theorems compose the layers a transaction uses: locking keys in many regions,
    checking the secondaries of an async-commit transaction, and reading a batch of keys,
    from the request through shards, retries, lock resolution and merging to the result. *)

From Stdlib Require Import Sorting.Permutation.
From S2P Require Import Prelude Keys Proto Errors Ranges Timestamps Kv Regions Sharding Backoffs Locks Requests Plans LockPlans.

(** ** The trait *)

(** What a request sees of the [RegionStore] it is applied to: the client, the attempt
    and the outcome of [apply_to_request] on its context (Contexts.v). *)
Record StoreView {Client : Type} := mkStoreView {
  sv_client : Client; sv_attempt : nat; sv_applied : Result unit }.
Arguments StoreView Client : clear implicits.
Arguments mkStoreView {Client} _ _ _.

(** [shards] reads the regions through [pd], within [fuel] items of the stream.
    [clone_then_apply_shard] is [apply_shard] on a clone: [clone] differs from the
    identity for the plans that do not clone what a shard or a store left in them. *)
Class Shardable (Client P Shard : Type) := {
  clone : P → P;
  shards : (nat → list Z → Result RegionWithLeader.t) → nat → P →
    option (list (Result (Shard * RegionWithLeader.t)));
  apply_shard : Shard → P → P;
  apply_store : StoreView Client → P → Result P
}.
Arguments clone Client {P Shard _} _.
Arguments shards Client {P Shard _} _ _ _.
Arguments apply_shard Client {P Shard _} _ _.
Arguments apply_store {Client P Shard _} _ _.

Definition clone_then_apply_shard Client {P Shard} `{Shardable Client P Shard} (shard : Shard) (p : P) : P :=
  apply_shard Client shard (clone Client p).

(** ** The two macros *)

(** [store.apply_to_request(self)]: the body of the request does not change. *)
Definition apply_to_request {Client P} (s : StoreView Client) (req : P) : Result P :=
  _ ← sv_applied s; Ok req.

(** [shardable_key!]: [shard.pop().unwrap_or_default()] *)
Definition key_shards (pd : nat → list Z → Result RegionWithLeader.t) (fuel : nat) (key : Key) :
    option (list (Result (list (list Z) * RegionWithLeader.t))) :=
  group_keys_by_region pd id fuel [key].
Definition pop_key (shard : list (list Z)) : Key := default [] (last shard).

Section requests.
Context {Client : Type}.

Definition GetRequest_apply_shard (shard : list (list Z)) (r : GetRequest.t) : GetRequest.t :=
  GetRequest.mk (pop_key shard) (GetRequest.version r) (GetRequest.need_commit_ts r).
#[export] Instance GetRequest_shardable : Shardable Client GetRequest.t (list (list Z)) := {|
  clone := id; shards pd fuel r := key_shards pd fuel (GetRequest.key r);
  apply_shard := GetRequest_apply_shard; apply_store := apply_to_request |}.

Definition CleanupRequest_apply_shard (shard : list (list Z)) (r : CleanupRequest.t) : CleanupRequest.t :=
  CleanupRequest.mk (pop_key shard) (CleanupRequest.start_version r).
#[export] Instance CleanupRequest_shardable : Shardable Client CleanupRequest.t (list (list Z)) := {|
  clone := id; shards pd fuel r := key_shards pd fuel (CleanupRequest.key r);
  apply_shard := CleanupRequest_apply_shard; apply_store := apply_to_request |}.

Definition TxnHeartBeatRequest_shards (pd : nat → list Z → Result RegionWithLeader.t) (fuel : nat)
    (r : TxnHeartBeatRequest.t) := key_shards pd fuel (TxnHeartBeatRequest.primary_lock r).
Definition TxnHeartBeatRequest_apply_shard (shard : list (list Z)) (r : TxnHeartBeatRequest.t) :
    TxnHeartBeatRequest.t :=
  TxnHeartBeatRequest.mk (TxnHeartBeatRequest.start_version r) (pop_key shard)
    (TxnHeartBeatRequest.advise_lock_ttl r).
#[export] Instance TxnHeartBeatRequest_shardable :
  Shardable Client TxnHeartBeatRequest.t (list (list Z)) := {|
  clone := id; shards := TxnHeartBeatRequest_shards;
  apply_shard := TxnHeartBeatRequest_apply_shard; apply_store := apply_to_request |}.
End requests.

Module CheckTxnStatusRequest.
Record t := mk {
  primary_key : Key; lock_ts : Z; caller_start_ts : Z; current_ts : Z; rollback_if_not_exist : bool;
  force_sync_commit : bool; resolving_pessimistic_lock : bool }.
End CheckTxnStatusRequest.
Definition new_check_txn_status_request (primary_key : Key) (lock_ts caller_start_ts current_ts : Z)
    (rollback_if_not_exist force_sync_commit resolving_pessimistic_lock : bool) : CheckTxnStatusRequest.t :=
  CheckTxnStatusRequest.mk primary_key lock_ts caller_start_ts current_ts rollback_if_not_exist
    force_sync_commit resolving_pessimistic_lock.

Module CheckSecondaryLocksRequest.
Record t := mk { keys : list (list Z); start_version : Z }.
End CheckSecondaryLocksRequest.
Definition new_check_secondary_locks_request (keys : list (list Z)) (start_version : Z) :
    CheckSecondaryLocksRequest.t :=
  CheckSecondaryLocksRequest.mk keys start_version.

Section more_requests.
Context {Client : Type}.

Definition CheckTxnStatusRequest_shards (pd : nat → list Z → Result RegionWithLeader.t) (fuel : nat)
    (r : CheckTxnStatusRequest.t) := key_shards pd fuel (CheckTxnStatusRequest.primary_key r).
Definition CheckTxnStatusRequest_apply_shard (shard : list (list Z)) (r : CheckTxnStatusRequest.t) :
    CheckTxnStatusRequest.t :=
  CheckTxnStatusRequest.mk (pop_key shard) (CheckTxnStatusRequest.lock_ts r)
    (CheckTxnStatusRequest.caller_start_ts r) (CheckTxnStatusRequest.current_ts r)
    (CheckTxnStatusRequest.rollback_if_not_exist r) (CheckTxnStatusRequest.force_sync_commit r)
    (CheckTxnStatusRequest.resolving_pessimistic_lock r).
#[export] Instance CheckTxnStatusRequest_shardable :
  Shardable Client CheckTxnStatusRequest.t (list (list Z)) := {|
  clone := id; shards := CheckTxnStatusRequest_shards;
  apply_shard := CheckTxnStatusRequest_apply_shard; apply_store := apply_to_request |}.

(** [shardable_keys!] *)
#[export] Instance BatchGetRequest_shardable : Shardable Client BatchGetRequest.t (list (list Z)) := {|
  clone := id; shards pd fuel r := keys_shards pd fuel (BatchGetRequest.keys r);
  apply_shard keys r := BatchGetRequest.mk keys (BatchGetRequest.version r) (BatchGetRequest.need_commit_ts r);
  apply_store := apply_to_request |}.
#[export] Instance BatchRollbackRequest_shardable :
  Shardable Client BatchRollbackRequest.t (list (list Z)) := {|
  clone := id; shards pd fuel r := keys_shards pd fuel (BatchRollbackRequest.keys r);
  apply_shard keys r := BatchRollbackRequest.mk keys (BatchRollbackRequest.start_version r);
  apply_store := apply_to_request |}.
#[export] Instance PessimisticRollbackRequest_shardable :
  Shardable Client PessimisticRollbackRequest.t (list (list Z)) := {|
  clone := id; shards pd fuel r := keys_shards pd fuel (PessimisticRollbackRequest.keys r);
  apply_shard keys r := PessimisticRollbackRequest.mk keys (PessimisticRollbackRequest.start_version r)
    (PessimisticRollbackRequest.for_update_ts r);
  apply_store := apply_to_request |}.
#[export] Instance CheckSecondaryLocksRequest_shardable :
  Shardable Client CheckSecondaryLocksRequest.t (list (list Z)) := {|
  clone := id; shards pd fuel r := keys_shards pd fuel (CheckSecondaryLocksRequest.keys r);
  apply_shard keys r := CheckSecondaryLocksRequest.mk keys (CheckSecondaryLocksRequest.start_version r);
  apply_store := apply_to_request |}.

(** The requests with an implementation of their own *)
Definition PessimisticLockRequest_shards (pd : nat → list Z → Result RegionWithLeader.t) (fuel : nat)
    (r : PessimisticLockRequest.t) : option (list (Result (list PbMutation.t * RegionWithLeader.t))) :=
  group_keys_by_region pd PbMutation.key fuel
    (sort_by_key PbMutation.key (PessimisticLockRequest.mutations r)).
Definition PessimisticLockRequest_apply_shard (shard : list PbMutation.t) (r : PessimisticLockRequest.t) :
    PessimisticLockRequest.t :=
  PessimisticLockRequest.mk shard (PessimisticLockRequest.primary_lock r)
    (PessimisticLockRequest.start_version r) (PessimisticLockRequest.lock_ttl r)
    (PessimisticLockRequest.for_update_ts r) (PessimisticLockRequest.is_first_lock r)
    (PessimisticLockRequest.options r) (PessimisticLockRequest.min_commit_ts r).
#[export] Instance PessimisticLockRequest_shardable :
  Shardable Client PessimisticLockRequest.t (list PbMutation.t) := {|
  clone := id; shards := PessimisticLockRequest_shards;
  apply_shard := PessimisticLockRequest_apply_shard; apply_store := apply_to_request |}.

Definition FlushRequest_shards (pd : nat → list Z → Result RegionWithLeader.t) (fuel : nat)
    (r : FlushRequest.t) : option (list (Result (list PbMutation.t * RegionWithLeader.t))) :=
  batched_shards pd PbMutation.key mutation_size TXN_COMMIT_BATCH_SIZE fuel (FlushRequest.mutations r).
Definition FlushRequest_apply_shard (shard : list PbMutation.t) (r : FlushRequest.t) : FlushRequest.t :=
  FlushRequest.mk shard (FlushRequest.primary_key r) (FlushRequest.start_ts r)
    (FlushRequest.min_commit_ts r) (FlushRequest.generation r) (FlushRequest.lock_ttl r)
    (FlushRequest.assertion_level r).
#[export] Instance FlushRequest_shardable : Shardable Client FlushRequest.t (list PbMutation.t) := {|
  clone := id; shards := FlushRequest_shards;
  apply_shard := FlushRequest_apply_shard; apply_store := apply_to_request |}.

Definition CommitRequest_shards (pd : nat → list Z → Result RegionWithLeader.t) (fuel : nat)
    (r : CommitRequest.t) : option (list (Result (list (list Z) * RegionWithLeader.t))) :=
  batched_shards pd id key_size TXN_COMMIT_BATCH_SIZE fuel (CommitRequest.keys r).
Definition CommitRequest_apply_shard (shard : list (list Z)) (r : CommitRequest.t) : CommitRequest.t :=
  CommitRequest.mk shard (CommitRequest.start_version r) (CommitRequest.commit_version r)
    (CommitRequest.primary_key r).
#[export] Instance CommitRequest_shardable : Shardable Client CommitRequest.t (list (list Z)) := {|
  clone := id; shards := CommitRequest_shards;
  apply_shard := CommitRequest_apply_shard; apply_store := apply_to_request |}.

(** A retried prewrite also disables resolve-lock-lite. *)
Definition PrewriteRequest_apply_store (s : StoreView Client) (r : PrewriteRequest.t) : Result PrewriteRequest.t :=
  r ← apply_to_request s r; Ok (Requests.apply_store (sv_attempt s) r).
#[export] Instance PrewriteRequest_shardable : Shardable Client PrewriteRequest.t PrewriteShard := {|
  clone := id; shards := prewrite_shards;
  apply_shard := Requests.apply_shard; apply_store := PrewriteRequest_apply_store |}.

Definition ScanLockRequest_shards (pd : nat → list Z → Result RegionWithLeader.t) (fuel : nat)
    (r : ScanLockRequest.t) : option (list (Result ((Key * Key) * RegionWithLeader.t))) :=
  region_stream_for_range pd fuel (ScanLockRequest.start_key r, ScanLockRequest.end_key r).
Definition ScanLockRequest_apply_shard (shard : Key * Key) (r : ScanLockRequest.t) : ScanLockRequest.t :=
  ScanLockRequest.mk shard.1 shard.2 (ScanLockRequest.max_version r) (ScanLockRequest.limit r).
#[export] Instance ScanLockRequest_shardable : Shardable Client ScanLockRequest.t (Key * Key) := {|
  clone := id; shards := ScanLockRequest_shards;
  apply_shard := ScanLockRequest_apply_shard; apply_store := apply_to_request |}.

(** [shardable_range!] for [ScanRequest], a reversible range request *)
Definition ScanRequest_range (r : ScanRequest.t) : RangeReq :=
  mkRangeReq (ScanRequest.start_key r) (ScanRequest.end_key r) (ScanRequest.reverse r).
Definition ScanRequest_with_range (range : RangeReq) (r : ScanRequest.t) : ScanRequest.t :=
  ScanRequest.mk (rr_start_key range) (rr_end_key range) (ScanRequest.limit r) (ScanRequest.key_only r)
    (ScanRequest.version r) (rr_reverse range).
#[export] Instance ScanRequest_shardable : Shardable Client ScanRequest.t (Key * Key) := {|
  clone := id; shards pd fuel r := range_shards pd fuel (ScanRequest_range r);
  apply_shard shard r := ScanRequest_with_range (range_apply_shard shard (ScanRequest_range r)) r;
  apply_store := apply_to_request |}.
End more_requests.

(** [NextBatch for ScanLockRequest] *)
Definition ScanLockRequest_next_batch (range : Key * Key) (r : ScanLockRequest.t) : ScanLockRequest.t :=
  ScanLockRequest.mk range.1 (ScanLockRequest.end_key r) (ScanLockRequest.max_version r)
    (ScanLockRequest.limit r).

(** ** The plans around a request *)

Module Dispatch.
Record t {Client Req : Type} := mk { request : Req; kv_client : option Client }.
Arguments t Client Req : clear implicits.
Arguments mk {Client Req} _ _.

Section dispatch.
Context {Client Req Shard : Type} `{Shardable Client Req Shard}.
Definition apply_store (s : StoreView Client) (d : t Client Req) : Result (t Client Req) :=
  req ← apply_store s (request d); Ok (mk req (Some (sv_client s))).
#[global] Instance shardable : Shardable Client (t Client Req) Shard := {|
  clone d := mk (clone Client (request d)) (kv_client d);
  shards pd fuel d := shards Client pd fuel (request d);
  apply_shard shard d := mk (apply_shard Client shard (request d)) (kv_client d);
  TxnPlans.apply_store := apply_store |}.
Definition execute {Resp} (send : Client → Req → Result Resp) (d : t Client Req) : Result Resp :=
  client ← ok_or (kv_client d) (InternalError "Dispatch plan executed without an attached kv_client");
  send client (request d).
End dispatch.
End Dispatch.

Module PreserveShard.
Record t {P Shard : Type} := mk { inner : P; shard : option Shard }.
Arguments t P Shard : clear implicits.
Arguments mk {P Shard} _ _.

Section preserve_shard.
Context {Client P Shard : Type} `{Shardable Client P Shard}.
(** [Clone for PreserveShard] drops the shard. *)
Definition clone (p : t P Shard) : t P Shard := mk (clone Client (inner p)) None.
Definition apply_shard (s : Shard) (p : t P Shard) : t P Shard :=
  mk (apply_shard Client s (inner p)) (Some s).
#[global] Instance shardable : Shardable Client (t P Shard) Shard := {|
  TxnPlans.clone := clone;
  shards pd fuel p := shards Client pd fuel (inner p);
  TxnPlans.apply_shard := apply_shard;
  apply_store s p := i ← apply_store s (inner p); Ok (mk i (shard p)) |}.
Definition execute {Resp} (inner_execute : P → Result Resp) (p : t P Shard) : Result (Resp * Shard) :=
  res ← inner_execute (inner p);
  shard ← ok_or (shard p) (InternalError "PreserveShard executed without an attached shard");
  Ok (res, shard).
End preserve_shard.
End PreserveShard.

(** [ResolveLock] and its [impl_inner_shardable!]; [resolve_lock_execute] of LockPlans.v runs it. *)
Module ResolveLock.
Record t {P : Type} := mk { inner : P; backoff : Backoff.t }.
Arguments t P : clear implicits.
Arguments mk {P} _ _.

Section resolve_lock.
Context {Client P Shard : Type} `{Shardable Client P Shard}.
#[global] Instance shardable : Shardable Client (t P) Shard := {|
  clone p := mk (clone Client (inner p)) (backoff p);
  shards pd fuel p := shards Client pd fuel (inner p);
  apply_shard s p := mk (apply_shard Client s (inner p)) (backoff p);
  apply_store s p := i ← apply_store s (inner p); Ok (mk i (backoff p)) |}.
End resolve_lock.
End ResolveLock.

(** [CleanupLocks] keeps the store it is applied to; its clone does not. *)
Module CleanupLocks.
Record t {Client P : Type} := mk { inner : P; store : option (StoreView Client); backoff : Backoff.t }.
Arguments t Client P : clear implicits.
Arguments mk {Client P} _ _ _.

Section cleanup_locks.
Context {Client P Shard : Type} `{Shardable Client P Shard}.
Definition clone (p : t Client P) : t Client P := mk (clone Client (inner p)) None (backoff p).
Definition apply_store (s : StoreView Client) (p : t Client P) : Result (t Client P) :=
  i ← apply_store s (inner p); Ok (mk i (Some s) (backoff p)).
#[global] Instance shardable : Shardable Client (t Client P) Shard := {|
  TxnPlans.clone := clone;
  shards pd fuel p := shards Client pd fuel (inner p);
  apply_shard s p := mk (apply_shard Client s (inner p)) (store p) (backoff p);
  TxnPlans.apply_store := apply_store |}.
End cleanup_locks.
End CleanupLocks.

(** The plan of a shardable request: its stores and executions are given for each place of the tree of retries. *)
Definition plan_ops Client {P Shard Resp} `{Shardable Client P Shard}
    (pd : list nat → nat → list Z → Result RegionWithLeader.t) (shards_fuel : P → nat)
    (store : list nat → StoreView Client) (execute : list nat → P → Result Resp)
    (key_errors : Resp → option (list Error)) (region_error : Resp → option RegionError.t) :
    PlanOps P Shard Resp := {|
  plan_shards path p := default [] (shards Client (pd path) (shards_fuel p) p);
  plan_apply_shard := clone_then_apply_shard Client;
  plan_apply_store path p := apply_store (store path) p;
  plan_execute := execute;
  resp_key_errors := key_errors;
  resp_region_error := region_error
|}.

(** ** Requests that are cut by keys *)

(** What such a request promises: its items are grouped by region in the order of their keys, a
    shard replaces them (a request for one key takes the shard's one key), and neither a
    clone nor a store changes them.  [keyed_inv] is what a plan keeps in step with its items,
    [frame] is the request without them, which never changes. *)
Class Keyed Client P Item `{Shardable Client P (list Item)} := {
  item_key : Item → Key;
  content : P → list Item;
  keyed_inv : P → Prop;
  Frame : Type;
  frame : P → Frame;
  keyed_shards : ∀ pd fuel p,
    shards Client pd fuel p = group_keys_by_region pd item_key fuel (sort_by_key item_key (content p));
  keyed_apply : ∀ s p, (length (content p) = 1 → length s = 1)%nat → content (apply_shard Client s p) = s;
  keyed_clone : ∀ p, content (clone Client p) = content p;
  keyed_store : ∀ s p p', apply_store s p = Ok p' →
    content p' = content p ∧ frame p' = frame p ∧ (keyed_inv p → keyed_inv p');
  keyed_inv_shard : ∀ s p, (length (content p) = 1 → length s = 1)%nat →
    keyed_inv (clone_then_apply_shard Client s p);
  frame_shard : ∀ s p, frame (clone_then_apply_shard Client s p) = frame p
}.
Arguments item_key Client {P Item _ _} _.
Arguments content Client {P Item _ _} _.
Arguments keyed_inv Client {P Item _ _} _.
Arguments Frame Client P {Item _ _}.
Arguments frame Client {P Item _ _} _.

Lemma apply_to_request_ok {Client P} (s : StoreView Client) (p p' : P) : apply_to_request s p = Ok p' → p' = p.
Proof. unfold apply_to_request. destruct (sv_applied s); simpl; [congruence | done]. Qed.

Lemma pop_key_single s : length s = 1%nat → [pop_key s] = s.
Proof. by destruct s as [|k [|]]. Qed.

Ltac solve_keyed :=
  intros;
  first [ done
        | apply pop_key_single; by auto
        | match goal with H : TxnPlans.apply_store _ _ = Ok _ |- _ => by apply apply_to_request_ok in H as -> end ].

Section keyed.
Context {Client : Type}.
#[export] Instance GetRequest_keyed : Keyed Client GetRequest.t (list Z).
Proof. refine {| item_key := id; content r := [GetRequest.key r]; keyed_inv _ := True; frame := apply_shard Client [] |}; solve_keyed. Defined.
#[export] Instance CleanupRequest_keyed : Keyed Client CleanupRequest.t (list Z).
Proof. refine {| item_key := id; content r := [CleanupRequest.key r]; keyed_inv _ := True; frame := apply_shard Client [] |}; solve_keyed. Defined.
#[export] Instance TxnHeartBeatRequest_keyed : Keyed Client TxnHeartBeatRequest.t (list Z).
Proof. refine {| item_key := id; content r := [TxnHeartBeatRequest.primary_lock r]; keyed_inv _ := True; frame := apply_shard Client [] |}; solve_keyed. Defined.
#[export] Instance CheckTxnStatusRequest_keyed : Keyed Client CheckTxnStatusRequest.t (list Z).
Proof. refine {| item_key := id; content r := [CheckTxnStatusRequest.primary_key r]; keyed_inv _ := True; frame := apply_shard Client [] |}; solve_keyed. Defined.
#[export] Instance BatchGetRequest_keyed : Keyed Client BatchGetRequest.t (list Z).
Proof. refine {| item_key := id; content := BatchGetRequest.keys; keyed_inv _ := True; frame := apply_shard Client [] |}; solve_keyed. Defined.
#[export] Instance BatchRollbackRequest_keyed : Keyed Client BatchRollbackRequest.t (list Z).
Proof. refine {| item_key := id; content := BatchRollbackRequest.keys; keyed_inv _ := True; frame := apply_shard Client [] |}; solve_keyed. Defined.
#[export] Instance PessimisticRollbackRequest_keyed : Keyed Client PessimisticRollbackRequest.t (list Z).
Proof. refine {| item_key := id; content := PessimisticRollbackRequest.keys; keyed_inv _ := True; frame := apply_shard Client [] |}; solve_keyed. Defined.
#[export] Instance CheckSecondaryLocksRequest_keyed : Keyed Client CheckSecondaryLocksRequest.t (list Z).
Proof. refine {| item_key := id; content := CheckSecondaryLocksRequest.keys; keyed_inv _ := True; frame := apply_shard Client [] |}; solve_keyed. Defined.
#[export] Instance PessimisticLockRequest_keyed : Keyed Client PessimisticLockRequest.t PbMutation.t.
Proof. refine {| item_key := PbMutation.key; content := PessimisticLockRequest.mutations; keyed_inv _ := True; frame := apply_shard Client [] |}; solve_keyed. Defined.

(** The wrappers pass the promise on; [PreserveShard] adds that the shard it will attach to
    the response is the one its inner plan was cut to. *)
Context {P Item : Type} `{HK : Keyed Client P Item}.

Lemma apply_store_inner {Q} (s : StoreView Client) (f : P → Q) p q :
  (i ← apply_store s p; Ok (f i)) = Ok q → ∃ i, apply_store s p = Ok i ∧ q = f i.
Proof. destruct (apply_store s p) as [i|e]; simpl; [|done]. intros [= <-]. eauto. Qed.

#[export] Instance Dispatch_keyed : Keyed Client (Dispatch.t Client P) Item.
Proof.
  refine {| item_key := item_key Client; content d := content Client (Dispatch.request d);
            keyed_inv d := keyed_inv Client (Dispatch.request d); frame d := frame Client (Dispatch.request d) |}.
  - intros pd fuel d. exact (keyed_shards pd fuel (Dispatch.request d)).
  - intros s d. exact (keyed_apply s (Dispatch.request d)).
  - intros d. exact (keyed_clone (Dispatch.request d)).
  - intros s d d' (i & Hi & ->)%(apply_store_inner s). by apply keyed_store in Hi.
  - intros s d. exact (keyed_inv_shard s (Dispatch.request d)).
  - intros s d. exact (frame_shard s (Dispatch.request d)).
Defined.
#[export] Instance ResolveLock_keyed : Keyed Client (ResolveLock.t P) Item.
Proof.
  refine {| item_key := item_key Client; content p := content Client (ResolveLock.inner p);
            keyed_inv p := keyed_inv Client (ResolveLock.inner p); frame p := frame Client (ResolveLock.inner p) |}.
  - intros pd fuel p. exact (keyed_shards pd fuel (ResolveLock.inner p)).
  - intros s p. exact (keyed_apply s (ResolveLock.inner p)).
  - intros p. exact (keyed_clone (ResolveLock.inner p)).
  - intros s p p' (i & Hi & ->)%(apply_store_inner s). by apply keyed_store in Hi.
  - intros s p. exact (keyed_inv_shard s (ResolveLock.inner p)).
  - intros s p. exact (frame_shard s (ResolveLock.inner p)).
Defined.
#[export] Instance PreserveShard_keyed : Keyed Client (PreserveShard.t P (list Item)) Item.
Proof.
  refine {| item_key := item_key Client; content p := content Client (PreserveShard.inner p);
            keyed_inv p := keyed_inv Client (PreserveShard.inner p) ∧
              ∀ s, PreserveShard.shard p = Some s → s = content Client (PreserveShard.inner p);
            frame p := frame Client (PreserveShard.inner p) |}.
  - intros pd fuel p. exact (keyed_shards pd fuel (PreserveShard.inner p)).
  - intros s p. exact (keyed_apply s (PreserveShard.inner p)).
  - intros p. exact (keyed_clone (PreserveShard.inner p)).
  - intros s p p' (i & Hi & ->)%(apply_store_inner s). apply keyed_store in Hi as (Hc & Hf & Hi). cbn.
    rewrite Hc. naive_solver.
  - intros s p Hs. split; [by apply (keyed_inv_shard s (PreserveShard.inner p))|]. intros s' [= <-]. cbn.
    symmetry. apply (keyed_apply s (clone Client (PreserveShard.inner p))). by rewrite keyed_clone.
  - intros s p. exact (frame_shard s (PreserveShard.inner p)).
Defined.
End keyed.

(** ** What [Keyed] gives to the execution over regions *)

Section keyed_plans.
Context {Client P Item Resp : Type} `{HK : Keyed Client P Item}.
Context (pd : list nat → nat → list Z → Result RegionWithLeader.t) (store : list nat → StoreView Client).
Context (execute : list nat → P → Result Resp) (key_errors : Resp → option (list Error)).
Context (region_error : Resp → option RegionError.t) (Hpd : ∀ path, RegionLookup (pd path)).

Definition keyed_fuel (p : P) : nat := S (length (content Client p)).
#[local] Abbreviation ops := (plan_ops Client pd keyed_fuel store execute key_errors region_error).

Definition keyed_valid (p : P) : Prop :=
  keyed_inv Client p ∧ Forall (λ x, wf_key (item_key Client x)) (content Client p).

(** The shards of a plan: groups that make up its items, one group of one item when it has one. *)
Lemma keyed_shards_spec path p shards : Forall (λ x, wf_key (item_key Client x)) (content Client p) →
  mapM id (plan_shards ops path p) = Ok shards →
  concat (map fst shards) ≡ₚ content Client p ∧
  ∀ s, s ∈ shards → (length (content Client p) = 1 → length s.1 = 1)%nat.
Proof.
  intros Hwf. unfold plan_ops; cbn [plan_shards]. rewrite keyed_shards. unfold group_keys_by_region.
  pose proof (sort_by_key_perm (item_key Client) (content Client p)) as Hsort.
  destruct (group_keys_stream (pd path) (item_key Client) (Hpd path) (keyed_fuel p) 0
    (sort_by_key (item_key Client) (content Client p))) as (groups & tail & -> & HF & rest & Hc & Ht).
  { by rewrite Hsort. }
  { rewrite (Permutation_length Hsort). unfold keyed_fuel. lia. }
  cbn [default]. intros (out' & Ho & ->)%mapM_ok_app.
  destruct Ht as [[-> ->]|(e & -> & _)]; [|done]. injection Ho as <-.
  rewrite !app_nil_r in *. rewrite <- Hc in Hsort. split; [done|].
  intros s (l1 & l2 & ->)%list_elem_of_split H1. rewrite <- (Permutation_length Hsort) in H1.
  apply Forall_app in HF as [_ [[Hne _] _]%Forall_cons].
  rewrite map_app, concat_app, length_app in H1. cbn in H1. rewrite length_app in H1.
  destruct (s.1) as [|x l]; [done|]. cbn in *. lia.
Qed.

Lemma keyed_shard_content path p shards s : Forall (λ x, wf_key (item_key Client x)) (content Client p) →
  mapM id (plan_shards ops path p) = Ok shards → s ∈ shards →
  content Client (plan_apply_shard ops s.1 p) = s.1.
Proof.
  intros Hwf E Hs. destruct (keyed_shards_spec path p shards Hwf E) as [_ H1].
  apply (keyed_apply s.1 (clone Client p)). rewrite keyed_clone. by apply H1.
Qed.

#[export] Instance keyed_partitions : Partitions ops keyed_valid (content Client).
Proof.
  split.
  - intros path p shards [_ Hwf] E. destruct (keyed_shards_spec path p shards Hwf E) as [<- _].
    rewrite (map_ext_in _ fst); [done|]. intros s Hs%list_elem_of_In. by eapply keyed_shard_content.
  - intros path p shards s [_ Hwf] E Hs. destruct (keyed_shards_spec path p shards Hwf E) as [Hc H1]. split.
    + apply keyed_inv_shard. by apply H1.
    + erewrite keyed_shard_content by done. rewrite <- Hc in Hwf. rewrite Forall_concat, Forall_map in Hwf.
      rewrite Forall_forall in Hwf. by apply Hwf.
  - intros path p p' [Hi Hwf] E. apply keyed_store in E as (Hc & _ & Hi'). rewrite <- Hc in Hwf.
    split; [done|]. by split; auto.
Qed.

(** The parts of a plan keep its frame. *)
Definition part_of (root p : P) : Prop := keyed_valid p ∧ frame Client p = frame Client root.

#[export] Instance part_partitions root : Partitions ops (part_of root) (content Client).
Proof.
  destruct keyed_partitions as [Hp Hv Hc]. split.
  - intros path p shards [? _]. by apply Hp.
  - intros path p shards s [? Hf] E ?. split; [by eapply Hv|]. cbn. by rewrite frame_shard.
  - intros path p p' [Hkv Hf] E. destruct (Hc path p p' Hkv E) as [? ?]. split; [done|].
    split; [done|]. apply keyed_store in E as (_ & -> & _). done.
Qed.

Context (env : HandlerEnv) (Horder : ∀ path n, order env path n ≡ₚ seq 0 n) (preserve : bool).

(** The results of a plan, with the parts they answer. *)
Lemma keyed_plan_covers fuel p backoff results : keyed_valid p →
  multi_region_execute ops env preserve fuel p backoff = Done (Ok results) →
  covers (R:=Permutation) ops preserve (part_of p) (content Client) p results.
Proof.
  intros Hv E.
  exact (single_plan_covers ops env preserve (part_of p) (content Client) Horder fuel _ _ _ _ _ (conj Hv eq_refl) E).
Qed.
End keyed_plans.

(** ** [PreserveShard] *)

Section preserve_shard_plans.
Context {Client P Item Resp : Type} `{HK : Keyed Client P Item}.
Context (pd : list nat → nat → list Z → Result RegionWithLeader.t) (store : list nat → StoreView Client).
Context (execute : list nat → P → Result Resp) (key_errors : Resp → option (list Error)).
Context (region_error : Resp → option RegionError.t).

Definition inner_ops : PlanOps P (list Item) Resp :=
  plan_ops Client pd (keyed_fuel (Client:=Client)) store execute key_errors region_error.
(** The plan with its shard preserved; [ResponseWithShard] forwards the errors of its response. *)
Definition preserving_ops : PlanOps (PreserveShard.t P (list Item)) (list Item) (Resp * list Item) :=
  plan_ops Client pd (keyed_fuel (Client:=Client)) store (λ path, PreserveShard.execute (execute path))
    (λ r, key_errors r.1) (λ r, region_error r.1).

Definition attach (l : P * Result Resp) : Result (Resp * list Item) :=
  resp ← l.2; Ok (resp, content Client l.1).

Lemma preserve_execute_ok path (p : PreserveShard.t P (list Item)) r :
  keyed_inv Client p → PreserveShard.execute (execute path) p = Ok r →
  execute path (PreserveShard.inner p) = Ok r.1 ∧ r.2 = content Client (PreserveShard.inner p).
Proof.
  intros [_ Hs]. unfold PreserveShard.execute. destruct (execute path _) as [resp|e]; [|done]. cbn.
  destruct (PreserveShard.shard p) as [s|]; [|done]. cbn. intros [= <-]. split; [done|]. by apply Hs.
Qed.

(** The shard attached to a response is what the response answers. *)
Lemma preserving_covers preserve (root : PreserveShard.t P (list Item)) results :
  covers (R:=Permutation) preserving_ops preserve (part_of root) (content Client) root results →
  ∃ parts : list (P * Result Resp), map attach parts = results ∧
    concat (map (content Client ∘ fst) parts) ≡ₚ content Client (PreserveShard.inner root) ∧
    Forall (λ l, part_of (PreserveShard.inner root) l.1 ∧ answers inner_ops preserve l) parts.
Proof.
  intros (parts & <- & Hc & HF).
  exists (map (λ l : _ * _, (PreserveShard.inner l.1, fst <$> l.2)) parts).
  rewrite !map_map. split_and!; [|done|].
  - apply map_ext_in. intros [p r] Hin%list_elem_of_In. rewrite Forall_forall in HF.
    destruct (HF _ Hin) as [[[Hi _] _] Ha]. destruct r as [[resp s]|e]; [|done].
    destruct Ha as (path & Ee & _). apply preserve_execute_ok in Ee as [_ Es]; [|done]. cbn in Es |- *. by rewrite Es.
  - apply Forall_map. eapply Forall_impl; [exact HF|]. intros [p r] [[[Hi Hw] Hf] Ha]. cbn [fst snd].
    split; [split; [split; [by apply Hi | exact Hw] | exact Hf]|].
    destruct r as [[resp s]|e]; cbn in Ha |- *.
    + destruct Ha as (path & Ee & ? & ?). exists path. by apply preserve_execute_ok in Ee as [? _].
    + destruct Ha as [?|(path & resp & es & Ee & ? & ?)]; [by left|]. right. exists path, resp.1, es.
      by apply preserve_execute_ok in Ee as [? _].
Qed.

Lemma preserving_plan_covers env preserve fuel (root : PreserveShard.t P (list Item)) backoff results :
  (∀ path, RegionLookup (pd path)) → (∀ path n, order env path n ≡ₚ seq 0 n) → keyed_valid root →
  multi_region_execute preserving_ops env preserve fuel root backoff = Done (Ok results) →
  ∃ parts : list (P * Result Resp), map attach parts = results ∧
    concat (map (content Client ∘ fst) parts) ≡ₚ content Client (PreserveShard.inner root) ∧
    Forall (λ l, part_of (PreserveShard.inner root) l.1 ∧ answers inner_ops preserve l) parts.
Proof.
  intros Hpd Ho Hv E. apply (preserving_covers preserve). by apply (keyed_plan_covers _ _ _ _ _ Hpd _ Ho) in E.
Qed.
End preserve_shard_plans.

(** ** Locking keys in many regions *)

(** [kvrpcpb::PessimisticLockResponse] with its errors; [ResponseWithShard] forwards to it. *)
Record LockResponseMsg := mkLockResponse {
  pl_region_error : option RegionError.t; pl_errors : list KeyError.t; pl_body : PessimisticLockResponse.t }.
Abbreviation LockPlan Client := (PreserveShard.t (ResolveLock.t (Dispatch.t Client PessimisticLockRequest.t)) (list PbMutation.t)).

Section pessimistic_lock.
Context {Client : Type}.
Context (pd : list nat → nat → list Z → Result RegionWithLeader.t) (store : list nat → StoreView Client).
(** The execution of the [ResolveLock] plan (LockPlans.v) *)
Context (execute : list nat → ResolveLock.t (Dispatch.t Client PessimisticLockRequest.t) → Result LockResponseMsg).

(** [PlanBuilder::new(..).resolve_lock(..).preserve_shard().retry_multi_region_preserve_results(..)] *)
Definition lock_plan (req : PessimisticLockRequest.t) (lock_backoff : Backoff.t) : LockPlan Client :=
  PreserveShard.mk (ResolveLock.mk (Dispatch.mk req None) lock_backoff) None.
Definition lock_ops : PlanOps (LockPlan Client) (list PbMutation.t) (LockResponseMsg * list PbMutation.t) :=
  preserving_ops pd store execute (λ r, list_key_errors (pl_errors r)) pl_region_error.
(** [.merge(CollectWithShard)] *)
Definition lock_result (results : list (Result (LockResponseMsg * list PbMutation.t))) : Result (list KvPair.t) :=
  collect_with_shard (map (λ r, '(resp, shard) ← r; Ok (pl_body resp, shard)) results).

Definition lock_request (p : LockPlan Client) : PessimisticLockRequest.t :=
  Dispatch.request (ResolveLock.inner (PreserveShard.inner p)).
End pessimistic_lock.

(** A part of the lock request: the mutations of one request that was sent, and its outcome. *)
Definition lock_sent {Client}
    (execute : list nat → ResolveLock.t (Dispatch.t Client PessimisticLockRequest.t) → Result LockResponseMsg)
    (req : PessimisticLockRequest.t) (part : list PbMutation.t * Result LockResponseMsg) : Prop :=
  match part.2 with
  | Ok resp => ∃ path plan, execute path plan = Ok resp ∧ pl_errors resp = [] ∧ pl_region_error resp = None ∧
      Dispatch.request (ResolveLock.inner plan) = PessimisticLockRequest_apply_shard part.1 req
  | Err _ => True
  end.

Definition lock_oks (parts : list (list PbMutation.t * Result LockResponseMsg)) :
    list (PessimisticLockResponse.t * list PbMutation.t) :=
  omap (λ p, (λ resp, (pl_body resp, p.1)) <$> ok p.2) parts.

Lemma list_key_errors_none errors : list_key_errors errors = None → errors = [].
Proof. by destruct errors. Qed.

Lemma lock_frame_request (r req : PessimisticLockRequest.t) :
  PessimisticLockRequest_apply_shard [] r = PessimisticLockRequest_apply_shard [] req →
  r = PessimisticLockRequest_apply_shard (PessimisticLockRequest.mutations r) req.
Proof. destruct r, req. unfold PessimisticLockRequest_apply_shard. cbn. by intros [= -> -> -> -> -> -> ->]. Qed.

Lemma lock_parts {Client} pd store execute env fuel req lock_backoff backoff
    (results : list (Result (LockResponseMsg * list PbMutation.t))) :
  (∀ path, RegionLookup (pd path)) →
  Forall (λ m, wf_key (PbMutation.key m)) (PessimisticLockRequest.mutations req) →
  (∀ path n, order env path n ≡ₚ seq 0 n) →
  multi_region_execute (lock_ops (Client:=Client) pd store execute) env true fuel
    (lock_plan req lock_backoff) backoff = Done (Ok results) →
  ∃ parts, concat (map fst parts) ≡ₚ PessimisticLockRequest.mutations req ∧
    Forall (lock_sent execute req) parts ∧
    map (λ r, '(resp, shard) ← r; Ok (pl_body resp, shard)) results =
    map (λ p, resp ← p.2; Ok (pl_body resp, p.1)) parts.
Proof.
  intros Hpd Hwf Ho E.
  apply preserving_plan_covers in E as (parts & <- & Hc & HF); [|done | done | by split].
  exists (map (λ l : _ * _, (content Client l.1, l.2)) parts). rewrite !map_map. split_and!; [done| |].
  - apply Forall_map. eapply Forall_impl; [exact HF|]. intros [p [resp|e]] [[_ Hf] Ha]; [|done].
    destruct Ha as (path & Ee & Hk & Hr). exists path, p. cbn in Hk, Hr, Hf |- *.
    split_and!; [done | by apply list_key_errors_none | done |]. by apply lock_frame_request.
  - apply map_ext. by intros [p [resp|e]].
Qed.

(** C19: pessimistic locks are taken and reported correctly over many regions.  Whatever PD, the stores
    and the lock resolution answer, and however often shards are cut and retried: the mutations
    of the lock request are divided among requests that differ from it in nothing else.  On success
    each of them was answered without an error, and the pairs returned are key by key those
    the stores reported.  When some of them failed, the error carries exactly the keys of
    those that succeeded (whose locks are then to be rolled back), so that every key of the
    request is either among them or belongs to a part that failed. *)
Theorem pessimistic_lock_plan_correct {Client} pd store execute env fuel req lock_backoff backoff
    (results : list (Result (LockResponseMsg * list PbMutation.t))) :
  (∀ path, RegionLookup (pd path)) →
  Forall (λ m, wf_key (PbMutation.key m)) (PessimisticLockRequest.mutations req) →
  (∀ path n, order env path n ≡ₚ seq 0 n) →
  multi_region_execute (lock_ops (Client:=Client) pd store execute) env true fuel
    (lock_plan req lock_backoff) backoff = Done (Ok results) →
  ∃ parts, concat (map fst parts) ≡ₚ PessimisticLockRequest.mutations req ∧
    Forall (lock_sent execute req) parts ∧
    match lock_result results with
    | Ok pairs => Forall (λ p, is_ok p.2 = true) parts ∧ pairs = concat (map reported_pairs (lock_oks parts))
    | Err (PessimisticLockError inner success_keys) =>
        (∃ ms, (ms, Err inner) ∈ parts) ∧
        success_keys = concat (map (λ p, map PbMutation.key p.2) (lock_oks parts))
    | Err e => ¬ Forall aligned (lock_oks parts)
    end.
Proof.
  intros Hpd Hwf Ho E. destruct (lock_parts _ _ _ _ _ _ _ _ _ Hpd Hwf Ho E) as (parts & Hc & HF & Hr).
  exists parts. split_and!; [done..|]. unfold lock_result. rewrite Hr. clear Hr E Hc HF.
  set (input := map _ parts). pose proof (collect_with_shard_correct input) as H.
  assert (locked_shards input = lock_oks parts) as Hl.
  { clear. unfold locked_shards, lock_oks, input.
    induction parts as [|[ms [resp|e]] parts IH]; [done | cbn; f_equal; exact IH | exact IH]. }
  rewrite Hl in H. destruct (collect_with_shard input) as [pairs|err].
  - destruct H as (Hin & _ & ->). split; [|done]. unfold input in Hin. clear Hl.
    apply Forall_forall. intros [ms [resp|e]] Hp; [done|].
    apply (list_elem_of_fmap_2 (λ p : _ * Result LockResponseMsg, resp ← p.2; Ok (pl_body resp, p.1))) in Hp.
    change (fmap ?f parts) with (map f parts) in Hp. rewrite Hin in Hp. by apply list_elem_of_fmap in Hp as (? & ? & _).
  - destruct err; try (by destruct H as (_ & ? & _)). destruct H as [(before & after & Hin) ->].
    split; [|done]. assert (Err err ∈ input) as (p & Hp & Hin')%list_elem_of_fmap by (rewrite Hin; set_solver).
    destruct p as [ms [resp|e]]; [done|]. injection Hp as <-. by exists ms.
Qed.

(** ** Checking the secondaries of an async-commit transaction *)

(** [kvrpcpb::CheckSecondaryLocksResponse] *)
Record CheckSecondaryLocksResponse := mkSecondaryLocks {
  csl_region_error : option RegionError.t; csl_error : option KeyError.t;
  csl_locks : list LockInfo.t; csl_commit_ts : Z }.

(** [Merge<CheckSecondaryLocksResponse> for Collect]; [None] is the panic of its assertion.  The
    inner loop returns early for a lock without async commit. *)
Fixpoint collect_secondary_locks (locks : list LockInfo.t) (min_commit_ts : Z) : Z * bool :=
  match locks with
  | [] => (min_commit_ts, false)
  | lock :: rest =>
      if negb (LockInfo.use_async_commit lock) then (min_commit_ts, true)
      else collect_secondary_locks rest (Z.max min_commit_ts (LockInfo.min_commit_ts lock))
  end.
Fixpoint collect_secondaries (input : list (Result CheckSecondaryLocksResponse)) (out : SecondaryLocksStatus.t) :
    option (Result SecondaryLocksStatus.t) :=
  match input with
  | [] => Some (Ok out)
  | Err e :: _ => Some (Err e)
  | Ok resp :: input =>
      match collect_secondary_locks (csl_locks resp) (SecondaryLocksStatus.min_commit_ts out) with
      | (m, true) => Some (Ok (SecondaryLocksStatus.mk (SecondaryLocksStatus.commit_ts out) m true))
      | (m, false) =>
          match SecondaryLocksStatus.commit_ts out, Timestamp.try_from_version (csl_commit_ts resp) with
          | Some a, Some b =>
              if bool_decide (a = b) then collect_secondaries input (SecondaryLocksStatus.mk (Some a) m false)
              else None
          | Some a, None => collect_secondaries input (SecondaryLocksStatus.mk (Some a) m false)
          | None, b => collect_secondaries input (SecondaryLocksStatus.mk b m false)
          end
      end
  end.

Section secondaries.
Context {Client : Type}.
Context (pd : list nat → nat → list Z → Result RegionWithLeader.t) (store : list nat → StoreView Client).
Context (execute : list nat → Dispatch.t Client CheckSecondaryLocksRequest.t → Result CheckSecondaryLocksResponse).

(** The plan of [check_all_secondaries] and what it makes of the results. *)
Definition secondaries_plan (keys : list (list Z)) (txn_id : Z) :
    PreserveShard.t (Dispatch.t Client CheckSecondaryLocksRequest.t) (list (list Z)) :=
  PreserveShard.mk (Dispatch.mk (new_check_secondary_locks_request keys txn_id) None) None.
Definition secondaries_ops :=
  preserving_ops pd store execute (λ r, single_key_errors (csl_error r)) csl_region_error.
Definition secondaries_status (to_string : Error → string)
    (results : list (Result (CheckSecondaryLocksResponse * list (list Z)))) (primary_min_commit_ts : Z) :
    Result SecondaryLocksStatus.t :=
  results ← extract_error (vec_key_errors to_string (λ r, single_key_errors (csl_error r.1)))
    (vec_region_errors (λ r, csl_region_error r.1)) (Ok results);
  responses ← collect_error results;
  check_all_secondaries
    (map (λ r, mkSecondaryResponse (csl_locks r.1) (csl_commit_ts r.1) (length r.2)) responses)
    primary_min_commit_ts.
End secondaries.

Lemma mapM_id_ok {A} (l : list (Result A)) out : mapM id l = Ok out → l = map Ok out.
Proof.
  revert out. induction l as [|[x|e] l IH]; intros out; [by intros [= <-] | | done]. cbn.
  destruct (mapM id l) as [o|e]; [|done]. cbn. intros [= <-]. cbn. by rewrite (IH o).
Qed.

(** Where every response has all its locks, all with async commit, and no commit timestamp, the merge of
    [Collect] agrees with [check_all_secondaries]. *)
Lemma collect_secondary_locks_async locks m : Forall (λ l, LockInfo.use_async_commit l = true) locks →
  collect_secondary_locks locks m = (foldl (λ m l, Z.max m (LockInfo.min_commit_ts l)) m locks, false) ∧
  secondary_locks_loop locks false m = Some (foldl (λ m l, Z.max m (LockInfo.min_commit_ts l)) m locks).
Proof. intros H. revert m. induction H as [|l locks Hl _ IH]; intros m; [done|]. cbn. rewrite Hl. apply IH. Qed.

Lemma collect_secondaries_agrees primary responses m :
  Forall (λ r, Forall (λ l, LockInfo.use_async_commit l = true) (csl_locks r) ∧ csl_commit_ts r = 0) responses →
  collect_secondaries (map Ok responses) (SecondaryLocksStatus.mk None m false) =
  Some (secondaries_loop
    (map (λ r, mkSecondaryResponse (csl_locks r) (csl_commit_ts r) (length (csl_locks r))) responses) primary m false None).
Proof.
  intros H. revert m. induction H as [|r responses [Hl Hc] _ IH]; intros m; [done|].
  destruct (collect_secondary_locks_async (csl_locks r) m Hl) as [E1 E2].
  cbn [map collect_secondaries secondaries_loop sr_locks sr_expected SecondaryLocksStatus.min_commit_ts SecondaryLocksStatus.commit_ts].
  rewrite Nat.ltb_irrefl, E1, E2, Hc. apply IH.
Qed.

(** The largest [min_commit_ts]: it bounds those of all locks and is one of them or the primary's. *)
Lemma foldl_max_spec locks m :
  let out := foldl (λ m l, Z.max m (LockInfo.min_commit_ts l)) m locks in
  m ≤ out ∧ Forall (λ l, LockInfo.min_commit_ts l ≤ out) locks ∧
  (out = m ∨ ∃ l, l ∈ locks ∧ out = LockInfo.min_commit_ts l).
Proof.
  revert m. induction locks as [|l locks IH]; intros m; cbn; [by split_and!; [lia | | left]|].
  destruct (IH (Z.max m (LockInfo.min_commit_ts l))) as (H1 & H2 & H3). cbn in *. split_and!; [lia | |].
  - constructor; [lia | done].
  - destruct H3 as [H3|(l' & ? & ?)]; [|right; exists l'; set_solver].
    destruct (Z.max_spec m (LockInfo.min_commit_ts l)) as [[_ E]|[_ E]]; rewrite E in H3 |- *; [|by left].
    right. exists l. set_solver.
Qed.

Lemma omap_missing {A B} (f : A → option B) l :
  (length (omap f l) <? length l)%nat = true ↔ ∃ x, x ∈ l ∧ f x = None.
Proof.
  rewrite Nat.ltb_lt. induction l as [|x l IH]; cbn.
  { split; [lia | by intros (? & ?%elem_of_nil & _)]. }
  change (list_omap _ _ ?g ?k) with (omap g k).
  assert (length (omap f l) ≤ length l)%nat as Hle by (clear; induction l as [|y l IH]; cbn; [lia|]; destruct (f y); cbn; lia).
  destruct (f x) as [y|] eqn:E; cbn.
  - rewrite <- Nat.succ_lt_mono, IH. split; intros (z & ? & ?); exists z; [set_solver|]. split; [|done]. set_solver.
  - split; [|lia]. intros _. exists x. set_solver.
Qed.

Section secondaries_truth.
Context {Client : Type} (lock_at : list nat → Key → option LockInfo.t).
(** What a store answers to a part: the locks that the keys of the part hold when it is asked. *)
Definition reports (p : list (list Z)) (r : SecondaryResponse) : Prop :=
  ∃ path, sr_locks r = omap (lock_at path) p ∧ sr_expected r = length p.

Context (parts : list (list (list Z))) (rs : list SecondaryResponse) (Hrs : Forall2 reports parts rs).

Lemma reported_lock r l : r ∈ rs → l ∈ sr_locks r → ∃ k path, k ∈ concat parts ∧ lock_at path k = Some l.
Proof.
  intros Hr Hl. apply list_elem_of_lookup_1 in Hr as [i Hi].
  destruct (Forall2_lookup_r _ _ _ _ _ Hrs Hi) as (p & Hp & path & E & _). rewrite E in Hl.
  apply list_elem_of_omap in Hl as (k & Hk & El). exists k, path. split; [|done].
  apply list_elem_of_In, in_concat. exists p. split; apply list_elem_of_In; [by eapply list_elem_of_lookup_2 | done].
Qed.

Lemma missing_secondary r : r ∈ rs → lock_missing r = true → ∃ k path, k ∈ concat parts ∧ lock_at path k = None.
Proof.
  intros Hr Hm. apply list_elem_of_lookup_1 in Hr as [i Hi].
  destruct (Forall2_lookup_r _ _ _ _ _ Hrs Hi) as (p & Hp & path & E & El). unfold lock_missing in Hm.
  rewrite E, El in Hm. apply omap_missing in Hm as (k & Hk & ?). exists k, path. split; [|done].
  apply list_elem_of_In, in_concat. exists p. split; apply list_elem_of_In; [by eapply list_elem_of_lookup_2 | done].
Qed.

Lemma all_reported k : Forall (λ r, lock_missing r = false) rs → k ∈ concat parts →
  ∃ path l r, lock_at path k = Some l ∧ r ∈ rs ∧ l ∈ sr_locks r.
Proof.
  intros Hall (p & Hp & Hk)%list_elem_of_In%in_concat. apply list_elem_of_In in Hp, Hk.
  apply list_elem_of_lookup_1 in Hp as [i Hi].
  destruct (Forall2_lookup_l _ _ _ _ _ Hrs Hi) as (r & Hr & path & E & El).
  apply list_elem_of_lookup_2 in Hr. rewrite Forall_forall in Hall. specialize (Hall r Hr).
  unfold lock_missing in Hall. rewrite E, El in Hall.
  destruct (lock_at path k) as [l|] eqn:Ek.
  - exists path, l, r. split_and!; [done..|]. rewrite E. apply list_elem_of_omap. eauto.
  - exfalso. apply not_true_iff_false in Hall. apply Hall, omap_missing. eauto.
Qed.

(** The verdict on a transaction whose secondaries are the keys of the parts. *)
Definition secondaries_verdict (keys : list (list Z)) (primary : Z) (s : SecondaryLocksStatus.t) : Prop :=
  let m := SecondaryLocksStatus.min_commit_ts s in
  if SecondaryLocksStatus.fallback_2pc s then
    ∃ k path l, k ∈ keys ∧ lock_at path k = Some l ∧ LockInfo.use_async_commit l = false
  else
    (SecondaryLocksStatus.commit_ts s = None ∧ primary ≤ m ∧
     (∀ k, k ∈ keys → ∃ path l, lock_at path k = Some l ∧
        LockInfo.use_async_commit l = true ∧ LockInfo.min_commit_ts l ≤ m) ∧
     (m = primary ∨ ∃ k path l, k ∈ keys ∧ lock_at path k = Some l ∧ LockInfo.min_commit_ts l = m)) ∨
    (∃ k path c, k ∈ keys ∧ lock_at path k = None ∧ (c = 0 ∨ primary ≤ c) ∧
       s = SecondaryLocksStatus.mk (Timestamp.try_from_version c) c false).

#[export] Instance secondaries_verdict_perm : Proper ((≡ₚ) ==> eq ==> eq ==> iff) secondaries_verdict.
Proof.
  assert (∀ keys keys' primary s, keys ≡ₚ keys' → secondaries_verdict keys primary s → secondaries_verdict keys' primary s) as H.
  { intros keys keys' primary s Hp. assert (∀ k, k ∈ keys ↔ k ∈ keys') as Hk by (intros k; by rewrite Hp).
    unfold secondaries_verdict. destruct (SecondaryLocksStatus.fallback_2pc s); [by setoid_rewrite Hk|].
    by setoid_rewrite Hk. }
  intros keys keys' Hp primary _ <- s _ <-. by split; apply H.
Qed.

Lemma check_secondaries_verdict primary s : check_all_secondaries rs primary = Ok s →
  secondaries_verdict (concat parts) primary s.
Proof.
  intros E%secondaries_loop_spec. unfold secondaries_ok in E. unfold secondaries_verdict.
  destruct (SecondaryLocksStatus.fallback_2pc s).
  { destruct E as (-> & r & l & Hr & _ & Hl & Ha). destruct (reported_lock r l Hr Hl) as (k & path & ? & ?). eauto 10. }
  destruct E as [Hasync [[Hall ->]|(c & (r & Hr & Hm) & Hc & _ & ->)]].
  2: { right. destruct (missing_secondary r Hr Hm) as (k & path & ? & ?). eauto 10. }
  left. unfold max_min_commit_ts. cbn. destruct (foldl_max_spec (rs ≫= sr_locks) primary) as (H1 & H2 & H3).
  assert (∀ l, l ∈ rs ≫= sr_locks → LockInfo.min_commit_ts l ≤ foldl (λ m l, Z.max m (LockInfo.min_commit_ts l)) primary (rs ≫= sr_locks)) as H2' by (by apply Forall_forall).
  split_and!; [done..| |].
  - intros k Hk. destruct (all_reported k Hall Hk) as (path & l & r & El & Hr & Hl). exists path, l.
    rewrite Forall_forall in Hasync, Hall. split_and!; [done | |].
    + specialize (Hasync r Hr (Hall r Hr)). rewrite Forall_forall in Hasync. by apply Hasync.
    + apply H2', list_elem_of_bind. eauto.
  - destruct H3 as [|(l & (r & ? & ?)%list_elem_of_bind & ?)]; [by left|]. right.
    destruct (reported_lock r l) as (k & path & ? & ?); eauto 10.
Qed.
End secondaries_truth.

(** C20: async-commit recovery decides by all secondaries.  If the stores report truthfully the locks of the
    keys they are asked about, then for any division of the secondaries over regions and any
    retries: a verdict to commit at the largest [min_commit_ts] is given only when every
    secondary key was found to hold an async-commit lock, and the timestamp is at least that of
    each of these locks and of the primary, and equal to one of them; a verdict by a reported commit
    timestamp is given only when some secondary has no lock; and two-phase commit is
    taken up only when some secondary holds a lock without async commit. *)
Theorem check_all_secondaries_plan_correct {Client} pd store execute env fuel keys txn_id backoff results
    (lock_at : list nat → Key → option LockInfo.t) to_string primary s :
  (∀ path, RegionLookup (pd path)) → Forall wf_key keys → (∀ path n, order env path n ≡ₚ seq 0 n) →
  (∀ path plan resp, execute path plan = Ok resp → csl_error resp = None → csl_region_error resp = None →
     CheckSecondaryLocksRequest.start_version (Dispatch.request plan) = txn_id →
     csl_locks resp = omap (lock_at path) (CheckSecondaryLocksRequest.keys (Dispatch.request plan))) →
  multi_region_execute (secondaries_ops (Client:=Client) pd store execute) env false fuel
    (secondaries_plan keys txn_id) backoff = Done (Ok results) →
  secondaries_status to_string results primary = Ok s → secondaries_verdict lock_at keys primary s.
Proof.
  intros Hpd Hwf Ho Htrue E Es.
  apply preserving_plan_covers in E as (parts & <- & Hc & HF); [|done | done | by split].
  unfold secondaries_status in Es. cbn [mbind] in Es.
  destruct (extract_error _ _ _) as [rs|] eqn:Ex; [|done]. cbn in Es.
  assert (rs = map attach parts) as -> by (unfold extract_error in Ex; cbn in Ex; repeat case_match; congruence).
  destruct (collect_error _) as [responses|] eqn:Ec; [|done]. cbn in Es. apply mapM_id_ok in Ec.
  apply (check_secondaries_verdict lock_at (map (content Client ∘ fst) parts)) in Es.
  { by rewrite Hc in Es. }
  clear Es Hc Ex. revert responses Ec. induction HF as [|[p r] parts [[_ Hf] Ha] HF IH]; intros [|r' rs] Ec; try done.
  cbn in Ec. injection Ec as Er Ec. cbn [map]. constructor; [|by apply IH]. cbn in Er.
  destruct r as [resp|e]; [|done]. injection Er as <-. destruct Ha as (path & Ee & Hk & Hr). exists path. cbn in *.
  split; [|done]. apply Htrue; try done.
  - by destruct (csl_error resp).
  - by injection Hf.
Qed.

(** ** Reading one key and reading a batch of keys *)

(** [kvrpcpb::GetResponse], [BatchGetResponse] and [TxnHeartBeatResponse], and [DefaultProcessor] *)
Record GetResponse := mkGetResponse {
  gr_region_error : option RegionError.t; gr_error : option KeyError.t; gr_value : Value; gr_not_found : bool }.
Definition process_get (input : Result GetResponse) : Result (option Value) :=
  input ← input; Ok (if gr_not_found input then None else Some (gr_value input)).
Record BatchGetResponse := mkBatchGetResponse { bg_region_error : option RegionError.t; bg_body : PairsResponse }.
Record TxnHeartBeatResponse := mkHeartBeatResponse {
  hb_region_error : option RegionError.t; hb_error : option KeyError.t; hb_lock_ttl : Z }.
Definition process_heart_beat (input : Result TxnHeartBeatResponse) : Result Z := input ← input; Ok (hb_lock_ttl input).

Section read_plans.
Context {Client : Type}.
Context (pd : list nat → nat → list Z → Result RegionWithLeader.t) (store : list nat → StoreView Client).

Definition get_plan (req : GetRequest.t) (lock_backoff : Backoff.t) : ResolveLock.t (Dispatch.t Client GetRequest.t) :=
  ResolveLock.mk (Dispatch.mk req None) lock_backoff.
Definition get_ops (execute : list nat → ResolveLock.t (Dispatch.t Client GetRequest.t) → Result GetResponse) :=
  inner_ops pd store execute (λ r, single_key_errors (gr_error r)) gr_region_error.
Definition get_result (results : list (Result GetResponse)) : Result (option Value) :=
  process_get (collect_single results).

Definition batch_get_plan (req : BatchGetRequest.t) (lock_backoff : Backoff.t) :
    ResolveLock.t (Dispatch.t Client BatchGetRequest.t) :=
  ResolveLock.mk (Dispatch.mk req None) lock_backoff.
(** The [error] of the response is not among its key errors. *)
Definition batch_get_ops
    (execute : list nat → ResolveLock.t (Dispatch.t Client BatchGetRequest.t) → Result BatchGetResponse) :=
  inner_ops pd store execute (λ r, pairs_key_errors (pr_pairs (bg_body r))) bg_region_error.
Definition batch_get_result (results : list (Result BatchGetResponse)) : Result (list KvPair.t) :=
  collect_pairs (map (λ r, resp ← r; Ok (bg_body resp)) results).
End read_plans.

(** A plan for one key has one result, for the whole plan. *)
Lemma concat_singleton_parts {A B} (f : A → list B) (l : list A) x :
  (∀ a, length (f a) = 1%nat) → concat (map f l) ≡ₚ [x] → ∃ a, l = [a] ∧ f a = [x].
Proof.
  intros H1 Hp. pose proof (Permutation_length Hp) as Hl. cbn in Hl.
  destruct l as [|a [|b l]]; cbn in *; [done | |].
  - exists a. split; [done|]. rewrite app_nil_r in Hp. by apply Permutation_singleton_r in Hp.
  - rewrite !length_app, !H1 in Hl. lia.
Qed.

(** A point read returns what the store says about that key.  If the stores answer a get for a key
    at a version with the value of that version, then, whatever regions the key is looked up in and
    however often the request is retried, the read returns the value of exactly its key at its
    version, or the key error a store answered with. *)
Theorem get_plan_correct {Client} pd store execute env fuel req lock_backoff backoff results
    (snapshot : Z → Key → option Value) :
  (∀ path, RegionLookup (pd path)) → wf_key (GetRequest.key req) → (∀ path n, order env path n ≡ₚ seq 0 n) →
  (∀ path plan resp, execute path plan = Ok resp → gr_error resp = None → gr_region_error resp = None →
     let req := Dispatch.request (ResolveLock.inner plan) in
     snapshot (GetRequest.version req) (GetRequest.key req) =
       if gr_not_found resp then None else Some (gr_value resp)) →
  multi_region_execute (get_ops (Client:=Client) pd store execute) env false fuel
    (get_plan req lock_backoff) backoff = Done (Ok results) →
  match get_result results with
  | Ok v => v = snapshot (GetRequest.version req) (GetRequest.key req)
  | Err e => ∃ path plan resp ke, execute path plan = Ok resp ∧ gr_error resp = Some ke ∧
      Dispatch.request (ResolveLock.inner plan) = req ∧ e = MultipleKeyErrors [error_from_key_error ke]
  end.
Proof.
  intros Hpd Hwf Ho Htrue E.
  apply (keyed_plan_covers _ _ _ _ _ Hpd _ Ho) in E as (parts & <- & Hc & HF); [|split; [done|]; by constructor].
  apply concat_singleton_parts in Hc as ([p r] & -> & Hk); [|done].
  apply Forall_singleton in HF as [[_ Hf] Ha]. cbn in Hf, Hk, Ha.
  assert (Dispatch.request (ResolveLock.inner p) = req) as Hreq.
  { destruct (Dispatch.request (ResolveLock.inner p)), req. cbn in *. injection Hf as -> ->. by injection Hk as ->. }
  unfold get_result. cbn. destruct r as [resp|e]; cbn.
  - destruct Ha as (path & Ee & He & Hr). specialize (Htrue path p resp Ee). cbn in Htrue. rewrite Hreq in Htrue.
    symmetry. apply Htrue; [|done]. cbn in He. by destruct (gr_error resp).
  - destruct Ha as [?|(path & resp & es & Ee & He & ->)]; [done|]. cbn in He. unfold single_key_errors in He.
    destruct (gr_error resp) as [ke|] eqn:Eg; [|done]. injection He as <-. by exists path, p, resp, ke.
Qed.

Lemma flat_map_ok_spec {A B} (f : A → list B) (input : list (Result A)) :
  match flat_map_ok f input with
  | Ok out => ∃ xs, input = map Ok xs ∧ out = concat (map f xs)
  | Err e => Err e ∈ input
  end.
Proof.
  induction input as [|[a|e] input IH]; [by exists [] | | by left]. rewrite flat_map_ok_cons.
  destruct (flat_map_ok f input) as [out|e]; cbn; [|by right].
  destruct IH as (xs & -> & ->). by exists (a :: xs).
Qed.

Lemma omap_concat {A B} (f : A → option B) ls : omap f (concat ls) = concat (map (omap f) ls).
Proof.
  induction ls as [|l ls IH]; [done|]. cbn [concat map]. rewrite <- IH.
  induction l as [|x l IHl]; [done|]. cbn. destruct (f x); cbn; [f_equal|]; exact IHl.
Qed.

(** A batch read returns the batch.  If the stores answer a batch get without an error with the pairs of the
    snapshot for the keys they are asked about, then over any regions and retries the
    merged pairs are those of the snapshot at the request's version for exactly the requested
    keys, each key once per occurrence; otherwise the read fails with the key errors of a
    response. *)
Theorem batch_get_plan_correct {Client} pd store execute env fuel req lock_backoff backoff results
    (snapshot : Z → bool → Key → option KvPair.t) :
  (∀ path, RegionLookup (pd path)) → Forall wf_key (BatchGetRequest.keys req) →
  (∀ path n, order env path n ≡ₚ seq 0 n) →
  (∀ path plan resp, execute path plan = Ok resp → bg_region_error resp = None →
     pairs_key_errors (pr_pairs (bg_body resp)) = None →
     let req := Dispatch.request (ResolveLock.inner plan) in
     map PbKvPair.into (pr_pairs (bg_body resp)) =
       omap (snapshot (BatchGetRequest.version req) (BatchGetRequest.need_commit_ts req)) (BatchGetRequest.keys req)) →
  multi_region_execute (batch_get_ops (Client:=Client) pd store execute) env false fuel
    (batch_get_plan req lock_backoff) backoff = Done (Ok results) →
  match batch_get_result results with
  | Ok out => out ≡ₚ omap (snapshot (BatchGetRequest.version req) (BatchGetRequest.need_commit_ts req))
                       (BatchGetRequest.keys req)
  | Err e => ∃ path plan resp es, execute path plan = Ok resp ∧
      pairs_key_errors (pr_pairs (bg_body resp)) = Some es ∧ e = MultipleKeyErrors es
  end.
Proof.
  intros Hpd Hwf Ho Htrue E.
  apply (keyed_plan_covers _ _ _ _ _ Hpd _ Ho) in E as (parts & <- & Hc & HF); [|by split].
  cbn in Hc. unfold batch_get_result, collect_pairs.
  pose proof (flat_map_ok_spec (λ resp, map PbKvPair.into (pr_pairs resp))
    (map (λ r, resp ← r; Ok (bg_body resp)) (map snd parts))) as H.
  destruct (flat_map_ok _ _) as [out|e].
  - destruct H as (xs & Hin & ->). rewrite <- Hc, omap_concat, map_map. apply Permutation_refl'. f_equal.
    clear Hc. revert xs Hin. induction HF as [|[p r] parts [[_ Hf] Ha] _ IH]; intros [|x xs] Hin; try done.
    cbn in Hin. injection Hin as Hr Hin. cbn [map]. f_equal; [|by apply IH]. cbn in Ha, Hf |- *.
    destruct r as [resp|]; [|done]. injection Hr as <-. destruct Ha as (path & Ee & He & Hre).
    injection Hf as Hv Hn. rewrite <- Hv, <- Hn. by eapply Htrue.
  - apply list_elem_of_fmap in H as ([resp|e'] & He & Hin); [done|]. injection He as ->.
    apply list_elem_of_fmap in Hin as ([p r] & Hr & Hin). cbn in Hr. subst r. rewrite Forall_forall in HF.
    destruct (HF _ Hin) as [_ [?|(path & resp & es & Ee & He & ->)]]; [done|]. by exists path, p, resp, es.
Qed.

(** The theorem relies on stores that answer with pairs: a response that has no pairs and an [error] of its
    own which is not a lock counts as an answer without pairs. *)
Lemma batch_get_response_error_unseen :
  let resp := mkBatchGetResponse None (mkPairsResponse [] (Some (KeyError.mk None "" "aborted" None None None None None None None None None None))) in
  pair_locks (bg_body resp) = [] ∧ pairs_key_errors (pr_pairs (bg_body resp)) = None ∧
  batch_get_result [Ok resp] = Ok [].
Proof. done. Qed.

(** ** The theorems at work

    A cluster of two regions; the second is busy when it is asked first. *)
Definition sample_store (path : list nat) : StoreView unit := mkStoreView () 0 (Ok ()).
Definition busy_at_first (path : list nat) : option RegionError.t :=
  if bool_decide (path = [1%nat]) then Some busy else None.

Definition sample_lock_request : PessimisticLockRequest.t :=
  new_pessimistic_lock_request [([120], AssertNone); ([97], AssertNone)] [97] (Timestamp.mk 1 0 0) 3000
    (Timestamp.mk 2 0 0) false (LockOptions.with_return_values true LockOptions.new).
(** The store of [fails] answers with an error; the others lock their keys, whose value is the key. *)
Definition sample_lock_execute (fails : Key) (path : list nat)
    (p : ResolveLock.t (Dispatch.t unit PessimisticLockRequest.t)) : Result LockResponseMsg :=
  let ms := PessimisticLockRequest.mutations (Dispatch.request (ResolveLock.inner p)) in
  Ok (mkLockResponse (busy_at_first path)
        (if existsb (λ m, key_eqb (PbMutation.key m) fails) ms then [KeyError.default] else [])
        (PessimisticLockResponse.mk [] (map PbMutation.key ms) [])).
Definition sample_lock_run (fails : Key) :=
  multi_region_execute (lock_ops led_pd sample_store (sample_lock_execute fails)) sample_handler_env true 5
    (lock_plan sample_lock_request OPTIMISTIC_BACKOFF) DEFAULT_REGION_BACKOFF.
Definition run_results {A} (r : run (list A)) : list A := match r with Done (Ok l) => l | _ => [] end.

Lemma pessimistic_lock_plan_correct_witness :
  lock_result (run_results (sample_lock_run [])) = Ok [KvPair.new [120] [120]; KvPair.new [97] [97]] ∧
  ∃ parts, concat (map fst parts) ≡ₚ PessimisticLockRequest.mutations sample_lock_request ∧
    Forall (lock_sent (sample_lock_execute [120]) sample_lock_request) parts ∧
    concat (map (λ p, map PbMutation.key p.2) (lock_oks parts)) = [[97]].
Proof.
  split; [by vm_compute|].
  destruct (pessimistic_lock_plan_correct led_pd sample_store (sample_lock_execute [120]) sample_handler_env 5
    sample_lock_request OPTIMISTIC_BACKOFF DEFAULT_REGION_BACKOFF (run_results (sample_lock_run [120])))
    as (parts & Hc & HF & H).
  - apply led_pd_lookup.
  - unfold wf_key, in_u8. repeat constructor; cbn; lia.
  - intros path n. apply Permutation_sym, Permutation_rev.
  - by vm_compute.
  - exists parts. split_and!; [done | done |].
    replace (lock_result (run_results (sample_lock_run [120])))
      with (Err (A:=list KvPair.t) (PessimisticLockError (MultipleKeyErrors [error_from_key_error KeyError.default]) [[97]])) in H
      by (by vm_compute).
    destruct H as [_ <-]. done.
Defined.

(** A transaction with the secondaries [z] (122), [a] and [b]; [locked] are the keys that still hold their lock. *)
Definition sample_lock_at (locked : list Key) (path : list nat) (k : Key) : option LockInfo.t :=
  if existsb (key_eqb k) locked then Some (async_lock k (10 + Z.of_nat (length path))) else None.
Definition sample_secondaries_execute (locked : list Key) (path : list nat)
    (p : Dispatch.t unit CheckSecondaryLocksRequest.t) : Result CheckSecondaryLocksResponse :=
  Ok (mkSecondaryLocks (busy_at_first path) None
        (omap (sample_lock_at locked path) (CheckSecondaryLocksRequest.keys (Dispatch.request p))) 0).
Definition sample_secondaries_run (locked : list Key) :=
  multi_region_execute (secondaries_ops led_pd sample_store (sample_secondaries_execute locked)) sample_handler_env
    false 5 (secondaries_plan [[122]; [97]; [98]] 7) DEFAULT_REGION_BACKOFF.

Lemma check_all_secondaries_plan_correct_witness :
  let status locked := secondaries_status (λ _, EmptyString) (run_results (sample_secondaries_run locked)) 5 in
  status [[97]; [98]; [122]] = Ok (SecondaryLocksStatus.mk None 12 false) ∧
  secondaries_verdict (sample_lock_at [[97]; [98]; [122]]) [[122]; [97]; [98]] 5 (SecondaryLocksStatus.mk None 12 false) ∧
  status [[97]; [98]] = Ok (SecondaryLocksStatus.mk None 0 false).
Proof.
  intros status. split_and!; [by vm_compute | | by vm_compute].
  apply (check_all_secondaries_plan_correct led_pd sample_store (sample_secondaries_execute [[97]; [98]; [122]])
    sample_handler_env 5 [[122]; [97]; [98]] 7 DEFAULT_REGION_BACKOFF
    (run_results (sample_secondaries_run [[97]; [98]; [122]])) _ (λ _, EmptyString)).
  - apply led_pd_lookup.
  - unfold wf_key, in_u8. repeat constructor; lia.
  - intros path n. apply Permutation_sym, Permutation_rev.
  - by intros path plan resp [= <-].
  - by vm_compute.
  - by vm_compute.
Defined.

Definition sample_get_execute (path : list nat) (p : ResolveLock.t (Dispatch.t unit GetRequest.t)) : Result GetResponse :=
  let key := GetRequest.key (Dispatch.request (ResolveLock.inner p)) in
  Ok (mkGetResponse (busy_at_first path) None key (key_eqb key [98])).
Lemma get_plan_correct_witness :
  get_result [Ok (mkGetResponse None None [120] false)] = Ok (Some [120]) ∧ Some [120] = Some [120].
Proof.
  split; [done|].
  apply (get_plan_correct led_pd sample_store sample_get_execute sample_handler_env 5
    (GetRequest.mk [120] 9 false) OPTIMISTIC_BACKOFF DEFAULT_REGION_BACKOFF
    [Ok (mkGetResponse None None [120] false)] (λ _ k, if key_eqb k [98] then None else Some k)).
  - apply led_pd_lookup.
  - unfold wf_key, in_u8. repeat constructor; lia.
  - intros path n. apply Permutation_sym, Permutation_rev.
  - by intros path plan resp [= <-].
  - by vm_compute.
Defined.

(** The key [b] (98) does not exist; the value of the others is the key. *)
Definition sample_snapshot (version : Z) (need_commit_ts : bool) (k : Key) : option KvPair.t :=
  if key_eqb k [98] then None else Some (KvPair.new_with_commit_ts k k (if need_commit_ts then version else 0)).
Definition sample_batch_get_execute (path : list nat)
    (p : ResolveLock.t (Dispatch.t unit BatchGetRequest.t)) : Result BatchGetResponse :=
  let req := Dispatch.request (ResolveLock.inner p) in
  Ok (mkBatchGetResponse (busy_at_first path)
        (mkPairsResponse (map (λ p, PbKvPair.mk None (KvPair.key p) (KvPair.value p) (KvPair.commit_ts p))
           (omap (sample_snapshot (BatchGetRequest.version req) (BatchGetRequest.need_commit_ts req))
              (BatchGetRequest.keys req))) None)).
Definition sample_batch_get : BatchGetRequest.t := BatchGetRequest.mk [[120]; [98]; [97]] 9 true.
Definition sample_batch_get_run :=
  multi_region_execute (batch_get_ops led_pd sample_store sample_batch_get_execute) sample_handler_env false 5
    (batch_get_plan sample_batch_get OPTIMISTIC_BACKOFF) DEFAULT_REGION_BACKOFF.

Lemma batch_get_plan_correct_witness :
  [KvPair.new_with_commit_ts [120] [120] 9; KvPair.new_with_commit_ts [97] [97] 9]
    ≡ₚ omap (sample_snapshot 9 true) (BatchGetRequest.keys sample_batch_get).
Proof.
  apply (batch_get_plan_correct led_pd sample_store sample_batch_get_execute sample_handler_env 5
    sample_batch_get OPTIMISTIC_BACKOFF DEFAULT_REGION_BACKOFF (run_results sample_batch_get_run) sample_snapshot).
  - apply led_pd_lookup.
  - unfold wf_key, in_u8. repeat constructor; lia.
  - intros path n. apply Permutation_sym, Permutation_rev.
  - intros path plan resp [= <-] _ _. cbn. rewrite map_map. etransitivity; [|apply map_id].
    apply map_ext. by intros [].
  - by vm_compute.
Defined.
