(* ===== verification/RawRequests.v ===== *)
(** * Raw requests (src/src/raw/{mod,lowering,requests}.rs)

    The raw interface works on plain keys, without transactions.  This file has its
    column families, request messages and their constructors, the sharding of the
    batched requests, and the merging of responses.  The theorem is about
    checksums: a range is checked region by region, and the merged checksum is that
    of the whole range. *)

From Stdlib Require Import Sorting.Permutation Sorting.Sorted.
From S2P Require Import Prelude Keys Proto Errors Ranges Kv Regions Sharding Backoffs Requests Plans LockPlans.

(** ** Column families *)

Inductive ColumnFamily := CfDefault | CfLock | CfWrite.
#[export] Instance ColumnFamily_eq_dec : EqDecision ColumnFamily.
Proof. solve_decision. Defined.

Definition ColumnFamily_try_from (value : string) : Result ColumnFamily :=
  if String.eqb value "default" then Ok CfDefault
  else if String.eqb value "lock" then Ok CfLock
  else if String.eqb value "write" then Ok CfWrite
  else Err (ColumnFamilyError value).

(** [impl fmt::Display] *)
Definition ColumnFamily_to_string (cf : ColumnFamily) : string :=
  match cf with CfDefault => "default" | CfLock => "lock" | CfWrite => "write" end.

Lemma column_family_roundtrip s cf : ColumnFamily_try_from s = Ok cf ↔ ColumnFamily_to_string cf = s.
Proof.
  unfold ColumnFamily_try_from.
  destruct (String.eqb_spec s "default") as [->|]; [by destruct cf|].
  destruct (String.eqb_spec s "lock") as [->|]; [by destruct cf|].
  destruct (String.eqb_spec s "write") as [->|]; [by destruct cf|].
  split; [done|]. intros E. destruct cf; simpl in E; congruence.
Qed.

(** [RawChecksum] *)
Record RawChecksum := mkRawChecksum { crc64_xor : Z; total_kvs : Z; total_bytes : Z }.
Definition RawChecksum_default : RawChecksum := mkRawChecksum 0 0 0.

(** ** Requests *)

(** [RawRpcRequest] *)
Class RawRpcRequest (R : Type) := set_cf : string → R → R.
Definition maybe_set_cf {R} `{RawRpcRequest R} (cf : option ColumnFamily) (req : R) : R :=
  match cf with Some cf => set_cf (ColumnFamily_to_string cf) req | None => req end.

Module RawGetRequest.
Record t := mk { key : Key; cf : string }.
#[global] Instance rpc : RawRpcRequest t := λ cf r, mk (key r) cf.
End RawGetRequest.
Module RawBatchGetRequest.
Record t := mk { keys : list (list Z); cf : string }.
#[global] Instance rpc : RawRpcRequest t := λ cf r, mk (keys r) cf.
End RawBatchGetRequest.
Module RawGetKeyTtlRequest.
Record t := mk { key : Key; cf : string }.
#[global] Instance rpc : RawRpcRequest t := λ cf r, mk (key r) cf.
End RawGetKeyTtlRequest.
Module RawPutRequest.
Record t := mk { key : Key; value : Value; ttl : Z; cf : string; for_cas : bool }.
#[global] Instance rpc : RawRpcRequest t := λ cf r, mk (key r) (value r) (ttl r) cf (for_cas r).
End RawPutRequest.
Module RawBatchPutRequest.
Record t := mk { pairs : list PbKvPair.t; ttls : list Z; cf : string; for_cas : bool }.
#[global] Instance rpc : RawRpcRequest t := λ cf r, mk (pairs r) (ttls r) cf (for_cas r).
End RawBatchPutRequest.
Module RawDeleteRequest.
Record t := mk { key : Key; cf : string; for_cas : bool }.
#[global] Instance rpc : RawRpcRequest t := λ cf r, mk (key r) cf (for_cas r).
End RawDeleteRequest.
Module RawBatchDeleteRequest.
Record t := mk { keys : list (list Z); cf : string; for_cas : bool }.
#[global] Instance rpc : RawRpcRequest t := λ cf r, mk (keys r) cf (for_cas r).
End RawBatchDeleteRequest.
Module RawDeleteRangeRequest.
Record t := mk { start_key : Key; end_key : Key; cf : string }.
#[global] Instance rpc : RawRpcRequest t := λ cf r, mk (start_key r) (end_key r) cf.
End RawDeleteRangeRequest.
Module RawScanRequest.
Record t := mk { start_key : Key; end_key : Key; limit : Z; key_only : bool; reverse : bool; cf : string }.
#[global] Instance rpc : RawRpcRequest t := λ cf r,
  mk (start_key r) (end_key r) (limit r) (key_only r) (reverse r) cf.
End RawScanRequest.
Module RawBatchScanRequest.
Record t := mk { ranges : list (list Z * list Z); each_limit : Z; key_only : bool; cf : string }.
#[global] Instance rpc : RawRpcRequest t := λ cf r, mk (ranges r) (each_limit r) (key_only r) cf.
End RawBatchScanRequest.
Module RawChecksumRequest.
Record t := mk { algorithm : Z; ranges : list (list Z * list Z) }.
End RawChecksumRequest.
Module RawCasRequest.
Record t := mk { key : Key; value : Value; previous_value : Value; previous_not_exist : bool; cf : string }.
#[global] Instance rpc : RawRpcRequest t := λ cf r,
  mk (key r) (value r) (previous_value r) (previous_not_exist r) cf.
End RawCasRequest.
(** [RawCoprocessorRequest]: the message and the function that builds its data. *)
Module RawCoprocessorRequest.
Record t := mk {
  copr_name : string; copr_version_req : string; ranges : list (list Z * list Z); data : list Z;
  data_builder : Region.t → list (list Z * list Z) → list Z
}.
Definition with_ranges (r : t) (ranges : list (list Z * list Z)) : t :=
  mk (copr_name r) (copr_version_req r) ranges (data r) (data_builder r).
End RawCoprocessorRequest.

(** ** Constructors (requests.rs) *)

Definition RAW_KV_REQUEST_BATCH_SIZE : Z := 16 * 1024.
Definition Crc64Xor : Z := 0.

Definition new_raw_get_request (key : Key) (cf : option ColumnFamily) : RawGetRequest.t :=
  maybe_set_cf cf (RawGetRequest.mk key "").
Definition new_raw_batch_get_request (keys : list (list Z)) (cf : option ColumnFamily) : RawBatchGetRequest.t :=
  maybe_set_cf cf (RawBatchGetRequest.mk keys "").
Definition new_raw_get_key_ttl_request (key : Key) (cf : option ColumnFamily) : RawGetKeyTtlRequest.t :=
  maybe_set_cf cf (RawGetKeyTtlRequest.mk key "").
Definition new_raw_put_request (key : Key) (value : Value) (ttl : Z) (cf : option ColumnFamily)
    (atomic : bool) : RawPutRequest.t :=
  maybe_set_cf cf (RawPutRequest.mk key value ttl "" atomic).
Definition new_raw_batch_put_request (pairs : list PbKvPair.t) (ttls : list Z) (cf : option ColumnFamily)
    (atomic : bool) : RawBatchPutRequest.t :=
  maybe_set_cf cf (RawBatchPutRequest.mk pairs ttls "" atomic).
Definition new_raw_delete_request (key : Key) (cf : option ColumnFamily) (atomic : bool) : RawDeleteRequest.t :=
  maybe_set_cf cf (RawDeleteRequest.mk key "" atomic).
Definition new_raw_batch_delete_request (keys : list (list Z)) (cf : option ColumnFamily) :
    RawBatchDeleteRequest.t :=
  maybe_set_cf cf (RawBatchDeleteRequest.mk keys "" false).
Definition new_raw_delete_range_request (start_key end_key : Key) (cf : option ColumnFamily) :
    RawDeleteRangeRequest.t :=
  maybe_set_cf cf (RawDeleteRangeRequest.mk start_key end_key "").
Definition new_raw_scan_request (start_key end_key : Key) (limit : Z) (key_only reverse : bool)
    (cf : option ColumnFamily) : RawScanRequest.t :=
  let '(start_key, end_key) := if negb reverse then (start_key, end_key) else (end_key, start_key) in
  maybe_set_cf cf (RawScanRequest.mk start_key end_key limit key_only reverse "").
Definition new_raw_batch_scan_request (ranges : list (list Z * list Z)) (each_limit : Z) (key_only : bool)
    (cf : option ColumnFamily) : RawBatchScanRequest.t :=
  maybe_set_cf cf (RawBatchScanRequest.mk ranges each_limit key_only "").
Definition new_raw_checksum_request (range : Key * Key) : RawChecksumRequest.t :=
  RawChecksumRequest.mk Crc64Xor [range].
Definition new_cas_request (key : Key) (value : Value) (previous_value : option Value)
    (cf : option ColumnFamily) : RawCasRequest.t :=
  maybe_set_cf cf
    match previous_value with
    | Some v => RawCasRequest.mk key value v false ""
    | None => RawCasRequest.mk key value [] true ""
    end.
Definition new_raw_coprocessor_request (copr_name copr_version_req : string)
    (ranges : list (list Z * list Z)) (data_builder : Region.t → list (list Z * list Z) → list Z) :
    RawCoprocessorRequest.t :=
  RawCoprocessorRequest.mk copr_name copr_version_req ranges [] data_builder.

(** ** Lowering from the types of the client (lowering.rs)

    The lowering of the other requests is the identity on the model's keys and values. *)
Module Lowering.

(** [From<KvPair> for kvrpcpb::KvPair] *)
Definition pb_pair (p : KvPair.t) : PbKvPair.t :=
  PbKvPair.mk None (KvPair.key p) (KvPair.value p) (KvPair.commit_ts p).

(** [ttls n] are the first [n] items of the iterator, fewer when it ends before;
    [None] is the panic of the assertion. *)
Definition new_raw_batch_put_request (pairs : list KvPair.t) (ttls : nat → list Z)
    (cf : option ColumnFamily) (atomic : bool) : option RawBatchPutRequest.t :=
  let pairs := map pb_pair pairs in
  let ttls := ttls (length pairs) in
  if (length pairs =? length ttls)%nat then Some (new_raw_batch_put_request pairs ttls cf atomic) else None.

Definition new_raw_delete_range_request (range : BoundRange.t) (cf : option ColumnFamily) :
    RawDeleteRangeRequest.t :=
  let '(start_key, end_key) := BoundRange.into_keys range in
  new_raw_delete_range_request start_key (default [] end_key) cf.

Definition new_raw_scan_request (range : BoundRange.t) (limit : Z) (key_only reverse : bool)
    (cf : option ColumnFamily) : RawScanRequest.t :=
  let '(start_key, end_key) := BoundRange.into_keys range in
  new_raw_scan_request start_key (default [] end_key) limit key_only reverse cf.

Definition new_raw_batch_scan_request (ranges : list BoundRange.t) (each_limit : Z) (key_only : bool)
    (cf : option ColumnFamily) : RawBatchScanRequest.t :=
  new_raw_batch_scan_request (map BoundRange.to_key_range ranges) each_limit key_only cf.

Definition new_raw_checksum_request (range : BoundRange.t) : RawChecksumRequest.t :=
  new_raw_checksum_request (BoundRange.to_key_range range).

Definition new_raw_coprocessor_request (copr_name copr_version_req : string) (ranges : list BoundRange.t)
    (request_builder : Region.t → list (list Z * list Z) → list Z) : RawCoprocessorRequest.t :=
  new_raw_coprocessor_request copr_name copr_version_req (map BoundRange.to_key_range ranges) request_builder.
End Lowering.

(** ** Sharding *)

Definition put_item_size (item : PbKvPair.t * Z) : Z :=
  Z.of_nat (length (PbKvPair.key item.1) + length (PbKvPair.value item.1)).

(** [RawBatchPutRequest::shards], [apply_shard] and [clone_then_apply_shard] *)
Definition batch_put_items (req : RawBatchPutRequest.t) : list (PbKvPair.t * Z) :=
  zip (RawBatchPutRequest.pairs req) (RawBatchPutRequest.ttls req).
Definition batch_put_shards (pd : nat → list Z → Result RegionWithLeader.t) (fuel : nat)
    (req : RawBatchPutRequest.t) : option (list (Result (list (PbKvPair.t * Z) * RegionWithLeader.t))) :=
  batched_shards pd (λ i, PbKvPair.key i.1) put_item_size RAW_KV_REQUEST_BATCH_SIZE fuel (batch_put_items req).
Definition batch_put_apply_shard (shard : list (PbKvPair.t * Z)) (req : RawBatchPutRequest.t) :
    RawBatchPutRequest.t :=
  RawBatchPutRequest.mk (map fst shard) (map snd shard) (RawBatchPutRequest.cf req) (RawBatchPutRequest.for_cas req).
Definition batch_put_clone_then_apply_shard (shard : list (PbKvPair.t * Z)) (req : RawBatchPutRequest.t) :
    RawBatchPutRequest.t :=
  let cloned := RawBatchPutRequest.mk [] [] (RawBatchPutRequest.cf req) (RawBatchPutRequest.for_cas req) in
  batch_put_apply_shard shard cloned.

(** [RawBatchDeleteRequest] *)
Definition batch_delete_shards (pd : nat → list Z → Result RegionWithLeader.t) (fuel : nat)
    (req : RawBatchDeleteRequest.t) : option (list (Result (list (list Z) * RegionWithLeader.t))) :=
  batched_shards pd id key_size RAW_KV_REQUEST_BATCH_SIZE fuel (RawBatchDeleteRequest.keys req).
Definition batch_delete_clone_then_apply_shard (shard : list (list Z)) (req : RawBatchDeleteRequest.t) :
    RawBatchDeleteRequest.t :=
  RawBatchDeleteRequest.mk shard (RawBatchDeleteRequest.cf req) (RawBatchDeleteRequest.for_cas req).

(** [RawBatchScanRequest] and [RawCoprocessorRequest] *)
Definition batch_scan_shards (pd : nat → list Z → Result RegionWithLeader.t) (fuel : nat)
    (req : RawBatchScanRequest.t) :=
  group_ranges_by_region pd fuel (RawBatchScanRequest.ranges req).
Definition batch_scan_apply_shard (shard : list (list Z * list Z)) (req : RawBatchScanRequest.t) :
    RawBatchScanRequest.t :=
  RawBatchScanRequest.mk shard (RawBatchScanRequest.each_limit req) (RawBatchScanRequest.key_only req)
    (RawBatchScanRequest.cf req).
Definition coprocessor_shards (pd : nat → list Z → Result RegionWithLeader.t) (fuel : nat)
    (req : RawCoprocessorRequest.t) :=
  group_ranges_by_region pd fuel (RawCoprocessorRequest.ranges req).
Definition coprocessor_apply_shard (shard : list (list Z * list Z)) (req : RawCoprocessorRequest.t) :
    RawCoprocessorRequest.t := RawCoprocessorRequest.with_ranges req shard.
(** The part of [apply_store] after the context is filled in. *)
Definition coprocessor_apply_store (store : RegionWithLeader.t) (req : RawCoprocessorRequest.t) :
    RawCoprocessorRequest.t :=
  RawCoprocessorRequest.mk (RawCoprocessorRequest.copr_name req) (RawCoprocessorRequest.copr_version_req req)
    (RawCoprocessorRequest.ranges req)
    (RawCoprocessorRequest.data_builder req (RegionWithLeader.region store) (RawCoprocessorRequest.ranges req))
    (RawCoprocessorRequest.data_builder req).

(** [RawChecksumRequest] *)
Definition checksum_shards (pd : nat → list Z → Result RegionWithLeader.t) (fuel : nat)
    (req : RawChecksumRequest.t) : option (list (Result ((Key * Key) * RegionWithLeader.t))) :=
  match RawChecksumRequest.ranges req with
  | [] => Some []
  | range :: _ => region_stream_for_range pd fuel range
  end.
Definition checksum_apply_shard (shard : Key * Key) (req : RawChecksumRequest.t) : RawChecksumRequest.t :=
  RawChecksumRequest.mk (RawChecksumRequest.algorithm req) [shard].

(** ** Responses *)

Module RawGetResponse.
Record t := mk { region_error : option RegionError.t; error : string; value : Value; not_found : bool }.
End RawGetResponse.
Module RawGetKeyTtlResponse.
Record t := mk { region_error : option RegionError.t; error : string; ttl : Z; not_found : bool }.
End RawGetKeyTtlResponse.
(** [RawPutResponse], [RawBatchPutResponse], [RawDeleteResponse], [RawBatchDeleteResponse],
    [RawDeleteRangeResponse] *)
Module RawWriteResponse.
Record t := mk { region_error : option RegionError.t; error : string }.
End RawWriteResponse.
(** [RawBatchGetResponse] ([pairs]), [RawScanResponse] and [RawBatchScanResponse] ([kvs]) *)
Module RawPairsResponse.
Record t := mk { region_error : option RegionError.t; kvs : list PbKvPair.t }.
End RawPairsResponse.
Module RawChecksumResponse.
Record t := mk { region_error : option RegionError.t; error : string; checksum : Z; total_kvs : Z; total_bytes : Z }.
End RawChecksumResponse.
Module RawCasResponse.
Record t := mk { region_error : option RegionError.t; error : string; succeed : bool;
  previous_not_exist : bool; previous_value : Value }.
End RawCasResponse.
Module RawCoprocessorResponse.
Record t := mk { region_error : option RegionError.t; error : string; data : list Z }.
End RawCoprocessorResponse.

(** ** Processing and merging *)

(** [Process<..> for DefaultProcessor] *)
Definition process_get (input : Result RawGetResponse.t) : Result (option Value) :=
  input ← input;
  Ok (if RawGetResponse.not_found input then None else Some (RawGetResponse.value input)).
Definition process_ttl (input : Result RawGetKeyTtlResponse.t) : Result (option Z) :=
  input ← input;
  Ok (if RawGetKeyTtlResponse.not_found input then None else Some (RawGetKeyTtlResponse.ttl input)).
Definition process_cas (input : Result RawCasResponse.t) : Result (option Value * bool) :=
  input ← input;
  if RawCasResponse.previous_not_exist input then Ok (None, RawCasResponse.succeed input)
  else Ok (Some (RawCasResponse.previous_value input), RawCasResponse.succeed input).
Definition process_coprocessor
    (input : Result (list (Result (RawCoprocessorResponse.t * list (list Z * list Z))))) :
    Result (list (list (list Z * list Z) * list Z)) :=
  input ← input;
  mapM (λ shard_resp : Result (RawCoprocessorResponse.t * list (list Z * list Z)),
    '(resp, ranges) ← shard_resp; Ok (ranges, RawCoprocessorResponse.data resp)) input.

(** [Merge<..> for Collect] *)
Definition collect_raw_pairs (input : list (Result RawPairsResponse.t)) : Result (list KvPair.t) :=
  flat_map_ok (λ resp, map PbKvPair.into (RawPairsResponse.kvs resp)) input.
Definition add_checksum (out : RawChecksum) (resp : RawChecksumResponse.t) : RawChecksum :=
  mkRawChecksum (Z.lxor (crc64_xor out) (RawChecksumResponse.checksum resp))
    (sat_add_u64 (total_kvs out) (RawChecksumResponse.total_kvs resp))
    (sat_add_u64 (total_bytes out) (RawChecksumResponse.total_bytes resp)).
Fixpoint collect_checksum_loop (input : list (Result RawChecksumResponse.t)) (out : RawChecksum) :
    Result RawChecksum :=
  match input with
  | [] => Ok out
  | resp :: input => resp ← resp; collect_checksum_loop input (add_checksum out resp)
  end.
Definition collect_checksum (input : list (Result RawChecksumResponse.t)) : Result RawChecksum :=
  collect_checksum_loop input RawChecksum_default.
(** ** Requests over a range as plans *)

(** The data of a cluster, as pairs; what a range holds of it. *)
Definition pair_in (range : Key * Key) (p : list Z * list Z) : bool := bool_decide (in_key_range range p.1).
Definition range_content (table : list (list Z * list Z)) (range : Key * Key) : list (list Z * list Z) :=
  List.filter (pair_in range) table.

(** Ranges that cover a range and do not overlap hold its data, each pair once. *)
Definition partitions_range (range : Key * Key) (rs : list (list Z * list Z)) : Prop :=
  (∀ k, in_key_range range k ↔ ∃ r, r ∈ rs ∧ in_key_range r k) ∧
  (∀ i j ri rj k, rs !! i = Some ri → rs !! j = Some rj → in_key_range ri k → in_key_range rj k → i = j).

Lemma range_content_outside x table (rs : list (list Z * list Z)) :
  (∀ r, r ∈ rs → pair_in r x = false) →
  concat (map (range_content (x :: table)) rs) = concat (map (range_content table) rs).
Proof.
  intros H. f_equal. apply map_ext_in. intros r Hr. unfold range_content. simpl.
  by rewrite H by by apply list_elem_of_In.
Qed.

Lemma range_content_partition range rs table : partitions_range range rs →
  concat (map (range_content table) rs) ≡ₚ range_content table range.
Proof.
  intros [Hcov Hdisj]. induction table as [|x table IH].
  { replace (concat (map (range_content []) rs)) with (@nil (list Z * list Z)); [done|].
    clear. induction rs; simpl; done. }
  destruct (pair_in range x) eqn:Hx.
  - unfold range_content at 2. simpl. rewrite Hx. fold (range_content table range).
    apply bool_decide_eq_true in Hx as Hr. apply Hcov in Hr as (r & Hin & Hr).
    apply list_elem_of_lookup_1 in Hin as [i Hi].
    pose proof (take_drop_middle rs i r Hi) as E.
    assert (∀ j rj, rs !! j = Some rj → j ≠ i → pair_in rj x = false) as Hout.
    { intros j rj Hj Hne. apply bool_decide_eq_false. intros Hk. by apply Hne, (Hdisj j i rj r x.1). }
    rewrite <- E in IH |- *. rewrite !map_app, !concat_app in IH |- *. cbn [map concat] in IH |- *.
    rewrite (range_content_outside x table (take i rs)), (range_content_outside x table (drop (S i) rs)).
    + unfold range_content at 2. cbn [List.filter]. unfold pair_in at 1. rewrite bool_decide_eq_true_2 by done.
      rewrite <- IH. cbn. symmetry. apply Permutation_middle.
    + intros r' [j Hj]%list_elem_of_lookup_1. rewrite lookup_drop in Hj. apply (Hout (S i + j)%nat); [done|lia].
    + intros r' [j Hj]%list_elem_of_lookup_1. apply lookup_take_Some in Hj as [? ?]. apply (Hout j); [done|lia].
  - rewrite range_content_outside.
    + rewrite IH. unfold range_content. simpl. by rewrite Hx.
    + intros r Hr. apply bool_decide_eq_false. intros Hk. apply bool_decide_eq_false in Hx. apply Hx.
      apply Hcov. eauto.
Qed.

Section checksum.
Context (table : list (list Z * list Z)) (pd : list nat → nat → list Z → Result RegionWithLeader.t).
Context (execute : list nat → RawChecksumRequest.t → Result RawChecksumResponse.t) (shards_fuel : nat).

(** The plan of a checksum request. *)
Definition checksum_ops : PlanOps RawChecksumRequest.t (Key * Key) RawChecksumResponse.t := {|
  plan_shards path req := default [] (checksum_shards (pd path) shards_fuel req);
  plan_apply_shard := checksum_apply_shard;
  plan_apply_store _ req := Ok req;
  plan_execute := execute;
  resp_key_errors resp := str_key_errors (RawChecksumResponse.error resp);
  resp_region_error := RawChecksumResponse.region_error
|}.

Definition checksum_content (req : RawChecksumRequest.t) : list (list Z * list Z) :=
  match RawChecksumRequest.ranges req with [] => [] | range :: _ => range_content table range end.
Definition checksum_valid (req : RawChecksumRequest.t) : Prop :=
  match RawChecksumRequest.ranges req with [] => True | range :: _ => wf_key range.1 end.

(** What the regions of a cluster promise: lookups find the region of a key, and during one
    round of sharding the layout is stable, with at most the boundaries [B]. *)
Class RegionLayout (B : list Key) : Prop := {
  layout_lookup : ∀ path, RegionLookup (pd path);
  layout_bound : ∀ path, layout_bounded (pd path) B;
  layout_fixed : ∀ path, layout_stable (pd path);
  layout_start_wf : ∀ path t k r, pd path t k = Ok r → wf_key (RegionWithLeader.start_key r);
  layout_fuel : (S (length B) < shards_fuel)%nat
}.

Lemma ends_after_bound B k : (ends_after B k ≤ length B)%nat.
Proof. unfold ends_after. apply List.filter_length_le. Qed.

Lemma key_max_wf a b : wf_key a → wf_key b → wf_key (key_max a b).
Proof. intros. unfold key_max. by destruct (key_leb a b). Qed.

Lemma checksum_shards_spec B path req range ranges shards : RegionLayout B →
  RawChecksumRequest.ranges req = range :: ranges → wf_key range.1 →
  mapM id (default [] (checksum_shards (pd path) shards_fuel req)) = Ok shards →
  partitions_range range (map fst shards) ∧ Forall (λ s, wf_key s.1.1) shards.
Proof.
  intros HL E Hwf. unfold checksum_shards. rewrite E.
  destruct (region_stream_spec (pd path) B range shards_fuel) as (sh & tl & -> & Hw & Hs);
    [apply layout_lookup | apply layout_bound | done |
     pose proof (ends_after_bound B range.1); pose proof layout_fuel; lia |].
  cbn [default]. intros (out & Ho & ->)%mapM_ok_app.
  destruct Hs as [[e ->]|(-> & Hcov & Hdis)]; [done|]. injection Ho as <-. rewrite app_nil_r.
  split; [split|].
  - intros k. rewrite Hcov. split.
    + intros (s & Hs & Hk). exists s.1. split; [by apply list_elem_of_fmap_2 | done].
    + intros (r & Hr & Hk). apply list_elem_of_fmap in Hr as (s & -> & Hs). eauto.
  - intros i j ri rj k Hi Hj. change (map fst sh) with (fst <$> sh) in Hi, Hj.
    apply list_lookup_fmap_Some in Hi as (si & -> & Hi). apply list_lookup_fmap_Some in Hj as (sj & -> & Hj).
    apply Hdis; [apply layout_fixed | done | done].
  - apply Forall_forall. intros s Hin. destruct (Hw s Hin) as (E1 & t & k & E2). rewrite E1.
    unfold range_intersection, RegionWithLeader.range. cbn [fst].
    apply key_max_wf; [by eapply layout_start_wf | done].
Qed.

#[export] Instance checksum_partitions B : RegionLayout B →
  Partitions checksum_ops checksum_valid checksum_content.
Proof.
  intros HL. split.
  - intros path req shards Hv E. cbn in E. unfold checksum_content at 2. unfold checksum_valid in Hv.
    destruct (RawChecksumRequest.ranges req) as [|range ranges] eqn:Er.
    { unfold checksum_shards in E. rewrite Er in E. by injection E as <-. }
    destruct (checksum_shards_spec B path req range ranges shards HL Er Hv E) as [Hp _].
    rewrite <- (range_content_partition _ _ table Hp), map_map. done.
  - intros path req shards s Hv E Hs. cbn in E |- *. unfold checksum_valid in *. cbn.
    destruct (RawChecksumRequest.ranges req) as [|range ranges] eqn:Er.
    { unfold checksum_shards in E. rewrite Er in E. injection E as <-. by apply elem_of_nil in Hs. }
    destruct (checksum_shards_spec B path req range ranges shards HL Er Hv E) as [_ HF].
    rewrite Forall_forall in HF. by apply HF.
  - by intros path req req' Hv [= <-].
Qed.
End checksum.

(** ** Checksums *)

(** The checksum of some pairs: [digest] is the CRC of a key with its value. *)
Section digest.
Context (digest : list Z → list Z → Z).
Definition xor_digests (l : list (list Z * list Z)) : Z := foldr (λ p acc, Z.lxor (digest p.1 p.2) acc) 0 l.
Definition bytes_of (l : list (list Z * list Z)) : Z :=
  foldr (λ p acc, Z.of_nat (length p.1 + length p.2) + acc) 0 l.

(** A store's answer for the pairs of one shard. *)
Definition checksum_answer (resp : RawChecksumResponse.t) (l : list (list Z * list Z)) : Prop :=
  RawChecksumResponse.checksum resp = xor_digests l ∧
  RawChecksumResponse.total_kvs resp = Z.of_nat (length l) ∧
  RawChecksumResponse.total_bytes resp = bytes_of l.

Definition checksum_of (l : list (list Z * list Z)) : RawChecksum :=
  mkRawChecksum (xor_digests l) (Z.min (Z.of_nat (length l)) u64_max) (Z.min (bytes_of l) u64_max).

Lemma xor_digests_app l k : xor_digests (l ++ k) = Z.lxor (xor_digests l) (xor_digests k).
Proof. induction l as [|p l IH]; simpl; [by rewrite Z.lxor_0_l|]. by rewrite IH, Z.lxor_assoc. Qed.
Lemma bytes_of_app l k : bytes_of (l ++ k) = bytes_of l + bytes_of k.
Proof. induction l as [|p l IH]; simpl; [done|]. rewrite IH. lia. Qed.
Lemma bytes_of_nonneg l : 0 ≤ bytes_of l.
Proof. induction l; simpl; lia. Qed.

#[export] Instance xor_digests_perm : Proper ((≡ₚ) ==> eq) xor_digests.
Proof.
  induction 1 as [|x l k _ IH|x y l|l1 l2 l3 _ IH1 _ IH2]; simpl; [done | by rewrite IH | | congruence].
  by rewrite <- !Z.lxor_assoc, (Z.lxor_comm (digest y.1 y.2)).
Qed.
#[export] Instance bytes_of_perm : Proper ((≡ₚ) ==> eq) bytes_of.
Proof. induction 1; simpl; lia. Qed.
#[export] Instance checksum_of_perm : Proper ((≡ₚ) ==> eq) checksum_of.
Proof. intros l k H. unfold checksum_of. by rewrite H. Qed.

Lemma sat_add_min a b : 0 ≤ a → 0 ≤ b → sat_add_u64 (Z.min a u64_max) b = Z.min (a + b) u64_max.
Proof. intros. unfold sat_add_u64. generalize u64_max. intros. lia. Qed.

Lemma add_checksum_app l k resp : checksum_answer resp k →
  add_checksum (checksum_of l) resp = checksum_of (l ++ k).
Proof.
  intros (E1 & E2 & E3). unfold add_checksum, checksum_of. cbn. rewrite E1, E2, E3.
  rewrite xor_digests_app, bytes_of_app, length_app, Nat2Z.inj_add.
  f_equal; apply sat_add_min; auto using bytes_of_nonneg; lia.
Qed.

Lemma collect_checksum_parts {P} (content : P → list (list Z * list Z))
    (parts : list (P * Result RawChecksumResponse.t)) l out :
  Forall (λ p : P * Result RawChecksumResponse.t, ∀ resp, p.2 = Ok resp → checksum_answer resp (content p.1)) parts →
  collect_checksum_loop (map snd parts) (checksum_of l) = Ok out →
  out = checksum_of (l ++ concat (map (content ∘ fst) parts)).
Proof.
  intros HF. revert l. induction HF as [|[p [resp|e]] parts Hp _ IH]; intros l; cbn.
  - intros [= <-]. by rewrite app_nil_r.
  - rewrite (add_checksum_app l (content p)) by by apply Hp. intros ->%IH. by rewrite app_assoc.
  - done.
Qed.

Lemma collect_checksum_err (results : list (Result RawChecksumResponse.t)) e :
  ∀ out, collect_checksum_loop results out = Err e → Err e ∈ results.
Proof.
  induction results as [|[resp|e'] results IH]; intros out; cbn; [done | |].
  - intros H. apply elem_of_cons. right. by eapply IH.
  - intros [= ->]. by apply elem_of_cons; left.
Qed.
End digest.

(** A checksum over many regions is the checksum of the range.  However the range is cut into
    regions, in whatever order they answer, and with any number of region errors and retries on
    the way: if every store answers for the part it is asked about, then merging gives the xor
    of the digests of all pairs of the range, their number and their bytes, each pair counted
    once (the totals saturate at the largest 64-bit number); a merge that fails does so with an
    error that a store reported. *)
Theorem raw_checksum_correct digest table pd execute shards_fuel B env fuel req backoff results :
  RegionLayout pd shards_fuel B → checksum_valid req → (∀ path n, order env path n ≡ₚ seq 0 n) →
  (∀ path part resp, execute path part = Ok resp → checksum_answer digest resp (checksum_content table part)) →
  multi_region_execute (checksum_ops pd execute shards_fuel) env false fuel req backoff = Done (Ok results) →
  match collect_checksum results with
  | Ok out => out = checksum_of digest (checksum_content table req)
  | Err e => ∃ path part resp, execute path part = Ok resp ∧ RawChecksumResponse.error resp ≠ EmptyString ∧
      e = MultipleKeyErrors [KvError (RawChecksumResponse.error resp)]
  end.
Proof.
  intros HL Hv Ho Hans E.
  destruct (single_plan_covers _ env false checksum_valid (checksum_content table) Ho fuel _ _ _ _ _ Hv E)
    as (parts & <- & Hp & HF).
  unfold collect_checksum. destruct (collect_checksum_loop _ _) as [out|e] eqn:Ec.
  - change RawChecksum_default with (checksum_of digest []) in Ec.
    apply (collect_checksum_parts digest (checksum_content table)) in Ec as ->.
    + cbn [app]. by rewrite Hp.
    + eapply Forall_impl; [exact HF|]. intros [part r] [_ Ha] resp. cbn. intros ->. destruct Ha as (path & Ee & _). by eapply Hans.
  - apply collect_checksum_err in Ec. apply list_elem_of_fmap in Ec as ([part r] & Er & Hin). cbn in Er. subst r.
    rewrite Forall_forall in HF. destruct (HF _ Hin) as [_ [?|(path & resp & es & Ee & Hk & ->)]]; [done|].
    exists path, part, resp. split; [done|]. cbn in Hk. unfold str_key_errors in Hk.
    destruct (RawChecksumResponse.error resp) eqn:Er; [done|]. injection Hk as <-. done.
Qed.

(** Two regions, with one pair in each; the second region is busy at first. *)
Definition two_pairs : list (list Z * list Z) := [([97], [1]); ([120], [2; 3])].
Definition sample_digest (k v : list Z) : Z := Z.of_nat (length k + 2 * length v).
Definition sample_checksum (path : list nat) (req : RawChecksumRequest.t) : Result RawChecksumResponse.t :=
  let l := checksum_content two_pairs req in
  Ok (RawChecksumResponse.mk (if bool_decide (path = [1%nat]) then Some busy else None) ""
        (xor_digests sample_digest l) (Z.of_nat (length l)) (bytes_of l)).

#[export] Instance led_pd_layout : RegionLayout led_pd 4 [[109]].
Proof.
  split.
  - apply led_pd_lookup.
  - intros path t k r. unfold led_pd, sample_pd. destruct (key_ltb k [109]); intros [= <-]; cbn;
      [right; by apply elem_of_cons; left | by left].
  - intros path t1 k1 r1 t2 k2 r2. unfold led_pd, sample_pd.
    destruct (key_ltb k1 [109]), (key_ltb k2 [109]); intros [= <-] [= <-]; try done;
      intros (k & H1 & H2); apply contains_spec in H1, H2; unfold in_key_range in *; cbn in H1, H2;
      destruct H1 as [? [?|?]], H2 as [? [?|?]]; try done; exfalso; key_order.
  - intros path t k r. unfold led_pd, sample_pd. destruct (key_ltb k [109]); intros [= <-]; cbn;
      unfold wf_key, in_u8; repeat constructor; lia.
  - cbn. lia.
Qed.

Lemma raw_checksum_correct_witness :
  let req := new_raw_checksum_request ([97], [122]) in
  match collect_checksum [sample_checksum [0; 1]%nat (RawChecksumRequest.mk 0 [([109], [122])]);
                          sample_checksum [0]%nat (RawChecksumRequest.mk 0 [([97], [109])])] with
  | Ok out => out = checksum_of sample_digest (checksum_content two_pairs req)
  | Err e => ∃ path part resp, sample_checksum path part = Ok resp ∧ RawChecksumResponse.error resp ≠ EmptyString ∧
      e = MultipleKeyErrors [KvError (RawChecksumResponse.error resp)]
  end.
Proof.
  apply (raw_checksum_correct sample_digest two_pairs led_pd sample_checksum 4 [[109]] sample_handler_env 5
    (new_raw_checksum_request ([97], [122])) DEFAULT_REGION_BACKOFF).
  - apply led_pd_layout.
  - unfold checksum_valid, wf_key, in_u8. repeat constructor; lia.
  - intros path n. apply Permutation_sym, Permutation_rev.
  - by intros path part resp [= <-].
  - by vm_compute.
Defined.
