(* ===== verification/RawClient.v ===== *)
(** * The raw client (src/src/raw/client.rs)

    An operation of the raw client checks the client's mode, encodes its keys into the
    keyspace, sends one request (scans send one per region) and turns the
    answers of the regions into a result with user keys.  A request that is
    sent through the plan of its kind is answered with the results of its
    regions ([RetryableMultiRegion], Plans.v).  The request context (priority,
    resource group, interceptors) is copied into requests: see Contexts.v.

    RawMap.v relates the operations that send one request to a map per keyspace and column
    family; the theorem of this file is about scans over many regions. *)

From Stdlib Require Import Sorting.Permutation Sorting.Sorted.
From S2P Require Import Prelude Keys Proto Errors Codec Ranges BTree Kv Keyspaces Regions Sharding Backoffs Requests Plans LockPlans RawRequests.

Definition MAX_RAW_KV_SCAN_LIMIT : Z := 10240.

Record Client := mkClient {
  cluster_id : Z;
  cf : option ColumnFamily;
  backoff : Backoff.t;
  atomic : bool;
  keyspace : Keyspace
}.
(** [Client::new_with_config] once PD has answered: the cluster id and the keyspace id, if any. *)
Definition new_with_config (cluster_id : Z) (keyspace_id : option Z) : Result Client :=
  keyspace ← match keyspace_id with Some id => try_enable id | None => Ok Disable end;
  Ok (mkClient cluster_id None DEFAULT_REGION_BACKOFF false keyspace).
Definition with_cf (c : Client) (cf : ColumnFamily) : Client :=
  mkClient (cluster_id c) (Some cf) (backoff c) (atomic c) (keyspace c).
Definition with_backoff (c : Client) (backoff : Backoff.t) : Client :=
  mkClient (cluster_id c) (cf c) backoff (atomic c) (keyspace c).
Definition with_atomic_for_cas (c : Client) : Client :=
  mkClient (cluster_id c) (cf c) (backoff c) true (keyspace c).

(** ** Operations that send one request *)

(** An operation returns at once, panics, or sends a request and maps the results of
    the regions to its own; [None] is a panic. *)
Inductive Call (Req Resp A : Type) :=
| Now (r : Result A)
| Crash
| Send (req : Req) (k : Result (list (Result Resp)) → option (Result A)).
Arguments Now {Req Resp A} _.
Arguments Crash {Req Resp A}.
Arguments Send {Req Resp A} _ _.

Definition assert_non_atomic (c : Client) : Result unit := if negb (atomic c) then Ok () else Err UnsupportedMode.
Definition assert_atomic (c : Client) : Result unit := if atomic c then Ok () else Err UnsupportedMode.

Definition encode_raw (c : Client) (key : Key) : Key := encode_keyspace_key key (keyspace c) Raw.

Section operations.
(** [Display] of errors, which [extract_error] uses. *)
Context (to_string : Error → string).

Definition write_key_errors (resp : RawWriteResponse.t) : option (list Error) :=
  str_key_errors (RawWriteResponse.error resp).
Definition write_region_errors (resp : RawWriteResponse.t) : option (list RegionError.t) :=
  (λ e, [e]) <$> RawWriteResponse.region_error resp.

(** [.merge(CollectSingle).extract_error()] and [.extract_error()] of a write, with the
    final [truncate_keyspace(..)?; Ok(())]. *)
Definition finish_write (c : Client) {R} (r : Result R) : option (Result unit) :=
  (λ r, _ ← r; Ok ()) <$> truncate_keyspace_result r (keyspace c).
Definition single_write (c : Client) (results : Result (list (Result RawWriteResponse.t))) :
    option (Result unit) :=
  finish_write c (extract_error write_key_errors write_region_errors (results ≫= collect_single)).
Definition many_writes (c : Client) (results : Result (list (Result RawWriteResponse.t))) :
    option (Result unit) :=
  finish_write c (extract_error (vec_key_errors to_string write_key_errors)
    (vec_region_errors RawWriteResponse.region_error) results).

Definition get (c : Client) (key : Key) : Call RawGetRequest.t RawGetResponse.t (option Value) :=
  Send (new_raw_get_request (encode_raw c key) (cf c)) (λ results,
    truncate_keyspace_result (process_get (results ≫= collect_single)) (keyspace c)).

Definition batch_get (c : Client) (keys : list (list Z)) :
    Call RawBatchGetRequest.t RawPairsResponse.t (list KvPair.t) :=
  Send (new_raw_batch_get_request (map (encode_raw c) keys) (cf c)) (λ results,
    (λ r : Result (list KvPair.t), (λ pairs, truncate_keyspace_pairs pairs (keyspace c)) <$> r) <$>
      truncate_keyspace_result (results ≫= collect_raw_pairs) (keyspace c)).

Definition get_key_ttl_secs (c : Client) (key : Key) :
    Call RawGetKeyTtlRequest.t RawGetKeyTtlResponse.t (option Z) :=
  Send (new_raw_get_key_ttl_request (encode_raw c key) (cf c)) (λ results,
    truncate_keyspace_result (process_ttl (results ≫= collect_single)) (keyspace c)).

Definition put_with_ttl (c : Client) (key : Key) (value : Value) (ttl_secs : Z) :
    Call RawPutRequest.t RawWriteResponse.t unit :=
  Send (new_raw_put_request (encode_raw c key) value ttl_secs (cf c) (atomic c)) (single_write c).
Definition put (c : Client) (key : Key) (value : Value) := put_with_ttl c key value 0.

Definition batch_put_with_ttl (c : Client) (pairs : list KvPair.t) (ttls : nat → list Z) :
    Call RawBatchPutRequest.t RawWriteResponse.t unit :=
  let pairs := map (λ p, encode_keyspace_pair p (keyspace c) Raw) pairs in
  match Lowering.new_raw_batch_put_request pairs ttls (cf c) (atomic c) with
  | None => Crash
  | Some request => Send request (many_writes c)
  end.
Definition batch_put (c : Client) (pairs : list KvPair.t) :=
  batch_put_with_ttl c pairs (λ n, replicate n 0).

Definition delete (c : Client) (key : Key) : Call RawDeleteRequest.t RawWriteResponse.t unit :=
  Send (new_raw_delete_request (encode_raw c key) (cf c) (atomic c)) (single_write c).

Definition batch_delete (c : Client) (keys : list (list Z)) :
    Call RawBatchDeleteRequest.t RawWriteResponse.t unit :=
  match assert_non_atomic c with
  | Err e => Now (Err e)
  | Ok _ => Send (new_raw_batch_delete_request (map (encode_raw c) keys) (cf c)) (many_writes c)
  end.

Definition delete_range (c : Client) (range : BoundRange.t) :
    Call RawDeleteRangeRequest.t RawWriteResponse.t unit :=
  match assert_non_atomic c with
  | Err e => Now (Err e)
  | Ok _ =>
      let range := encode_keyspace_range range (keyspace c) Raw in
      let '(start_key, end_key) := BoundRange.into_keys range in
      let request := Send (Lowering.new_raw_delete_range_request range (cf c)) (many_writes c) in
      match end_key with
      | Some end_key => if key_leb end_key start_key then Now (Ok ()) else request
      | None => request
      end
  end.

Definition checksum (c : Client) (range : BoundRange.t) :
    Call RawChecksumRequest.t RawChecksumResponse.t RawChecksum :=
  let range := encode_keyspace_range range (keyspace c) Raw in
  let '(start_key, end_key) := BoundRange.into_keys range in
  let request := Send (Lowering.new_raw_checksum_request range) (λ results,
    truncate_keyspace_result (results ≫= collect_checksum) (keyspace c)) in
  match end_key with
  | Some end_key => if key_leb end_key start_key then Now (Ok RawChecksum_default) else request
  | None => request
  end.

Definition compare_and_swap (c : Client) (key : Key) (previous_value : option Value) (new_value : Value) :
    Call RawCasRequest.t RawCasResponse.t (option Value * bool) :=
  match assert_atomic c with
  | Err e => Now (Err e)
  | Ok _ =>
      Send (new_cas_request (encode_raw c key) new_value previous_value (cf c)) (λ results,
        truncate_keyspace_result (process_cas (results ≫= collect_single)) (keyspace c))
  end.

(** [semver_error] is the error of [semver::VersionReq::from_str], if the version does not parse. *)
Definition coprocessor (c : Client) (semver_error : string → option Error)
    (copr_name copr_version_req : string) (ranges : list BoundRange.t)
    (request_builder : Region.t → list (list Z * list Z) → list Z) :
    Call RawCoprocessorRequest.t (RawCoprocessorResponse.t * list (list Z * list Z))
      (list (list (list Z * list Z) * list Z)) :=
  match semver_error copr_version_req with
  | Some e => Now (Err e)
  | None =>
      let ranges := map (λ r, encode_keyspace_range r (keyspace c) Raw) ranges in
      let request_builder region ranges :=
        request_builder region (truncate_keyspace_ranges ranges (keyspace c)) in
      Send (Lowering.new_raw_coprocessor_request copr_name copr_version_req ranges request_builder) (λ results,
        (λ r : Result _, (map (λ p : list (list Z * list Z) * list Z,
            (truncate_keyspace_ranges p.1 (keyspace c), p.2))) <$> r) <$>
          truncate_keyspace_result (process_coprocessor results) (keyspace c))
  end.
End operations.

(** ** Scans *)

(** What a scan is answered: [t] counts the rounds of its retry loops. *)
Record ScanEnv := {
  scan_region_for_key : nat → list Z → Result RegionWithLeader.t;
  scan_store_for_id : nat → Z → Result RegionWithLeader.t;
  do_store_scan : nat → RegionWithLeader.t → RawScanRequest.t → Result RawPairsResponse.t;
  scan_update_leader : nat → Result unit;
  scan_draw : nat → Z
}.

Record ScanInnerArgs := mkScanInnerArgs {
  sa_start_key : Key; sa_end_key : option Key; sa_limit : Z; sa_key_only : bool; sa_reverse : bool;
  sa_backoff : Backoff.t
}.

(** [(start_key, end_key).into()]: [From<(T, Option<U>)> for BoundRange] is [BoundRange.from_pair_opt]. *)
Section scan.
Context (c : Client) (env : ScanEnv).

Fixpoint retryable_scan (fuel t : nat) (scan_args : ScanInnerArgs) (backoff : Backoff.t) :
    run (option RawPairsResponse.t * Key) * nat :=
  match fuel with
  | O => (Running, t)
  | S fuel =>
      let done r := (Done r, S t) in
      match scan_region_for_key env t (sa_start_key scan_args) with
      | Err e => done (Err e)
      | Ok region =>
          match scan_store_for_id env t (RegionWithLeader.id region) with
          | Err e => done (Err e)
          | Ok store =>
              let request := Lowering.new_raw_scan_request
                (BoundRange.from_pair_opt (sa_start_key scan_args) (sa_end_key scan_args))
                (sa_limit scan_args) (sa_key_only scan_args) (sa_reverse scan_args) (cf c) in
              match do_store_scan env t store request with
              | Err err => done (Err err)
              | Ok r =>
                  match RawPairsResponse.region_error r with
                  | Some err =>
                      match (handle_region_error (scan_update_leader env t) err store).1 with
                      | Err e => done (Err e)
                      | Ok true => retryable_scan fuel (S t) scan_args backoff
                      | Ok false =>
                          match next_delay_duration backoff (scan_draw env t) with
                          | Wait _ backoff => retryable_scan fuel (S t) scan_args backoff
                          | GiveUp _ => done (Err (ERegionError err))
                          | Panic => (Panicks, S t)
                          end
                      end
                  | None => done (Ok (Some r, RegionWithLeader.end_key region))
                  end
              end
          end
      end
  end.

(** The loop of [scan_inner]; subtracting more than is left of the limit overflows, a panic where
    overflow is checked. *)
Fixpoint scan_loop (fuel retry_fuel t : nat) (current_key : Key) (end_key : option Key) (current_limit : Z)
    (key_only reverse : bool) (result : list KvPair.t) : run (list KvPair.t) :=
  match fuel with
  | O => Running
  | S fuel =>
      if 0 <? current_limit then
        let scan_args := mkScanInnerArgs current_key end_key current_limit key_only reverse (backoff c) in
        match retryable_scan retry_fuel t scan_args (sa_backoff scan_args) with
        | (Running, _) => Running
        | (Panicks, _) => Panicks
        | (Done (Err e), _) => Done (Err e)
        | (Done (Ok (res, next_key)), t) =>
            let kvs := match res with Some r => map PbKvPair.into (RawPairsResponse.kvs r) | None => [] end in
            let n := Z.of_nat (length kvs) in
            if current_limit <? n then Panicks
            else
              let result := result ++ kvs in
              let current_limit := current_limit - n in
              match end_key with
              | Some ek =>
                  if key_leb ek next_key then Done (Ok result)
                  else scan_loop fuel retry_fuel t next_key end_key current_limit key_only reverse result
              | None => scan_loop fuel retry_fuel t next_key end_key current_limit key_only reverse result
              end
        end
      else Done (Ok result)
  end.

Definition scan_inner (fuel retry_fuel : nat) (range : BoundRange.t) (limit : Z) (key_only reverse : bool) :
    run (list KvPair.t) :=
  if MAX_RAW_KV_SCAN_LIMIT <? limit then Done (Err (MaxScanLimitExceeded limit MAX_RAW_KV_SCAN_LIMIT))
  else
    let range := encode_keyspace_range range (keyspace c) Raw in
    let '(start_key, end_key) := BoundRange.into_keys range in
    match scan_loop fuel retry_fuel 0 start_key end_key limit key_only reverse [] with
    | Done (Ok result) => Done (Ok (truncate_keyspace_pairs (take (Z.to_nat limit) result) (keyspace c)))
    | r => r
    end.

Definition scan fuel retry_fuel range limit := scan_inner fuel retry_fuel range limit false false.
Definition scan_reverse fuel retry_fuel range limit := scan_inner fuel retry_fuel range limit false true.
Definition scan_keys fuel retry_fuel range limit : run (list Key) :=
  match scan_inner fuel retry_fuel range limit true false with
  | Done r => Done (map KvPair.key <$> r) | Panicks => Panicks | Running => Running
  end.
Definition scan_keys_reverse fuel retry_fuel range limit : run (list Key) :=
  match scan_inner fuel retry_fuel range limit true true with
  | Done r => Done (map KvPair.key <$> r) | Panicks => Panicks | Running => Running
  end.
End scan.

(** [try_join_all] of the scans, each with its own answers: the first error in time ends it; here
    [order] is the order in which they finish. *)
Definition batch_scan_inner (c : Client) (envs : nat → ScanEnv) (order : list nat) (fuel retry_fuel : nat)
    (ranges : list BoundRange.t) (each_limit : Z) (key_only : bool) : run (list KvPair.t) :=
  if MAX_RAW_KV_SCAN_LIMIT <? each_limit
  then Done (Err (MaxScanLimitExceeded each_limit MAX_RAW_KV_SCAN_LIMIT))
  else
    let tasks := imap (λ i range, scan_inner c (envs i) fuel retry_fuel range each_limit key_only false) ranges in
    match List.find (λ r, match r with Done (Ok _) => false | _ => true end) (finished_tasks order tasks) with
    | Some r => r
    | None =>
        match mapM (λ r, match r with Done (Ok v) => Some v | _ => None end) tasks with
        | Some results => Done (Ok (concat results))
        | None => Running
        end
    end.
Definition batch_scan c envs order fuel retry_fuel ranges each_limit :=
  batch_scan_inner c envs order fuel retry_fuel ranges each_limit false.
Definition batch_scan_keys c envs order fuel retry_fuel ranges each_limit : run (list Key) :=
  match batch_scan_inner c envs order fuel retry_fuel ranges each_limit true with
  | Done r => Done (map KvPair.key <$> r) | Panicks => Panicks | Running => Running
  end.

(** *** Correctness of forward scans *)

(** The data behind a scan: the pairs in key order, and what a store shows of them. *)
Definition pairs_sorted (table : list PbKvPair.t) : Prop :=
  StronglySorted (λ p q, key_lt (PbKvPair.key p) (PbKvPair.key q)) table.
Definition between (table : list PbKvPair.t) (a b : Key) : list PbKvPair.t :=
  List.filter (λ p, key_leb a (PbKvPair.key p) && key_ltb (PbKvPair.key p) b) table.

Lemma between_split table a m b : pairs_sorted table → key_le a m → key_le m b →
  between table a b = between table a m ++ between table m b.
Proof.
  unfold between. intros HS Ham Hmb. induction HS as [|p l HS IH HF]; [done|]. cbn.
  destruct (key_leb_spec a (PbKvPair.key p)), (key_ltb_spec (PbKvPair.key p) b),
    (key_ltb_spec (PbKvPair.key p) m), (key_leb_spec m (PbKvPair.key p)); cbn;
    try (exfalso; key_order); rewrite ?IH; try done.
  rewrite (filter_none (λ p, key_leb a (PbKvPair.key p) && key_ltb (PbKvPair.key p) m) l); [done|].
  eapply Forall_impl; [exact HF|]. intros q Hq. cbn in Hq. destruct (key_ltb_spec (PbKvPair.key q) m);
    [exfalso; key_order | apply andb_false_r].
Qed.

Lemma between_empty table a b : key_le b a → between table a b = [].
Proof.
  intros H. apply filter_none, Forall_true. intros p.
  destruct (key_leb_spec a (PbKvPair.key p)), (key_ltb_spec (PbKvPair.key p) b); try done. exfalso. key_order.
Qed.

Section scan_proof.
Context (c : Client) (env : ScanEnv) (table : list PbKvPair.t) (show : bool → PbKvPair.t → PbKvPair.t).

(** The servers, while the data does not change: a lookup by key finds a region of the key, and an answer without region
    error holds the first pairs, up to the limit, of the part of the requested range that lies in the region the request
    was sent to.  Nothing is said of the lookup by id, which the code makes on its own: the region may
    have another range by then. *)
Class ScanServer : Prop := {
  scan_sorted : pairs_sorted table;
  scan_lookup :: RegionLookup (scan_region_for_key env);
  scan_answer : ∀ t s req resp, do_store_scan env t s req = Ok resp →
    RawPairsResponse.region_error resp = None → RawScanRequest.reverse req = false →
    RawPairsResponse.kvs resp = map (show (RawScanRequest.key_only req)) (take (Z.to_nat (RawScanRequest.limit req))
      (List.filter (λ p,
         bool_decide (in_key_range (RawScanRequest.start_key req, RawScanRequest.end_key req) (PbKvPair.key p)) &&
         RegionWithLeader.contains s (PbKvPair.key p)) table))
}.

(** A round whose two lookups, by key and by id, found the region with different ranges. *)
Definition lookups_differ : Prop :=
  ∃ t k r s, scan_region_for_key env t k = Ok r ∧ scan_store_for_id env t (RegionWithLeader.id r) = Ok s ∧
    RegionWithLeader.range s ≠ RegionWithLeader.range r.

Context `{!ScanServer} (key_only : bool) (start ek : Key) (limit : Z).
Context (Hstart : wf_key start) (Hek : ek ≠ []) (Hlimit : 0 ≤ limit).

(** The range ends before the last region of the key space. *)
Definition ends_inside : Prop :=
  ∀ t k r, scan_region_for_key env t k = Ok r → key_lt k ek ∨ k = start → RegionWithLeader.end_key r ≠ [].
Context (Hinside : ends_inside).

Abbreviation scan_args cur n := (mkScanInnerArgs cur (Some ek) n key_only false (backoff c)).

Lemma scan_request_fields cur n :
  let req := Lowering.new_raw_scan_request (BoundRange.from_pair_opt cur (Some ek)) n key_only false (cf c) in
  RawScanRequest.start_key req = cur ∧ RawScanRequest.end_key req = ek ∧ RawScanRequest.limit req = n ∧
  RawScanRequest.key_only req = key_only ∧ RawScanRequest.reverse req = false.
Proof.
  unfold Lowering.new_raw_scan_request. change (BoundRange.from_pair_opt cur (Some ek)) with (BoundRange.from_pair cur ek).
  rewrite from_pair_into_keys. cbn. by destruct (cf c).
Qed.

(** What a round without region error has asked, and of which region. *)
Lemma retryable_scan_round fuel cur n : ∀ t b res next,
  (retryable_scan c env fuel t (scan_args cur n) b).1 = Done (Ok (res, next)) →
  ∃ t' r s resp, scan_region_for_key env t' cur = Ok r ∧ scan_store_for_id env t' (RegionWithLeader.id r) = Ok s ∧
    next = RegionWithLeader.end_key r ∧ res = Some resp ∧
    RawPairsResponse.kvs resp = map (show key_only) (take (Z.to_nat n) (List.filter (λ p,
      bool_decide (in_key_range (cur, ek) (PbKvPair.key p)) && RegionWithLeader.contains s (PbKvPair.key p)) table)).
Proof.
  induction fuel as [|fuel IH]; intros t b res next; [done|]. cbn [retryable_scan sa_start_key sa_end_key].
  destruct (scan_region_for_key env t cur) as [r|e] eqn:Er; [|done].
  destruct (scan_store_for_id env t _) as [s|e] eqn:Es; [|done]. cbv zeta.
  set (req := Lowering.new_raw_scan_request _ _ _ _ _).
  destruct (do_store_scan env t s req) as [resp|e] eqn:Ed; [|done].
  destruct (RawPairsResponse.region_error resp) as [err|] eqn:Ee.
  { destruct (handle_region_error _ _ _).1 as [[]|]; [by apply IH | | done].
    destruct (next_delay_duration _ _); [done | done | by apply IH]. }
  cbn. intros [= <- <-]. exists t, r, s, resp. split_and!; [done..|].
  destruct (scan_request_fields cur n) as (F1 & F2 & F3 & F4 & F5).
  change (Lowering.new_raw_scan_request _ _ _ _ _) with req in F1, F2, F3, F4, F5.
  by rewrite (scan_answer _ _ _ _ Ed Ee F5), F1, F2, F3, F4.
Qed.

(** The place to go on from is behind the place of the round. *)
Lemma retryable_scan_advances fuel cur n t b res next : wf_key cur → key_lt cur ek ∨ cur = start →
  (retryable_scan c env fuel t (scan_args cur n) b).1 = Done (Ok (res, next)) → wf_key next ∧ key_lt cur next.
Proof.
  intros Hwf Hcur (t' & r & s & resp & Er & _ & -> & _)%retryable_scan_round. split; [exact (lookup_wf _ _ _ Hwf Er)|].
  pose proof (lookup_contains _ _ _ Hwf Er) as Hc. apply contains_end_gt in Hc as [E|Hc]; [|done].
  by destruct (Hinside _ _ _ Er Hcur E).
Qed.

(** The part of the range in the region of its first key. *)
Lemma region_part cur t r s : wf_key cur → scan_region_for_key env t cur = Ok r →
  RegionWithLeader.range s = RegionWithLeader.range r → RegionWithLeader.end_key r ≠ [] →
  List.filter (λ p, bool_decide (in_key_range (cur, ek) (PbKvPair.key p)) && RegionWithLeader.contains s (PbKvPair.key p)) table
  = between table cur (key_min ek (RegionWithLeader.end_key r)).
Proof.
  intros Hwf Er [= E1 E2] Hne. pose proof (lookup_contains _ _ _ Hwf Er) as [Hc _]%contains_spec. cbn in Hc.
  unfold between. apply filter_ext. intros p.
  apply eq_true_iff_eq. rewrite !andb_true_iff, bool_decide_eq_true, contains_spec. unfold in_key_range.
  cbn. unfold key_leb, key_ltb. rewrite !bool_decide_eq_true, key_lt_min, E1, E2.
  split; [intros [[? [?|?]] [? [?|?]]]; done|]. intros (H1 & ? & ?).
  split_and!; [done | by right | by eapply KeyOrder.le_trans | by right].
Qed.

Lemma retryable_scan_ok fuel cur n t b res next : wf_key cur → key_lt cur ek ∨ cur = start →
  (retryable_scan c env fuel t (scan_args cur n) b).1 = Done (Ok (res, next)) →
  lookups_differ ∨ ∃ resp, res = Some resp ∧ RawPairsResponse.kvs resp =
    map (show key_only) (take (Z.to_nat n) (between table cur (key_min ek next))).
Proof.
  intros Hwf Hcur (t' & r & s & resp & Er & Es & -> & -> & Ek)%retryable_scan_round.
  destruct (decide (RegionWithLeader.range s = RegionWithLeader.range r)) as [E|E]; [right | left; by exists t', cur, r, s].
  exists resp. split; [done|]. rewrite Ek, (region_part cur t' r s); [done..|]. by apply (Hinside t' cur).
Qed.

Abbreviation out l := (map (PbKvPair.into ∘ show key_only) l) (only parsing).

Lemma take_more {A} n (a b : list A) : take n a ++ take (n - length (take n a)) b = take n (a ++ b).
Proof.
  rewrite length_take, take_app. f_equal. f_equal. destruct (Nat.le_ge_cases n (length a)); [|lia].
  rewrite Nat.min_l by done. lia.
Qed.

Lemma key_min_l a b : key_le a b → key_min a b = a.
Proof. intros. unfold key_min. by case_key. Qed.
Lemma key_min_r a b : key_lt b a → key_min a b = b.
Proof. intros. unfold key_min. case_key; [|done]. key_order. Qed.

(** One region: the results so far with the region's part. *)
Lemma scan_step cur result k : result = out (take (Z.to_nat limit) (between table start cur)) →
  key_le start cur → key_le cur k ∨ cur = start →
  result ++ out (take (Z.to_nat (limit - Z.of_nat (length result))) (between table cur k))
    = out (take (Z.to_nat limit) (between table start k)).
Proof.
  intros Hres Hle [Hk| ->].
  - rewrite (between_split table start cur k) by (apply scan_sorted || done).
    rewrite <- take_more, map_app. f_equal; [done|]. f_equal. f_equal. rewrite Hres, length_map. lia.
  - rewrite between_empty in Hres by apply KeyOrder.le_refl. rewrite take_nil in Hres. cbn in Hres. subst result. cbn.
    by rewrite Z.sub_0_r.
Qed.

(** A full result is the whole answer. *)
Lemma scan_full cur result : result = out (take (Z.to_nat limit) (between table start cur)) →
  key_le start cur → key_lt cur ek ∨ cur = start → limit ≤ Z.of_nat (length result) →
  result = out (take (Z.to_nat limit) (between table start ek)).
Proof.
  intros Hres Hle Hcur Hfull. rewrite <- (scan_step cur result ek); [|done..|].
  - replace (Z.to_nat _) with 0%nat by lia. by rewrite take_0, app_nil_r.
  - destruct Hcur; [left; by apply KeyOrder.lt_le | by right].
Qed.

Lemma scan_loop_ok retry_fuel fuel : ∀ t cur result res n, wf_key cur → key_lt cur ek ∨ cur = start → key_le start cur →
  result = out (take (Z.to_nat limit) (between table start cur)) → n = limit - Z.of_nat (length result) →
  scan_loop c env fuel retry_fuel t cur (Some ek) n key_only false result = Done (Ok res) →
  lookups_differ ∨ res = out (take (Z.to_nat limit) (between table start ek)).
Proof.
  induction fuel as [|fuel IH]; intros t cur result res n Hwf Hcur Hle Hres Hn; [done|]. cbn [scan_loop].
  destruct (Z.ltb_spec 0 n) as [Hpos|Hfull].
  2: { intros [= <-]. right. apply (scan_full cur); [done..|lia]. }
  destruct (retryable_scan c env retry_fuel t _ _) as [[| |[[r next]|e]] t'] eqn:Er; try done.
  destruct (retryable_scan_advances retry_fuel cur n t (backoff c) r next Hwf Hcur (f_equal fst Er)) as [Hwfn Hgt].
  destruct (retryable_scan_ok retry_fuel cur n t (backoff c) r next Hwf Hcur (f_equal fst Er)) as [?|(resp & -> & Ek)]; [by left|].
  cbv zeta. rewrite Ek, map_map. change (λ x, PbKvPair.into (show key_only x)) with (PbKvPair.into ∘ show key_only).
  set (kvs := map (PbKvPair.into ∘ show key_only) _). destruct (Z.ltb_spec n (Z.of_nat (length kvs))) as [|Hkvs]; [done|].
  destruct (key_leb_spec ek next) as [Hend|Hgo].
  - intros [= <-]. right. unfold kvs. rewrite key_min_l, Hn by done. apply scan_step; [done..|].
    destruct Hcur; [left; by apply KeyOrder.lt_le | by right].
  - apply key_not_le in Hgo. assert (result ++ kvs = out (take (Z.to_nat limit) (between table start next))) as Hnext.
    { unfold kvs. rewrite key_min_r, Hn by done. apply scan_step; [done..|]. left. by apply KeyOrder.lt_le. }
    apply IH; [done | by left | | done |].
    + by eapply KeyOrder.le_trans, KeyOrder.lt_le.
    + rewrite length_app. lia.
Qed.

(** Whatever the lookups find, nothing is returned that is not in the range. *)
Lemma scan_loop_sound retry_fuel fuel : ∀ t cur result res n, wf_key cur → key_lt cur ek ∨ cur = start → key_le start cur →
  Forall (λ p, p ∈ out (between table start ek)) result →
  scan_loop c env fuel retry_fuel t cur (Some ek) n key_only false result = Done (Ok res) →
  Forall (λ p, p ∈ out (between table start ek)) res.
Proof.
  induction fuel as [|fuel IH]; intros t cur result res n Hwf Hcur Hle Hres; [done|]. cbn [scan_loop].
  destruct (0 <? n); [|by intros [= <-]].
  destruct (retryable_scan c env retry_fuel t _ _) as [[| |[[r next]|e]] t'] eqn:Er; try done.
  destruct (retryable_scan_advances retry_fuel cur n t (backoff c) r next Hwf Hcur (f_equal fst Er)) as [Hwfn Hgt].
  destruct (retryable_scan_round retry_fuel cur n t (backoff c) r next (f_equal fst Er)) as (t1 & r1 & s1 & resp & _ & _ & _ & -> & Ek).
  cbv zeta. rewrite Ek, map_map. destruct (_ <? _); [done|].
  match goal with |- context [result ++ ?l] => assert (Forall (λ p, p ∈ out (between table start ek)) (result ++ l)) as Hall end.
  { apply Forall_app. split; [done|]. apply Forall_map, Forall_forall. intros p Hp.
    apply list_elem_of_fmap. exists p. split; [done|].
    apply (subseteq_take (Z.to_nat n)) in Hp. rewrite list_elem_of_In, filter_In in Hp. destruct Hp as [Hp Hin].
    apply andb_true_iff in Hin as [Hin%bool_decide_eq_true _]. destruct Hin as [H1 [H2|H2]]; [done|]. cbn in H1, H2.
    apply list_elem_of_In, filter_In. split; [done|]. apply andb_true_iff. unfold key_leb, key_ltb. rewrite !bool_decide_eq_true.
    split; [by eapply KeyOrder.le_trans | done]. }
  destruct (key_leb_spec ek next) as [|Hgo]; [by intros [= <-]|]. apply key_not_le in Hgo.
  apply IH; [done | by left | | done]. by eapply KeyOrder.le_trans, KeyOrder.lt_le.
Qed.

(** *** A scan ends *)
Section scan_ends.
Context (B : list Key) (N : nat) (HB : layout_bounded (scan_region_for_key env) B).
(** From round [N] on the stores report no region errors. *)
Context (HN : ∀ t s req resp, (N ≤ t)%nat → do_store_scan env t s req = Ok resp → RawPairsResponse.region_error resp = None).

Lemma retryable_scan_ends fuel args : ∀ t b, (N - t < fuel)%nat →
  (retryable_scan c env fuel t args b).1 ≠ Running ∧
  (t ≤ (retryable_scan c env fuel t args b).2)%nat.
Proof.
  induction fuel as [|fuel IH]; intros t b Hf; [lia|]. cbn [retryable_scan].
  destruct (scan_region_for_key env t _); [|cbn; split; [done | lia]].
  destruct (scan_store_for_id env t _); [|cbn; split; [done | lia]]. cbv zeta.
  destruct (do_store_scan env t _ _) as [resp|] eqn:Ed; [|cbn; split; [done | lia]].
  destruct (RawPairsResponse.region_error resp) as [err|] eqn:Ee; [|cbn; split; [done | lia]].
  destruct (decide (N ≤ t)%nat) as [Hle|Hlt]; [by rewrite (HN _ _ _ _ Hle Ed) in Ee|].
  assert (∀ b, (retryable_scan c env fuel (S t) args b).1 ≠ Running ∧
    (t ≤ (retryable_scan c env fuel (S t) args b).2)%nat) as Hnext.
  { intros b'. destruct (IH (S t) b') as [? ?]; [lia|]. split; [done | lia]. }
  destruct (handle_region_error _ _ _).1 as [[]|]; [apply Hnext | | cbn; split; [done | lia]].
  destruct (next_delay_duration _ _); [cbn; split; [done | lia] .. | apply Hnext].
Qed.

Lemma scan_loop_ends retry_fuel fuel : (N < retry_fuel)%nat → ∀ t cur n result,
  wf_key cur → key_lt cur ek ∨ cur = start → (ends_after B cur < fuel)%nat →
  scan_loop c env fuel retry_fuel t cur (Some ek) n key_only false result ≠ Running.
Proof.
  intros Hr. induction fuel as [|fuel IH]; intros t cur n result Hwf Hcur Hf; [lia|]. cbn [scan_loop].
  destruct (0 <? n); [|done].
  destruct (retryable_scan_ends retry_fuel (scan_args cur n) t (backoff c)) as [He _]; [lia|].
  destruct (retryable_scan c env retry_fuel t _ _) as [[| |[[r next]|e]] t'] eqn:Er; try done.
  destruct (retryable_scan_advances retry_fuel cur n t (backoff c) r next Hwf Hcur (f_equal fst Er)) as [Hwfn Hgt].
  destruct (retryable_scan_round retry_fuel cur n t (backoff c) r next (f_equal fst Er)) as (t1 & r1 & s1 & resp & E1 & _ & E2 & -> & _).
  cbv zeta. destruct (_ <? _); [done|]. destruct (key_leb_spec ek next) as [|Hgo]; [done|].
  apply key_not_le in Hgo. apply IH; [done | by left|].
  destruct (HB _ _ _ E1) as [E0|Hin].
  - rewrite E2, E0 in Hgt. by apply key_lt_empty in Hgt.
  - rewrite <- E2 in Hin. pose proof (ends_after_lt B cur next Hgt Hin). lia.
Qed.
End scan_ends.
End scan_proof.

(** C23: a forward scan returns the first pairs of its range, in key order.  For a range that ends before the last region of the
    key space, over data that does not change during the scan: however the range is spread over regions and whatever region errors
    are met and retried on the way, when the scan succeeds its result is exactly the first [limit] pairs of the range, in order and
    without gaps or repetition, unless in some round the two lookups that the client makes (by key, then by the id it found)
    gave regions with different ranges.  Even then it returns nothing that is not a pair of the range; but it can skip or repeat pairs
    ([scan_gap_after_split]).  And it does not run forever: once the stores stop reporting region errors, it ends after at most one
    round per region.  (The condition on the range is needed: see [scan_repeats_without_end].) *)
Theorem raw_scan_correct c env table show range limit key_only start ek :
  ScanServer env table show → 0 ≤ limit → wf_key start → ek ≠ [] →
  BoundRange.into_keys (encode_keyspace_range range (keyspace c) Raw) = (start, Some ek) →
  ends_inside env start ek →
  (∀ fuel retry_fuel result, scan_inner c env fuel retry_fuel range limit key_only false = Done (Ok result) →
     (lookups_differ env ∨
      result = truncate_keyspace_pairs
        (map (PbKvPair.into ∘ show key_only) (take (Z.to_nat limit) (between table start ek))) (keyspace c)) ∧
     ∀ p, p ∈ result →
       p ∈ truncate_keyspace_pairs (map (PbKvPair.into ∘ show key_only) (between table start ek)) (keyspace c)) ∧
  (∀ B N fuel retry_fuel, layout_bounded (scan_region_for_key env) B →
     (∀ t s req resp, (N ≤ t)%nat → do_store_scan env t s req = Ok resp → RawPairsResponse.region_error resp = None) →
     (N < retry_fuel)%nat → (ends_after B start < fuel)%nat →
     scan_inner c env fuel retry_fuel range limit key_only false ≠ Running).
Proof.
  intros HS Hl Hwf Hek Hkeys Hin. unfold scan_inner. rewrite Hkeys. split.
  - intros fuel retry_fuel result. destruct (_ <? limit); [done|].
    destruct (scan_loop _ _ _ _ _ _ _ _ _ _ _) as [| |[r|e]] eqn:E; try done. intros [= <-]. split.
    + pose proof E as E'. apply (scan_loop_ok c env table show key_only start ek limit Hek Hl Hin) in E' as [?| ->];
        [by left | right | done | by right | apply KeyOrder.le_refl | | cbn; lia].
      * f_equal. apply take_ge. rewrite length_map, length_take. lia.
      * rewrite between_empty by apply KeyOrder.le_refl. by rewrite take_nil.
    + intros p. unfold truncate_keyspace_pairs. rewrite !list_elem_of_fmap. intros (q & -> & Hq).
      apply (subseteq_take (Z.to_nat limit)) in Hq. exists q. split; [done|].
      apply (scan_loop_sound c env table show key_only start ek Hek Hin) in E;
        [|done | by right | apply KeyOrder.le_refl | constructor]. rewrite Forall_forall in E. by apply E.
  - intros B N fuel retry_fuel HB HN Hr Hf. destruct (_ <? limit); [done|].
    pose proof (scan_loop_ends c env table show key_only start ek Hin B N HB HN retry_fuel fuel Hr 0 start limit []
      Hwf (or_intror eq_refl) Hf) as He.
    destruct (scan_loop _ _ _ _ _ _ _ _ _ _ _) as [| |[r|e]]; done.
Qed.

(** Two regions below the last one; the pairs of the scan lie in both. *)
Definition scan_pair (k v : Z) : PbKvPair.t := PbKvPair.mk None [k] [v] 0.
Definition scan_table : list PbKvPair.t := [scan_pair 97 1; scan_pair 98 2; scan_pair 110 3; scan_pair 121 4].
Definition three_regions (t : nat) (k : list Z) : Result RegionWithLeader.t :=
  if key_ltb k [109] then Ok (sample_region 1 1 [] [109])
  else if key_ltb k [120] then Ok (sample_region 2 1 [109] [120])
  else Ok (sample_region 3 1 [120] []).
Definition three_regions_by_id (id : Z) : Result RegionWithLeader.t :=
  three_regions 0 (if id =? 1 then [97] else if id =? 2 then [110] else [121]).
Definition table_scan (s : RegionWithLeader.t) (req : RawScanRequest.t) : list PbKvPair.t :=
  take (Z.to_nat (RawScanRequest.limit req))
    (List.filter (λ p,
       bool_decide (in_key_range (RawScanRequest.start_key req, RawScanRequest.end_key req) (PbKvPair.key p)) &&
       RegionWithLeader.contains s (PbKvPair.key p)) scan_table).
Definition sample_scan_env : ScanEnv := {|
  scan_region_for_key := three_regions;
  scan_store_for_id _ := three_regions_by_id;
  do_store_scan t s req := Ok (RawPairsResponse.mk (if (t =? 1)%nat then Some busy else None) (table_scan s req));
  scan_update_leader _ := Ok ();
  scan_draw _ := 0
|}.
Definition plain_client : Client := mkClient 1 None DEFAULT_REGION_BACKOFF false Disable.

#[export] Instance sample_scan_server : ScanServer sample_scan_env scan_table (λ _ p, p).
Proof.
  split.
  - repeat constructor.
  - split; cbn; unfold three_regions; intros t k r Hk;
      (destruct (key_ltb_spec k [109]) as [H1|H1%key_not_lt]; [|destruct (key_ltb_spec k [120]) as [H2|H2%key_not_lt]]);
      intros [= <-]; try (apply contains_spec; split; [try assumption; apply key_empty_le | tauto]);
      unfold wf_key, in_u8; cbn; repeat constructor; lia.
  - cbn. intros t s req resp [= <-] _ _. cbn. by rewrite map_id.
Qed.

Lemma sample_lookups_agree : ¬ lookups_differ sample_scan_env.
Proof.
  intros (t & k & r & s & Er & Es & Hne). cbn in Er, Es. unfold three_regions in Er.
  destruct (key_ltb k [109]), (key_ltb k [120]); injection Er as <-; by injection Es as <-.
Qed.

Lemma raw_scan_correct_witness :
  (∀ fuel retry_fuel result,
     scan_inner plain_client sample_scan_env fuel retry_fuel (BoundRange.from_range [98] [115]) 10 false false = Done (Ok result) →
     result = [KvPair.mk [98] [2] 0; KvPair.mk [110] [3] 0]) ∧
  scan_inner plain_client sample_scan_env 4 3 (BoundRange.from_range [98] [115]) 10 false false
    = Done (Ok [KvPair.mk [98] [2] 0; KvPair.mk [110] [3] 0]) ∧
  scan_inner plain_client sample_scan_env 4 3 (BoundRange.from_range [98] [115]) 10 false false ≠ Running.
Proof.
  destruct (raw_scan_correct plain_client sample_scan_env scan_table (λ _ p, p) (BoundRange.from_range [98] [115]) 10 false
    [98] [115]) as [H1 H2].
  - apply sample_scan_server.
  - lia.
  - unfold wf_key, in_u8. repeat constructor; lia.
  - done.
  - by vm_compute.
  - intros t k r. cbn. unfold three_regions. destruct (key_ltb_spec k [109]); [by intros [= <-]|].
    destruct (key_ltb_spec k [120]) as [|Hge]; [by intros [= <-]|]. intros _ [Hk| ->]; exfalso; apply Hge; [|done].
    eapply KeyOrder.lt_trans; [exact Hk|done].
  - split_and!; [|by vm_compute|].
    + intros fuel retry_fuel result E. destruct (H1 fuel retry_fuel result E) as [[Hd| ->] _]; [by apply sample_lookups_agree in Hd | done].
    + apply (H2 [[109]; [120]] 2%nat 4%nat 3%nat); [| |lia|vm_compute; lia].
      * intros t k r. cbn. unfold three_regions. destruct (key_ltb k [109]); [intros [= <-]; cbn|].
        { right. by apply elem_of_cons; left. }
        destruct (key_ltb k [120]); intros [= <-]; cbn; [right | by left].
        apply elem_of_cons; right. by apply elem_of_cons; left.
      * cbn. intros t s req resp Ht [= <-]. cbn. destruct (Nat.eqb_spec t 1); [lia | done].
Defined.

(** A region that splits between the two lookups: found by key it still reaches to [109], found by id only to [98].  The store answers for
    the part before [98], and the scan goes on after [109]: a pair of the range is missing. *)
Definition split_env : ScanEnv := {|
  scan_region_for_key := three_regions;
  scan_store_for_id _ id := if id =? 1 then Ok (sample_region 1 2 [] [98]) else three_regions_by_id id;
  do_store_scan t s req := Ok (RawPairsResponse.mk None (table_scan s req));
  scan_update_leader _ := Ok ();
  scan_draw _ := 0
|}.
Theorem scan_gap_after_split :
  scan plain_client split_env 4 3 (BoundRange.from_range [97] [115]) 10 =
    Done (Ok [KvPair.mk [97] [1] 0; KvPair.mk [110] [3] 0]) ∧
  between scan_table [97] [115] = [scan_pair 97 1; scan_pair 98 2; scan_pair 110 3] ∧
  ScanServer split_env scan_table (λ _ p, p) ∧ lookups_differ split_env.
Proof.
  split_and!; [by vm_compute | by vm_compute | |].
  - split; [apply sample_scan_server | exact (scan_lookup sample_scan_env scan_table (λ _ p, p)) |].
    cbn. intros t s req resp [= <-] _ _. cbn. by rewrite map_id.
  - exists 0%nat, [97], (sample_region 1 1 [] [109]), (sample_region 1 2 [] [98]). by split_and!.
Qed.

(** The last region has no end key.  A scan that reaches it takes the empty key as the place to
    go on from, and starts again at the first key: pairs come back twice, pairs from before
    the range are returned, and a scan that finds fewer pairs than its limit never ends. *)
Theorem scan_repeats_without_end :
  scan plain_client sample_scan_env 9 3 (BoundRange.from_range [110] [125]) 6 =
    Done (Ok [KvPair.mk [110] [3] 0; KvPair.mk [121] [4] 0; KvPair.mk [97] [1] 0; KvPair.mk [98] [2] 0;
              KvPair.mk [110] [3] 0; KvPair.mk [121] [4] 0]) ∧
  (∀ fuel, (λ env, scan plain_client env fuel 3 (BoundRange.from_range [122] [125]) 6)
     {| scan_region_for_key := three_regions; scan_store_for_id _ := three_regions_by_id;
        do_store_scan _ _ _ := Ok (RawPairsResponse.mk None []); scan_update_leader _ := Ok (); scan_draw _ := 0 |}
     = Running).
Proof.
  split; [by vm_compute|]. intros fuel. cbn. unfold scan, scan_inner. set (env := {| scan_region_for_key := _ |}).
  assert (∀ fuel t k, k = [122] ∨ k = [] ∨ k = [109] ∨ k = [120] →
    scan_loop plain_client env fuel 3 t k (Some [125]) 6 false false [] = Running) as H.
  { clear fuel. induction fuel as [|fuel IH]; intros t k Hk; [done|].
    destruct Hk as [->|[->|[->| ->]]]; cbn -[scan_loop]; cbn [scan_loop]; cbn -[scan_loop]; apply IH; tauto. }
  change (10240 <? 6) with false. cbn -[scan_loop]. by rewrite H by tauto.
Qed.

(** Without a keyspace the end of an unbounded range is the empty key, which the client compares like any
    other key: a scan of everything stops after the first region, and deleting or checking
    everything does nothing. *)
Theorem unbounded_ranges_cut_short to_string :
  scan plain_client sample_scan_env 9 3 BoundRange.from_range_full 10 =
    Done (Ok [KvPair.mk [97] [1] 0; KvPair.mk [98] [2] 0]) ∧
  delete_range to_string plain_client BoundRange.from_range_full = Now (Ok ()) ∧
  checksum plain_client BoundRange.from_range_full = Now (Ok RawChecksum_default).
Proof. by vm_compute. Qed.

(** A reverse scan visits the regions in ascending order: its pairs are in descending order within each
    region only, and a limit keeps the lowest regions instead of the highest. *)
Theorem scan_reverse_order :
  let env := {| scan_region_for_key := three_regions; scan_store_for_id _ := three_regions_by_id;
    do_store_scan _ s req := Ok (RawPairsResponse.mk None (take (Z.to_nat (RawScanRequest.limit req)) (rev
      (List.filter (λ p,
         bool_decide (in_key_range (RawScanRequest.end_key req, RawScanRequest.start_key req) (PbKvPair.key p)) &&
         RegionWithLeader.contains s (PbKvPair.key p)) scan_table))));
    scan_update_leader _ := Ok (); scan_draw _ := 0 |} in
  scan_reverse plain_client env 9 3 (BoundRange.from_range [97] [115]) 2 =
    Done (Ok [KvPair.mk [98] [2] 0; KvPair.mk [97] [1] 0]).
Proof. by vm_compute. Qed.
