(* ===== verification/RawMap.v ===== *)
(** * The raw client as a map (src/src/raw/client.rs)

    The operations of RawClient.v that send one request, against servers that keep pairs by column family and encoded key.  A pair
    written with a TTL may expire.  [RawServer] and [RawServerSpec] are the servers and what they are documented to do; the theorem
    shows that the owner of a keyspace and a column family sees a map that only its own operations and the expiry of pairs change. *)

From Stdlib Require Import Sorting.Permutation.
From S2P Require Import Prelude Keys Proto Errors Codec Ranges Kv Keyspaces Backoffs Requests Plans LockPlans RawRequests RawClient.

(** ** The servers *)

(** A request without a column family is for the default one. *)
Definition cf_name (cf : string) : string := if String.eqb cf "" then ColumnFamily_to_string CfDefault else cf.

(** A pair as it is stored: its value and the TTL it was written with, 0 for none. *)
Abbreviation Entry := (list Z * Z)%type.

(** What the servers do with a request: [contents] are the pairs by column family and encoded key, [expire] is the passing of time.  A
    request comes back with the results of its regions. *)
Class RawServer (S : Type) := {
  contents : S → string → list Z → option Entry;
  expire : S → S;
  srv_get : S → RawGetRequest.t → Result (list (Result RawGetResponse.t));
  srv_batch_get : S → RawBatchGetRequest.t → Result (list (Result RawPairsResponse.t));
  srv_get_key_ttl : S → RawGetKeyTtlRequest.t → Result (list (Result RawGetKeyTtlResponse.t));
  srv_put : S → RawPutRequest.t → S * Result (list (Result RawWriteResponse.t));
  srv_batch_put : S → RawBatchPutRequest.t → S * Result (list (Result RawWriteResponse.t));
  srv_delete : S → RawDeleteRequest.t → S * Result (list (Result RawWriteResponse.t));
  srv_batch_delete : S → RawBatchDeleteRequest.t → S * Result (list (Result RawWriteResponse.t));
  srv_delete_range : S → RawDeleteRangeRequest.t → S * Result (list (Result RawWriteResponse.t));
  srv_cas : S → RawCasRequest.t → S * Result (list (Result RawCasResponse.t))
}.

(** A change is confined to the keys [P] of a column family. *)
Definition changed_only {V} (f : string) (P : list Z → Prop) (m m' : string → list Z → option V) : Prop :=
  ∀ g k, ¬ (g = f ∧ P k) → m' g k = m g k.
Definition write_ok (r : Result RawWriteResponse.t) : Prop :=
  ∃ resp, r = Ok resp ∧ RawWriteResponse.error resp = EmptyString ∧ RawWriteResponse.region_error resp = None.
Definition writes_ok (r : Result (list (Result RawWriteResponse.t))) : Prop :=
  ∃ rs, r = Ok rs ∧ Forall write_ok rs.

(** A pair that was written with a TTL may be gone; nothing else changes by itself. *)
Definition may_expire (before after : option Entry) : Prop :=
  after = before ∨ ∃ v ttl, before = Some (v, ttl) ∧ 0 < ttl ∧ after = None.

(** What the servers are documented to do.  Requests work on the column family they name.  A request that is answered
    without an error has its effect; one that fails may or may not have had it, but in no case on other keys or column families.
    The TTL that is left to a pair is at most the one it was written with.  The results are those of all regions of the request: the
    regions of a batch or range are taken to be found, since a failed lookup drops its shard from a batch without an error
    ([batched_shards_drop_error] in Sharding.v). *)
Class RawServerSpec (S : Type) `{RawServer S} : Prop := {
  expire_spec : ∀ s f k, may_expire (contents s f k) (contents (expire s) f k);
  srv_get_spec : ∀ s req resp, srv_get s req = Ok [Ok resp] →
    fst <$> contents s (cf_name (RawGetRequest.cf req)) (RawGetRequest.key req) =
      if RawGetResponse.not_found resp then None else Some (RawGetResponse.value resp);
  srv_batch_get_spec : ∀ s req resps, srv_batch_get s req = Ok (map Ok resps) →
    concat (map (λ r, map (λ p, (PbKvPair.key p, PbKvPair.value p)) (RawPairsResponse.kvs r)) resps) ≡ₚ
    omap (λ k, (λ e : Entry, (k, e.1)) <$> contents s (cf_name (RawBatchGetRequest.cf req)) k) (RawBatchGetRequest.keys req);
  srv_get_key_ttl_spec : ∀ s req resp, srv_get_key_ttl s req = Ok [Ok resp] →
    match contents s (cf_name (RawGetKeyTtlRequest.cf req)) (RawGetKeyTtlRequest.key req) with
    | None => RawGetKeyTtlResponse.not_found resp = true
    | Some (_, ttl) => RawGetKeyTtlResponse.not_found resp = false ∧ 0 ≤ RawGetKeyTtlResponse.ttl resp ≤ ttl
    end;
  srv_put_spec : ∀ s req s' r, srv_put s req = (s', r) →
    let f := cf_name (RawPutRequest.cf req) in
    changed_only f (λ k, k = RawPutRequest.key req) (contents s) (contents s') ∧
    (writes_ok r → contents s' f (RawPutRequest.key req) = Some (RawPutRequest.value req, RawPutRequest.ttl req));
  srv_batch_put_spec : ∀ s req s' r, srv_batch_put s req = (s', r) →
    let f := cf_name (RawBatchPutRequest.cf req) in
    let keys := map (λ i : PbKvPair.t * Z, PbKvPair.key i.1) (batch_put_items req) in
    changed_only f (λ k, k ∈ keys) (contents s) (contents s') ∧
    (NoDup keys → writes_ok r → ∀ i, i ∈ batch_put_items req →
       contents s' f (PbKvPair.key i.1) = Some (PbKvPair.value i.1, i.2));
  srv_delete_spec : ∀ s req s' r, srv_delete s req = (s', r) →
    let f := cf_name (RawDeleteRequest.cf req) in
    changed_only f (λ k, k = RawDeleteRequest.key req) (contents s) (contents s') ∧
    (writes_ok r → contents s' f (RawDeleteRequest.key req) = None);
  srv_batch_delete_spec : ∀ s req s' r, srv_batch_delete s req = (s', r) →
    let f := cf_name (RawBatchDeleteRequest.cf req) in
    changed_only f (λ k, k ∈ RawBatchDeleteRequest.keys req) (contents s) (contents s') ∧
    (writes_ok r → ∀ k, k ∈ RawBatchDeleteRequest.keys req → contents s' f k = None);
  srv_delete_range_spec : ∀ s req s' r, srv_delete_range s req = (s', r) →
    let f := cf_name (RawDeleteRangeRequest.cf req) in
    let range := (RawDeleteRangeRequest.start_key req, RawDeleteRangeRequest.end_key req) in
    changed_only f (in_key_range range) (contents s) (contents s') ∧
    (writes_ok r → ∀ k, in_key_range range k → contents s' f k = None);
  srv_cas_spec : ∀ s req s' r, srv_cas s req = (s', r) →
    let f := cf_name (RawCasRequest.cf req) in
    changed_only f (λ k, k = RawCasRequest.key req) (contents s) (contents s') ∧
    ∀ resp, r = Ok [Ok resp] →
      let old := contents s f (RawCasRequest.key req) in
      let expected := if RawCasRequest.previous_not_exist req then None else Some (RawCasRequest.previous_value req) in
      fst <$> old = (if RawCasResponse.previous_not_exist resp then None else Some (RawCasResponse.previous_value resp)) ∧
      RawCasResponse.succeed resp = bool_decide (fst <$> old = expected) ∧
      contents s' f (RawCasRequest.key req) =
        if bool_decide (fst <$> old = expected) then Some (RawCasRequest.value req, 0) else old
}.

(** ** The operations *)


Section operations.
Context (to_string : Error → string) {S : Type} `{RawServerSpec S}.




End operations.

(** ** The abstract map *)

#[export] Instance Keyspace_eq_dec : EqDecision Keyspace.
Proof. solve_decision. Defined.







(** ** Proofs *)

(** A permutation goal by equality of the lists. *)
Ltac perm_eq := match goal with |- ?a ≡ₚ ?b => cut (a = b); [intros ->; done|] end.



Lemma cf_name_set (cf : option ColumnFamily) :
  cf_name (match cf with Some cf => ColumnFamily_to_string cf | None => "" end) = ColumnFamily_to_string (default CfDefault cf).
Proof. by destruct cf as [[]|]. Qed.









(** *** Ranges in keyspaces *)






Section refinement.
Context (to_string : Error → string) {S : Type} `{RawServerSpec S}.














(** *** Reads *)





(** *** Writes *)








End refinement.

(** ** The raw client is a map *)


(** Servers that keep a map per column family, never fail, and drop the pairs with a TTL as soon as time passes. *)
Definition Mem : Type := string → gmap (list Z) Entry.
Definition mem_update (f : string) (upd : gmap (list Z) Entry → gmap (list Z) Entry) (m : Mem) : Mem :=
  λ g, if String.eqb g f then upd (m g) else m g.
Definition mem_ok : Result (list (Result RawWriteResponse.t)) := Ok [Ok (RawWriteResponse.mk None "")].
Definition mem_insert (items : list (PbKvPair.t * Z)) (m : gmap (list Z) Entry) : gmap (list Z) Entry :=
  foldl (λ m i, <[PbKvPair.key i.1 := (PbKvPair.value i.1, i.2)]> m) m items.
Definition is_none {A} (o : option A) : bool := match o with None => true | Some _ => false end.
#[export] Instance mem_server : RawServer Mem := {|
  contents m f k := m f !! k;
  expire m f := filter (λ e : list Z * Entry, ¬ 0 < e.2.2) (m f);
  srv_get m req :=
    let e := m (cf_name (RawGetRequest.cf req)) !! RawGetRequest.key req in
    Ok [Ok (RawGetResponse.mk None "" (default [] (fst <$> e)) (is_none e))];
  srv_batch_get m req := Ok [Ok (RawPairsResponse.mk None
    (omap (λ k, (λ e : Entry, PbKvPair.mk None k e.1 0) <$> m (cf_name (RawBatchGetRequest.cf req)) !! k) (RawBatchGetRequest.keys req)))];
  srv_get_key_ttl m req :=
    let e := m (cf_name (RawGetKeyTtlRequest.cf req)) !! RawGetKeyTtlRequest.key req in
    if (0 <=? default 0 (snd <$> e)) then Ok [Ok (RawGetKeyTtlResponse.mk None "" (default 0 (snd <$> e)) (is_none e))] else Ok [];
  srv_put m req := (mem_update (cf_name (RawPutRequest.cf req))
    (insert (RawPutRequest.key req) (RawPutRequest.value req, RawPutRequest.ttl req)) m, mem_ok);
  srv_batch_put m req := (mem_update (cf_name (RawBatchPutRequest.cf req)) (mem_insert (batch_put_items req)) m, mem_ok);
  srv_delete m req := (mem_update (cf_name (RawDeleteRequest.cf req)) (base.delete (RawDeleteRequest.key req)) m, mem_ok);
  srv_batch_delete m req := (mem_update (cf_name (RawBatchDeleteRequest.cf req))
    (λ m, foldr base.delete m (RawBatchDeleteRequest.keys req)) m, mem_ok);
  srv_delete_range m req := (mem_update (cf_name (RawDeleteRangeRequest.cf req))
    (filter (λ e : list Z * Entry, ¬ in_key_range (RawDeleteRangeRequest.start_key req, RawDeleteRangeRequest.end_key req) e.1)) m, mem_ok);
  srv_cas m req :=
    let f := cf_name (RawCasRequest.cf req) in
    let old := m f !! RawCasRequest.key req in
    let expected := if RawCasRequest.previous_not_exist req then None else Some (RawCasRequest.previous_value req) in
    let swap := bool_decide (fst <$> old = expected) in
    (if swap then mem_update f (insert (RawCasRequest.key req) (RawCasRequest.value req, 0)) m else m,
     Ok [Ok (RawCasResponse.mk None "" swap (is_none old) (default [] (fst <$> old)))])
|}.

Lemma mem_update_changed f upd (P : list Z → Prop) (m : Mem) : (∀ k, ¬ P k → upd (m f) !! k = m f !! k) →
  changed_only f P (contents m) (contents (mem_update f upd m)).
Proof.
  intros Hu g k Hn. cbn. unfold mem_update. destruct (String.eqb_spec g f) as [->|]; [|done]. apply Hu. intros Hp. by apply Hn.
Qed.
Lemma mem_update_self f upd (m : Mem) : mem_update f upd m f = upd (m f).
Proof. unfold mem_update. by rewrite String.eqb_refl. Qed.

Lemma mem_insert_other items m k : k ∉ map (λ i : PbKvPair.t * Z, PbKvPair.key i.1) items → mem_insert items m !! k = m !! k.
Proof.
  revert m. induction items as [|i items IH]; intros m Hk; [done|]. cbn in *. apply not_elem_of_cons in Hk as [? ?].
  unfold mem_insert in IH. rewrite IH by done. by apply lookup_insert_ne.
Qed.
Lemma mem_insert_all items m : NoDup (map (λ i : PbKvPair.t * Z, PbKvPair.key i.1) items) → ∀ i, i ∈ items →
  mem_insert items m !! PbKvPair.key i.1 = Some (PbKvPair.value i.1, i.2).
Proof.
  revert m. induction items as [|i items IH]; intros m Hnd j Hj; [by apply elem_of_nil in Hj|]. cbn in *.
  apply NoDup_cons in Hnd as [Hni Hnd]. apply elem_of_cons in Hj as [->|Hj]; [|by apply IH].
  etransitivity; [by apply mem_insert_other | apply lookup_insert_eq].
Qed.
Lemma mem_delete_lookup (keys : list (list Z)) (m : gmap (list Z) Entry) (k : list Z) :
  foldr base.delete m keys !! k = if bool_decide (k ∈ keys) then None else m !! k.
Proof.
  induction keys as [|k0 keys IH]; cbn; [done|]. destruct (decide (k0 = k)) as [->|Hne].
  - rewrite lookup_delete_eq. by rewrite bool_decide_eq_true_2 by (by apply elem_of_cons; left).
  - rewrite lookup_delete_ne, IH by done.
    rewrite (bool_decide_ext (k ∈ keys) (k ∈ k0 :: keys)); [done|]. rewrite elem_of_cons. naive_solver.
Qed.

#[export] Instance mem_server_spec : RawServerSpec Mem.
Proof.
  split; cbn -[mem_update].
  - intros m f k. unfold may_expire. destruct (m f !! k) as [[v ttl]|] eqn:E.
    + destruct (decide (0 < ttl)) as [Hlt|Hlt]; [right; exists v, ttl; split_and!; [done | done|] | left].
      * apply map_lookup_filter_None. right. intros e. rewrite E. by intros [= <-] ?.
      * apply map_lookup_filter_Some. done.
    + left. apply map_lookup_filter_None. by left.
  - intros m req resp [= <-]. cbn. by destruct (m _ !! _).
  - intros m req resps E. destruct resps as [|r [|]]; try done. injection E as <-. cbn. rewrite app_nil_r.
    perm_eq. induction (RawBatchGetRequest.keys req) as [|k keys IH]; [done|].
    cbn. destruct (m _ !! k); cbn; [f_equal|]; exact IH.
  - intros m req resp. destruct (m _ !! _) as [[v ttl]|]; cbn; [|by intros [= <-]].
    destruct (Z.leb_spec 0 ttl); [|done]. intros [= <-]. cbn. lia.
  - intros m req s' r [= <- <-]. split; [apply mem_update_changed; intros k Hk; by apply lookup_insert_ne|].
    intros _. rewrite mem_update_self. apply lookup_insert_eq.
  - intros m req s' r [= <- <-]. split; [apply mem_update_changed, mem_insert_other|].
    intros Hnd _ i Hi. rewrite mem_update_self. by apply mem_insert_all.
  - intros m req s' r [= <- <-]. split; [apply mem_update_changed; intros k Hk; by apply lookup_delete_ne|].
    intros _. rewrite mem_update_self. apply lookup_delete_eq.
  - intros m req s' r [= <- <-]. split.
    + apply mem_update_changed. intros k Hk. by rewrite mem_delete_lookup, bool_decide_eq_false_2.
    + intros _ k Hk. rewrite mem_update_self, mem_delete_lookup. by rewrite bool_decide_eq_true_2.
  - intros m req s' r [= <- <-]. split.
    + apply mem_update_changed. intros k Hk. destruct (m _ !! k) as [e|] eqn:E;
        [by apply map_lookup_filter_Some | apply map_lookup_filter_None; by left].
    + intros _ k Hk. rewrite mem_update_self. apply map_lookup_filter_None. right. by intros e _ ?.
  - intros m req s' r [= <- <-]. split.
    + case_bool_decide; [|by intros ? ?]. apply mem_update_changed. intros k Hk. by apply lookup_insert_ne.
    + intros resp [= <-]. cbn -[mem_update]. split_and!; [by destruct (m _ !! _) | done |].
      case_bool_decide; [|done]. rewrite mem_update_self. apply lookup_insert_eq.
Qed.


