(* ===== verification/ReadRouting.v ===== *)
(** * Choosing the replica of a read (src/src/request/{read_routing,pending_backoff}.rs,
      src/src/store/health.rs, src/src/replica_read.rs)

    [ReadRouting] is the state that the attempts of one request share: the read mode, the
    stores pinned or penalised by earlier attempts, and the health of stores.  [select_peer] picks
    the peer an attempt goes to and the read flags of its context.  The clock is an input:
    [now i] is its reading when the health of the [i]-th candidate is asked. *)

From S2P Require Import Prelude Keys Proto Errors Regions Plans.

(** ** [ReplicaReadType] *)
Inductive ReplicaReadType := Leader | Follower | Mixed | Learner | PreferLeader.
#[export] Instance ReplicaReadType_eq_dec : EqDecision ReplicaReadType.
Proof. solve_decision. Defined.
Definition is_follower_read (t : ReplicaReadType) : bool := match t with Leader => false | _ => true end.
Definition ReplicaReadType_to_string (t : ReplicaReadType) : string :=
  match t with
  | Leader => "leader" | Follower => "follower" | Mixed => "mixed" | Learner => "learner"
  | PreferLeader => "prefer-leader"
  end.

(** [metapb::PeerRole::try_from(role).unwrap_or(Voter) == Learner] *)
Definition is_learner (role : Z) : bool := role =? 1.

(** ** [StoreHealthMap] *)
Module StoreHealth.
Record entry := mk { slow_until_epoch_ms : Z; tikv_side_slow_score : Z; tikv_side_feedback_seq_no : Z }.
Definition default_entry : entry := mk 0 0 0.
Abbreviation t := (gmap Z entry).

(** [now_epoch_ms]: the milliseconds since the epoch, 0 when they do not fit. *)
Definition now_epoch_ms (millis : Z) : Z := default 0 (try_i64 millis).
Definition is_slow (h : t) (store_id now_epoch_ms : Z) : bool :=
  match h !! store_id with Some e => now_epoch_ms <? slow_until_epoch_ms e | None => false end.
Definition mark_slow_for (store_id duration_ms now : Z) (h : t) : t :=
  let slow_for_ms := default i64_max (try_i64 duration_ms) in
  let slow_until := sat_add_i64 now slow_for_ms in
  let e := default default_entry (h !! store_id) in
  <[store_id := mk (Z.max (slow_until_epoch_ms e) slow_until) (tikv_side_slow_score e)
                  (tikv_side_feedback_seq_no e)]> h.
Definition record_tikv_health_feedback (store_id feedback_seq_no slow_score : Z) (h : t) : t :=
  let e := default default_entry (h !! store_id) in
  <[store_id := if tikv_side_feedback_seq_no e <=? feedback_seq_no
                then mk (slow_until_epoch_ms e) slow_score feedback_seq_no else e]> h.
Definition clear_slow (store_id : Z) (h : t) : t := delete store_id h.
End StoreHealth.

(** ** [PendingBackoffs] *)
Inductive PendingBackoffKind := RegionScheduling | TikvRpc | TikvDiskFull | TikvServerBusy.
Definition base_delay_rank (k : PendingBackoffKind) : Z :=
  match k with RegionScheduling => 1 | TikvRpc => 2 | TikvDiskFull => 3 | TikvServerBusy => 4 end.
Record PendingBackoff := mkPendingBackoff { pb_kind : PendingBackoffKind; pb_error : RegionError.t }.
Module PendingBackoffs.
Abbreviation t := (gmap Z PendingBackoff).
Definition add (store_id : option Z) (kind : PendingBackoffKind) (error : RegionError.t) (p : t) : t :=
  <[default 0 store_id := mkPendingBackoff kind error]> p.
Definition take_for_retry (store_id : option Z) (p : t) : option PendingBackoff * t :=
  (p !! default 0 store_id, delete (default 0 store_id) p).
End PendingBackoffs.

(** ** [ReadRouting] *)
Record ReadRouting := mkReadRouting {
  replica_read : ReplicaReadType;
  stale_read : bool;
  seed : Z;
  forced_leader : bool;
  input_request_source : option string;
  store_match : list Z;
  store_health : StoreHealth.t;
  pinned_stores : gmap Z Z;
  pending_backoffs : PendingBackoffs.t
}.
Definition ReadRouting_default : ReadRouting := mkReadRouting Leader false 0 false None [] ∅ ∅ ∅.
Definition ReadRouting_new (replica_read : ReplicaReadType) (stale_read : bool) : ReadRouting :=
  mkReadRouting replica_read stale_read 0 false None [] ∅ ∅ ∅.

Definition set_replica_read (v : ReplicaReadType) (r : ReadRouting) : ReadRouting :=
  mkReadRouting v (stale_read r) (seed r) (forced_leader r) (input_request_source r) (store_match r)
    (store_health r) (pinned_stores r) (pending_backoffs r).
Definition set_stale_read (v : bool) (r : ReadRouting) : ReadRouting :=
  mkReadRouting (replica_read r) v (seed r) (forced_leader r) (input_request_source r) (store_match r)
    (store_health r) (pinned_stores r) (pending_backoffs r).
Definition set_seed (v : Z) (r : ReadRouting) : ReadRouting :=
  mkReadRouting (replica_read r) (stale_read r) v (forced_leader r) (input_request_source r) (store_match r)
    (store_health r) (pinned_stores r) (pending_backoffs r).
Definition force_leader (r : ReadRouting) : ReadRouting :=
  mkReadRouting (replica_read r) (stale_read r) (seed r) true (input_request_source r) (store_match r)
    (store_health r) (pinned_stores r) (pending_backoffs r).
Definition with_request_source (v : option string) (r : ReadRouting) : ReadRouting :=
  mkReadRouting (replica_read r) (stale_read r) (seed r) (forced_leader r) v (store_match r)
    (store_health r) (pinned_stores r) (pending_backoffs r).
Definition with_store_health (v : StoreHealth.t) (r : ReadRouting) : ReadRouting :=
  mkReadRouting (replica_read r) (stale_read r) (seed r) (forced_leader r) (input_request_source r) (store_match r)
    v (pinned_stores r) (pending_backoffs r).
Definition set_pinned (v : gmap Z Z) (r : ReadRouting) : ReadRouting :=
  mkReadRouting (replica_read r) (stale_read r) (seed r) (forced_leader r) (input_request_source r) (store_match r)
    (store_health r) v (pending_backoffs r).
Definition set_pending (v : PendingBackoffs.t) (r : ReadRouting) : ReadRouting :=
  mkReadRouting (replica_read r) (stale_read r) (seed r) (forced_leader r) (input_request_source r) (store_match r)
    (store_health r) (pinned_stores r) v.

Definition mark_store_slow_for (store_id duration_ms now : Z) (r : ReadRouting) : ReadRouting :=
  with_store_health (StoreHealth.mark_slow_for store_id duration_ms now (store_health r)) r.
Definition pin_store_for_region (region_id store_id : Z) (r : ReadRouting) : ReadRouting :=
  set_pinned (<[region_id := store_id]> (pinned_stores r)) r.
Definition clear_pinned_store_for_region (region_id : Z) (r : ReadRouting) : ReadRouting :=
  set_pinned (delete region_id (pinned_stores r)) r.
Definition add_pending_backoff (store_id : option Z) (kind : PendingBackoffKind) (error : RegionError.t)
    (r : ReadRouting) : ReadRouting :=
  set_pending (PendingBackoffs.add store_id kind error (pending_backoffs r)) r.
Definition take_pending_backoff_for_retry (store_id : option Z) (r : ReadRouting) :
    option PendingBackoff * ReadRouting :=
  let '(b, p) := PendingBackoffs.take_for_retry store_id (pending_backoffs r) in (b, set_pending p r).

Definition routing_replica_mode (r : ReadRouting) : bool := is_follower_read (replica_read r) || stale_read r.
Definition is_stale_read (r : ReadRouting) : bool := stale_read r && negb (forced_leader r).

(** ** Scores *)
Record ScoreStrategy := mkStrategy { try_leader : bool; prefer_leader : bool; learner_only : bool }.
Definition default_strategy : ScoreStrategy := mkStrategy false false false.
Definition FLAG_NOT_ATTEMPTED : Z := 1.
Definition FLAG_NORMAL_PEER : Z := 2.
Definition FLAG_PREFER_LEADER : Z := 4.
Definition FLAG_LABEL_MATCHES : Z := 8.
Definition FLAG_NOT_SLOW : Z := 16.

Definition calculate_score (peer : Peer.t) (is_leader : bool) (is_slow : bool) (store_match : list Z)
    (strategy : ScoreStrategy) : Z :=
  let label_matching_enabled := negb (is_empty store_match) in
  let label_matches := is_empty store_match || bool_decide (Peer.store_id peer ∈ store_match) in
  let score := if label_matches then Z.lor 0 FLAG_LABEL_MATCHES else 0 in
  let score := if negb is_slow then Z.lor score FLAG_NOT_SLOW else score in
  let score := Z.lor score FLAG_NOT_ATTEMPTED in
  if is_leader then
    if prefer_leader strategy then
      if negb is_slow then Z.lor score FLAG_PREFER_LEADER else Z.lor score FLAG_NORMAL_PEER
    else if try_leader strategy then
      if label_matching_enabled then Z.lor score FLAG_PREFER_LEADER else Z.lor score FLAG_NORMAL_PEER
    else score
  else if learner_only strategy then
    if is_learner (Peer.role peer) then Z.lor score FLAG_NORMAL_PEER else score
  else Z.lor score FLAG_NORMAL_PEER.

(** [pick_peer]: [None] when there is no peer; the index is always in range. *)
Definition pick_index (n : nat) (region_id seed : Z) (attempt : nat) : nat :=
  Z.to_nat (wrap_u32 (wrap_u32 (wrap_u32 region_id + seed) + wrap_u32 (Z.of_nat attempt)) mod Z.of_nat n).
Definition pick_peer (peers : list Peer.t) (region_id seed : Z) (attempt : nat) : option Peer.t :=
  peers !! pick_index (length peers) region_id seed attempt.

(** The loop of [select_peer_by_score]. *)
Fixpoint score_loop (score : nat → Peer.t → Z) (i : nat) (peers : list Peer.t) (max_score : Z)
    (max_peers : list Peer.t) : list Peer.t :=
  match peers with
  | [] => max_peers
  | peer :: peers =>
      if Peer.is_witness peer then score_loop score (S i) peers max_score max_peers
      else
        match Z.compare (score i peer) max_score with
        | Gt => score_loop score (S i) peers (score i peer) [peer]
        | Eq => score_loop score (S i) peers max_score (max_peers ++ [peer])
        | Lt => score_loop score (S i) peers max_score max_peers
        end
  end.

Section select.
Context (r : ReadRouting) (now : nat → Z).

Definition is_slow_at (i : nat) (store_id : Z) : bool := StoreHealth.is_slow (store_health r) store_id (now i).
Definition peer_score (leader : Peer.t) (strategy : ScoreStrategy) (i : nat) (peer : Peer.t) : Z :=
  calculate_score peer (Peer.store_id peer =? Peer.store_id leader) (is_slow_at (S i) (Peer.store_id peer))
    (store_match r) strategy.

Definition select_peer_by_score (region_id : Z) (attempt : nat) (leader : Peer.t) (peers : list Peer.t)
    (strategy : ScoreStrategy) : Peer.t :=
  default leader (pick_peer (score_loop (peer_score leader strategy) 0 peers (-1) []) region_id (seed r) attempt).

Definition leader_peer (peer : Peer.t) : ReadPeer := mkReadPeer peer false false.

(** Peers that can serve reads besides the leader. *)
Definition followers_of (region : RegionWithLeader.t) (leader : Peer.t) : list Peer.t :=
  List.filter (λ p, negb (Peer.is_witness p) && negb (Peer.store_id p =? Peer.store_id leader) &&
    negb (is_learner (Peer.role p))) (Region.peers (RegionWithLeader.region region)).
Definition learners_of (region : RegionWithLeader.t) (leader : Peer.t) : list Peer.t :=
  List.filter (λ p, negb (Peer.is_witness p) && negb (Peer.store_id p =? Peer.store_id leader) &&
    is_learner (Peer.role p)) (Region.peers (RegionWithLeader.region region)).

Definition select_target (region : RegionWithLeader.t) (leader : Peer.t) (attempt : nat) : Peer.t :=
  let region_id := RegionWithLeader.id region in
  let peers := Region.peers (RegionWithLeader.region region) in
  let followers := followers_of region leader in
  let learners := learners_of region leader in
  match replica_read r with
  | Leader => leader
  | PreferLeader =>
      if (attempt =? 0)%nat then
        if is_slow_at 0 (Peer.store_id leader) && (negb (is_empty followers) || negb (is_empty learners))
        then select_peer_by_score region_id attempt leader (followers ++ learners) (mkStrategy false true false)
        else select_peer_by_score region_id attempt leader peers (mkStrategy false true false)
      else select_peer_by_score region_id attempt leader peers default_strategy
  | Follower =>
      if (attempt =? 0)%nat then default leader (pick_peer followers region_id (seed r) attempt) else leader
  | Learner =>
      if (attempt =? 0)%nat then default leader (pick_peer learners region_id (seed r) attempt) else leader
  | Mixed =>
      if (attempt =? 0)%nat then select_peer_by_score region_id attempt leader peers default_strategy else leader
  end.

Definition pinned_peer (region : RegionWithLeader.t) : option Peer.t :=
  store_id ← pinned_stores r !! RegionWithLeader.id region;
  List.find (λ p, negb (Peer.is_witness p) && (Peer.store_id p =? store_id))
    (Region.peers (RegionWithLeader.region region)).

Definition select_peer_inner (region : RegionWithLeader.t) (attempt : nat) (respect_overrides : bool) :
    Result ReadPeer :=
  leader ← ok_or (RegionWithLeader.leader region) (LeaderNotFound (RegionWithLeader.ver_id region));
  if respect_overrides && forced_leader r then Ok (leader_peer leader)
  else
    match (if respect_overrides && (0 <? attempt)%nat then pinned_peer region else None) with
    | Some peer =>
        Ok (mkReadPeer peer (negb (stale_read r) && negb (Peer.store_id peer =? Peer.store_id leader)) (stale_read r))
    | None =>
        if stale_read r then
          let replicas := followers_of region leader ++ learners_of region leader in
          let target := if (attempt =? 0)%nat
                        then default leader (pick_peer replicas (RegionWithLeader.id region) (seed r) attempt)
                        else leader in
          Ok (mkReadPeer target false true)
        else
          let target := select_target region leader attempt in
          Ok (mkReadPeer target (negb (Peer.store_id target =? Peer.store_id leader)) false)
    end.

Definition select_peer (region : RegionWithLeader.t) (attempt : nat) : Result ReadPeer :=
  select_peer_inner region attempt true.
Definition select_peer_for_request_source (region : RegionWithLeader.t) : Result ReadPeer :=
  select_peer_inner region 0 false.
End select.

(** What the handlers of Plans.v do to the routing state, at time [now] and for the region error
    that is handled; the other actions change the caches of the PD client. *)
Definition apply_action (now : Z) (region_error : RegionError.t) (a : Action) (r : ReadRouting) : ReadRouting :=
  match a with
  | AMarkStoreSlow store_id => mark_store_slow_for store_id 500 now r
  | AAddPendingBackoff store_id => add_pending_backoff (Some store_id) TikvServerBusy region_error r
  | APinStore region_id store_id => pin_store_for_region region_id store_id r
  | AClearPinnedStore region_id => clear_pinned_store_for_region region_id r
  | AForceLeader => force_leader r
  | _ => r
  end.

(** ** Lemmas *)

Lemma pick_index_lt n region_id seed attempt : (0 < n)%nat → (pick_index n region_id seed attempt < n)%nat.
Proof.
  intros Hn. unfold pick_index. set (x := wrap_u32 _).
  pose proof (Z.mod_pos_bound x (Z.of_nat n)). lia.
Qed.

Lemma pick_peer_spec peers region_id seed attempt :
  match pick_peer peers region_id seed attempt with
  | Some p => p ∈ peers
  | None => peers = []
  end.
Proof.
  unfold pick_peer. destruct (peers !! _) as [p|] eqn:E; [by eapply list_elem_of_lookup_2|].
  destruct peers as [|p peers]; [done|]. exfalso. apply lookup_ge_None in E.
  pose proof (pick_index_lt (length (p :: peers)) region_id seed attempt). cbn [length] in *. lia.
Qed.

(** A healthy store has a higher score than any slow one. *)
Lemma score_bits peer l s m strategy :
  0 ≤ calculate_score peer l s m strategy ∧ (16 ≤ calculate_score peer l s m strategy ↔ s = false).
Proof.
  unfold calculate_score.
  destruct (is_empty m), (bool_decide (Peer.store_id peer ∈ m)), s, l, (prefer_leader strategy), (try_leader strategy),
    (learner_only strategy), (is_learner (Peer.role peer));
    (split; [by vm_compute | split; intros H; revert H; vm_compute; congruence]).
Qed.

Section score.
Context (score : nat → Peer.t → Z).

Record best_of (pre : list Peer.t) (m : Z) (acc : list Peer.t) : Prop := {
  best_upper : ∀ i p, pre !! i = Some p → Peer.is_witness p = false → score i p ≤ m;
  best_reached : ∀ a, a ∈ acc → ∃ i, pre !! i = Some a ∧ Peer.is_witness a = false ∧ score i a = m;
  best_none : acc = [] → m = -1
}.

Lemma best_of_snoc pre m acc p m' acc' : best_of pre m acc → m ≤ m' →
  (Peer.is_witness p = false → score (length pre) p ≤ m') →
  (∀ a, a ∈ acc' → (a ∈ acc ∧ m = m') ∨ (a = p ∧ Peer.is_witness p = false ∧ score (length pre) p = m')) →
  (acc' = [] → m' = -1) → best_of (pre ++ [p]) m' acc'.
Proof.
  intros [Hu Hr Hn] Hm Hp Ha He. split; [| |done].
  - intros i q Hi Hw. apply lookup_app_Some in Hi as [Hi|[Hge Hi]].
    + specialize (Hu i q Hi Hw). lia.
    + apply list_lookup_singleton_Some in Hi as [Hz ->]. replace i with (length pre) by lia. by apply Hp.
  - intros a Hin. destruct (Ha a Hin) as [[Hin' <-]|(-> & Hw & <-)].
    + destruct (Hr a Hin') as (i & Hi & ?). exists i. split; [by apply lookup_app_l_Some | done].
    + exists (length pre). by rewrite list_lookup_middle.
Qed.

Lemma score_loop_best peers : ∀ pre m acc, best_of pre m acc →
  ∃ m', best_of (pre ++ peers) m' (score_loop score (length pre) peers m acc).
Proof.
  induction peers as [|p peers IH]; intros pre m acc HI; [exists m; by rewrite app_nil_r|].
  replace (pre ++ p :: peers) with ((pre ++ [p]) ++ peers) by by rewrite <- app_assoc.
  assert (S (length pre) = length (pre ++ [p])) as El by (rewrite length_app; cbn; lia).
  cbn [score_loop]. rewrite El. pose proof (best_none _ _ _ HI) as Hn.
  destruct (Peer.is_witness p) eqn:Ew.
  { apply IH. eapply best_of_snoc; [done..| | |]; [by rewrite Ew | by left | done]. }
  destruct (Z.compare_spec (score (length pre) p) m) as [E|Hlt|Hgt]; apply IH.
  - eapply best_of_snoc; [done..| | |].
    + lia.
    + intros a [Hin|Hin]%elem_of_app; [by left|]. apply list_elem_of_singleton in Hin. by right.
    + intros H. by apply app_eq_nil in H as [_ ?].
  - eapply best_of_snoc; [done..| | |]; [lia | by left | done].
  - eapply best_of_snoc; [done | lia | lia | |].
    + intros a Hin%list_elem_of_singleton. by right.
    + done.
Qed.
End score.

(** The peer chosen by score is a best candidate. *)
Lemma select_peer_by_score_spec r now region_id attempt leader peers strategy :
  let target := select_peer_by_score r now region_id attempt leader peers strategy in
  (Forall (λ p, Peer.is_witness p = true) peers ∧ target = leader) ∨
  (∃ j, peers !! j = Some target ∧ Peer.is_witness target = false ∧
    ∀ i p, peers !! i = Some p → Peer.is_witness p = false →
      peer_score r now leader strategy i p ≤ peer_score r now leader strategy j target).
Proof.
  cbv zeta. unfold select_peer_by_score.
  destruct (score_loop_best (peer_score r now leader strategy) peers [] (-1) [])
    as [m [Hu Hr Hn]]; [split; [done | by intros a ?%elem_of_nil | done]|].
  cbn [length app] in *. set (best := score_loop _ _ _ _ _) in *.
  pose proof (pick_peer_spec best region_id (seed r) attempt) as Hp.
  destruct (pick_peer best _ _ _) as [q|]; cbn.
  - right. destruct (Hr q Hp) as (j & Hj & Hw & <-). eauto.
  - left. split; [|done]. apply Forall_forall. intros p [i Hi]%list_elem_of_lookup_1.
    destruct (Peer.is_witness p) eqn:Ew; [done|]. specialize (Hu i p Hi Ew). rewrite (Hn Hp) in Hu.
    pose proof (proj1 (score_bits p (Peer.store_id p =? Peer.store_id leader)
      (is_slow_at r now (S i) (Peer.store_id p)) (store_match r) strategy)). unfold peer_score in Hu. lia.
Qed.

Definition readable (region : RegionWithLeader.t) (leader p : Peer.t) : Prop :=
  p = leader ∨ (p ∈ Region.peers (RegionWithLeader.region region) ∧ Peer.is_witness p = false).

Lemma followers_readable region leader p : p ∈ followers_of region leader ++ learners_of region leader →
  p ∈ Region.peers (RegionWithLeader.region region) ∧ Peer.is_witness p = false ∧ Peer.store_id p ≠ Peer.store_id leader.
Proof.
  unfold followers_of, learners_of. rewrite elem_of_app, !list_elem_of_In, !filter_In, !andb_true_iff, !negb_true_iff, !Z.eqb_neq.
  tauto.
Qed.

Lemma pick_readable region leader peers region_id seed attempt :
  (∀ p, p ∈ peers → p ∈ followers_of region leader ++ learners_of region leader) →
  readable region leader (default leader (pick_peer peers region_id seed attempt)).
Proof.
  intros H. pose proof (pick_peer_spec peers region_id seed attempt) as Hp.
  destruct (pick_peer peers _ _ _) as [q|]; [|by left]. right. apply H, followers_readable in Hp. cbn. tauto.
Qed.

Lemma score_readable r now region attempt leader peers strategy :
  (∀ p, p ∈ peers → p ∈ Region.peers (RegionWithLeader.region region)) →
  readable region leader (select_peer_by_score r now (RegionWithLeader.id region) attempt leader peers strategy).
Proof.
  intros H. destruct (select_peer_by_score_spec r now (RegionWithLeader.id region) attempt leader peers strategy)
    as [[_ ->]|(j & Hj & Hw & _)]; [by left | right]. split; [|done]. by eapply H, list_elem_of_lookup_2.
Qed.

Lemma select_target_readable r now region leader attempt :
  readable region leader (select_target r now region leader attempt).
Proof.
  unfold select_target.
  destruct (replica_read r); [by left | | | |]; destruct (attempt =? 0)%nat; try (by left).
  - apply pick_readable. intros p. rewrite elem_of_app. tauto.
  - by apply score_readable.
  - apply pick_readable. intros p. rewrite elem_of_app. tauto.
  - destruct (_ && _); apply score_readable; [|done]. intros p. by intros [? _]%followers_readable.
  - by apply score_readable.
Qed.

(** Slow stores are avoided: with a healthy candidate the target is healthy. *)
Definition avoids_slow (r : ReadRouting) (now : nat → Z) (candidates : list Peer.t) (target : Peer.t) : Prop :=
  ∀ i p, candidates !! i = Some p → Peer.is_witness p = false → is_slow_at r now (S i) (Peer.store_id p) = false →
  ∃ j, candidates !! j = Some target ∧ is_slow_at r now (S j) (Peer.store_id target) = false.

(** A healthy candidate beats every slow one. *)
Lemma score_avoids_slow r now region_id attempt leader peers strategy :
  avoids_slow r now peers (select_peer_by_score r now region_id attempt leader peers strategy).
Proof.
  intros i p Hi Hw Hs.
  destruct (select_peer_by_score_spec r now region_id attempt leader peers strategy) as [[HF _]|(j & Hj & _ & Hb)].
  - rewrite Forall_forall in HF. rewrite (HF p) in Hw; [done|]. by eapply list_elem_of_lookup_2.
  - exists j. split; [done|]. specialize (Hb i p Hi Hw). unfold peer_score in Hb. rewrite Hs in Hb.
    pose proof (proj2 (score_bits p (Peer.store_id p =? Peer.store_id leader) false (store_match r) strategy)) as [_ H1].
    specialize (H1 eq_refl). set (tgt := select_peer_by_score _ _ _ _ _ _ _) in *.
    apply (proj2 (score_bits tgt (Peer.store_id tgt =? Peer.store_id leader) _ (store_match r) strategy)). lia.
Qed.

(** A healthy leader is preferred when leaders are, unless labels say otherwise. *)
Lemma score_prefers_leader r now region_id attempt leader peers i :
  peers !! i = Some leader → Peer.is_witness leader = false → store_match r = [] →
  is_slow_at r now (S i) (Peer.store_id leader) = false →
  Peer.store_id (select_peer_by_score r now region_id attempt leader peers (mkStrategy false true false)) = Peer.store_id leader.
Proof.
  intros Hi Hw Hm Hs.
  destruct (select_peer_by_score_spec r now region_id attempt leader peers (mkStrategy false true false))
    as [[_ ->]|(j & Hj & _ & Hb)]; [done|].
  specialize (Hb i leader Hi Hw). unfold peer_score in Hb. rewrite Hs, Hm, Z.eqb_refl in Hb.
  set (tgt := select_peer_by_score _ _ _ _ _ _ _) in *.
  destruct (Z.eqb_spec (Peer.store_id tgt) (Peer.store_id leader)); [done|]. exfalso.
  destruct (is_slow_at r now (S j) _); by apply Hb.
Qed.

(** What each mode promises about the first attempt of a read that is not stale. *)
Definition mode_target (r : ReadRouting) (now : nat → Z) (region : RegionWithLeader.t) (leader target : Peer.t) : Prop :=
  let peers := Region.peers (RegionWithLeader.region region) in
  let replicas := followers_of region leader ++ learners_of region leader in
  match replica_read r with
  | Leader => target = leader
  | Follower => target ∈ followers_of region leader ∨ (followers_of region leader = [] ∧ target = leader)
  | Learner => target ∈ learners_of region leader ∨ (learners_of region leader = [] ∧ target = leader)
  | Mixed => avoids_slow r now peers target
  | PreferLeader =>
      if is_slow_at r now 0 (Peer.store_id leader) && negb (is_empty replicas) then avoids_slow r now replicas target
      else avoids_slow r now peers target ∧
        ∀ i, peers !! i = Some leader → Peer.is_witness leader = false → store_match r = [] →
          is_slow_at r now (S i) (Peer.store_id leader) = false → Peer.store_id target = Peer.store_id leader
  end.

Lemma pick_mode peers leader region_id seed attempt :
  let target := default leader (pick_peer peers region_id seed attempt) in
  target ∈ peers ∨ (peers = [] ∧ target = leader).
Proof.
  cbv zeta. pose proof (pick_peer_spec peers region_id seed attempt) as H.
  destruct (pick_peer peers _ _ _); cbn; [by left | by right].
Qed.

Lemma select_target_mode r now region leader : mode_target r now region leader (select_target r now region leader 0).
Proof.
  unfold mode_target, select_target. cbn [Nat.eqb].
  destruct (replica_read r); [done | apply pick_mode | apply score_avoids_slow | apply pick_mode |].
  replace (negb (is_empty (followers_of region leader ++ learners_of region leader)))
    with (negb (is_empty (followers_of region leader)) || negb (is_empty (learners_of region leader)))
    by by destruct (followers_of region leader), (learners_of region leader).
  destruct (_ && _); [apply score_avoids_slow|]. split; [apply score_avoids_slow|].
  intros. by eapply score_prefers_leader.
Qed.

(** ** Theorems *)

(** C36: a read goes to a replica that can serve it, with the flags that replica needs.  With no leader
    known the attempt reports it.  Otherwise the target is the leader or a peer of the region
    that is no witness; the context asks for a stale read exactly when the request is a stale
    read that has not been sent back to the leader, and for a replica read exactly when the
    read is not stale and the target is not on the leader's store, so the two are never set together.  A
    request forced to the leader goes there; a retry goes to the peer pinned for the region
    if it is still there; else retries of all modes but [PreferLeader] go to the
    leader.  A first attempt follows the read mode: a follower, a learner or a stale read goes
    to such a replica if there is one, and the modes that choose by score avoid slow
    stores while a healthy candidate exists and, when they prefer the leader, choose a healthy leader. *)
Theorem select_peer_correct r now region attempt :
  match RegionWithLeader.leader region with
  | None => select_peer r now region attempt = Err (LeaderNotFound (RegionWithLeader.ver_id region))
  | Some leader => ∃ p, select_peer r now region attempt = Ok p ∧
      readable region leader (target_peer p) ∧
      rp_stale_read p = is_stale_read r ∧
      rp_replica_read p =
        negb (rp_stale_read p) && negb (Peer.store_id (target_peer p) =? Peer.store_id leader) ∧
      (forced_leader r = true → target_peer p = leader) ∧
      (∀ q, forced_leader r = false → (0 < attempt)%nat → pinned_peer r region = Some q → target_peer p = q) ∧
      (forced_leader r = false → (0 < attempt)%nat → pinned_peer r region = None →
         stale_read r = true ∨ replica_read r ≠ PreferLeader → target_peer p = leader) ∧
      (forced_leader r = false → attempt = 0%nat →
         if stale_read r then
           let replicas := followers_of region leader ++ learners_of region leader in
           target_peer p ∈ replicas ∨ (replicas = [] ∧ target_peer p = leader)
         else mode_target r now region leader (target_peer p))
  end.
Proof.
  unfold select_peer, select_peer_inner. destruct (RegionWithLeader.leader region) as [leader|]; [|done].
  cbn [ok_or mbind result_bind andb]. unfold is_stale_read. destruct (forced_leader r) eqn:Ef.
  { exists (leader_peer leader). cbn. rewrite Z.eqb_refl, andb_false_r. split_and!; try done. by left. }
  destruct attempt as [|attempt]; cbn [Nat.ltb Nat.leb andb Nat.eqb].
  - destruct (stale_read r) eqn:Es; eexists; (split; [done|]); cbn; rewrite ?andb_true_r.
    + split_and!; try done; [by apply pick_readable | intros; lia | intros; lia |]. intros _ _. apply pick_mode.
    + split_and!; try done; [apply select_target_readable | intros; lia | intros; lia |].
      intros _ _. apply select_target_mode.
  - destruct (pinned_peer r region) as [q|] eqn:Ep.
    + eexists. split; [done|]. cbn. rewrite andb_true_r. split_and!; try done; [|by intros ? _ _ [= ->]].
      right. unfold pinned_peer in Ep. destruct (pinned_stores r !! _) as [store|]; [|done]. cbn in Ep.
      apply find_some in Ep as [Hin [Hw _]%andb_true_iff]. apply negb_true_iff in Hw.
      split; [by apply list_elem_of_In | done].
    + destruct (stale_read r) eqn:Es; eexists; (split; [done|]); cbn; rewrite ?andb_true_r.
      * split_and!; try done. by left.
      * split_and!; try done; [apply select_target_readable|]. intros _ _ _ [?|Hne]; [done|].
        unfold select_target. cbn. by destruct (replica_read r).
Qed.

(** Pinning a store makes the next attempts of the region use it; an attempt that ends clears it. *)
Lemma pin_then_select r now t err region attempt leader p :
  RegionWithLeader.leader region = Some leader → forced_leader r = false → (0 < attempt)%nat →
  List.find (λ q, negb (Peer.is_witness q) && (Peer.store_id q =? Peer.store_id p))
    (Region.peers (RegionWithLeader.region region)) = Some p →
  let r' := apply_action t err (APinStore (RegionWithLeader.id region) (Peer.store_id p)) r in
  target_peer <$> ok (select_peer r' now region attempt) = Some p ∧
  pinned_peer (apply_action t err (AClearPinnedStore (RegionWithLeader.id region)) r') region = None.
Proof.
  intros El Ef Ha Hf. cbv zeta. split.
  - unfold select_peer, select_peer_inner. rewrite El. cbn [ok_or mbind result_bind andb].
    change (forced_leader (apply_action _ _ _ r)) with (forced_leader r). rewrite Ef.
    destruct attempt; [lia|]. cbn [Nat.ltb Nat.leb andb].
    assert (pinned_peer (apply_action t err (APinStore (RegionWithLeader.id region) (Peer.store_id p)) r) region = Some p) as ->.
    { unfold pinned_peer. cbn. rewrite lookup_insert_eq. exact Hf. }
    done.
  - unfold pinned_peer. cbn. by rewrite lookup_delete_eq.
Qed.

(** A penalty lasts at least as long as asked, never shortens an earlier one, and is only for its store. *)
Lemma mark_slow_for_spec h store_id duration_ms now s t :
  let h' := StoreHealth.mark_slow_for store_id duration_ms now h in
  (StoreHealth.is_slow h s t = true → StoreHealth.is_slow h' s t = true) ∧
  (t < sat_add_i64 now (default i64_max (try_i64 duration_ms)) → StoreHealth.is_slow h' store_id t = true) ∧
  (s ≠ store_id → StoreHealth.is_slow h' s t = StoreHealth.is_slow h s t).
Proof.
  cbv zeta. unfold StoreHealth.is_slow, StoreHealth.mark_slow_for.
  generalize (sat_add_i64 now (default i64_max (try_i64 duration_ms))). intros x. split_and!.
  - destruct (decide (s = store_id)) as [->|]; [|by rewrite lookup_insert_ne].
    rewrite lookup_insert_eq. destruct (h !! store_id) as [e|]; [|done]. cbn. rewrite !Z.ltb_lt. lia.
  - intros Ht. rewrite lookup_insert_eq. cbn. apply Z.ltb_lt. lia.
  - intros Hne. by rewrite lookup_insert_ne.
Qed.
