(* ===== verification/Backoffers.v ===== *)
(** * Backoff budgets (src/src/backoffer.rs)

    A [Backoffer] limits the total time a request may sleep.  Sleeps for a busy server are
    excluded from the budget, with a limit of their own.  Forks share the budget of
    their parent and can be cancelled; contexts form a tree in a shared heap.

    Random draws are inputs; [gen_range] on an empty range is a panic, [None].  The hash map
    that accumulates sleeps is iterated in an order that the model takes as a parameter.
    A sum or difference that leaves its width ([u32] for the attempts, [u64] for the rest) is a panic too. *)

From S2P Require Import Prelude Keys Proto Backoffs.

Inductive Jitter := JNo | JFull | JEqual | JDecorr.
Record BackoffFnCfg := mkFnCfg { base_ms : Z; cap_ms : Z; jitter : Jitter }.
Inductive BackoffErrorKind :=
| TiKVServerTimeout | ResolveLockTimeout | RegionUnavailable | RegionNotInitialized
| RegionRecoveryInProgress | TiKVServerBusy | IsWitness.
Definition BackoffErrorKind_to_string (k : BackoffErrorKind) : string :=
  match k with
  | TiKVServerTimeout => "tikv server timeout"
  | ResolveLockTimeout => "resolve lock timeout"
  | RegionUnavailable => "region unavailable"
  | RegionNotInitialized => "region not initialized"
  | RegionRecoveryInProgress => "region recovery in progress"
  | TiKVServerBusy => "tikv server busy"
  | IsWitness => "is witness"
  end.
Inductive BackofferError := BCanceled (message : string) | MaxSleepExceeded (kind : BackoffErrorKind) | BOther (message : string).
Definition error_kind (e : BackofferError) : option BackoffErrorKind :=
  match e with MaxSleepExceeded kind => Some kind | _ => None end.

Record BackoffConfig := mkConfig { cfg_name : string; fn_cfg : BackoffFnCfg; err_kind : BackoffErrorKind }.
Definition TXN_LOCK_FAST_NAME : string := "txnLockFast".
Definition BO_REGION_MISS := mkConfig "regionMiss" (mkFnCfg 2 500 JNo) RegionUnavailable.
Definition BO_TIKV_SERVER_BUSY := mkConfig "tikvServerBusy" (mkFnCfg 2000 10000 JEqual) TiKVServerBusy.
Definition BO_TXN_LOCK_FAST := mkConfig TXN_LOCK_FAST_NAME (mkFnCfg 2 3000 JEqual) ResolveLockTimeout.

(** The value of [TIKV_SERVER_BUSY_EXCLUDED_MAX_MS]; only tests change it. *)
Definition TIKV_SERVER_BUSY_EXCLUDED_MAX_MS : Z := 600000.
Definition excluded_sleep_limit_ms (name : string) : option Z :=
  if String.eqb name (cfg_name BO_TIKV_SERVER_BUSY) then Some TIKV_SERVER_BUSY_EXCLUDED_MAX_MS else None.

(** [+], [+=] and [-] on [u64], with overflow checks. *)
Definition add_u64 (a b : Z) : option Z := if a + b <=? u64_max then Some (a + b) else None.
Definition sub_u64 (a b : Z) : option Z := if b <=? a then Some (a - b) else None.

(** ** [BackoffFnState] *)
Module FnState.
Record t := mk { base_ms : Z; cap_ms : Z; jitter : Jitter; attempts : Z; last_sleep_ms : Z }.
Definition new (base_ms cap_ms : Z) (jitter : Jitter) : t :=
  let base_ms := Z.max base_ms 2 in
  let cap_ms := Z.max cap_ms base_ms in
  mk base_ms cap_ms jitter 0 base_ms.

(** [1u64.checked_shl(attempts)] is [None] from 64 on. *)
Definition expo (base_ms cap_ms attempts : Z) : Z :=
  let mul := if attempts <? 64 then Z.shiftl 1 attempts else u64_max in
  Z.min (sat_mul_u64 base_ms mul) cap_ms.

Definition sleep_ms (s : t) (draw : Z) : option Z :=
  match jitter s with
  | JNo => Some (expo (base_ms s) (cap_ms s) (attempts s))
  | JFull => gen_range draw (expo (base_ms s) (cap_ms s) (attempts s))
  | JEqual =>
      let half := expo (base_ms s) (cap_ms s) (attempts s) / 2 in
      (λ d, half + d) <$> gen_range draw half
  | JDecorr =>
      let upper_exclusive := Z.max (sat_sub_u64 (sat_mul_u64 (last_sleep_ms s) 3) (base_ms s)) 1 in
      d ← gen_range draw upper_exclusive;
      v ← add_u64 (base_ms s) d;
      Some (Z.min v (cap_ms s))
  end.

Definition backoff_ms (s : t) (max_sleep_ms : option Z) (draw : Z) : option (Z * t) :=
  sleep ← sleep_ms s draw;
  let real_sleep_ms := match max_sleep_ms with Some max => Z.min sleep max | None => sleep end in
  if attempts s =? u32_max then None
  else Some (real_sleep_ms, mk (base_ms s) (cap_ms s) (jitter s) (attempts s + 1) sleep).
End FnState.

(** ** Contexts *)

(** The heap of [BackoffContextInner]s: the parent and whether it is cancelled.  A context is
    its address; a child is allocated after its parent. *)
Abbreviation Contexts := (list (option nat * bool)).
Definition context_new (h : Contexts) : nat * Contexts := (length h, h ++ [(None, false)]).
Definition cancel (ctx : nat) (h : Contexts) : Contexts := alter (λ c : option nat * bool, (c.1, true)) ctx h.

(** The loops over the chain of parents; a chain from [ctx] has at most [ctx] more links. *)
Fixpoint canceled_loop (fuel : nat) (h : Contexts) (cursor : option nat) : bool :=
  match fuel, cursor with
  | S fuel, Some ctx =>
      match (h !! ctx : option (option nat * bool)) with
      | Some (parent, canceled) => if canceled then true else canceled_loop fuel h parent
      | None => false
      end
  | _, _ => false
  end.
Definition is_canceled (h : Contexts) (ctx : nat) : bool := canceled_loop (S ctx) h (Some ctx).

(** ** [Backoffer] *)
Record Vars := mkVars { backoff_lock_fast_ms : Z; backoff_weight : Z }.
Definition Vars_default : Vars := mkVars 10 2.
Record Backoffer := mkBackoffer {
  ctx : nat; max_sleep_ms : Z; total_sleep_ms : Z; excluded_sleep_ms : Z; vars : Vars; noop : bool;
  errors : list string; configs : list BackoffConfig;
  backoff_sleep_ms : gmap string Z; backoff_times : gmap string Z; fns : gmap string FnState.t
}.
Definition new_with_vars (ctx : nat) (max_sleep_ms : Z) (vars : option Vars) : Backoffer :=
  let vars := default Vars_default vars in
  mkBackoffer ctx (sat_mul_u64 max_sleep_ms (backoff_weight vars)) 0 0 vars false [] [] ∅ ∅ ∅.
Definition Backoffer_new (ctx : nat) (max_sleep_ms : Z) : Backoffer := new_with_vars ctx max_sleep_ms None.
Definition new_noop (ctx : nat) : Backoffer := mkBackoffer ctx 0 0 0 Vars_default true [] [] ∅ ∅ ∅.

Section backoffer.
(** The iteration order of the hash map. *)
Context (order : gmap string Z → list (string * Z)).

Definition longest_candidate (entries : list (string * Z)) : option (string * Z) :=
  foldl (λ candidate e,
    if bool_decide (is_Some (excluded_sleep_limit_ms e.1)) then candidate
    else match candidate with
         | Some best => if best.2 <? e.2 then Some e else candidate
         | None => Some e
         end) None entries.
Definition longest_sleep_cfg (b : Backoffer) : option (BackoffConfig * Z) :=
  '(candidate_name, sleep_ms) ← longest_candidate (order (backoff_sleep_ms b));
  cfg ← List.find (λ cfg, String.eqb (cfg_name cfg) candidate_name) (configs b);
  Some (cfg, sleep_ms).

(** The entry of [fns] for a configuration. *)
Definition fn_state (b : Backoffer) (cfg : BackoffConfig) : FnState.t :=
  let base := if String.eqb (cfg_name cfg) TXN_LOCK_FAST_NAME then backoff_lock_fast_ms (vars b)
              else base_ms (fn_cfg cfg) in
  default (FnState.new base (cap_ms (fn_cfg cfg)) (jitter (fn_cfg cfg))) (fns b !! cfg_name cfg).

(** [self.max_sleep_ms > 0 && (total - excluded) >= self.max_sleep_ms] *)
Definition max_backoff_time_exceeded (b : Backoffer) : option bool :=
  if 0 <? max_sleep_ms b then
    counted ← sub_u64 (total_sleep_ms b) (excluded_sleep_ms b);
    Some (max_sleep_ms b <=? counted)
  else Some false.
Definition max_excluded_time_exceeded (b : Backoffer) (cfg : BackoffConfig) : bool :=
  match excluded_sleep_limit_ms (cfg_name cfg) with
  | Some max_limit => (max_limit <=? excluded_sleep_ms b) && (max_sleep_ms b <=? excluded_sleep_ms b)
  | None => false
  end.

(** [None] is a panic. *)
Definition backoff_with_cfg_and_max_sleep (h : Contexts) (b : Backoffer) (cfg : BackoffConfig)
    (max_sleep : option Z) (err_message : string) (draw : Z) : option (result BackofferError unit * Backoffer) :=
  if is_canceled h (ctx b) then Some (Err (BCanceled err_message), b)
  else if noop b then Some (Err (BOther err_message), b)
  else
    max_backoff_time_exceeded ← max_backoff_time_exceeded b;
    if (0 <? max_sleep_ms b) && (max_backoff_time_exceeded || max_excluded_time_exceeded b cfg) then
      Some (match longest_sleep_cfg b with
            | Some (cfg, _) => Err (MaxSleepExceeded (err_kind cfg))
            | None => Err (BOther err_message)
            end, b)
    else
      '(real_sleep_ms, state) ← FnState.backoff_ms (fn_state b cfg) max_sleep draw;
      total ← add_u64 (total_sleep_ms b) real_sleep_ms;
      excluded ← (if bool_decide (is_Some (excluded_sleep_limit_ms (cfg_name cfg)))
                  then add_u64 (excluded_sleep_ms b) real_sleep_ms else Some (excluded_sleep_ms b));
      sleep_of_cfg ← add_u64 (default 0 (backoff_sleep_ms b !! cfg_name cfg)) real_sleep_ms;
      times_of_cfg ← add_u64 (default 0 (backoff_times b !! cfg_name cfg)) 1;
      Some (Ok (), mkBackoffer (ctx b) (max_sleep_ms b) total excluded (vars b) (noop b) (errors b ++ [err_message]) (configs b ++ [cfg])
        (<[cfg_name cfg := sleep_of_cfg]> (backoff_sleep_ms b))
        (<[cfg_name cfg := times_of_cfg]> (backoff_times b))
        (<[cfg_name cfg := state]> (fns b))).

Definition backoff (h : Contexts) (b : Backoffer) (cfg : BackoffConfig) (err_message : string) (draw : Z) := backoff_with_cfg_and_max_sleep h b cfg None err_message draw.
Definition backoff_with_max_sleep_txn_lock_fast (h : Contexts) (b : Backoffer) (max_sleep : Z) (err_message : string) (draw : Z) :=
  backoff_with_cfg_and_max_sleep h b BO_TXN_LOCK_FAST (Some max_sleep) err_message draw.

Definition is_fake_region_error (err : RegionError.t) : bool :=
  match RegionError.epoch_not_match err with
  | Some enm => is_empty (EpochNotMatch.current_regions enm)
  | None => false
  end.
(** [message] is the error printed. *)
Definition may_backoff_for_region_error (h : Contexts) (err : RegionError.t) (b : Backoffer) (message : string) (draw : Z) :=
  if negb (match RegionError.epoch_not_match err with Some _ => true | None => false end) || is_fake_region_error err
  then backoff h b BO_REGION_MISS message draw
  else Some (Ok (), b).
End backoffer.

(** ** The budget *)









(** The backoffers of one request, with the sleeps that led to each of them: its own and those of the backoffer it was cloned or forked
    from; after a merge, those of the fork instead. *)
Section reach.
Context (order : gmap string Z → list (string * Z)) (v : Vars) (limit : Z).
#[local] Abbreviation max := (sat_mul_u64 limit (backoff_weight v)).



Hypothesis lock_fast_u64 : 0 ≤ backoff_lock_fast_ms v.





End reach.


