(* ===== verification/Tso.v ===== *)
(** * The timestamp oracle (src/src/pd/timestamp.rs)

    Callers put requests into a bounded channel.  [TsoRequestStream::poll_next] takes up to
    [MAX_BATCH_SIZE] of them, queues them as a group and yields one [TsoRequest] with their
    number; [run_tso] pairs each response of PD with the oldest group and hands the timestamps
    out.  A request is its number, [sent] and [delivered] record what callers see.

    The queue has a mutex.  [run_tso] holds it from the moment it has a response until the group is answered; a poll of
    the stream that meets it returns pending, and otherwise runs under it as one step.  The wake-ups of the stream are
    in the module [Wakers]. *)

From Stdlib Require Import Sorted.
From S2P Require Import Prelude Keys Proto Errors Timestamps.

Definition MAX_BATCH_SIZE : nat := 64.
Definition MAX_PENDING_COUNT : Z := Z.shiftl 1 16.

Record RequestHeader := mkHeader { cluster_id : Z; sender_id : Z; caller_id : string; caller_component : string }.
Record TsoRequest := mkTsoRequest { header : option RequestHeader; count : Z; dc_location : string }.
Record TsoResponse := mkTsoResponse { resp_count : Z; timestamp : option Timestamp.t }.
Record RequestGroup := mkGroup { tso_request : TsoRequest; requests : list nat }.

(** ** Sending *)

Inductive Poll (A : Type) := Ready (a : A) | Pending.
Arguments Ready {A} _.
Arguments Pending {A}.

(** The channel as one poll sees it: [available] messages can be received now; [closed] says
    that all senders are gone. *)
Definition poll_recv (available : list nat) (closed : bool) : Poll (option nat) * list nat :=
  match available with
  | sender :: rest => (Ready (Some sender), rest)
  | [] => (if closed then Ready None else Pending, [])
  end.

(** The loop of [poll_next]: [None] is the early return [Poll::Ready(None)]. *)
Fixpoint poll_loop (fuel : nat) (npending : nat) (available : list nat) (closed : bool) (requests : list nat) :
    option (list nat * list nat) :=
  match fuel with
  | O => Some (requests, available)
  | S fuel =>
      if (length requests <? MAX_BATCH_SIZE)%nat && (Z.of_nat npending <? MAX_PENDING_COUNT) then
        match poll_recv available closed with
        | (Ready (Some sender), rest) => poll_loop fuel npending rest closed (requests ++ [sender])
        | (Ready None, rest) => if is_empty requests then None else Some (requests, rest)
        | (Pending, rest) => Some (requests, rest)
        end
      else Some (requests, available)
  end.

Definition new_tso_request (cluster : Z) (requests : list nat) : TsoRequest :=
  mkTsoRequest (Some (mkHeader cluster 0 "" "")) (wrap_u32 (Z.of_nat (length requests))) "".

(** [poll_next]: what it yields, the queue, the channel.  [locked] says that the lock of the queue is not free. *)
Definition poll_next (cluster : Z) (locked : bool) (pending_requests : list RequestGroup) (available : list nat) (closed : bool) :
    Poll (option TsoRequest) * list RequestGroup * list nat :=
  if locked then (Pending, pending_requests, available) else
  match poll_loop (S MAX_BATCH_SIZE) (length pending_requests) available closed [] with
  | None => (Ready None, pending_requests, available)
  | Some (requests, rest) =>
      if negb (is_empty requests) then
        let req := new_tso_request cluster requests in
        (Ready (Some req), pending_requests ++ [mkGroup req requests], rest)
      else (Pending, pending_requests, rest)
  end.

(** ** Receiving *)

(** The loop that answers a group; [None] is an underflow of [offset]. *)
Fixpoint send_timestamps (tail_ts : Timestamp.t) (offset : Z) (requests : list nat) :
    option (list (nat * Timestamp.t)) :=
  match requests with
  | [] => Some []
  | request :: rest =>
      if offset =? 0 then None
      else
        let offset := offset - 1 in
        let ts := Timestamp.mk (Timestamp.physical tail_ts) (Timestamp.logical tail_ts - offset)
                    (Timestamp.suffix_bits tail_ts) in
        cons (request, ts) <$> send_timestamps tail_ts offset rest
  end.

(** The error or the answers, and the queue; [None] is a panic. *)
Definition allocate_timestamps (resp : TsoResponse) (pending_requests : list RequestGroup) :
    option (Result (list (nat * Timestamp.t)) * list RequestGroup) :=
  match timestamp resp with
  | None => Some (Err (InternalError "No timestamp in TsoResponse"), pending_requests)
  | Some tail_ts =>
      let offset := resp_count resp in
      match pending_requests with
      | [] => Some (Err (InternalError "PD gives more TsoResponse than expected"), [])
      | group :: rest =>
          if negb (count (tso_request group) =? offset) then
            Some (Err (InternalError "PD gives different number of timestamps than expected"), rest)
          else
            answers ← send_timestamps tail_ts offset (requests group);
            Some (Ok answers, rest)
      end
  end.

(** ** The oracle *)

(** [connection] is the outcome of [pd_client.tso(..)], once there is one; [handling] is the response for which [run_tso] holds
    the lock of the queue. *)
Record Oracle := mkOracle {
  sent : list nat;
  request_rx : list nat;
  closed : bool;
  pending_requests : list RequestGroup;
  wire : list TsoRequest;
  connection : option (Result unit);
  handling : option TsoResponse;
  delivered : list (nat * Timestamp.t);
  ended : option (Result unit)
}.
Definition oracle_new : Oracle := mkOracle [] [] false [] [] None None [] None.

(** [get_timestamp]: the channel holds [MAX_BATCH_SIZE] messages; a full channel makes the
    caller wait, an oracle that ended refuses. *)
Definition get_timestamp (request : nat) (o : Oracle) : option (Result unit * Oracle) :=
  match ended o with
  | Some _ => Some (Err (InternalError "TimestampRequest channel is closed"), o)
  | None =>
      if (length (request_rx o) <? MAX_BATCH_SIZE)%nat then
        Some (Ok (), mkOracle (sent o ++ [request]) (request_rx o ++ [request]) (closed o) (pending_requests o) (wire o)
          (connection o) (handling o) (delivered o) (ended o))
      else None
  end.

Definition is_handling (o : Oracle) : bool := match handling o with Some _ => true | None => false end.

(** One poll of the stream, which sees the first [budget] messages of the channel. *)
Definition stream_step (cluster : Z) (budget : nat) (o : Oracle) : Oracle :=
  let all := (length (request_rx o) <=? budget)%nat in
  let '(p, pending, rest) :=
    poll_next cluster (is_handling o) (pending_requests o) (take budget (request_rx o)) (closed o && all) in
  mkOracle (sent o) (rest ++ drop budget (request_rx o)) (closed o) pending
    (wire o ++ match p with Ready (Some req) => [req] | _ => [] end) (connection o) (handling o) (delivered o) (ended o).

(** [pd_client.tso(request_stream).await?]: the stream may be polled before it returns. *)
Definition run_tso_connect (r : Result unit) (o : Oracle) : Oracle :=
  mkOracle (sent o) (request_rx o) (closed o) (pending_requests o) (wire o) (Some r) (handling o) (delivered o)
    match r with Ok _ => ended o | Err e => Some (Err e) end.

(** The loop of [run_tso] gets the next item of the stream of responses: a response, for which it takes the lock, or the end or
    an error of the stream. *)
Definition run_tso_next (resp : option TsoResponse) (o : Oracle) : Oracle :=
  match resp with
  | Some resp =>
      mkOracle (sent o) (request_rx o) (closed o) (pending_requests o) (wire o) (connection o) (Some resp) (delivered o) (ended o)
  | None =>
      mkOracle (sent o) (request_rx o) (closed o) (pending_requests o) (wire o) (connection o) (handling o) (delivered o) (Some (Ok ()))
  end.

(** It answers the oldest group and gives the lock back; the end of the oracle drops the senders of all callers. *)
Definition run_tso_step (o : Oracle) : option Oracle :=
  resp ← handling o;
  '(r, pending) ← allocate_timestamps resp (pending_requests o);
  Some match r with
       | Ok answers =>
           mkOracle (sent o) (request_rx o) (closed o) pending (tail (wire o)) (connection o) None (delivered o ++ answers) (ended o)
       | Err e => mkOracle (sent o) (request_rx o) (closed o) pending (wire o) (connection o) None (delivered o) (Some (Err e))
       end.

(** ** What PD promises *)

(** PD answers the requests in order; an answer with tail [(physical, logical)] and count [n]
    allocates the [n] timestamps up to the tail, all later than what it allocated before. *)
Definition first_of (ts : Timestamp.t) (n : Z) : Timestamp.t :=
  Timestamp.mk (Timestamp.physical ts) (Timestamp.logical ts - n + 1) (Timestamp.suffix_bits ts).
Definition ts_valid (ts : Timestamp.t) : Prop :=
  0 ≤ Timestamp.physical ts < Z.pow 2 45 ∧ 0 ≤ Timestamp.logical ts < Z.pow 2 18.
Definition pd_answers (o : Oracle) (resp : TsoResponse) : Prop :=
  match wire o, timestamp resp with
  | req :: _, Some ts =>
      resp_count resp = count req ∧ ts_valid ts ∧ ts_valid (first_of ts (resp_count resp)) ∧
      match last (delivered o) with
      | Some x => Timestamp.version x.2 < Timestamp.version (first_of ts (resp_count resp))
      | None => True
      end
  | _, _ => False
  end.

(** The executions: callers, the connection, polls of the stream and answers of PD in any order. *)
Inductive reach (cluster : Z) : Oracle → Prop :=
| reach_new : reach cluster oracle_new
| reach_get o request o' : reach cluster o → closed o = false → get_timestamp request o = Some (Ok (), o') → reach cluster o'
| reach_close o : reach cluster o →
    reach cluster (mkOracle (sent o) (request_rx o) true (pending_requests o) (wire o) (connection o) (handling o) (delivered o) (ended o))
| reach_poll o budget : reach cluster o → ended o = None → reach cluster (stream_step cluster budget o)
| reach_connect o r : reach cluster o → ended o = None → connection o = None → reach cluster (run_tso_connect r o)
| reach_next o resp : reach cluster o → ended o = None → connection o = Some (Ok ()) → handling o = None →
    match resp with Some resp => pd_answers o resp | None => True end → reach cluster (run_tso_next resp o)
| reach_response o o' : reach cluster o → ended o = None → run_tso_step o = Some o' → reach cluster o'.

(** ** Lemmas *)

Lemma version_valid ts : ts_valid ts →
  Timestamp.version ts = Timestamp.physical ts * 262144 + Timestamp.logical ts.
Proof.
  intros [Hp Hl]. unfold Timestamp.version. rewrite shiftl18. unfold try_u64, u64_max.
  change (2 ^ 45) with 35184372088832 in Hp. change (2 ^ 18) with 262144 in Hl.
  destruct (Z.leb_spec 0 (Timestamp.physical ts * 262144 + Timestamp.logical ts)); [|lia].
  destruct (Z.leb_spec (Timestamp.physical ts * 262144 + Timestamp.logical ts) 18446744073709551615); [done | lia].
Qed.

(** The loop takes a prefix of the channel, at most a batch. *)
Lemma poll_loop_spec fuel npending available closed requests :
  (MAX_BATCH_SIZE < length requests + fuel)%nat → (length requests ≤ MAX_BATCH_SIZE)%nat →
  match poll_loop fuel npending available closed requests with
  | None => requests = [] ∧ available = [] ∧ closed = true ∧ Z.of_nat npending < MAX_PENDING_COUNT
  | Some (rs, rest) => ∃ taken, rs = requests ++ taken ∧ available = taken ++ rest ∧
      (length rs ≤ MAX_BATCH_SIZE)%nat ∧
      (taken = [] → available = [] ∨ (MAX_BATCH_SIZE ≤ length requests)%nat ∨ MAX_PENDING_COUNT ≤ Z.of_nat npending) ∧
      (taken ≠ [] → Z.of_nat npending < MAX_PENDING_COUNT)
  end.
Proof.
  revert available requests. induction fuel as [|fuel IH]; intros available requests Hf Hl; [lia|].
  cbn [poll_loop]. destruct (Nat.ltb_spec (length requests) MAX_BATCH_SIZE) as [Hlt|Hge]; cbn [andb].
  2: { exists []. rewrite app_nil_r. split_and!; auto. done. }
  destruct (Z.ltb_spec (Z.of_nat npending) MAX_PENDING_COUNT) as [Hn|Hn].
  2: { exists []. rewrite app_nil_r. split_and!; auto. done. }
  destruct available as [|x available]; cbn [poll_recv].
  - destruct closed.
    + destruct requests; [done|]. exists []. rewrite app_nil_r. split_and!; auto.
    + exists []. rewrite app_nil_r. split_and!; auto.
  - specialize (IH available (requests ++ [x])). rewrite length_app in IH. cbn [length] in IH.
    specialize (IH ltac:(lia) ltac:(lia)).
    destruct (poll_loop fuel npending available closed (requests ++ [x])) as [[rs rest]|].
    + destruct IH as (taken & -> & -> & Hrs & _ & _). exists (x :: taken). rewrite <- !app_assoc in *.
      split_and!; [done..|by intros [=] | done].
    + destruct IH as (E & _). by destruct requests.
Qed.

(** A poll that yields a request has queued the group of the messages it took; any other poll
    changes nothing, and the queue stays within its limit. *)
Lemma poll_next_spec cluster locked pending available closed :
  let '(p, pending', rest) := poll_next cluster locked pending available closed in
  match p with
  | Ready (Some req) => ∃ requests, req = new_tso_request cluster requests ∧ available = requests ++ rest ∧
      (0 < length requests ≤ MAX_BATCH_SIZE)%nat ∧ pending' = pending ++ [mkGroup req requests] ∧
      Z.of_nat (length pending) < MAX_PENDING_COUNT ∧ locked = false
  | _ => pending' = pending ∧ rest = available ∧
      (available = [] ∨ MAX_PENDING_COUNT ≤ Z.of_nat (length pending) ∨ locked = true)
  end.
Proof.
  unfold poll_next. destruct locked; [by auto|].
  pose proof (poll_loop_spec (S MAX_BATCH_SIZE) (length pending) available closed []) as H.
  cbn [length] in H. specialize (H ltac:(lia) ltac:(lia)).
  destruct (poll_loop _ _ _ _ _) as [[rs rest]|]; [|by destruct H as (_ & -> & _); auto].
  destruct H as (taken & -> & -> & Hl & He & Hne). cbn [app] in *.
  destruct taken as [|x taken]; cbn [is_empty negb].
  - split; [done|]. split; [done|]. destruct (He eq_refl) as [?|[?|?]]; auto. unfold MAX_BATCH_SIZE in *. lia.
  - exists (x :: taken). split_and!; auto; cbn; lia.
Qed.

Lemma send_timestamps_spec tail_ts requests : ∃ answers,
  send_timestamps tail_ts (Z.of_nat (length requests)) requests = Some answers ∧ answers.*1 = requests ∧
  Forall (λ x, Timestamp.physical x.2 = Timestamp.physical tail_ts ∧
    Timestamp.logical tail_ts - Z.of_nat (length requests) + 1 ≤ Timestamp.logical x.2 ≤ Timestamp.logical tail_ts) answers ∧
  StronglySorted (λ a b, Timestamp.physical a.2 = Timestamp.physical b.2 ∧ Timestamp.logical a.2 < Timestamp.logical b.2) answers.
Proof.
  induction requests as [|r rest (answers & E & H1 & Hf & Hs)]; [exists []; repeat constructor|].
  cbn [send_timestamps length]. destruct (Z.eqb_spec (Z.of_nat (S (length rest))) 0); [lia|].
  replace (Z.of_nat (S (length rest)) - 1) with (Z.of_nat (length rest)) by lia. rewrite E.
  eexists. split; [done|]. split; [by cbn; rewrite H1|]. split.
  - constructor; [cbn; lia|]. eapply Forall_impl; [exact Hf|]. cbn. intros x ?. lia.
  - constructor; [done|]. eapply Forall_impl; [exact Hf|]. cbn. intros x ?. lia.
Qed.

Lemma StronglySorted_app_last {A} (R : A → A → Prop) `{!Transitive R} (l k : list A) :
  StronglySorted R l → StronglySorted R k →
  (∀ x, last l = Some x → Forall (R x) k) → StronglySorted R (l ++ k).
Proof.
  intros Hl Hk Hlk. induction Hl as [|x l Hl IH Hx]; [done|]. cbn. constructor.
  - apply IH. intros y Hy. apply Hlk. destruct l; [done|]. done.
  - apply Forall_app. split; [done|]. destruct (last l) as [y|] eqn:E.
    + assert (R x y) as Hxy. { rewrite Forall_forall in Hx. apply Hx. apply last_Some_elem_of in E. done. }
      assert (Forall (R y) k) as Hy. { apply Hlk. destruct l; [done|]. done. }
      eapply Forall_impl; [exact Hy|]. intros z. by apply transitivity.
    + apply last_None in E as ->. by apply Hlk.
Qed.

Definition earlier (a b : nat * Timestamp.t) : Prop := Timestamp.version a.2 < Timestamp.version b.2.
#[export] Instance earlier_trans : Transitive earlier.
Proof. unfold earlier. intros a b c. lia. Qed.

Definition group_ok (cluster : Z) (g : RequestGroup) : Prop :=
  tso_request g = new_tso_request cluster (requests g) ∧ (0 < length (requests g) ≤ MAX_BATCH_SIZE)%nat.

Lemma group_count cluster g : group_ok cluster g → count (tso_request g) = Z.of_nat (length (requests g)).
Proof.
  intros [-> H]. cbn. unfold wrap_u32, MAX_BATCH_SIZE in *. apply Z.mod_small. lia.
Qed.

Record oracle_ok (cluster : Z) (o : Oracle) : Prop := {
  ok_fifo : sent o = (delivered o).*1 ++ concat (requests <$> pending_requests o) ++ request_rx o;
  ok_wire : wire o = tso_request <$> pending_requests o;
  ok_groups : Forall (group_ok cluster) (pending_requests o);
  ok_pending : Z.of_nat (length (pending_requests o)) ≤ MAX_PENDING_COUNT;
  ok_rx : (length (request_rx o) ≤ MAX_BATCH_SIZE)%nat;
  ok_sorted : StronglySorted earlier (delivered o);
  ok_handling : ∀ resp, handling o = Some resp → pd_answers o resp;
  ok_ended : ∀ e, ended o = Some (Err e) → connection o = Some (Err e)
}.

(** A response of PD is accepted and answers the oldest group. *)
Lemma response_accepted cluster o resp : oracle_ok cluster o → ended o = None → handling o = Some resp →
  ∃ o' group rest, run_tso_step o = Some o' ∧ oracle_ok cluster o' ∧
    pending_requests o = group :: rest ∧ pending_requests o' = rest ∧ ended o' = None ∧ handling o' = None ∧
    (delivered o').*1 = (delivered o).*1 ++ requests group.
Proof.
  intros HI He Hh. pose proof (ok_handling _ _ HI resp Hh) as Hpd. revert Hpd.
  unfold pd_answers. destruct (wire o) as [|req wire'] eqn:Ew; [done|].
  destruct (timestamp resp) as [ts|] eqn:Et; [|done]. intros (Ec & Hv & Hv1 & Hlast).
  destruct HI as [Hfifo Hwire Hg Hpend Hrx Hs _ Hend]. rewrite Hwire in Ew.
  destruct (pending_requests o) as [|group rest] eqn:Ep; [done|]. cbn in Ew. injection Ew as Er Ew.
  apply Forall_cons in Hg as [Hg Hgs]. pose proof (group_count cluster group Hg) as Hcount.
  destruct (send_timestamps_spec ts (requests group)) as (answers & Es & H1 & Hf & Hss).
  unfold run_tso_step. rewrite Hh. cbn [mbind option_bind].
  unfold allocate_timestamps. rewrite Et, Ep. subst req. rewrite Ec, Z.eqb_refl. cbn [negb]. rewrite Hcount, Es.
  cbn [mbind option_bind]. do 3 eexists. split; [done|]. split; [|split_and!; try done; cbn; by rewrite fmap_app, H1].
  assert (Forall (λ x, ts_valid x.2) answers) as Hav.
  { eapply Forall_impl; [exact Hf|]. intros x [Hp Hl]. unfold ts_valid, first_of in *. cbn in Hv1.
    rewrite Ec, Hcount in Hv1. rewrite Hp. lia. }
  split; cbn; auto.
  - rewrite Hfifo. cbn. by rewrite fmap_app, H1, <- !app_assoc.
  - by rewrite Hwire.
  - cbn in Hpend. lia.
  - apply StronglySorted_app_last; [apply _ | done | |].
    + clear -Hss Hav. induction Hss as [|x l Hs IH Hx]; [constructor|].
      apply Forall_cons in Hav as [Hvx Hav]. constructor; [by apply IH|].
      rewrite Forall_forall in Hx |- *. rewrite Forall_forall in Hav. intros y Hy. unfold earlier.
      rewrite !version_valid by auto. destruct (Hx y Hy). lia.
    + intros x Hx. rewrite Hx in Hlast. rewrite Forall_forall in Hf |- *. rewrite Forall_forall in Hav.
      intros y Hy. unfold earlier. eapply Z.lt_le_trans; [exact Hlast|].
      rewrite !version_valid by auto. destruct (Hf y Hy) as [Hp Hl]. unfold first_of. cbn. rewrite Hp, Ec, Hcount. lia.
  - done.
Qed.

(** A poll keeps the order of the requests and the limits. *)
Lemma stream_step_ok cluster budget o : oracle_ok cluster o →
  oracle_ok cluster (stream_step cluster budget o) ∧
  (request_rx o ≠ [] → Z.of_nat (length (pending_requests o)) < MAX_PENDING_COUNT → (0 < budget)%nat → handling o = None →
   length (wire (stream_step cluster budget o)) = S (length (wire o))).
Proof.
  intros [Hfifo Hwire Hg Hpend Hrx Hs Hh Hend]. unfold stream_step.
  pose proof (poll_next_spec cluster (is_handling o) (pending_requests o) (take budget (request_rx o))
    (closed o && (length (request_rx o) <=? budget)%nat)) as H.
  destruct (poll_next _ _ _ _ _) as [[p pending'] rest].
  assert (∀ taken, take budget (request_rx o) = taken ++ rest →
    request_rx o = taken ++ rest ++ drop budget (request_rx o)) as Hrx'.
  { intros taken Ht. rewrite app_assoc, <- Ht. by rewrite take_drop. }
  assert (∀ P : Prop, take budget (request_rx o) = [] ∨ MAX_PENDING_COUNT ≤ Z.of_nat (length (pending_requests o)) ∨ is_handling o = true →
    request_rx o ≠ [] → Z.of_nat (length (pending_requests o)) < MAX_PENDING_COUNT → (0 < budget)%nat → handling o = None → P) as Hsends.
  { intros P [E|[?|E]] Hne Hlt Hb Hn; [|lia|unfold is_handling in E; by rewrite Hn in E].
    destruct (request_rx o); [done|]. by destruct budget; [lia|]. }
  destruct p as [[req|]|].
  - destruct H as (rs & Er & Et & Hl & -> & Hlt & Hfree). specialize (Hrx' rs Et). split.
    + split; cbn; auto.
      * rewrite Hfifo, Hrx' at 1. rewrite fmap_app, concat_app. cbn. by rewrite app_nil_r, <- !app_assoc.
      * by rewrite Hwire, fmap_app.
      * apply Forall_app. split; [done|]. constructor; [|done]. split; [by cbn; subst req | done].
      * rewrite length_app. cbn. lia.
      * apply (f_equal length) in Hrx'. rewrite length_app in Hrx'. lia.
      * intros resp E. unfold is_handling in Hfree. by rewrite E in Hfree.
    + cbn. rewrite length_app. cbn. lia.
  - destruct H as (-> & -> & Hor). rewrite !app_nil_r, take_drop. split; [by split; cbn; auto | intros; by eapply Hsends].
  - destruct H as (-> & -> & Hor). rewrite !app_nil_r, take_drop. split; [by split; cbn; auto | intros; by eapply Hsends].
Qed.

Lemma reach_ok cluster o : reach cluster o → oracle_ok cluster o.
Proof.
  induction 1 as [|o request o' _ IH _ E|o _ IH|o budget _ IH He|o r _ IH He Hc|o resp _ IH He Hc Hh Hpd|o o' _ IH He E].
  - split; cbn; try done; try constructor; unfold MAX_PENDING_COUNT, MAX_BATCH_SIZE; lia.
  - unfold get_timestamp in E. destruct (ended o) eqn:Ee; [by injection E|].
    destruct (Nat.ltb_spec (length (request_rx o)) MAX_BATCH_SIZE); [|done]. injection E as <-.
    destruct IH as [Hfifo Hwire Hg Hpend Hrx Hs Hh Hend]. split; cbn; auto.
    + by rewrite Hfifo, <- !app_assoc.
    + rewrite length_app. cbn. lia.
    + done.
  - destruct IH. by split.
  - by apply stream_step_ok.
  - destruct IH as [Hfifo Hwire Hg Hpend Hrx Hs Hh Hend]. split; cbn; auto. intros e. rewrite He. destruct r; [done|]. by intros [= ->].
  - destruct IH as [Hfifo Hwire Hg Hpend Hrx Hs Hh' Hend]. destruct resp as [resp|]; split; cbn; auto; [|done].
    intros resp' [= <-]. exact Hpd.
  - unfold run_tso_step in E. destruct (handling o) as [resp|] eqn:Eh; [|done].
    destruct (response_accepted cluster o resp IH He Eh) as (o1 & g & rest & E1 & Ho & _).
    unfold run_tso_step in E1. rewrite Eh in E1. congruence.
Qed.

(** C25: the timestamp oracle hands out distinct, increasing timestamps in the order of the requests.
    Let callers, the connection to PD, polls of the request stream and responses of PD interleave in any way, where PD answers
    requests in order, with the number of timestamps asked for, all later than those before ([pd_answers]).  Then the
    requests accepted so far are, in order, those answered, those in flight (grouped as PD was told) and those in the channel: none
    is lost, answered twice or overtaken.  The timestamps delivered are strictly increasing, and the queue and the
    channel respect their limits.  The oracle ends with an error only when the connection to PD failed, and with that error.  A
    response that [run_tso] has taken the lock for is accepted and answers exactly the oldest group.  A poll of the stream with
    requests in the channel and room in the queue sends a request, unless it finds the lock taken: then it changes nothing. *)
Theorem tso_correct cluster o : reach cluster o →
  sent o = (delivered o).*1 ++ concat (requests <$> pending_requests o) ++ request_rx o ∧
  StronglySorted earlier (delivered o) ∧
  (Z.of_nat (length (pending_requests o)) ≤ MAX_PENDING_COUNT ∧ (length (request_rx o) ≤ MAX_BATCH_SIZE)%nat) ∧
  (∀ e, ended o = Some (Err e) → connection o = Some (Err e)) ∧
  (∀ resp, ended o = None → handling o = Some resp → ∃ o' group rest, run_tso_step o = Some o' ∧
     pending_requests o = group :: rest ∧ pending_requests o' = rest ∧ ended o' = None ∧ handling o' = None ∧
     (delivered o').*1 = (delivered o).*1 ++ requests group) ∧
  (∀ budget, if is_handling o then stream_step cluster budget o = o
     else request_rx o ≠ [] → Z.of_nat (length (pending_requests o)) < MAX_PENDING_COUNT → (0 < budget)%nat →
       length (wire (stream_step cluster budget o)) = S (length (wire o))).
Proof.
  intros Hr. pose proof (reach_ok cluster o Hr) as HI. split_and!; try apply HI.
  - intros resp He Hh. destruct (response_accepted cluster o resp HI He Hh) as (o' & g & rest & ? & _ & ? & ? & ? & ? & ?).
    by exists o', g, rest.
  - intros budget. destruct (is_handling o) eqn:El.
    + unfold stream_step. rewrite El. cbn. rewrite take_drop, app_nil_r. by destruct o.
    + intros. apply stream_step_ok; try done. unfold is_handling in El. by destruct (handling o).
Qed.

(** Two callers share a request, sent while the connection is made; PD answers with the tail of two timestamps, and a poll meets
    the lock. *)
Lemma tso_correct_witness :
  let o1 := mkOracle [7; 8]%nat [7; 8]%nat false [] [] None None [] None in
  let o2 := run_tso_connect (Ok ()) (stream_step 1 64 o1) in
  let o3 := stream_step 1 64 (run_tso_next (Some (mkTsoResponse 2 (Some (Timestamp.mk 100 5 0)))) o2) in
  let o4 := default o3 (run_tso_step o3) in
  reach 1 o4 ∧ delivered o4 = [(7%nat, Timestamp.mk 100 4 0); (8%nat, Timestamp.mk 100 5 0)] ∧
  sent o4 = (delivered o4).*1 ++ concat (requests <$> pending_requests o4) ++ request_rx o4.
Proof.
  intros o1 o2 o3 o4.
  assert (reach 1 o4) as Hr.
  { apply (reach_response 1 o3 o4); [|reflexivity..]. apply reach_poll; [|reflexivity].
    apply (reach_next 1 o2 (Some (mkTsoResponse 2 (Some (Timestamp.mk 100 5 0)))));
      [|reflexivity..|vm_compute; repeat split; discriminate].
    apply reach_connect; [|reflexivity..]. apply reach_poll; [|reflexivity].
    apply (reach_get 1 (mkOracle [7]%nat [7]%nat false [] [] None None [] None) 8 o1); [|reflexivity..].
    apply (reach_get 1 oracle_new 7 (mkOracle [7]%nat [7]%nat false [] [] None None [] None)); [apply reach_new | reflexivity..]. }
  split; [exact Hr|]. split; [reflexivity|]. exact (proj1 (tso_correct 1 o4 Hr)).
Defined.

(** A response that PD should not send ends the oracle: nothing is delivered, later callers are refused. *)
Lemma run_tso_rejects o resp o' : handling o = Some resp → run_tso_step o = Some o' →
  match timestamp resp, pending_requests o with
  | Some _, group :: _ => count (tso_request group) ≠ resp_count resp
  | _, _ => True
  end →
  delivered o' = delivered o ∧ (∃ e, ended o' = Some (Err e)) ∧
  ∀ request, get_timestamp request o' = Some (Err (InternalError "TimestampRequest channel is closed"), o').
Proof.
  unfold run_tso_step, allocate_timestamps. intros ->. cbn [mbind option_bind].
  destruct (timestamp resp) as [ts|]; [destruct (pending_requests o) as [|g rest]|].
  - intros [= <-] _. split_and!; eauto.
  - intros E Hne. apply Z.eqb_neq in Hne. rewrite Hne in E. injection E as <-. split_and!; eauto.
  - intros [= <-] _. split_and!; eauto.
Qed.

(** ** Wake-ups *)

(** The wakers of the stream: the channel's, registered by a [poll_recv] that finds it empty, and
    [sending_future_waker].  A poll that does not get the lock gives up and registers only the
    second one, after the attempt; the task of [run_tso] wakes after it released the lock. *)
Module Wakers.
Record t := mk {
  rx : nat; rx_waker : bool; self_waker : bool;
  scheduled : bool; registering : bool;
  lock : bool; inflight : nat; waking : bool
}.
Definition init : t := mk 0 false false true false false 0 false.

(** The part of [poll_next] under the lock; a stream that yields an item is polled again. *)
Definition poll_locked (w : t) : t :=
  if (Z.of_nat (inflight w) <? MAX_PENDING_COUNT) then
    match rx w with
    | O => mk 0 true true false (registering w) (lock w) (inflight w) (waking w)
    | S _ =>
        let drained := (rx w <? MAX_BATCH_SIZE)%nat in
        mk (rx w - MAX_BATCH_SIZE) (drained || rx_waker w) (self_waker w) true (registering w) (lock w) (S (inflight w)) (waking w)
    end
  else mk (rx w) (rx_waker w) true false (registering w) (lock w) (inflight w) (waking w).

Inductive step : t → t → Prop :=
| step_send w : step w (mk (S (rx w)) false (self_waker w) (scheduled w || rx_waker w) (registering w) (lock w) (inflight w) (waking w))
| step_poll w : scheduled w = true → registering w = false → lock w = false → step w (poll_locked w)
| step_poll_contended w : scheduled w = true → registering w = false → lock w = true →
    step w (mk (rx w) (rx_waker w) (self_waker w) false true (lock w) (inflight w) (waking w))
| step_register w : registering w = true →
    step w (mk (rx w) (rx_waker w) true (scheduled w) false (lock w) (inflight w) (waking w))
| step_response w : lock w = false → waking w = false → (0 < inflight w)%nat →
    step w (mk (rx w) (rx_waker w) (self_waker w) (scheduled w) (registering w) true (inflight w) (waking w))
| step_pop w : lock w = true →
    step w (mk (rx w) (rx_waker w) (self_waker w) (scheduled w) (registering w) false (pred (inflight w)) true)
| step_wake w : waking w = true →
    step w (mk (rx w) (rx_waker w) false (scheduled w || self_waker w) (registering w) (lock w) (inflight w) false).

(** A request waits and no wake-up can come. *)
Definition stuck (w : t) : Prop :=
  scheduled w = false ∧ registering w = false ∧ rx_waker w = false ∧ lock w = false ∧ waking w = false ∧
  inflight w = 0%nat ∧ (0 < rx w)%nat.

Lemma stuck_step a b : step a b → stuck a → stuck b.
Proof.
  unfold stuck. intros []; cbn; intros (Hs & Hr & Hx & Hl & Hw & Hi & Hp); try congruence; [|lia].
  rewrite Hs, Hx. split_and!; done || lia.
Qed.

(** Takes a step and computes the next state. *)
Ltac next_step c :=
  eapply rtc_l; [apply c; first [reflexivity | by apply Nat.ltb_lt]|];
  match goal with |- rtc step ?a _ => let a' := eval vm_compute in a in change a with a' end.

(** A request can be stuck: it arrives after the first of two responses woke the stream; the poll finds
    the lock taken by the second, and registers its waker after the second wake-up.  Nothing
    polls the stream again, whatever other callers do. *)
Lemma tso_lost_wakeup : ∃ w, rtc step init w ∧ (0 < rx w)%nat ∧
  ∀ w', rtc step w w' → scheduled w' = false ∧ registering w' = false ∧ (0 < rx w')%nat.
Proof.
  set (w := mk 1 false true false false false 0 false). exists w. split; [|split; [cbn; lia|]].
  - (* two groups in flight, the stream waits *)
    next_step step_send. next_step step_poll. next_step step_send. next_step step_poll. next_step step_poll.
    (* the first response uses up the waker, a request uses up the channel's *)
    next_step step_response. next_step step_pop. next_step step_wake. next_step step_send.
    (* the poll meets the second response *)
    next_step step_response. next_step step_poll_contended. next_step step_pop. next_step step_wake.
    next_step step_register. apply rtc_refl.
  - intros w' Hw'. enough (stuck w') as (? & ? & _ & _ & _ & _ & ?) by done.
    revert Hw'. apply (rtc_ind_r stuck); [unfold stuck; cbn; split_and!; done || lia|].
    intros a b _ Hst Hs. by apply (stuck_step a b).
Qed.
End Wakers.
