(* ===== verification/SafeTs.v ===== *)
(** * Safe timestamps (src/src/store/safe_ts.rs, and its use in src/src/pd/client.rs)

    The cache of the safe timestamp of each store, below which a stale read needs no lock check,
    and of the least one per transaction scope (the cluster, or a zone).

    PD and the stores are parameters: [pd] answers the minimal resolved timestamps,
    [store_provider] asks one store.  The map of scopes is iterated in an unspecified order. *)

From S2P Require Import Prelude Keys Proto Errors Ranges Timestamps.

Definition DC_LABEL_KEY : string := "zone".
Definition ENGINE_LABEL_KEY : string := "engine".
Definition ENGINE_LABEL_TIFLASH : string := "tiflash".
Definition ENGINE_LABEL_TIFLASH_COMPUTE : string := "tiflash_compute".
Definition GLOBAL_TXN_SCOPE : string := "global".

(** [injected] is what the fail point supplies. *)
Definition txn_scope_from_config (injected : option string) : string :=
  match injected with
  | Some scope =>
      if negb (String.eqb scope "") && negb (String.eqb scope GLOBAL_TXN_SCOPE) then scope else GLOBAL_TXN_SCOPE
  | None => GLOBAL_TXN_SCOPE
  end.

Definition is_valid_safe_ts (ts : Z) : bool := negb (ts =? 0) && negb (ts =? u64_max).

Definition is_tiflash_store (store : Store.t) : bool :=
  existsb (λ label, String.eqb (StoreLabel.key label) ENGINE_LABEL_KEY &&
    (String.eqb (StoreLabel.value label) ENGINE_LABEL_TIFLASH ||
     String.eqb (StoreLabel.value label) ENGINE_LABEL_TIFLASH_COMPUTE)) (Store.labels store).

Definition store_label_value (store : Store.t) (key : string) : option string :=
  StoreLabel.value <$> List.find (λ label, String.eqb (StoreLabel.key label) key) (Store.labels store).

Definition store_safe_ts_address (store : Store.t) : string :=
  if is_tiflash_store store then
    if String.eqb (Store.peer_address store) "" then Store.address store else Store.peer_address store
  else Store.address store.

(** ** [SafeTsManager] *)
Record SafeTsManager := mkManager { safe_ts_by_store : gmap Z Z; min_safe_ts_by_scope : gmap string Z }.
Definition SafeTsManager_default : SafeTsManager := mkManager ∅ ∅.

Definition get_min_safe_ts (m : SafeTsManager) (txn_scope : string) : Z := default 0 (min_safe_ts_by_scope m !! txn_scope).
Definition get_store_safe_ts (m : SafeTsManager) (store_id : Z) : option Z := safe_ts_by_store m !! store_id.
Definition set_store_safe_ts (store_id safe_ts : Z) (m : SafeTsManager) : SafeTsManager :=
  if safe_ts =? u64_max then m
  else mkManager (<[store_id := safe_ts]> (safe_ts_by_store m)) (min_safe_ts_by_scope m).
Definition set_min_safe_ts (txn_scope : string) (safe_ts : Z) (m : SafeTsManager) : SafeTsManager :=
  if safe_ts =? u64_max then m
  else mkManager (safe_ts_by_store m) (<[txn_scope := safe_ts]> (min_safe_ts_by_scope m)).

Definition min_step (stores : gmap Z Z) (min_safe_ts store_id : Z) : Z :=
  match stores !! store_id with
  | None => 0
  | Some safe_ts => if negb (safe_ts =? 0) && (safe_ts <? min_safe_ts) then safe_ts else min_safe_ts
  end.
Definition update_min_safe_ts (txn_scope : string) (store_ids : list Z) (m : SafeTsManager) : SafeTsManager :=
  if is_empty store_ids then set_min_safe_ts txn_scope 0 m
  else
    let min_safe_ts := foldl (min_step (safe_ts_by_store m)) u64_max store_ids in
    set_min_safe_ts txn_scope (if min_safe_ts =? u64_max then 0 else min_safe_ts) m.

(** [MinResolvedTsProvider] *)
Definition MinResolvedTs : Type := option (list Z) → Result (Z * option (gmap Z Z)).

Section update.
Context (injected : option string) (pd : option MinResolvedTs) (store_provider : Store.t → Result Z).
Context (order : gmap string (list Z) → list (string * list Z)).

Definition try_update_global_from_pd (m : SafeTsManager) : bool * SafeTsManager :=
  match pd with
  | None => (false, m)
  | Some pd =>
      if negb (String.eqb (txn_scope_from_config injected) GLOBAL_TXN_SCOPE) then (false, m)
      else
        match pd None with
        | Err _ => (false, m)
        | Ok (cluster_min_safe_ts, _) =>
            if negb (is_valid_safe_ts cluster_min_safe_ts) then (false, m)
            else if cluster_min_safe_ts <? get_min_safe_ts m GLOBAL_TXN_SCOPE then (true, m)
            else (true, set_min_safe_ts GLOBAL_TXN_SCOPE cluster_min_safe_ts m)
        end
  end.

(** The body of the loop over the stores. *)
Definition update_store (pd_err : bool) (store_min_resolved_ts : option (gmap Z Z)) (m : SafeTsManager) (store : Store.t) :
    SafeTsManager :=
  let resolved := store_min_resolved_ts ≫= (λ r, r !! Store.id store) in
  let from_pd := negb pd_err && match resolved with Some ts => is_valid_safe_ts ts | None => false end in
  match (if from_pd then Ok (default 0 resolved) else store_provider store) with
  | Err _ => m
  | Ok safe_ts =>
      if safe_ts <? default 0 (get_store_safe_ts m (Store.id store)) then m
      else set_store_safe_ts (Store.id store) safe_ts m
  end.

Definition push_scope (scope : string) (id : Z) (scope_map : gmap string (list Z)) : gmap string (list Z) :=
  <[scope := default [] (scope_map !! scope) ++ [id]]> scope_map.
Definition scope_step (scope_map : gmap string (list Z)) (store : Store.t) : gmap string (list Z) :=
  let scope_map := push_scope GLOBAL_TXN_SCOPE (Store.id store) scope_map in
  match store_label_value store DC_LABEL_KEY with
  | Some zone => if negb (String.eqb zone "") then push_scope zone (Store.id store) scope_map else scope_map
  | None => scope_map
  end.

(** [pd_err] and [store_min_resolved_ts] *)
Definition resolved_from_pd (store_ids : list Z) : bool * option (gmap Z Z) :=
  match pd with
  | Some pd => match pd (Some store_ids) with Ok (_, map) => (false, map) | Err _ => (true, None) end
  | None => (false, None)
  end.
Definition update_safe_ts_once (stores : list Store.t) (m : SafeTsManager) : SafeTsManager :=
  let '(done, m) := try_update_global_from_pd m in
  if done : bool then m
  else
    let store_ids := map Store.id stores in
    let '(pd_err, store_min_resolved_ts) := resolved_from_pd store_ids in
    let m := foldl (update_store pd_err store_min_resolved_ts) m stores in
    foldl (λ m scope, update_min_safe_ts scope.1 scope.2 m) m (order (foldl scope_step ∅ stores)).
End update.

(** [refresh_safe_ts_cache_once]: asks each store at its address; [dispatch] connects and sends
    [StoreSafeTsRequest::new_all_ranges]. *)
Definition refresh_safe_ts_cache_once (order : gmap string (list Z) → list (string * list Z)) (injected : option string)
    (stores : Result (list Store.t)) (dispatch : string → Result Z) (m : SafeTsManager) : Result unit * SafeTsManager :=
  match stores with
  | Err e => (Err e, m)
  | Ok stores =>
      (Ok (), update_safe_ts_once injected None (λ store, dispatch (store_safe_ts_address store)) order stores m)
  end.

(** ** Lemmas *)

Definition store_ok (ts : Z) : Prop := 0 ≤ ts < u64_max.
Definition safe_ok (m : SafeTsManager) : Prop := map_Forall (λ _, store_ok) (safe_ts_by_store m).

(** The stores of a scope: all of them for the cluster, those of the zone otherwise. *)
Definition in_scope (scope : string) (store : Store.t) : Prop :=
  scope = GLOBAL_TXN_SCOPE ∨ (scope ≠ ""%string ∧ store_label_value store DC_LABEL_KEY = Some scope).

#[export] Instance in_scope_dec scope store : Decision (in_scope scope store).
Proof. unfold in_scope. apply _. Defined.

(** The least safe timestamp of some stores: 0 if one is unknown or if all of them are 0;
    a store whose timestamp is 0 does not count otherwise. *)
Definition least_safe_ts (stores : gmap Z Z) (ids : Z → Prop) (v : Z) : Prop :=
  (v = 0 ↔ (∃ id, ids id ∧ stores !! id = None) ∨ (∀ id, ids id → stores !! id = Some 0)) ∧
  (v ≠ 0 → ∃ id, ids id ∧ stores !! id = Some v) ∧
  (∀ id ts, ids id → stores !! id = Some ts → ts ≠ 0 → v ≤ ts).

Lemma min_loop_spec stores ids acc : map_Forall (λ _, store_ok) stores → 0 ≤ acc →
  let v := foldl (min_step stores) acc ids in
  0 ≤ v ≤ acc ∧
  (v = 0 ↔ acc = 0 ∨ ∃ id, id ∈ ids ∧ stores !! id = None) ∧
  (v ≠ acc → v ≠ 0 → ∃ id, id ∈ ids ∧ stores !! id = Some v) ∧
  (∀ id ts, id ∈ ids → stores !! id = Some ts → ts ≠ 0 → v ≤ ts).
Proof.
  intros Hs. revert acc. induction ids as [|id ids IH]; intros acc Hacc; cbn [foldl].
  { split_and!; try lia; [|by intros ? ? ?%elem_of_nil]. split; [auto|]. by intros [?|(? & ?%elem_of_nil & _)]. }
  assert (0 ≤ min_step stores acc id ≤ acc ∧ (min_step stores acc id = 0 ↔ acc = 0 ∨ stores !! id = None) ∧
    (min_step stores acc id ≠ acc → min_step stores acc id ≠ 0 → stores !! id = Some (min_step stores acc id)) ∧
    (∀ ts, stores !! id = Some ts → ts ≠ 0 → min_step stores acc id ≤ ts)) as (Hr & Hz & Hne & Hle).
  { unfold min_step. destruct (stores !! id) as [ts|] eqn:E; [|by split_and!; [lia.. | tauto | |]].
    assert (0 ≤ ts) by apply (Hs id ts E). destruct (Z.eqb_spec ts 0); cbn [negb andb].
    - split_and!; [lia.. | | done |]; [split; [by left | by intros [?|?]]|]. intros ? [= <-]. done.
    - destruct (Z.ltb_spec ts acc); split_and!; try done; try lia; [|intros ? [= <-]; lia | | intros ? [= <-]; lia].
      + split; [lia|]. intros [?|?]; [lia | done].
      + split; [by left|]. by intros [?|?]. }
  destruct (IH (min_step stores acc id)) as (Hr' & Hz' & Hne' & Hle'); [lia|]. split_and!; try lia.
  - rewrite Hz', Hz. split.
    + intros [[?|?]|(x & ? & ?)]; [by left | right; exists id; split; [by left | done] | right; exists x; split; [by right | done]].
    + intros [?|(x & [->|?]%elem_of_cons & ?)]; [by left; left | by left; right | right; by exists x].
  - intros H1 H2. destruct (Z.eq_dec (foldl (min_step stores) (min_step stores acc id) ids) (min_step stores acc id)) as [E|E].
    + rewrite E in *. exists id. split; [by left|]. by apply Hne.
    + destruct (Hne' E H2) as (x & ? & ?). exists x. split; [by right | done].
  - intros x ts [->|Hx]%elem_of_cons Ex Hts; [|by apply (Hle' x ts)]. etransitivity; [|by apply Hle]. lia.
Qed.

(** [update_min_safe_ts] stores the least safe timestamp of the stores it is given. *)
Lemma update_min_safe_ts_spec scope ids m : safe_ok m → ids ≠ [] →
  ∃ v, update_min_safe_ts scope ids m = mkManager (safe_ts_by_store m) (<[scope := v]> (min_safe_ts_by_scope m)) ∧
    least_safe_ts (safe_ts_by_store m) (.∈ ids) v.
Proof.
  intros Hm Hne. destruct ids as [|i0 ids0]; [done|]. unfold update_min_safe_ts. cbn [is_empty].
  remember (i0 :: ids0) as ids eqn:Eids. assert (i0 ∈ ids) as Hi0 by (subst; by left). clear Eids ids0 Hne.
  destruct (min_loop_spec (safe_ts_by_store m) ids u64_max Hm) as (Hr & Hz & Hn & Hl); [word_lia|].
  set (w := foldl _ _ _) in *.
  assert (∀ v, v ≠ u64_max → set_min_safe_ts scope v m =
    mkManager (safe_ts_by_store m) (<[scope := v]> (min_safe_ts_by_scope m))) as Hset.
  { intros v Hv. unfold set_min_safe_ts. by rewrite (proj2 (Z.eqb_neq _ _) Hv). }
  destruct (Z.eqb_spec w u64_max) as [E|E].
  - exists 0. split; [apply Hset; word_lia|].
    assert (∀ id, id ∈ ids → safe_ts_by_store m !! id = Some 0) as H0.
    { intros id Hid. destruct (safe_ts_by_store m !! id) as [ts|] eqn:Ei.
      - destruct (Z.eq_dec ts 0) as [->|Ht]; [done|]. specialize (Hl id ts Hid Ei Ht).
        pose proof (Hm id ts Ei) as [_ ?]. lia.
      - assert (w = 0) by (apply Hz; eauto). word_lia. }
    split_and!; [|done | intros id ts Hid Ei; rewrite (H0 id Hid) in Ei; congruence]. split; [auto | done].
  - exists w. split; [by apply Hset|]. split_and!; [|by apply Hn | exact Hl]. rewrite Hz. split.
    + intros [?|?]; [word_lia | by left].
    + intros [?|H0]; [by right|]. exfalso.
      destruct (Z.eq_dec w 0) as [Ew|Ew].
      * apply Hz in Ew as [?|(id & Hid & En)]; [word_lia|]. rewrite (H0 id Hid) in En. done.
      * destruct (Hn E Ew) as (id & Hid & Ei). rewrite (H0 id Hid) in Ei. congruence.
Qed.

(** The scopes of the stores, each with its stores. *)
Lemma scope_map_spec stores scope_map scope :
  (∀ s ids, scope_map !! s = Some ids → ids ≠ []) →
  (∀ s ids, foldl scope_step scope_map stores !! s = Some ids → ids ≠ []) ∧
  (is_Some (foldl scope_step scope_map stores !! scope) ↔
   is_Some (scope_map !! scope) ∨ ∃ store, store ∈ stores ∧ in_scope scope store) ∧
  (∀ id, id ∈ default [] (foldl scope_step scope_map stores !! scope) ↔
   id ∈ default [] (scope_map !! scope) ∨ ∃ store, store ∈ stores ∧ in_scope scope store ∧ Store.id store = id).
Proof.
  assert (∀ sm s i, (∀ s ids, sm !! s = Some ids → ids ≠ []) → ∀ s' ids, push_scope s i sm !! s' = Some ids → ids ≠ []) as Hpush.
  { intros sm s i Hsm s' ids. unfold push_scope. destruct (decide (s = s')) as [<-|].
    - rewrite lookup_insert_eq. intros [= <-]. by destruct (default [] (sm !! s)).
    - rewrite lookup_insert_ne by done. apply Hsm. }
  assert (∀ sm s i s', (is_Some (push_scope s i sm !! s') ↔ s = s' ∨ is_Some (sm !! s')) ∧
    ∀ id, id ∈ default [] (push_scope s i sm !! s') ↔ (s = s' ∧ id = i) ∨ id ∈ default [] (sm !! s')) as Hpush2.
  { intros sm s i s'. unfold push_scope. destruct (decide (s = s')) as [<-|Hne].
    - rewrite lookup_insert_eq. split; [split; [auto|]; eauto|]. intros id. cbn. rewrite elem_of_app, list_elem_of_singleton. tauto.
    - rewrite lookup_insert_ne by done. split; [tauto|]. intros id. tauto. }
  revert scope_map. induction stores as [|store stores IH]; intros sm Hsm; cbn [foldl].
  { split; [done|]. split; [|intros id]; (split; [auto | intros [?|(? & ?%elem_of_nil & _)]; done]). }
  assert ((∀ s ids, scope_step sm store !! s = Some ids → ids ≠ []) ∧
    (is_Some (scope_step sm store !! scope) ↔ is_Some (sm !! scope) ∨ in_scope scope store) ∧
    (∀ id, id ∈ default [] (scope_step sm store !! scope) ↔
       id ∈ default [] (sm !! scope) ∨ (in_scope scope store ∧ Store.id store = id))) as (H1 & H2 & H3).
  { unfold scope_step, in_scope. set (sm1 := push_scope GLOBAL_TXN_SCOPE _ _).
    assert (∀ s ids, sm1 !! s = Some ids → ids ≠ []) as Hsm1 by (by apply Hpush).
    destruct (Hpush2 sm GLOBAL_TXN_SCOPE (Store.id store) scope) as [Hk1 Hk2]. fold sm1 in Hk1, Hk2.
    destruct (store_label_value store DC_LABEL_KEY) as [zone|].
    - destruct (String.eqb_spec zone "") as [->|Hz]; cbn [negb].
      + split; [done|]. rewrite Hk1. split; [|intros id; rewrite Hk2]; split; intros H.
        all: intuition congruence.
      + destruct (Hpush2 sm1 zone (Store.id store) scope) as [Hl1 Hl2]. split; [by apply Hpush|].
        rewrite Hl1, Hk1. split; [|intros id; rewrite Hl2, Hk2]; split; intros H; intuition congruence.
    - split; [done|]. rewrite Hk1. split; [|intros id; rewrite Hk2]; split; intros H; intuition congruence. }
  destruct (IH (scope_step sm store) H1) as (K1 & K2 & K3). split; [done|]. split.
  - rewrite K2, H2. setoid_rewrite elem_of_cons. naive_solver.
  - intros id. rewrite K3, H3. split.
    + intros [[?|[? ?]]|(x & ? & ? & ?)]; [by left | right; exists store | right; exists x]; rewrite elem_of_cons; auto.
    + intros [?|(x & [->|?]%elem_of_cons & ? & ?)]; [by left; left | left; right; auto | right; exists x; auto].
Qed.

(** The second loop: each scope gets the least timestamp of its stores, the others keep theirs. *)
Lemma scopes_loop_spec entries m : safe_ok m → NoDup entries.*1 → Forall (λ e, e.2 ≠ []) entries →
  let m' := foldl (λ m scope, update_min_safe_ts scope.1 scope.2 m) m entries in
  safe_ts_by_store m' = safe_ts_by_store m ∧
  (∀ scope ids, (scope, ids) ∈ entries → least_safe_ts (safe_ts_by_store m) (.∈ ids) (get_min_safe_ts m' scope)) ∧
  (∀ scope, scope ∉ entries.*1 → min_safe_ts_by_scope m' !! scope = min_safe_ts_by_scope m !! scope).
Proof.
  revert m. induction entries as [|[s ids] entries IH]; intros m Hm Hnd Hne; cbn [foldl].
  { split_and!; [done| by intros ? ? ?%elem_of_nil | done]. }
  cbn in Hnd. apply NoDup_cons in Hnd as [Hnin Hnd]. apply Forall_cons in Hne as [Hids Hne]. cbn in Hids.
  destruct (update_min_safe_ts_spec s ids m Hm Hids) as (v & E & Hv). cbn [fst snd]. rewrite E.
  set (m1 := mkManager _ _). destruct (IH m1 Hm Hnd Hne) as (E1 & E2 & E3). cbn in E1, E2.
  split; [done|]. split.
  - intros scope ids' [[= -> ->]|Hin]%elem_of_cons; [|by apply E2].
    unfold get_min_safe_ts. rewrite E3 by done. cbn. by rewrite lookup_insert_eq.
  - intros scope [? ?]%not_elem_of_cons. rewrite E3 by done. cbn. by rewrite lookup_insert_ne.
Qed.

(** What PD answers for the whole cluster, if the client asks it and the answer says something. *)
Definition cluster_answer (injected : option string) (pd : option MinResolvedTs) : option Z :=
  pd ≫= λ f, if String.eqb (txn_scope_from_config injected) GLOBAL_TXN_SCOPE
             then match f None with Ok (c, _) => if is_valid_safe_ts c then Some c else None | Err _ => None end else None.

(** What PD answers for one store when asked for [store_ids]. *)
Definition pd_store_answer (pd : option MinResolvedTs) (store_ids : list Z) (store : Store.t) : option Z :=
  match pd with
  | Some f => match f (Some store_ids) with Ok (_, Some r) => r !! Store.id store | _ => None end
  | None => None
  end.

(** What is learnt of one store: the answer PD has for it when asked for [store_ids], if it says something, and the
    store's own answer otherwise.  [u64::MAX] says nothing. *)
Definition store_answer (pd : option MinResolvedTs) (store_provider : Store.t → Result Z) (store_ids : list Z) (store : Store.t) :
    option Z :=
  match pd_store_answer pd store_ids store with
  | Some ts => if is_valid_safe_ts ts then Some ts
               else match store_provider store with Ok ts => if ts =? u64_max then None else Some ts | Err _ => None end
  | None => match store_provider store with Ok ts => if ts =? u64_max then None else Some ts | Err _ => None end
  end.

(** The largest of some timestamps, if there is one. *)
Definition largest (v : option Z) (ts : Z → Prop) : Prop :=
  match v with Some v => ts v ∧ ∀ t, ts t → t ≤ v | None => ∀ t, ¬ ts t end.

Lemma largest_ext v (P Q : Z → Prop) : (∀ t, P t ↔ Q t) → largest v P → largest v Q.
Proof. intros H. unfold largest. destruct v; naive_solver. Qed.

#[export] Instance largest_proper v : Proper (pointwise_relation Z iff ==> iff) (largest v).
Proof. intros P Q H. split; apply largest_ext; intros t; by rewrite (H t). Qed.

Lemma is_valid_safe_ts_spec ts : is_valid_safe_ts ts = true ↔ ts ≠ 0 ∧ ts ≠ u64_max.
Proof. unfold is_valid_safe_ts. case_zbs; cbn; naive_solver. Qed.

Section stores_loop.
Context (pd : option MinResolvedTs) (store_provider : Store.t → Result Z) (store_ids : list Z).
Hypothesis provider_u64 : ∀ store ts, store_provider store = Ok ts → in_u64 ts.
Hypothesis pd_u64 : ∀ f ids ts r, pd = Some f → f ids = Ok (ts, Some r) → map_Forall (λ _, in_u64) r.

#[local] Abbreviation update := (update_store store_provider (resolved_from_pd pd store_ids).1 (resolved_from_pd pd store_ids).2).
#[local] Abbreviation answer := (store_answer pd store_provider store_ids).

Lemma answer_ok store ts : answer store = Some ts → store_ok ts.
Proof.
  unfold store_answer, store_ok. intros H.
  assert (∀ x, match store_provider store with Ok ts => if ts =? u64_max then None else Some ts | Err _ => None end = Some x → 0 ≤ x < u64_max) as Hown.
  { intros x. destruct (store_provider store) as [y|] eqn:Ey; [|done]. apply provider_u64 in Ey.
    destruct (Z.eqb_spec y u64_max); [done|]. intros [= <-]. word_lia. }
  destruct (pd_store_answer pd store_ids store) as [r|] eqn:Er; [|auto]. destruct (is_valid_safe_ts r) eqn:Ev; [|auto].
  injection H as <-. apply is_valid_safe_ts_spec in Ev. unfold pd_store_answer in Er. destruct pd as [f|]; [|done].
  destruct (f _) as [[? [r'|]]|] eqn:Ea; try done. pose proof (pd_u64 f _ _ r' eq_refl Ea _ _ Er) as Hu. cbn in Hu. word_lia.
Qed.

(** One round of the loop raises the timestamp of one store to what is learnt of it. *)
Lemma update_store_spec m store :
  update m store = match answer store with
    | Some ts => if ts <? default 0 (get_store_safe_ts m (Store.id store)) then m
                 else mkManager (<[Store.id store := ts]> (safe_ts_by_store m)) (min_safe_ts_by_scope m)
    | None => m end.
Proof.
  unfold update_store, store_answer, pd_store_answer, resolved_from_pd, set_store_safe_ts.
  destruct pd as [f|]; cbn; [destruct (f (Some store_ids)) as [[? [r|]]|]; cbn; [destruct (r !! Store.id store) as [x|]; cbn;
    [destruct (is_valid_safe_ts x) eqn:Ex; cbn|]|..]|]; repeat case_match; simplify_eq; try done.
  all: try (apply is_valid_safe_ts_spec in Ex); case_zbs; try done; naive_solver lia.
Qed.

(** The first loop: each store gets the largest of what was cached and what is learnt of it. *)
Lemma stores_loop_spec stores m : safe_ok m →
  let m' := foldl update m stores in
  safe_ok m' ∧ min_safe_ts_by_scope m' = min_safe_ts_by_scope m ∧
  ∀ id, largest (get_store_safe_ts m' id)
    (λ t, get_store_safe_ts m id = Some t ∨ ∃ store, store ∈ stores ∧ Store.id store = id ∧ answer store = Some t).
Proof.
  revert m. induction stores as [|store stores IH]; intros m Hm; cbn [foldl].
  { split_and!; [done..|]. intros id. setoid_rewrite elem_of_nil. unfold largest.
    destruct (get_store_safe_ts m id); [|naive_solver]. split; [by left|]. intros t [[= <-]|(? & [] & _)]. lia. }
  assert (safe_ok (update m store) ∧ min_safe_ts_by_scope (update m store) = min_safe_ts_by_scope m ∧
    ∀ id, largest (get_store_safe_ts (update m store) id)
      (λ t, get_store_safe_ts m id = Some t ∨ (Store.id store = id ∧ answer store = Some t))) as (H1 & H2 & H3).
  { rewrite update_store_spec. assert (∀ id, largest (get_store_safe_ts m id) (λ t, get_store_safe_ts m id = Some t)) as Hold.
    { intros id. unfold largest. destruct (get_store_safe_ts m id); [|done]. split; [done|]. intros ? [= <-]. lia. }
    destruct (answer store) as [ts|] eqn:Ea; [|split_and!; [done..|]; intros id; eapply largest_ext, (Hold id); naive_solver].
    apply answer_ok in Ea as Hts. destruct Hts as [Ht0 Ht1].
    destruct (Z.ltb_spec ts (default 0 (get_store_safe_ts m (Store.id store)))) as [Hlt|Hge]; (split_and!; [|done|]).
    - done.
    - intros id. specialize (Hold id). unfold largest in *. destruct (get_store_safe_ts m id) as [old|] eqn:Eo.
      + split; [by left|]. intros t [[= <-]|[<- [= <-]]]; [lia|]. rewrite Eo in Hlt. cbn in Hlt. lia.
      + intros t [?|[<- [= <-]]]; [done|]. rewrite Eo in Hlt. cbn in Hlt. lia.
    - apply map_Forall_insert_2; [done | exact Hm].
    - intros id. unfold get_store_safe_ts in *. cbn. destruct (decide (Store.id store = id)) as [<-|Hne].
      + rewrite lookup_insert_eq. split; [by right|]. intros t [Et|[_ [= <-]]]; [|lia]. rewrite Et in Hge. exact Hge.
      + rewrite lookup_insert_ne by done. specialize (Hold id). unfold largest in *. destruct (safe_ts_by_store m !! id); naive_solver. }
  destruct (IH _ H1) as (K1 & K2 & K3). split; [done|]. split; [by rewrite K2|].
  intros id. specialize (H3 id). specialize (K3 id). unfold largest in *.
  destruct (get_store_safe_ts (foldl _ _ _) id) as [v|]; setoid_rewrite elem_of_cons.
  - destruct K3 as [K3 K4]. split.
    + destruct K3 as [Ev|(x & ? & ? & ?)]; [|right; eauto]. rewrite Ev in H3. destruct H3 as [[?|[? ?]] _]; eauto 6.
    + intros t Ht. assert (∀ t, get_store_safe_ts m id = Some t ∨ Store.id store = id ∧ answer store = Some t → t ≤ v) as Hup.
      { intros t1 Ht1. destruct (get_store_safe_ts (update m store) id) as [u|]; [|by apply H3 in Ht1].
        transitivity u; [by apply H3 | apply K4; by left]. }
      destruct Ht as [?|(x & [->|?] & ? & ?)]; [apply Hup; auto.. | apply K4; eauto].
  - destruct (get_store_safe_ts (update m store) id) as [u|]; [by destruct (K3 u); left|]. intros t [?|(x & [->|?] & ? & ?)].
    + by apply (H3 t); left.
    + by apply (H3 t); right.
    + apply (K3 t). eauto.
Qed.
End stores_loop.

Lemma try_update_global_spec injected pd m :
  try_update_global_from_pd injected pd m = match cluster_answer injected pd with
    | Some c => (true, if c <? get_min_safe_ts m GLOBAL_TXN_SCOPE then m else set_min_safe_ts GLOBAL_TXN_SCOPE c m)
    | None => (false, m) end.
Proof.
  unfold try_update_global_from_pd, cluster_answer. destruct pd as [f|]; cbn; [|done].
  destruct (String.eqb _ _); cbn; [|done]. destruct (f None) as [[c r]|]; [|done]. destruct (is_valid_safe_ts c); cbn; [|done].
  by destruct (c <? _).
Qed.

(** The part of a refresh that asks the stores. *)
Lemma scopes_refresh_spec order stores m : (∀ sm, order sm ≡ₚ map_to_list sm) → safe_ok m →
  let m' := foldl (λ m scope, update_min_safe_ts scope.1 scope.2 m) m (order (foldl scope_step ∅ stores)) in
  safe_ts_by_store m' = safe_ts_by_store m ∧
  ∀ scope,
    if decide (Exists (in_scope scope) stores)
    then least_safe_ts (safe_ts_by_store m) (λ id, ∃ store, store ∈ stores ∧ in_scope scope store ∧ Store.id store = id)
           (get_min_safe_ts m' scope)
    else get_min_safe_ts m' scope = get_min_safe_ts m scope.
Proof.
  intros Hord Hm. set (sm := foldl scope_step ∅ stores). destruct (scopes_loop_spec (order sm) m Hm) as (E1 & E2 & E3).
  { rewrite (Hord sm). apply NoDup_fst_map_to_list. }
  { rewrite (Hord sm). apply Forall_forall. intros [s ids] Hin%elem_of_map_to_list.
    destruct (scope_map_spec stores ∅ s) as [K _]; [by intros ? ?; rewrite lookup_empty|]. by apply (K s ids Hin). }
  split; [done|]. intros scope. destruct (scope_map_spec stores ∅ scope) as (_ & Ks & Kids); [by intros ? ?; rewrite lookup_empty|].
  fold sm in Ks, Kids. rewrite lookup_empty in Ks, Kids. destruct (decide _) as [Hex|Hex]; rewrite Exists_exists in Hex.
  - destruct (proj2 Ks) as [ids Eids]; [by right|]. rewrite Eids in Kids. cbn in Kids.
    assert ((scope, ids) ∈ order sm) as Hin by (rewrite (Hord sm); by apply elem_of_map_to_list).
    specialize (E2 scope ids Hin). setoid_rewrite elem_of_nil in Kids.
    assert (∀ id, id ∈ ids ↔ ∃ store, store ∈ stores ∧ in_scope scope store ∧ Store.id store = id) as Hids.
    { intros id. rewrite Kids. split; [by intros [?|?] | auto]. }
    unfold least_safe_ts in *. setoid_rewrite Hids in E2. exact E2.
  - unfold get_min_safe_ts. rewrite E3; [done|]. rewrite (Hord sm). intros Hin.
    apply list_elem_of_fmap in Hin as ([s ids] & -> & Hin%elem_of_map_to_list).
    apply Hex. destruct (proj1 Ks) as [[? ?]|?]; [by eexists | done | done].
Qed.

(** C28: a refresh of the safe timestamps is right.  If PD answers the minimum of the cluster, the minimum of the
    global scope becomes the larger of this answer and the cached one, and nothing else changes.
    Otherwise the safe timestamp of every store becomes the largest of the cached one and of what is learnt of the store: the
    answer of PD for it, or the store's own answer if PD has none; it stays unknown if there is neither, so it never goes back, and [u64::MAX]
    (no information) is never cached.  Then the minimum of the global scope, and of every zone with a store, becomes the least of the
    new safe timestamps of its stores: 0 while one of them is unknown, never above a known
    one that is not 0, and the value of one of them.  The other scopes keep their minimum.  The hypotheses: the map of the scopes is
    iterated in some order, the answers are 64-bit, and no cached timestamp is [u64::MAX]. *)
Theorem safe_ts_correct injected pd store_provider order stores m :
  (∀ sm, order sm ≡ₚ map_to_list sm) →
  (∀ store ts, store_provider store = Ok ts → in_u64 ts) →
  (∀ f ids ts r, pd = Some f → f ids = Ok (ts, Some r) → map_Forall (λ _, in_u64) r) →
  safe_ok m →
  let m' := update_safe_ts_once injected pd store_provider order stores m in
  safe_ok m' ∧
  match cluster_answer injected pd with
  | Some c => safe_ts_by_store m' = safe_ts_by_store m ∧
      ∀ scope, get_min_safe_ts m' scope =
        if String.eqb scope GLOBAL_TXN_SCOPE then Z.max (get_min_safe_ts m scope) c else get_min_safe_ts m scope
  | None =>
      (∀ id, largest (get_store_safe_ts m' id) (λ t, get_store_safe_ts m id = Some t ∨
         ∃ store, store ∈ stores ∧ Store.id store = id ∧ store_answer pd store_provider (map Store.id stores) store = Some t)) ∧
      ∀ scope,
        if decide (Exists (in_scope scope) stores)
        then least_safe_ts (safe_ts_by_store m') (λ id, ∃ store, store ∈ stores ∧ in_scope scope store ∧ Store.id store = id)
               (get_min_safe_ts m' scope)
        else get_min_safe_ts m' scope = get_min_safe_ts m scope
  end.
Proof.
  intros Hord Hsp Hpd Hm. cbv zeta. unfold update_safe_ts_once. rewrite try_update_global_spec.
  destruct (cluster_answer injected pd) as [c|] eqn:Ec.
  - assert (c ≠ u64_max) as Hc.
    { unfold cluster_answer in Ec. apply bind_Some in Ec as (f & _ & Ec). repeat case_match; simplify_eq. by apply is_valid_safe_ts_spec. }
    unfold set_min_safe_ts. rewrite (proj2 (Z.eqb_neq _ _) Hc).
    destruct (Z.ltb_spec c (get_min_safe_ts m GLOBAL_TXN_SCOPE)); (split_and!; [done | done|]); intros scope;
      destruct (String.eqb_spec scope GLOBAL_TXN_SCOPE) as [->|Hne]; [lia | done | |]; unfold get_min_safe_ts at 1; cbn.
    + rewrite lookup_insert_eq. cbn. lia.
    + by rewrite lookup_insert_ne.
  - destruct (stores_loop_spec pd store_provider (map Store.id stores) Hsp Hpd stores m Hm) as (Hm2 & Hmin & Hstores).
    destruct (resolved_from_pd pd (map Store.id stores)) as [pd_err resolved]. cbn [fst snd] in *.
    set (m2 := foldl (update_store _ _ _) m stores) in *.
    destruct (scopes_refresh_spec order stores m2 Hord Hm2) as (E1 & E2). set (m3 := foldl _ m2 _) in *.
    split; [by unfold safe_ok; rewrite E1|]. unfold get_store_safe_ts in *. rewrite E1. split; [exact Hstores|].
    intros scope. specialize (E2 scope). destruct (decide _); [done|]. rewrite E2. unfold get_min_safe_ts. by rewrite Hmin.
Qed.

(** Two stores, one in a zone; the answer of the first goes up, the second has none yet. *)
Lemma safe_ts_correct_witness :
  let stores := [Store.mk 1 "a" 0 [StoreLabel.mk "zone" "z1"] ""; Store.mk 2 "b" 0 [] ""] in
  let m := mkManager {[1 := 100]} ∅ in
  let provider (store : Store.t) : Result Z := if Store.id store =? 1 then Ok 120 else Err (InternalError "no answer") in
  let m' := update_safe_ts_once None None provider map_to_list stores m in
  (get_store_safe_ts m' 1 = Some 120 ∧ get_min_safe_ts m' "z1" = 120 ∧ get_min_safe_ts m' GLOBAL_TXN_SCOPE = 0) ∧
  largest (get_store_safe_ts m' 1) (λ t, Some 100 = Some t ∨
    ∃ store, store ∈ stores ∧ Store.id store = 1 ∧ store_answer None provider [1; 2] store = Some t).
Proof.
  intros stores m provider m'. split; [by vm_compute|].
  apply (safe_ts_correct None None provider map_to_list stores m); [done | | done |].
  - intros store ts. unfold provider. case_zb; [|done]. intros [= <-]. word_lia.
  - unfold safe_ok, m. cbn. apply map_Forall_singleton. unfold store_ok. word_lia.
Defined.
