(* ===== verification/PdCluster.v ===== *)
(** * The connection to PD (src/src/pd/cluster.rs, src/src/pd/retry.rs)

    The client finds the leader of the PD cluster among the members it knows, validates what they
    answer, sends each request with the id of the cluster, and on failure reconnects and tries
    again.

    The network is a state [W] of the world that every call may change; the calls of gRPC are
    parameters, and [io W] computations thread the state.  Messages of internal errors are kept
    without the values printed into them by [{:?}].  The timestamp oracle of a
    cluster is in Tso.v. *)

From S2P Require Import Prelude Keys Proto Errors Regions Timestamps.

(** ** Computations on the network *)

Definition io (W A : Type) : Type := W → Result A * W.
#[export] Instance io_ret W : MRet (io W) := λ A a w, (Ok a, w).
#[export] Instance io_bind W : MBind (io W) := λ A B f m w,
  match m w with (Ok a, w) => f a w | (Err e, w) => (Err e, w) end.
Definition lift {W A} (r : Result A) : io W A := λ w, (r, w).

(** ** Messages of PD *)

Module Member.
Record t := mk {
  name : string; member_id : Z; peer_urls : list string; client_urls : list string; leader_priority : Z;
  deploy_path : string; binary_version : string; git_hash : string; dc_location : string
}.
#[global] Instance eq_dec : EqDecision t.
Proof. solve_decision. Defined.
End Member.

Record PdError := mkPdError { type : Z; message : string }.
Record ResponseHeader := mkHeader { cluster_id : Z; error : option PdError }.
Record GetMembersResponse := mkMembers { header : option ResponseHeader; members : list Member.t; leader : option Member.t }.
Record GetRegionResponse := mkGetRegion { region_header : option ResponseHeader; region : option Region.t; region_leader : option Peer.t }.
Record GetStoreResponse := mkGetStore { store_header : option ResponseHeader; store : option Store.t }.
Record GetAllStoresResponse := mkGetAllStores { stores_header : option ResponseHeader; stores : list Store.t }.
Record GetMinTsResponse := mkGetMinTs { min_ts_header : option ResponseHeader; timestamp : option Timestamp.t }.
Record UpdateGcSafePointResponse := mkSafePoint { safe_point_header : option ResponseHeader; new_safe_point : Z }.
Record KeyspaceMeta := mkKeyspaceMeta { keyspace_id : Z; keyspace_name : string }.
Record LoadKeyspaceResponse := mkLoadKeyspace { keyspace_header : option ResponseHeader; keyspace : option KeyspaceMeta }.

(** [pd_request!]: a request carries the id of the cluster. *)
Record PdRequest (A : Type) := mkRequest { request_cluster_id : Z; payload : A }.
Arguments mkRequest {A} _ _.
Arguments request_cluster_id {A} _.
Arguments payload {A} _.

(** ** Validation *)

Definition missing_header {A} : result Error A := Err (InternalError "missing PD response header").

Definition validate_members_response (resp : GetMembersResponse) : Result Z :=
  header ← ok_or (header resp) (InternalError "missing PD response header");
  match error header with
  | Some _ => Err (InternalError "failed to get PD members")
  | None =>
      if cluster_id header =? 0 then Err (InternalError "PD response cluster_id is zero")
      else
        leader ← ok_or (leader resp) (InternalError "unexpected no PD leader in get member resp");
        if is_empty (Member.client_urls leader) then Err (InternalError "PD leader has empty client_urls in get member resp")
        else if is_empty (members resp) then Err (InternalError "PD members list is empty in get member resp")
        else if negb (existsb (λ member, Member.member_id member =? Member.member_id leader) (members resp)) then
          Err (InternalError "PD leader is not present in members list")
        else if existsb (λ member, is_empty (Member.client_urls member)) (members resp) then
          Err (InternalError "PD member has empty client_urls in get member resp")
        else Ok (cluster_id header)
  end.

Definition validate_cluster_id (resp : GetMembersResponse) (expected : Z) : Result unit :=
  new_cluster_id ← ok_or (cluster_id <$> header resp) (InternalError "missing PD response header");
  if negb (new_cluster_id =? expected) then Err (InternalError "no longer belongs to cluster") else Ok ().

(** The check of every response in [PdMessage::send]. *)
Definition check_header {A} (header_of : A → option ResponseHeader) (response : A) : Result A :=
  header ← ok_or (header_of response) (InternalError "missing PD response header");
  match error header with
  | Some err => Err (InternalError (message err))
  | None => Ok response
  end.

(** A [Cluster]: [address] is the endpoint its gRPC clients are connected to. *)
Record Cluster := mkCluster { id : Z; address : string; cluster_members : GetMembersResponse }.

(** ** [Connection] *)
Section connection.
Context {W : Type}.
(** [security_mgr.connect] for the two clients, and the [GetMembers] call. *)
Context (dial dial_keyspace : string → io W unit) (get_members : string → io W GetMembersResponse).

Definition connect (addr : string) : io W GetMembersResponse :=
  _ ← dial addr;
  _ ← dial_keyspace addr;
  resp ← get_members addr;
  _ ← lift (validate_members_response resp);
  mret resp.

Definition try_connect (addr : string) (cluster_id : Z) : io W GetMembersResponse :=
  r ← connect addr;
  _ ← lift (validate_cluster_id r cluster_id);
  mret r.

(** The loop of [validate_endpoints] over the endpoints not yet seen. *)
Fixpoint validate_endpoints_loop (endpoints endpoints_set : list string) (resp_members : option GetMembersResponse)
    (sample : option Z) : io W GetMembersResponse := λ w,
  match endpoints with
  | [] => (ok_or resp_members (InternalError "PD cluster failed to respond"), w)
  | ep :: rest =>
      if existsb (String.eqb ep) endpoints_set then (Err (InternalError "duplicated PD endpoint"), w)
      else
        let endpoints_set := ep :: endpoints_set in
        match connect ep w with
        | (Err _, w) => validate_endpoints_loop rest endpoints_set resp_members sample w
        | (Ok resp, w) =>
            match header resp with
            | None => (missing_header, w)
            | Some h =>
                let resp_members := match resp_members with Some m => Some m | None => Some resp end in
                match sample with
                | Some sample =>
                    if negb (sample =? cluster_id h) then (Err (InternalError "PD response cluster_id mismatch"), w)
                    else validate_endpoints_loop rest endpoints_set resp_members (Some sample) w
                | None => validate_endpoints_loop rest endpoints_set resp_members (Some (cluster_id h)) w
                end
            end
        end
  end.
Definition validate_endpoints (endpoints : list string) : io W GetMembersResponse :=
  validate_endpoints_loop endpoints [] None None.

(** The inner loops of [try_connect_leader]: the first endpoint that connects. *)
Fixpoint first_connected (eps : list string) (cluster_id : Z) (w : W) : option (string * GetMembersResponse) * W :=
  match eps with
  | [] => (None, w)
  | ep :: rest =>
      match try_connect ep cluster_id w with
      | (Ok r, w) => (Some (ep, r), w)
      | (Err _, w) => first_connected rest cluster_id w
      end
  end.

(** The endpoint and the answer of the leader. *)
Definition try_connect_leader (previous : GetMembersResponse) : io W (string * GetMembersResponse) := λ w,
  match leader previous, header previous with
  | None, _ => (Err (InternalError "no leader found in GetMembersResponse"), w)
  | Some _, None => (missing_header, w)
  | Some previous_leader, Some h =>
      let candidates := List.filter (λ m, bool_decide (m ≠ previous_leader)) (members previous) ++ [previous_leader] in
      let failed := InternalError "failed to connect" in
      match first_connected (flat_map Member.client_urls candidates) (cluster_id h) w with
      | (None, w) => (Err failed, w)
      | (Some (_, resp), w) =>
          match leader resp with
          | None => (Err (InternalError "no leader found in GetMembersResponse"), w)
          | Some new_leader =>
              let '(r, w) := first_connected (Member.client_urls new_leader) (cluster_id h) w in
              (ok_or r failed, w)
          end
      end
  end.

Definition connect_cluster (endpoints : list string) : io W Cluster :=
  members ← validate_endpoints endpoints;
  '(addr, members) ← try_connect_leader members;
  cluster_id ← lift (validate_members_response members);
  mret (mkCluster cluster_id addr members).

(** [Connection::reconnect]: the cluster is replaced only on success. *)
Definition reconnect_cluster (cluster : Cluster) : io W Cluster :=
  '(addr, members) ← try_connect_leader (cluster_members cluster);
  mret (mkCluster (id cluster) addr members).
End connection.

(** ** [RetryClient] *)

Record PdRetryConfig := mkRetryConfig { reconnect_interval : Z; max_reconnect_attempts : nat; leader_change_retry : nat }.
Definition PdRetryConfig_default : PdRetryConfig := mkRetryConfig 1000 5 10.

(** The client: the cluster and the time of its last reconnection, behind one lock. *)
Record RetryClient := mkRetryClient { cluster : Cluster; last_connected : Z; retry_config : PdRetryConfig }.

Definition region_from_response (resp : GetRegionResponse) (err : Error) : Result RegionWithLeader.t :=
  region ← ok_or (region resp) err;
  Ok (RegionWithLeader.mk region (region_leader resp)).

Section retry.
Context {W : Type}.
Context (dial dial_keyspace : string → io W unit) (get_members : string → io W GetMembersResponse).
(** [Instant::now] and [sleep]. *)
Context (now : W → Z) (sleep : Z → W → W).

(** [RetryClient::reconnect] *)
Definition reconnect (interval : Z) (s : RetryClient * W) : Result unit * (RetryClient * W) :=
  let '(c, w) := s in
  let reconnect_begin := now w in
  if last_connected c + interval <? reconnect_begin then
    match reconnect_cluster dial dial_keyspace get_members (cluster c) w with
    | (Ok cl, w) => (Ok (), (mkRetryClient cl (now w) (retry_config c), w))
    | (Err e, w) => (Err e, (c, w))
    end
  else (Ok (), (c, w)).
End retry.

(** [retry_core!], for any state, call and reconnection.  [None] is an underflow of
    [reconnect_count]. *)
Section retry_core.
Context {S A : Type} (call : S → Result A * S) (reconnect : S → Result unit * S) (sleep : S → S).

(** The inner loop: [Some None] when a reconnection succeeded, [Some (Some e)] to give up with [e]. *)
Fixpoint reconnect_loop (reconnect_count : nat) (s : S) : option (option Error) * S :=
  match reconnect s with
  | (Ok _, s) => (Some None, s)
  | (Err e, s) =>
      match reconnect_count with
      | O => (None, s)
      | 1%nat => (Some (Some e), s)
      | Datatypes.S n => reconnect_loop n (sleep s)
      end
  end.

Fixpoint retry_loop (max_reconnect_attempts n : nat) (last_err : option Error) (s : S) : option (Result A) * S :=
  match n with
  | O => (Some (Err (default (InternalError "pd retry loop exhausted without producing an error") last_err)), s)
  | Datatypes.S n =>
      match call s with
      | (Ok r, s) => (Some (Ok r), s)
      | (Err e, s) =>
          match reconnect_loop max_reconnect_attempts s with
          | (Some None, s) => retry_loop max_reconnect_attempts n (Some e) s
          | (Some (Some e), s) => (Some (Err e), s)
          | (None, s) => (None, s)
          end
      end
  end.
Definition retry_core (cfg : PdRetryConfig) (s : S) : option (Result A) * S :=
  match leader_change_retry cfg with
  | O => (Some (Err (InternalError "PdRetryConfig.leader_change_retry must be > 0")), s)
  | n => retry_loop (max_reconnect_attempts cfg) n None s
  end.
End retry_core.

(** The requests of [RetryClientTrait]: one attempt sends to the endpoint of the cluster and
    checks the answer; [retry_core!] repeats it. *)
Section operations.
Context {W : Type}.
Context (dial dial_keyspace : string → io W unit) (get_members : string → io W GetMembersResponse).
Context (now : W → Z) (sleep : Z → W → W).

Definition pd_call {Req Resp A} (rpc : string → PdRequest Req → io W Resp) (header_of : Resp → option ResponseHeader)
    (post : Resp → Result A) (req : Req) (s : RetryClient * W) : Result A * (RetryClient * W) :=
  let '(c, w) := s in
  let '(r, w) := rpc (address (cluster c)) (mkRequest (id (cluster c)) req) w in
  ((resp ← r; resp ← check_header header_of resp; post resp) : Result A, (c, w)).

(** The lock of the cluster is not held while the client sleeps, but the cluster it then finds is
    one that another task connected the same way. *)
Definition retry {A} (call : RetryClient * W → Result A * (RetryClient * W)) (s : RetryClient * W) :
    option (Result A) * (RetryClient * W) :=
  let cfg := retry_config s.1 in
  retry_core call (reconnect dial dial_keyspace get_members now (reconnect_interval cfg))
    (λ s, (s.1, sleep (reconnect_interval cfg) s.2)) cfg s.

Definition get_region (rpc : string → PdRequest (list Z) → io W GetRegionResponse) (key : list Z) :=
  retry (pd_call rpc region_header (λ resp, region_from_response resp (RegionForKeyNotFound key)) key).
Definition get_region_by_id (rpc : string → PdRequest Z → io W GetRegionResponse) (region_id : Z) :=
  retry (pd_call rpc region_header (λ resp, region_from_response resp (RegionNotFoundInResponse region_id)) region_id).
Definition get_store (rpc : string → PdRequest Z → io W GetStoreResponse) (store_id : Z) :=
  retry (pd_call rpc store_header (λ resp, ok_or (store resp) (InternalError "missing store in PD GetStoreResponse")) store_id).
Definition get_all_stores (rpc : string → PdRequest unit → io W GetAllStoresResponse) :=
  retry (pd_call rpc stores_header (λ resp, Ok (stores resp)) ()).
Definition get_min_ts (rpc : string → PdRequest unit → io W GetMinTsResponse) :=
  retry (pd_call rpc min_ts_header (λ resp, ok_or (timestamp resp) (InternalError "missing timestamp in PD GetMinTsResponse")) ()).
Definition update_safepoint (rpc : string → PdRequest Z → io W UpdateGcSafePointResponse) (safepoint : Z) :=
  retry (pd_call rpc safe_point_header (λ resp, Ok (new_safe_point resp =? safepoint)) safepoint).
Definition load_keyspace (rpc : string → PdRequest string → io W LoadKeyspaceResponse) (name : string) :=
  retry (pd_call rpc keyspace_header (λ resp, ok_or (keyspace resp) (KeyspaceNotFound name)) name).
(** [get_timestamp] asks the oracle of the cluster. *)
Definition get_timestamp (tso : Cluster → io W Timestamp.t) :=
  retry (λ s, let '(r, w) := tso (cluster s.1) s.2 in (r, (s.1, w))).
End operations.

(** ** The cluster *)

(** The members are those of the cluster whose id the client sends. *)
Definition cluster_ok (cl : Cluster) : Prop := validate_members_response (cluster_members cl) = Ok (id cl).

Lemma validate_members_ok resp n : validate_members_response resp = Ok n →
  (∃ h, header resp = Some h ∧ cluster_id h = n ∧ error h = None) ∧ n ≠ 0 ∧
  (∃ l, leader resp = Some l ∧ Member.client_urls l ≠ [] ∧ ∃ m, m ∈ members resp ∧ Member.member_id m = Member.member_id l) ∧
  (∀ m, m ∈ members resp → Member.client_urls m ≠ []).
Proof.
  unfold validate_members_response. destruct (header resp) as [h|]; [cbn [ok_or mbind result_bind]|done].
  destruct (error h) eqn:Ee; [done|]. destruct (Z.eqb_spec (cluster_id h) 0) as [|Hz]; [done|].
  destruct (leader resp) as [l|]; [cbn [ok_or mbind result_bind]|done].
  destruct (Member.client_urls l) as [|u us] eqn:Eu; [done|]. cbn [is_empty].
  destruct (is_empty (members resp)); [done|].
  destruct (existsb _ (members resp)) eqn:Ex; [cbn [negb]|done].
  destruct (existsb (λ m, is_empty _) (members resp)) eqn:Ey; [done|]. intros [= <-].
  apply existsb_exists in Ex as (m & Hin & Hm%Z.eqb_eq). split_and!; eauto.
  - exists l. rewrite Eu. split_and!; [done..|]. exists m. by rewrite list_elem_of_In.
  - intros m' Hm' Eu'. apply not_true_iff_false in Ey. apply Ey, existsb_exists. exists m'.
    rewrite <- list_elem_of_In. by rewrite Eu'.
Qed.

Section connection_lemmas.
Context {W : Type}.
Context (dial dial_keyspace : string → io W unit) (get_members : string → io W GetMembersResponse).
#[local] Abbreviation connect' := (connect dial dial_keyspace get_members).
#[local] Abbreviation try_connect' := (try_connect dial dial_keyspace get_members).
#[local] Abbreviation first_connected' := (first_connected dial dial_keyspace get_members).
#[local] Abbreviation try_connect_leader' := (try_connect_leader dial dial_keyspace get_members).

Lemma connect_ok addr w r w' : connect' addr w = (Ok r, w') → ∃ n, validate_members_response r = Ok n.
Proof.
  unfold connect, mbind, io_bind, lift. destruct (dial addr w) as [[[]|] w1]; [|done].
  destruct (dial_keyspace addr w1) as [[[]|] w2]; [|done]. destruct (get_members addr w2) as [[resp|] w3]; [|done].
  destruct (validate_members_response resp) as [n|] eqn:E; [|done]. intros [= <- <-]. eauto.
Qed.

Lemma try_connect_ok addr n w r w' : try_connect' addr n w = (Ok r, w') → validate_members_response r = Ok n.
Proof.
  unfold try_connect, mbind, io_bind, lift. destruct (connect' addr w) as [[resp|] w1] eqn:E; [|done].
  apply connect_ok in E as [k Hk]. pose proof (validate_members_ok resp k Hk) as ((h & Hh & Hc & _) & _).
  unfold validate_cluster_id. rewrite Hh. cbn. destruct (Z.eqb_spec (cluster_id h) n); [|done].
  intros [= <- <-]. by rewrite Hk, <- Hc, e.
Qed.

Lemma first_connected_ok eps n w ep r w' : first_connected' eps n w = (Some (ep, r), w') →
  ep ∈ eps ∧ validate_members_response r = Ok n.
Proof.
  revert w. induction eps as [|e eps IH]; intros w; cbn; [done|].
  destruct (try_connect' e n w) as [[x|] w1] eqn:E.
  - intros [= <- <- <-]. split; [by left | by apply try_connect_ok in E].
  - intros [? ?]%IH. split; [by right | done].
Qed.

End connection_lemmas.

(** *** What the client exchanged with the network

    The calls record what they did: the answers to [GetMembers], and the requests that were sent. *)

Inductive Event := Members (addr : string) (resp : GetMembersResponse) | Requested (addr : string) (cluster_id : Z).

Definition traced {W A} (m : io W A) (ev : Result A → list Event) : io (W * list Event) A := λ s,
  let '(r, w) := m s.1 in (r, (w, s.2 ++ ev r)).
Definition traced_dial {W} (dial : string → io W unit) (addr : string) : io (W * list Event) unit := traced (dial addr) (λ _, []).
Definition traced_members {W} (get_members : string → io W GetMembersResponse) (addr : string) : io (W * list Event) GetMembersResponse :=
  traced (get_members addr) (λ r, match r with Ok resp => [Members addr resp] | Err _ => [] end).
Definition traced_rpc {W Req Resp} (rpc : string → PdRequest Req → io W Resp) (addr : string) (req : PdRequest Req) :
    io (W * list Event) Resp :=
  traced (rpc addr req) (λ _, [Requested addr (request_cluster_id req)]).

(** A member that belongs to the cluster [n] answered that [addr] is an endpoint of the leader. *)
Definition leader_at (tr : list Event) (n : Z) (addr : string) : Prop :=
  ∃ ep resp l, Members ep resp ∈ tr ∧ validate_members_response resp = Ok n ∧ leader resp = Some l ∧ addr ∈ Member.client_urls l.

(** The cluster is at an endpoint of its leader, which itself answered with the members of the cluster. *)
Definition cluster_traced (tr : list Event) (cl : Cluster) : Prop :=
  leader_at tr (id cl) (address cl) ∧ Members (address cl) (cluster_members cl) ∈ tr ∧ cluster_ok cl.

(** More answers of members. *)
Definition is_members (e : Event) : bool := match e with Members _ _ => true | Requested _ _ => false end.
Definition asked (tr tr' : list Event) : Prop := ∃ new, tr' = tr ++ new ∧ Forall (λ e, is_members e = true) new.
#[export] Instance asked_preorder : PreOrder asked.
Proof.
  split; [by intros tr; exists []; rewrite app_nil_r; split|].
  intros t1 t2 t3 (n1 & -> & H1) (n2 & -> & H2). exists (n1 ++ n2). rewrite app_assoc. split; [done | by apply Forall_app].
Qed.
Lemma asked_in tr tr' e : asked tr tr' → e ∈ tr → e ∈ tr'.
Proof. intros (new & -> & _) He. apply elem_of_app. by left. Qed.
Lemma leader_at_mono tr tr' n addr : (∀ e, e ∈ tr → e ∈ tr') → leader_at tr n addr → leader_at tr' n addr.
Proof. intros Hs (ep & resp & l & He & H). exists ep, resp, l. split; [auto | done]. Qed.
Lemma cluster_traced_mono tr tr' cl : (∀ e, e ∈ tr → e ∈ tr') → cluster_traced tr cl → cluster_traced tr' cl.
Proof. intros Hs (Hl & Hm & Ho). split_and!; [by eapply leader_at_mono | auto | done]. Qed.

(** Every request carries the id [n], and went to an endpoint that an answer received before named as the leader's. *)
Definition well_addressed (n : Z) (tr : list Event) : Prop :=
  ∀ before addr i after, tr = before ++ Requested addr i :: after → i = n ∧ leader_at before n addr.

Lemma well_addressed_asked n tr tr' : asked tr tr' → well_addressed n tr → well_addressed n tr'.
Proof.
  intros (new & -> & HF) Hw before addr i after [(k & -> & E)|(k & -> & ->)]%app_eq_inv.
  - destruct k as [|e k]; [|injection E as <- ->; by eapply Hw].
    cbn in E. subst new. by apply Forall_cons in HF as [? _].
  - apply Forall_app in HF as [_ [? _]%Forall_cons]. done.
Qed.

Lemma well_addressed_request n tr addr : leader_at tr n addr → well_addressed n tr → well_addressed n (tr ++ [Requested addr n]).
Proof.
  intros Hl Hw before addr' i after E. destruct after as [|e after _] using rev_ind.
  - by apply app_inj_tail in E as [<- [= <- <-]].
  - rewrite app_comm_cons, app_assoc in E. apply app_inj_tail in E as [-> _]. by eapply Hw.
Qed.

Section traced_connection.
Context {W : Type} (dial dial_keyspace : string → io W unit) (get_members : string → io W GetMembersResponse).
#[local] Abbreviation connect' := (connect (traced_dial dial) (traced_dial dial_keyspace) (traced_members get_members)).
#[local] Abbreviation try_connect' := (try_connect (traced_dial dial) (traced_dial dial_keyspace) (traced_members get_members)).
#[local] Abbreviation first_connected' := (first_connected (traced_dial dial) (traced_dial dial_keyspace) (traced_members get_members)).
#[local] Abbreviation try_connect_leader' := (try_connect_leader (traced_dial dial) (traced_dial dial_keyspace) (traced_members get_members)).

Lemma connect_traced addr s r s' : connect' addr s = (r, s') → asked s.2 s'.2 ∧ ∀ resp, r = Ok resp → Members addr resp ∈ s'.2.
Proof.
  destruct s as [w tr]. unfold connect, traced_dial, traced_members, traced, mbind, io_bind, lift, mret, io_ret. cbn.
  destruct (dial addr w) as [[[]|] w1]; cbn; rewrite ?app_nil_r; [|intros [= <- <-]; by split].
  destruct (dial_keyspace addr w1) as [[[]|] w2]; cbn; rewrite ?app_nil_r; [|intros [= <- <-]; by split].
  destruct (get_members addr w2) as [[resp|] w3]; cbn; rewrite ?app_nil_r; [|intros [= <- <-]; by split].
  assert (asked tr (tr ++ [Members addr resp])) as Ha by (exists [Members addr resp]; split; [done | by repeat constructor]).
  destruct (validate_members_response resp); intros [= <- <-]; (split; [exact Ha|]); [|done].
  intros resp' [= <-]. apply elem_of_app. right. by apply elem_of_cons; left.
Qed.

Lemma try_connect_traced addr n s r s' : try_connect' addr n s = (r, s') →
  asked s.2 s'.2 ∧ ∀ resp, r = Ok resp → Members addr resp ∈ s'.2.
Proof.
  unfold try_connect, mbind at 1, io_bind at 1. destruct (connect' addr s) as [[resp|] s1] eqn:E; apply connect_traced in E as [Ha Hin].
  - unfold mbind, io_bind, lift, mret, io_ret. destruct (validate_cluster_id resp n); intros [= <- <-]; (split; [exact Ha|]); [|done].
    intros resp' [= <-]. by apply Hin.
  - intros [= <- <-]. by split.
Qed.

Lemma first_connected_traced eps n s x s' : first_connected' eps n s = (x, s') →
  asked s.2 s'.2 ∧ ∀ ep r, x = Some (ep, r) → Members ep r ∈ s'.2.
Proof.
  revert s. induction eps as [|e eps IH]; intros s; cbn [first_connected]; [by intros [= <- <-]|].
  destruct (try_connect' e n s) as [[y|] s1] eqn:E; apply try_connect_traced in E as [Ha Hin].
  - intros [= <- <-]. split; [done|]. intros ep r [= <- <-]. by apply Hin.
  - intros [Ha' Hin']%IH. split; [by etransitivity | done].
Qed.

(** A leader found is one that a member of the same cluster named, and it answered. *)
Lemma try_connect_leader_traced previous s x s' : try_connect_leader' previous s = (x, s') →
  asked s.2 s'.2 ∧ ∀ addr r, x = Ok (addr, r) → ∃ h, header previous = Some h ∧
    validate_members_response r = Ok (cluster_id h) ∧ leader_at s'.2 (cluster_id h) addr ∧ Members addr r ∈ s'.2.
Proof.
  unfold try_connect_leader. destruct (leader previous) as [pl|]; [|by intros [= <- <-]].
  destruct (header previous) as [h|]; [|by intros [= <- <-]].
  destruct (first_connected' _ _ s) as [[[ep resp]|] s1] eqn:E1; pose proof (first_connected_traced _ _ _ _ _ E1) as [Ha1 Hin1];
    [|by intros [= <- <-]].
  destruct (leader resp) as [l|] eqn:El; [|by intros [= <- <-]].
  destruct (first_connected' (Member.client_urls l) (cluster_id h) s1) as [[[ep2 r2]|] s2] eqn:E2;
    pose proof (first_connected_traced _ _ _ _ _ E2) as [Ha2 Hin2]; intros [= <- <-]; (split; [by etransitivity|]); [|done].
  intros addr r [= <- <-]. exists h. apply first_connected_ok in E1 as [_ Hv1]. apply first_connected_ok in E2 as [Hurl Hv2].
  split_and!; [done | done | | by apply Hin2]. exists ep, resp, l. split_and!; [|done..]. by eapply asked_in, Hin1.
Qed.

Lemma reconnect_cluster_traced cl s x s' :
  reconnect_cluster (traced_dial dial) (traced_dial dial_keyspace) (traced_members get_members) cl s = (x, s') →
  cluster_ok cl → asked s.2 s'.2 ∧ ∀ cl', x = Ok cl' → id cl' = id cl ∧ cluster_traced s'.2 cl'.
Proof.
  unfold reconnect_cluster, mbind, io_bind. intros E Hok.
  destruct (try_connect_leader' (cluster_members cl) s) as [[[addr r]|] s1] eqn:E1;
    apply try_connect_leader_traced in E1 as [Ha Hin]; injection E as <- <-; (split; [done|]); [|done].
  intros cl' [= <-]. destruct (Hin addr r eq_refl) as (h & Hh & Hr & Hl & Hm).
  destruct (validate_members_ok _ _ Hok) as ((h' & Hh' & Hc & _) & _). assert (cluster_id h = id cl) as E by congruence.
  rewrite E in Hr, Hl. split; [done|]. by split_and!.
Qed.

Lemma validate_endpoints_traced eps : ∀ set members sample s x s',
  validate_endpoints_loop (traced_dial dial) (traced_dial dial_keyspace) (traced_members get_members) eps set members sample s = (x, s') →
  asked s.2 s'.2.
Proof.
  induction eps as [|ep eps IH]; intros set mem sample s x s'; cbn [validate_endpoints_loop]; [by intros [= <- <-]|].
  destruct (existsb _ set); [by intros [= <- <-]|].
  destruct (connect' ep s) as [[resp|] s1] eqn:E; apply connect_traced in E as [Ha _].
  - destruct (header resp) as [h|]; [|by intros [= <- <-]]. destruct sample as [n|]; [destruct (negb _); [by intros [= <- <-]|]|];
      intros Hr%IH; by etransitivity.
  - intros Hr%IH. by etransitivity.
Qed.

Lemma connect_cluster_traced endpoints s c s' :
  connect_cluster (traced_dial dial) (traced_dial dial_keyspace) (traced_members get_members) endpoints s = (Ok c, s') →
  asked s.2 s'.2 ∧ cluster_traced s'.2 c.
Proof.
  unfold connect_cluster, mbind, io_bind, lift. destruct (validate_endpoints _ _ _ endpoints s) as [[mem|] s1] eqn:E1; [|done].
  apply validate_endpoints_traced in E1.
  destruct (try_connect_leader' mem s1) as [[[addr r]|] s2] eqn:E2; [|done]. apply try_connect_leader_traced in E2 as [Ha Hin].
  destruct (validate_members_response r) as [n|] eqn:Ev; [|done]. intros [= <- <-]. split; [by etransitivity|].
  destruct (Hin addr r eq_refl) as (h & _ & Hr & Hl & Hm). assert (cluster_id h = n) as <- by congruence. by split_and!.
Qed.
End traced_connection.

(** ** The retry loop *)

Section retry_lemmas.
Context {S A : Type} (call : S → Result A * S) (reconnect : S → Result unit * S) (sleep : S → S).

(** What every step preserves, the loop preserves. *)
Lemma retry_core_inv (P : S → Prop) cfg s : P s →
  (∀ s, P s → P (call s).2) → (∀ s, P s → P (reconnect s).2) → (∀ s, P s → P (sleep s)) →
  P (retry_core call reconnect sleep cfg s).2.
Proof.
  intros Hs Hc Hr Hsl.
  assert (∀ n s, P s → P (reconnect_loop reconnect sleep n s).2) as Hrl.
  { induction n as [|n IH]; intros s1 H1; cbn; specialize (Hr s1 H1); destruct (reconnect s1) as [[|] s2]; try done.
    destruct n; [done|]. by apply IH, Hsl. }
  unfold retry_core. destruct (leader_change_retry cfg) as [|k]; [done|]. generalize (Datatypes.S k). clear k. intros k.
  generalize (None : option Error). revert s Hs. induction k as [|k IH]; intros s1 H1 le; cbn; [done|].
  specialize (Hc s1 H1). destruct (call s1) as [[|] s2]; [done|]. cbn in Hc.
  specialize (Hrl (max_reconnect_attempts cfg) s2 Hc).
  destruct (reconnect_loop _ _ _ s2) as [[[]|] s3]; try done. by apply IH.
Qed.

Context (calls reconnects : S → nat).
Hypothesis calls_call : ∀ s, calls (call s).2 = Datatypes.S (calls s) ∧ reconnects (call s).2 = reconnects s.
Hypothesis calls_reconnect : ∀ s, calls (reconnect s).2 = calls s ∧ reconnects (reconnect s).2 = Datatypes.S (reconnects s).
Hypothesis calls_sleep : ∀ s, calls (sleep s) = calls s ∧ reconnects (sleep s) = reconnects s.

Lemma reconnect_loop_spec n s : (0 < n)%nat → ∃ r s', reconnect_loop reconnect sleep n s = (Some r, s') ∧
  calls s' = calls s ∧ (reconnects s' ≤ reconnects s + n)%nat ∧
  match r with Some e => ∃ s1, reconnect s1 = (Err e, s') | None => True end.
Proof.
  revert s. induction n as [|n IH]; intros s Hn; [lia|]. cbn. pose proof (calls_reconnect s) as [? ?].
  destruct (reconnect s) as [[u|e] s1] eqn:E; cbn in *.
  - exists None, s1. split_and!; [done.. | lia | done].
  - destruct n as [|n].
    + exists (Some e), s1. split_and!; [done.. | lia | eauto].
    + destruct (IH (sleep s1)) as (r & s' & E' & ? & ? & ?); [lia|]. pose proof (calls_sleep s1) as [? ?].
      exists r, s'. split_and!; [done | lia | lia | done].
Qed.

Lemma retry_loop_spec m n last_err s : (0 < m)%nat → (0 < n)%nat ∨ is_Some last_err →
  ∃ r s', retry_loop call reconnect sleep m n last_err s = (Some r, s') ∧
    (calls s ≤ calls s' ≤ calls s + n)%nat ∧ (reconnects s' ≤ reconnects s + (calls s' - calls s) * m)%nat ∧
    match r with
    | Ok a => ∃ s1, call s1 = (Ok a, s')
    | Err e => (∃ s1, reconnect s1 = (Err e, s')) ∨
        (calls s' = calls s + n)%nat ∧ ((∃ s1 s2, call s1 = (Err e, s2)) ∨ (n = O ∧ last_err = Some e))
    end.
Proof.
  intros Hm. revert last_err s. induction n as [|n IH]; intros last_err s Hn; cbn.
  { destruct Hn as [?|[e ->]]; [lia|]. do 2 eexists. split; [done|]. split; [lia|]. split; [lia|]. right. split; [lia|]. by right. }
  pose proof (calls_call s) as [Hc Hr]. destruct (call s) as [[a|e] s1] eqn:E; cbn in Hc, Hr.
  - exists (Ok a), s1. split_and!; [done | lia | lia | lia | eauto].
  - destruct (reconnect_loop_spec m s1 Hm) as (r & s2 & -> & Hc2 & Hr2 & Hre). destruct r as [e2|].
    + exists (Err e2), s2. split_and!; [done | lia | lia | nia | by left].
    + destruct (IH (Some e) s2) as (r & s' & -> & Hcs & Hrs & Hres); [by right|].
      exists r, s'. split; [done|]. split; [lia|]. split; [nia|]. destruct r as [a|e2]; [done|].
      destruct Hres as [?|[Hcn [?|[-> [= <-]]]]]; [by left | right; split; [lia | by left] | right; split; [lia | left; eauto]].
Qed.
End retry_lemmas.

(** The retries of PD requests are bounded and truthful.  With at least one call and one
    reconnection allowed, a request returns: it makes at least one and at most
    [leader_change_retry] calls, and at most [max_reconnect_attempts] reconnections after
    each of them.  A result is the result of the last call; an error is that of the last
    reconnection, or the error of a call after all calls are used up.  A first call that
    succeeds is all that is done. *)
Theorem pd_retry_bounded {S A} (call : S → Result A * S) (reconnect : S → Result unit * S) (sleep : S → S)
    (calls reconnects : S → nat) cfg s :
  (∀ s, calls (call s).2 = Datatypes.S (calls s) ∧ reconnects (call s).2 = reconnects s) →
  (∀ s, calls (reconnect s).2 = calls s ∧ reconnects (reconnect s).2 = Datatypes.S (reconnects s)) →
  (∀ s, calls (sleep s) = calls s ∧ reconnects (sleep s) = reconnects s) →
  (0 < max_reconnect_attempts cfg)%nat → (0 < leader_change_retry cfg)%nat →
  ∃ r s', retry_core call reconnect sleep cfg s = (Some r, s') ∧
    (calls s < calls s' ≤ calls s + leader_change_retry cfg)%nat ∧
    (reconnects s' ≤ reconnects s + (calls s' - calls s) * max_reconnect_attempts cfg)%nat ∧
    match r with
    | Ok a => ∃ s1, call s1 = (Ok a, s')
    | Err e => (∃ s1, reconnect s1 = (Err e, s')) ∨
        (calls s' = calls s + leader_change_retry cfg)%nat ∧ ∃ s1 s2, call s1 = (Err e, s2)
    end ∧
    (∀ a s1, call s = (Ok a, s1) → r = Ok a ∧ s' = s1).
Proof.
  intros Hc Hr Hs Hm Hn. unfold retry_core. destruct (leader_change_retry cfg) as [|n] eqn:En; [lia|].
  destruct (retry_loop_spec call reconnect sleep calls reconnects Hc Hr Hs (max_reconnect_attempts cfg)
    (Datatypes.S n) None s Hm) as (r & s' & E & Hcs & Hrs & Hres); [by left; lia|].
  exists r, s'. split; [done|].
  assert (calls s < calls s')%nat as Hlt.
  { cbn in E. pose proof (Hc s) as [Hc0 _]. destruct (call s) as [[a|e] s1]; cbn in Hc0; [injection E as <- <-; lia|].
    destruct (reconnect_loop_spec reconnect sleep calls reconnects Hr Hs (max_reconnect_attempts cfg) s1 Hm) as (r1 & s2 & E1 & ? & _).
    rewrite E1 in E. destruct r1 as [e1|]; [injection E as <- <-; lia|].
    destruct (retry_loop_spec call reconnect sleep calls reconnects Hc Hr Hs (max_reconnect_attempts cfg) n (Some e) s2 Hm)
      as (r2 & s3 & E2 & ? & _); [by right|]. rewrite E2 in E. injection E as <- <-. lia. }
  split; [lia|]. split; [done|]. split.
  - destruct r; [done|]. destruct Hres as [?|[? [?|[? ?]]]]; [by left | by right | done].
  - intros a s1 E1. cbn in E. rewrite E1 in E. by injection E as <- <-.
Qed.

(** A call that fails twice, then succeeds; the reconnections succeed. *)
Lemma pd_retry_bounded_witness :
  let call (s : nat * nat) : Result Z * (nat * nat) :=
    (if (s.1 <? 2)%nat then Err (InternalError "not leader") else Ok 42, (Datatypes.S s.1, s.2)) in
  let reconnect (s : nat * nat) : Result unit * (nat * nat) := (Ok (), (s.1, Datatypes.S s.2)) in
  retry_core call reconnect (λ s, s) PdRetryConfig_default (0, 0)%nat = (Some (Ok 42), (3, 2)%nat) ∧
  ∃ r s', retry_core call reconnect (λ s, s) PdRetryConfig_default (0, 0)%nat = (Some r, s') ∧ (s'.1 ≤ 10)%nat.
Proof.
  intros call reconnect. split; [reflexivity|].
  destruct (pd_retry_bounded call reconnect (λ s, s) fst snd PdRetryConfig_default (0, 0)%nat)
    as (r & s' & E & H & _); [done | done | done | cbn; lia | cbn; lia |].
  exists r, s'. split; [exact E | exact (proj2 H)].
Defined.

(** [max_reconnect_attempts = 0] underflows the counter at the first failure. *)
Lemma zero_reconnect_attempts_underflow {S A} (call : S → Result A * S) reconnect sleep n s e s1 e2 s2 :
  call s = (Err e, s1) → reconnect s1 = (Err e2, s2) →
  retry_core call reconnect sleep (mkRetryConfig 1000 0 (Datatypes.S n)) s = (None, s2).
Proof. intros E1 E2. unfold retry_core. cbn. by rewrite E1, E2. Qed.

(** *** A session: the connection and the requests that follow, with all their reconnections *)

Section session.
Context {W : Type} (dial dial_keyspace : string → io W unit) (get_members : string → io W GetMembersResponse).
Context (now : W → Z) (sleep : Z → W → W).
Context {Req Resp A : Type} (rpc : string → PdRequest Req → io W Resp) (header_of : Resp → option ResponseHeader) (post : Req → Resp → Result A).

(** [Req] may be the sum of the kinds of requests: what is made of the response depends on the request. *)
Definition request (req : Req) : RetryClient * (W * list Event) → option (Result A) * (RetryClient * (W * list Event)) :=
  retry (traced_dial dial) (traced_dial dial_keyspace) (traced_members get_members) (λ s, now s.1) (λ d s, (sleep d s.1, s.2))
    (pd_call (traced_rpc rpc) header_of (post req) req).

Fixpoint session (reqs : list Req) (s : RetryClient * (W * list Event)) : RetryClient * (W * list Event) :=
  match reqs with [] => s | req :: reqs => session reqs (request req s).2 end.

(** The client of a cluster with the id [n], and what it has sent. *)
Definition in_session (n : Z) (s : RetryClient * (W * list Event)) : Prop :=
  cluster_traced s.2.2 (cluster s.1) ∧ id (cluster s.1) = n ∧
  well_addressed n s.2.2.

Lemma in_session_asked n (s : RetryClient * (W * list Event)) client s1 : in_session n s → asked s.2.2 s1.2 →
  cluster_traced s1.2 (cluster client) → id (cluster client) = n → in_session n (client, s1).
Proof.
  intros (_ & _ & Hr) Ha Hc Hid. split_and!; [done | done | by eapply well_addressed_asked].
Qed.

Lemma in_session_call n req (s : RetryClient * (W * list Event)) :
  in_session n s → in_session n (pd_call (traced_rpc rpc) header_of (post req) req s).2.
Proof.
  destruct s as [client [w tr]]. intros (Hc & Hid & Hr). unfold pd_call, traced_rpc, traced. cbn.
  destruct (rpc _ _ w) as [r w']. cbn. assert (∀ e, e ∈ tr → e ∈ tr ++ [Requested (address (cluster client)) (id (cluster client))]) as Hs
    by (intros e He; apply elem_of_app; by left).
  split_and!; [by eapply cluster_traced_mono | done|]. cbn in Hid. subst n. apply well_addressed_request; [apply Hc | done].
Qed.

Lemma in_session_reconnect n interval (s : RetryClient * (W * list Event)) : in_session n s →
  in_session n (reconnect (traced_dial dial) (traced_dial dial_keyspace) (traced_members get_members) (λ s, now s.1) interval s).2.
Proof.
  destruct s as [client [w tr]]. intros Hs. pose proof Hs as (Hc & Hid & Hr). unfold reconnect. cbn [fst].
  destruct (_ <? now w); [|done].
  destruct (reconnect_cluster _ _ _ (cluster client) (w, tr)) as [[cl|] s1] eqn:E;
    apply reconnect_cluster_traced in E as [Ha Hin]; try apply Hc.
  - destruct (Hin cl eq_refl) as [Hid' Hc']. eapply in_session_asked; [exact Hs | exact Ha | exact Hc' |]. cbn in *. by rewrite Hid'.
  - eapply in_session_asked; [exact Hs | exact Ha | | done]. eapply cluster_traced_mono; [|exact Hc]. intros ev. by apply asked_in.
Qed.

Lemma in_session_request n req s : in_session n s → in_session n (request req s).2.
Proof.
  intros Hs. unfold request, retry. apply (retry_core_inv _ _ _ (in_session n)); [done | | |].
  - intros s1. apply in_session_call.
  - intros s1. apply in_session_reconnect.
  - by intros [client [w tr]].
Qed.

Lemma session_in_session n reqs : ∀ s, in_session n s → in_session n (session reqs s).
Proof. induction reqs as [|req reqs IH]; intros s Hs; [done|]. by apply IH, in_session_request. Qed.
End session.

(** C27: the client stays with the leader of its cluster.  Take a connection to PD that succeeds and any requests after it,
    each with all its retries and reconnections, whatever the network answers, and record the answers to [GetMembers] and the
    requests sent.  Then the cluster id is the one of the connection, and not zero.  The client is connected to an
    endpoint of the leader, as named by an answer it received from a member of the cluster with this id, and this endpoint itself
    answered with the members the client now has, which are well formed and of this cluster.  Every request that was sent carries this
    cluster id, and went to an endpoint that an answer received before it named as the leader's. *)
Theorem pd_cluster_identity {W} (dial dial_keyspace : string → io W unit) (get_members : string → io W GetMembersResponse)
    (now : W → Z) (sleep : Z → W → W) {Req Resp A} (rpc : string → PdRequest Req → io W Resp) header_of
    (post : Req → Resp → Result A) endpoints w c w1 tr1 last cfg reqs :
  connect_cluster (traced_dial dial) (traced_dial dial_keyspace) (traced_members get_members) endpoints (w, []) = (Ok c, (w1, tr1)) →
  let '(client, (_, tr)) := session dial dial_keyspace get_members now sleep rpc header_of post reqs (mkRetryClient c last cfg, (w1, tr1)) in
  id (cluster client) = id c ∧ id c ≠ 0 ∧
  leader_at tr (id c) (address (cluster client)) ∧
  Members (address (cluster client)) (cluster_members (cluster client)) ∈ tr ∧
  validate_members_response (cluster_members (cluster client)) = Ok (id c) ∧
  ∀ before addr i after, tr = before ++ Requested addr i :: after → i = id c ∧ leader_at before (id c) addr.
Proof.
  intros E. apply connect_cluster_traced in E as [Ha Hc]. cbn in Ha, Hc.
  assert (in_session (W := W) (id c) (mkRetryClient c last cfg, (w1, tr1))) as Hs.
  { split_and!; [done | done|]. eapply well_addressed_asked; [exact Ha|]. by intros [] ? ? ?. }
  apply (session_in_session dial dial_keyspace get_members now sleep rpc header_of post (id c) reqs) in Hs.
  destruct (session _ _ _ _ _ _ _ _ reqs _) as [client [w' tr]]. destruct Hs as ((Hl & Hm & Hok) & Hid & Hr). cbn in *.
  unfold cluster_ok in Hok. rewrite Hid in Hl, Hok. split_and!; try done. by eapply validate_members_ok.
Qed.

(** A cluster of two members; the first endpoint does not answer, the second names the first as leader at another URL.  The first
    request fails, and the client finds the leader again. *)
Definition sample_m1 : Member.t := Member.mk "pd1" 1 [] ["a1"; "a2"]%string 0 "" "" "" "".
Definition sample_m2 : Member.t := Member.mk "pd2" 2 [] ["b1"]%string 0 "" "" "" "".
Definition sample_members : GetMembersResponse := mkMembers (Some (mkHeader 7 None)) [sample_m1; sample_m2] (Some sample_m1).
Definition sample_dial (addr : string) : io nat unit := λ w, (if String.eqb addr "a1" then Err (InternalError "down") else Ok (), w).
Definition sample_get_members (addr : string) : io nat GetMembersResponse := λ w, (Ok sample_members, w).
Definition sample_rpc (addr : string) (req : PdRequest unit) : io nat GetAllStoresResponse := λ w,
  (if (w =? 0)%nat then Err (InternalError "not leader") else Ok (mkGetAllStores (Some (mkHeader 7 None)) []), Datatypes.S w).

Lemma pd_cluster_identity_witness :
  let c := mkCluster 7 "a2" sample_members in
  let s := session sample_dial sample_dial sample_get_members (λ _, 2000) (λ _ w, w) sample_rpc stores_header (λ _ r, Ok (stores r)) [()]
             (mkRetryClient c 0 PdRetryConfig_default, (0%nat, [Members "b1" sample_members; Members "b1" sample_members; Members "a2" sample_members])) in
  s.2.2 = [Members "b1" sample_members; Members "b1" sample_members; Members "a2" sample_members; Requested "a2" 7;
           Members "b1" sample_members; Members "a2" sample_members; Requested "a2" 7] ∧
  id (cluster s.1) = 7.
Proof.
  intros c s. split; [by vm_compute|].
  refine (proj1 (pd_cluster_identity sample_dial sample_dial sample_get_members (λ _, 2000) (λ _ w, w) sample_rpc stores_header
    (λ _ r, Ok (stores r)) ["a1"; "b1"]%string 0%nat c 0%nat
    [Members "b1" sample_members; Members "b1" sample_members; Members "a2" sample_members] 0 PdRetryConfig_default [()] _)).
  by vm_compute.
Defined.
