(* ===== verification/Connections.v ===== *)
(** * The connections of the PD client (src/src/pd/client.rs)

    [PdRpcClient::kv_client] keeps one [OnceCell] per store address.  Tasks run it concurrently: a task looks
    its address up under the read lock, creates the cell under the write lock when there is none (another task
    may have done so in between), and then fills the cell or waits for the task that fills it.  A connection
    attempt may fail and any task may be cancelled; the cell is then free again.

    The steps of the tasks are a function, executions are lists of events.  The theorem: there is at most one
    connection attempt at a time and at most one connection per address.  [map_region_to_store] and [all_stores]
    use it with the store cache of Regions.v. *)

From S2P Require Import Prelude Keys Proto Errors Regions.

Section connections.
Context {Client : Type}.

(** [OnceCell]: empty, being filled by a task, or filled for ever. *)
Inductive Cell := Empty | Filling (task : nat) | Filled (client : Client).

(** Where a call of [kv_client] stands. *)
Inductive Pc :=
| Start                    (** before the lookup under the read lock *)
| Missed                   (** not found; before [entry(..).or_insert_with(..)] under the write lock *)
| HasCell (cell : nat)     (** before or in [get_or_try_init], without the permit *)
| Connecting (cell : nat)  (** in [kv_connect.connect], with the permit *)
| Returned (r : Result Client)
| Cancelled.

Record State := mkState {
  kv_client_cache : gmap string nat;
  cells : list Cell;
  tasks : list (string * Pc)
}.

Inductive Event :=
| Call (address : string)
| Poll (task : nat)
| Connected (task : nat) (r : Result Client)
| Cancel (task : nat).

Definition set_pc (t : nat) (address : string) (pc : Pc) (s : State) : State :=
  mkState (kv_client_cache s) (cells s) (<[t := (address, pc)]> (tasks s)).
Definition set_cell (c : nat) (cell : Cell) (s : State) : State :=
  mkState (kv_client_cache s) (<[c := cell]> (cells s)) (tasks s).

(** One poll of a task; [None]: the task waits. *)
Definition poll (t : nat) (address : string) (pc : Pc) (s : State) : option State :=
  match pc with
  | Start =>
      Some (set_pc t address (match kv_client_cache s !! address with Some c => HasCell c | None => Missed end) s)
  | Missed =>
      match kv_client_cache s !! address with
      | Some c => Some (set_pc t address (HasCell c) s)
      | None =>
          let c := length (cells s) in
          Some (set_pc t address (HasCell c)
            (mkState (<[address := c]> (kv_client_cache s)) (cells s ++ [Empty]) (tasks s)))
      end
  | HasCell c =>
      match cells s !! c with
      | Some Empty => Some (set_pc t address (Connecting c) (set_cell c (Filling t) s))
      | Some (Filled client) => Some (set_pc t address (Returned (Ok client)) s)
      | _ => None
      end
  | _ => None
  end.

Definition step (s : State) (e : Event) : option State :=
  match e with
  | Call address => Some (mkState (kv_client_cache s) (cells s) (tasks s ++ [(address, Start)]))
  | Poll t => '(address, pc) ← tasks s !! t; poll t address pc s
  | Connected t r =>
      match tasks s !! t with
      | Some (address, Connecting c) =>
          let s := set_pc t address (Returned r) s in
          Some (set_cell c (match r with Ok client => Filled client | Err _ => Empty end) s)
      | _ => None
      end
  | Cancel t =>
      match tasks s !! t with
      | Some (address, Connecting c) => Some (set_cell c Empty (set_pc t address Cancelled s))
      | Some (address, (Start | Missed | HasCell _)) => Some (set_pc t address Cancelled s)
      | _ => None
      end
  end.

Definition new_client : State := mkState ∅ [] [].

(** ** The invariant *)

(** What the place of a task says about the cells. *)
Definition task_ok (s : State) (t : nat) (address : string) (pc : Pc) : Prop :=
  match pc with
  | HasCell c => kv_client_cache s !! address = Some c
  | Connecting c => kv_client_cache s !! address = Some c ∧ cells s !! c = Some (Filling t)
  | Returned (Ok client) =>
      ∃ c, kv_client_cache s !! address = Some c ∧ cells s !! c = Some (Filled client)
  | _ => True
  end.

Record inv (s : State) : Prop := {
  inv_tasks : ∀ t address pc, tasks s !! t = Some (address, pc) → task_ok s t address pc;
  inv_cells : ∀ address c, kv_client_cache s !! address = Some c → is_Some (cells s !! c);
  inv_inj : ∀ a1 a2 c, kv_client_cache s !! a1 = Some c → kv_client_cache s !! a2 = Some c → a1 = a2;
  inv_filling : ∀ c t, cells s !! c = Some (Filling t) → ∃ address, tasks s !! t = Some (address, Connecting c)
}.

Lemma new_client_inv : inv new_client.
Proof. split; intros; simplify_map_eq. Qed.

(** A task that does not hold a permit moves on. *)
Lemma inv_set_pc s t address pc pc' : inv s → tasks s !! t = Some (address, pc) →
  (∀ c, pc ≠ Connecting c) → task_ok s t address pc' → inv (set_pc t address pc' s).
Proof.
  intros [Ht Hc Hi Hf] Hpc Hn Hok. split; cbn; [|done..|].
  - intros t' a' q [(<- & [= <- <-] & _)|[? Hq]]%list_lookup_insert_Some; [done|]. by apply Ht.
  - intros c t' Hcell. destruct (Hf c t' Hcell) as [a' Ht']. exists a'.
    rewrite list_lookup_insert_ne; [done|]. intros ->. rewrite Hpc in Ht'. injection Ht' as _ ->. by destruct (Hn c).
Qed.

(** A new cell for an address that has none. *)
Lemma inv_new_cell s address : inv s → kv_client_cache s !! address = None →
  inv (mkState (<[address := length (cells s)]> (kv_client_cache s)) (cells s ++ [Empty]) (tasks s)).
Proof.
  intros [Ht Hc Hi Hf] Hnone.
  assert (∀ a c, kv_client_cache s !! a = Some c → a ≠ address ∧ (c < length (cells s))%nat) as Hold.
  { intros a c Ha. split; [congruence|]. apply lookup_lt_is_Some. by eapply Hc. }
  assert (∀ a c, kv_client_cache s !! a = Some c →
    <[address := length (cells s)]> (kv_client_cache s) !! a = Some c) as Hkeep.
  { intros a c Ha. destruct (Hold a c Ha). by rewrite lookup_insert_ne. }
  split; cbn.
  - intros t a pc Hpc. specialize (Ht t a pc Hpc). destruct pc as [| |c|c|[v|e]|]; cbn in *; auto.
    + destruct Ht as [? ?]. split; [by apply Hkeep|]. by apply lookup_app_l_Some.
    + destruct Ht as (c & ? & ?). exists c. split; [by apply Hkeep|]. by apply lookup_app_l_Some.
  - intros a c [[<- <-]|[_ Ha]]%lookup_insert_Some.
    + rewrite lookup_app_r, Nat.sub_diag by done. by eexists.
    + destruct (Hc a c Ha) as [cell Hcell]. exists cell. by apply lookup_app_l_Some.
  - intros a1 a2 c [[<- E1]|[_ H1]]%lookup_insert_Some [[<- E2]|[_ H2]]%lookup_insert_Some; [done| | |by eapply Hi].
    + destruct (Hold _ _ H2). lia.
    + destruct (Hold _ _ H1). lia.
  - intros c t [H|[_ H]]%lookup_app_Some; [by apply Hf|]. by apply list_lookup_singleton_Some in H as [_ ?].
Qed.

(** A task takes the permit of a cell or gives it back. *)
Lemma inv_set_cell s t address pc pc' c cell cell' : inv s → tasks s !! t = Some (address, pc) →
  cells s !! c = Some cell → (cell = Empty ∨ cell = Filling t) → (∀ c', pc = Connecting c' → c' = c) →
  (∀ t', cell' = Filling t' → t' = t ∧ pc' = Connecting c) → task_ok (set_cell c cell' s) t address pc' →
  inv (set_cell c cell' (set_pc t address pc' s)).
Proof.
  intros [Ht Hc Hi Hf] Hpc Hcell Hfree Hsame Hnew Hok.
  assert (c < length (cells s))%nat as Hlt by (by eapply lookup_lt_Some).
  assert (t < length (tasks s))%nat as Htl by (by eapply lookup_lt_Some).
  split; cbn.
  - intros t' a' q [(<- & [= <- <-] & _)|[Hne Hq]]%list_lookup_insert_Some; [done|].
    specialize (Ht t' a' q Hq). destruct q as [| |c'|c'|[v|e]|]; cbn in *; try done.
    + destruct Ht as [? Hc']. split; [done|]. rewrite list_lookup_insert_ne; [done|]. intros <-. destruct Hfree; congruence.
    + destruct Ht as (c' & ? & Hc'). exists c'. split; [done|]. rewrite list_lookup_insert_ne; [done|].
      intros <-. destruct Hfree; congruence.
  - intros a c' Ha. destruct (decide (c' = c)) as [->|]; [|rewrite list_lookup_insert_ne by done; by eapply Hc].
    rewrite list_lookup_insert_eq by done. by eexists.
  - done.
  - intros c0 t' [(<- & Heq & _)|[Hne H0]]%list_lookup_insert_Some.
    + destruct (Hnew t' Heq) as [-> ->]. exists address. by rewrite list_lookup_insert_eq.
    + destruct (Hf c0 t' H0) as [a' Ht']. exists a'. rewrite list_lookup_insert_ne; [done|].
      intros ->. rewrite Hpc in Ht'. injection Ht' as -> ->. by destruct Hne, (Hsame c0 eq_refl).
Qed.

Lemma connections_step_inv s e s' : inv s → step s e = Some s' → inv s'.
Proof.
  intros Hs. destruct e as [address|t|t r|t]; cbn.
  - intros [= <-]. destruct Hs as [Ht Hc Hi Hf]. split; cbn; [|done..|].
    + intros t a pc [H|[_ H]]%lookup_app_Some; [by apply Ht|].
      apply list_lookup_singleton_Some in H as [_ [= <- <-]]. done.
    + intros c t H. destruct (Hf c t H) as [a Ha]. exists a. by apply lookup_app_l_Some.
  - destruct (tasks s !! t) as [[address pc]|] eqn:Et; [|done]. cbn.
    pose proof (inv_tasks s Hs t address pc Et) as Hok.
    destruct pc as [| |c|c|r|]; cbn; try done.
    + intros [= <-]. eapply inv_set_pc; [done..|]. by destruct (kv_client_cache s !! address) eqn:E.
    + destruct (kv_client_cache s !! address) as [c|] eqn:E; intros [= <-].
      * by eapply inv_set_pc.
      * eapply inv_set_pc; [by apply inv_new_cell | done | done |]. cbn. by rewrite lookup_insert_eq.
    + destruct (cells s !! c) as [[|t'|v]|] eqn:Ec; try done; intros [= <-].
      * eapply (inv_set_cell s t address (HasCell c)); try done; [by left | by intros t' [= <-] |].
        split; [done|]. cbn. rewrite list_lookup_insert_eq; [done|]. by eapply lookup_lt_Some.
      * eapply inv_set_pc; [done..|]. cbn. by exists c.
  - destruct (tasks s !! t) as [[address [| |c|c|r'|]]|] eqn:Et; try done. intros [= <-].
    destruct (inv_tasks s Hs t address _ Et) as [Hc Hcell].
    eapply (inv_set_cell s t address (Connecting c)); try done; [by right | by intros c' [= ->] | by destruct r |].
    destruct r as [v|e]; [|done]. exists c. split; [done|]. cbn. rewrite list_lookup_insert_eq; [done|]. by eapply lookup_lt_Some.
  - destruct (tasks s !! t) as [[address pc]|] eqn:Et; [|done].
    destruct pc as [| |c|c|r'|]; try done; intros [= <-].
    1-3: by eapply inv_set_pc.
    destruct (inv_tasks s Hs t address _ Et) as [Hc Hcell].
    eapply (inv_set_cell s t address (Connecting c)); try done; [by right | by intros c' [= ->]].
Qed.

End connections.
Arguments Cell Client : clear implicits.
Arguments Pc Client : clear implicits.
Arguments State Client : clear implicits.
Arguments Event Client : clear implicits.

(** The client keeps one connection per store.  Whatever tasks ask for clients, in whatever order they
    run, whichever connection attempts fail and whichever tasks are cancelled: for one address at
    most one attempt is in flight; all tasks that return a client return the same; once one has,
    no attempt is started for the address any more; and a task waits only while another task is
    connecting to its address. *)
Theorem kv_client_one_connection {Client} es (s : State Client) t1 t2 address pc1 pc2 :
  run_steps step new_client es = Some s →
  tasks s !! t1 = Some (address, pc1) → tasks s !! t2 = Some (address, pc2) →
  (∀ c1 c2, pc1 = Connecting c1 → pc2 = Connecting c2 → t1 = t2) ∧
  (∀ v1 v2, pc1 = Returned (Ok v1) → pc2 = Returned (Ok v2) → v1 = v2) ∧
  (∀ v c, pc1 = Returned (Ok v) → pc2 ≠ Connecting c) ∧
  (∀ c, pc1 = HasCell c → step s (Poll t1) = None → ∃ t, tasks s !! t = Some (address, Connecting c)).
Proof.
  intros Hrun H1 H2. assert (inv s) as Hs by (eapply run_steps_inv; [apply connections_step_inv | apply new_client_inv | exact Hrun]).
  pose proof (inv_tasks s Hs t1 address pc1 H1) as K1. pose proof (inv_tasks s Hs t2 address pc2 H2) as K2.
  split_and!.
  - intros c1 c2 -> ->. destruct K1, K2. simplify_eq. congruence.
  - intros v1 v2 -> ->. destruct K1 as (c1 & ? & ?), K2 as (c2 & ? & ?). simplify_eq. congruence.
  - intros v c -> ->. destruct K1 as (c1 & ? & ?), K2 as [? ?]. simplify_eq.
  - intros c ->. cbn in K1 |- *. rewrite H1. cbn. destruct (inv_cells s Hs address c K1) as [cell Hcell].
    rewrite Hcell. destruct cell as [|t|v]; [done| |done]. intros _.
    destruct (inv_filling s Hs c t Hcell) as [a' Ht]. exists t.
    destruct (inv_tasks s Hs t a' _ Ht) as [Ha' _]. by rewrite (inv_inj s Hs address a' c K1 Ha').
Qed.

(** Two tasks miss the cache at the same time; the first attempt fails and the other task connects. *)
Definition sample_events : list (Event nat) :=
  [Call "a"; Call "a"; Poll 0; Poll 1; Poll 0; Poll 1; Poll 0; Connected 0 (Err NoCurrentRegions); Poll 1;
   Call "a"; Connected 1 (Ok 7%nat); Poll 2; Poll 2].
Definition sample_connections : State nat :=
  mkState {[ "a" := 0%nat ]} [Filled 7%nat]
    [("a", Returned (Err NoCurrentRegions)); ("a", Returned (Ok 7%nat)); ("a", Returned (Ok 7%nat))].
Lemma kv_client_one_connection_witness :
  run_steps step new_client sample_events = Some sample_connections ∧
  ∀ v, tasks sample_connections !! 2%nat = Some ("a", Returned (Ok v)) → 7%nat = v.
Proof.
  split; [by vm_compute|]. intros v Hv.
  apply (kv_client_one_connection sample_events sample_connections 1 2 "a" (Returned (Ok 7%nat)) (Returned (Ok v)));
    [by vm_compute | reflexivity | exact Hv | reflexivity | reflexivity].
Defined.

(** ** Stores and their clients *)

(** [kv_client] is answered for each address; the store cache is the one of Regions.v. *)
Section stores.
Context {Client : Type} (kv_client : string → Result Client).

(** [PdRpcClient::map_region_to_store] *)
Definition map_region_to_store (pd_store : Z → Result Store.t) (region : RegionWithLeader.t) (m : StoreCache) :
    StoreCache * Result (RegionWithLeader.t * Client) :=
  match RegionWithLeader.get_store_id region with
  | Err e => (m, Err e)
  | Ok store_id =>
      match get_store_by_id (pd_store store_id) store_id m with
      | (m, Err e) => (m, Err e)
      | (m, Ok store) => (m, client ← kv_client (Store.address store); Ok (region, client))
      end
  end.

(** [PdRpcClient::all_stores] *)
Definition all_stores (pd_stores : Result (list Store.t)) (m : StoreCache) : StoreCache * Result (list Client) :=
  match read_through_all_stores pd_stores m with
  | (m, Err e) => (m, Err e)
  | (m, Ok stores) => (m, mapM (λ store, kv_client (Store.address store)) stores)
  end.

(** [PdClient::store_for_key] and [store_for_id]: [region] is the answer of [region_for_key] or [region_for_id]. *)
Definition store_for (pd_store : Z → Result Store.t) (region : Result RegionWithLeader.t) (m : StoreCache) :
    StoreCache * Result (RegionWithLeader.t * Client) :=
  match region with
  | Err e => (m, Err e)
  | Ok region => map_region_to_store pd_store region m
  end.

(** The request goes to the address of the store that holds the region's leader: the cached one, or what PD says
    about it, and then it is cached. *)
Lemma map_region_to_store_client pd_store region m m' region' client :
  map_region_to_store pd_store region m = (m', Ok (region', client)) →
  ∃ leader store, RegionWithLeader.leader region = Some leader ∧ region' = region ∧
    kv_client (Store.address store) = Ok client ∧ m' !! Peer.store_id leader = Some store ∧
    (m !! Peer.store_id leader = Some store ∨
     m !! Peer.store_id leader = None ∧ pd_store (Peer.store_id leader) = Ok store).
Proof.
  unfold map_region_to_store, RegionWithLeader.get_store_id.
  destruct (RegionWithLeader.leader region) as [leader|]; [|done]. cbn. unfold get_store_by_id.
  destruct (m !! Peer.store_id leader) as [store|] eqn:Em.
  - destruct (kv_client (Store.address store)) as [c|] eqn:Ec; [|done]. intros [= <- <- <-]. exists leader, store. eauto 10.
  - unfold read_through_store_by_id. destruct (pd_store _) as [store|e] eqn:Ep; [|done].
    destruct (kv_client (Store.address store)) as [c|] eqn:Ec; [|done]. intros [= <- <- <-].
    exists leader, store. split_and!; [reflexivity | done | done | apply lookup_insert_eq | by right].
Qed.
End stores.
