(* ===== verification/BatchCommands.v ===== *)
(** * Batched RPCs to a store (src/src/store/batch_commands.rs, src/src/store/client.rs)

    All requests to a store share one stream.  [dispatch] registers a request under a fresh id and
    queues it; the send loop connects, reconnects and sends; a receive loop per stream finds the
    registered request of each response and answers it; a timeout withdraws the registration.

    The tasks interleave: a [Label] is one atomic step of one of them, the store and the network
    choose what happens.  The payloads of messages are an abstract type [P]; the protobuf
    [oneof]s have the constructors the client uses and one for all others.  Request ids are unbounded:
    their 64-bit counter is not taken to wrap.  A registration is removed and answered in one step: its sender is
    then only in the hands of the task that answers, and a timeout in between removes nothing.  The [Empty] request with id 0 that opens a stream
    is not in the log. *)

From S2P Require Import Prelude Keys Proto Errors Regions Plans ReadRouting.

Inductive BatchCommandKind :=
| RawGet | RawBatchGet | RawPut | RawBatchPut | RawDelete | RawBatchDelete
| RawScan | RawBatchScan | RawDeleteRange | RawCoprocessor | Get | Scan
| Prewrite | Commit | Cleanup | BatchGet | BatchRollback | PessimisticRollback
| ResolveLock | ScanLock | Flush | BufferBatchGet | PessimisticLock | TxnHeartBeat
| CheckTxnStatus | CheckSecondaryLocks | Gc | DeleteRange | BroadcastTxnStatus | GetHealthFeedback.
#[export] Instance BatchCommandKind_eq_dec : EqDecision BatchCommandKind.
Proof. solve_decision. Defined.

(** [batch_commands_request::request::Cmd] and [batch_commands_response::response::Cmd] *)
Inductive RequestCmd {P : Type} :=
| CmdRawGet (r : P) | CmdRawBatchGet (r : P) | CmdRawPut (r : P) | CmdRawBatchPut (r : P)
| CmdRawDelete (r : P) | CmdRawBatchDelete (r : P) | CmdRawScan (r : P) | CmdRawBatchScan (r : P)
| CmdRawDeleteRange (r : P) | CmdRawCoprocessor (r : P) | CmdGet (r : P) | CmdScan (r : P)
| CmdPrewrite (r : P) | CmdCommit (r : P) | CmdCleanup (r : P) | CmdBatchGet (r : P)
| CmdBatchRollback (r : P) | CmdPessimisticRollback (r : P) | CmdResolveLock (r : P) | CmdScanLock (r : P)
| CmdFlush (r : P) | CmdBufferBatchGet (r : P) | CmdPessimisticLock (r : P) | CmdTxnHeartBeat (r : P)
| CmdCheckTxnStatus (r : P) | CmdCheckSecondaryLocks (r : P) | CmdGc (r : P) | CmdDeleteRange (r : P)
| CmdBroadcastTxnStatus (r : P) | CmdGetHealthFeedback (r : P)
| CmdEmpty | CmdOther.
Inductive ResponseCmd {P : Type} :=
| RespRawGet (r : P) | RespRawBatchGet (r : P) | RespRawPut (r : P) | RespRawBatchPut (r : P)
| RespRawDelete (r : P) | RespRawBatchDelete (r : P) | RespRawScan (r : P) | RespRawBatchScan (r : P)
| RespRawDeleteRange (r : P) | RespRawCoprocessor (r : P) | RespGet (r : P) | RespScan (r : P)
| RespPrewrite (r : P) | RespCommit (r : P) | RespCleanup (r : P) | RespBatchGet (r : P)
| RespBatchRollback (r : P) | RespPessimisticRollback (r : P) | RespResolveLock (r : P) | RespScanLock (r : P)
| RespFlush (r : P) | RespBufferBatchGet (r : P) | RespPessimisticLock (r : P) | RespTxnHeartBeat (r : P)
| RespCheckTxnStatus (r : P) | RespCheckSecondaryLocks (r : P) | RespGc (r : P) | RespDeleteRange (r : P)
| RespBroadcastTxnStatus (r : P) | RespGetHealthFeedback (r : P)
| RespEmpty | RespOther.
Arguments RequestCmd P : clear implicits.
Arguments ResponseCmd P : clear implicits.

(** A request or response without [cmd] is [None]. *)
Definition from_request {P} (req : option (RequestCmd P)) : option BatchCommandKind :=
  match req with
  | None => None
  | Some cmd =>
      match cmd with
      | CmdRawGet _ => Some RawGet | CmdRawBatchGet _ => Some RawBatchGet | CmdRawPut _ => Some RawPut
      | CmdRawBatchPut _ => Some RawBatchPut | CmdRawDelete _ => Some RawDelete | CmdRawBatchDelete _ => Some RawBatchDelete
      | CmdRawScan _ => Some RawScan | CmdRawBatchScan _ => Some RawBatchScan | CmdRawDeleteRange _ => Some RawDeleteRange
      | CmdRawCoprocessor _ => Some RawCoprocessor | CmdGet _ => Some Get | CmdScan _ => Some Scan
      | CmdPrewrite _ => Some Prewrite | CmdCommit _ => Some Commit | CmdCleanup _ => Some Cleanup
      | CmdBatchGet _ => Some BatchGet | CmdBatchRollback _ => Some BatchRollback | CmdPessimisticRollback _ => Some PessimisticRollback
      | CmdResolveLock _ => Some ResolveLock | CmdScanLock _ => Some ScanLock | CmdFlush _ => Some Flush
      | CmdBufferBatchGet _ => Some BufferBatchGet | CmdPessimisticLock _ => Some PessimisticLock | CmdTxnHeartBeat _ => Some TxnHeartBeat
      | CmdCheckTxnStatus _ => Some CheckTxnStatus | CmdCheckSecondaryLocks _ => Some CheckSecondaryLocks | CmdGc _ => Some Gc
      | CmdDeleteRange _ => Some DeleteRange | CmdBroadcastTxnStatus _ => Some BroadcastTxnStatus | CmdGetHealthFeedback _ => Some GetHealthFeedback
      | _ => None
      end
  end.

Definition decode_response {P} (kind : BatchCommandKind) (response : option (ResponseCmd P)) : Result P :=
  match response with
  | None => Err (InternalError "batch response missing cmd")
  | Some cmd =>
      match kind, cmd with
      | RawGet, RespRawGet r => Ok r | RawBatchGet, RespRawBatchGet r => Ok r | RawPut, RespRawPut r => Ok r
      | RawBatchPut, RespRawBatchPut r => Ok r | RawDelete, RespRawDelete r => Ok r | RawBatchDelete, RespRawBatchDelete r => Ok r
      | RawScan, RespRawScan r => Ok r | RawBatchScan, RespRawBatchScan r => Ok r | RawDeleteRange, RespRawDeleteRange r => Ok r
      | RawCoprocessor, RespRawCoprocessor r => Ok r | Get, RespGet r => Ok r | Scan, RespScan r => Ok r
      | Prewrite, RespPrewrite r => Ok r | Commit, RespCommit r => Ok r | Cleanup, RespCleanup r => Ok r
      | BatchGet, RespBatchGet r => Ok r | BatchRollback, RespBatchRollback r => Ok r | PessimisticRollback, RespPessimisticRollback r => Ok r
      | ResolveLock, RespResolveLock r => Ok r | ScanLock, RespScanLock r => Ok r | Flush, RespFlush r => Ok r
      | BufferBatchGet, RespBufferBatchGet r => Ok r | PessimisticLock, RespPessimisticLock r => Ok r | TxnHeartBeat, RespTxnHeartBeat r => Ok r
      | CheckTxnStatus, RespCheckTxnStatus r => Ok r | CheckSecondaryLocks, RespCheckSecondaryLocks r => Ok r | Gc, RespGc r => Ok r
      | DeleteRange, RespDeleteRange r => Ok r | BroadcastTxnStatus, RespBroadcastTxnStatus r => Ok r | GetHealthFeedback, RespGetHealthFeedback r => Ok r
      | _, _ => Err (InternalError "batch response mismatch")
      end
  end.

Definition batch_kind_for_request {P} (req : option (RequestCmd P)) : Result BatchCommandKind :=
  ok_or (from_request req) (GrpcAPI "request is not supported by batch commands").

(** [KvRpcClient::dispatch]: the stream if the request has a batched form, else its own call. *)
Definition kv_dispatch {P} (batch_request : option (option (RequestCmd P)))
    (batch_dispatch : BatchCommandKind → option (RequestCmd P) → Result P) (unary_dispatch : Result P) : Result P :=
  match batch_request with
  | Some batch_req =>
      match batch_kind_for_request batch_req with
      | Ok kind => batch_dispatch kind batch_req
      | Err _ => unary_dispatch
      end
  | None => unary_dispatch
  end.

(** ** The state *)

(** A call of [dispatch]: registered, queued and waiting, returned, or its future dropped. *)
Inductive Phase {P : Type} := Registered | Waiting | Returned (r : Result P) | Dropped.
Arguments Phase P : clear implicits.
Record Dispatch {P : Type} := mkDispatch { kind : BatchCommandKind; request : option (RequestCmd P); phase : Phase P }.
Arguments Dispatch P : clear implicits.

(** What passes on a stream. *)
Inductive Event {P : Type} :=
| EvSent (stream : nat) (request_id : Z) (request : option (RequestCmd P))
| EvReceived (stream : nat) (request_id : Z) (response : option (ResponseCmd P)).
Arguments Event P : clear implicits.

(** [holding] is the request the send loop works on; [streams] says for each stream opened so far
    whether its receive loop runs; [resp] holds the values sent on the oneshot channels. *)
Record Client {P : Type} := mkClient {
  next_request_id : Z;
  inflight : gmap Z BatchCommandKind;
  outbound : list (Z * option (RequestCmd P));
  holding : option (Z * option (RequestCmd P));
  connection : option nat;
  streams : list bool;
  dispatches : gmap Z (Dispatch P);
  resp : gmap Z (Result P);
  store_health : StoreHealth.t;
  log : list (Event P)
}.
Arguments Client P : clear implicits.
Definition client_new {P} : Client P := mkClient P 1 ∅ [] None None [] ∅ ∅ ∅ [].
Definition OUTBOUND_CAPACITY : nat := 1024.

(** ** The steps *)
Section steps.
Context {P : Type}.
#[local] Abbreviation Client := (Client P).

Definition set_dispatch (request_id : Z) (p : Phase P) (c : Client) : Client :=
  mkClient P (next_request_id c) (inflight c) (outbound c) (holding c) (connection c) (streams c)
    (alter (λ d, mkDispatch P (kind d) (request d) p) request_id (dispatches c)) (resp c) (store_health c) (log c).
Definition set_inflight (v : gmap Z BatchCommandKind) (c : Client) : Client :=
  mkClient P (next_request_id c) v (outbound c) (holding c) (connection c) (streams c) (dispatches c) (resp c)
    (store_health c) (log c).
Definition set_sending (out : list (Z * option (RequestCmd P))) (hold : option (Z * option (RequestCmd P)))
    (conn : option nat) (str : list bool) (c : Client) : Client :=
  mkClient P (next_request_id c) (inflight c) out hold conn str (dispatches c) (resp c) (store_health c) (log c).
Definition set_resp (v : gmap Z (Result P)) (c : Client) : Client :=
  mkClient P (next_request_id c) (inflight c) (outbound c) (holding c) (connection c) (streams c) (dispatches c) v
    (store_health c) (log c).
Definition push_log (e : Event P) (c : Client) : Client :=
  mkClient P (next_request_id c) (inflight c) (outbound c) (holding c) (connection c) (streams c) (dispatches c) (resp c)
    (store_health c) (log c ++ [e]).

(** [guard.remove(&request_id)], and the answer if the request was registered. *)
Definition answer (request_id : Z) (result : BatchCommandKind → Result P) (c : Client) : Client :=
  match inflight c !! request_id with
  | Some kind => set_resp (<[request_id := result kind]> (resp c)) (set_inflight (delete request_id (inflight c)) c)
  | None => c
  end.
Definition fail_inflight (request_id : Z) (status : string) (c : Client) : Client :=
  answer request_id (λ _, Err (GrpcAPI status)) c.
Definition fail_all_inflight (status : string) (c : Client) : Client :=
  set_resp (((λ _, Err (GrpcAPI status)) <$> inflight c) ∪ resp c) (set_inflight ∅ c).

(** [dispatch], up to the wait *)
Definition dispatch (k : BatchCommandKind) (req : option (RequestCmd P)) (c : Client) : Client :=
  let request_id := next_request_id c in
  mkClient P (request_id + 1) (<[request_id := k]> (inflight c)) (outbound c) (holding c) (connection c) (streams c)
    (<[request_id := mkDispatch P k req Registered]> (dispatches c)) (resp c) (store_health c) (log c).
Definition enqueue (request_id : Z) (c : Client) : option Client :=
  d ← dispatches c !! request_id;
  match phase d with
  | Registered =>
      if (length (outbound c) <? OUTBOUND_CAPACITY)%nat then
        Some (set_dispatch request_id Waiting
          (set_sending (outbound c ++ [(request_id, request d)]) (holding c) (connection c) (streams c) c))
      else None
  | _ => None
  end.
(** the send loop is gone; this is allowed at any time *)
Definition send_failed (request_id : Z) (c : Client) : option Client :=
  d ← dispatches c !! request_id;
  match phase d with
  | Registered => Some (set_dispatch request_id (Returned (Err (GrpcAPI "batch commands send loop terminated")))
      (set_inflight (delete request_id (inflight c)) c))
  | _ => None
  end.
(** the wait of [dispatch]: its result, the timeout, or the caller gives up the future *)
Definition receive_result (request_id : Z) (c : Client) : option Client :=
  d ← dispatches c !! request_id;
  match phase d with
  | Waiting => result ← resp c !! request_id; Some (set_dispatch request_id (Returned result) c)
  | _ => None
  end.
Definition timeout (request_id : Z) (c : Client) : option Client :=
  d ← dispatches c !! request_id;
  match phase d with
  | Waiting => Some (set_dispatch request_id (Returned (Err (GrpcAPI "batch commands request timeout")))
      (set_inflight (delete request_id (inflight c)) c))
  | _ => None
  end.
Definition drop_dispatch (request_id : Z) (c : Client) : option Client :=
  d ← dispatches c !! request_id;
  match phase d with
  | Registered | Waiting => Some (set_dispatch request_id Dropped c)
  | _ => None
  end.

(** [run_batch_send_loop] *)
Definition take_outbound (c : Client) : option Client :=
  match holding c, outbound c with
  | None, o :: rest => Some (set_sending rest (Some o) (connection c) (streams c) c)
  | _, _ => None
  end.
Definition connect_batch_stream (status : option string) (c : Client) : option Client :=
  match holding c, connection c with
  | Some (request_id, _), None =>
      Some match status with
           | None => set_sending (outbound c) (holding c) (Some (length (streams c))) (streams c ++ [true]) c
           | Some status => fail_inflight request_id status (set_sending (outbound c) None None (streams c) c)
           end
  | _, _ => None
  end.
Definition send_request (delivered : bool) (c : Client) : option Client :=
  match holding c, connection c with
  | Some (request_id, req), Some stream =>
      Some (if delivered then push_log (EvSent stream request_id req) (set_sending (outbound c) None (connection c) (streams c) c)
            else set_sending (outbound c) (holding c) None (streams c) c)
  | _, _ => None
  end.

(** [run_batch_recv_loop]: one response of a message, its health feedback, the end of the stream *)
Definition receive_response (stream : nat) (request_id : Z) (response : option (ResponseCmd P)) (c : Client) : option Client :=
  if default false (streams c !! stream) then
    Some (answer request_id (λ kind, decode_response kind response) (push_log (EvReceived stream request_id response) c))
  else None.
Definition receive_health_feedback (stream : nat) (store_id feedback_seq_no slow_score : Z) (c : Client) : option Client :=
  if default false (streams c !! stream) then
    Some (mkClient P (next_request_id c) (inflight c) (outbound c) (holding c) (connection c) (streams c) (dispatches c) (resp c)
      (StoreHealth.record_tikv_health_feedback store_id feedback_seq_no slow_score (store_health c)) (log c))
  else None.
Definition stream_end (stream : nat) (status : string) (c : Client) : option Client :=
  if default false (streams c !! stream) then
    Some (fail_all_inflight status (set_sending (outbound c) (holding c) (connection c) (<[stream := false]> (streams c)) c))
  else None.

Inductive Label :=
| LDispatch (k : BatchCommandKind) (req : option (RequestCmd P))
| LEnqueue (request_id : Z) | LSendFailed (request_id : Z) | LResult (request_id : Z) | LTimeout (request_id : Z) | LDrop (request_id : Z)
| LTake | LConnect (status : option string) | LSend (delivered : bool)
| LResponse (stream : nat) (request_id : Z) (response : option (ResponseCmd P))
| LHealth (stream : nat) (store_id feedback_seq_no slow_score : Z)
| LStreamEnd (stream : nat) (status : string).

Definition run_label (l : Label) (c : Client) : option Client :=
  match l with
  | LDispatch k req => Some (dispatch k req c)
  | LEnqueue i => enqueue i c
  | LSendFailed i => send_failed i c
  | LResult i => receive_result i c
  | LTimeout i => timeout i c
  | LDrop i => drop_dispatch i c
  | LTake => take_outbound c
  | LConnect status => connect_batch_stream status c
  | LSend delivered => send_request delivered c
  | LResponse stream i response => receive_response stream i response c
  | LHealth stream s q v => receive_health_feedback stream s q v c
  | LStreamEnd stream status => stream_end stream status c
  end.
Definition step (c c' : Client) : Prop := ∃ l, run_label l c = Some c'.
Fixpoint run_labels (ls : list Label) (c : Client) : option Client :=
  match ls with [] => Some c | l :: ls => run_label l c ≫= run_labels ls end.
End steps.
Arguments Label P : clear implicits.

(** ** Requests and kinds *)

(** A response is accepted by requests of one kind only. *)
Lemma decode_response_kind {P} k1 k2 (cmd : option (ResponseCmd P)) r1 r2 :
  decode_response k1 cmd = Ok r1 → decode_response k2 cmd = Ok r2 → k1 = k2 ∧ r1 = r2.
Proof.
  destruct cmd as [cmd|]; [|done].
  destruct cmd, k1; cbn; try discriminate; destruct k2; cbn; try discriminate; by intros [= <-] [= <-].
Qed.

(** ** The invariant *)
Section invariant.
Context {P : Type}.
#[local] Abbreviation Client := (Client P).

(** The requests that were sent, in the order of the log; the one being sent; the queue. *)
Definition sent (c : Client) : list (Z * option (RequestCmd P)) :=
  omap (λ e, match e with EvSent _ i req => Some (i, req) | EvReceived _ _ _ => None end) (log c).
Definition pipeline (c : Client) : list (Z * option (RequestCmd P)) := sent c ++ option_list (holding c) ++ outbound c.

(** A result is the decoding of a response to this request, or an error of the transport. *)
Definition justified (c : Client) (i : Z) (d : Dispatch P) (r : Result P) : Prop :=
  (∃ stream response, EvReceived stream i response ∈ log c ∧ r = decode_response (kind d) response) ∨
  ∃ message, r = Err (GrpcAPI message).

Definition live (d : Dispatch P) : Prop := phase d = Registered ∨ phase d = Waiting.

Record wf (c : Client) : Prop := {
  wf_next : 1 ≤ next_request_id c;
  wf_ids : ∀ i d, dispatches c !! i = Some d → 1 ≤ i < next_request_id c;
  wf_inflight : ∀ i k, inflight c !! i = Some k → ∃ d, dispatches c !! i = Some d ∧ kind d = k ∧
    resp c !! i = None ∧ ∀ r, phase d ≠ Returned r;
  wf_resp : ∀ i r, resp c !! i = Some r → ∃ d, dispatches c !! i = Some d ∧ justified c i d r;
  wf_returned : ∀ i d r, dispatches c !! i = Some d → phase d = Returned r → justified c i d r;
  wf_live : ∀ i d, dispatches c !! i = Some d → live d → is_Some (inflight c !! i) ∨ is_Some (resp c !! i);
  wf_nodup : NoDup (pipeline c).*1;
  wf_pipeline : ∀ i req, (i, req) ∈ pipeline c → ∃ d, dispatches c !! i = Some d ∧ request d = req ∧ phase d ≠ Registered
}.

Lemma wf_new : wf client_new.
Proof.
  split; cbn; [lia | | | | | | constructor | by intros ? ? ?%elem_of_nil]; intros i;
    intros; match goal with H : ∅ !! i = Some _ |- _ => by rewrite lookup_empty in H end.
Qed.

Lemma wf_answer i f c : wf c → (∀ d, dispatches c !! i = Some d → justified c i d (f (kind d))) → wf (answer i f c).
Proof.
  intros [H1 H2 H3 H4 H5 H6 H7 H8] Hf. unfold answer. destruct (inflight c !! i) as [k|] eqn:E; [|by split].
  destruct (H3 i k E) as (d & Ed & <- & Er & Hp). specialize (Hf d Ed).
  split; cbn; try done.
  - intros j kj. destruct (decide (i = j)) as [<-|]; [by rewrite lookup_delete_eq|].
    rewrite lookup_delete_ne, lookup_insert_ne by done. apply H3.
  - intros j r. destruct (decide (i = j)) as [<-|]; [|rewrite lookup_insert_ne by done; apply H4].
    rewrite lookup_insert_eq. intros [= <-]. exists d. by split.
  - intros j dj Hj Hl. destruct (decide (i = j)) as [<-|]; [right; rewrite lookup_insert_eq; by eexists|].
    rewrite lookup_delete_ne, lookup_insert_ne by done. by apply (H6 j dj).
Qed.

Lemma justified_log e c i d r : justified c i d r → justified (push_log e c) i d r.
Proof. intros [(s & x & H & ->)|?]; [left; exists s, x; cbn; rewrite elem_of_app; auto | by right]. Qed.

Lemma wf_received stream i response c : wf c → wf (push_log (EvReceived stream i response) c).
Proof.
  intros [H1 H2 H3 H4 H5 H6 H7 H8].
  assert (pipeline (push_log (EvReceived stream i response) c) = pipeline c) as E.
  { unfold pipeline, sent. cbn. rewrite omap_app. cbn. by rewrite app_nil_r. }
  split; try done.
  - intros j r Hr. destruct (H4 j r Hr) as (d & ? & ?). exists d. split; [done | by apply justified_log].
  - intros j d r Hj Hp. by apply justified_log, H5.
  - by rewrite E.
  - rewrite E. apply H8.
Qed.

(** The send loop moves requests along the pipeline. *)
Lemma wf_moved c c' : wf c → pipeline c' = pipeline c → next_request_id c' = next_request_id c →
  inflight c' = inflight c → dispatches c' = dispatches c → resp c' = resp c →
  (∀ e, e ∈ log c → e ∈ log c') → wf c'.
Proof.
  intros [H1 H2 H3 H4 H5 H6 H7 H8] Ep En Ei Ed Er Hl.
  assert (∀ i d r, justified c i d r → justified c' i d r) as Hj.
  { intros i d r [(s & x & H & ->)|?]; [left; exists s, x; auto | by right]. }
  split; rewrite ?En, ?Ei, ?Ed, ?Er, ?Ep; try done.
  - intros i r Hr. destruct (H4 i r Hr) as (d & ? & ?). eauto.
  - eauto.
Qed.

Lemma lookup_set_dispatch i d p c j : dispatches c !! i = Some d →
  dispatches (set_dispatch i p c) !! j =
    if decide (i = j) then Some (mkDispatch P (kind d) (request d) p) else dispatches c !! j.
Proof.
  intros Ed. cbn. destruct (decide (i = j)) as [<-|]; [by rewrite lookup_alter_eq, Ed | by rewrite lookup_alter_ne].
Qed.

(** A dispatch that returns is no longer registered. *)
Lemma wf_finish i d r c : wf c → dispatches c !! i = Some d → live d → justified c i d r →
  wf (set_dispatch i (Returned r) (set_inflight (delete i (inflight c)) c)).
Proof.
  intros [H1 H2 H3 H4 H5 H6 H7 H8] Ed Hl Hr. set (c0 := set_inflight _ c).
  assert (dispatches c0 !! i = Some d) as Ed0 by done. pose proof (lookup_set_dispatch i d (Returned r) c0) as Hd.
  split; try done.
  - intros j dj. rewrite Hd by done. destruct (decide _) as [<-|]; [|apply H2]. intros _. by apply (H2 i d).
  - intros j k. cbn [inflight set_dispatch set_inflight c0]. destruct (decide (i = j)) as [<-|Hne]; [by rewrite lookup_delete_eq|].
    rewrite lookup_delete_ne by done. intros Hk. destruct (H3 j k Hk) as (dj & Hdj & ?). exists dj. rewrite Hd by done.
    by rewrite decide_False.
  - intros j r' Hr'. destruct (H4 j r' Hr') as (dj & Hdj & Hju). rewrite Hd by done. destruct (decide _) as [<-|]; [|eauto].
    assert (dj = d) as -> by congruence. eexists. split; [done|]. exact Hju.
  - intros j dj r'. rewrite Hd by done. destruct (decide _) as [<-|]; [|apply H5]. by intros [= <-] [= <-].
  - intros j dj. rewrite Hd by done. destruct (decide _) as [<-|Hne]; [by intros [= <-] [E|E]|].
    cbn [inflight set_dispatch set_inflight c0]. rewrite lookup_delete_ne by done. apply H6.
  - intros j req Hin. destruct (H8 j req Hin) as (dj & Hdj & ? & ?). rewrite Hd by done. destruct (decide _) as [<-|]; [|eauto].
    assert (dj = d) as -> by congruence. eexists. split; [done|]. by split.
Qed.

Lemma wf_drop i c c' : wf c → drop_dispatch i c = Some c' → wf c'.
Proof.
  intros [H1 H2 H3 H4 H5 H6 H7 H8]. unfold drop_dispatch. destruct (dispatches c !! i) as [d|] eqn:Ed; [cbn [mbind option_bind]|done].
  intros E. assert (live d ∧ c' = set_dispatch i Dropped c) as [Hl ->].
  { unfold live. destruct (phase d); simplify_eq; auto. }
  pose proof (lookup_set_dispatch i d Dropped c) as Hd. split; try done.
  - intros j dj. rewrite Hd by done. destruct (decide _) as [<-|]; [|apply H2]. intros _. by apply (H2 i d).
  - intros j k Hk. destruct (H3 j k Hk) as (dj & Hdj & ? & ? & Hp). rewrite Hd by done. destruct (decide _) as [<-|]; [|eauto].
    assert (dj = d) as -> by congruence. eexists. split; [done|]. by split_and!.
  - intros j r' Hr'. destruct (H4 j r' Hr') as (dj & Hdj & Hju). rewrite Hd by done. destruct (decide _) as [<-|]; [|eauto].
    assert (dj = d) as -> by congruence. eexists. split; [done|]. exact Hju.
  - intros j dj r'. rewrite Hd by done. destruct (decide _) as [<-|]; [by intros [= <-] | apply H5].
  - intros j dj. rewrite Hd by done. destruct (decide _) as [<-|Hne]; [by intros [= <-] [?|?] | apply H6].
  - intros j req Hin. destruct (H8 j req Hin) as (dj & Hdj & ? & ?). rewrite Hd by done. destruct (decide _) as [<-|]; [|eauto].
    assert (dj = d) as -> by congruence. eexists. split; [done|]. by split.
Qed.

Lemma wf_dispatch k req c : wf c → wf (dispatch k req c).
Proof.
  intros [H1 H2 H3 H4 H5 H6 H7 H8]. set (n := next_request_id c) in *.
  assert (dispatches c !! n = None) as Hn.
  { destruct (dispatches c !! n) as [d|] eqn:E; [|done]. apply H2 in E. lia. }
  assert (resp c !! n = None) as Hr.
  { destruct (resp c !! n) as [r|] eqn:E; [|done]. destruct (H4 n r E) as (d & ? & _). congruence. }
  assert (∀ j d, dispatches c !! j = Some d → n ≠ j) as Hne by congruence.
  split; cbn; fold n; try done.
  - lia.
  - intros j d. destruct (decide (n = j)) as [<-|]; [lia|]. rewrite lookup_insert_ne by done. intros ?%H2. lia.
  - intros j kj. destruct (decide (n = j)) as [<-|].
    + rewrite !lookup_insert_eq. intros [= <-]. eexists. split; [done|]. by split_and!.
    + rewrite !lookup_insert_ne by done. apply H3.
  - intros j r E. destruct (H4 j r E) as (d & Ed & ?). exists d. rewrite lookup_insert_ne by eauto. by split.
  - intros j d r. destruct (decide (n = j)) as [<-|]; [rewrite lookup_insert_eq; by intros [= <-]|].
    rewrite lookup_insert_ne by done. apply H5.
  - intros j d. destruct (decide (n = j)) as [<-|]; [rewrite !lookup_insert_eq; eauto|].
    rewrite !lookup_insert_ne by done. apply H6.
  - intros j rq Hin. destruct (H8 j rq Hin) as (d & Ed & ?). exists d. rewrite lookup_insert_ne by eauto. by split.
Qed.

Lemma wf_enqueue i c c' : wf c → enqueue i c = Some c' → wf c'.
Proof.
  intros [H1 H2 H3 H4 H5 H6 H7 H8]. unfold enqueue. destruct (dispatches c !! i) as [d|] eqn:Ed; [cbn [mbind option_bind]|done].
  destruct (phase d) eqn:Ep; try done. destruct (length (outbound c) <? OUTBOUND_CAPACITY)%nat; [|done]. intros [= <-].
  assert (i ∉ (pipeline c).*1) as Hni.
  { intros ([j rq] & -> & Hin)%list_elem_of_fmap. destruct (H8 j rq Hin) as (dj & Hdj & _ & Hp). cbn in Ed. congruence. }
  set (c' := set_dispatch _ _ _).
  assert (pipeline c' = pipeline c ++ [(i, request d)]) as Epl by (unfold pipeline, sent; cbn; by rewrite !app_assoc).
  assert (∀ j, dispatches c' !! j =
    if decide (i = j) then Some (mkDispatch P (kind d) (request d) Waiting) else dispatches c !! j) as Hd.
  { intros j. by apply (lookup_set_dispatch i d Waiting (set_sending _ _ _ _ c)). }
  split; try done.
  - intros j dj. rewrite Hd. destruct (decide _) as [<-|]; [|apply H2]. intros _. by apply (H2 i d).
  - intros j k Hk. destruct (H3 j k Hk) as (dj & Hdj & ? & ? & Hp). rewrite Hd. destruct (decide _) as [<-|]; [|eauto].
    assert (dj = d) as -> by congruence. eexists. split; [done|]. by split_and!.
  - intros j r Hr. destruct (H4 j r Hr) as (dj & Hdj & Hju). rewrite Hd. destruct (decide _) as [<-|]; [|eauto].
    assert (dj = d) as -> by congruence. eexists. split; [done|]. exact Hju.
  - intros j dj r. rewrite Hd. destruct (decide _) as [<-|]; [by intros [= <-] | apply H5].
  - intros j dj. rewrite Hd. destruct (decide _) as [<-|]; [|apply H6]. intros _ _. apply (H6 i d Ed). by left.
  - rewrite Epl, fmap_app. apply NoDup_app. split_and!; [done| |cbn; repeat constructor; by intros ?%elem_of_nil].
    intros x Hx [= ->]%list_elem_of_singleton. done.
  - rewrite Epl. intros j rq [Hin|Hin]%elem_of_app.
    + destruct (H8 j rq Hin) as (dj & Hdj & ? & Hp). rewrite Hd. destruct (decide _) as [<-|]; [|eauto].
      exfalso. assert (dj = d) as -> by congruence. done.
    + apply list_elem_of_singleton in Hin as [= -> ->]. rewrite Hd. destruct (decide _); [|done]. eexists. by split_and!.
Qed.

Lemma wf_fail_all status c : wf c → wf (fail_all_inflight status c).
Proof.
  intros [H1 H2 H3 H4 H5 H6 H7 H8].
  assert (∀ i, resp (fail_all_inflight status c) !! i =
    match inflight c !! i with Some _ => Some (Err (GrpcAPI status)) | None => resp c !! i end) as Hr.
  { intros i. cbn. destruct (inflight c !! i) as [k|] eqn:E.
    - apply lookup_union_Some_l. by rewrite lookup_fmap, E.
    - rewrite lookup_union_r; [done|]. by rewrite lookup_fmap, E. }
  split; try done.
  - intros i r. rewrite Hr. destruct (inflight c !! i) as [k|] eqn:E; [|apply H4]. intros [= <-].
    destruct (H3 i k E) as (d & ? & _). exists d. split; [done|]. right. eauto.
  - intros i d Hd Hl. right. rewrite Hr. destruct (H6 i d Hd Hl) as [[k ->]|?]; [by eexists|].
    by destruct (inflight c !! i); [eexists|].
Qed.

Lemma wf_step c c' : wf c → step c c' → wf c'.
Proof.
  intros Hwf [l E]. destruct l; cbn in E.
  - injection E as <-. by apply wf_dispatch.
  - by apply (wf_enqueue request_id c).
  - unfold send_failed in E. destruct (dispatches c !! request_id) as [d|] eqn:Ed; [cbn [mbind option_bind] in E|done].
    destruct (phase d) eqn:Ep; try done. injection E as <-. apply (wf_finish request_id d); [done | done | by left | right; eauto].
  - unfold receive_result in E. destruct (dispatches c !! request_id) as [d|] eqn:Ed; [cbn [mbind option_bind] in E|done].
    destruct (phase d) eqn:Ep; try done. destruct (resp c !! request_id) as [r|] eqn:Er; [|done]. cbn in E. injection E as <-.
    assert (inflight c !! request_id = None) as Ei.
    { destruct (inflight c !! request_id) as [k|] eqn:Ei; [|done]. destruct (wf_inflight c Hwf _ _ Ei) as (? & _ & _ & ? & _). congruence. }
    pose proof (wf_finish request_id d r c Hwf Ed) as H. rewrite (delete_id _ _ Ei) in H. destruct c. apply H; [by right|].
    destruct (wf_resp _ Hwf _ _ Er) as (d' & Ed' & ?). by simplify_eq.
  - unfold timeout in E. destruct (dispatches c !! request_id) as [d|] eqn:Ed; [cbn [mbind option_bind] in E|done].
    destruct (phase d) eqn:Ep; try done. injection E as <-. apply (wf_finish request_id d); [done | done | by right | right; eauto].
  - by apply (wf_drop request_id c).
  - unfold take_outbound in E. destruct (holding c) eqn:Eh; [done|]. destruct (outbound c) as [|o rest] eqn:Eo; [done|].
    injection E as <-. apply (wf_moved c); try done. unfold pipeline, sent. cbn. by rewrite Eh, Eo.
  - unfold connect_batch_stream in E. destruct (holding c) as [[i rq]|] eqn:Eh; [|done]. destruct (connection c); [done|].
    injection E as <-. destruct status as [status|]; [|by apply (wf_moved c); rewrite ?Eh; unfold pipeline, sent; cbn; rewrite ?Eh].
    apply wf_answer; [|intros ? _; right; eauto].
    destruct Hwf as [H1 H2 H3 H4 H5 H6 H7 H8]. unfold pipeline, sent in H7, H8. rewrite Eh in H7, H8. split; try done.
    + unfold pipeline, sent. cbn. rewrite !fmap_app in *. cbn in *. apply NoDup_app in H7 as (? & Hd & [? ?]%NoDup_cons).
      apply NoDup_app. split_and!; try done. intros x Hx ?. apply (Hd x Hx). by right.
    + intros j r Hin. apply H8. unfold pipeline, sent in Hin. cbn in *. rewrite !elem_of_app, !elem_of_cons in *. naive_solver.
  - unfold send_request in E. destruct (holding c) as [[i rq]|] eqn:Eh; [|done]. destruct (connection c) as [st|] eqn:Ec; [|done].
    injection E as <-. destruct delivered.
    + apply (wf_moved c); try done; [|intros e He; cbn; rewrite elem_of_app; by left].
      unfold pipeline, sent. cbn. rewrite omap_app, Eh. cbn. by rewrite <- app_assoc.
    + apply (wf_moved c); try done. unfold pipeline, sent. cbn. by rewrite Eh.
  - unfold receive_response in E. destruct (default false _); [|done]. injection E as <-.
    apply wf_answer; [by apply wf_received|]. intros d _. left. exists stream, response. split; [|done].
    cbn. rewrite elem_of_app, list_elem_of_singleton. by right.
  - unfold receive_health_feedback in E. destruct (default false _); [|done]. injection E as <-. by apply (wf_moved c).
  - unfold stream_end in E. destruct (default false _); [|done]. injection E as <-. apply wf_fail_all. by apply (wf_moved c).
Qed.
End invariant.

Section reach.
Context {P : Type}.
#[local] Abbreviation Client := (Client P).

Lemma reach_wf (c : Client) : rtc step client_new c → wf c.
Proof.
  revert c. apply (rtc_ind_r wf); [apply wf_new|]. intros a b _ Hs Ha. by apply (wf_step a b).
Qed.

Lemma run_labels_reach ls (c c' : Client) : run_labels ls c = Some c' → rtc step c c'.
Proof.
  revert c. induction ls as [|l ls IH]; intros c; cbn; [intros [= <-]; apply rtc_refl|].
  destruct (run_label l c) as [c1|] eqn:E; [|done]. cbn. intros H%IH. eapply rtc_l; [by exists l | done].
Qed.

(** A request is answered once: a later response or failure does not change the answer. *)
Lemma resp_stable (c c' : Client) i r : wf c → step c c' → resp c !! i = Some r → resp c' !! i = Some r.
Proof.
  intros Hwf [l E] Hr.
  assert (inflight c !! i = None) as Hi.
  { destruct (inflight c !! i) as [k|] eqn:Ei; [|done]. destruct (wf_inflight c Hwf i k Ei) as (? & _ & _ & ? & _). congruence. }
  assert (∀ j f cx, inflight cx !! i = None → resp cx !! i = Some r → resp (answer j f cx) !! i = Some r) as Hans.
  { intros j f cx Hix Hrx. unfold answer. destruct (inflight cx !! j) as [k|] eqn:Ej; [|done]. cbn.
    by rewrite lookup_insert_ne by congruence. }
  destruct l; cbn in E.
  - by injection E as <-.
  - unfold enqueue in E. destruct (dispatches c !! request_id) as [d|]; [cbn [mbind option_bind] in E|done].
    destruct (phase d); try done. destruct (length (outbound c) <? OUTBOUND_CAPACITY)%nat; [|done]. by injection E as <-.
  - unfold send_failed in E. destruct (dispatches c !! request_id) as [d|]; [cbn [mbind option_bind] in E|done].
    destruct (phase d); try done. by injection E as <-.
  - unfold receive_result in E. destruct (dispatches c !! request_id) as [d|]; [cbn [mbind option_bind] in E|done].
    destruct (phase d); try done. destruct (resp c !! request_id); [|done]. by injection E as <-.
  - unfold timeout in E. destruct (dispatches c !! request_id) as [d|]; [cbn [mbind option_bind] in E|done].
    destruct (phase d); try done. by injection E as <-.
  - unfold drop_dispatch in E. destruct (dispatches c !! request_id) as [d|]; [cbn [mbind option_bind] in E|done].
    destruct (phase d); try done; by injection E as <-.
  - unfold take_outbound in E. destruct (holding c), (outbound c); try done. by injection E as <-.
  - unfold connect_batch_stream in E. destruct (holding c) as [[j rq]|], (connection c); try done. injection E as <-.
    destruct status; [by apply Hans | done].
  - unfold send_request in E. destruct (holding c) as [[j rq]|], (connection c); try done. injection E as <-. by destruct delivered.
  - unfold receive_response in E. destruct (default false _); [|done]. injection E as <-. by apply Hans.
  - unfold receive_health_feedback in E. destruct (default false _); [|done]. by injection E as <-.
  - unfold stream_end in E. destruct (default false _); [|done]. injection E as <-. cbn.
    rewrite lookup_union_r; [done|]. by rewrite lookup_fmap, Hi.
Qed.
End reach.

(** C26: the requests that share a stream do not mix.  Take any interleaving of calls, timeouts, the
    send loop, the receive loops of all streams opened so far and whatever stores answer,
    late, twice, out of order or under wrong ids.  A call that returned got the decoding,
    for its own kind, of a response with its own id, or an error of the transport, and is no
    longer registered; a call that still waits is registered or answered; a given answer never changes.
    No request is sent twice, and what was sent under an id is the request of that call. *)
Theorem batch_commands_correct {P} (c : Client P) : rtc step client_new c →
  (∀ i d r, dispatches c !! i = Some d → phase d = Returned r →
     inflight c !! i = None ∧
     ((∃ stream response, EvReceived stream i response ∈ log c ∧ r = decode_response (kind d) response) ∨
      ∃ message, r = Err (GrpcAPI message))) ∧
  (∀ i d, dispatches c !! i = Some d → live d → is_Some (inflight c !! i) ∨ is_Some (resp c !! i)) ∧
  (∀ i r c', step c c' → resp c !! i = Some r → resp c' !! i = Some r) ∧
  NoDup (sent c).*1 ∧
  (∀ i req, (i, req) ∈ sent c → ∃ d, dispatches c !! i = Some d ∧ request d = req).
Proof.
  intros Hr. apply reach_wf in Hr as Hwf. split_and!.
  - intros i d r Hd Hp. split; [|by apply (wf_returned c Hwf i d r)]. destruct (inflight c !! i) as [k|] eqn:E; [|done].
    destruct (wf_inflight c Hwf i k E) as (d' & Hd' & _ & _ & Hn). simplify_eq. by destruct (Hn r).
  - apply Hwf.
  - intros i r c'. by apply resp_stable.
  - pose proof (wf_nodup c Hwf) as H. unfold pipeline in H. rewrite fmap_app in H. by apply NoDup_app in H as (? & _).
  - intros i req Hin. destruct (wf_pipeline c Hwf i req) as (d & ? & ? & _); [unfold pipeline; rewrite elem_of_app; by left | eauto].
Qed.

(** Two calls; the store answers the second first, then repeats it for the first with the wrong kind. *)
Lemma batch_commands_correct_witness :
  let ls := [LDispatch Get (Some (CmdGet 10)); LDispatch Commit (Some (CmdCommit 20)); LEnqueue 1; LEnqueue 2; LTake;
    LConnect None; LSend true; LTake; LSend true; LResponse 0 2 (Some (RespCommit 21)); LResponse 0 1 (Some (RespCommit 21));
    LResponse 0 2 None; LResult 2; LResult 1] in
  match run_labels ls (@client_new Z) with
  | Some c => phase <$> dispatches c !! 2 = Some (Returned (Ok 21)) ∧
      phase <$> dispatches c !! 1 = Some (Returned (Err (InternalError "batch response mismatch"))) ∧ NoDup (sent c).*1
  | None => False
  end.
Proof.
  intros ls. destruct (run_labels ls client_new) as [c|] eqn:E; [|by vm_compute in E].
  assert (phase <$> dispatches c !! 2 = Some (Returned (Ok 21)) ∧
    phase <$> dispatches c !! 1 = Some (Returned (Err (InternalError "batch response mismatch")))) as [H1 H2].
  { vm_compute in E. injection E as <-. by vm_compute. }
  split; [exact H1|]. split; [exact H2|].
  apply (batch_commands_correct c). exact (run_labels_reach ls client_new c E).
Defined.

(** A request can be sent after its call returned with an error. *)
Lemma timed_out_request_sent_later : ∃ c : Client Z,
  run_labels [LDispatch Commit (Some (CmdCommit 5)); LEnqueue 1; LTimeout 1; LTake; LConnect None; LSend true] client_new = Some c ∧
  phase <$> dispatches c !! 1 = Some (Returned (Err (GrpcAPI "batch commands request timeout"))) ∧
  sent c = [(1, Some (CmdCommit 5))].
Proof. eexists. split; [vm_compute; reflexivity|]. vm_compute. split; reflexivity. Qed.

(** The end of a stream fails the requests of the stream that replaced it, although the new one works and
    its response then arrives. *)
Lemma old_stream_fails_new_requests : ∃ c : Client Z,
  run_labels [LDispatch Get (Some (CmdGet 5)); LEnqueue 1; LTake; LConnect None; LSend false; LConnect None; LSend true;
    LStreamEnd 0 "batch commands stream closed"; LResponse 1 1 (Some (RespGet 6)); LResult 1] client_new = Some c ∧
  log c = [EvSent 1 1 (Some (CmdGet 5)); EvReceived 1 1 (Some (RespGet 6))] ∧
  phase <$> dispatches c !! 1 = Some (Returned (Err (GrpcAPI "batch commands stream closed"))).
Proof. eexists. split; [vm_compute; reflexivity|]. vm_compute. split; reflexivity. Qed.
