(* ===== verification/StoreRequests.v ===== *)
(** * The requests of the stores (src/src/store/request.rs, src/src/store/client.rs)

    Every type of request implements the trait [Request], most by one of two macros: [impl_request_unary!] for those that
    have only a call of their own, [impl_request_batch!] for those that also have a form on the batch-commands stream.  This file
    is the table of these types, with the label and the stream command of each, and [KvRpcClient::dispatch] over it.

    The payloads are an abstract type; gRPC and the store are arguments. *)

From S2P Require Import Prelude Errors BatchCommands.

(** ** The table *)

Inductive RequestType :=
| RawGetRequest | RawBatchGetRequest | RawGetKeyTtlRequest | RawPutRequest
| RawBatchPutRequest | RawDeleteRequest | RawBatchDeleteRequest | RawScanRequest
| RawBatchScanRequest | RawDeleteRangeRequest | RawCasRequest | RawCoprocessorRequest
| RawChecksumRequest | GetRequest | ScanRequest | PrewriteRequest
| CommitRequest | CleanupRequest | BatchGetRequest | BatchRollbackRequest
| PessimisticRollbackRequest | ResolveLockRequest | ScanLockRequest | FlushRequest
| BufferBatchGetRequest | PessimisticLockRequest | TxnHeartBeatRequest | CheckTxnStatusRequest
| CheckSecondaryLocksRequest | GcRequest | DeleteRangeRequest | UnsafeDestroyRangeRequest
| BroadcastTxnStatusRequest | GetHealthFeedbackRequest.
#[export] Instance RequestType_eq_dec : EqDecision RequestType.
Proof. solve_decision. Defined.

Definition all_request_types : list RequestType := [
  RawGetRequest; RawBatchGetRequest; RawGetKeyTtlRequest; RawPutRequest;
  RawBatchPutRequest; RawDeleteRequest; RawBatchDeleteRequest; RawScanRequest;
  RawBatchScanRequest; RawDeleteRangeRequest; RawCasRequest; RawCoprocessorRequest;
  RawChecksumRequest; GetRequest; ScanRequest; PrewriteRequest;
  CommitRequest; CleanupRequest; BatchGetRequest; BatchRollbackRequest;
  PessimisticRollbackRequest; ResolveLockRequest; ScanLockRequest; FlushRequest;
  BufferBatchGetRequest; PessimisticLockRequest; TxnHeartBeatRequest; CheckTxnStatusRequest;
  CheckSecondaryLocksRequest; GcRequest; DeleteRangeRequest; UnsafeDestroyRangeRequest;
  BroadcastTxnStatusRequest; GetHealthFeedbackRequest
].

Section requests.
Context {P : Type}.

(** [batch_request], which wraps a clone of the request *)
Definition batch_command (t : RequestType) : option (P → RequestCmd P) :=
  match t with
  | RawGetRequest => Some CmdRawGet | RawBatchGetRequest => Some CmdRawBatchGet | RawPutRequest => Some CmdRawPut
  | RawBatchPutRequest => Some CmdRawBatchPut | RawDeleteRequest => Some CmdRawDelete | RawBatchDeleteRequest => Some CmdRawBatchDelete
  | RawScanRequest => Some CmdRawScan | RawBatchScanRequest => Some CmdRawBatchScan | RawDeleteRangeRequest => Some CmdRawDeleteRange
  | RawCoprocessorRequest => Some CmdRawCoprocessor | GetRequest => Some CmdGet | ScanRequest => Some CmdScan
  | PrewriteRequest => Some CmdPrewrite | CommitRequest => Some CmdCommit | CleanupRequest => Some CmdCleanup
  | BatchGetRequest => Some CmdBatchGet | BatchRollbackRequest => Some CmdBatchRollback | PessimisticRollbackRequest => Some CmdPessimisticRollback
  | ResolveLockRequest => Some CmdResolveLock | ScanLockRequest => Some CmdScanLock | FlushRequest => Some CmdFlush
  | BufferBatchGetRequest => Some CmdBufferBatchGet | PessimisticLockRequest => Some CmdPessimisticLock | TxnHeartBeatRequest => Some CmdTxnHeartBeat
  | CheckTxnStatusRequest => Some CmdCheckTxnStatus | CheckSecondaryLocksRequest => Some CmdCheckSecondaryLocks | GcRequest => Some CmdGc
  | DeleteRangeRequest => Some CmdDeleteRange | BroadcastTxnStatusRequest => Some CmdBroadcastTxnStatus | GetHealthFeedbackRequest => Some CmdGetHealthFeedback
  | _ => None
  end.
Definition batch_request (t : RequestType) (req : P) : option (option (RequestCmd P)) :=
  match batch_command t with Some cmd => Some (Some (cmd req)) | None => None end.

Definition request_label (t : RequestType) : string :=
  match t with
  | RawGetRequest => "raw_get" | RawBatchGetRequest => "raw_batch_get" | RawGetKeyTtlRequest => "raw_get_key_ttl"
  | RawPutRequest => "raw_put" | RawBatchPutRequest => "raw_batch_put" | RawDeleteRequest => "raw_delete"
  | RawBatchDeleteRequest => "raw_batch_delete" | RawScanRequest => "raw_scan" | RawBatchScanRequest => "raw_batch_scan"
  | RawDeleteRangeRequest => "raw_delete_range" | RawCasRequest => "raw_compare_and_swap" | RawCoprocessorRequest => "raw_coprocessor"
  | RawChecksumRequest => "raw_checksum" | GetRequest => "kv_get" | ScanRequest => "kv_scan"
  | PrewriteRequest => "kv_prewrite" | CommitRequest => "kv_commit" | CleanupRequest => "kv_cleanup"
  | BatchGetRequest => "kv_batch_get" | BatchRollbackRequest => "kv_batch_rollback" | PessimisticRollbackRequest => "kv_pessimistic_rollback"
  | ResolveLockRequest => "kv_resolve_lock" | ScanLockRequest => "kv_scan_lock" | FlushRequest => "kv_flush"
  | BufferBatchGetRequest => "kv_buffer_batch_get" | PessimisticLockRequest => "kv_pessimistic_lock" | TxnHeartBeatRequest => "kv_txn_heart_beat"
  | CheckTxnStatusRequest => "kv_check_txn_status" | CheckSecondaryLocksRequest => "kv_check_secondary_locks_request" | GcRequest => "kv_gc"
  | DeleteRangeRequest => "kv_delete_range" | UnsafeDestroyRangeRequest => "unsafe_destroy_range" | BroadcastTxnStatusRequest => "broadcast_txn_status"
  | GetHealthFeedbackRequest => "get_health_feedback"
  end.

(** [Request::dispatch]: a status of gRPC becomes [Error::GrpcAPI]. *)
Definition unary_dispatch (call : RequestType → P → Z → P + string) (t : RequestType) (req : P) (timeout : Z) : Result P :=
  match call t req timeout with inl resp => Ok resp | inr status => Err (GrpcAPI status) end.

(** [KvRpcClient::dispatch]; [stream kind cmd timeout] is the batch client. *)
Definition rpc_dispatch (stream : BatchCommandKind → option (RequestCmd P) → Z → Result P)
    (call : RequestType → P → Z → P + string) (timeout : Z) (t : RequestType) (req : P) : Result P :=
  kv_dispatch (batch_request t req) (λ kind cmd, stream kind cmd timeout) (unary_dispatch call t req timeout).

(** The command with which a store answers on the stream. *)
Definition answer_command (t : RequestType) : option (P → ResponseCmd P) :=
  match t with
  | RawGetRequest => Some RespRawGet | RawBatchGetRequest => Some RespRawBatchGet | RawPutRequest => Some RespRawPut
  | RawBatchPutRequest => Some RespRawBatchPut | RawDeleteRequest => Some RespRawDelete | RawBatchDeleteRequest => Some RespRawBatchDelete
  | RawScanRequest => Some RespRawScan | RawBatchScanRequest => Some RespRawBatchScan | RawDeleteRangeRequest => Some RespRawDeleteRange
  | RawCoprocessorRequest => Some RespRawCoprocessor | GetRequest => Some RespGet | ScanRequest => Some RespScan
  | PrewriteRequest => Some RespPrewrite | CommitRequest => Some RespCommit | CleanupRequest => Some RespCleanup
  | BatchGetRequest => Some RespBatchGet | BatchRollbackRequest => Some RespBatchRollback | PessimisticRollbackRequest => Some RespPessimisticRollback
  | ResolveLockRequest => Some RespResolveLock | ScanLockRequest => Some RespScanLock | FlushRequest => Some RespFlush
  | BufferBatchGetRequest => Some RespBufferBatchGet | PessimisticLockRequest => Some RespPessimisticLock | TxnHeartBeatRequest => Some RespTxnHeartBeat
  | CheckTxnStatusRequest => Some RespCheckTxnStatus | CheckSecondaryLocksRequest => Some RespCheckSecondaryLocks | GcRequest => Some RespGc
  | DeleteRangeRequest => Some RespDeleteRange | BroadcastTxnStatusRequest => Some RespBroadcastTxnStatus | GetHealthFeedbackRequest => Some RespGetHealthFeedback
  | _ => None
  end.

(** ** The table is consistent *)

Lemma all_request_types_complete t : t ∈ all_request_types.
Proof. destruct t; by repeat (apply elem_of_cons; first [by left | right]). Qed.

Definition kind_of (t : RequestType) : option BatchCommandKind :=
  match batch_command t with Some _ => Some match t with
    | RawGetRequest => BatchCommands.RawGet | RawBatchGetRequest => BatchCommands.RawBatchGet | RawPutRequest => BatchCommands.RawPut
    | RawBatchPutRequest => BatchCommands.RawBatchPut | RawDeleteRequest => BatchCommands.RawDelete | RawBatchDeleteRequest => BatchCommands.RawBatchDelete
    | RawScanRequest => BatchCommands.RawScan | RawBatchScanRequest => BatchCommands.RawBatchScan | RawDeleteRangeRequest => BatchCommands.RawDeleteRange
    | RawCoprocessorRequest => BatchCommands.RawCoprocessor | GetRequest => BatchCommands.Get | ScanRequest => BatchCommands.Scan
    | PrewriteRequest => BatchCommands.Prewrite | CommitRequest => BatchCommands.Commit | CleanupRequest => BatchCommands.Cleanup
    | BatchGetRequest => BatchCommands.BatchGet | BatchRollbackRequest => BatchCommands.BatchRollback | PessimisticRollbackRequest => BatchCommands.PessimisticRollback
    | ResolveLockRequest => BatchCommands.ResolveLock | ScanLockRequest => BatchCommands.ScanLock | FlushRequest => BatchCommands.Flush
    | BufferBatchGetRequest => BatchCommands.BufferBatchGet | PessimisticLockRequest => BatchCommands.PessimisticLock | TxnHeartBeatRequest => BatchCommands.TxnHeartBeat
    | CheckTxnStatusRequest => BatchCommands.CheckTxnStatus | CheckSecondaryLocksRequest => BatchCommands.CheckSecondaryLocks | GcRequest => BatchCommands.Gc
    | DeleteRangeRequest => BatchCommands.DeleteRange | BroadcastTxnStatusRequest => BatchCommands.BroadcastTxnStatus | GetHealthFeedbackRequest => BatchCommands.GetHealthFeedback
    | _ => BatchCommands.Get end | None => None end.

Lemma batch_kind t req cmd : batch_command t = Some cmd → ∃ kind, kind_of t = Some kind ∧ batch_kind_for_request (Some (cmd req)) = Ok kind.
Proof. destruct t; cbn; intros [= <-]; by eexists. Qed.

(** An answer is decoded under the kind of its own type and refused under every other. *)
Lemma decode_answer t t' kind answer resp : kind_of t = Some kind → answer_command t' = Some answer →
  decode_response kind (Some (answer resp)) = if decide (t = t') then Ok resp else Err (InternalError "batch response mismatch").
Proof.
  intros Hk Ha. destruct t; try discriminate Hk; injection Hk as <-; destruct t'; try discriminate Ha; injection Ha as <-; vm_compute; exact eq_refl.
Qed.
End requests.

(** Requests reach the call or the stream command of their own type.  No two types have the same label.  A request
    with a stream form goes to the batch client, with a kind that decodes the answer of a store to this type and refuses the answer
    to every other; no such request falls back on its call.  Any other request makes its call, whose failures arrive as
    [Error::GrpcAPI], which the plans retry. *)
Theorem requests_dispatched {P : Type} stream (call : RequestType → P → Z → P + string) timeout t req :
  NoDup (map request_label all_request_types) ∧ t ∈ all_request_types ∧
  match batch_command t with
  | Some cmd => ∃ kind, rpc_dispatch stream call timeout t req = stream kind (Some (cmd req)) timeout ∧
      ∀ t' (answer : P → ResponseCmd P) resp, answer_command t' = Some answer →
        decode_response kind (Some (answer resp)) = if decide (t = t') then Ok resp else Err (InternalError "batch response mismatch")
  | None => rpc_dispatch stream call timeout t req = unary_dispatch call t req timeout ∧
      ∀ e, rpc_dispatch stream call timeout t req = Err e → is_grpc_error e = true
  end.
Proof.
  split; [by apply (bool_decide_unpack _); vm_compute|]. split; [apply all_request_types_complete|].
  unfold rpc_dispatch, batch_request, kv_dispatch. destruct (batch_command t) as [cmd|] eqn:Ec.
  - destruct (batch_kind t req cmd Ec) as (kind & Hk & ->). exists kind. split; [done|]. intros t' answer resp. by apply decode_answer.
  - split; [done|]. intros e. unfold unary_dispatch. destruct (call t req timeout); [done|]. by intros [= <-].
Qed.
