(* ===== verification/Commits.v ===== *)
(** * Two-phase commit (src/src/transaction/transaction.rs, [Committer],
      [fetch_commit_timestamp], [TransactionOptions])

    A committer prewrites a transaction's mutations and then, depending on the
    answers, has committed in one phase, commits at the timestamp that async commit
    computed, or commits the primary and then the secondaries at a timestamp of PD.
    [commit_protocol] lists the runs the protocol allows, with the requests each one
    sends; [commit] is shown to follow it, and the atomicity theorem is drawn from it. *)

From Stdlib Require Import QArith.
From S2P Require Import Prelude Keys Proto Errors Timestamps Kv Keyspaces Sharding Requests Effects Pipelined.
#[local] Open Scope Z_scope.

Definition MAX_TTL : Z := 20000.
Definition DEFAULT_LOCK_TTL : Z := 3000.
Definition PD_TS_LOGICAL_BITS : Z := 18.
Definition DEFAULT_MAX_COMMIT_TS_SAFE_WINDOW_MS : Z := 2000.
Definition DEFAULT_COMMIT_WAIT_UNTIL_TSO_TIMEOUT_MS : Z := 1000.
Definition COMMIT_WAIT_UNTIL_TSO_POLL_INTERVAL_MS : Z := 10.

(** ** Options *)

Inductive TransactionKind := Optimistic | Pessimistic (for_update_ts : Timestamp.t).
Inductive CheckLevel := CheckPanic | CheckWarn | CheckNone.
Inductive HeartbeatOption := NoHeartbeat | FixedTime (interval_ms : Z).
Definition is_auto_heartbeat (h : HeartbeatOption) : bool :=
  match h with NoHeartbeat => false | FixedTime _ => true end.

(** A [f64]: a finite number, or an infinity or NaN. *)
Inductive F64 := Finite (q : Q) | NotFinite.

Record PipelinedTxnOptions := mkPipelinedOptions {
  flush_concurrency : Z;
  resolve_lock_concurrency : Z;
  write_throttle_ratio : F64;
  min_flush_keys : nat
}.

(** Durations are in milliseconds; the fields that only steer reads and retries
    ([replica_read], [stale_read], [retry_options]) are left out. *)
Record TransactionOptions := mkOptions {
  kind : TransactionKind;
  try_one_pc : bool;
  async_commit : bool;
  read_only : bool;
  check_level : CheckLevel;
  assertion_level : AssertionLevel;
  max_commit_ts_safe_window : Z;
  commit_wait_until_tso : option Z;
  commit_wait_until_tso_timeout : Z;
  heartbeat_option : HeartbeatOption;
  pipelined_options : option PipelinedTxnOptions
}.

Definition DEFAULT_HEARTBEAT_INTERVAL_MS : Z := MAX_TTL / 2.

Definition new_optimistic : TransactionOptions :=
  mkOptions Optimistic false false false CheckPanic LevelOff DEFAULT_MAX_COMMIT_TS_SAFE_WINDOW_MS
    None DEFAULT_COMMIT_WAIT_UNTIL_TSO_TIMEOUT_MS (FixedTime DEFAULT_HEARTBEAT_INTERVAL_MS) None.
Definition new_pessimistic : TransactionOptions :=
  mkOptions (Pessimistic (Timestamp.from_version 0)) false false false CheckPanic LevelOff
    DEFAULT_MAX_COMMIT_TS_SAFE_WINDOW_MS None DEFAULT_COMMIT_WAIT_UNTIL_TSO_TIMEOUT_MS
    (FixedTime DEFAULT_HEARTBEAT_INTERVAL_MS) None.

Definition options_is_pessimistic (o : TransactionOptions) : bool :=
  match kind o with Pessimistic _ => true | Optimistic => false end.
Definition is_pipelined (o : TransactionOptions) : bool :=
  match pipelined_options o with Some _ => true | None => false end.

Definition set_kind (k : TransactionKind) (o : TransactionOptions) : TransactionOptions :=
  mkOptions k (try_one_pc o) (async_commit o) (read_only o) (check_level o) (assertion_level o)
    (max_commit_ts_safe_window o) (commit_wait_until_tso o) (commit_wait_until_tso_timeout o)
    (heartbeat_option o) (pipelined_options o).
Definition set_try_one_pc (b : bool) (o : TransactionOptions) : TransactionOptions :=
  mkOptions (kind o) b (async_commit o) (read_only o) (check_level o) (assertion_level o)
    (max_commit_ts_safe_window o) (commit_wait_until_tso o) (commit_wait_until_tso_timeout o)
    (heartbeat_option o) (pipelined_options o).
Definition set_async_commit (b : bool) (o : TransactionOptions) : TransactionOptions :=
  mkOptions (kind o) (try_one_pc o) b (read_only o) (check_level o) (assertion_level o)
    (max_commit_ts_safe_window o) (commit_wait_until_tso o) (commit_wait_until_tso_timeout o)
    (heartbeat_option o) (pipelined_options o).

Definition push_for_update_ts (for_update_ts : Timestamp.t) (o : TransactionOptions) : TransactionOptions :=
  match kind o with
  | Optimistic => set_kind (Pessimistic for_update_ts) o
  | Pessimistic old_for_update_ts =>
      set_kind (Pessimistic (Timestamp.from_version
        (Z.max (Timestamp.version old_for_update_ts) (Timestamp.version for_update_ts)))) o
  end.

Definition validate (o : TransactionOptions) : Result unit :=
  match pipelined_options o with
  | None => Ok ()
  | Some opts =>
      if options_is_pessimistic o then Err (InvalidPipelinedTransaction
        "pipelined transactions are only supported for optimistic transactions")
      else if try_one_pc o || async_commit o then Err (InvalidPipelinedTransaction
        "pipelined transactions cannot enable 1PC or async-commit")
      else if flush_concurrency opts =? 0 then
        Err (InvalidPipelinedTransaction "flush_concurrency must be > 0")
      else if resolve_lock_concurrency opts =? 0 then
        Err (InvalidPipelinedTransaction "resolve_lock_concurrency must be > 0")
      else if match write_throttle_ratio opts with
              | NotFinite => true
              | Finite q => negb (Qle_bool 0 q) || Qle_bool 1 q
              end
      then Err (InvalidPipelinedTransaction "write_throttle_ratio must be in [0, 1)")
      else if (min_flush_keys opts =? 0)%nat then
        Err (InvalidPipelinedTransaction "min_flush_keys must be > 0")
      else Ok ()
  end.

(** ** Timestamps and TTLs *)

Definition add_physical_ms (version delta_ms : Z) : Z :=
  sat_add_u64 version (sat_mul_u64 delta_ms (Z.shiftl 1 PD_TS_LOGICAL_BITS)).
Definition extract_physical_ms (version : Z) : Z := Z.shiftr version PD_TS_LOGICAL_BITS.

Module Committer.
Record t := mk {
  primary_key : option Key;
  prewrite_mutations : list PbMutation.t;
  commit_keys : list (list Z);
  start_version : Timestamp.t;
  options : TransactionOptions;
  keyspace : Keyspace;
  undetermined : bool;
  write_size : Z
}.
Definition new (primary_key : option Key) (prewrite_mutations : list PbMutation.t)
    (commit_keys : list (list Z)) (start_version : Timestamp.t) (options : TransactionOptions)
    (keyspace : Keyspace) (write_size : Z) : t :=
  mk primary_key prewrite_mutations commit_keys start_version options keyspace false write_size.
Definition set_options (f : TransactionOptions → TransactionOptions) (c : t) : t :=
  mk (primary_key c) (prewrite_mutations c) (commit_keys c) (start_version c) (f (options c))
    (keyspace c) (undetermined c) (write_size c).
Definition set_undetermined (c : t) : t :=
  mk (primary_key c) (prewrite_mutations c) (commit_keys c) (start_version c) (options c)
    (keyspace c) true (write_size c).

Definition min_commit_ts (c : t) : Z :=
  let start_ts := Timestamp.version (start_version c) in
  let min_commit_ts := sat_add_u64 start_ts 1 in
  match kind (options c) with
  | Pessimistic for_update_ts => Z.max min_commit_ts (sat_add_u64 (Timestamp.version for_update_ts) 1)
  | Optimistic => min_commit_ts
  end.

Definition max_commit_ts (elapsed_ms : Z) (c : t) : Z :=
  let current_ts := add_physical_ms (Timestamp.version (start_version c)) elapsed_ms in
  let safe_window_ms := Z.min (max_commit_ts_safe_window (options c)) u64_max in
  add_physical_ms current_ts safe_window_ms.

(** [TTL_FACTOR * size_mb.sqrt()] with [TTL_FACTOR = 6000.0], truncated: the integer
    part of [sqrt (36000000 * write_size) / 1024].  The code computes it in [f64]; below
    the clamp of 20000 the exact value is an integer only when the square root is exact
    (and then so is the computation), and is otherwise farther from an integer than the
    rounding error, so the two agree. *)
Definition calc_txn_lock_ttl (c : t) : Z :=
  if TXN_COMMIT_BATCH_SIZE <? write_size c then
    let lock_ttl := Z.sqrt (36000000 * write_size c) / 1024 in
    Z.min (Z.max lock_ttl DEFAULT_LOCK_TTL) MAX_TTL
  else DEFAULT_LOCK_TTL.

(** The request of [prewrite], at [elapsed_ms] milliseconds after the start. *)
Definition prewrite_request (primary_lock : Key) (elapsed_ms : Z) (c : t) : PrewriteRequest.t :=
  let lock_ttl := sat_add_u64 (calc_txn_lock_ttl c) elapsed_ms in
  let request :=
    match kind (options c) with
    | Optimistic =>
        new_prewrite_request (prewrite_mutations c) primary_lock (start_version c) lock_ttl
    | Pessimistic for_update_ts =>
        new_pessimistic_prewrite_request (prewrite_mutations c) primary_lock (start_version c)
          lock_ttl for_update_ts
    end in
  let secondaries := List.filter (λ key, negb (key_eqb primary_lock key)) (commit_keys c) in
  let max_commit_ts :=
    if async_commit (options c) || try_one_pc (options c) then max_commit_ts elapsed_ms c
    else PrewriteRequest.max_commit_ts request in
  let lock_ttl :=
    if async_commit (options c) && options_is_pessimistic (options c) then
      let safe_ttl_ms := sat_add_u64 (sat_sub_u64 (extract_physical_ms max_commit_ts)
                           (extract_physical_ms (Timestamp.version (start_version c)))) 1 in
      Z.max (PrewriteRequest.lock_ttl request) safe_ttl_ms
    else PrewriteRequest.lock_ttl request in
  PrewriteRequest.mk (PrewriteRequest.mutations request) (PrewriteRequest.primary_lock request)
    (PrewriteRequest.start_version request) lock_ttl (PrewriteRequest.for_update_ts request)
    (PrewriteRequest.pessimistic_actions request) (async_commit (options c)) (try_one_pc (options c))
    (min_commit_ts c) max_commit_ts secondaries (assertion_level (options c))
    (PrewriteRequest.txn_size request).
End Committer.

(** ** The committer *)

(** The errors of the prewrite plan: a single error is unwrapped. *)
Definition prewrite_error (e : Error) : Error :=
  match e with
  | MultipleKeyErrors [e] => e
  | MultipleKeyErrors errors => MultipleKeyErrors errors
  | ExtractedErrors [e] => e
  | ExtractedErrors errors => MultipleKeyErrors errors
  | e => e
  end.

(** [.map(|r| r.min_commit_ts).max()] *)
Definition max_min_commit_ts (response : list PrewriteResponse.t) : option Z :=
  match map PrewriteResponse.min_commit_ts response with
  | [] => None
  | x :: xs => Some (foldl Z.max x xs)
  end.

(** [plan.execute().await.truncate_keyspace(keyspace)?] *)
Definition truncate_result {S A} (r : Result A) (ks : Keyspace) : M S A :=
  match truncate_keyspace_result r ks with
  | None => panic
  | Some r => lift r
  end.

Section committer.
Context (cl : Cluster).

(** The polling loop of [fetch_commit_timestamp]; [elapsed] milliseconds have passed
    before the [i]-th round.  The fuel is never used up ([commit_wait_fuel] below). *)
Fixpoint commit_wait_loop {S} (wait_until_tso timeout : Z) (fuel i : nat) (elapsed : Z) :
    M S Timestamp.t :=
  ts ← send EvTimestamp (get_timestamp cl);
  if wait_until_tso <=? Timestamp.version ts then mret ts else
  let elapsed := elapsed + Z.of_nat (round_ms cl i) in
  if timeout <=? elapsed then throw (CommitTsLag (Timestamp.version ts) wait_until_tso) else
  match fuel with
  | O => panic
  | Datatypes.S fuel =>
      commit_wait_loop wait_until_tso timeout fuel (Datatypes.S i)
        (elapsed + COMMIT_WAIT_UNTIL_TSO_POLL_INTERVAL_MS)
  end.

Definition commit_wait_fuel (timeout : Z) : nat := Datatypes.S (Z.to_nat (timeout / 10)).

Definition fetch_commit_timestamp {S} (options : TransactionOptions) : M S Timestamp.t :=
  match commit_wait_until_tso options with
  | None => send EvTimestamp (get_timestamp cl)
  | Some wait_until_tso =>
      let timeout := commit_wait_until_tso_timeout options in
      commit_wait_loop wait_until_tso timeout (commit_wait_fuel timeout) 0 0
  end.

Definition prewrite : M Committer.t (option Timestamp.t) :=
  c ← get_state;
  match Committer.primary_key c with
  | None => panic
  | Some primary_lock =>
      elapsed ← observe (elapsed_ms cl);
      let request := Committer.prewrite_request primary_lock elapsed c in
      answer ← try (send (EvPrewrite request) (λ t, answer_prewrite cl t request));
      match answer with
      | Err e => throw (prewrite_error e)
      | Ok response =>
          let finish : M Committer.t (option Timestamp.t) :=
            modify (Committer.set_options (set_try_one_pc false)) ;;
            if existsb (λ r, negb (PrewriteResponse.one_pc_commit_ts r =? 0)) response then panic
            else mret (max_min_commit_ts response ≫= Timestamp.try_from_version) in
          match try_one_pc (Committer.options c), response with
          | true, [r] =>
              if negb (PrewriteResponse.one_pc_commit_ts r =? 0) then
                mret (Timestamp.try_from_version (PrewriteResponse.one_pc_commit_ts r))
              else if negb (PrewriteResponse.min_commit_ts r =? 0) then
                throw (StringError
                  "invalid PrewriteResponse: min_commit_ts must be 0 when 1PC falls back to 2PC")
              else modify (Committer.set_options (set_async_commit false)) ;; finish
          | _, _ => finish
          end
      end
  end.

Definition commit_primary : M Committer.t Timestamp.t :=
  c ← get_state;
  let primary_key := Committer.primary_key c in
  commit_version ← fetch_commit_timestamp (Committer.options c);
  let req := new_commit_request_with_primary_key (option_list primary_key) primary_key
               (Committer.start_version c) commit_version in
  answer ← try (send (EvCommit req) (λ t, answer_commit cl t req));
  match answer with
  | Ok _ => mret commit_version
  | Err (Grpc m) => modify Committer.set_undetermined ;; throw (Grpc m)
  | Err e => throw e
  end.

Definition commit_primary_checked : M Committer.t Timestamp.t :=
  r ← try commit_primary;
  match r with
  | Ok commit_ts => mret commit_ts
  | Err e =>
      c ← get_state;
      if Committer.undetermined c then throw (UndeterminedError e) else throw e
  end.

(** Outside the integration tests all the keys are taken. *)
Definition commit_secondary (commit_version : Timestamp.t) : M Committer.t unit :=
  c ← get_state;
  let keys := Committer.commit_keys c in
  let primary_only := (length keys =? 1)%nat in
  let run (keys : list (list Z)) : M Committer.t unit :=
    let req := new_commit_request keys (Committer.start_version c) commit_version in
    answer ← try (send (EvCommit req) (λ t, answer_commit cl t req));
    truncate_result answer (Committer.keyspace c) in
  if async_commit (Committer.options c) then run keys
  else if primary_only then mret ()
  else match Committer.primary_key c with
       | None => panic
       | Some primary_key => run (List.filter (λ key, negb (key_eqb primary_key key)) keys)
       end.

Definition committer_commit : M Committer.t (option Timestamp.t) :=
  min_commit_ts ← prewrite;
  c ← get_state;
  if try_one_pc (Committer.options c) then mret min_commit_ts else
  commit_ts ←
    (if async_commit (Committer.options c) then
       match min_commit_ts with
       | Some min_commit_ts => mret min_commit_ts
       | None => modify (Committer.set_options (set_async_commit false)) ;; commit_primary_checked
       end
     else commit_primary_checked);
  c ← get_state;
  spawn (commit_secondary commit_ts) c ;;
  mret (Some commit_ts).

Definition committer_rollback : M Committer.t unit :=
  c ← get_state;
  let keys := Committer.commit_keys c in
  if is_empty keys then mret () else
  match kind (Committer.options c) with
  | Optimistic =>
      let req := new_batch_rollback_request keys (Committer.start_version c) in
      answer ← try (send (EvBatchRollback req) (λ t, answer_batch_rollback cl t req));
      truncate_result answer (Committer.keyspace c)
  | Pessimistic for_update_ts =>
      let req := new_pessimistic_rollback_request keys (Committer.start_version c) for_update_ts in
      answer ← try (send (EvPessimisticRollback req) (λ t, answer_pessimistic_rollback cl t req));
      truncate_result answer (Committer.keyspace c)
  end.
End committer.

(** ** Fetching the commit timestamp *)

Section fetch_proof.
Context (cl : Cluster).

(** What a fetch that started after the events [t] returned. *)
Definition fetched (options : TransactionOptions) (t : list Event) (n : nat) (r : outcome Timestamp.t) : Prop :=
  match r with
  | Return ts => ∃ n', n = S n' ∧ get_timestamp cl (t ++ replicate n' EvTimestamp) = Ok ts ∧
      ∀ w, commit_wait_until_tso options = Some w → w ≤ Timestamp.version ts
  | Throw _ => True
  | Panicked => False
  end.

Lemma commit_wait_run {S} options w timeout fuel : commit_wait_until_tso options = Some w →
  ∀ i elapsed (s : S) t, timeout - 10 * Z.of_nat fuel ≤ elapsed →
  ∃ n r, commit_wait_loop cl w timeout fuel i elapsed s t = (r, s, t ++ replicate n EvTimestamp) ∧
    fetched options t n r.
Proof.
  intros Hw. induction fuel as [|fuel IH]; intros i elapsed s t Hf;
    cbn [commit_wait_loop]; unfold mbind, M_bind, send.
  all: destruct (get_timestamp cl t) as [ts|e] eqn:E; [|by exists 1%nat, (Throw e)].
  all: destruct (Z.leb_spec w (Timestamp.version ts));
    [exists 1%nat, (Return ts); split; [done|]; exists 0%nat; rewrite app_nil_r; naive_solver|].
  all: destruct (Z.leb_spec timeout (elapsed + Z.of_nat (round_ms cl i)));
    [by exists 1%nat, (Throw (CommitTsLag (Timestamp.version ts) w))|].
  - exfalso. lia.
  - destruct (IH (Datatypes.S i) (elapsed + Z.of_nat (round_ms cl i) + COMMIT_WAIT_UNTIL_TSO_POLL_INTERVAL_MS)
      s (t ++ [EvTimestamp])) as (n & r & -> & Hr).
    { unfold COMMIT_WAIT_UNTIL_TSO_POLL_INTERVAL_MS. lia. }
    exists (Datatypes.S n), r. rewrite <- app_assoc. split; [done|].
    destruct r as [ts'| |]; [|done|done]. destruct Hr as (n' & -> & Hts & Hwait).
    exists (Datatypes.S n'). rewrite <- app_assoc in Hts. done.
Qed.

Lemma fetch_commit_timestamp_run {S} options (s : S) t :
  ∃ n r, fetch_commit_timestamp cl options s t = (r, s, t ++ replicate n EvTimestamp) ∧
    fetched options t n r.
Proof.
  unfold fetch_commit_timestamp. destruct (commit_wait_until_tso options) as [w|] eqn:Hw.
  - apply commit_wait_run; [done|]. unfold commit_wait_fuel.
    pose proof (Z.div_mod (commit_wait_until_tso_timeout options) 10 ltac:(lia)).
    pose proof (Z.mod_pos_bound (commit_wait_until_tso_timeout options) 10 ltac:(lia)). lia.
  - unfold send. destruct (get_timestamp cl t) as [ts|e] eqn:E; [|by exists 1%nat, (Throw e)].
    exists 1%nat, (Return ts). split; [done|]. exists 0%nat. rewrite app_nil_r. naive_solver.
Qed.
End fetch_proof.

(** ** The protocol *)

Section protocol.
Context (cl : Cluster) (c : Committer.t) (p : Key) (t : list Event).

(** The prewrite of the transaction. *)
Definition the_prewrite : PrewriteRequest.t := Committer.prewrite_request p (elapsed_ms cl t) c.
Definition prewritten : list Event := [EvPrewrite the_prewrite].

(** Async commit is still on after a prewrite: the option is set, and it was not given
    up by a one-phase attempt that fell back. *)
Definition still_async (responses : list PrewriteResponse.t) : bool :=
  async_commit (Committer.options c) &&
  negb (try_one_pc (Committer.options c) && (length responses =? 1)%nat).

Definition primary_commit (ts : Timestamp.t) : CommitRequest.t :=
  new_commit_request_with_primary_key [p] (Some p) (Committer.start_version c) ts.
Definition all_commit (ts : Timestamp.t) : CommitRequest.t :=
  new_commit_request (Committer.commit_keys c) (Committer.start_version c) ts.
Definition secondary_commits (ts : Timestamp.t) : list Event :=
  if (length (Committer.commit_keys c) =? 1)%nat then []
  else [EvCommit (new_commit_request
          (List.filter (λ key, negb (key_eqb p key)) (Committer.commit_keys c))
          (Committer.start_version c) ts)].

Definition no_one_pc (responses : list PrewriteResponse.t) : Prop :=
  Forall (λ r, PrewriteResponse.one_pc_commit_ts r = 0) responses.

Definition primary_error (e : Error) : Error :=
  match e with Grpc _ => UndeterminedError e | _ => e end.

(** The prewrite succeeded and the transaction goes on to commit its primary. *)
Definition goes_two_phase (responses : list PrewriteResponse.t) : Prop :=
  answer_prewrite cl t the_prewrite = Ok responses ∧ no_one_pc responses ∧
  (still_async responses = false ∨ max_min_commit_ts responses ≫= Timestamp.try_from_version = None).

Inductive commit_protocol : outcome (option Timestamp.t) → list Event → Prop :=
| CP_prewrite_error e :
    answer_prewrite cl t the_prewrite = Err e →
    commit_protocol (Throw (prewrite_error e)) prewritten
| CP_one_pc r :
    try_one_pc (Committer.options c) = true →
    answer_prewrite cl t the_prewrite = Ok [r] → PrewriteResponse.one_pc_commit_ts r ≠ 0 →
    commit_protocol (Return (Some (Timestamp.from_version (PrewriteResponse.one_pc_commit_ts r)))) prewritten
| CP_one_pc_invalid r e :
    try_one_pc (Committer.options c) = true →
    answer_prewrite cl t the_prewrite = Ok [r] → PrewriteResponse.one_pc_commit_ts r = 0 →
    PrewriteResponse.min_commit_ts r ≠ 0 →
    commit_protocol (Throw (StringError e)) prewritten
| CP_one_pc_unexpected responses :
    answer_prewrite cl t the_prewrite = Ok responses → ¬ no_one_pc responses →
    commit_protocol Panicked prewritten
| CP_async responses ts :
    answer_prewrite cl t the_prewrite = Ok responses → no_one_pc responses →
    still_async responses = true →
    max_min_commit_ts responses ≫= Timestamp.try_from_version = Some ts →
    commit_protocol (Return (Some ts)) (prewritten ++ [EvCommit (all_commit ts)])
| CP_no_timestamp responses n e :
    goes_two_phase responses →
    commit_protocol (Throw e) (prewritten ++ replicate n EvTimestamp)
| CP_primary_error responses n ts e :
    goes_two_phase responses →
    fetched cl (Committer.options c) (t ++ prewritten) n (Return ts) →
    answer_commit cl (t ++ prewritten ++ replicate n EvTimestamp) (primary_commit ts) = Err e →
    commit_protocol (Throw (primary_error e))
      (prewritten ++ replicate n EvTimestamp ++ [EvCommit (primary_commit ts)])
| CP_committed responses n ts :
    goes_two_phase responses →
    fetched cl (Committer.options c) (t ++ prewritten) n (Return ts) →
    answer_commit cl (t ++ prewritten ++ replicate n EvTimestamp) (primary_commit ts) = Ok () →
    commit_protocol (Return (Some ts))
      (prewritten ++ replicate n EvTimestamp ++ [EvCommit (primary_commit ts)] ++ secondary_commits ts).
End protocol.

Section protocol_proof.
Context (cl : Cluster).

(** [c'] is [c] with other options. *)
Definition same_txn (c c' : Committer.t) : Prop :=
  Committer.primary_key c' = Committer.primary_key c ∧
  Committer.commit_keys c' = Committer.commit_keys c ∧
  Committer.start_version c' = Committer.start_version c ∧
  Committer.keyspace c' = Committer.keyspace c ∧
  Committer.undetermined c' = Committer.undetermined c ∧
  commit_wait_until_tso (Committer.options c') = commit_wait_until_tso (Committer.options c).

Lemma spawn_secondary c p ts t : Committer.primary_key c = Some p →
  spawn (commit_secondary cl ts) c c t =
    (Return (), c, t ++ (if async_commit (Committer.options c)
                         then [EvCommit (all_commit c ts)] else secondary_commits c p ts)).
Proof.
  intros Hp. unfold spawn, commit_secondary, secondary_commits, mbind, M_bind, get_state.
  destruct (async_commit (Committer.options c)); [|destruct (_ =? 1)%nat; [by rewrite app_nil_r|rewrite Hp]].
  all: rewrite try_send; unfold truncate_result; by destruct (truncate_keyspace_result _ _) as [[]|].
Qed.

Lemma commit_primary_run c p t : Committer.primary_key c = Some p → Committer.undetermined c = false →
  ∃ n,
    (∃ e, commit_primary_checked cl c t = (Throw e, c, t ++ replicate n EvTimestamp)) ∨
    (∃ ts, fetched cl (Committer.options c) t n (Return ts) ∧
      match answer_commit cl (t ++ replicate n EvTimestamp) (primary_commit c p ts) with
      | Ok _ => commit_primary_checked cl c t =
          (Return ts, c, t ++ replicate n EvTimestamp ++ [EvCommit (primary_commit c p ts)])
      | Err e => ∃ c', commit_primary_checked cl c t =
          (Throw (primary_error e), c', t ++ replicate n EvTimestamp ++ [EvCommit (primary_commit c p ts)])
      end).
Proof.
  intros Hp Hu. unfold commit_primary_checked, commit_primary, try at 1 3 5, mbind, M_bind, get_state.
  destruct (fetch_commit_timestamp_run cl (Committer.options c) c t) as (n & r & -> & Hr).
  exists n. destruct r as [ts|e|]; [right | left | done].
  2: { exists e. by rewrite Hu. }
  exists ts. split; [done|]. rewrite Hp. cbn [option_list]. rewrite try_send, <- app_assoc.
  fold (primary_commit c p ts).
  destruct (answer_commit cl _ _) as [[]|e] eqn:E; [done|].
  destruct e; eexists; simpl; rewrite ?Hu; reflexivity.
Qed.

(** What [committer_commit] does once the way to commit is known. *)
Definition finish_with (m : M Committer.t Timestamp.t) : M Committer.t (option Timestamp.t) :=
  commit_ts ← m; c ← get_state; spawn (commit_secondary cl commit_ts) c ;; mret (Some commit_ts).

Lemma fetched_options o o' t n r : commit_wait_until_tso o' = commit_wait_until_tso o →
  fetched cl o' t n r → fetched cl o t n r.
Proof. unfold fetched. by intros ->. Qed.

Lemma two_phase_tail c c' p t responses : same_txn c c' → Committer.primary_key c = Some p →
  Committer.undetermined c = false → async_commit (Committer.options c') = false →
  goes_two_phase cl c p t responses →
  ∃ res c'' ev, finish_with (commit_primary_checked cl) c' (t ++ prewritten cl c p t) = (res, c'', t ++ ev) ∧
    commit_protocol cl c p t res ev.
Proof.
  intros (Hp & Hk & Hs & Hks & Hu & Hw) Hp0 Hu0 Ha H2.
  assert (∀ ts, primary_commit c' p ts = primary_commit c p ts) as Epc
    by (intros; unfold primary_commit; by rewrite Hs).
  assert (∀ ts, secondary_commits c' p ts = secondary_commits c p ts) as Esc
    by (intros; unfold secondary_commits; by rewrite Hk, Hs).
  destruct (commit_primary_run c' p (t ++ prewritten cl c p t)) as (n & Hrun); [congruence..|].
  unfold finish_with, mbind, M_bind, get_state.
  destruct Hrun as [[e Hrun] | (ts & Hf & Hrun)].
  - rewrite Hrun, <- app_assoc. exists (Throw e). do 2 eexists. split; [done|]. by econstructor.
  - rewrite Epc in Hrun. apply (fetched_options (Committer.options c)) in Hf; [|done].
    destruct (answer_commit cl _ _) as [[]|e] eqn:E; rewrite <- app_assoc in E.
    + rewrite Hrun, (spawn_secondary c' p) by congruence. rewrite Ha, Esc, <- !app_assoc.
      exists (Return (Some ts)). do 2 eexists. split; [done|]. by econstructor.
    + destruct Hrun as [c'' Hrun]. rewrite Hrun, <- !app_assoc.
      exists (Throw (primary_error e)). do 2 eexists. split; [done|]. by econstructor.
Qed.

Lemma async_tail c c' p t ts : same_txn c c' → Committer.primary_key c = Some p →
  async_commit (Committer.options c') = true →
  finish_with (mret ts) c' t = (Return (Some ts), c', t ++ [EvCommit (all_commit c ts)]).
Proof.
  intros (Hp & Hk & Hs & _) Hp0 Ha. unfold finish_with, mbind, M_bind, get_state, mret, M_ret.
  rewrite (spawn_secondary c' p) by congruence. rewrite Ha. unfold all_commit. by rewrite Hk, Hs.
Qed.

Lemma no_one_pc_existsb responses :
  existsb (λ r, negb (PrewriteResponse.one_pc_commit_ts r =? 0)) responses = false ↔ no_one_pc responses.
Proof.
  unfold no_one_pc. induction responses as [|r rs IH]; simpl; [done|].
  rewrite orb_false_iff, negb_false_iff, Z.eqb_eq, IH, Forall_cons. done.
Qed.

(** The part of [committer_commit] after a prewrite that did not commit in one phase;
    [c'] is the committer after it. *)
Lemma commit_after_prewrite c c' p t responses : same_txn c c' → Committer.primary_key c = Some p →
  Committer.undetermined c = false → answer_prewrite cl t (the_prewrite cl c p t) = Ok responses →
  no_one_pc responses → async_commit (Committer.options c') = still_async c responses →
  ∃ res c'' ev,
    finish_with (if async_commit (Committer.options c') then
        match max_min_commit_ts responses ≫= Timestamp.try_from_version with
        | Some m => mret m
        | None => modify (Committer.set_options (set_async_commit false)) ;; commit_primary_checked cl
        end
      else commit_primary_checked cl) c' (t ++ prewritten cl c p t) = (res, c'', t ++ ev) ∧
    commit_protocol cl c p t res ev.
Proof.
  intros Hsame Hp Hu Hok Hno Ha. destruct (async_commit (Committer.options c')) eqn:Eas.
  - destruct (max_min_commit_ts responses ≫= Timestamp.try_from_version) as [ts|] eqn:Em.
    + rewrite (async_tail c _ p), <- app_assoc by done. do 3 eexists. split; [done|]. by econstructor.
    + assert (goes_two_phase cl c p t responses) as H2 by (split_and!; auto).
      destruct (two_phase_tail c (Committer.set_options (set_async_commit false) c') p t responses)
        as (res & c'' & ev & E & HP); [done | done | done | done | done |].
      exists res, c'', ev. split; [exact E | done].
  - assert (goes_two_phase cl c p t responses) as H2 by (split_and!; auto).
    by apply two_phase_tail with responses.
Qed.

(** The state after [prewrite]. *)
Lemma prewrite_run c p t : Committer.primary_key c = Some p →
  prewrite cl c t =
  match answer_prewrite cl t (the_prewrite cl c p t) with
  | Err e => (Throw (prewrite_error e), c, t ++ prewritten cl c p t)
  | Ok responses =>
      let finish c1 :=
        let c2 := Committer.set_options (set_try_one_pc false) c1 in
        if existsb (λ r, negb (PrewriteResponse.one_pc_commit_ts r =? 0)) responses
        then (Panicked, c2, t ++ prewritten cl c p t)
        else (Return (max_min_commit_ts responses ≫= Timestamp.try_from_version), c2,
              t ++ prewritten cl c p t) in
      match try_one_pc (Committer.options c), responses with
      | true, [r] =>
          if negb (PrewriteResponse.one_pc_commit_ts r =? 0) then
            (Return (Timestamp.try_from_version (PrewriteResponse.one_pc_commit_ts r)), c,
             t ++ prewritten cl c p t)
          else if negb (PrewriteResponse.min_commit_ts r =? 0) then
            (Throw (StringError
               "invalid PrewriteResponse: min_commit_ts must be 0 when 1PC falls back to 2PC"), c,
             t ++ prewritten cl c p t)
          else finish (Committer.set_options (set_async_commit false) c)
      | _, _ => finish c
      end
  end.
Proof.
  intros Hp. unfold prewrite, mbind, M_bind, get_state. rewrite Hp. unfold observe.
  rewrite try_send. fold (the_prewrite cl c p t).
  destruct (answer_prewrite cl t (the_prewrite cl c p t)) as [rs|e]; [|done].
  destruct (try_one_pc (Committer.options c)), rs as [|r [|r' rs]]; simpl;
    repeat (case_match; simpl); done.
Qed.

Lemma commit_follows_protocol c p t : Committer.primary_key c = Some p →
  Committer.undetermined c = false →
  ∃ res c' ev, committer_commit cl c t = (res, c', t ++ ev) ∧ commit_protocol cl c p t res ev.
Proof.
  intros Hp Hu.
  assert (∀ c1 responses, same_txn c c1 → answer_prewrite cl t (the_prewrite cl c p t) = Ok responses →
    async_commit (Committer.options c1) = still_async c responses →
    prewrite cl c t = (let c2 := Committer.set_options (set_try_one_pc false) c1 in
        if existsb (λ r, negb (PrewriteResponse.one_pc_commit_ts r =? 0)) responses
        then (Panicked, c2, t ++ prewritten cl c p t)
        else (Return (max_min_commit_ts responses ≫= Timestamp.try_from_version), c2,
              t ++ prewritten cl c p t)) →
    ∃ res c' ev, committer_commit cl c t = (res, c', t ++ ev) ∧ commit_protocol cl c p t res ev) as Hfin.
  { intros c1 rs Hsame Hok Ha Hrun. unfold committer_commit, mbind at 1, M_bind at 1. rewrite Hrun.
    destruct (existsb _ _) eqn:Eex.
    - do 3 eexists. split; [done|]. eapply CP_one_pc_unexpected; [exact Hok|].
      intros Hno%no_one_pc_existsb. congruence.
    - apply no_one_pc_existsb in Eex.
      exact (commit_after_prewrite c (Committer.set_options (set_try_one_pc false) c1) p t rs Hsame Hp Hu Hok Eex Ha). }
  pose proof (prewrite_run c p t Hp) as Hrun.
  destruct (answer_prewrite cl t (the_prewrite cl c p t)) as [rs|e] eqn:Ea.
  2: { unfold committer_commit, mbind at 1, M_bind at 1. rewrite Hrun. do 3 eexists. split; [done|]. by constructor. }
  destruct (try_one_pc (Committer.options c)) eqn:E1.
  2: { apply (Hfin c rs); [done | done | unfold still_async; by rewrite E1, andb_true_r | exact Hrun]. }
  destruct rs as [|r [|r' rs]].
  1, 3: eapply (Hfin c); [done | reflexivity | unfold still_async; by rewrite E1, andb_true_r | exact Hrun].
  destruct (Z.eqb_spec (PrewriteResponse.one_pc_commit_ts r) 0) as [H0|Hne]; simpl in Hrun.
  - destruct (Z.eqb_spec (PrewriteResponse.min_commit_ts r) 0) as [Hm|Hm]; simpl in Hrun.
    + apply (Hfin (Committer.set_options (set_async_commit false) c) [r]);
        [done | done | unfold still_async; by rewrite E1, andb_false_r | exact Hrun].
    + unfold committer_commit, mbind at 1, M_bind at 1. rewrite Hrun. do 3 eexists. split; [done|].
      by eapply CP_one_pc_invalid.
  - unfold committer_commit, mbind, M_bind, get_state. rewrite Hrun, E1. do 3 eexists. split; [done|].
    unfold Timestamp.try_from_version. destruct (Z.eqb_spec (PrewriteResponse.one_pc_commit_ts r) 0); [done|].
    by constructor.
Qed.
End protocol_proof.

(** ** Atomicity *)

Definition commit_requests (ev : list Event) : list CommitRequest.t :=
  omap (λ e, match e with EvCommit r => Some r | _ => None end) ev.

Lemma commit_requests_app a b : commit_requests (a ++ b) = commit_requests a ++ commit_requests b.
Proof. apply omap_app. Qed.
Lemma commit_requests_timestamps n : commit_requests (replicate n EvTimestamp) = [].
Proof. induction n; simpl; [done|]. exact IHn. Qed.
#[local] Hint Rewrite commit_requests_app commit_requests_timestamps : commits.

Lemma primary_and_rest p keys : NoDup keys → p ∈ keys →
  p :: List.filter (λ key, negb (key_eqb p key)) keys ≡ₚ keys.
Proof.
  induction keys as [|k keys IH]; intros Hnd Hin; [by apply elem_of_nil in Hin|].
  apply NoDup_cons in Hnd as [Hk Hnd]. simpl. destruct (key_eqb_spec p k) as [->|Hne]; simpl.
  - constructor. clear IH Hin Hnd. induction keys as [|k' keys IH]; [done|].
    apply not_elem_of_cons in Hk as [? ?]. simpl. destruct (key_eqb_spec k k'); [done|]. simpl.
    constructor. by apply IH.
  - rewrite perm_swap. constructor. apply IH; [done|]. by apply elem_of_cons in Hin as [->|].
Qed.

Lemma singleton_keys p (keys : list (list Z)) : p ∈ keys → length keys = 1%nat → keys = [p].
Proof. destruct keys as [|k [|]]; [done | | done]. by intros ->%list_elem_of_singleton. Qed.

(** The commit requests of a successful two-phase commit. *)
Lemma committed_keys c p ts : p ∈ Committer.commit_keys c → NoDup (Committer.commit_keys c) →
  concat (map CommitRequest.keys (commit_requests
    ([EvCommit (primary_commit c p ts)] ++ secondary_commits c p ts))) ≡ₚ Committer.commit_keys c ∧
  Forall (λ r, CommitRequest.start_version r = Timestamp.version (Committer.start_version c) ∧
               CommitRequest.commit_version r = Timestamp.version ts)
    (commit_requests ([EvCommit (primary_commit c p ts)] ++ secondary_commits c p ts)).
Proof.
  intros Hin Hnd. unfold secondary_commits.
  destruct (Nat.eqb_spec (length (Committer.commit_keys c)) 1) as [E|E]; simpl.
  - rewrite (singleton_keys p _ Hin E). repeat constructor.
  - rewrite app_nil_r. split; [by apply primary_and_rest | repeat constructor].
Qed.

Lemma app_cons_locate {A} (l1 l2 m1 m2 : list A) x y :
  l1 ++ x :: l2 = m1 ++ y :: m2 → x ∉ m1 →
  (l1 = m1 ∧ x = y) ∨ ∃ b, l1 = m1 ++ y :: b.
Proof.
  revert l1. induction m1 as [|m m1 IH]; intros [|l l1] E Hx; simpl in E; injection E as E1 E2; subst.
  - by left.
  - right. by exists l1.
  - by destruct Hx; left.
  - apply not_elem_of_cons in Hx as [_ Hx]. destruct (IH l1 E2 Hx) as [[-> ->] | [b ->]]; [by left|].
    right. by exists b.
Qed.

Lemma no_commit_in_prefix cl c p t n r : EvCommit r ∉ prewritten cl c p t ++ replicate n EvTimestamp.
Proof.
  rewrite elem_of_app, elem_of_replicate. intros [?%list_elem_of_singleton | [? _]]; done.
Qed.

(** In every run of the protocol a commit request without the primary comes after the
    primary was committed. *)
Lemma protocol_primary_first cl c p t res ev before r after :
  commit_protocol cl c p t res ev → p ∈ Committer.commit_keys c →
  ev = before ++ EvCommit r :: after → p ∉ CommitRequest.keys r →
  ∃ r0 b1 b2, before = b1 ++ EvCommit r0 :: b2 ∧ CommitRequest.keys r0 = [p] ∧
    answer_commit cl (t ++ b1) r0 = Ok ().
Proof.
  intros Hrun Hp Hev Hr.
  assert (∀ n ts rest, prewritten cl c p t ++ replicate n EvTimestamp ++ EvCommit (primary_commit c p ts) :: rest =
    before ++ EvCommit r :: after → ∃ b2, before = (prewritten cl c p t ++ replicate n EvTimestamp) ++
      EvCommit (primary_commit c p ts) :: b2) as Hloc.
  { intros n ts rest E. symmetry in E. rewrite app_assoc in E.
    apply app_cons_locate in E as [[-> [= ->]] | [b ->]]; [|by exists b | by apply no_commit_in_prefix].
    exfalso. apply Hr. left. }
  assert (∀ x, x = before ++ EvCommit r :: after → EvCommit r ∈ x) as Hmem by (intros ? ->; set_solver).
  apply Hmem in Hev as Hin. destruct Hrun.
  1, 2, 3, 4: by apply list_elem_of_singleton in Hin.
  - apply elem_of_app in Hin as [?%list_elem_of_singleton | [= ->]%list_elem_of_singleton]; done.
  - by apply no_commit_in_prefix in Hin.
  - exfalso. rewrite app_assoc in Hin. apply elem_of_app in Hin as [?%no_commit_in_prefix | Hin]; [done|].
    apply list_elem_of_singleton in Hin as [= ->]. apply Hr. left.
  - apply Hloc in Hev as [b2 ->]. eexists _, _, b2. split_and!; [done | done |]. by rewrite app_assoc in H1 |- *.
Qed.

Lemma commit_requests_prewritten cl c p t : commit_requests (prewritten cl c p t) = [].
Proof. done. Qed.
#[local] Hint Rewrite commit_requests_prewritten : commits.

Lemma protocol_prewrite_first cl c p t res ev : commit_protocol cl c p t res ev →
  commit_requests ev ≠ [] → is_ok (answer_prewrite cl t (the_prewrite cl c p t)) = true.
Proof.
  intros HP Hne. destruct HP as [| | | |? ? Hok|? ? ? [Hok _]|? ? ? ? [Hok _]|? ? ? [Hok _]];
    try done; by rewrite Hok.
Qed.

Lemma protocol_versions cl c p t res ev : commit_protocol cl c p t res ev →
  p ∈ Committer.commit_keys c → NoDup (Committer.commit_keys c) →
  ∃ v, Forall (λ r, CommitRequest.start_version r = Timestamp.version (Committer.start_version c) ∧
                    CommitRequest.commit_version r = v) (commit_requests ev).
Proof.
  intros HP Hin Hnd. destruct HP; autorewrite with commits; simpl;
    try (exists (Timestamp.version ts); repeat constructor; done); try (exists 0; constructor; done).
  eexists. apply (committed_keys c p ts Hin Hnd).
Qed.

Lemma protocol_result cl c p t res ev : commit_protocol cl c p t res ev →
  p ∈ Committer.commit_keys c → NoDup (Committer.commit_keys c) →
  match res with
  | Return o => ∃ ts, o = Some ts ∧
      ((commit_requests ev = [] ∧ ∃ r, answer_prewrite cl t (the_prewrite cl c p t) = Ok [r] ∧
          PrewriteResponse.one_pc_commit_ts r ≠ 0 ∧
          ts = Timestamp.from_version (PrewriteResponse.one_pc_commit_ts r)) ∨
       (concat (map CommitRequest.keys (commit_requests ev)) ≡ₚ Committer.commit_keys c ∧
        Forall (λ r, CommitRequest.commit_version r = Timestamp.version ts) (commit_requests ev)))
  | Throw e => commit_requests ev = [] ∨
      ∃ before r e0, ev = before ++ [EvCommit r] ∧ CommitRequest.keys r = [p] ∧
        answer_commit cl (t ++ before) r = Err e0 ∧ e = primary_error e0
  | Panicked => commit_requests ev = []
  end.
Proof.
  intros HP Hin Hnd. destruct HP as [| r | | | rs ts | | rs n ts e H2 Hf He | rs n ts H2 Hf He].
  - by left.
  - eexists. split; [done|]. left. split; [done|]. by exists r.
  - by left.
  - done.
  - exists ts. split; [done|]. right. autorewrite with commits. simpl. rewrite app_nil_r. split; [done|].
    repeat constructor.
  - left. by autorewrite with commits.
  - right. exists (prewritten cl c p t ++ replicate n EvTimestamp), (primary_commit c p ts), e.
    by rewrite <- !app_assoc.
  - exists ts. split; [done|]. right. destruct (committed_keys c p ts Hin Hnd) as [Hperm Hver].
    rewrite !commit_requests_app, commit_requests_timestamps in *. split; [exact Hperm|].
    eapply Forall_impl; [exact Hver|]. naive_solver.
Qed.

(** C2: [commit] follows the commit protocol.  Whatever PD and the stores answer, a
    committer with a primary key returns (or stops at the assertion on unexpected
    one-phase commits), and the requests it sent and its result are those of one of
    the runs of [commit_protocol]: prewrite failed, one-phase commit, async commit at
    the largest minimum commit timestamp, or two-phase commit at a timestamp that PD
    gave after the prewrite and that respects the requested waiting timestamp. *)
Theorem committer_commit_refines_protocol cl c p t :
  Committer.primary_key c = Some p → Committer.undetermined c = false →
  ∃ res c' ev, committer_commit cl c t = (res, c', t ++ ev) ∧ commit_protocol cl c p t res ev.
Proof. apply commit_follows_protocol. Qed.

Definition sample_committer (options : TransactionOptions) : Committer.t :=
  Committer.new (Some [97]) [sample_put [97]; sample_put [122]] [[97]; [122]]
    (Timestamp.from_version 5000000) options Disable 4.

Lemma committer_commit_refines_protocol_witness :
  ∃ res c' ev, committer_commit sample_cluster (sample_committer new_optimistic) [] = (res, c', ev) ∧
    length ev = 4%nat ∧
    commit_protocol sample_cluster (sample_committer new_optimistic) [97] [] res ev.
Proof.
  destruct (committer_commit_refines_protocol sample_cluster (sample_committer new_optimistic) [97] [])
    as (res & c' & ev & E & HP); [reflexivity | reflexivity |].
  exists res, c', ev. split; [exact E|]. split; [|exact HP]. vm_compute in E. by inversion E.
Defined.

(** C1: a commit is atomic.  When the primary is one of the distinct keys to
    commit: commit requests are sent only after the prewrite succeeded, they all carry
    the transaction's start version and one commit version, and a request without the
    primary is sent only after the primary was committed.  A commit that returns did
    it in one phase, or sent commit requests whose keys are exactly the keys to commit.
    A commit that fails sent no commit request, or its last request was the one of
    the primary and was answered with an error, which is reported as undetermined
    when the connection failed and unchanged otherwise. *)
Theorem commit_atomic cl c p t res c' ev :
  Committer.primary_key c = Some p → Committer.undetermined c = false →
  p ∈ Committer.commit_keys c → NoDup (Committer.commit_keys c) →
  committer_commit cl c t = (res, c', t ++ ev) →
  (commit_requests ev ≠ [] → is_ok (answer_prewrite cl t (the_prewrite cl c p t)) = true) ∧
  (∃ v, Forall (λ r, CommitRequest.start_version r = Timestamp.version (Committer.start_version c) ∧
                     CommitRequest.commit_version r = v) (commit_requests ev)) ∧
  (∀ before r after, ev = before ++ EvCommit r :: after → p ∉ CommitRequest.keys r →
     ∃ r0 b1 b2, before = b1 ++ EvCommit r0 :: b2 ∧ CommitRequest.keys r0 = [p] ∧
       answer_commit cl (t ++ b1) r0 = Ok ()) ∧
  match res with
  | Return o => ∃ ts, o = Some ts ∧
      ((commit_requests ev = [] ∧ ∃ r, answer_prewrite cl t (the_prewrite cl c p t) = Ok [r] ∧
          PrewriteResponse.one_pc_commit_ts r ≠ 0 ∧
          ts = Timestamp.from_version (PrewriteResponse.one_pc_commit_ts r)) ∨
       (concat (map CommitRequest.keys (commit_requests ev)) ≡ₚ Committer.commit_keys c ∧
        Forall (λ r, CommitRequest.commit_version r = Timestamp.version ts) (commit_requests ev)))
  | Throw e => commit_requests ev = [] ∨
      ∃ before r e0, ev = before ++ [EvCommit r] ∧ CommitRequest.keys r = [p] ∧
        answer_commit cl (t ++ before) r = Err e0 ∧ e = primary_error e0
  | Panicked => commit_requests ev = []
  end.
Proof.
  intros Hp Hu Hin Hnd E. destruct (commit_follows_protocol cl c p t Hp Hu) as (res1 & c1 & ev1 & E1 & HP).
  rewrite E1 in E. injection E as -> -> Hev%app_inv_head. subst ev1.
  split_and!; [by eapply protocol_prewrite_first | by eapply protocol_versions
    | intros; by eapply protocol_primary_first | by eapply protocol_result].
Qed.

Lemma commit_atomic_witness :
  ∃ res c' ev, committer_commit sample_cluster (sample_committer new_optimistic) [] = (res, c', ev) ∧
    concat (map CommitRequest.keys (commit_requests ev)) ≡ₚ [[97]; [122]].
Proof.
  destruct (committer_commit sample_cluster (sample_committer new_optimistic) []) as [[res c'] ev] eqn:E.
  exists res, c', ev. split; [reflexivity|].
  destruct (commit_atomic sample_cluster (sample_committer new_optimistic) [97] [] res c' ev)
    as (_ & _ & _ & Hres); [reflexivity | reflexivity | left | repeat constructor; set_solver | exact E |].
  vm_compute in E. injection E as <- <- <-.
  destruct Hres as (ts & _ & [[Hnone _] | [Hperm _]]); [discriminate Hnone | exact Hperm].
Defined.

(** ** Bounds of the prewrite request *)

Lemma calc_txn_lock_ttl_bounds c : DEFAULT_LOCK_TTL ≤ Committer.calc_txn_lock_ttl c ≤ MAX_TTL.
Proof. unfold Committer.calc_txn_lock_ttl, DEFAULT_LOCK_TTL, MAX_TTL. case_zb; lia. Qed.

Lemma calc_txn_lock_ttl_mono c c' : 0 ≤ Committer.write_size c ≤ Committer.write_size c' →
  Committer.calc_txn_lock_ttl c ≤ Committer.calc_txn_lock_ttl c'.
Proof.
  intros H. unfold Committer.calc_txn_lock_ttl, DEFAULT_LOCK_TTL, MAX_TTL, TXN_COMMIT_BATCH_SIZE in *.
  pose proof (Z.sqrt_le_mono (36000000 * Committer.write_size c) (36000000 * Committer.write_size c') ltac:(lia)).
  pose proof (Z.div_le_mono _ _ 1024 ltac:(lia) H0). repeat case_zb; lia.
Qed.

Lemma add_physical_ms_ge v d : in_u64 v → 0 ≤ d → v ≤ add_physical_ms v d ≤ u64_max.
Proof.
  intros Hv Hd. unfold add_physical_ms, PD_TS_LOGICAL_BITS. rewrite Z.shiftl_1_l. change (2 ^ 18) with 262144.
  word_lia.
Qed.

Lemma max_commit_ts_range c elapsed : 0 ≤ elapsed → 0 ≤ max_commit_ts_safe_window (Committer.options c) →
  Timestamp.version (Committer.start_version c) ≤ Committer.max_commit_ts elapsed c ≤ u64_max.
Proof.
  intros He Hw. unfold Committer.max_commit_ts. set (v := Timestamp.version (Committer.start_version c)).
  pose proof (version_range (Committer.start_version c)) as Hv. fold v in Hv.
  pose proof (add_physical_ms_ge v elapsed Hv He).
  pose proof (add_physical_ms_ge (add_physical_ms v elapsed)
    (Z.min (max_commit_ts_safe_window (Committer.options c)) u64_max)) as H2.
  unfold in_u64, u64_max in *. lia.
Qed.

Lemma extract_physical_ms_mono a b : 0 ≤ a ≤ b →
  0 ≤ extract_physical_ms a ≤ extract_physical_ms b ∧ 262144 * extract_physical_ms b ≤ b.
Proof.
  intros H. unfold extract_physical_ms, PD_TS_LOGICAL_BITS. rewrite !Z.shiftr_div_pow2 by lia.
  change (2 ^ 18) with 262144. split; [split; [apply Z.div_pos; lia | apply Z.div_le_mono; lia]|].
  apply Z.mul_div_le. lia.
Qed.

Lemma lock_ttl_ge p elapsed c : 0 ≤ elapsed ≤ u64_max →
  DEFAULT_LOCK_TTL ≤ PrewriteRequest.lock_ttl (Committer.prewrite_request p elapsed c) ∧
  elapsed ≤ PrewriteRequest.lock_ttl (Committer.prewrite_request p elapsed c).
Proof.
  intros He. pose proof (calc_txn_lock_ttl_bounds c) as Hb. unfold DEFAULT_LOCK_TTL, MAX_TTL in *.
  unfold Committer.prewrite_request. cbn [PrewriteRequest.lock_ttl].
  generalize dependent (Committer.calc_txn_lock_ttl c). intros ttl Hb.
  destruct (kind (Committer.options c)); cbn [PrewriteRequest.lock_ttl new_prewrite_request new_pessimistic_prewrite_request];
    destruct (_ && _); unfold sat_add_u64, u64_max in *; lia.
Qed.

(** The timestamps and the TTL of a prewrite request are safe.  The minimum commit
    timestamp is above the start version and above the for-update timestamp; the
    TTL is at least the default and at least the time since the start; the secondaries
    are the keys to commit without the primary.  When async commit or one-phase commit is
    tried, the maximum commit timestamp is not below the start version; and for an
    async-commit pessimistic transaction the lock outlives it: the physical time of
    the maximum commit timestamp is below the start time plus the TTL. *)
Theorem prewrite_request_bounds p elapsed c :
  0 ≤ elapsed ≤ u64_max → 0 ≤ max_commit_ts_safe_window (Committer.options c) →
  Timestamp.version (Committer.start_version c) < u64_max →
  let q := Committer.prewrite_request p elapsed c in
  let start_ts := Timestamp.version (Committer.start_version c) in
  start_ts < PrewriteRequest.min_commit_ts q ∧
  (∀ for_update_ts, kind (Committer.options c) = Pessimistic for_update_ts →
     Timestamp.version for_update_ts < u64_max →
     Timestamp.version for_update_ts < PrewriteRequest.min_commit_ts q) ∧
  DEFAULT_LOCK_TTL ≤ PrewriteRequest.lock_ttl q ∧ elapsed ≤ PrewriteRequest.lock_ttl q ∧
  (∀ k, k ∈ PrewriteRequest.secondaries q ↔ k ∈ Committer.commit_keys c ∧ k ≠ p) ∧
  (async_commit (Committer.options c) || try_one_pc (Committer.options c) = true →
     start_ts ≤ PrewriteRequest.max_commit_ts q) ∧
  (async_commit (Committer.options c) = true → options_is_pessimistic (Committer.options c) = true →
     extract_physical_ms (PrewriteRequest.max_commit_ts q) <
       extract_physical_ms start_ts + PrewriteRequest.lock_ttl q).
Proof.
  intros He Hw Hs q start_ts.
  pose proof (max_commit_ts_range c elapsed (proj1 He) Hw) as Hmax. fold start_ts in Hs, Hmax.
  pose proof (version_range (Committer.start_version c)) as Hv. fold start_ts in Hv. unfold in_u64 in Hv.
  split_and!.
  - subst q. cbn [PrewriteRequest.min_commit_ts Committer.prewrite_request]. unfold Committer.min_commit_ts.
    fold start_ts. destruct (kind (Committer.options c)); word_lia.
  - intros f Hk Hf. subst q. cbn [PrewriteRequest.min_commit_ts Committer.prewrite_request].
    unfold Committer.min_commit_ts. rewrite Hk. word_lia.
  - by apply lock_ttl_ge.
  - by apply lock_ttl_ge.
  - intros k. subst q. cbn [PrewriteRequest.secondaries Committer.prewrite_request].
    rewrite list_elem_of_In, filter_In, <- list_elem_of_In. destruct (key_eqb_spec p k); naive_solver.
  - intros Ho. subst q. cbn [PrewriteRequest.max_commit_ts Committer.prewrite_request]. rewrite Ho. lia.
  - intros Ha Hp. subst q. cbn [PrewriteRequest.max_commit_ts PrewriteRequest.lock_ttl Committer.prewrite_request].
    rewrite Ha, Hp. simpl. fold start_ts. destruct Hmax as [Hm1 Hm2].
    pose proof (extract_physical_ms_mono start_ts _ (conj (proj1 Hv) Hm1)).
    unfold sat_add_u64, sat_sub_u64, u64_max in *. lia.
Qed.

Lemma prewrite_request_bounds_witness :
  5000000 < PrewriteRequest.min_commit_ts (Committer.prewrite_request [97] 1 (sample_committer new_optimistic)).
Proof.
  refine (proj1 (prewrite_request_bounds [97] 1 (sample_committer new_optimistic) _ _ _));
    [split; done | done | reflexivity].
Defined.

(** ** Two runs worth knowing *)

Definition with_prewrite (responses : list PrewriteResponse.t) (cl : Cluster) : Cluster := {|
  get_timestamp := get_timestamp cl;
  answer_prewrite := λ _ _, Ok responses;
  answer_commit := answer_commit cl;
  answer_batch_rollback := answer_batch_rollback cl;
  answer_pessimistic_lock := answer_pessimistic_lock cl;
  answer_pessimistic_rollback := answer_pessimistic_rollback cl;
  answer_flush := answer_flush cl;
  answer_heart_beat := answer_heart_beat cl;
  answer_get := answer_get cl;
  answer_batch_get := answer_batch_get cl;
  answer_scan := answer_scan cl;
  latch_is_stale := latch_is_stale cl;
  elapsed_ms := elapsed_ms cl;
  round_ms := round_ms cl;
  spurious_failures := spurious_failures cl
|}.
Definition with_commit_error (e : Error) (cl : Cluster) : Cluster := {|
  get_timestamp := get_timestamp cl;
  answer_prewrite := answer_prewrite cl;
  answer_commit := λ _ _, Err e;
  answer_batch_rollback := answer_batch_rollback cl;
  answer_pessimistic_lock := answer_pessimistic_lock cl;
  answer_pessimistic_rollback := answer_pessimistic_rollback cl;
  answer_flush := answer_flush cl;
  answer_heart_beat := answer_heart_beat cl;
  answer_get := answer_get cl;
  answer_batch_get := answer_batch_get cl;
  answer_scan := answer_scan cl;
  latch_is_stale := latch_is_stale cl;
  elapsed_ms := elapsed_ms cl;
  round_ms := round_ms cl;
  spurious_failures := spurious_failures cl
|}.

(** One region cannot do async commit (it answers 0) and the other can: the code takes
    the maximum, so the transaction is reported as committed before its primary is,
    instead of falling back to two-phase commit. *)
Lemma async_commit_ignores_refusal :
  (committer_commit (with_prewrite [PrewriteResponse.mk 0 0; PrewriteResponse.mk 5000007 0] sample_cluster)
    (sample_committer (set_async_commit true new_optimistic)) []).1.1
  = Return (Some (Timestamp.from_version 5000007)).
Proof. by vm_compute. Qed.

(** A request whose response is lost fails with [Error::GrpcAPI], which is not reported
    as undetermined; only [Error::Grpc] is. *)
Lemma lost_response_not_undetermined m :
  (committer_commit (with_commit_error (GrpcAPI m) sample_cluster) (sample_committer new_optimistic) []).1.1
    = Throw (GrpcAPI m) ∧
  (committer_commit (with_commit_error (Grpc m) sample_cluster) (sample_committer new_optimistic) []).1.1
    = Throw (UndeterminedError (Grpc m)).
Proof. by vm_compute. Qed.
