(* ===== verification/CommitPlans.v ===== *)
(** * Commits over regions (src/src/transaction/transaction.rs, src/src/transaction/requests.rs,
      src/src/request/plan.rs)

    Commits.v takes the answers to a prewrite and to a commit from the record [Cluster].  Here these answers come
    from the plans that the committer builds: the request is cut into batches per region, each batch is sent to
    a store, retried and resolved, and the responses are merged.  The class [StoreCluster] is the interface between the
    two layers; from it follows what a successful commit means for the stores.

    A failed region lookup drops a shard of a batched request (see Sharding.v), so the theorems assume that
    region lookups succeed. *)

From Stdlib Require Import Sorting.Permutation.
From S2P Require Import Prelude Keys Proto Errors Ranges Timestamps Kv Regions Sharding Backoffs Locks Requests Plans LockPlans TxnPlans Effects Pipelined Commits.

(** ** The plans *)

(** [kvrpcpb::PrewriteResponse] and [kvrpcpb::CommitResponse] with their errors *)
Record PrewriteMsg := mkPrewriteMsg {
  pw_region_error : option RegionError.t; pw_errors : list KeyError.t; pw_body : PrewriteResponse.t }.
Record CommitMsg := mkCommitMsg { cm_region_error : option RegionError.t; cm_error : option KeyError.t }.

Abbreviation PrewritePlan Client := (ResolveLock.t (Dispatch.t Client PrewriteRequest.t)).
Abbreviation CommitPlan Client := (ResolveLock.t (Dispatch.t Client CommitRequest.t)).

Section plans.
Context {Client : Type}.
Context (pd : list nat → nat → list Z → Result RegionWithLeader.t) (store : list nat → StoreView Client).

Definition prewrite_of (p : PrewritePlan Client) : PrewriteRequest.t := Dispatch.request (ResolveLock.inner p).
Definition commit_of (p : CommitPlan Client) : CommitRequest.t := Dispatch.request (ResolveLock.inner p).

(** [PlanBuilder::new(..).resolve_lock(..).retry_multi_region(..)] *)
Definition prewrite_plan (req : PrewriteRequest.t) (lock_backoff : Backoff.t) : PrewritePlan Client :=
  ResolveLock.mk (Dispatch.mk req None) lock_backoff.
Definition commit_plan (req : CommitRequest.t) (lock_backoff : Backoff.t) : CommitPlan Client :=
  ResolveLock.mk (Dispatch.mk req None) lock_backoff.

Definition prewrite_ops (execute : list nat → PrewritePlan Client → Result PrewriteMsg) :
    PlanOps (PrewritePlan Client) PrewriteShard PrewriteMsg :=
  plan_ops Client pd (λ p, S (length (PrewriteRequest.mutations (prewrite_of p)))) store execute
    (λ r, list_key_errors (pw_errors r)) pw_region_error.
Definition commit_ops (execute : list nat → CommitPlan Client → Result CommitMsg) :
    PlanOps (CommitPlan Client) (list (list Z)) CommitMsg :=
  plan_ops Client pd (λ p, S (length (CommitRequest.keys (commit_of p)))) store execute
    (λ r, single_key_errors (cm_error r)) cm_region_error.
End plans.

(** [.merge(CollectError).extract_error()] and [.extract_error()] *)
Definition prewrite_outcome (to_string : Error → string) (r : Result (list (Result PrewriteMsg))) :
    Result (list PrewriteResponse.t) :=
  responses ← extract_error (λ rs, vec_key_errors to_string (λ r, list_key_errors (pw_errors r)) (map Ok rs))
    (λ rs, vec_region_errors pw_region_error (map Ok rs)) (rs ← r; collect_error rs);
  Ok (map pw_body responses).
Definition commit_outcome (to_string : Error → string) (r : Result (list (Result CommitMsg))) : Result unit :=
  _ ← extract_error (vec_key_errors to_string (λ r, single_key_errors (cm_error r))) (vec_region_errors cm_region_error) r;
  Ok ().

(** ** The parts of a prewrite *)

(** The request without what a shard changes. *)
Definition prewrite_frame (r : PrewriteRequest.t) : PrewriteRequest.t :=
  PrewriteRequest.mk [] (PrewriteRequest.primary_lock r) (PrewriteRequest.start_version r) (PrewriteRequest.lock_ttl r)
    (PrewriteRequest.for_update_ts r) (PrewriteRequest.pessimistic_actions r) (PrewriteRequest.use_async_commit r) false
    (PrewriteRequest.min_commit_ts r) (PrewriteRequest.max_commit_ts r) [] (PrewriteRequest.assertion_level r) 0.

Definition mutation_keys (r : PrewriteRequest.t) : list Key := map PbMutation.key (PrewriteRequest.mutations r).

(** [r] is sent for a part of [root]: the part with the primary names all secondaries, with async commit the others name
    none, and one-phase commit is only asked for by a request for everything. *)
Record prewrite_part (root r : PrewriteRequest.t) : Prop := {
  part_frame : prewrite_frame r = prewrite_frame root;
  part_mutations : PrewriteRequest.mutations r ⊆+ PrewriteRequest.mutations root;
  part_primary : PrewriteRequest.primary_lock root ∈ mutation_keys r →
    PrewriteRequest.secondaries r = PrewriteRequest.secondaries root;
  part_secondaries : PrewriteRequest.use_async_commit root = true → PrewriteRequest.primary_lock root ∉ mutation_keys r →
    PrewriteRequest.secondaries r = [];
  part_one_pc : PrewriteRequest.try_one_pc r = true →
    PrewriteRequest.mutations r ≡ₚ PrewriteRequest.mutations root
}.

(** A request whose mutations are all to be committed. *)
Definition whole_prewrite (root : PrewriteRequest.t) : Prop :=
  mutation_keys root ≡ₚ PrewriteRequest.primary_lock root :: PrewriteRequest.secondaries root.

Lemma whole_part root : whole_prewrite root → prewrite_part root root.
Proof. unfold whole_prewrite. intros Hw. split; try done. intros _ Hn. destruct Hn. rewrite Hw. left. Qed.

Lemma shard_part root r shard : whole_prewrite root → prewrite_part root r →
  ps_mutations shard ⊆+ PrewriteRequest.mutations r → prewrite_part root (Requests.apply_shard shard r).
Proof.
  intros Hw [Hf Hm Hp Hs H1] Hsub.
  assert (PrewriteRequest.primary_lock r = PrewriteRequest.primary_lock root) as Hpl by (by injection Hf).
  assert (PrewriteRequest.use_async_commit r = PrewriteRequest.use_async_commit root) as Hac by (by injection Hf).
  assert (PrewriteRequest.primary_lock root ∈ map PbMutation.key (ps_mutations shard) →
    PrewriteRequest.secondaries r = PrewriteRequest.secondaries root) as Hin.
  { intros Hk. apply Hp. eapply elem_of_submseteq; [exact Hk|]. by apply fmap_submseteq. }
  split; cbn.
  - exact Hf.
  - by etransitivity.
  - intros Hk. assert (existsb (λ m, key_eqb (PbMutation.key m) (PrewriteRequest.primary_lock r)) (ps_mutations shard) = true) as ->.
    { apply has_primary_spec. by rewrite Hpl. }
    rewrite andb_false_r. by apply Hin.
  - intros Ha Hk. rewrite Hac, Ha. destruct (existsb _ _) eqn:Ep; [|done]. apply has_primary_spec in Ep. by rewrite Hpl in Ep.
  - intros Ht. assert (PrewriteRequest.try_one_pc r = true) as Htr.
    { unfold Requests.apply_shard in Ht. cbn in Ht. by destruct (PrewriteRequest.try_one_pc r). }
    apply (apply_shard_one_pc shard r Htr) in Ht as [Hk Hlen]. rewrite Hpl in Hk. rewrite (Hin Hk) in Hlen.
    apply submseteq_length_Permutation; [by etransitivity|]. rewrite Hlen.
    pose proof (Permutation_length Hw) as Hl. unfold mutation_keys in Hl. rewrite length_map in Hl. cbn in Hl. lia.
Qed.

Lemma store_part root r attempt : prewrite_part root r → prewrite_part root (Requests.apply_store attempt r).
Proof. intros [Hf Hm Hp Hs H1]. unfold Requests.apply_store. destruct (0 <? attempt)%nat; by split. Qed.

Lemma store_mutations attempt r : PrewriteRequest.mutations (Requests.apply_store attempt r) = PrewriteRequest.mutations r.
Proof. unfold Requests.apply_store. by destruct (0 <? attempt)%nat. Qed.

Lemma mapM_map_ok {A} (l out : list A) : mapM id (map (@Ok Error A) l) = Ok out → out = l.
Proof. rewrite <-(app_nil_r (map Ok l)). intros (out' & [= <-] & ->)%mapM_ok_app. by rewrite app_nil_r. Qed.

(** The members of a list of lists are parts of their concatenation. *)
Lemma concat_member {A B} (f : A → list B) l x rest : concat (map f l) ≡ₚ rest → x ∈ l → f x ⊆+ rest.
Proof.
  intros <- (l1 & l2 & ->)%list_elem_of_split. rewrite map_app, concat_app. cbn.
  apply submseteq_inserts_l, submseteq_inserts_r. done.
Qed.

Section parts.
Context {Client : Type} (pd : list nat → nat → list Z → Result RegionWithLeader.t) (store : list nat → StoreView Client).
Context (Hpd : ∀ path, RegionLookup (pd path)) (Hok : ∀ path t k, is_ok (pd path t k) = true).
Context (env : HandlerEnv) (Horder : ∀ path n, order env path n ≡ₚ seq 0 n).

Section prewrite.
Context (execute : list nat → PrewritePlan Client → Result PrewriteMsg) (root : PrewriteRequest.t) (Hroot : whole_prewrite root).

Definition prewrite_valid (p : PrewritePlan Client) : Prop :=
  prewrite_part root (prewrite_of p) ∧ Forall (λ m, wf_key (PbMutation.key m)) (PrewriteRequest.mutations (prewrite_of p)).

Lemma prewrite_store s (p p' : PrewritePlan Client) : TxnPlans.apply_store s p = Ok p' →
  prewrite_of p' = Requests.apply_store (sv_attempt s) (prewrite_of p).
Proof.
  cbn. unfold Dispatch.apply_store. cbn. unfold PrewriteRequest_apply_store, apply_to_request.
  destruct (sv_applied s); cbn; [|done]. by intros [= <-].
Qed.

#[local] Instance prewrite_partitions :
  Partitions (prewrite_ops pd store execute) prewrite_valid (λ p, PrewriteRequest.mutations (prewrite_of p)).
Proof.
  assert (∀ path p shards, prewrite_valid p → mapM id (plan_shards (prewrite_ops pd store execute) path p) = Ok shards →
    concat (map (λ s, ps_mutations s.1) shards) ≡ₚ PrewriteRequest.mutations (prewrite_of p)) as Hs.
  { intros path p shards [_ Hwf] E.
    destruct (prewrite_shards_spec (pd path) (S (length (PrewriteRequest.mutations (prewrite_of p)))) (prewrite_of p))
      as (sh & Esh & Hc & _); [done | apply Hok | done | lia |].
    change (mapM id (default [] (prewrite_shards (pd path) (S (length (PrewriteRequest.mutations (prewrite_of p)))) (prewrite_of p))) = Ok shards) in E.
    rewrite Esh in E. by apply mapM_map_ok in E as ->. }
  split.
  - intros path p shards Hv E. exact (Hs path p shards Hv E).
  - intros path p shards s Hv E Hin. pose proof (concat_member _ _ _ _ (Hs path p shards Hv E) Hin) as Hsub.
    destruct Hv as [Hp Hwf]. split; [by apply shard_part|].
    change (Forall (λ m, wf_key (PbMutation.key m)) (ps_mutations s.1)). rewrite Forall_forall in Hwf |- *.
    intros m Hm. apply Hwf. by eapply elem_of_submseteq.
  - intros path p p' [Hp Hwf] E. apply prewrite_store in E. rewrite E, store_mutations. split; [done|].
    split; [rewrite E; by apply store_part | by rewrite E, store_mutations].
Qed.

(** The responses of a prewrite belong to requests for parts that make up its mutations. *)
Lemma prewrite_plan_covers fuel lock_backoff backoff results :
  Forall (λ m, wf_key (PbMutation.key m)) (PrewriteRequest.mutations root) →
  multi_region_execute (prewrite_ops pd store execute) env false fuel (prewrite_plan root lock_backoff) backoff = Done (Ok results) →
  covers (R:=Permutation) (prewrite_ops pd store execute) false prewrite_valid (λ p, PrewriteRequest.mutations (prewrite_of p))
    (prewrite_plan root lock_backoff) results.
Proof.
  intros Hwf E. refine (single_plan_covers (prewrite_ops pd store execute) env false prewrite_valid
    (λ p, PrewriteRequest.mutations (prewrite_of p)) Horder fuel _ _ _ _ _ _ E).
  split; [by apply whole_part | done].
Qed.
End prewrite.

Section commit.
Context (execute : list nat → CommitPlan Client → Result CommitMsg) (root : CommitRequest.t).

(** A part of a commit differs from it in its keys only. *)
Definition commit_part (r : CommitRequest.t) : Prop := CommitRequest_apply_shard [] r = CommitRequest_apply_shard [] root.
Definition commit_valid (p : CommitPlan Client) : Prop :=
  commit_part (commit_of p) ∧ Forall wf_key (CommitRequest.keys (commit_of p)).

Lemma commit_store s (p p' : CommitPlan Client) : TxnPlans.apply_store s p = Ok p' → commit_of p' = commit_of p.
Proof.
  cbn. unfold Dispatch.apply_store. cbn. unfold apply_to_request. destruct (sv_applied s); cbn; [|done]. by intros [= <-].
Qed.

#[local] Instance commit_partitions :
  Partitions (commit_ops pd store execute) commit_valid (λ p, CommitRequest.keys (commit_of p)).
Proof.
  assert (∀ path p shards, commit_valid p → mapM id (plan_shards (commit_ops pd store execute) path p) = Ok shards →
    concat (map fst shards) ≡ₚ CommitRequest.keys (commit_of p)) as Hs.
  { intros path p shards [_ Hwf] E.
    destruct (batched_shards_complete (pd path) id key_size TXN_COMMIT_BATCH_SIZE (CommitRequest.keys (commit_of p))
      (S (length (CommitRequest.keys (commit_of p))))) as (sh & Esh & Hc & _); [done | apply Hok | done | lia |].
    change (mapM id (default [] (batched_shards (pd path) id key_size TXN_COMMIT_BATCH_SIZE
      (S (length (CommitRequest.keys (commit_of p)))) (CommitRequest.keys (commit_of p)))) = Ok shards) in E.
    rewrite Esh in E. by apply mapM_map_ok in E as ->. }
  split.
  - intros path p shards Hv E. exact (Hs path p shards Hv E).
  - intros path p shards s Hv E Hin. pose proof (concat_member _ _ _ _ (Hs path p shards Hv E) Hin) as Hsub.
    destruct Hv as [Hp Hwf]. split; [exact Hp|]. change (Forall wf_key s.1). rewrite Forall_forall in Hwf |- *.
    intros m Hm. apply Hwf. by eapply elem_of_submseteq.
  - intros path p p' [Hp Hwf] E. apply commit_store in E. rewrite E. split; [done|]. split; by rewrite E.
Qed.

Lemma commit_plan_covers fuel lock_backoff backoff results : Forall wf_key (CommitRequest.keys root) →
  multi_region_execute (commit_ops pd store execute) env false fuel (commit_plan root lock_backoff) backoff = Done (Ok results) →
  covers (R:=Permutation) (commit_ops pd store execute) false commit_valid (λ p, CommitRequest.keys (commit_of p))
    (commit_plan root lock_backoff) results.
Proof.
  intros Hwf E. refine (single_plan_covers (commit_ops pd store execute) env false commit_valid
    (λ p, CommitRequest.keys (commit_of p)) Horder fuel _ _ _ _ _ _ E). by split.
Qed.
End commit.
End parts.

(** Results without an error, each with the part it answers. *)
Lemma covers_ok {P Shard Resp K} (ops : PlanOps P Shard Resp) valid (content : P → list K) plan msgs :
  covers (R:=Permutation) ops false valid content plan (map Ok msgs) →
  ∃ l : list (P * Resp), map snd l = msgs ∧ concat (map (content ∘ fst) l) ≡ₚ content plan ∧
    Forall (λ x, valid x.1 ∧ ∃ path, plan_execute ops path x.1 = Ok x.2 ∧ resp_key_errors ops x.2 = None ∧
      resp_region_error ops x.2 = None) l.
Proof.
  intros (parts & Hres & Hc & HF).
  assert (∃ l : list (P * Resp), parts = map (λ x, (x.1, Ok x.2)) l ∧ map snd l = msgs) as (l & -> & <-).
  { clear -Hres. revert msgs Hres. induction parts as [|[p q] parts IH]; intros [|m msgs]; cbn; intros Hres; simplify_eq; [by exists []|].
    destruct (IH msgs) as (l & -> & <-); [done|]. by exists ((p, m) :: l). }
  exists l. rewrite map_map in Hc. split_and!; [done | exact Hc |]. apply Forall_map in HF. eapply Forall_impl; [exact HF|].
  by intros [p m].
Qed.

(** ** The interface to the committer *)

Section store_cluster.
Context {Client : Type}.
(** PD, the stores and the outcome of every execution, for each point of the history *)
Context (pd : list Event → list nat → nat → list Z → Result RegionWithLeader.t).
Context (store : list Event → list nat → StoreView Client).
Context (execute_prewrite : list Event → list nat → PrewritePlan Client → Result PrewriteMsg).
Context (execute_commit : list Event → list nat → CommitPlan Client → Result CommitMsg).
Context (env : list Event → HandlerEnv) (lock_backoff region_backoff : Backoff.t) (to_string : Error → string).

(** What the committer takes for a successful answer is the outcome of a run of its plan. *)
Class StoreCluster (cl : Cluster) : Prop := {
  prewrite_by_plan : ∀ t req responses, answer_prewrite cl t req = Ok responses → ∃ fuel r,
    multi_region_execute (prewrite_ops (pd t) (store t) (execute_prewrite t)) (env t) false fuel (prewrite_plan req lock_backoff)
      region_backoff = Done r ∧ prewrite_outcome to_string r = Ok responses;
  commit_by_plan : ∀ t req, answer_commit cl t req = Ok () → ∃ fuel r,
    multi_region_execute (commit_ops (pd t) (store t) (execute_commit t)) (env t) false fuel (commit_plan req lock_backoff)
      region_backoff = Done r ∧ commit_outcome to_string r = Ok ()
}.

(** A store has answered a request of the history [t] without an error. *)
Definition prewritten_at (t : list Event) (r : PrewriteRequest.t) (resp : PrewriteResponse.t) : Prop :=
  ∃ path plan, prewrite_of plan = r ∧ execute_prewrite t path plan = Ok (mkPrewriteMsg None [] resp).
Definition committed_at (t : list Event) (r : CommitRequest.t) : Prop :=
  ∃ path plan, commit_of plan = r ∧ execute_commit t path plan = Ok (mkCommitMsg None None).

Context (Hpd : ∀ t path, RegionLookup (pd t path)) (Hok : ∀ t path n k, is_ok (pd t path n k) = true).
Context (Horder : ∀ t path n, order (env t) path n ≡ₚ seq 0 n).
Context (cl : Cluster) {Hcl : StoreCluster cl}.

Lemma prewrite_answered t req responses : whole_prewrite req →
  Forall (λ m, wf_key (PbMutation.key m)) (PrewriteRequest.mutations req) → answer_prewrite cl t req = Ok responses →
  ∃ parts : list (PrewriteRequest.t * PrewriteResponse.t), map snd parts = responses ∧
    concat (map (PrewriteRequest.mutations ∘ fst) parts) ≡ₚ PrewriteRequest.mutations req ∧
    Forall (λ l, prewrite_part req l.1 ∧ prewritten_at t l.1 l.2) parts.
Proof.
  intros Hw Hwf (fuel & r & E & Ha)%prewrite_by_plan. unfold prewrite_outcome in Ha.
  destruct r as [results|e]; [|done]. cbn [mbind result_bind] in Ha.
  destruct (collect_error results) as [msgs|e] eqn:Ec; [|done]. apply mapM_id_ok in Ec as ->.
  assert (responses = map pw_body msgs) as -> by (unfold extract_error in Ha; cbn in Ha; repeat case_match; by simplify_eq/=).
  apply prewrite_plan_covers in E as (l & <- & Hc & HF)%covers_ok; [|done..].
  exists (map (λ p : _ * _, (prewrite_of p.1, pw_body p.2)) l). rewrite !map_map. split_and!; [done..|].
  apply Forall_map. eapply Forall_impl; [exact HF|]. intros [plan msg] ([Hp _] & path & Ex & Hk & Hr). cbn in *. split; [done|].
  exists path, plan. split; [done|]. rewrite Ex. destruct msg. cbn in *. by rewrite Hr, (list_key_errors_none _ Hk).
Qed.

Lemma commit_answered t req : Forall wf_key (CommitRequest.keys req) → answer_commit cl t req = Ok () →
  ∃ parts : list CommitRequest.t, concat (map CommitRequest.keys parts) ≡ₚ CommitRequest.keys req ∧
    Forall (λ r, r = CommitRequest_apply_shard (CommitRequest.keys r) req ∧ committed_at t r) parts.
Proof.
  intros Hwf (fuel & r & E & Ha)%commit_by_plan. unfold commit_outcome in Ha.
  destruct (extract_error _ _ r) as [rs|e] eqn:Ex; [|done]. destruct r as [results|e]; [|done].
  apply extract_error_vec in Ex as [_ HF]. assert (∃ msgs, results = map Ok msgs) as [msgs ->].
  { clear -HF. induction HF as [|r rs (m & -> & _) _ [msgs ->]]; [by exists [] | by exists (m :: msgs)]. }
  apply commit_plan_covers in E as (l & _ & Hc & HF')%covers_ok; [|done..].
  exists (map (λ p : _ * _, commit_of p.1) l). rewrite !map_map. split; [done|].
  apply Forall_map. eapply Forall_impl; [exact HF'|]. intros [plan msg] ([Hp _] & path & Ex & Hk & Hr). cbn in *. split.
  - unfold commit_part, CommitRequest_apply_shard in *. destruct (commit_of plan), req. cbn in *. by simplify_eq.
  - exists path, plan. split; [done|]. rewrite Ex. destruct msg as [re ke]. cbn in *. subst re. by destruct ke.
Qed.

(** The prewrite of a committer is for everything it commits. *)
Lemma the_prewrite_whole c p t : p ∈ Committer.commit_keys c → NoDup (Committer.commit_keys c) →
  map PbMutation.key (Committer.prewrite_mutations c) ≡ₚ Committer.commit_keys c → whole_prewrite (the_prewrite cl c p t).
Proof.
  intros Hin Hnd Hk. unfold whole_prewrite, mutation_keys.
  assert (PrewriteRequest.mutations (the_prewrite cl c p t) = Committer.prewrite_mutations c ∧
    PrewriteRequest.primary_lock (the_prewrite cl c p t) = p) as [-> ->].
  { unfold the_prewrite, Committer.prewrite_request. cbn. by destruct (kind _). }
  rewrite Hk. symmetry. by apply primary_and_rest.
Qed.

(** The part of a commit of one key that holds the key. *)
Lemma single_part (parts : list CommitRequest.t) p : concat (map CommitRequest.keys parts) ≡ₚ [p] →
  ∃ r, r ∈ parts ∧ CommitRequest.keys r = [p].
Proof.
  intros Hc. assert (p ∈ concat (map CommitRequest.keys parts)) as Hp by (rewrite Hc; left).
  apply list_elem_of_In, in_concat in Hp as (ks & (r & <- & Hr)%in_map_iff & Hp). apply list_elem_of_In in Hr, Hp.
  exists r. split; [done|]. pose proof (concat_member _ _ _ _ Hc Hr) as Hsub%submseteq_length.
  destruct (CommitRequest.keys r) as [|k [|]]; [by apply elem_of_nil in Hp | by apply list_elem_of_singleton in Hp as -> | cbn in Hsub; lia].
Qed.

(** C3: a commit that returns has reached the stores.  When successful answers to the committer are outcomes of its plans
    over regions, region lookups succeed and every mutation is to be committed: the mutations are divided among
    prewrite requests that stores answered without an error, each with the transaction's timestamps, with all secondaries named by the
    part that holds the primary; and the commit timestamp is that of a one-phase commit by one store
    that was sent everything, or the largest [min_commit_ts] of all stores (async commit), or it was written by a store that answered the
    commit of the primary without an error. *)
Theorem commit_reaches_stores c p t o c' ev :
  Committer.primary_key c = Some p → Committer.undetermined c = false →
  p ∈ Committer.commit_keys c → NoDup (Committer.commit_keys c) →
  map PbMutation.key (Committer.prewrite_mutations c) ≡ₚ Committer.commit_keys c → Forall wf_key (Committer.commit_keys c) →
  committer_commit cl c t = (Return o, c', t ++ ev) →
  ∃ ts parts, o = Some ts ∧
    concat (map (PrewriteRequest.mutations ∘ fst) parts) ≡ₚ Committer.prewrite_mutations c ∧
    Forall (λ l, prewrite_part (the_prewrite cl c p t) l.1 ∧ prewritten_at t l.1 l.2) parts ∧
    ((∃ r resp, parts = [(r, resp)] ∧ PrewriteResponse.one_pc_commit_ts resp ≠ 0 ∧
        ts = Timestamp.from_version (PrewriteResponse.one_pc_commit_ts resp)) ∨
     (async_commit (Committer.options c) = true ∧
        max_min_commit_ts (map snd parts) ≫= Timestamp.try_from_version = Some ts ∧ EvCommit (all_commit c ts) ∈ ev) ∨
     (∃ before after r, ev = before ++ EvCommit r :: after ∧ committed_at (t ++ before) r ∧ CommitRequest.keys r = [p] ∧
        CommitRequest.start_version r = Timestamp.version (Committer.start_version c) ∧
        CommitRequest.commit_version r = Timestamp.version ts)).
Proof.
  intros Hp Hu Hin Hnd Hk Hwf E. destruct (commit_follows_protocol cl c p t Hp Hu) as (res & c1 & ev1 & E1 & HP).
  rewrite E1 in E. injection E as -> -> Hev%app_inv_head. subst ev1. clear E1.
  pose proof (the_prewrite_whole c p t Hin Hnd Hk) as Hw.
  assert (PrewriteRequest.mutations (the_prewrite cl c p t) = Committer.prewrite_mutations c) as Hm.
  { unfold the_prewrite, Committer.prewrite_request. cbn. by destruct (kind _). }
  assert (Forall (λ m, wf_key (PbMutation.key m)) (PrewriteRequest.mutations (the_prewrite cl c p t))) as Hwfm.
  { rewrite Hm. apply Forall_map. by rewrite Hk. }
  inversion HP as [|r H1 Ha Hne Ho| | |responses ts Ha Hno Hs Hts Ho| | |responses n ts [Ha _] Hf Hc Ho]; subst.
  - apply (prewrite_answered t) in Ha as (parts & Hr & Hcc & HF); [|done..]. rewrite Hm in Hcc.
    destruct parts as [|[req resp] [|]]; simplify_eq/=. eexists _, [(req, r)]. split_and!; [done | exact Hcc | exact HF |]. left. eauto.
  - apply (prewrite_answered t) in Ha as (parts & <- & Hcc & HF); [|done..]. rewrite Hm in Hcc.
    exists ts, parts. split_and!; [done..|]. right; left. split_and!; [|done | set_solver].
    unfold still_async in Hs. by destruct (async_commit _).
  - apply (prewrite_answered t) in Ha as (parts & <- & Hcc & HF); [|done..]. rewrite Hm in Hcc.
    exists ts, parts. split_and!; [done..|]. right; right.
    apply commit_answered in Hc as (cparts & Hcp & HFc); [|repeat constructor; rewrite Forall_forall in Hwf; by apply Hwf].
    exists (prewritten cl c p t ++ replicate n EvTimestamp), (secondary_commits c p ts), (primary_commit c p ts).
    split; [by rewrite <-app_assoc|]. split; [|done]. rewrite Forall_forall in HFc.
    destruct (single_part cparts p Hcp) as (r & Hr & Hkeys). destruct (HFc r Hr) as [Er Hc]. rewrite Hkeys in Er. rewrite Er in Hc.
    exact Hc.
Qed.
End store_cluster.

(** *** An example: two regions, one of which is busy at first *)

Definition sample_execute_prewrite (path : list nat) (p : PrewritePlan unit) : Result PrewriteMsg :=
  Ok (mkPrewriteMsg (busy_at_first path) [] (PrewriteResponse.mk 0 0)).
Definition sample_execute_commit (path : list nat) (p : CommitPlan unit) : Result CommitMsg :=
  Ok (mkCommitMsg (busy_at_first path) None).
Definition run_outcome {A B} (f : Result A → Result B) (r : run A) : Result B :=
  match r with Done r => f r | _ => Err NoCurrentRegions end.

(** The cluster that runs the plans. *)
Definition plan_cluster : Cluster := {|
  get_timestamp := get_timestamp sample_cluster;
  answer_prewrite _ req := run_outcome (prewrite_outcome (λ _, EmptyString))
    (multi_region_execute (prewrite_ops led_pd sample_store sample_execute_prewrite) sample_handler_env false 5
       (prewrite_plan req OPTIMISTIC_BACKOFF) DEFAULT_REGION_BACKOFF);
  answer_commit _ req := run_outcome (commit_outcome (λ _, EmptyString))
    (multi_region_execute (commit_ops led_pd sample_store sample_execute_commit) sample_handler_env false 5
       (commit_plan req OPTIMISTIC_BACKOFF) DEFAULT_REGION_BACKOFF);
  answer_batch_rollback := answer_batch_rollback sample_cluster;
  answer_pessimistic_lock := answer_pessimistic_lock sample_cluster;
  answer_pessimistic_rollback := answer_pessimistic_rollback sample_cluster;
  answer_flush := answer_flush sample_cluster;
  answer_heart_beat := answer_heart_beat sample_cluster;
  answer_get := answer_get sample_cluster;
  answer_batch_get := answer_batch_get sample_cluster;
  answer_scan := answer_scan sample_cluster;
  latch_is_stale := latch_is_stale sample_cluster;
  elapsed_ms := elapsed_ms sample_cluster;
  round_ms := round_ms sample_cluster;
  spurious_failures := spurious_failures sample_cluster
|}.

Lemma run_outcome_ok {A B} (f : Result A → Result B) r b : run_outcome f r = Ok b → ∃ x, r = Done x ∧ f x = Ok b.
Proof. destruct r as [| |x]; cbn; [done.. | eauto]. Qed.

#[export] Instance plan_cluster_stores : StoreCluster (λ _, led_pd) (λ _, sample_store) (λ _, sample_execute_prewrite)
  (λ _, sample_execute_commit) (λ _, sample_handler_env) OPTIMISTIC_BACKOFF DEFAULT_REGION_BACKOFF (λ _, EmptyString) plan_cluster.
Proof.
  split; intros t req; [intros responses|]; intros (x & E & Ho)%run_outcome_ok; by exists 5%nat, x.
Qed.

Lemma led_pd_ok path t k : is_ok (led_pd path t k) = true.
Proof. unfold led_pd, sample_pd. by destruct (key_ltb k [109]). Qed.

Lemma commit_reaches_stores_witness : ∃ ts c' ev parts,
  committer_commit plan_cluster (sample_committer new_optimistic) [] = (Return (Some ts), c', ev) ∧
  concat (map (PrewriteRequest.mutations ∘ fst) parts) ≡ₚ [sample_put [97]; sample_put [122]] ∧
  Forall (λ l, prewritten_at (Client:=unit) (λ _, sample_execute_prewrite) [] l.1 l.2) parts.
Proof.
  destruct (committer_commit plan_cluster (sample_committer new_optimistic) []) as [[res c'] ev] eqn:E.
  vm_compute in E. destruct res as [o|e|]; [|discriminate E..].
  destruct (commit_reaches_stores (λ _, led_pd) (λ _, sample_store) (λ _, sample_execute_prewrite)
    (λ _, sample_execute_commit) (λ _, sample_handler_env) OPTIMISTIC_BACKOFF DEFAULT_REGION_BACKOFF (λ _, EmptyString)
    (λ _ _, led_pd_lookup _) (λ _, led_pd_ok) (λ _ path n, Permutation_sym (Permutation_rev (seq 0 n))) plan_cluster
    (sample_committer new_optimistic) [97] [] o c' ev) as (ts & parts & -> & Hc & HF & _).
  - reflexivity.
  - reflexivity.
  - left.
  - repeat constructor; set_solver.
  - reflexivity.
  - unfold wf_key, in_u8. repeat constructor; cbn; lia.
  - change ([] ++ ev) with ev. rewrite <-E. by vm_compute.
  - exists ts, c', ev, parts. split_and!; [rewrite <-E; by vm_compute | exact Hc |]. eapply Forall_impl; [exact HF|]. by intros l [_ ?].
Defined.
