(* ===== verification/Transactions.v ===== *)
(** * Transactions (src/src/transaction/transaction.rs, [Transaction])

    The operations of a transaction on its status, buffer, options and pipelined
    state.  Every operation checks the status first; a commit or a rollback moves it
    forward.  The theorems: a finished transaction refuses every operation and sends
    nothing, no prewrite or commit is sent once a rollback was asked for, and
    the keys that a commit sends are chosen consistently, its primary among them. *)

From Stdlib Require Import Sorting.Sorted.
From S2P Require Import Prelude Keys Proto Errors Ranges BTree Timestamps Kv Keyspaces KeyFlags Buffers Sharding.
From S2P Require Import Requests Effects Pipelined Commits.

(** ** Status *)

Inductive TxnStatus :=
| ReadOnly | Active | Committed | StartedCommit | Rolledback | StartedRollback | Dropped.
#[export] Instance TxnStatus_eq_dec : EqDecision TxnStatus.
Proof. solve_decision. Defined.

Record Transaction := mkTxn {
  status : TxnStatus;
  timestamp : Timestamp.t;
  buffer : Buffer;
  options : TransactionOptions;
  keyspace : Keyspace;
  has_latches : bool;
  pipelined : option PipelinedTxnState;
  is_heartbeat_started : bool;
  has_pessimistic_lock : bool
}.

Definition Transaction_new (timestamp : Timestamp.t) (options : TransactionOptions) (keyspace : Keyspace)
    (has_latches : bool) : Transaction :=
  mkTxn (if read_only options then ReadOnly else Active) timestamp
    (Buffer_new (options_is_pessimistic options)) options keyspace has_latches
    (option_map (λ o, PipelinedTxnState_new (min_flush_keys o)) (pipelined_options options)) false false.

Definition set_status (st : TxnStatus) (x : Transaction) : Transaction :=
  mkTxn st (timestamp x) (buffer x) (options x) (keyspace x) (has_latches x) (pipelined x)
    (is_heartbeat_started x) (has_pessimistic_lock x).
Definition set_buffer (b : Buffer) (x : Transaction) : Transaction :=
  mkTxn (status x) (timestamp x) b (options x) (keyspace x) (has_latches x) (pipelined x)
    (is_heartbeat_started x) (has_pessimistic_lock x).
Definition set_options (o : TransactionOptions) (x : Transaction) : Transaction :=
  mkTxn (status x) (timestamp x) (buffer x) o (keyspace x) (has_latches x) (pipelined x)
    (is_heartbeat_started x) (has_pessimistic_lock x).
Definition set_pipelined (p : option PipelinedTxnState) (x : Transaction) : Transaction :=
  mkTxn (status x) (timestamp x) (buffer x) (options x) (keyspace x) (has_latches x) p
    (is_heartbeat_started x) (has_pessimistic_lock x).
Definition set_heartbeat_started (x : Transaction) : Transaction :=
  mkTxn (status x) (timestamp x) (buffer x) (options x) (keyspace x) (has_latches x) (pipelined x)
    true (has_pessimistic_lock x).
Definition set_has_lock (x : Transaction) : Transaction :=
  mkTxn (status x) (timestamp x) (buffer x) (options x) (keyspace x) (has_latches x) (pipelined x)
    (is_heartbeat_started x) true.

(** [transit_status]: the loop around [compare_exchange_weak], with its spurious
    failures; no other task writes the status. *)
Fixpoint transit_loop (spurious : nat) (check_status : TxnStatus → bool) (next current : TxnStatus) :
    bool * TxnStatus :=
  if check_status current then
    if bool_decide (current = next) then (true, current)
    else match spurious with
         | O => (true, next)
         | S spurious => transit_loop spurious check_status next current
         end
  else (false, current).

(** ** Operations *)

Section transaction.
Context (cl : Cluster).

Definition transit_status (check_status : TxnStatus → bool) (next : TxnStatus) : M Transaction bool :=
  x ← get_state;
  let '(ok, st) := transit_loop (spurious_failures cl) check_status next (status x) in
  modify (set_status st) ;; mret ok.

Definition check_allow_operation : M Transaction unit :=
  x ← get_state;
  match status x with
  | ReadOnly | Active => mret ()
  | Committed | Rolledback | StartedCommit | StartedRollback | Dropped => throw OperationAfterCommitError
  end.

Definition txn_is_pessimistic (x : Transaction) : bool := options_is_pessimistic (options x).
Definition encode_key (x : Transaction) (key : Key) : Key := encode_keyspace_key key (keyspace x) Txn.

(** ** Heartbeat *)

Definition start_auto_heartbeat (primary_key : Key) : M Transaction unit :=
  x ← get_state;
  if negb (is_auto_heartbeat (heartbeat_option (options x))) || is_heartbeat_started x then mret ()
  else modify set_heartbeat_started ;; emit (EvHeartBeatTask primary_key).

Definition send_heart_beat : M Transaction Z :=
  check_allow_operation ;;
  x ← get_state;
  match get_primary_key (buffer x) with
  | None => throw NoPrimaryKey
  | Some primary_key =>
      elapsed ← observe (elapsed_ms cl);
      let request := new_heart_beat_request (timestamp x) primary_key (wrap_u64 (elapsed + MAX_TTL)) in
      send (EvHeartBeat request) (λ t, answer_heart_beat cl t request)
  end.

(** ** Pipelined state *)

(** Runs an operation of the pipelined state, if there is one. *)
Definition with_pipelined {A} (p : PipelinedTxnState) (m : M PipelinedTxnState A) : M Transaction A := λ x t,
  let '(r, p, t) := m p t in (r, set_pipelined (Some p) x, t).

Definition pipelined_record_key_change (key : Key) : M Transaction unit :=
  x ← get_state;
  match pipelined x with
  | None => mret ()
  | Some p =>
      let mutation := mutation_for_key key (assertion_level (options x)) (buffer x) in
      modify (set_pipelined (Some (record_mutation key mutation p)))
  end.

Definition pipelined_maybe_flush : M Transaction unit :=
  x ← get_state;
  match pipelined x, get_primary_key (buffer x) with
  | Some p, Some primary_key =>
      with_pipelined p (maybe_flush cl (Timestamp.version (timestamp x)) primary_key
        (assertion_level (options x)))
  | _, _ => mret ()
  end.

(** ** Reads *)

(** An operation of the buffer that may fetch from the stores. *)
Definition buffer_fetch {A} (f : list Event → Buffer → Buffer * Result A) : M Transaction A := λ x t,
  let '(b, r) := f t (buffer x) in
  (match r with Ok a => Return a | Err e => Throw e end, set_buffer b x, t).

Definition txn_get (key : Key) : M Transaction (option Value) :=
  check_allow_operation ;;
  x ← get_state;
  buffer_fetch (λ t, get_or_else (encode_key x key)
    (λ k, option_map fst <$> answer_get cl t (new_get_request k (timestamp x)))).

Definition key_exists (key : Key) : M Transaction bool :=
  v ← txn_get key; mret (match v with Some _ => true | None => false end).

Definition get_with_options (key : Key) (opts : list GetOption) : M Transaction (option (Value * Z)) :=
  check_allow_operation ;;
  x ← get_state;
  let need_commit_ts := return_commit_ts (get_options_apply {| return_commit_ts := false |} opts) in
  let key := encode_key x key in
  let fetch : M Transaction (option (Value * Z)) :=
    resp ← observe (λ t, answer_get cl t
      (new_get_request_with_need_commit_ts key (timestamp x) need_commit_ts));
    resp ← lift resp;
    let entry := match resp with
                 | None => None
                 | Some (value, commit_ts) => Some (value, if need_commit_ts then commit_ts else 0)
                 end in
    let '(value, commit_ts) := match entry with
                               | Some (value, commit_ts) => (Some value, commit_ts)
                               | None => (None, 0)
                               end in
    b ← lift (update_read_cache key value commit_ts (buffer x));
    modify (set_buffer b) ;; mret entry in
  match read_value_state key (buffer x) with
  | RLocal value => mret (option_map (λ v, (v, 0)) value)
  | RCached None => mret None
  | RCached (Some value) =>
      if negb need_commit_ts then mret (Some (value, 0))
      else match cached_commit_ts key (buffer x) with
           | Some commit_ts => if negb (commit_ts =? 0) then mret (Some (value, commit_ts)) else fetch
           | None => fetch
           end
  | RUndetermined => fetch
  end.

Definition batch_get (keys : list (list Z)) : M Transaction (list KvPair.t) :=
  check_allow_operation ;;
  x ← get_state;
  pairs ← buffer_fetch (λ t, batch_get_or_else (map (encode_key x) keys)
    (λ ks, answer_batch_get cl t (new_batch_get_request ks (timestamp x))));
  mret (truncate_keyspace_pairs pairs (keyspace x)).

(** The keys of [batch_get_with_options] that the buffer answers, and the ones to fetch. *)
Definition split_local_step (x : Transaction) (need_commit_ts : bool)
    (acc : gmap (list Z) (list Z * Z) * list (list Z)) (key : list Z) : gmap (list Z) (list Z * Z) * list (list Z) :=
  let '(out, remote_keys) := acc in
  let found (value : Value) (commit_ts : Z) :=
    (<[truncate_keyspace_key key (keyspace x) := (value, commit_ts)]> out, remote_keys) in
  let remote := (out, remote_keys ++ [key]) in
  match read_value_state key (buffer x) with
  | RLocal (Some value) => found value 0
  | RLocal None | RCached None => (out, remote_keys)
  | RCached (Some value) =>
      if negb need_commit_ts then found value 0
      else match cached_commit_ts key (buffer x) with
           | Some commit_ts => if negb (commit_ts =? 0) then found value commit_ts else remote
           | None => remote
           end
  | RUndetermined => remote
  end.
Definition split_local (x : Transaction) (need_commit_ts : bool) (keys : list (list Z)) :
    gmap (list Z) (list Z * Z) * list (list Z) :=
  foldl (split_local_step x need_commit_ts) (∅, []) keys.

(** The loop that caches and returns the fetched pairs; it stops at a mismatch. *)
Fixpoint cache_pairs (ks : Keyspace) (need_commit_ts : bool) (pairs : list KvPair.t)
    (out : gmap (list Z) (list Z * Z)) (b : Buffer) : Buffer * Result (gmap (list Z) (list Z * Z)) :=
  match pairs with
  | [] => (b, Ok out)
  | kv :: pairs =>
      let commit_ts := if need_commit_ts then KvPair.commit_ts kv else 0 in
      match update_read_cache (KvPair.key kv) (Some (KvPair.value kv)) commit_ts b with
      | Err e => (b, Err e)
      | Ok b => cache_pairs ks need_commit_ts pairs
          (<[truncate_keyspace_key (KvPair.key kv) ks := (KvPair.value kv, commit_ts)]> out) b
      end
  end.

Definition batch_get_with_options (keys : list (list Z)) (opts : list BatchGetOption) :
    M Transaction (gmap (list Z) (list Z * Z)) :=
  check_allow_operation ;;
  x ← get_state;
  let need_commit_ts :=
    batch_return_commit_ts (batch_get_options_apply {| batch_return_commit_ts := false |} opts) in
  let '(out, remote_keys) := split_local x need_commit_ts (map (encode_key x) keys) in
  if is_empty remote_keys then mret out else
  answer ← observe (λ t, answer_batch_get cl t
    (new_batch_get_request_with_need_commit_ts remote_keys (timestamp x) need_commit_ts));
  pairs ← lift answer;
  buffer_fetch (λ _, cache_pairs (keyspace x) need_commit_ts pairs out).

Definition scan_inner (range : BoundRange.t) (limit : Z) (key_only reverse : bool) :
    M Transaction (list KvPair.t) :=
  check_allow_operation ;;
  x ← get_state;
  let range := encode_keyspace_range range (keyspace x) Txn in
  pairs ← buffer_fetch (λ t, scan_and_fetch range limit (negb key_only) reverse
    (λ new_range new_limit,
       answer_scan cl t (new_scan_request new_range (timestamp x) new_limit key_only reverse)));
  mret (truncate_keyspace_pairs pairs (keyspace x)).

(** ** Pessimistic locks *)

Definition pessimistic_lock_rollback (keys : list (list Z)) (start_version for_update_ts : Timestamp.t) :
    M Transaction unit :=
  if is_empty keys then mret () else
  x ← get_state;
  let req := new_pessimistic_rollback_request keys start_version for_update_ts in
  answer ← try (send (EvPessimisticRollback req) (λ t, answer_pessimistic_rollback cl t req));
  truncate_result answer (keyspace x) ;;
  modify (λ x, set_buffer (foldl (λ b key, unlock key b) (buffer x) keys) x).

Definition pessimistic_lock (locks : list (list Z * Assertion)) (lock_options : LockOptions.t) :
    M Transaction (list KvPair.t) :=
  x ← get_state;
  if negb (txn_is_pessimistic x) then throw InvalidTransactionType else
  match locks with
  | [] => mret []
  | (first_key, _) :: _ =>
      if bool_decide (LockOptions.wake_up_mode lock_options = WakeUpModeForceLock) &&
         negb (length locks =? 1)%nat
      then throw (InvalidPessimisticLockOptions
                    "WakeUpModeForceLock only supports a single key per request")
      else
      let locks := map (λ l : list Z * Assertion,
        match l.2 with
        | AssertNone => if has_presume_key_not_exists (key_flags l.1 (buffer x))
                        then (l.1, AssertNotExist) else l
        | _ => l
        end) locks in
      let primary_lock := default first_key (get_primary_key (buffer x)) in
      for_update_ts ← send EvTimestamp (get_timestamp cl);
      modify (λ x, set_options (push_for_update_ts for_update_ts (options x)) x) ;;
      let is_first_lock := negb (has_pessimistic_lock x) && (length locks =? 1)%nat in
      let request := new_pessimistic_lock_request locks primary_lock (timestamp x) MAX_TTL
                       for_update_ts is_first_lock lock_options in
      answer ← try (send (EvPessimisticLock request) (λ t, answer_pessimistic_lock cl t request));
      match answer with
      | Ok pairs =>
          modify (λ x, set_has_lock (set_buffer (primary_key_or first_key (buffer x)) x)) ;;
          x ← get_state;
          match get_primary_key (buffer x) with
          | None => panic
          | Some primary_key =>
              start_auto_heartbeat primary_key ;;
              modify (λ x, set_buffer (foldl (λ b l, lock l.1 b) (buffer x) locks) x) ;;
              mret pairs
          end
      | Err (PessimisticLockError inner success_keys) =>
          when (negb (is_empty success_keys))
            (pessimistic_lock_rollback success_keys (timestamp x) for_update_ts) ;;
          throw (PessimisticLockError inner success_keys)
      | Err e => throw e
      end
  end.

(** [PessimisticLock for Key] *)
Definition plain_locks (keys : list (list Z)) : list (list Z * Assertion) := map (λ k, (k, AssertNone)) keys.

(** ** Writes *)

Definition write_key (key : Key) (locks : list (list Z * Assertion)) (write : Buffer → Buffer) :
    M Transaction unit :=
  x ← get_state;
  (if txn_is_pessimistic x then pessimistic_lock locks LockOptions.new ;; mret () else mret ()) ;;
  modify (λ x, set_buffer (write (buffer x)) x) ;;
  pipelined_record_key_change key ;;
  pipelined_maybe_flush.

Definition txn_put (key : Key) (value : Value) : M Transaction unit :=
  check_allow_operation ;;
  x ← get_state;
  let key := encode_key x key in
  write_key key (plain_locks [key]) (put key value).

Definition txn_insert (key : Key) (value : Value) : M Transaction unit :=
  check_allow_operation ;;
  x ← get_state;
  let key := encode_key x key in
  match get key (buffer x) with
  | Some _ => throw DuplicateKeyInsertion
  | None => write_key key [(key, AssertNotExist)] (insert key value)
  end.

Definition txn_delete (key : Key) : M Transaction unit :=
  check_allow_operation ;;
  x ← get_state;
  let key := encode_key x key in
  write_key key (plain_locks [key]) (delete key).

(** [self.buffer.mutate(m)] or [lock], recording the change, for each item. *)
Fixpoint record_all (writes : list (list Z * (Buffer → Buffer))) : M Transaction unit :=
  match writes with
  | [] => mret ()
  | (key, write) :: rest =>
      modify (λ x, set_buffer (write (buffer x)) x) ;;
      pipelined_record_key_change key ;;
      record_all rest
  end.

Definition batch_mutate (mutations : list Mutation) : M Transaction unit :=
  check_allow_operation ;;
  x ← get_state;
  let mutations := map (λ m, encode_keyspace_mutation m (keyspace x) Txn) mutations in
  (if txn_is_pessimistic x
   then pessimistic_lock (plain_locks (map mutation_key mutations)) LockOptions.new ;; mret ()
   else mret ()) ;;
  record_all (map (λ m, (mutation_key m, mutate m)) mutations) ;;
  pipelined_maybe_flush.

Definition lock_keys_with_options (keys : list (list Z)) (lock_options : LockOptions.t) :
    M Transaction unit :=
  check_allow_operation ;;
  x ← get_state;
  let keys := map (encode_key x) keys in
  match kind (options x) with
  | Optimistic => record_all (map (λ key, (key, lock key)) keys)
  | Pessimistic _ => pessimistic_lock (plain_locks keys) lock_options ;; mret ()
  end ;;
  pipelined_maybe_flush.

Definition get_for_update_with_options (key : Key) (lock_options : LockOptions.t) :
    M Transaction (option Value) :=
  check_allow_operation ;;
  x ← get_state;
  if negb (txn_is_pessimistic x) then
    lock_keys_with_options [key] LockOptions.new ;; txn_get key
  else
    pairs ← pessimistic_lock (plain_locks [encode_key x key]) (LockOptions.with_return_values true lock_options);
    mret (option_map KvPair.value (last pairs)).

Definition batch_get_for_update_with_options (keys : list (list Z)) (lock_options : LockOptions.t) :
    M Transaction (list KvPair.t) :=
  check_allow_operation ;;
  x ← get_state;
  if negb (txn_is_pessimistic x) then
    lock_keys_with_options keys LockOptions.new ;; batch_get keys
  else
    pairs ← pessimistic_lock (plain_locks (map (encode_key x) keys))
              (LockOptions.with_return_values true lock_options);
    mret (truncate_keyspace_pairs pairs (keyspace x)).

(** These two do not look at the status. *)
Definition txn_set_key_assertion (key : Key) (assertion : Assertion) : M Transaction unit :=
  x ← get_state;
  let key := encode_key x key in
  modify (λ x, set_buffer (set_assertion key assertion (buffer x)) x) ;;
  pipelined_record_key_change key.
Definition txn_update_key_flags (key : Key) (ops : list FlagsOp) : M Transaction unit :=
  x ← get_state;
  let key := encode_key x key in
  modify (λ x, set_buffer (update_key_flags key ops (buffer x)) x) ;;
  pipelined_record_key_change key.

(** ** Commit *)

(** The keys a commit writes: not those that are only checked, nor prewrite-only. *)
Definition commit_keys_of (b : Buffer) (prewrite_mutations : list PbMutation.t) : list (list Z) :=
  map PbMutation.key (List.filter (λ m,
    negb (PbMutation.op m =? Op_CheckNotExists) &&
    negb (has_prewrite_only (key_flags (PbMutation.key m) b))) prewrite_mutations).

Definition select_primary (primary_key : option Key) (commit_keys : list (list Z)) : option Key :=
  if is_empty commit_keys then primary_key
  else match (match primary_key with
              | Some pk => if existsb (key_eqb pk) commit_keys then Some pk else None
              | None => None
              end) with
       | Some pk => Some pk
       | None => head commit_keys
       end.

Definition commit_pipelined (primary_key : Key) : M Transaction (option Timestamp.t) :=
  x ← get_state;
  match pipelined x with
  | None => throw (InvalidPipelinedTransaction "pipelined transaction state is missing")
  | Some p =>
      with_pipelined p (flush_all cl (Timestamp.version (timestamp x)) primary_key
        (assertion_level (options x))) ;;
      x ← get_state;
      let range := pipelined x ≫= flushed_range in
      commit_version ← fetch_commit_timestamp cl (options x);
      let req := new_commit_request_with_primary_key [primary_key] (Some primary_key)
                   (timestamp x) commit_version in
      answer ← try (send (EvCommit req) (λ t, answer_commit cl t req));
      match answer with
      | Err (Grpc m) => throw (UndeterminedError (Grpc m))
      | Err e => throw e
      | Ok _ =>
          match range with
          | Some range =>
              emit (EvResolveFlushed (Timestamp.version (timestamp x)) (Timestamp.version commit_version) range)
          | None => mret ()
          end ;;
          mret (Some commit_version)
      end
  end.

(** [Committer::new] with the transaction's data. *)
Definition committer_of (x : Transaction) (primary_key : option Key)
    (prewrite_mutations : list PbMutation.t) (commit_keys : list (list Z)) : Committer.t :=
  Committer.new primary_key prewrite_mutations commit_keys (timestamp x) (options x) (keyspace x)
    (Z.of_nat (get_write_size (buffer x))).

(** [if res.is_ok() { self.set_status(..) }; res] *)
Definition set_status_if_ok {A} (st : TxnStatus) (m : M Transaction A) : M Transaction A :=
  a ← m; modify (set_status st) ;; mret a.

(** The committer run under the latches; the guard is dropped in every case. *)
Definition commit_latched (x : Transaction) (primary_key : option Key)
    (prewrite_mutations : list PbMutation.t) (commit_keys : list (list Z)) :
    M Transaction (option Timestamp.t) :=
  let start_ts := Timestamp.version (timestamp x) in
  let latched := negb (txn_is_pessimistic x) && negb (is_pipelined (options x)) && has_latches x in
  let body : M Transaction (option Timestamp.t) :=
    match primary_key with
    | None => panic
    | Some pk =>
        start_auto_heartbeat pk ;;
        set_status_if_ok Committed
          (run_with (committer_commit cl) (committer_of x primary_key prewrite_mutations commit_keys))
    end in
  if latched then
    emit (EvLatchLock start_ts commit_keys) ;;
    stale ← observe (λ t, latch_is_stale cl t start_ts commit_keys);
    if (stale : bool) then emit (EvLatchUnlock None) ;; throw (WriteConflictInLatch start_ts)
    else
      res ← try body;
      emit (EvLatchUnlock (match res with Ok (Some ts) => Some (Timestamp.version ts) | _ => None end)) ;;
      lift res
  else body.

Definition commit : M Transaction (option Timestamp.t) :=
  allowed ← transit_status (λ st, match st with StartedCommit | Active => true | _ => false end) StartedCommit;
  if negb allowed then throw OperationAfterCommitError else
  x ← get_state;
  let primary_key := get_primary_key (buffer x) in
  let prewrite_mutations := to_proto_mutations (assertion_level (options x)) (buffer x) in
  match prewrite_mutations with
  | [] => match primary_key with Some _ => panic | None => mret None end
  | first_mutation :: _ =>
      let commit_keys := commit_keys_of (buffer x) prewrite_mutations in
      let primary_key := select_primary primary_key commit_keys in
      let primary_or_first := default (PbMutation.key first_mutation) primary_key in
      if is_pipelined (options x) then
        if is_empty commit_keys then
          match pipelined x with
          | None => throw (InvalidPipelinedTransaction "pipelined transaction state is missing")
          | Some p =>
              with_pipelined p (flush_all cl (Timestamp.version (timestamp x)) primary_or_first
                (assertion_level (options x))) ;;
              modify (set_status Committed) ;; mret None
          end
        else set_status_if_ok Committed (commit_pipelined primary_or_first)
      else if is_empty commit_keys then
        run_with (prewrite cl) (committer_of x (Some primary_or_first) prewrite_mutations commit_keys) ;;
        modify (set_status Committed) ;; mret None
      else commit_latched x primary_key prewrite_mutations commit_keys
  end.

(** ** Rollback *)

Definition rollback_pipelined : M Transaction unit :=
  x ← get_state;
  match pipelined x with
  | None => throw (InvalidPipelinedTransaction "pipelined transaction state is missing")
  | Some p =>
      try (with_pipelined (cancel p) flush_wait) ;;
      x ← get_state;
      match pipelined x ≫= flushed_range with
      | Some range => emit (EvResolveFlushed (Timestamp.version (timestamp x)) 0 range)
      | None => mret ()
      end
  end.

Definition rollback : M Transaction unit :=
  allowed ← transit_status
    (λ st, match st with StartedRollback | Active | StartedCommit => true | _ => false end) StartedRollback;
  if negb allowed then throw OperationAfterCommitError else
  x ← get_state;
  if is_pipelined (options x) then set_status_if_ok Rolledback rollback_pipelined else
  let primary_key := get_primary_key (buffer x) in
  let prewrite_mutations := to_proto_mutations (assertion_level (options x)) (buffer x) in
  let commit_keys := commit_keys_of (buffer x) prewrite_mutations in
  if is_empty commit_keys then modify (set_status Rolledback)
  else set_status_if_ok Rolledback
         (run_with (committer_rollback cl) (committer_of x primary_key prewrite_mutations commit_keys)).

(** [Drop for Transaction], when no panic is under way. *)
Definition drop_transaction : M Transaction unit :=
  x ← get_state;
  match status x, check_level (options x) with
  | Active, CheckPanic => panic
  | _, _ => modify (set_status Dropped)
  end.
End transaction.

(** ** Sequences of operations *)

Inductive TxnOp :=
| OGet (key : Key)
| OGetWithOptions (key : Key) (opts : list GetOption)
| OKeyExists (key : Key)
| OBatchGet (keys : list (list Z))
| OBatchGetWithOptions (keys : list (list Z)) (opts : list BatchGetOption)
| OScan (range : BoundRange.t) (limit : Z) (key_only reverse : bool)
| OGetForUpdate (key : Key) (o : LockOptions.t)
| OBatchGetForUpdate (keys : list (list Z)) (o : LockOptions.t)
| OPut (key : Key) (value : Value)
| OInsert (key : Key) (value : Value)
| ODelete (key : Key)
| OBatchMutate (mutations : list Mutation)
| OLockKeys (keys : list (list Z)) (o : LockOptions.t)
| OHeartBeat
| OSetAssertion (key : Key) (assertion : Assertion)
| OUpdateFlags (key : Key) (ops : list FlagsOp)
| OCommit
| ORollback
| ODrop.

(** The operations that look at the status before anything else. *)
Definition guarded (op : TxnOp) : bool :=
  match op with OSetAssertion _ _ | OUpdateFlags _ _ | ODrop => false | _ => true end.

Definition discard {S A} (m : M S A) : M S unit := m ;; mret ().

Definition run_txn_op (cl : Cluster) (op : TxnOp) : M Transaction unit :=
  match op with
  | OGet key => discard (txn_get cl key)
  | OGetWithOptions key opts => discard (get_with_options cl key opts)
  | OKeyExists key => discard (key_exists cl key)
  | OBatchGet keys => discard (batch_get cl keys)
  | OBatchGetWithOptions keys opts => discard (batch_get_with_options cl keys opts)
  | OScan range limit key_only reverse => discard (scan_inner cl range limit key_only reverse)
  | OGetForUpdate key o => discard (get_for_update_with_options cl key o)
  | OBatchGetForUpdate keys o => discard (batch_get_for_update_with_options cl keys o)
  | OPut key value => txn_put cl key value
  | OInsert key value => txn_insert cl key value
  | ODelete key => txn_delete cl key
  | OBatchMutate mutations => batch_mutate cl mutations
  | OLockKeys keys o => lock_keys_with_options cl keys o
  | OHeartBeat => discard (send_heart_beat cl)
  | OSetAssertion key assertion => txn_set_key_assertion key assertion
  | OUpdateFlags key ops => txn_update_key_flags key ops
  | OCommit => discard (commit cl)
  | ORollback => rollback cl
  | ODrop => drop_transaction
  end.

(** The state and the events after the operations, whatever each of them returns. *)
Fixpoint run_txn (cl : Cluster) (ops : list TxnOp) (x : Transaction) (t : list Event) :
    Transaction * list Event :=
  match ops with
  | [] => (x, t)
  | op :: ops => let '(_, x, t) := run_txn_op cl op x t in run_txn cl ops x t
  end.

Definition finished (st : TxnStatus) : bool :=
  match st with Committed | Rolledback | Dropped => true | _ => false end.
(** No commit can start any more. *)
Definition closed (st : TxnStatus) : bool :=
  match st with Active | StartedCommit => false | _ => true end.
Definition no_commit (ev : Event) : Prop :=
  match ev with EvPrewrite _ | EvCommit _ => False | _ => True end.

Lemma transit_loop_spec spurious check next current :
  transit_loop spurious check next current =
    (check current, if check current then next else current).
Proof.
  induction spurious as [|n IH]; simpl; [|rewrite IH]; destruct (check current) eqn:E; try done;
    case_bool_decide; by subst.
Qed.

Lemma transit_status_run cl check next x t :
  transit_status cl check next x t =
    (Return (check (status x)), set_status (if check (status x) then next else status x) x, t).
Proof.
  unfold transit_status, mbind, M_bind, get_state. rewrite transit_loop_spec. done.
Qed.

Lemma set_status_same x : set_status (status x) x = x.
Proof. by destruct x. Qed.

(** ** A finished transaction *)

Section inert.
Context (cl : Cluster).

Lemma bind_throw {S A B} (m : M S A) (f : A → M S B) s t e s' t' :
  m s t = (Throw e, s', t') → (m ≫= f) s t = (Throw e, s', t').
Proof. unfold mbind, M_bind. by intros ->. Qed.

Lemma check_allow_finished x t : finished (status x) = true →
  check_allow_operation x t = (Throw OperationAfterCommitError, x, t).
Proof. unfold check_allow_operation, mbind, M_bind, get_state. by destruct (status x). Qed.

Lemma run_op_finished op x t : finished (status x) = true → guarded op = true →
  run_txn_op cl op x t = (Throw OperationAfterCommitError, x, t).
Proof.
  intros Hf Hg. pose proof (check_allow_finished x t Hf) as Hc.
  assert (∀ A (f : unit → M Transaction A), (check_allow_operation ≫= f) x t =
    (Throw OperationAfterCommitError, x, t)) as Hb by (intros; by apply bind_throw).
  destruct op; try discriminate Hg; unfold run_txn_op, discard, txn_get, get_with_options, key_exists,
    txn_get, batch_get, batch_get_with_options, scan_inner, get_for_update_with_options, batch_get_for_update_with_options, txn_put,
    txn_insert, txn_delete, batch_mutate, lock_keys_with_options, send_heart_beat;
    try apply Hb; try (apply bind_throw; apply Hb); try (apply bind_throw, bind_throw; apply Hb).
  - apply bind_throw. unfold commit, mbind, M_bind. rewrite transit_status_run.
    destruct (status x) eqn:E; try discriminate Hf; simpl; by rewrite <- E, set_status_same.
  - unfold rollback, mbind, M_bind. rewrite transit_status_run.
    destruct (status x) eqn:E; try discriminate Hf; simpl; by rewrite <- E, set_status_same.
Qed.

Lemma run_op_finished_silent op x t : finished (status x) = true →
  finished (status (run_txn_op cl op x t).1.2) = true ∧ (run_txn_op cl op x t).2 = t.
Proof.
  intros Hf. destruct (guarded op) eqn:Hg; [by rewrite run_op_finished|].
  destruct op; try discriminate Hg; unfold run_txn_op.
  - unfold txn_set_key_assertion, pipelined_record_key_change, mbind, M_bind, get_state, modify. simpl.
    by destruct (pipelined x).
  - unfold txn_update_key_flags, pipelined_record_key_change, mbind, M_bind, get_state, modify. simpl.
    by destruct (pipelined x).
  - unfold drop_transaction, mbind, M_bind, get_state. by destruct (status x).
Qed.

Lemma run_txn_finished ops : ∀ x t, finished (status x) = true →
  finished (status (run_txn cl ops x t).1) = true ∧ (run_txn cl ops x t).2 = t.
Proof.
  induction ops as [|op ops IH]; intros x t Hf; [done|]. cbn [run_txn].
  pose proof (run_op_finished_silent op x t Hf) as [H1 H2].
  destruct (run_txn_op cl op x t) as [[r x1] t1]. simpl in *. subst t1. by apply IH.
Qed.

Lemma bind_return {S A B} (m : M S A) (f : A → M S B) s t b s' t' :
  (m ≫= f) s t = (Return b, s', t') →
  ∃ a s1 t1, m s t = (Return a, s1, t1) ∧ f a s1 t1 = (Return b, s', t').
Proof.
  unfold mbind, M_bind. destruct (m s t) as [[[a|e|] s1] t1]; [|done|done]. intros E. by exists a, s1, t1.
Qed.

Lemma set_status_if_ok_return {A} st (m : M Transaction A) x t a x1 t1 :
  set_status_if_ok st m x t = (Return a, x1, t1) → status x1 = st.
Proof.
  intros (a1 & s1 & t2 & _ & E)%bind_return. by injection E as <- <- <-.
Qed.

Lemma commit_latched_return x0 pk muts keys x t ts x1 t1 :
  commit_latched cl x0 pk muts keys x t = (Return (Some ts), x1, t1) → status x1 = Committed.
Proof.
  unfold commit_latched. set (body := match pk with Some _ => _ | None => _ end).
  assert (∀ x t a x1 t1, body x t = (Return a, x1, t1) → status x1 = Committed) as Hbody.
  { intros x' t' a x1' t1' E. subst body. destruct pk; [|done].
    apply bind_return in E as (? & ? & ? & _ & E). by apply set_status_if_ok_return in E. }
  destruct (_ && _ && _); [|apply Hbody].
  intros (? & ? & ? & _ & E)%bind_return. apply bind_return in E as (stale & ? & ? & _ & E).
  destruct stale.
  - apply bind_return in E as (? & ? & ? & _ & E). done.
  - apply bind_return in E as (res & xr & tr & Etry & E). apply bind_return in E as (u & xe & te & Eemit & E).
    injection Eemit as <- <- <-. unfold lift in E. destruct res as [a|e]; [|done]. injection E as -> <- <-.
    unfold try in Etry. destruct (body _ _) as [[[b|e|] xb] tb] eqn:Eb; simplify_eq. by eapply Hbody.
Qed.

Lemma commit_committed x t ts x1 t1 :
  commit cl x t = (Return (Some ts), x1, t1) → status x1 = Committed.
Proof.
  intros (allowed & x2 & t2 & _ & E)%bind_return. destruct allowed; [|done]. cbn [negb] in E.
  apply bind_return in E as (x3 & x4 & t4 & _ & E).
  destruct (to_proto_mutations _ _) as [|m ms]; [by destruct (get_primary_key _)|].
  destruct (is_pipelined (options x3)).
  - destruct (is_empty (commit_keys_of _ _)); [|by apply set_status_if_ok_return in E].
    destruct (pipelined x3); [|done]. apply bind_return in E as (? & ? & ? & _ & E).
    by apply bind_return in E as (? & ? & ? & _ & E).
  - destruct (is_empty (commit_keys_of _ _)); [|by apply commit_latched_return in E].
    apply bind_return in E as (? & ? & ? & _ & E). by apply bind_return in E as (? & ? & ? & _ & E).
Qed.

Lemma rollback_rolledback x t x1 t1 :
  rollback cl x t = (Return (), x1, t1) → status x1 = Rolledback.
Proof.
  intros (allowed & x2 & t2 & _ & E)%bind_return. destruct allowed; [|done]. cbn [negb] in E.
  apply bind_return in E as (x3 & x4 & t4 & _ & E).
  destruct (is_pipelined (options x3)); [by apply set_status_if_ok_return in E|].
  destruct (is_empty (commit_keys_of _ _)); [|by apply set_status_if_ok_return in E].
  by injection E as <- <-.
Qed.
End inert.

(** C34: a transaction that was committed or rolled back does nothing more.  After a
    commit that returned a timestamp, or a rollback that returned, every sequence of
    further operations sends nothing, and every operation that looks at the status
    fails with [OperationAfterCommitError] and changes nothing. *)
Theorem finished_transaction_inert cl x t x1 t1 ops :
  (∃ ts, commit cl x t = (Return (Some ts), x1, t1)) ∨ rollback cl x t = (Return (), x1, t1) →
  ∃ x2, run_txn cl ops x1 t1 = (x2, t1) ∧
    ∀ op, guarded op = true → run_txn_op cl op x2 t1 = (Throw OperationAfterCommitError, x2, t1).
Proof.
  intros H. assert (finished (status x1) = true) as Hf.
  { destruct H as [[ts E]|E]; [by rewrite (commit_committed cl x t ts x1 t1 E) |
      by rewrite (rollback_rolledback cl x t x1 t1 E)]. }
  pose proof (run_txn_finished cl ops x1 t1 Hf) as [Hf2 Ht].
  destruct (run_txn cl ops x1 t1) as [x2 t2]. simpl in *. subst t2. exists x2. split; [done|].
  intros op Hg. by apply run_op_finished.
Qed.

(** An optimistic transaction that wrote two keys. *)
Definition sample_txn : Transaction :=
  (run_txn sample_cluster [OPut [97] [1]; OPut [122] [2]]
    (Transaction_new (Timestamp.from_version 5000000) new_optimistic Disable false) []).1.

Lemma finished_transaction_inert_witness : ∃ x1 t1 ts,
  commit sample_cluster sample_txn [] = (Return (Some ts), x1, t1) ∧ length t1 = 5%nat ∧
  run_txn_op sample_cluster (OPut [98] [3]) x1 t1 = (Throw OperationAfterCommitError, x1, t1).
Proof.
  destruct (commit sample_cluster sample_txn []) as [[[[ts|]|e|] x1] t1] eqn:E;
    try (exfalso; vm_compute in E; discriminate E).
  exists x1, t1, ts. split; [reflexivity|]. split; [vm_compute in E; by inversion E|].
  destruct (finished_transaction_inert sample_cluster sample_txn [] x1 t1 []) as (x2 & E2 & Hop);
    [left; by exists ts|]. cbn [run_txn] in E2. injection E2 as <-. by apply Hop.
Defined.

(** ** After a rollback *)

Section closed.
Context (cl : Cluster) (Q : TxnStatus → Prop).

(** From a status with [Q]: the status keeps [Q] and no prewrite or commit is sent. *)
Abbreviation quiet := (safe (λ x, Q (status x)) no_commit) (only parsing).

Lemma with_pipelined_quiet {A} p (m : M PipelinedTxnState A) :
  safe (λ _, True) no_commit m → quiet (with_pipelined p m).
Proof.
  intros Hm x t Hx. destruct (Hm p t) as (_ & e1 & E1 & F1); [done|]. unfold with_pipelined.
  destruct (m p t) as [[r p1] t1]; simpl in *. eauto.
Qed.

Lemma buffer_fetch_quiet {A} (f : list Event → Buffer → Buffer * Result A) : quiet (buffer_fetch f).
Proof. apply safe_silent. intros x t Hx. unfold buffer_fetch. by destruct (f t (buffer x)). Qed.

Lemma check_allow_quiet : quiet check_allow_operation.
Proof. unfold check_allow_operation. solve_safe. Qed.

Lemma flush_wait_safe : safe (λ _, True) no_commit flush_wait.
Proof. unfold flush_wait. solve_safe. Qed.
Lemma start_flush_safe ts pk level : safe (λ _, True) no_commit (start_flush cl ts pk level).
Proof.
  pose proof flush_wait_safe. unfold start_flush, flush_task. solve_safe.
Qed.
Lemma maybe_flush_safe ts pk level : safe (λ _, True) no_commit (maybe_flush cl ts pk level).
Proof. pose proof start_flush_safe. unfold maybe_flush. solve_safe. Qed.

Lemma record_key_change_quiet key : quiet (pipelined_record_key_change key).
Proof. unfold pipelined_record_key_change. solve_safe. Qed.
Lemma pipelined_maybe_flush_quiet : quiet (pipelined_maybe_flush cl).
Proof.
  pose proof maybe_flush_safe. pose proof @with_pipelined_quiet. unfold pipelined_maybe_flush. solve_safe.
Qed.
Lemma start_auto_heartbeat_quiet pk : quiet (start_auto_heartbeat pk).
Proof. unfold start_auto_heartbeat. solve_safe. Qed.
Lemma truncate_result_quiet {A} (r : Result A) ks : quiet (truncate_result r ks).
Proof. unfold truncate_result. solve_safe. Qed.

#[local] Hint Resolve buffer_fetch_quiet check_allow_quiet record_key_change_quiet
  pipelined_maybe_flush_quiet start_auto_heartbeat_quiet truncate_result_quiet : effects.

Lemma pessimistic_lock_rollback_quiet keys s f : quiet (pessimistic_lock_rollback cl keys s f).
Proof. unfold pessimistic_lock_rollback. solve_safe. Qed.
#[local] Hint Resolve pessimistic_lock_rollback_quiet : effects.

Lemma pessimistic_lock_quiet locks o : quiet (pessimistic_lock cl locks o).
Proof. unfold pessimistic_lock. solve_safe. Qed.
#[local] Hint Resolve pessimistic_lock_quiet : effects.

Lemma record_all_quiet writes : quiet (record_all writes).
Proof. induction writes as [|[key w] writes IH]; cbn [record_all]; solve_safe. Qed.
Lemma write_key_quiet key locks w : quiet (write_key cl key locks w).
Proof. unfold write_key. solve_safe. Qed.
#[local] Hint Resolve record_all_quiet write_key_quiet : effects.

Lemma txn_get_quiet key : quiet (txn_get cl key).
Proof. unfold txn_get. solve_safe. Qed.
Lemma batch_get_quiet keys : quiet (batch_get cl keys).
Proof. unfold batch_get. solve_safe. Qed.
Lemma lock_keys_quiet keys o : quiet (lock_keys_with_options cl keys o).
Proof. unfold lock_keys_with_options. solve_safe. Qed.
#[local] Hint Resolve txn_get_quiet batch_get_quiet lock_keys_quiet : effects.

Lemma get_with_options_quiet key opts : quiet (get_with_options cl key opts).
Proof. unfold get_with_options. solve_safe. Qed.
Lemma batch_get_with_options_quiet keys opts : quiet (batch_get_with_options cl keys opts).
Proof. unfold batch_get_with_options. solve_safe. Qed.
#[local] Hint Resolve get_with_options_quiet batch_get_with_options_quiet : effects.

(** Every operation but a commit, a rollback and the drop. *)
Lemma run_txn_op_quiet op :
  match op with OCommit | ORollback | ODrop => False | _ => True end → quiet (run_txn_op cl op).
Proof.
  destruct op; try done; intros _; unfold run_txn_op, discard, key_exists, scan_inner,
    get_for_update_with_options, batch_get_for_update_with_options, txn_put, txn_insert, txn_delete,
    batch_mutate, send_heart_beat, txn_set_key_assertion, txn_update_key_flags; solve_safe.
Qed.
End closed.

Section after_rollback.
Context (cl : Cluster).

Lemma rollback_pipelined_quiet Q : safe (λ x, Q (status x)) no_commit rollback_pipelined.
Proof.
  pose proof flush_wait_safe. pose proof (@with_pipelined_quiet Q). unfold rollback_pipelined. solve_safe.
Qed.
Lemma committer_rollback_safe : safe (λ _, True) no_commit (committer_rollback cl).
Proof.
  unfold committer_rollback, truncate_result. solve_safe.
Qed.

Definition is_closed (x : Transaction) : Prop := closed (status x) = true.

Lemma rollback_closes x t : is_closed (rollback cl x t).1.2 ∧
  ∃ ev, (rollback cl x t).2 = t ++ ev ∧ Forall no_commit ev.
Proof.
  unfold rollback at 1 2. unfold mbind at 1 3, M_bind at 1 3. rewrite transit_status_run.
  destruct (match status x with StartedRollback | Active | StartedCommit => true | _ => false end) eqn:E; simpl.
  2: { split; [|exists []; by rewrite app_nil_r]. unfold is_closed. simpl. by destruct (status x). }
  match goal with |- is_closed (?m _ _).1.2 ∧ _ => assert (safe is_closed no_commit m) as Hm end.
  { pose proof (rollback_pipelined_quiet (λ st, closed st = true)). pose proof committer_rollback_safe.
    unfold set_status_if_ok. solve_safe. }
  by apply Hm.
Qed.

Lemma run_op_closed op : safe is_closed no_commit (run_txn_op cl op).
Proof.
  destruct op; try (by apply (run_txn_op_quiet cl (λ st, closed st = true))).
  - intros x t Hx. unfold is_closed in Hx. unfold run_txn_op, discard.
    rewrite (bind_throw _ _ x t OperationAfterCommitError x t).
    { split; [done|]. exists []. by rewrite app_nil_r. }
    unfold commit, mbind, M_bind. rewrite transit_status_run.
    destruct (status x) eqn:E; try discriminate Hx; simpl; by rewrite <- E, set_status_same.
  - intros x t _. apply rollback_closes.
  - intros x t Hx. unfold run_txn_op, drop_transaction, mbind, M_bind, get_state, is_closed in *.
    destruct (status x), (check_level (options x)); try done;
      (split; [done | exists []; by rewrite app_nil_r]).
Qed.

Lemma run_txn_closed ops : ∀ x t, is_closed x →
  ∃ ev, (run_txn cl ops x t).2 = t ++ ev ∧ Forall no_commit ev.
Proof.
  induction ops as [|op ops IH]; intros x t Hx; cbn [run_txn]; [exists []; by rewrite app_nil_r|].
  destruct (run_op_closed op x t Hx) as (H1 & e1 & E1 & F1).
  destruct (run_txn_op cl op x t) as [[r x1] t1]. simpl in *. subst t1.
  destruct (IH x1 (t ++ e1) H1) as (e2 & -> & F2). exists (e1 ++ e2). by rewrite app_assoc, Forall_app.
Qed.
End after_rollback.

(** C5: nothing is committed after a rollback was asked for.  Whatever state a
    transaction is in when [rollback] is called, and whether or not the call succeeds, neither
    it nor any later sequence of operations sends a prewrite or a commit request. *)
Theorem no_commit_after_rollback cl x t ops :
  ∃ ev, (run_txn cl (ORollback :: ops) x t).2 = t ++ ev ∧ Forall no_commit ev.
Proof.
  cbn [run_txn run_txn_op]. pose proof (rollback_closes cl x t) as (H1 & e1 & E1 & F1).
  destruct (rollback cl x t) as [[r x1] t1]. simpl in *. subst t1.
  destruct (run_txn_closed cl ops x1 (t ++ e1) H1) as (e2 & -> & F2).
  exists (e1 ++ e2). by rewrite app_assoc, Forall_app.
Qed.

(** ** The keys of a commit *)

Lemma to_proto_keys_sorted level b : buffer_wf b →
  StronglySorted key_lt (map PbMutation.key (to_proto_mutations level b)).
Proof.
  unfold buffer_wf, to_proto_mutations.
  induction (entry_map b) as [|[k e] m IH]; intros Hw; simpl; [constructor|].
  apply bwf_cons in Hw as [Hlt Hw]. destruct (lower_entry level b k e) as [x|] eqn:E; [|by apply IH].
  simpl. constructor; [by apply IH|]. rewrite (lower_entry_key _ _ _ _ _ E).
  apply Forall_forall. intros k' Hk'. apply list_elem_of_fmap in Hk' as (y & -> & Hy).
  apply list_elem_of_omap in Hy as ([k2 e2] & Hin & E2). simpl in E2.
  rewrite (lower_entry_key _ _ _ _ _ E2). rewrite Forall_forall in Hlt. by apply (Hlt (k2, e2)).
Qed.

Lemma sorted_NoDup l : StronglySorted key_lt l → NoDup l.
Proof.
  induction 1 as [|k l _ IH Hlt]; [constructor|]. constructor; [|done]. intros Hin.
  rewrite Forall_forall in Hlt. exact (KeyOrder.lt_irrefl k (Hlt _ Hin)).
Qed.

Lemma map_filter_NoDup {A} (f : A → Key) (g : A → bool) l :
  NoDup (map f l) → NoDup (map f (List.filter g l)).
Proof.
  induction l as [|a l IH]; simpl; [done|]. intros [Hn Hnd]%NoDup_cons. destruct (g a); [|by apply IH].
  simpl. constructor; [|by apply IH]. intros Hin. apply Hn.
  apply list_elem_of_fmap in Hin as (y & -> & Hy). rewrite list_elem_of_In, filter_In, <- list_elem_of_In in Hy.
  by apply list_elem_of_fmap_2, Hy.
Qed.

Lemma select_primary_spec primary keys : keys ≠ [] →
  ∃ pk, select_primary primary keys = Some pk ∧ pk ∈ keys ∧
    ∀ pk0, primary = Some pk0 → pk0 ∈ keys → pk = pk0.
Proof.
  intros Hne. unfold select_primary. destruct (is_empty_spec keys) as [|_]; [done|].
  assert (∃ k, head keys = Some k ∧ k ∈ keys) as (k & Hh & Hk).
  { destruct keys as [|k keys]; [done|]. exists k. split; [done | left]. }
  destruct primary as [pk|]; [|exists k; naive_solver].
  destruct (existsb (key_eqb pk) keys) eqn:E.
  - apply existsb_exists in E as (k' & Hin & Heq). destruct (key_eqb_spec pk k') as [<-|]; [|done].
    exists pk. rewrite list_elem_of_In. naive_solver.
  - exists k. split_and!; [done | done |]. intros pk0 [= <-] Hin. exfalso.
    apply not_true_iff_false in E. apply E, existsb_exists. exists pk.
    rewrite <- list_elem_of_In. split; [done|]. by destruct (key_eqb_spec pk pk).
Qed.

(** A commit chooses its keys consistently.  For every well-formed buffer the keys
    to commit are distinct, and they are the keys of the mutations that are not mere
    checks and are not marked prewrite-only; when there is one, a primary is chosen among
    them, and it is the buffer's primary key when that key is to be committed. *)
Theorem commit_keys_consistent level b : buffer_wf b →
  let mutations := to_proto_mutations level b in
  let keys := commit_keys_of b mutations in
  NoDup keys ∧
  (∀ k, k ∈ keys ↔
     (∃ m, m ∈ mutations ∧ PbMutation.key m = k ∧ PbMutation.op m ≠ Op_CheckNotExists) ∧
     has_prewrite_only (key_flags k b) = false) ∧
  (keys ≠ [] → ∃ pk, select_primary (get_primary_key b) keys = Some pk ∧ pk ∈ keys ∧
     ∀ pk0, get_primary_key b = Some pk0 → pk0 ∈ keys → pk = pk0).
Proof.
  intros Hw mutations keys. split; [|split].
  - apply map_filter_NoDup, sorted_NoDup, to_proto_keys_sorted, Hw.
  - intros k. subst keys. unfold commit_keys_of. change (map ?f ?l) with (f <$> l). rewrite list_elem_of_fmap.
    setoid_rewrite list_elem_of_In. setoid_rewrite filter_In. setoid_rewrite andb_true_iff.
    setoid_rewrite negb_true_iff. setoid_rewrite Z.eqb_neq. naive_solver.
  - apply select_primary_spec.
Qed.

Lemma commit_keys_consistent_witness :
  NoDup (commit_keys_of (buffer sample_txn) (to_proto_mutations LevelOff (buffer sample_txn))).
Proof.
  refine (proj1 (commit_keys_consistent LevelOff (buffer sample_txn) _)).
  vm_compute. repeat constructor.
Defined.

(** ** Three runs worth knowing *)

Definition optimistic_txn : Transaction :=
  Transaction_new (Timestamp.from_version 5000000) new_optimistic Disable false.
Definition pessimistic_txn : Transaction :=
  Transaction_new (Timestamp.from_version 5000000) new_pessimistic Disable false.

(** A key that is inserted, deleted and written again stays prewrite-only: the commit
    reports success without a commit request, so the last write is lost. *)
Lemma rewritten_key_not_committed :
  let '(x, t) := run_txn sample_cluster [OInsert [97] [1]; ODelete [97]; OPut [97] [2]] optimistic_txn [] in
  get [97] (buffer x) = Some [2] ∧
  (commit sample_cluster x t).1.1 = Return None ∧
  commit_requests (commit sample_cluster x t).2 = [].
Proof. by vm_compute. Qed.

(** A cluster that refuses to lock two keys at once after locking the first. *)
Definition lock_conflict_cluster : Cluster := {|
  get_timestamp := get_timestamp sample_cluster;
  answer_prewrite := answer_prewrite sample_cluster;
  answer_commit := answer_commit sample_cluster;
  answer_batch_rollback := answer_batch_rollback sample_cluster;
  answer_pessimistic_lock := λ _ r,
    match PessimisticLockRequest.mutations r with
    | [_] => Ok []
    | _ => Err (PessimisticLockError (ERetryable "conflict") [[97]])
    end;
  answer_pessimistic_rollback := answer_pessimistic_rollback sample_cluster;
  answer_flush := answer_flush sample_cluster;
  answer_heart_beat := answer_heart_beat sample_cluster;
  answer_get := answer_get sample_cluster;
  answer_batch_get := answer_batch_get sample_cluster;
  answer_scan := answer_scan sample_cluster;
  latch_is_stale := latch_is_stale sample_cluster;
  elapsed_ms := elapsed_ms sample_cluster;
  round_ms := round_ms sample_cluster;
  spurious_failures := spurious_failures sample_cluster
|}.

(** A key is locked; then locking it together with another key fails on the other one,
    and the lock that was already held is rolled back too.  The buffer is empty but has a primary
    key, and the assertion of [commit] fails. *)
Lemma commit_panics_after_lock_rollback :
  let '(x, t) := run_txn lock_conflict_cluster
    [OLockKeys [[97]] LockOptions.new; OLockKeys [[97]; [122]] LockOptions.new] pessimistic_txn [] in
  (commit lock_conflict_cluster x t).1.1 = Panicked.
Proof. by vm_compute. Qed.
