(* ===== verification/RollbackPlans.v ===== *)
(** * Rollbacks over regions (src/src/transaction/transaction.rs, [Committer::rollback] and [Transaction::rollback])

    The counterpart of CommitPlans.v for rollbacks: the answers to the two kinds of rollback request come from the plans that the
    committer builds for them.  Both requests are cut by keys ([Keyed], TxnPlans.v), so one lemma serves both, and a failed
    region lookup fails the rollback. *)

From Stdlib Require Import Sorting.Permutation.
From S2P Require Import Prelude Keys Proto Errors Ranges BTree Timestamps Kv Keyspaces KeyFlags Buffers Regions Sharding Backoffs Locks Requests Plans LockPlans TxnPlans Effects Pipelined Commits CommitPlans Transactions.

(** ** Plans whose result is only success *)

Section unit_plans.
Context {Client Req Msg : Type} `{HK : Keyed Client Req (list Z)}.
Context (pd : list nat → nat → list Z → Result RegionWithLeader.t) (store : list nat → StoreView Client).
Context (key_errors : Msg → option (list Error)) (region_error : Msg → option RegionError.t) (to_string : Error → string).

#[local] Abbreviation Plan := (ResolveLock.t (Dispatch.t Client Req)).

(** [PlanBuilder::new(..).resolve_lock(..).retry_multi_region(..).extract_error()] *)
Definition unit_plan (req : Req) (lock_backoff : Backoff.t) : Plan := ResolveLock.mk (Dispatch.mk req None) lock_backoff.
Definition unit_ops (execute : list nat → Plan → Result Msg) : PlanOps Plan (list (list Z)) Msg :=
  plan_ops Client pd (keyed_fuel (Client:=Client)) store execute key_errors region_error.
Definition unit_outcome (r : Result (list (Result Msg))) : Result unit :=
  _ ← extract_error (vec_key_errors to_string key_errors) (vec_region_errors region_error) r; Ok ().

Context (Hpd : ∀ path, RegionLookup (pd path)) (env : HandlerEnv) (Horder : ∀ path n, order env path n ≡ₚ seq 0 n).

(** A success stands for parts that stores answered without an error. *)
Lemma unit_plan_answered execute fuel req lock_backoff backoff r : keyed_valid (Client:=Client) (unit_plan req lock_backoff) →
  multi_region_execute (unit_ops execute) env false fuel (unit_plan req lock_backoff) backoff = Done r → unit_outcome r = Ok () →
  ∃ parts : list Plan, concat (map (content Client) parts) ≡ₚ content Client (unit_plan req lock_backoff) ∧
    Forall (λ p, frame Client p = frame Client (unit_plan req lock_backoff) ∧
      ∃ path msg, execute path p = Ok msg ∧ key_errors msg = None ∧ region_error msg = None) parts.
Proof.
  intros Hv E Ho. unfold unit_outcome in Ho. destruct (extract_error _ _ r) as [rs|e] eqn:Ex; [|done].
  destruct r as [results|e]; [|done]. apply extract_error_vec in Ex as [_ HF]. assert (∃ msgs, results = map Ok msgs) as [msgs ->].
  { clear -HF. induction HF as [|r rs' (m & -> & _) _ [msgs ->]]; [by exists [] | by exists (m :: msgs)]. }
  apply (keyed_plan_covers _ _ _ _ _ Hpd _ Horder) in E; [|done]. apply covers_ok in E as (l & _ & Hc & HF').
  exists (map fst l). rewrite map_map. split; [exact Hc|]. apply Forall_map. eapply Forall_impl; [exact HF'|].
  intros [p m] ([_ Hf] & path & Ee & Hk & Hr). split; [exact Hf|]. by exists path, m.
Qed.
End unit_plans.

(** ** Rollback requests *)

(** [kvrpcpb::BatchRollbackResponse] and [kvrpcpb::PessimisticRollbackResponse] *)
Record RollbackMsg := mkRollbackMsg { rb_region_error : option RegionError.t; rb_error : option KeyError.t }.
Record PessimisticRollbackMsg := mkPessimisticRollbackMsg { pr_region_error : option RegionError.t; pr_errors : list KeyError.t }.

Abbreviation RollbackPlan Client := (ResolveLock.t (Dispatch.t Client BatchRollbackRequest.t)).
Abbreviation PessimisticRollbackPlan Client := (ResolveLock.t (Dispatch.t Client PessimisticRollbackRequest.t)).

Section rollback_cluster.
Context {Client : Type}.
(** PD, the stores and the outcome of every execution, for each point of the history *)
Context (pd : list Event → list nat → nat → list Z → Result RegionWithLeader.t).
Context (store : list Event → list nat → StoreView Client).
Context (execute_rollback : list Event → list nat → RollbackPlan Client → Result RollbackMsg).
Context (execute_pessimistic_rollback : list Event → list nat → PessimisticRollbackPlan Client → Result PessimisticRollbackMsg).
Context (env : list Event → HandlerEnv) (lock_backoff region_backoff : Backoff.t) (to_string : Error → string).

Definition rollback_ops (t : list Event) : PlanOps (RollbackPlan Client) (list (list Z)) RollbackMsg :=
  unit_ops (pd t) (store t) (λ m, single_key_errors (rb_error m)) rb_region_error (execute_rollback t).
Definition pessimistic_rollback_ops (t : list Event) : PlanOps (PessimisticRollbackPlan Client) (list (list Z)) PessimisticRollbackMsg :=
  unit_ops (pd t) (store t) (λ m, list_key_errors (pr_errors m)) pr_region_error (execute_pessimistic_rollback t).

(** What the committer takes for a successful rollback is the outcome of a run of its plan. *)
Class RollbackCluster (cl : Cluster) : Prop := {
  rollback_by_plan : ∀ t req, answer_batch_rollback cl t req = Ok () → ∃ fuel r,
    multi_region_execute (rollback_ops t) (env t) false fuel (unit_plan req lock_backoff) region_backoff = Done r ∧
    unit_outcome (λ m, single_key_errors (rb_error m)) rb_region_error to_string r = Ok ();
  pessimistic_rollback_by_plan : ∀ t req, answer_pessimistic_rollback cl t req = Ok () → ∃ fuel r,
    multi_region_execute (pessimistic_rollback_ops t) (env t) false fuel (unit_plan req lock_backoff) region_backoff = Done r ∧
    unit_outcome (λ m, list_key_errors (pr_errors m)) pr_region_error to_string r = Ok ()
}.

(** A store has answered a request of the history [t] without an error. *)
Definition rolled_back_at (t : list Event) (r : BatchRollbackRequest.t) : Prop :=
  ∃ path plan, Dispatch.request (ResolveLock.inner plan) = r ∧ execute_rollback t path plan = Ok (mkRollbackMsg None None).
Definition pessimistic_rolled_back_at (t : list Event) (r : PessimisticRollbackRequest.t) : Prop :=
  ∃ path plan, Dispatch.request (ResolveLock.inner plan) = r ∧
    execute_pessimistic_rollback t path plan = Ok (mkPessimisticRollbackMsg None []).

Context (Hpd : ∀ t path, RegionLookup (pd t path)) (Horder : ∀ t path n, order (env t) path n ≡ₚ seq 0 n).
Context (cl : Cluster) {Hcl : RollbackCluster cl}.

Lemma rollback_answered t keys start : Forall wf_key keys → answer_batch_rollback cl t (BatchRollbackRequest.mk keys start) = Ok () →
  ∃ parts, concat parts ≡ₚ keys ∧ Forall (λ ks, rolled_back_at t (BatchRollbackRequest.mk ks start)) parts.
Proof.
  intros Hwf (fuel & r & E & Ho)%rollback_by_plan.
  destruct (unit_plan_answered (Req:=BatchRollbackRequest.t) (pd t) (store t) (λ m, single_key_errors (rb_error m)) rb_region_error
    to_string (Hpd t) (env t) (Horder t) (execute_rollback t) fuel
    (BatchRollbackRequest.mk keys start) lock_backoff region_backoff r)
    as (parts & Hc & HF); [by split | exact E | exact Ho |].
  exists (map (content Client) parts). split; [exact Hc|]. apply Forall_map. eapply Forall_impl; [exact HF|].
  intros p (Hf & path & [re ke] & Ee & Hk & Hr). exists path, p. split.
  - revert Hf. destruct p as [[[ks st] c] b]. cbn. by intros [= ->].
  - cbn in Hk, Hr. subst re. by destruct ke.
Qed.

Lemma pessimistic_rollback_answered t keys start for_update : Forall wf_key keys →
  answer_pessimistic_rollback cl t (PessimisticRollbackRequest.mk keys start for_update) = Ok () →
  ∃ parts, concat parts ≡ₚ keys ∧ Forall (λ ks, pessimistic_rolled_back_at t (PessimisticRollbackRequest.mk ks start for_update)) parts.
Proof.
  intros Hwf (fuel & r & E & Ho)%pessimistic_rollback_by_plan.
  destruct (unit_plan_answered (Req:=PessimisticRollbackRequest.t) (pd t) (store t) (λ m, list_key_errors (pr_errors m)) pr_region_error
    to_string (Hpd t) (env t) (Horder t) (execute_pessimistic_rollback t) fuel
    (PessimisticRollbackRequest.mk keys start for_update) lock_backoff region_backoff r)
    as (parts & Hc & HF); [by split | exact E | exact Ho |].
  exists (map (content Client) parts). split; [exact Hc|]. apply Forall_map. eapply Forall_impl; [exact HF|].
  intros p (Hf & path & [re ke] & Ee & Hk & Hr). exists path, p. split.
  - revert Hf. destruct p as [[[ks st fu] c] b]. cbn. by intros [= -> ->].
  - cbn in Hk, Hr. subst re. by rewrite Ee, (list_key_errors_none _ Hk).
Qed.

(** ** The committer *)

Lemma truncate_result_return {S A} (r : Result A) ks (s s' : S) t t' a : truncate_result r ks s t = (Return a, s', t') → r = Ok a ∧ s' = s ∧ t' = t.
Proof.
  unfold truncate_result. destruct r as [x|e]; cbn; [by intros [= -> -> ->]|]. by destruct (truncate_keyspace_error ks e).
Qed.

(** What a store did for a rollback of [keys]. *)
Definition keys_rolled_back (k : TransactionKind) (start : Timestamp.t) (t : list Event) (keys : list (list Z)) : Prop :=
  match k with
  | Optimistic => rolled_back_at t (BatchRollbackRequest.mk keys (Timestamp.version start))
  | Pessimistic for_update_ts =>
      pessimistic_rolled_back_at t (PessimisticRollbackRequest.mk keys (Timestamp.version start) (Timestamp.version for_update_ts))
  end.

Lemma committer_rollback_reaches c t c' t' : Forall wf_key (Committer.commit_keys c) →
  committer_rollback cl c t = (Return (), c', t') →
  ∃ parts, concat parts ≡ₚ Committer.commit_keys c ∧
    Forall (keys_rolled_back (kind (Committer.options c)) (Committer.start_version c) t) parts.
Proof.
  intros Hwf. unfold committer_rollback, mbind, M_bind, get_state. destruct (is_empty_spec (Committer.commit_keys c)) as [->|Hne].
  { intros _. exists []. split; [done | constructor]. }
  unfold keys_rolled_back. destruct (kind (Committer.options c)) as [|fu]; unfold try, send.
  - destruct (answer_batch_rollback cl t _) as [[]|e] eqn:Ea; intros [Hr _]%truncate_result_return; [|done].
    by apply rollback_answered.
  - destruct (answer_pessimistic_rollback cl t _) as [[]|e] eqn:Ea; intros [Hr _]%truncate_result_return; [|done].
    by apply pessimistic_rollback_answered.
Qed.

(** C4: a rollback that returns has reached the stores.  When successful answers to rollback requests are outcomes of their plans
    over regions: a transaction (not pipelined) whose rollback succeeds is rolled back, and its keys are divided
    among requests that stores answered without an error, each with the start timestamp of the transaction, and with its
    for-update timestamp if it is pessimistic; region errors, retries and locks on the way lose no key, and a failed region
    lookup fails the rollback. *)
Theorem rollback_reaches_stores x t x' t'
    (keys := commit_keys_of (buffer x) (to_proto_mutations (assertion_level (options x)) (buffer x))) :
  is_pipelined (options x) = false → Forall wf_key keys → rollback cl x t = (Return (), x', t') →
  status x' = Rolledback ∧ ∃ parts, concat parts ≡ₚ keys ∧ Forall (keys_rolled_back (kind (options x)) (timestamp x) t) parts.
Proof.
  intros Hp Hwf. unfold rollback, mbind, M_bind. rewrite transit_status_run.
  destruct (match status x with StartedRollback | Active | StartedCommit => true | _ => false end) eqn:E; [|done].
  cbn [negb]. unfold get_state. cbn [options buffer set_status]. rewrite Hp. fold keys.
  destruct (is_empty_spec keys) as [Hk|Hk].
  { intros [= <- <-]. split; [done|]. exists []. split; [by rewrite Hk | constructor]. }
  unfold set_status_if_ok, mbind, M_bind, run_with.
  destruct (committer_rollback cl (committer_of _ _ _ _) t) as [[[[]|e|] c'] t1] eqn:Ec; [|done..].
  intros [= <- <-]. split; [done|]. apply committer_rollback_reaches in Ec; [exact Ec | exact Hwf].
Qed.
End rollback_cluster.

(** *** An example: two regions, one of which is busy at first *)

Definition sample_execute_rollback (path : list nat) (p : RollbackPlan unit) : Result RollbackMsg :=
  Ok (mkRollbackMsg (busy_at_first path) None).
Definition sample_execute_pessimistic_rollback (path : list nat) (p : PessimisticRollbackPlan unit) : Result PessimisticRollbackMsg :=
  Ok (mkPessimisticRollbackMsg (busy_at_first path) []).

(** The cluster that runs the plans. *)
Definition rollback_cluster : Cluster := {|
  get_timestamp := get_timestamp sample_cluster;
  answer_prewrite := answer_prewrite sample_cluster;
  answer_commit := answer_commit sample_cluster;
  answer_batch_rollback t req := run_outcome (unit_outcome (λ m, single_key_errors (rb_error m)) rb_region_error (λ _, EmptyString))
    (multi_region_execute (rollback_ops (λ _, led_pd) (λ _, sample_store) (λ _, sample_execute_rollback) t) sample_handler_env false 5
       (unit_plan req OPTIMISTIC_BACKOFF) DEFAULT_REGION_BACKOFF);
  answer_pessimistic_lock := answer_pessimistic_lock sample_cluster;
  answer_pessimistic_rollback t req := run_outcome (unit_outcome (λ m, list_key_errors (pr_errors m)) pr_region_error (λ _, EmptyString))
    (multi_region_execute (pessimistic_rollback_ops (λ _, led_pd) (λ _, sample_store) (λ _, sample_execute_pessimistic_rollback) t)
       sample_handler_env false 5 (unit_plan req OPTIMISTIC_BACKOFF) DEFAULT_REGION_BACKOFF);
  answer_flush := answer_flush sample_cluster;
  answer_heart_beat := answer_heart_beat sample_cluster;
  answer_get := answer_get sample_cluster;
  answer_batch_get := answer_batch_get sample_cluster;
  answer_scan := answer_scan sample_cluster;
  latch_is_stale := latch_is_stale sample_cluster;
  elapsed_ms := elapsed_ms sample_cluster;
  round_ms := round_ms sample_cluster;
  spurious_failures := spurious_failures sample_cluster
|}.

#[export] Instance rollback_cluster_stores : RollbackCluster (λ _, led_pd) (λ _, sample_store) (λ _, sample_execute_rollback)
  (λ _, sample_execute_pessimistic_rollback) (λ _, sample_handler_env) OPTIMISTIC_BACKOFF DEFAULT_REGION_BACKOFF (λ _, EmptyString) rollback_cluster.
Proof. split; intros t req (r & E & Ho)%run_outcome_ok; by exists 5%nat, r. Qed.

(** Two keys in two regions are rolled back by two stores. *)
Lemma rollback_reaches_stores_witness : ∃ x' t' parts,
  rollback rollback_cluster sample_txn [] = (Return (), x', t') ∧ status x' = Rolledback ∧ concat parts ≡ₚ [[97]; [122]] ∧
  Forall (λ ks, rolled_back_at (Client:=unit) (λ _, sample_execute_rollback) [] (BatchRollbackRequest.mk ks 5000000)) parts.
Proof.
  destruct (rollback rollback_cluster sample_txn []) as [[res x'] t'] eqn:E. vm_compute in E.
  destruct res as [[]|e|]; [|discriminate E..].
  destruct (rollback_reaches_stores (λ _, led_pd) (λ _, sample_store) (λ _, sample_execute_rollback)
    (λ _, sample_execute_pessimistic_rollback) (λ _, sample_handler_env) OPTIMISTIC_BACKOFF DEFAULT_REGION_BACKOFF (λ _, EmptyString)
    (λ _ _, led_pd_lookup _) (λ _ path n, Permutation_sym (Permutation_rev (seq 0 n))) rollback_cluster sample_txn [] x' t')
    as (Hst & parts & Hc & HF).
  - reflexivity.
  - vm_compute. repeat constructor; discriminate.
  - rewrite <- E. by vm_compute.
  - exists x', t', parts. split_and!; [rewrite <- E; by vm_compute | exact Hst | exact Hc | exact HF].
Defined.
