(* ===== verification/Heartbeats.v ===== *)
(** * The heartbeat task (src/src/transaction/transaction.rs, [start_auto_heartbeat])

    A transaction that holds locks keeps them alive with a background task: at fixed
    intervals it looks at the transaction's status and either stops or prolongs the
    primary lock.  The task runs beside the transaction, so the status, the time since
    the start and the answer at each of its rounds are inputs.  The theorem: a
    heartbeat is sent in every round up to the one where the task stops and only while the
    transaction is neither committed, rolled back nor dropped; a task whose transaction
    finishes stops; and each heartbeat asks for a time to live that lasts until the
    next round. *)

From S2P Require Import Prelude Keys Proto Errors Timestamps Requests Commits Transactions.

(** [is_txn_not_found_heartbeat_error] *)
Fixpoint is_txn_not_found_heartbeat_error (err : Error) : bool :=
  match err with
  | ETxnNotFound _ => true
  | MultipleKeyErrors errors | ExtractedErrors errors =>
      negb (is_empty errors) && forallb is_txn_not_found_heartbeat_error errors
  | UndeterminedError inner => is_txn_not_found_heartbeat_error inner
  | _ => false
  end.

(** The interval between rounds, in milliseconds. *)
Definition heartbeat_interval (o : HeartbeatOption) : Z :=
  match o with
  | NoHeartbeat => DEFAULT_HEARTBEAT_INTERVAL_MS
  | FixedTime heartbeat_interval => heartbeat_interval
  end.

Section heartbeat.
(** What the task finds in its [i]-th round, after the sleep. *)
Context (start_ts : Timestamp.t) (primary_key : Key).
Context (status_at : nat → TxnStatus) (elapsed_at : nat → Z) (answer_at : nat → Result Z).

Definition stops (st : TxnStatus) : bool :=
  match st with Rolledback | Committed | Dropped => true | _ => false end.

Definition heartbeat_at (i : nat) : TxnHeartBeatRequest.t :=
  new_heart_beat_request start_ts primary_key (wrap_u64 (elapsed_at i + MAX_TTL)).

(** The requests sent from round [i] on and the result of the task; [None]: the task
    still runs after [fuel] rounds. *)
Fixpoint heartbeat_task (fuel i : nat) : option (list TxnHeartBeatRequest.t * Result unit) :=
  match fuel with
  | O => None
  | S fuel =>
      if stops (status_at i) then Some ([], Ok ())
      else
        match answer_at i with
        | Ok _ => p ← heartbeat_task fuel (S i); Some (heartbeat_at i :: p.1, p.2)
        | Err err =>
            Some ([heartbeat_at i],
              if is_txn_not_found_heartbeat_error err then Ok () else Err err)
        end
  end.

(** Round [m] ends the task with [res]; [m'] rounds sent a heartbeat. *)
Definition ends_at (m m' : nat) (res : Result unit) : Prop :=
  (stops (status_at m) = true ∧ m' = m ∧ res = Ok ()) ∨
  (stops (status_at m) = false ∧ m' = S m ∧ ∃ err, answer_at m = Err err ∧
     res = if is_txn_not_found_heartbeat_error err then Ok () else Err err).

Lemma heartbeat_task_run k i : stops (status_at (i + k)) = true →
  ∃ m m' res, (m ≤ k)%nat ∧
    heartbeat_task (S k) i = Some (map heartbeat_at (seq i m'), res) ∧
    ends_at (i + m) (i + m') res ∧
    ∀ j, (j < m)%nat → stops (status_at (i + j)) = false ∧ is_ok (answer_at (i + j)) = true.
Proof.
  revert i. induction k as [|k IH]; intros i Hk.
  - rewrite Nat.add_0_r in Hk. exists 0%nat, 0%nat, (Ok ()). cbn. rewrite !Nat.add_0_r, Hk.
    split_and!; [lia | done | by left | lia].
  - cbn [heartbeat_task]. destruct (stops (status_at i)) eqn:Hs.
    { exists 0%nat, 0%nat, (Ok ()). rewrite !Nat.add_0_r. split_and!; [lia | done | by left | lia]. }
    destruct (answer_at i) as [ttl|err] eqn:Ha.
    2: { exists 0%nat, 1%nat, (if is_txn_not_found_heartbeat_error err then Ok () else Err err).
         rewrite !Nat.add_0_r, Nat.add_1_r. split_and!; [lia | done | right; eauto | lia]. }
    destruct (IH (S i)) as (m & m' & res & Hm & E & He & Hj); [by rewrite Nat.add_succ_comm|].
    exists (S m), (S m'), res. rewrite <- !Nat.add_succ_comm. split_and!; [lia | | done |].
    + change (heartbeat_task (S k) (S i)) with (heartbeat_task (S k) (S i)) in E. cbn [heartbeat_task] in E |- *.
      rewrite E. done.
    + intros [|j] Hlt; [rewrite Nat.add_0_r, Ha; done|]. rewrite <- Nat.add_succ_comm. apply Hj. lia.
Qed.
End heartbeat.

(** The heartbeat task keeps the lock of an unfinished transaction alive, and ends.
    For a transaction that is committed, rolled back or dropped by round [n], the task
    ends by then; in each round before the one where it ends the transaction was not finished
    and the heartbeat was answered, so it ends only because the transaction is finished,
    because TiKV does not know the transaction any more (not an error), or with the
    error of its last heartbeat.  Every heartbeat asks for a time to live that has not run
    out at the next round, when rounds follow each other within [MAX_TTL]. *)
Theorem heartbeat_task_correct start_ts primary_key status_at elapsed_at answer_at n :
  stops (status_at n) = true →
  (∀ i, 0 ≤ elapsed_at i ≤ u64_max - MAX_TTL) →
  (∀ i, elapsed_at (S i) ≤ elapsed_at i + MAX_TTL) →
  ∃ m m' res, (m ≤ n)%nat ∧
    heartbeat_task start_ts primary_key status_at elapsed_at answer_at (S n) 0 =
      Some (map (heartbeat_at start_ts primary_key elapsed_at) (seq 0 m'), res) ∧
    ends_at status_at answer_at m m' res ∧
    (∀ j, (j < m)%nat → stops (status_at j) = false ∧ is_ok (answer_at j) = true) ∧
    (∀ j, (j < m')%nat → elapsed_at (S j) ≤
       TxnHeartBeatRequest.advise_lock_ttl (heartbeat_at start_ts primary_key elapsed_at j)).
Proof.
  intros Hn Hr He.
  destruct (heartbeat_task_run start_ts primary_key status_at elapsed_at answer_at n 0 Hn)
    as (m & m' & res & Hm & E & Hends & Hj).
  exists m, m', res. split_and!; [done | done | done | done |].
  intros j _. cbn. rewrite wrap_u64_small; [apply He|].
  specialize (Hr j). change MAX_TTL with 20000 in *. word_lia.
Qed.

Lemma heartbeat_task_correct_witness : ∃ m m' res, (m ≤ 3)%nat ∧
  ends_at (λ i, if (i <? 3)%nat then Active else Committed) (λ i, Ok 20000) m m' res ∧ m' = 3%nat.
Proof.
  destruct (heartbeat_task_correct (Timestamp.from_version 1) [97]
    (λ i, if (i <? 3)%nat then Active else Committed) (λ i, 10000) (λ i, Ok 20000) 3)
    as (m & m' & res & Hm & E & He & Hj & _).
  - by vm_compute.
  - intros i. change MAX_TTL with 20000. word_lia.
  - intros i. change MAX_TTL with 20000. lia.
  - exists m, m', res. split_and!; [done | done |].
    vm_compute in E. destruct m' as [|[|[|[|m']]]]; try discriminate E. done.
Defined.
