(* ===== verification/Clients.v ===== *)
(** * The transactional client and snapshots (src/src/transaction/client.rs, src/src/transaction/snapshot.rs)

    A [Client] begins transactions, makes snapshots, cleans up locks and advances the GC safepoint; a
    [Snapshot] is a read-only transaction whose operations are the reads.  The
    request-context setters change nothing else: see Contexts.v.  What the plans of
    src/src/request/plan.rs return is an argument, as in Effects.v and RawClient.v. *)

From Stdlib Require Import Sorting.Sorted.
From S2P Require Import Prelude Keys Proto Errors Ranges BTree Timestamps Kv Keyspaces KeyFlags Buffers Sharding.
From S2P Require Import Backoffs Requests Effects Plans LockPlans Pipelined Commits Transactions.

(** ** [TransactionOptions] *)

Definition options_read_only (o : TransactionOptions) : TransactionOptions :=
  mkOptions (kind o) (try_one_pc o) (async_commit o) true (check_level o) (assertion_level o)
    (max_commit_ts_safe_window o) (commit_wait_until_tso o) (commit_wait_until_tso_timeout o)
    (heartbeat_option o) None.
Definition use_pipelined_txn (p : PipelinedTxnOptions) (o : TransactionOptions) : TransactionOptions :=
  mkOptions (kind o) false false false (check_level o) (assertion_level o)
    (max_commit_ts_safe_window o) (commit_wait_until_tso o) (commit_wait_until_tso_timeout o)
    (heartbeat_option o) (Some p).
Definition drop_check (level : CheckLevel) (o : TransactionOptions) : TransactionOptions :=
  mkOptions (kind o) (try_one_pc o) (async_commit o) (read_only o) level (assertion_level o)
    (max_commit_ts_safe_window o) (commit_wait_until_tso o) (commit_wait_until_tso_timeout o)
    (heartbeat_option o) (pipelined_options o).

(** ** [Client] *)
Record Client := mkClient { client_keyspace : Keyspace; txn_latches : bool }.
Definition with_txn_local_latches (c : Client) : Client := mkClient (client_keyspace c) true.
(** [new_with_config], after the connection: [load] asks PD for the keyspace. *)
Definition new_with_config (keyspace : option string) (load : string → Result Z) : Result Client :=
  match keyspace with
  | Some name => id ← load name; ks ← try_enable id; Ok (mkClient ks false)
  | None => Ok (mkClient Disable false)
  end.

Definition new_transaction (c : Client) (timestamp : Timestamp.t) (options : TransactionOptions) : Transaction :=
  Transaction_new timestamp options (client_keyspace c) (txn_latches c).

Section client.
Context (cl : Cluster).
Definition current_timestamp : M unit Timestamp.t := send EvTimestamp (get_timestamp cl).
Definition begin_optimistic (c : Client) : M unit Transaction :=
  timestamp ← current_timestamp; mret (new_transaction c timestamp new_optimistic).
Definition begin_pessimistic (c : Client) : M unit Transaction :=
  timestamp ← current_timestamp; mret (new_transaction c timestamp new_pessimistic).
Definition begin_with_options (c : Client) (options : TransactionOptions) : M unit Transaction :=
  lift (validate options) ;;
  timestamp ← current_timestamp;
  mret (new_transaction c timestamp options).
End client.

Definition snapshot (c : Client) (timestamp : Timestamp.t) (options : TransactionOptions) : Transaction :=
  new_transaction c timestamp (options_read_only options).

(** [Merge<CleanupLocksResult> for Collect] *)
Definition collect_cleanup (input : list (Result CleanupLocksResult)) : Result CleanupLocksResult :=
  foldl (λ acc x,
      acc ← acc;
      x ← x;
      Ok (mkCleanupLocksResult None None (cl_resolved_locks acc + cl_resolved_locks x)))
    (Ok (mkCleanupLocksResult None None 0)) input.

Record ResolveLocksOptions := mkResolveLocksOptions { async_commit_only : bool; batch_size : Z }.
Definition DEFAULT_SCAN_LOCK_BATCH_SIZE : Z := 1024.
Definition ResolveLocksOptions_default : ResolveLocksOptions := mkResolveLocksOptions false DEFAULT_SCAN_LOCK_BATCH_SIZE.

Section locks.
(** [Display] of errors; the answer of the plan [cleanup_locks(..).retry_multi_region(..)]. *)
Context (to_string : Error → string).
Context (plan : ScanLockRequest.t → ResolveLocksOptions → Result (list (Result CleanupLocksResult))).

(** [None] is a panic of [truncate_keyspace]. *)
Definition cleanup_locks (c : Client) (range : BoundRange.t) (safepoint : Timestamp.t) (options : ResolveLocksOptions) :
    option (Result CleanupLocksResult) :=
  let range := encode_keyspace_range range (client_keyspace c) Txn in
  let req := new_scan_lock_request range safepoint (batch_size options) in
  let extracted := extract_error (vec_key_errors to_string cl_key_error) (vec_region_errors cl_region_error) (plan req options) in
  truncate_keyspace_result (extracted ≫= collect_cleanup) (client_keyspace c).

(** The result, and the safepoints sent to PD. *)
Definition gc (c : Client) (update_safepoint : Z → Result bool) (safepoint : Timestamp.t) : option (Result bool) * list Z :=
  match cleanup_locks c BoundRange.from_range_full safepoint ResolveLocksOptions_default with
  | None => (None, [])
  | Some (Err e) => (Some (Err e), [])
  | Some (Ok _) => (Some (update_safepoint (Timestamp.version safepoint)), [Timestamp.version safepoint])
  end.
End locks.

(** [Merge<ScanLockResponse> for Collect], and [scan_locks]; [plan] is the answer of [retry_multi_region(..)]. *)
Definition collect_locks (input : list (Result ScanLockResponse)) : Result (list LockInfo.t) := flat_map_ok sl_locks input.
Definition scan_locks (plan : ScanLockRequest.t → Result (list (Result ScanLockResponse))) (c : Client) (safepoint : Timestamp.t)
    (range : BoundRange.t) (batch_size : Z) : option (Result (list LockInfo.t)) :=
  let range := encode_keyspace_range range (client_keyspace c) Txn in
  let req := new_scan_lock_request range safepoint batch_size in
  r ← truncate_keyspace_result (plan req ≫= collect_locks) (client_keyspace c);
  Some (locks ← r; Ok (truncate_keyspace_locks locks (client_keyspace c))).

(** ** [unsafe_destroy_range] *)
Module UnsafeDestroyRangeRequest.
Record t := mk { start_key : Key; end_key : Key }.
End UnsafeDestroyRangeRequest.
Module UnsafeDestroyRangeResponse.
Record t := mk { region_error : option RegionError.t; error : string }.
End UnsafeDestroyRangeResponse.
Definition new_unsafe_destroy_range_request (range : BoundRange.t) : UnsafeDestroyRangeRequest.t :=
  let '(start_key, end_key) := BoundRange.into_keys range in
  UnsafeDestroyRangeRequest.mk start_key (default [] end_key).
Definition collect_destroy (input : list (Result UnsafeDestroyRangeResponse.t)) : Result unit :=
  _ ← collect_error input; Ok ().

(** [RetryableAllStores::execute]: one task per store, run to their ends; [completed] is the order
    in which they end. *)
Fixpoint join_all {R} (tasks : list (run R)) : run (list (Result R)) :=
  match tasks with
  | [] => Done (Ok [])
  | Running :: _ => Running
  | Panicks :: _ => Panicks
  | Done r :: tasks =>
      match join_all tasks with
      | Done (Ok rs) => Done (Ok (r :: rs))
      | other => other
      end
  end.
Definition all_stores_execute {St R} (stores : Result (list St)) (completed : list St → list St) (task : St → run R) :
    run (list (Result R)) :=
  match stores with
  | Err e => Done (Err e)
  | Ok stores => join_all (map task (completed stores))
  end.

(** [execute req s i] is the answer of the store [s] to the [i]-th attempt. *)
Section destroy.
Context {St : Type} (stores : Result (list St)) (completed : list St → list St).
Context (execute : UnsafeDestroyRangeRequest.t → St → nat → Result UnsafeDestroyRangeResponse.t) (draw : St → nat → Z).

Definition destroy_task (req : UnsafeDestroyRangeRequest.t) (s : St) : run UnsafeDestroyRangeResponse.t :=
  single_store_handler (execute req s) (draw s) (λ resp, str_key_errors (UnsafeDestroyRangeResponse.error resp))
    UnsafeDestroyRangeResponse.region_error (S (attempts_left DEFAULT_STORE_BACKOFF)) 0 DEFAULT_STORE_BACKOFF.
Definition unsafe_destroy_range (c : Client) (range : BoundRange.t) : run unit :=
  let req := new_unsafe_destroy_range_request (encode_keyspace_range range (client_keyspace c) Txn) in
  match all_stores_execute stores completed (destroy_task req) with
  | Running => Running
  | Panicks => Panicks
  | Done results =>
      match truncate_keyspace_result (results ≫= collect_destroy) (client_keyspace c) with
      | Some r => Done r
      | None => Panicks
      end
  end.
End destroy.

(** ** [Snapshot] *)

(** The scans of a transaction; those of a snapshot are the same. *)
Definition txn_scan (cl : Cluster) (range : BoundRange.t) (limit : Z) : M Transaction (list KvPair.t) :=
  scan_inner cl range limit false false.
Definition txn_scan_keys (cl : Cluster) (range : BoundRange.t) (limit : Z) : M Transaction (list (list Z)) :=
  pairs ← scan_inner cl range limit true false; mret (map KvPair.key pairs).
Definition txn_scan_reverse (cl : Cluster) (range : BoundRange.t) (limit : Z) : M Transaction (list KvPair.t) :=
  scan_inner cl range limit false true.
Definition txn_scan_keys_reverse (cl : Cluster) (range : BoundRange.t) (limit : Z) : M Transaction (list (list Z)) :=
  pairs ← scan_inner cl range limit true true; mret (map KvPair.key pairs).

Inductive SnapshotOp :=
| SGet (key : Key) | SGetWithOptions (key : Key) (opts : list GetOption) | SKeyExists (key : Key)
| SBatchGet (keys : list (list Z)) | SBatchGetWithOptions (keys : list (list Z)) (opts : list BatchGetOption)
| SScan (range : BoundRange.t) (limit : Z) | SScanKeys (range : BoundRange.t) (limit : Z)
| SScanReverse (range : BoundRange.t) (limit : Z) | SScanKeysReverse (range : BoundRange.t) (limit : Z).
Inductive SnapshotOut :=
| OutValue (v : option Value) | OutEntry (e : option (Value * Z)) | OutBool (b : bool)
| OutPairs (pairs : list KvPair.t) | OutKeys (keys : list (list Z)) | OutMap (m : gmap (list Z) (list Z * Z)).
Definition run_snapshot_op (cl : Cluster) (op : SnapshotOp) : M Transaction SnapshotOut :=
  match op with
  | SGet key => v ← txn_get cl key; mret (OutValue v)
  | SGetWithOptions key opts => e ← get_with_options cl key opts; mret (OutEntry e)
  | SKeyExists key => b ← key_exists cl key; mret (OutBool b)
  | SBatchGet keys => pairs ← batch_get cl keys; mret (OutPairs pairs)
  | SBatchGetWithOptions keys opts => m ← batch_get_with_options cl keys opts; mret (OutMap m)
  | SScan range limit => pairs ← txn_scan cl range limit; mret (OutPairs pairs)
  | SScanKeys range limit => keys ← txn_scan_keys cl range limit; mret (OutKeys keys)
  | SScanReverse range limit => pairs ← txn_scan_reverse cl range limit; mret (OutPairs pairs)
  | SScanKeysReverse range limit => keys ← txn_scan_keys_reverse cl range limit; mret (OutKeys keys)
  end.
Fixpoint run_snapshot (cl : Cluster) (ops : list SnapshotOp) (x : Transaction) (t : list Event) :
    list (outcome SnapshotOut) * Transaction * list Event :=
  match ops with
  | [] => ([], x, t)
  | op :: ops =>
      let '(r, x, t) := run_snapshot_op cl op x t in
      let '(rs, x, t) := run_snapshot cl ops x t in (r :: rs, x, t)
  end.

(** ** What a snapshot reads *)

(** A snapshot of the store: its pairs in key order, and the commit timestamp of each key. *)
Section snapshot_reads.
Context (snap : list (list Z * list Z)) (cts : Key → Z).

(** The buffer of a snapshot only caches what the store holds. *)
Record caches (b : Buffer) : Prop := {
  caches_wf : buffer_wf b;
  caches_entries : ∀ k e, bget k (entry_map b) = Some e → e = Cached (bget k snap);
  caches_cts : ∀ k c, read_commit_ts b !! k = Some c → c = cts k
}.

Lemma caches_new p : caches (Buffer_new p).
Proof. split; cbn; [constructor | done | intros k c; by rewrite lookup_empty]. Qed.

Lemma caches_coherent b : caches b → coherent snap b.
Proof. intros H k e ->%(caches_entries b H). done. Qed.

Lemma caches_get k b : caches b →
  get_from_mutations k b = Determined (bget k snap) ∨ get_from_mutations k b = Undetermined.
Proof.
  intros H. unfold get_from_mutations. destruct (bget k (entry_map b)) as [e|] eqn:E; [|by right].
  apply (caches_entries b H) in E as ->. by left.
Qed.
Lemma caches_read k b : caches b → snapshot_read snap b k = bget k snap.
Proof. intros H. unfold snapshot_read. by destruct (caches_get k b H) as [-> | ->]. Qed.

Lemma update_cache_caches k b : caches b → ∃ b', update_cache k (bget k snap) b = Ok b' ∧ caches b' ∧
  read_commit_ts b' = read_commit_ts b.
Proof.
  intros H. unfold update_cache. destruct (bget k (entry_map b)) as [e|] eqn:E.
  - apply (caches_entries b H) in E as ->. rewrite decide_False by (intros Hn; by apply Hn). by exists b.
  - eexists. split; [done|]. split; [|done]. destruct H as [Hwf He Hc]. split; cbn; [by apply binsert_wf | | done].
    intros k' e. rewrite bget_insert by done. case_decide; [|apply He]. intros [= <-]. by subst.
Qed.

Lemma update_cache_all_caches pairs b : caches b → Forall (λ p : list Z * list Z, bget p.1 snap = Some p.2) pairs →
  ∃ b', update_cache_all pairs b = (b', Ok ()) ∧ caches b'.
Proof.
  intros H HF. revert b H. induction HF as [|[k v] pairs Hk HF IH]; intros b H; cbn; [by exists b|].
  cbn in Hk. destruct (update_cache_caches k b H) as (b1 & E & H1 & _). rewrite Hk in E. rewrite E. by apply IH.
Qed.

Lemma update_read_cache_caches k need b : caches b → ∃ b',
  update_read_cache k (bget k snap) (if need : bool then match bget k snap with Some _ => cts k | None => 0 end else 0) b = Ok b' ∧ caches b'.
Proof.
  intros H. unfold update_read_cache. destruct (update_cache_caches k b H) as (b1 & -> & H1 & Er). cbn.
  eexists. split; [done|]. destruct H1 as [Hwf He Hc]. destruct (bget k snap) as [v|] eqn:E.
  - destruct (negb _) eqn:En; [|by split]. split; cbn; try done. intros k' c.
    destruct (decide (k = k')) as [<-|]; [|rewrite lookup_insert_ne by done; apply Hc].
    rewrite lookup_insert_eq. intros [= <-]. destruct need; [done|by cbn in En].
  - split; cbn; try done. intros k' c. destruct (decide (k = k')) as [<-|]; [by rewrite lookup_delete_eq|].
    rewrite lookup_delete_ne by done. apply Hc.
Qed.

Lemma get_or_else_caches k f b : caches b → f k = Ok (bget k snap) →
  ∃ b', get_or_else k f b = (b', Ok (bget k snap)) ∧ caches b'.
Proof.
  intros H Hf. unfold get_or_else. destruct (caches_get k b H) as [-> | ->]; [by exists b|].
  rewrite Hf. destruct (update_cache_caches k b H) as (b1 & -> & H1 & _). by exists b1.
Qed.

Lemma batch_get_or_else_caches keys f b : caches b →
  (∀ ks, ∃ l, f ks = Ok l ∧ ∀ k v, (k, v) ∈ map KvPair.into_tuple l ↔ k ∈ ks ∧ bget k snap = Some v) →
  ∃ b' out, batch_get_or_else keys f b = (b', Ok out) ∧ caches b' ∧
    ∀ k v, (k, v) ∈ map KvPair.into_tuple out ↔ k ∈ keys ∧ bget k snap = Some v.
Proof.
  intros H Hf. pose proof (batch_get_or_else_correct snap keys f b (caches_wf b H) (caches_coherent b H) Hf)
    as (b' & out & E & Hout & _). exists b', out. split; [done|]. split.
  - revert E. unfold batch_get_or_else. set (und := map fst _). destruct (Hf und) as (l & -> & Hl).
    destruct (update_cache_all_caches (map KvPair.into_tuple l) b H) as (b1 & -> & H1); [|by intros [= <- _]].
    apply Forall_forall. intros [k v] [_ ?]%Hl. done.
  - intros k v. rewrite Hout. by rewrite caches_read.
Qed.

(** The map of a [batch_get_with_options]: the values of the user keys whose encoded key is in [D]. *)
Section with_options.
Context (ks : Keyspace) (need : bool).
#[local] Abbreviation enc k := (encode_keyspace_key k ks Txn).
Definition commit_ts_of (k : Key) : Z := if need then cts k else 0.
Definition holds (D : Key → Prop) (m : gmap (list Z) (list Z * Z)) : Prop :=
  ∀ k p, m !! k = Some p ↔ D (enc k) ∧ bget (enc k) snap = Some p.1 ∧ p.2 = commit_ts_of (enc k).

Lemma holds_insert D m k v : holds D m → bget (enc k) snap = Some v →
  holds (λ x, D x ∨ x = enc k) (<[k := (v, commit_ts_of (enc k))]> m).
Proof.
  intros H Hv k' p. destruct (decide (k = k')) as [<-|Hne].
  - rewrite lookup_insert_eq, Hv. split; [intros [= <-]; auto|]. intros (_ & E1 & E2). destruct p as [v0 c0]; cbn in *. congruence.
  - rewrite lookup_insert_ne by done. rewrite (H k' p). split; [tauto|]. intros ([?|E] & ?); [tauto|].
    apply (f_equal (λ x, truncate_keyspace_key x ks)) in E. rewrite !truncate_encode in E. by subst.
Qed.
Lemma holds_skip D m x : holds D m → bget x snap = None → holds (λ y, D y ∨ y = x) m.
Proof. intros H Hx k p. rewrite (H k p). split; [tauto|]. intros ([?| ->] & ? & ?); [tauto | congruence]. Qed.
Lemma holds_ext D D' m : holds D m → (∀ x, D x ↔ D' x) → holds D' m.
Proof. intros H HD k p. by rewrite (H k p), HD. Qed.

(** The local part: every key is answered or remote. *)
Lemma split_local_step_holds x out0 remote0 out1 remote1 D k : caches (buffer x) → keyspace x = ks → holds D out0 →
  split_local_step x need (out0, remote0) (enc k) = (out1, remote1) →
  ∃ D1, holds D1 out1 ∧ ∀ y, D1 y ∨ y ∈ remote1 ↔ (D y ∨ y ∈ remote0) ∨ y = enc k.
Proof.
  intros Hb Hks H0. unfold split_local_step. rewrite Hks, truncate_encode.
  assert (∃ D1, holds D1 out0 ∧ ∀ y, D1 y ∨ y ∈ remote0 ++ [enc k] ↔ (D y ∨ y ∈ remote0) ∨ y = enc k) as Hrem.
  { exists D. split; [done|]. intros y. rewrite elem_of_app, list_elem_of_singleton. tauto. }
  unfold read_value_state. destruct (bget (enc k) (entry_map (buffer x))) as [e|] eqn:Ee; [|by intros [= <- <-]].
  apply (caches_entries _ Hb) in Ee as ->. destruct (bget (enc k) snap) as [v|] eqn:Ev.
  - assert (∀ c, c = commit_ts_of (enc k) → ∃ D1, holds D1 (<[k := (v, c)]> out0) ∧
      ∀ y, D1 y ∨ y ∈ remote0 ↔ (D y ∨ y ∈ remote0) ∨ y = enc k) as Hins.
    { intros c ->. exists (λ y, D y ∨ y = enc k). split; [by apply holds_insert | tauto]. }
    unfold commit_ts_of in Hins. destruct need; cbn [negb]; [|intros [= <- <-]; by apply Hins].
    unfold cached_commit_ts. destruct (read_commit_ts (buffer x) !! enc k) as [c|] eqn:Ec; [|by intros [= <- <-]].
    apply (caches_cts _ Hb) in Ec. destruct (negb (c =? 0)); intros [= <- <-]; [by apply Hins | done].
  - intros [= <- <-]. exists (λ y, D y ∨ y = enc k). split; [by apply holds_skip | tauto].
Qed.

Lemma split_local_holds x keys out remote : caches (buffer x) → keyspace x = ks →
  split_local x need (map (λ k, enc k) keys) = (out, remote) →
  ∃ D, holds D out ∧ ∀ y, D y ∨ y ∈ remote ↔ y ∈ map (λ k, enc k) keys.
Proof.
  intros Hb Hks. unfold split_local. assert (holds (λ _, False) ∅) as H0.
  { intros k p. rewrite lookup_empty. split; [done | tauto]. }
  assert (∀ acc D, holds D acc.1 → foldl (split_local_step x need) acc (map (λ k, enc k) keys) = (out, remote) →
    ∃ D', holds D' out ∧ ∀ y, D' y ∨ y ∈ remote ↔ (D y ∨ y ∈ acc.2) ∨ y ∈ map (λ k, enc k) keys) as Hloop.
  { clear H0. induction keys as [|k keys IH]; intros [out0 remote0] D H0; cbn [map foldl].
    { intros [= <- <-]. exists D. split; [done|]. intros y. rewrite elem_of_nil. tauto. }
    destruct (split_local_step x need (out0, remote0) (enc k)) as [out1 remote1] eqn:E1.
    destruct (split_local_step_holds x _ _ _ _ D k Hb Hks H0 E1) as (D1 & H1 & HD1).
    intros E. destruct (IH (out1, remote1) D1 H1 E) as (D' & H' & HD'). exists D'. split; [done|].
    intros y. rewrite HD', elem_of_cons, HD1. tauto. }
  intros E. destruct (Hloop (∅, []) _ H0 E) as (D & HD & Hy). exists D. split; [done|].
  intros y. rewrite Hy, elem_of_nil. tauto.
Qed.

Lemma cache_pairs_holds pairs out D b : caches b → holds D out →
  Forall (λ kv, ∃ k, KvPair.key kv = enc k ∧ bget (enc k) snap = Some (KvPair.value kv) ∧
    (if need then KvPair.commit_ts kv else 0) = commit_ts_of (enc k)) pairs →
  ∃ b' m, cache_pairs ks need pairs out b = (b', Ok m) ∧ caches b' ∧
    holds (λ y, D y ∨ y ∈ map KvPair.key pairs) m.
Proof.
  intros Hb H HF. revert out D b Hb H. induction HF as [|kv pairs (k & Ek & Ev & Ec) HF IH]; intros out D b Hb H; cbn [cache_pairs].
  { exists b, out. split_and!; [done..|]. eapply holds_ext; [exact H|]. intros y. cbn. rewrite elem_of_nil. tauto. }
  rewrite Ek, truncate_encode, Ec.
  destruct (update_read_cache_caches (enc k) need b Hb) as (b1 & E1 & Hb1). rewrite Ev in E1. fold (commit_ts_of (enc k)) in E1. rewrite E1.
  destruct (IH (<[k := (KvPair.value kv, commit_ts_of (enc k))]> out) (λ y, D y ∨ y = enc k) b1 Hb1) as (b' & m & E & ? & Hm).
  - by apply holds_insert.
  - exists b', m. split; [exact E|]. split; [done|]. eapply holds_ext; [exact Hm|]. intros y. cbn [map]. rewrite elem_of_cons, Ek. tauto.
Qed.

(** A fetch that answers the remote keys completes the map. *)
Lemma fetched_holds x keys out remote pairs b : caches (buffer x) → keyspace x = ks → caches b →
  split_local x need (map (λ k, enc k) keys) = (out, remote) →
  (∀ k v, (k, v) ∈ map KvPair.into_tuple pairs ↔ k ∈ remote ∧ bget k snap = Some v) →
  (need = true → ∀ kv, kv ∈ pairs → KvPair.commit_ts kv = cts (KvPair.key kv)) →
  ∃ b' m, cache_pairs ks need pairs out b = (b', Ok m) ∧ caches b' ∧ holds (λ y, y ∈ map (λ k, enc k) keys) m.
Proof.
  intros Hx Hks Hb Es Hp Hc. destruct (split_local_holds x keys out remote Hx Hks Es) as (D & HD & Hy).
  destruct (cache_pairs_holds pairs out D b Hb HD) as (b' & m & E & Hb' & Hm).
  - apply Forall_forall. intros kv Hkv.
    assert (KvPair.into_tuple kv ∈ map KvPair.into_tuple pairs) as Hin by (apply list_elem_of_fmap; eauto).
    destruct kv as [key value c]. unfold KvPair.into_tuple in Hin. cbn in Hin. apply Hp in Hin as [Hr Hv].
    assert (key ∈ map (λ k, enc k) keys) as (k & -> & _)%list_elem_of_fmap by (apply Hy; by right).
    exists k. split_and!; [done | exact Hv |]. unfold commit_ts_of. destruct need; [|done]. by apply (Hc eq_refl _ Hkv).
  - exists b', m. split_and!; [done | done |]. intros k p. rewrite (Hm k p). cbn beta. split.
    + intros ([?|(kv & Ek & Hkv)%list_elem_of_fmap] & Hv & ?); split_and!; try done; apply Hy; [by left | right].
      assert (KvPair.into_tuple kv ∈ map KvPair.into_tuple pairs) as Hin by (apply list_elem_of_fmap; eauto).
      destruct kv as [key value c]. apply Hp in Hin as [Hr _]. cbn in Ek. by subst.
    + intros (Hin & Hv & ?). split_and!; try done. apply Hy in Hin as [?|Hr]; [by left | right].
      assert ((enc k, p.1) ∈ map KvPair.into_tuple pairs) as (kv & Ek & Hkv)%list_elem_of_fmap by (by apply Hp).
      apply list_elem_of_fmap. exists kv. split; [|done]. destruct kv. by injection Ek.
Qed.
End with_options.

(** A range of cached entries hides nothing. *)
Lemma caches_override results b range : caches b →
  override_with results (brange range (entry_map b)) = results ∧
  List.filter (λ p : list Z * BufferEntry, is_del p.2) (brange range (entry_map b)) = [].
Proof.
  intros H. assert (Forall (λ p : list Z * BufferEntry, ∃ v, p.2 = Cached v) (brange range (entry_map b))) as HF.
  { apply Forall_forall. intros [k e] Hin%list_elem_of_In. apply filter_In in Hin as [Hin%list_elem_of_In _].
    apply bget_Some_In in Hin; [|apply H]. apply (caches_entries b H) in Hin as ->. by eexists. }
  induction HF as [|[k e] l [v Hv] HF IH]; [done|]. cbn in Hv. subst e. destruct IH as [IH1 IH2]. split; [exact IH1 | exact IH2].
Qed.

(** The pairs a scan sends: without values if only keys are asked for. *)
Definition served (key_only : bool) (l : list (list Z * list Z)) : list (list Z * list Z) :=
  if key_only then map (λ p, (p.1, [])) l else l.
Definition in_order (reverse : bool) (l : list (list Z * list Z)) : list (list Z * list Z) := if reverse then rev l else l.

Lemma served_wf key_only l : bwf l → bwf (served key_only l).
Proof. destruct key_only; [|done]. unfold bwf, served. by rewrite map_map. Qed.

Lemma scan_and_fetch_caches range limit (key_only reverse : bool) f b : caches b → bwf snap → 0 ≤ limit ≤ u32_max →
  (∀ n, ∃ l, f range n = Ok l ∧ enough (Z.to_nat n) reverse (served key_only (brange range snap)) (map KvPair.into_tuple l)) →
  ∃ b', scan_and_fetch range limit (negb key_only) reverse f b =
      (b', Ok (map (λ p, KvPair.new p.1 p.2) (take (Z.to_nat limit) (in_order reverse (served key_only (brange range snap)))))) ∧
    caches b'.
Proof.
  intros H Hs Hl Hf. unfold scan_and_fetch.
  destruct (Hf limit) as (l & El & Hen). destruct (caches_override (bcollect (map KvPair.into_tuple l)) b range H) as [Eo Ed].
  rewrite Ed. cbn [length Z.of_nat]. unfold sat_add_u32. rewrite (Z.min_l 0) by word_lia. rewrite Z.add_0_r, Z.min_l by lia.
  rewrite El, Eo. clear Eo Ed.
  set (S := served key_only (brange range snap)). assert (bwf S) as HS by (by apply served_wf, bfilter_wf).
  assert (brange BoundRange.from_range_full S = S) as Efull.
  { unfold brange. apply filter_all, Forall_forall. intros p _. done. }
  destruct (overlay_take S (Buffer_new false) BoundRange.from_range_full (Z.to_nat limit) reverse (map KvPair.into_tuple l) HS)
    as [Et Hv]; [constructor | cbn; by rewrite Nat.add_0_r, Efull|].
  unfold scan_view in Et, Hv. rewrite Efull in Et, Hv. cbn [entry_map Buffer_new brange List.filter length override_with foldl] in Et, Hv.
  unfold in_order. set (R := bcollect _) in *. cbv zeta in Et.
  assert (∃ b', (if negb key_only then update_cache_all R b else (b, Ok ())) = (b', Ok ()) ∧ caches b') as (b' & -> & Hb').
  { destruct key_only; cbn [negb]; [by exists b|]. apply update_cache_all_caches; [done|].
    apply Forall_forall. intros [k v] Hin. cbn. apply bget_Some_In in Hin; [|apply bcollect_wf]. apply Hv in Hin.
    unfold S, served, brange in Hin. rewrite bget_filter in Hin by done. destruct (bget k snap); [|done]. by case_match. }
  exists b'. split; [|done]. f_equal. f_equal. rewrite firstn_map. f_equal. exact Et.
Qed.
End snapshot_reads.

(** ** Snapshots *)

(** The stores answer the reads at a timestamp from one snapshot [snap] of the data, as TiKV's
    multi-version reads do; [cts] are the commit timestamps of its values. *)
Record serves (cl : Cluster) (ts : Timestamp.t) (snap : list (list Z * list Z)) (cts : Key → Z) : Prop := {
  serves_wf : bwf snap ∧ Forall (λ p : list Z * list Z, wf_key p.1) snap;
  serves_get : ∀ t k need, answer_get cl t (GetRequest.mk k (Timestamp.version ts) need) =
    Ok ((λ v, (v, cts k)) <$> bget k snap);
  serves_batch_get : ∀ t ks need, ∃ l, answer_batch_get cl t (BatchGetRequest.mk ks (Timestamp.version ts) need) = Ok l ∧
    (∀ k v, (k, v) ∈ map KvPair.into_tuple l ↔ k ∈ ks ∧ bget k snap = Some v) ∧
    (need = true → ∀ kv, kv ∈ l → KvPair.commit_ts kv = cts (KvPair.key kv));
  serves_scan : ∀ t (start end_ : Key) (n : Z) (key_only reverse : bool), ∃ l,
    answer_scan cl t (ScanRequest.mk (if reverse then end_ else start) (if reverse then start else end_) n key_only
      (Timestamp.version ts) reverse) = Ok l ∧
    enough (Z.to_nat n) reverse (served key_only (List.filter (λ p, bool_decide (in_key_range (start, end_) p.1)) snap))
      (map KvPair.into_tuple l)
}.

(** What an operation of a snapshot returns, in terms of the data at its timestamp. *)
Definition reads_as (snap : list (list Z * list Z)) (cts : Key → Z) (ks : Keyspace) (op : SnapshotOp) (out : SnapshotOut) : Prop :=
  let enc k := encode_keyspace_key k ks Txn in
  let pairs range limit reverse :=
    take (Z.to_nat limit) (in_order reverse (brange (encode_keyspace_range range ks Txn) snap)) in
  let truncated l := truncate_keyspace_pairs (map (λ p, KvPair.new p.1 p.2) l) ks in
  match op with
  | SGet key => out = OutValue (bget (enc key) snap)
  | SGetWithOptions key opts =>
      let need := return_commit_ts (get_options_apply {| return_commit_ts := false |} opts) in
      out = OutEntry ((λ v, (v, if need then cts (enc key) else 0)) <$> bget (enc key) snap)
  | SKeyExists key => out = OutBool (match bget (enc key) snap with Some _ => true | None => false end)
  | SBatchGet keys => ∃ l, out = OutPairs (truncate_keyspace_pairs l ks) ∧
      ∀ k v, (k, v) ∈ map KvPair.into_tuple l ↔ k ∈ map enc keys ∧ bget k snap = Some v
  | SBatchGetWithOptions keys opts =>
      let need := batch_return_commit_ts (batch_get_options_apply {| batch_return_commit_ts := false |} opts) in
      ∃ m, out = OutMap m ∧ ∀ k v c, m !! k = Some (v, c) ↔
        k ∈ keys ∧ bget (enc k) snap = Some v ∧ c = (if need then cts (enc k) else 0)
  | SScan range limit => out = OutPairs (truncated (pairs range limit false))
  | SScanReverse range limit => out = OutPairs (truncated (pairs range limit true))
  | SScanKeys range limit => out = OutKeys (map (λ p, truncate_keyspace_key p.1 ks) (pairs range limit false))
  | SScanKeysReverse range limit => out = OutKeys (map (λ p, truncate_keyspace_key p.1 ks) (pairs range limit true))
  end.
(** A limit is a [u32]. *)
Definition op_ok (op : SnapshotOp) : Prop :=
  match op with
  | SScan _ limit | SScanReverse _ limit | SScanKeys _ limit | SScanKeysReverse _ limit => 0 ≤ limit ≤ u32_max
  | _ => True
  end.

Section snapshot_ops.
Context (cl : Cluster) (ts : Timestamp.t) (snap : list (list Z * list Z)) (cts : Key → Z) (ks : Keyspace).
Hypothesis Hserves : serves cl ts snap cts.

Record snapshot_ok (x : Transaction) : Prop := {
  so_status : status x = ReadOnly;
  so_timestamp : timestamp x = ts;
  so_keyspace : keyspace x = ks;
  so_buffer : caches snap cts (buffer x)
}.
Lemma snapshot_ok_buffer x b : snapshot_ok x → caches snap cts b → snapshot_ok (set_buffer b x).
Proof. intros []. by split. Qed.

Lemma allowed x t : snapshot_ok x → check_allow_operation x t = (Return (), x, t).
Proof. intros H. unfold check_allow_operation, mbind, M_bind, get_state. by rewrite (so_status x H). Qed.

Lemma brange_request range : List.filter (λ p : list Z * list Z,
    bool_decide (in_key_range ((BoundRange.to_key_range (encode_keyspace_range range ks Txn)).1,
      (BoundRange.to_key_range (encode_keyspace_range range ks Txn)).2) p.1)) snap =
  brange (encode_keyspace_range range ks Txn) snap.
Proof.
  destruct Hserves as [[_ Hk] _ _ _]. unfold brange. apply filter_ext_in. intros [k v] Hin.
  rewrite Forall_forall in Hk. apply list_elem_of_In in Hin. specialize (Hk _ Hin). cbn [fst] in Hk.
  assert (BoundRange.to (encode_keyspace_range range ks Txn) ≠ Included []) as Hto.
  { unfold encode_keyspace_range. cbn. destruct (BoundRange.to range) as [[|b e]|[|b e]|]; cbn; try done.
    destruct ks; cbn; [done|]. unfold encode_keyspace_key. rewrite prepend_bytes_app. by destruct (keyspace_prefix _ _). }
  pose proof (bound_range_contains_keys (encode_keyspace_range range ks Txn) k Hk Hto) as H.
  rewrite <- surjective_pairing. cbn [fst]. apply Bool.eq_iff_eq_true. by rewrite bool_decide_eq_true, H.
Qed.

Lemma scan_inner_ok range limit (key_only reverse : bool) x t : snapshot_ok x → 0 ≤ limit ≤ u32_max →
  ∃ x', scan_inner cl range limit key_only reverse x t =
    (Return (truncate_keyspace_pairs (map (λ p, KvPair.new p.1 p.2)
       (take (Z.to_nat limit) (in_order reverse (served key_only (brange (encode_keyspace_range range ks Txn) snap))))) ks), x', t) ∧
    snapshot_ok x'.
Proof.
  intros Hx Hl. unfold scan_inner, mbind, M_bind. rewrite allowed by done. unfold get_state, buffer_fetch.
  rewrite (so_keyspace x Hx), (so_timestamp x Hx).
  destruct (scan_and_fetch_caches snap cts (encode_keyspace_range range ks Txn) limit key_only reverse
    (λ r n, answer_scan cl t (new_scan_request r ts n key_only reverse)) (buffer x)) as (b' & -> & Hb').
  - apply Hx.
  - apply Hserves.
  - done.
  - intros n. destruct (serves_scan _ _ _ _ Hserves t (BoundRange.to_key_range (encode_keyspace_range range ks Txn)).1
      (BoundRange.to_key_range (encode_keyspace_range range ks Txn)).2 n key_only reverse) as (l & El & Hl').
    exists l. rewrite brange_request in Hl'. split; [|done]. rewrite <- El. f_equal. unfold new_scan_request, BoundRange.to_key_range.
    destruct (BoundRange.into_keys _) as [s e]. cbn. by destruct reverse.
  - eexists. split; [done|]. by apply snapshot_ok_buffer.
Qed.

Lemma batch_get_with_options_ok keys opts x t : snapshot_ok x →
  let need := batch_return_commit_ts (batch_get_options_apply {| batch_return_commit_ts := false |} opts) in
  ∃ m x', batch_get_with_options cl keys opts x t = (Return m, x', t) ∧ snapshot_ok x' ∧
    holds snap cts ks need (λ y, y ∈ map (λ k, encode_keyspace_key k ks Txn) keys) m.
Proof.
  intros Hx need. unfold batch_get_with_options, mbind, M_bind. rewrite allowed by done. unfold get_state.
  fold need. unfold encode_key. rewrite (so_keyspace x Hx), (so_timestamp x Hx).
  destruct (split_local x need _) as [out remote] eqn:Es.
  destruct (is_empty remote) eqn:Er.
  - destruct remote; [|done]. destruct (split_local_holds snap cts ks need x keys out [] (so_buffer x Hx) (so_keyspace x Hx) Es) as (D & HD & Hy).
    exists out, x. split_and!; [done..|]. eapply holds_ext; [exact HD|]. intros y. rewrite <- Hy, elem_of_nil. tauto.
  - unfold observe, new_batch_get_request_with_need_commit_ts.
    destruct (serves_batch_get _ _ _ _ Hserves t remote need) as (l & -> & Hl & Hc). cbn [lift]. unfold buffer_fetch.
    destruct (fetched_holds snap cts ks need x keys out remote l (buffer x)) as (b' & m & E & Hb' & Hm); try done; try apply Hx.
    exists m. eexists. split; [unfold mret, M_ret; by rewrite E|]. split; [by apply snapshot_ok_buffer | done].
Qed.

Lemma txn_get_ok key x t : snapshot_ok x →
  ∃ x', txn_get cl key x t = (Return (bget (encode_keyspace_key key ks Txn) snap), x', t) ∧ snapshot_ok x'.
Proof.
  intros Hx. unfold txn_get, mbind, M_bind. rewrite allowed by done. unfold get_state, buffer_fetch, encode_key.
  rewrite (so_keyspace x Hx), (so_timestamp x Hx).
  destruct (get_or_else_caches snap cts (encode_keyspace_key key ks Txn)
    (λ k, option_map fst <$> answer_get cl t (new_get_request k ts)) (buffer x)) as (b' & -> & Hb'); [apply Hx | |].
  - unfold new_get_request, new_get_request_with_need_commit_ts. rewrite (serves_get _ _ _ _ Hserves). cbn.
    by destruct (bget _ snap).
  - eexists. split; [done|]. by apply snapshot_ok_buffer.
Qed.

Lemma scan_keys_ok range limit reverse x t : snapshot_ok x → 0 ≤ limit ≤ u32_max → ∃ x',
  (pairs ← scan_inner cl range limit true reverse; mret (map KvPair.key pairs)) x t =
  (Return (map (λ p, truncate_keyspace_key p.1 ks) (take (Z.to_nat limit) (in_order reverse (brange (encode_keyspace_range range ks Txn) snap)))), x', t) ∧
  snapshot_ok x'.
Proof.
  intros Hx Hl. destruct (scan_inner_ok range limit true reverse x t Hx Hl) as (x' & E & Hx').
  exists x'. split; [|done]. unfold mbind, M_bind. rewrite E. unfold mret, M_ret. f_equal. f_equal. f_equal.
  set (l := brange _ snap).
  assert (take (Z.to_nat limit) (in_order reverse (served true l)) =
    map (λ p, (p.1, [])) (take (Z.to_nat limit) (in_order reverse l))) as ->.
  { rewrite <- firstn_map. f_equal. unfold in_order, served. destruct reverse; [by rewrite map_rev | done]. }
  unfold truncate_keyspace_pairs. rewrite !map_map. by apply map_ext.
Qed.

(** The cache answers, or a fetch that fills it. *)
Lemma get_with_options_ok key opts x t : snapshot_ok x →
  let need := return_commit_ts (get_options_apply {| return_commit_ts := false |} opts) in
  let k := encode_keyspace_key key ks Txn in
  ∃ x', get_with_options cl key opts x t =
    (Return ((λ v, (v, if need then cts k else 0)) <$> bget k snap), x', t) ∧ snapshot_ok x'.
Proof.
  intros Hx need k. unfold get_with_options. fold need. unfold mbind at 1 2, M_bind at 1 2. rewrite allowed by done. cbn [get_state].
  unfold encode_key. rewrite (so_keyspace x Hx), (so_timestamp x Hx). fold k.
  set (fetch := mbind _ _ : M Transaction (option (Value * Z))).
  assert (∃ x', fetch x t = (Return ((λ v, (v, if need then cts k else 0)) <$> bget k snap), x', t) ∧ snapshot_ok x') as Hfetch.
  { unfold fetch, observe, mbind, M_bind. unfold new_get_request_with_need_commit_ts. rewrite (serves_get _ _ _ _ Hserves).
    destruct (update_read_cache_caches snap cts k need (buffer x) (so_buffer x Hx)) as (b' & E & Hb').
    destruct (bget k snap) as [v|]; cbn [fmap option_fmap option_map lift] in *.
    - rewrite E. eexists. split; [done|]. by apply snapshot_ok_buffer.
    - assert ((if need then 0 else 0) = 0) as E0 by (by destruct need). rewrite E0 in E. rewrite E.
      eexists. split; [done|]. by apply snapshot_ok_buffer. }
  unfold read_value_state. destruct (bget k (entry_map (buffer x))) as [e|] eqn:Ee; [|exact Hfetch].
  apply (caches_entries _ _ _ (so_buffer x Hx)) in Ee as ->.
  destruct (bget k snap) as [v|]; cbn [fmap option_fmap option_map] in *; [|by exists x].
  destruct need; cbn [negb]; [|by exists x].
  unfold cached_commit_ts. destruct (read_commit_ts (buffer x) !! k) as [c|] eqn:Ec; [|exact Hfetch].
  destruct (negb (c =? 0)); [|exact Hfetch]. apply (caches_cts _ _ _ (so_buffer x Hx)) in Ec as ->. by exists x.
Qed.

Lemma run_snapshot_op_ok op x t : op_ok op → snapshot_ok x →
  ∃ out x', run_snapshot_op cl op x t = (Return out, x', t) ∧ snapshot_ok x' ∧ reads_as snap cts ks op out.
Proof.
  intros Hop Hx.
  destruct op; cbn [run_snapshot_op op_ok] in *; unfold txn_scan, txn_scan_keys, txn_scan_reverse, txn_scan_keys_reverse, reads_as.
  - destruct (txn_get_ok key x t Hx) as (x' & E & Hx'). do 2 eexists. split; [unfold mbind, M_bind; by rewrite E | by split].
  - destruct (get_with_options_ok key opts x t Hx) as (x' & E & Hx'). do 2 eexists.
    split; [unfold mbind at 1, M_bind at 1; by rewrite E | by split].
  - destruct (txn_get_ok key x t Hx) as (x' & E & Hx'). do 2 eexists. split; [unfold key_exists, mbind, M_bind; rewrite E; done | by split].
  - unfold batch_get, mbind, M_bind. rewrite allowed by done. unfold get_state, buffer_fetch.
    rewrite (so_timestamp x Hx).
    destruct (batch_get_or_else_caches snap cts (map (encode_key x) keys)
      (λ ks, answer_batch_get cl t (new_batch_get_request ks ts)) (buffer x)) as (b' & l & -> & Hb' & Hl).
    + apply Hx.
    + intros ks0. destruct (serves_batch_get _ _ _ _ Hserves t ks0 false) as (l & ? & ? & _). by exists l.
    + do 2 eexists. split; [done|]. split; [by apply snapshot_ok_buffer|]. exists l. unfold encode_key in Hl.
      by rewrite (so_keyspace x Hx) in *.
  - destruct (batch_get_with_options_ok keys opts x t Hx) as (m & x' & E & Hx' & Hm). do 2 eexists.
    split; [unfold mbind at 1, M_bind at 1; by rewrite E|]. split; [done|]. exists m. split; [done|].
    intros k v c. rewrite (Hm k (v, c)). cbn. unfold commit_ts_of.
    assert (encode_keyspace_key k ks Txn ∈ map (λ k, encode_keyspace_key k ks Txn) keys ↔ k ∈ keys) as ->; [|done].
    split; [|intros ?; apply list_elem_of_fmap; eauto].
    intros (k' & E' & Hk')%list_elem_of_fmap. apply (f_equal (λ x, truncate_keyspace_key x ks)) in E'.
    rewrite !truncate_encode in E'. by subst.
  - destruct (scan_inner_ok range limit false false x t Hx Hop) as (x' & E & Hx'). do 2 eexists.
    split; [unfold mbind, M_bind; by rewrite E | by split].
  - destruct (scan_keys_ok range limit false x t Hx Hop) as (x' & E & Hx'). do 2 eexists.
    split; [unfold mbind at 1, M_bind at 1; by rewrite E | by split].
  - destruct (scan_inner_ok range limit false true x t Hx Hop) as (x' & E & Hx'). do 2 eexists.
    split; [unfold mbind, M_bind; by rewrite E | by split].
  - destruct (scan_keys_ok range limit true x t Hx Hop) as (x' & E & Hx'). do 2 eexists.
    split; [unfold mbind at 1, M_bind at 1; by rewrite E | by split].
Qed.
End snapshot_ops.

(** C24: a snapshot is the data at its timestamp.  If the stores answer the reads at that timestamp from one
    multi-version snapshot, then any sequence of reads on a [Snapshot], with any options and
    with or without a keyspace, succeeds and returns what that data holds: single reads,
    batches, forward and backward scans of pairs and of keys, cached or not.  It sends no
    write, lock, commit or heartbeat, stays read-only, and dropping it does not panic. *)
Theorem snapshot_reads_correct cl c ts options snap cts ops t :
  serves cl ts snap cts → Forall op_ok ops →
  let '(outs, x, t') := run_snapshot cl ops (snapshot c ts options) t in
  Forall2 (λ op r, ∃ out, r = Return out ∧ reads_as snap cts (client_keyspace c) op out) ops outs ∧
  t' = t ∧ status x = ReadOnly ∧ (drop_transaction x t').1.1 = Return ().
Proof.
  intros Hs Hops.
  assert (snapshot_ok ts snap cts (client_keyspace c) (snapshot c ts options)) as Hx.
  { split; [done..|]. apply caches_new. }
  revert Hx. generalize (snapshot c ts options). induction Hops as [|op ops Hop Hops IH]; intros x Hx; cbn [run_snapshot].
  - split_and!; [constructor | done | apply Hx |]. unfold drop_transaction, mbind, M_bind, get_state.
    by rewrite (so_status _ _ _ _ x Hx).
  - destruct (run_snapshot_op_ok cl ts snap cts (client_keyspace c) Hs op x t Hop Hx) as (out & x' & -> & Hx' & Hr).
    specialize (IH x' Hx'). destruct (run_snapshot cl ops x' t) as [[outs xf] tf]. destruct IH as (HF & ? & ? & ?).
    split_and!; try done. constructor; [by exists out | done].
Qed.

(** A cluster whose reads come from one snapshot. *)
Definition snapshot_cluster (snap : list (list Z * list Z)) (cts : Key → Z) : Cluster :=
  let pair (key_only : bool) (p : list Z * list Z) := KvPair.new_with_commit_ts p.1 (if key_only then [] else p.2) (cts p.1) in
  {| get_timestamp := λ _, Ok (Timestamp.mk 1 0 0);
     answer_prewrite := λ _ _, Ok [];
     answer_commit := λ _ _, Ok ();
     answer_batch_rollback := λ _ _, Ok ();
     answer_pessimistic_lock := λ _ _, Ok [];
     answer_pessimistic_rollback := λ _ _, Ok ();
     answer_flush := λ _ _, Ok ();
     answer_heart_beat := λ _ _, Ok 0;
     answer_get := λ _ q, Ok ((λ v, (v, cts (GetRequest.key q))) <$> bget (GetRequest.key q) snap);
     answer_batch_get := λ _ q, Ok (omap (λ k, (λ v, pair false (k, v)) <$> bget k snap) (BatchGetRequest.keys q));
     answer_scan := λ _ q,
       let range := if ScanRequest.reverse q then (ScanRequest.end_key q, ScanRequest.start_key q)
                    else (ScanRequest.start_key q, ScanRequest.end_key q) in
       Ok (take (Z.to_nat (ScanRequest.limit q)) (map (pair (ScanRequest.key_only q))
         (in_order (ScanRequest.reverse q) (List.filter (λ p, bool_decide (in_key_range range p.1)) snap))));
     latch_is_stale := λ _ _ _, false;
     elapsed_ms := λ _, 0;
     round_ms := λ _, 0%nat;
     spurious_failures := 0 |}.

Lemma snapshot_cluster_serves snap cts ts : bwf snap → Forall (λ p : list Z * list Z, wf_key p.1) snap →
  serves (snapshot_cluster snap cts) ts snap cts.
Proof.
  intros Hs Hk. split; [done | done | |].
  - intros t ks need. eexists. split; [done|]. cbn. split.
    + intros k v. rewrite list_elem_of_fmap. setoid_rewrite list_elem_of_omap. split.
      * intros (kv & E & k' & Hin & Hkv). destruct (bget k' snap) eqn:Eb; [|done]. injection Hkv as <-. by injection E as -> ->.
      * intros [Hin E]. eexists. split; [|exists k; rewrite E; by split]. done.
    + intros _ kv (k & Hin & Hkv)%list_elem_of_omap. destruct (bget k snap); [|done]. by injection Hkv as <-.
  - intros t start end_ n key_only reverse. eexists. split; [done|]. cbn [ScanRequest.reverse ScanRequest.key_only ScanRequest.limit ScanRequest.start_key ScanRequest.end_key].
    rewrite <- firstn_map, map_map.
    assert (∀ l : list (list Z * list Z), map (λ p, KvPair.into_tuple (KvPair.new_with_commit_ts p.1 (if key_only then [] else p.2) (cts p.1))) l =
      served key_only l) as Hserved.
    { intros l. destruct key_only; [done|]. cbn. rewrite <- (map_id l) at 2. by apply map_ext; intros []. }
    rewrite Hserved. destruct reverse; [|apply (enough_exact _ false)]. unfold in_order.
    assert (∀ l : list (list Z * list Z), served key_only (rev l) = rev (served key_only l)) as ->
      by (intros l; unfold served; destruct key_only; [by rewrite map_rev | done]).
    apply (enough_exact _ true).
Qed.

Lemma snapshot_reads_correct_witness :
  let snap := [(encode_keyspace_key [1] (Enable 7) Txn, [10]); (encode_keyspace_key [2] (Enable 7) Txn, [20])] in
  let '(outs, x, t') := run_snapshot (snapshot_cluster snap (λ _, 5))
    [SScanReverse BoundRange.from_range_full 1; SGetWithOptions [1] [GetReturnCommitTs]; SKeyExists [3]]
    (snapshot (mkClient (Enable 7) false) (Timestamp.mk 9 0 0) new_optimistic) [] in
  status x = ReadOnly ∧
  outs = [Return (OutPairs [KvPair.new [2] [20]]); Return (OutEntry (Some ([10], 5))); Return (OutBool false)].
Proof.
  intros snap.
  pose proof (snapshot_reads_correct (snapshot_cluster snap (λ _, 5)) (mkClient (Enable 7) false) (Timestamp.mk 9 0 0) new_optimistic
    snap (λ _, 5) [SScanReverse BoundRange.from_range_full 1; SGetWithOptions [1] [GetReturnCommitTs]; SKeyExists [3]] []) as H.
  destruct (run_snapshot _ _ _ _) as [[outs x] t']. destruct H as (HF & _ & Hst & _).
  - apply snapshot_cluster_serves; [vm_compute; repeat constructor | unfold wf_key, in_u8; vm_compute; repeat constructor; done].
  - repeat constructor; done.
  - split; [exact Hst|]. repeat (apply Forall2_cons_inv_l in HF as (? & ? & (? & -> & Hr) & HF & ->); vm_compute in Hr; subst).
    apply Forall2_nil_inv_l in HF as ->. done.
Defined.

(** ** Garbage collection *)

(** The unbounded range, encoded, covers every key of the keyspace. *)
Lemma full_range_covers ks k : wf_key k →
  in_key_range (BoundRange.to_key_range (encode_keyspace_range BoundRange.from_range_full ks Txn)) (encode_keyspace_key k ks Txn).
Proof.
  intros Hk. destruct ks as [|id]; cbn.
  - split; [apply key_empty_le | by left].
  - rewrite !prepend_bytes_app, !app_nil_r. split; [|right]; by apply encoded_in_keyspace.
Qed.

(** C35: the safepoint only advances over a cleaned keyspace.  [gc] tells PD the new safepoint exactly when
    the clean-up of the locks succeeded, for a request that asks for the locks up to the
    safepoint and covers every key of the keyspace, with every region's part done without an
    error; in every other case nothing is sent to PD and the call fails. *)
Theorem gc_safepoint_after_cleanup to_string plan c update_safepoint safepoint :
  let '(r, sent) := gc to_string plan c update_safepoint safepoint in
  (∃ req regions, plan req ResolveLocksOptions_default = Ok regions ∧
     ScanLockRequest.max_version req = Timestamp.version safepoint ∧
     (∀ k, wf_key k → in_key_range (ScanLockRequest.start_key req, ScanLockRequest.end_key req) (encode_keyspace_key k (client_keyspace c) Txn)) ∧
     Forall (λ part, ∃ x, part = Ok x ∧ cl_key_error x = None ∧ cl_region_error x = None) regions ∧
     sent = [Timestamp.version safepoint] ∧ r = Some (update_safepoint (Timestamp.version safepoint))) ∨
  sent = [] ∧ (r = None ∨ ∃ e, r = Some (Err e)).
Proof.
  unfold gc, cleanup_locks. set (req := new_scan_lock_request _ _ _).
  assert (∀ e, truncate_keyspace_result (Err e : Result CleanupLocksResult) (client_keyspace c) = None ∨
    ∃ e', truncate_keyspace_result (Err e : Result CleanupLocksResult) (client_keyspace c) = Some (Err e')) as Herr.
  { intros e. cbn. destruct (truncate_keyspace_error _ e); cbn; eauto. }
  destruct (plan req _) as [regions|e] eqn:Ep; [|cbn [extract_error mbind result_bind]; destruct (Herr e) as [-> | [? ->]]; eauto].
  destruct (extract_error _ _ (Ok regions)) as [rs|e] eqn:E; [|cbn [mbind result_bind]; destruct (Herr e) as [-> | [? ->]]; eauto].
  apply extract_error_vec in E as [-> HF]. cbn [mbind result_bind].
  destruct (collect_cleanup regions) as [res|e] eqn:Ec; [|destruct (Herr e) as [-> | [? ->]]; eauto]. left.
  exists req, regions. split_and!; try done. intros k Hk. by apply full_range_covers.
Qed.

(** ** Destroying a range on every store *)

(** A store's task: it ends with the answer of the first attempt that is not a transport error. *)
Definition destroyed (execute : nat → Result UnsafeDestroyRangeResponse.t) : Prop :=
  ∃ i resp, (i ≤ attempts_left DEFAULT_STORE_BACKOFF)%nat ∧
    (∀ j, (j < i)%nat → ∃ e, execute j = Err e ∧ is_grpc_error e = true) ∧
    execute i = Ok resp ∧ UnsafeDestroyRangeResponse.error resp = EmptyString ∧
    UnsafeDestroyRangeResponse.region_error resp = None.

Lemma no_jitter_next b d : Backoff.kind b = NoJitter →
  match next_delay_duration b d with
  | Wait _ b' => attempts_left b = S (attempts_left b') ∧ Backoff.kind b' = NoJitter
  | GiveUp _ => attempts_left b = 0%nat
  | Panic => False
  end.
Proof.
  intros Hk. destruct (next_delay_duration b d) as [|b'|ms b'] eqn:E.
  - revert E. unfold next_delay_duration. rewrite Hk. by destruct (_ <=? _).
  - eapply give_up_exhausted; [|exact E]. by rewrite Hk.
  - apply wait_uses_attempt in E as [? ->]. done.
Qed.

Section one_store.
Context (execute : nat → Result UnsafeDestroyRangeResponse.t) (draw : nat → Z).
#[local] Abbreviation handler :=
  (single_store_handler execute draw (λ resp, str_key_errors (UnsafeDestroyRangeResponse.error resp)) UnsafeDestroyRangeResponse.region_error).

Lemma handler_ends b i : Backoff.kind b = NoJitter → ∃ r, handler (S (attempts_left b)) i b = Done r ∧
  ((∃ resp, r = Ok resp) ↔ ∃ n resp, (n ≤ attempts_left b)%nat ∧
     (∀ j, (j < n)%nat → ∃ e, execute (i + j) = Err e ∧ is_grpc_error e = true) ∧
     execute (i + n) = Ok resp ∧ UnsafeDestroyRangeResponse.error resp = EmptyString ∧
     UnsafeDestroyRangeResponse.region_error resp = None).
Proof.
  remember (attempts_left b) as a eqn:Ea. revert b i Ea. induction a as [|a IH]; intros b i Ea Hk.
  all: cbn [single_store_handler]; pose proof (no_jitter_next b (draw i) Hk) as Hn.
  all: destruct (execute i) as [resp|e] eqn:Ei;
    [assert (∀ n resp', (∀ j, (j < n)%nat → ∃ e, execute (i + j) = Err e ∧ is_grpc_error e = true) →
       execute (i + n) = Ok resp' → resp' = resp) as Hfirst;
     [intros [|n] resp' Hj; rewrite ?Nat.add_0_r; [congruence|];
      destruct (Hj 0%nat) as (e & He & _); [lia|]; rewrite Nat.add_0_r in He; congruence|]|].
  1, 3: destruct (UnsafeDestroyRangeResponse.error resp) eqn:Er; cbn [str_key_errors];
      [destruct (UnsafeDestroyRangeResponse.region_error resp) eqn:Erg|];
      (eexists; split; [done|]; split;
       [intros [resp' [= <-]]; exists 0%nat, resp; rewrite Nat.add_0_r; split_and!; try done; lia
       |intros (n & resp' & _ & Hj & Hr & ? & ?); pose proof (Hfirst n resp' Hj Hr); subst; eauto; congruence]).
  all: destruct (is_grpc_error e) eqn:Eg;
    [|exists (Err e); split; [done|]; split; [by intros [??]|]; intros ([|n] & resp & _ & Hj & Hr & _);
      [rewrite Nat.add_0_r in Hr; congruence|]; destruct (Hj 0%nat) as (e' & He & ?); [lia|]; rewrite Nat.add_0_r in He; congruence].
  all: destruct (next_delay_duration b (draw i)) as [|b'|ms b'] eqn:End; [done| |].
  - exists (Err e). split; [done|]. split; [by intros [??]|]. intros (n & resp & Hn0 & _ & Hr & _).
    replace n with 0%nat in Hr by lia. rewrite Nat.add_0_r in Hr. congruence.
  - lia.
  - lia.
  - destruct Hn as [Hn Hk']. destruct (IH b' (S i)) as (r & E & Hr); [congruence | done |]. exists r. split; [exact E|].
    rewrite Hr. split.
    + intros (n & resp & ? & Hj & ? & ? & ?). exists (S n), resp. rewrite <- Nat.add_succ_comm in *. split_and!; try done; [lia|].
      intros [|j] ?; [rewrite Nat.add_0_r; eauto|]. rewrite <- Nat.add_succ_comm. apply Hj. lia.
    + intros ([|n] & resp & ? & Hj & Hre & ? & ?); [rewrite Nat.add_0_r in Hre; congruence|]. exists n, resp.
      rewrite <- Nat.add_succ_comm in Hre. split_and!; try done; [lia|]. intros j ?.
      rewrite (Nat.add_succ_comm i j). apply Hj. lia.
Qed.
End one_store.

Lemma join_all_done {St R} (task : St → run R) (l : list St) : (∀ s, ∃ r, task s = Done r) →
  ∃ rs, join_all (map task l) = Done (Ok rs) ∧ Forall2 (λ s r, task s = Done r) l rs.
Proof.
  intros Ht. induction l as [|s l (rs & E & HF)]; cbn; [exists []; split; [done | constructor]|]. destruct (Ht s) as [r Er].
  rewrite Er, E. exists (r :: rs). split; [done | by constructor].
Qed.

Lemma collect_destroy_ok rs : (∃ e, collect_destroy rs = Err e) ∧ (∃ r e, r ∈ rs ∧ r = Err e) ∨
  collect_destroy rs = Ok () ∧ Forall (λ r, ∃ x, r = Ok x) rs.
Proof.
  unfold collect_destroy, collect_error. induction rs as [|[x|e] rs IH]; cbn.
  - right. split; [done | constructor].
  - destruct IH as [((e & IH) & (r & e' & ? & ?)) | [IH HF]].
    + left. revert IH. cbn. destruct (mapM id rs) as [|e0]; [done|]. intros [= ->]. split; [by eexists|].
      exists r, e'. split; [by apply elem_of_cons; right | done].
    + right. revert IH. cbn. destruct (mapM id rs); [|done]. intros _. split; [done|]. constructor; eauto.
  - left. split; [by eexists|]. exists (Err e), e. split; [by apply elem_of_cons; left | done].
Qed.

(** The task of a store ends, with success exactly when the store destroyed the range. *)
Lemma destroy_task_ends {St} execute draw req (s : St) : ∃ r, destroy_task execute draw req s = Done r ∧
  ((∃ resp, r = Ok resp) ↔ destroyed (execute req s)).
Proof. by apply (handler_ends (execute req s) (draw s) DEFAULT_STORE_BACKOFF 0). Qed.

Lemma destroy_results {St} execute draw req (l l' : list St) rs : l' ≡ₚ l →
  Forall2 (λ s r, destroy_task execute draw req s = Done r) l' rs →
  (∃ e, collect_destroy rs = Err e) ∧ ¬ (∀ s, s ∈ l → destroyed (execute req s)) ∨
  collect_destroy rs = Ok () ∧ (∀ s, s ∈ l → destroyed (execute req s)).
Proof.
  intros Hc HF. destruct (collect_destroy_ok rs) as [(He & (r & e' & Hr & ->)) | [-> Hrs]]; [left|right]; (split; [done|]).
  - intros Hl. apply list_elem_of_lookup in Hr as [i Hi]. destruct (Forall2_lookup_r _ _ _ _ _ HF Hi) as (s & Hs & Es).
    destruct (destroy_task_ends execute draw req s) as (r & Er & [_ Hd]). rewrite Es in Er. injection Er as <-.
    destruct Hd as [? ?]; [|done]. apply Hl. rewrite <- Hc. by eapply list_elem_of_lookup_2.
  - intros s Hs. rewrite <- Hc in Hs.
    apply list_elem_of_lookup in Hs as [i Hi]. destruct (Forall2_lookup_l _ _ _ _ _ HF Hi) as (r & Hri & Es).
    destruct (destroy_task_ends execute draw req s) as (r' & Er & [Hd _]). rewrite Es in Er. injection Er as <-. apply Hd.
    rewrite Forall_forall in Hrs. apply Hrs. by eapply list_elem_of_lookup_2.
Qed.

(** Destroying a range ends, and succeeds exactly if every store did it.  With the stores ending in any
    order, [unsafe_destroy_range] makes at most eleven attempts per store (a fuel that never
    runs out) and succeeds if and only if PD lists the stores and each of them answers without
    an error, after transport errors only. *)
Theorem unsafe_destroy_range_correct {St} (stores : Result (list St)) completed execute draw c range :
  (∀ l, completed l ≡ₚ l) →
  let req := new_unsafe_destroy_range_request (encode_keyspace_range range (client_keyspace c) Txn) in
  let out := unsafe_destroy_range stores completed execute draw c range in
  out ≠ Running ∧ (out = Done (Ok ()) ↔ ∃ l, stores = Ok l ∧ ∀ s, s ∈ l → destroyed (execute req s)).
Proof.
  intros Hc req out. unfold out, unsafe_destroy_range, all_stores_execute. fold req.
  assert (∀ e : Error, match truncate_keyspace_result (Err e) (client_keyspace c) with Some r => Done r | None => @Panicks unit end ≠ Running ∧
    match truncate_keyspace_result (Err e) (client_keyspace c) with Some r => Done r | None => Panicks end ≠ Done (Ok ())) as Herr.
  { intros e. cbn. by destruct (truncate_keyspace_error _ e). }
  destruct stores as [l|e]; cbn [mbind result_bind].
  2: { destruct (Herr e). split; [done|]. split; [done|]. by intros (l & ? & _). }
  destruct (join_all_done (destroy_task execute draw req) (completed l)) as (rs & -> & HF).
  { intros s. destruct (destroy_task_ends execute draw req s) as (r & ? & _). eauto. }
  cbn [mbind result_bind]. destruct (destroy_results execute draw req l _ rs (Hc l) HF) as [[(e & ->) Hl] | [-> Hl]].
  - destruct (Herr e). split; [done|]. split; [done|]. by intros (l' & [= <-] & ?).
  - split; [done|]. split; [|done]. intros _. by exists l.
Qed.

Lemma unsafe_destroy_range_correct_witness :
  unsafe_destroy_range (Ok [1; 2]) (@rev Z)
    (λ _ s i, if (s =? 1) && (i =? 0)%nat then Err (Grpc EmptyString) else Ok (UnsafeDestroyRangeResponse.mk None EmptyString))
    (λ _ _, 0) (mkClient Disable false) BoundRange.from_range_full = Done (Ok ()).
Proof.
  apply (unsafe_destroy_range_correct (Ok [1; 2]) (@rev Z)).
  - intros l. symmetry. apply Permutation_rev.
  - exists [1; 2]. split; [done|]. intros s [-> | [-> | []%elem_of_nil]%elem_of_cons]%elem_of_cons.
    + exists 1%nat, (UnsafeDestroyRangeResponse.mk None EmptyString). split_and!; try done; [vm_compute; lia|].
      intros j Hj. assert (j = 0%nat) as -> by lia. by exists (Grpc EmptyString).
    + exists 0%nat, (UnsafeDestroyRangeResponse.mk None EmptyString). split_and!; try done; [lia|]. intros j Hj. lia.
Defined.
