(* ===== verification/ScanPlans.v ===== *)
(** * Scans over regions (src/src/transaction/transaction.rs, src/src/transaction/requests.rs, src/src/request/shard.rs)

    A scan is one request for a range and a limit.  Its plan cuts the range at the borders of the regions, asks each region for
    up to [limit] pairs of its part, and concatenates the responses in the order in which they arrive.  So what the buffer is
    handed ([Buffers.scan_and_fetch]) is neither sorted nor limited, and when regions change between lookups the parts may
    overlap.  This file proves that it is still [enough], for every layout, order and number of retries, and that the scan of
    a transaction is therefore exact. *)

From Stdlib Require Import Sorting.Permutation.
From S2P Require Import Prelude Keys Proto Errors Ranges BTree Timestamps Kv Regions Sharding Backoffs Buffers Locks Requests Plans LockPlans TxnPlans RawRequests CommitPlans Clients.

(** ** The plan of a scan *)

(** [kvrpcpb::ScanResponse] *)
Record ScanResponse := mkScanResponse { sc_region_error : option RegionError.t; sc_body : PairsResponse }.

Abbreviation ScanPlan Client := (ResolveLock.t (Dispatch.t Client ScanRequest.t)).

Section scan_plans.
Context {Client : Type}.
Context (pd : list nat → nat → list Z → Result RegionWithLeader.t) (store : list nat → StoreView Client) (shards_fuel : nat).

Definition scan_of (p : ScanPlan Client) : ScanRequest.t := Dispatch.request (ResolveLock.inner p).

(** [PlanBuilder::new(..).resolve_lock(..).retry_multi_region(..).merge(Collect)] *)
Definition scan_plan (req : ScanRequest.t) (lock_backoff : Backoff.t) : ScanPlan Client :=
  ResolveLock.mk (Dispatch.mk req None) lock_backoff.
Definition scan_ops (execute : list nat → ScanPlan Client → Result ScanResponse) : PlanOps (ScanPlan Client) (Key * Key) ScanResponse :=
  plan_ops Client pd (λ _, shards_fuel) store execute (λ r, pairs_key_errors (pr_pairs (sc_body r))) sc_region_error.
Definition scan_result (results : list (Result ScanResponse)) : Result (list KvPair.t) :=
  collect_pairs (map (λ r, resp ← r; Ok (sc_body resp)) results).

(** The range a request stands for: a reverse request has its bounds swapped. *)
Definition scan_bounds (r : ScanRequest.t) : Key * Key :=
  if ScanRequest.reverse r then (ScanRequest.end_key r, ScanRequest.start_key r)
  else (ScanRequest.start_key r, ScanRequest.end_key r).
Definition in_bounds (r : ScanRequest.t) (k : Key) : bool := bool_decide (in_key_range (scan_bounds r) k).

(** ** The parts of a scan *)

Context (snap : list (list Z * list Z)).

Definition scan_content (p : ScanPlan Client) : list (list Z * list Z) :=
  List.filter (λ q, in_bounds (scan_of p) q.1) snap.

(** The request without its range. *)
Definition scan_frame (r : ScanRequest.t) : Z * bool * Z * bool :=
  (ScanRequest.limit r, ScanRequest.key_only r, ScanRequest.version r, ScanRequest.reverse r).
Definition scan_part (root : ScanRequest.t) (p : ScanPlan Client) : Prop :=
  scan_frame (scan_of p) = scan_frame root ∧ wf_key (scan_bounds (scan_of p)).1.

(** Lookups find the region of a key and every region ends at one of the borders [B]; regions may change all the time. *)
Class RegionBorders (B : list Key) : Prop := {
  borders_lookup : ∀ path, RegionLookup (pd path);
  borders_bound : ∀ path, layout_bounded (pd path) B;
  borders_start_wf : ∀ path t k r, pd path t k = Ok r → wf_key (RegionWithLeader.start_key r);
  borders_fuel : (S (length B) < shards_fuel)%nat
}.

Lemma scan_bounds_shard shard r :
  scan_bounds (ScanRequest_with_range (range_apply_shard shard (ScanRequest_range r)) r) = shard ∧
  scan_frame (ScanRequest_with_range (range_apply_shard shard (ScanRequest_range r)) r) = scan_frame r.
Proof.
  destruct shard as [s e], r as [s' e' l ko v rev]. unfold ScanRequest_with_range, range_apply_shard, ScanRequest_range.
  cbn. by destruct rev.
Qed.

Lemma scan_shards_spec B path (p : ScanPlan Client) execute shards : RegionBorders B → wf_key (scan_bounds (scan_of p)).1 →
  mapM id (plan_shards (scan_ops execute) path p) = Ok shards →
  (∀ k, in_key_range (scan_bounds (scan_of p)) k ↔ ∃ s, s ∈ shards ∧ in_key_range s.1 k) ∧ Forall (λ s, wf_key s.1.1) shards.
Proof.
  intros HB Hwf. change (plan_shards (scan_ops execute) path p) with
    (default [] (region_stream_for_range (pd path) shards_fuel (scan_bounds (scan_of p)))).
  destruct (region_stream_spec (pd path) B (scan_bounds (scan_of p)) shards_fuel) as (sh & tl & -> & Hw & Hs);
    [apply borders_lookup | apply borders_bound | done |
     pose proof (ends_after_bound B (scan_bounds (scan_of p)).1); pose proof borders_fuel; lia |].
  cbn [default from_option Datatypes.id]. intros (out & Ho & ->)%mapM_ok_app.
  destruct Hs as [[e ->]|(-> & Hcov & _)]; [done|]. injection Ho as <-. rewrite app_nil_r. split; [done|].
  apply Forall_forall. intros s Hin. destruct (Hw s Hin) as (E1 & t & k & E2). rewrite E1.
  unfold range_intersection, RegionWithLeader.range. cbn [fst]. apply key_max_wf; [by eapply borders_start_wf | done].
Qed.

#[export] Instance scan_partitions B root execute : RegionBorders B →
  PartitionsUpTo same_elements (scan_ops execute) (scan_part root) scan_content.
Proof.
  intros HB. split.
  - intros path p shards [_ Hwf] E q. destruct (scan_shards_spec B path p execute shards HB Hwf E) as [Hcov _].
    rewrite list_elem_of_In, in_concat. setoid_rewrite in_map_iff. unfold scan_content at 2.
    rewrite list_elem_of_In, filter_In. unfold in_bounds. rewrite bool_decide_eq_true, Hcov. split.
    + intros (l & (s & <- & Hs) & Hq). unfold scan_content in Hq. apply filter_In in Hq as [Hq Hb]. split; [done|].
      exists s. split; [by apply list_elem_of_In|]. unfold in_bounds in Hb. apply bool_decide_eq_true in Hb.
      cbn in Hb. by rewrite (proj1 (scan_bounds_shard s.1 _)) in Hb.
    + intros (Hq & s & Hs & Hk). eexists. split; [exists s; split; [done | by apply list_elem_of_In]|].
      unfold scan_content. apply filter_In. split; [done|]. unfold in_bounds. apply bool_decide_eq_true.
      cbn. by rewrite (proj1 (scan_bounds_shard s.1 _)).
  - intros path p shards s [Hf Hwf] E Hs. destruct (scan_shards_spec B path p execute shards HB Hwf E) as [_ HF].
    rewrite Forall_forall in HF. destruct (scan_bounds_shard s.1 (scan_of p)) as [E1 E2]. split.
    + etrans; [exact E2 | exact Hf].
    + change (wf_key (scan_bounds (ScanRequest_with_range (range_apply_shard s.1 (ScanRequest_range (scan_of p))) (scan_of p))).1).
      rewrite E1. by apply HF.
  - intros path p p' [Hf Hwf] E. cbn in E. unfold apply_to_request in E.
    destruct (sv_applied (store path)); cbn in E; [|done]. by injection E as <-.
Qed.
End scan_plans.

(** ** The merged pairs are enough *)

Lemma take_filter_elem {A} (f : A → bool) (l : list A) : ∀ n x, x ∈ take n l → f x = true → x ∈ take n (List.filter f l).
Proof.
  induction l as [|y l IH]; intros [|n] x; cbn [take List.filter]; try (by intros ?%elem_of_nil).
  intros [->|Hx]%elem_of_cons Hf; [rewrite Hf; by left|]. destruct (f y); [right; by apply IH|].
  specialize (IH n x Hx Hf). rewrite <- (take_drop n (take (S n) _)), take_take, elem_of_app. left.
  by rewrite Nat.min_l by lia.
Qed.

Lemma filter_filter_sub {A} (f g : A → bool) (l : list A) : (∀ x, x ∈ l → f x = true → g x = true) →
  List.filter f (List.filter g l) = List.filter f l.
Proof.
  induction l as [|x l IH]; intros H; [done|]. cbn. assert (∀ y, y ∈ l → f y = true → g y = true) as H'
    by (intros y Hy; apply H; by right).
  destruct (g x) eqn:Eg; cbn; [by rewrite IH|]. destruct (f x) eqn:Ef; [|by apply IH].
  rewrite (H x) in Eg; [done | by left | done].
Qed.

Lemma filter_rev {A} (f : A → bool) (l : list A) : List.filter f (rev l) = rev (List.filter f l).
Proof.
  induction l as [|x l IH]; [done|]. cbn. rewrite List.filter_app, IH. cbn. destruct (f x); cbn; [done | by rewrite app_nil_r].
Qed.

(** Choosing by key commutes with the order and with dropping the values. *)
Lemma in_order_served_filter (g : Key → bool) reverse key_only (l : list (list Z * list Z)) :
  in_order reverse (served key_only (List.filter (λ q, g q.1) l)) =
  List.filter (λ q, g q.1) (in_order reverse (served key_only l)).
Proof.
  assert (served key_only (List.filter (λ q, g q.1) l) = List.filter (λ q, g q.1) (served key_only l)) as ->.
  { destruct key_only; [|done]. unfold served. induction l as [|[k v] l IH]; [done|]. cbn. destruct (g k); cbn; by rewrite IH. }
  destruct reverse; cbn; [by rewrite filter_rev | done].
Qed.

Lemma elem_of_in_order reverse (l : list (list Z * list Z)) x : x ∈ in_order reverse l ↔ x ∈ l.
Proof. destruct reverse; [|done]. cbn. by rewrite !list_elem_of_In, <- in_rev. Qed.

Lemma served_key key_only (l : list (list Z * list Z)) x : x ∈ served key_only l → ∃ q, q ∈ l ∧ q.1 = x.1.
Proof. destruct key_only; [|by exists x]. unfold served. intros (q & -> & Hq)%list_elem_of_fmap. by exists q. Qed.

Lemma take_sub {A} n (l : list A) x : x ∈ take n l → x ∈ l.
Proof. intros Hx. rewrite <- (take_drop n l), elem_of_app. by left. Qed.

(** The first [n] of every part, put together, have the first [n] of the whole among them. *)
Lemma parts_enough (snap : list (list Z * list Z)) (g : Key → bool) (gs : list (Key → bool)) n reverse key_only :
  (∀ q, q ∈ snap → g q.1 = true ↔ ∃ h, h ∈ gs ∧ h q.1 = true) →
  enough n reverse (served key_only (List.filter (λ q, g q.1) snap))
    (concat (map (λ h : Key → bool, take n (in_order reverse (served key_only (List.filter (λ q, h q.1) snap)))) gs)).
Proof.
  intros Hg. set (O := in_order reverse (served key_only snap)).
  assert (∀ x, x ∈ O → ∃ q, q ∈ snap ∧ q.1 = x.1) as HO by (intros x; unfold O; rewrite elem_of_in_order; apply served_key).
  assert (∀ h x, x ∈ in_order reverse (served key_only (List.filter (λ q, h q.1) snap)) ↔ x ∈ O ∧ h x.1 = true) as Hin.
  { intros h x. rewrite in_order_served_filter. fold O. by rewrite list_elem_of_In, filter_In, <- list_elem_of_In. }
  split.
  - intros x. rewrite list_elem_of_In, in_concat. intros (l & (h & <- & Hh)%in_map_iff & Hx). apply list_elem_of_In in Hh, Hx.
    apply take_sub, Hin in Hx as [Hx Hhx]. rewrite <- (elem_of_in_order reverse), Hin. split; [done|].
    destruct (HO x Hx) as (q & Hq & Eq). rewrite <- Eq in Hhx |- *. apply (Hg q Hq). eauto.
  - intros x Hx. change (x ∈ take n (in_order reverse (served key_only (List.filter (λ q, g q.1) snap)))) in Hx.
    pose proof (take_sub _ _ _ Hx) as [HxO Hgx]%Hin. destruct (HO x HxO) as (q & Hq & Eq).
    rewrite <- Eq in Hgx. apply (Hg q Hq) in Hgx as (h & Hh & Hhx). rewrite Eq in Hhx.
    rewrite list_elem_of_In, in_concat. eexists. split; [apply in_map_iff; exists h; split; [done | by apply list_elem_of_In]|].
    rewrite <- list_elem_of_In, in_order_served_filter. fold O. rewrite in_order_served_filter in Hx. fold O in Hx.
    rewrite <- (filter_filter_sub (λ q, h q.1) (λ q, g q.1)); [by apply take_filter_elem|].
    intros y Hy Hhy. destruct (HO y Hy) as (q' & Hq' & Eq'). rewrite <- Eq' in Hhy |- *. apply (Hg q' Hq'). eauto.
Qed.

(** The outcome of a scan plan; the lemma behind the theorem below and the scans of a transaction. *)
Lemma scan_plan_enough {Client} pd store shards_fuel B execute env fuel req lock_backoff backoff results snap :
  RegionBorders pd shards_fuel B → wf_key (scan_bounds req).1 → (∀ path n, order env path n ≡ₚ seq 0 n) →
  (∀ path plan resp, execute path plan = Ok resp → sc_region_error resp = None →
     pairs_key_errors (pr_pairs (sc_body resp)) = None → let part := scan_of (Client:=Client) plan in
     ScanRequest.version part = ScanRequest.version req →
     map KvPair.into_tuple (map PbKvPair.into (pr_pairs (sc_body resp))) =
       take (Z.to_nat (ScanRequest.limit part)) (in_order (ScanRequest.reverse part)
         (served (ScanRequest.key_only part) (List.filter (λ q, in_bounds part q.1) snap)))) →
  multi_region_execute (scan_ops pd store shards_fuel execute) env false fuel (scan_plan req lock_backoff) backoff = Done (Ok results) →
  match scan_result results with
  | Ok out => enough (Z.to_nat (ScanRequest.limit req)) (ScanRequest.reverse req)
      (served (ScanRequest.key_only req) (List.filter (λ q, in_bounds req q.1) snap)) (map KvPair.into_tuple out)
  | Err e => ∃ path plan resp es, execute path plan = Ok resp ∧
      pairs_key_errors (pr_pairs (sc_body resp)) = Some es ∧ e = MultipleKeyErrors es
  end.
Proof.
  intros HB Hwf Ho Htrue E.
  destruct (single_plan_covers (R:=same_elements) (scan_ops pd store shards_fuel execute) env false (scan_part req) (scan_content snap)
    Ho fuel [] (scan_plan req lock_backoff) backoff 0 results (conj eq_refl Hwf) E) as (parts & <- & Hc & HF).
  unfold scan_result, collect_pairs.
  pose proof (flat_map_ok_spec (λ resp, map PbKvPair.into (pr_pairs resp))
    (map (λ r, resp ← r; Ok (sc_body resp)) (map snd parts))) as H.
  destruct (flat_map_ok _ _) as [out|e].
  - destruct H as (xs & Hin & ->).
    assert (map KvPair.into_tuple (concat (map (λ resp, map PbKvPair.into (pr_pairs resp)) xs)) =
      concat (map (λ h : Key → bool, take (Z.to_nat (ScanRequest.limit req)) (in_order (ScanRequest.reverse req)
        (served (ScanRequest.key_only req) (List.filter (λ q, h q.1) snap)))) (map (λ p : ScanPlan Client * _, in_bounds (scan_of p.1)) parts))) as ->.
    { rewrite concat_map, !map_map. f_equal. clear Hc E. revert xs Hin. induction HF as [|[p r] parts [[Hf _] Ha] _ IH]; intros [|x xs] Hin; try done.
      cbn in Hin. injection Hin as Hr Hin. cbn [map]. f_equal; [|by apply IH]. cbn in Ha, Hf |- *.
      destruct r as [resp|]; [|done]. injection Hr as <-. destruct Ha as (path & Ee & He & Hre). injection Hf as Hl Hk Hv Hrv.
      rewrite <- Hl, <- Hk, <- Hrv. by eapply Htrue. }
    apply parts_enough. intros q Hq. specialize (Hc q). rewrite list_elem_of_In, in_concat in Hc. setoid_rewrite in_map_iff in Hc.
    unfold scan_content at 2 in Hc. rewrite list_elem_of_In, filter_In in Hc. cbn [scan_of scan_plan ResolveLock.inner Dispatch.request] in Hc.
    split.
    + intros Hb. destruct (proj2 Hc) as (l & (p & <- & Hp) & Hl); [by rewrite <- list_elem_of_In|]. unfold scan_content, compose in Hl.
      apply filter_In in Hl as [_ Hl]. exists (in_bounds (scan_of p.1)). split; [|done]. apply list_elem_of_fmap. exists p.
      by rewrite list_elem_of_In.
    + intros (h & (p & -> & Hp)%list_elem_of_fmap & Hh). apply Hc. eexists.
      split; [exists p; split; [done | by apply list_elem_of_In]|]. unfold scan_content, compose. apply filter_In. by rewrite <- list_elem_of_In.
  - apply list_elem_of_fmap in H as ([resp|e'] & He & Hin); [done|]. injection He as ->.
    apply list_elem_of_fmap in Hin as ([p r] & Hr & Hin). cbn in Hr. subst r. rewrite Forall_forall in HF.
    destruct (HF _ Hin) as [_ [?|(path & resp & es & Ee & He & ->)]]; [done|]. by exists path, p, resp, es.
Qed.

(** The range of a request is the range it was made for. *)
Lemma new_scan_request_bounds range ts n key_only reverse :
  scan_bounds (new_scan_request range ts n key_only reverse) = BoundRange.to_key_range range.
Proof. unfold new_scan_request, BoundRange.to_key_range, scan_bounds. destruct (BoundRange.into_keys range). by destruct reverse. Qed.

Lemma new_scan_request_frame range ts n key_only reverse :
  scan_frame (new_scan_request range ts n key_only reverse) = (n, key_only, Timestamp.version ts, reverse).
Proof. unfold new_scan_request. destruct (BoundRange.into_keys range). by destruct reverse. Qed.

Lemma brange_in_bounds range ts n key_only reverse (snap : list (list Z * list Z)) :
  Forall (λ p : list Z * list Z, wf_key p.1) snap → BoundRange.to range ≠ Included [] →
  List.filter (λ q, in_bounds (new_scan_request range ts n key_only reverse) q.1) snap = brange range snap.
Proof.
  intros Hk Hto. unfold brange. apply filter_ext_in. intros [k v] Hin. rewrite Forall_forall in Hk. apply list_elem_of_In in Hin.
  specialize (Hk _ Hin). cbn [fst] in *. unfold in_bounds. rewrite new_scan_request_bounds.
  pose proof (bound_range_contains_keys range k Hk Hto) as H. apply Bool.eq_iff_eq_true. by rewrite bool_decide_eq_true, H.
Qed.

(** C11: a transaction's scan is exact over any regions.  The stores answer a scan of a part of the range with the first pairs, as
    many as the limit, of what the snapshot holds there.  However the range is cut into regions, with regions that change
    meanwhile, in whatever order the responses arrive and however often a part is sent again: a scan whose fetch succeeds
    returns the first [limit] pairs, in scan order, of the snapshot overlaid with the transaction's puts and deletes, and
    leaves a coherent buffer; a scan whose fetch fails returns its error and leaves the buffer as it was. *)
Theorem transaction_scan_over_regions {Client} pd store shards_fuel B execute env lock_backoff backoff snap b range ts limit
    (reverse do_update : bool) f :
  RegionBorders pd shards_fuel B → (∀ path n, order env path n ≡ₚ seq 0 n) →
  (∀ path plan resp, execute path plan = Ok resp → sc_region_error resp = None →
     pairs_key_errors (pr_pairs (sc_body resp)) = None → let part := scan_of (Client:=Client) plan in
     ScanRequest.version part = Timestamp.version ts →
     map KvPair.into_tuple (map PbKvPair.into (pr_pairs (sc_body resp))) =
       take (Z.to_nat (ScanRequest.limit part)) (in_order (ScanRequest.reverse part)
         (served (ScanRequest.key_only part) (List.filter (λ q, in_bounds part q.1) snap)))) →
  bwf snap → Forall (λ p : list Z * list Z, wf_key p.1) snap → buffer_wf b → coherent snap b →
  wf_key (BoundRange.to_key_range range).1 → BoundRange.to range ≠ Included [] → 0 ≤ limit →
  limit + Z.of_nat (length (List.filter (λ p : list Z * BufferEntry, is_del p.2) (brange range (entry_map b)))) ≤ u32_max →
  (∀ n l, f range n = Ok l → ∃ fuel results,
     multi_region_execute (scan_ops pd store shards_fuel execute) env false fuel
       (scan_plan (new_scan_request range ts n false reverse) lock_backoff) backoff = Done (Ok results) ∧
     scan_result results = Ok l) →
  let n := limit + Z.of_nat (length (List.filter (λ p : list Z * BufferEntry, is_del p.2) (brange range (entry_map b)))) in
  match f range n with
  | Err e => scan_and_fetch range limit do_update reverse f b = (b, Err e)
  | Ok _ => ∃ b', scan_and_fetch range limit do_update reverse f b =
      (b', Ok (map (λ p, KvPair.new p.1 p.2) (take (Z.to_nat limit) (in_order reverse (scan_view snap b range))))) ∧
      coherent snap b' ∧ ∀ k, snapshot_read snap b' k = snapshot_read snap b k
  end.
Proof.
  intros HB Ho Hserve Hs Hk Hb Hco Hwf Hto Hl Hmax Hrun n. destruct (f range n) as [l|e] eqn:Ef.
  - apply scan_and_fetch_exact; [done..|]. exists l. split; [done|]. destruct (Hrun n l Ef) as (fuel & results & E & Er).
    pose proof (new_scan_request_frame range ts n false reverse) as Hfr. unfold scan_frame in Hfr. injection Hfr as H1 H2 H3 H4.
    eapply (scan_plan_enough pd store shards_fuel B execute env) with (snap := snap) in E; [|done | by rewrite new_scan_request_bounds | done |].
    + rewrite Er, H1, H2, H4 in E. cbn [served] in E. by rewrite brange_in_bounds in E.
    + rewrite H3. exact Hserve.
  - unfold scan_and_fetch, sat_add_u32. rewrite (Z.min_l (Z.of_nat _)) by lia. rewrite (Z.min_l (limit + _)) by done. fold n. by rewrite Ef.
Qed.

(** *** An example: two regions, the second of which is busy at first *)

Definition scan_snap : list (list Z * list Z) := [([97], [1]); ([98], [2]); ([120], [3]); ([121], [4])].
Definition sample_scan_execute (path : list nat) (p : ScanPlan unit) : Result ScanResponse :=
  let part := scan_of p in
  Ok (mkScanResponse (busy_at_first path) (mkPairsResponse
    (map (λ q, PbKvPair.mk None q.1 q.2 0) (take (Z.to_nat (ScanRequest.limit part)) (in_order (ScanRequest.reverse part)
       (served (ScanRequest.key_only part) (List.filter (λ q, in_bounds part q.1) scan_snap))))) None)).
Lemma sample_scan_served path p resp : sample_scan_execute path p = Ok resp →
  map KvPair.into_tuple (map PbKvPair.into (pr_pairs (sc_body resp))) =
  take (Z.to_nat (ScanRequest.limit (scan_of p))) (in_order (ScanRequest.reverse (scan_of p))
    (served (ScanRequest.key_only (scan_of p)) (List.filter (λ q, in_bounds (scan_of p) q.1) scan_snap))).
Proof.
  unfold sample_scan_execute. set (l := take _ _). clearbody l. intros [= <-]. cbn. rewrite !map_map.
  etrans; [|apply map_id]. apply map_ext. by intros [].
Qed.

Definition sample_fetch (ts : Timestamp.t) (reverse : bool) (range : BoundRange.t) (n : Z) : Result (list KvPair.t) :=
  run_outcome (λ r, results ← r; scan_result results)
    (multi_region_execute (scan_ops led_pd sample_store 4 sample_scan_execute) sample_handler_env false 5
       (scan_plan (new_scan_request range ts n false reverse) OPTIMISTIC_BACKOFF) DEFAULT_REGION_BACKOFF).

#[export] Instance led_pd_borders : RegionBorders led_pd 4 [[109]].
Proof. split; [apply led_pd_layout | apply led_pd_layout | apply led_pd_layout | apply led_pd_layout]. Qed.

(** [98] is deleted and [99] is put; the reverse scan for three pairs starts in the second region. *)
Lemma transaction_scan_over_regions_witness : ∃ b',
  scan_and_fetch BoundRange.from_range_full 3 true true (sample_fetch (Timestamp.mk 5 0 0) true)
    (delete [98] (put [99] [9] (Buffer_new false))) =
    (b', Ok [KvPair.new [121] [4]; KvPair.new [120] [3]; KvPair.new [99] [9]]).
Proof.
  set (b := delete [98] (put [99] [9] (Buffer_new false))). pose proof (transaction_scan_over_regions led_pd sample_store 4 [[109]]
    sample_scan_execute sample_handler_env OPTIMISTIC_BACKOFF DEFAULT_REGION_BACKOFF scan_snap b BoundRange.from_range_full
    (Timestamp.mk 5 0 0) 3 true true (sample_fetch (Timestamp.mk 5 0 0) true)) as H.
  destruct H as (b' & E & _).
  - apply led_pd_borders.
  - intros path n. apply Permutation_sym, Permutation_rev.
  - intros path plan resp E _ _ part _. by eapply sample_scan_served.
  - vm_compute. repeat constructor.
  - unfold wf_key, in_u8. repeat constructor; cbn; lia.
  - unfold buffer_wf. vm_compute. repeat constructor.
  - intros k e Hke. apply bget_Some_In in Hke; [|vm_compute; repeat constructor].
    apply elem_of_cons in Hke as [[= -> ->]|[[= -> ->]|[]%elem_of_nil]%elem_of_cons]; done.
  - constructor.
  - done.
  - lia.
  - vm_compute. done.
  - intros n l. unfold sample_fetch. destruct (multi_region_execute _ _ _ _ _ _) as [| |[results|e]] eqn:E; cbn [run_outcome]; try done.
    intros Er. exists 5%nat, results. by split.
  - exists b'. fold b. rewrite E. vm_compute. reflexivity.
Defined.
