(* ===== verification/AllStores.v ===== *)
(** * The interleaved execution over stores (src/src/request/plan.rs, [RetryableAllStores])

    A request to all stores keeps one future per store in a [FuturesUnordered]; each holds a permit of the shared
    semaphore (Semaphores.v) while it executes, and gives it back before it sleeps.  Clients.v takes the handlers one after the
    other in an order of completion; here they are polled in any order.  Every schedule keeps to the permits, ends, and gives the
    results of that execution. *)

From stdpp Require Import gmap.
From S2P Require Import Prelude Keys Proto Errors Ranges Keyspaces Backoffs Requests Plans Semaphores LockPlans Clients.

Module AllStores.

Definition MULTI_STORES_CONCURRENCY : nat := 16.

Section all_stores.
(** The handlers are numbered as their stores are. *)
Context {R : Type} (execute : nat → nat → Result R) (draw : nat → nat → Z).
Context (key_errors : R → option (list Error)) (region_error : R → option RegionError.t).
Context (n : nat) (backoff0 : Backoff.t).
Context {Sem : Semaphore.Ops nat}.

Inductive Stage :=
| Acquiring (round : nat) (backoff : Backoff.t)      (** before [permits.acquire()]; asleep, from the second round on *)
| Queued (round : nat) (backoff : Backoff.t)         (** in [permits.acquire().await] *)
| Assigned (round : nat) (backoff : Backoff.t)       (** it has a permit and was not polled since *)
| Executing (round : nat) (backoff : Backoff.t)      (** [plan.execute().await] *)
| Finished (r : run R).

Definition users : Semaphore.Users (V:=Stage) := {|
  Semaphore.holds st := match st with Assigned _ _ | Executing _ _ => true | _ => false end;
  Semaphore.queued st := match st with Queued _ _ => true | _ => false end;
  Semaphore.assign st := match st with Queued i b => Assigned i b | st => st end
|}.

#[global] Instance users_lawful : Semaphore.Lawful users.
Proof. split; by intros []. Qed.

(** A round of [single_store_handler], after the permit is dropped. *)
Definition decide_round (i round : nat) (backoff : Backoff.t) : Stage :=
  match execute i round with
  | Ok resp =>
      match key_errors resp with
      | Some e => Finished (Done (Err (MultipleKeyErrors e)))
      | None =>
          match region_error resp with
          | Some e => Finished (Done (Err (ERegionError e)))
          | None => Finished (Done (Ok resp))
          end
      end
  | Err e =>
      if is_grpc_error e then
        match next_delay_duration backoff (draw i round) with
        | Wait _ backoff => Acquiring (S round) backoff
        | GiveUp _ => Finished (Done (Err e))
        | Panic => Finished Panicks
        end
      else Finished (Done (Err e))
  end.

(** [collected] are the handlers whose results were taken, in that order. *)
Record State := mkState {
  permits : Semaphore.t (K:=nat); tasks : gmap nat Stage; collected : list nat; results : list (Result R);
  ended : option (run (list (Result R)))
}.

Definition with_sys (sys : Semaphore.t (K:=nat) * gmap nat Stage) (s : State) : State :=
  mkState sys.1 sys.2 (collected s) (results s) (ended s).

Definition poll (i : nat) (s : State) : option State :=
  st ← tasks s !! i;
  match st with
  | Acquiring round b => Some (with_sys (Semaphore.acquire i (Executing round b) (Queued round b) (permits s, tasks s)) s)
  | Assigned round b => Some (with_sys (permits s, <[i := Executing round b]> (tasks s)) s)
  | Executing round b => Some (with_sys (Semaphore.release users (permits s, <[i := decide_round i round b]> (tasks s))) s)
  | Queued _ _ | Finished _ => None
  end.

(** [tasks.next()] yields the result of the handler [i]. *)
Definition collect (i : nat) (s : State) : option State :=
  st ← tasks s !! i;
  match st with
  | Finished r =>
      if bool_decide (i ∈ collected s) then None
      else match r with
           | Done res => Some (mkState (permits s) (tasks s) (collected s ++ [i]) (results s ++ [res]) (ended s))
           | Panicks => Some (mkState (permits s) (tasks s) (collected s ++ [i]) (results s) (Some Panicks))
           | Running => None
           end
  | _ => None
  end.

(** [tasks.next()] yields nothing. *)
Definition finish (s : State) : option State :=
  if (length (collected s) =? n)%nat
  then Some (mkState (permits s) (tasks s) (collected s) (results s) (Some (Done (Ok (results s))))) else None.

Inductive Event := Poll (i : nat) | Collect (i : nat) | Finish.

Definition step (s : State) (e : Event) : option State :=
  match ended s with
  | Some _ => None
  | None => match e with Poll i => poll i s | Collect i => collect i s | Finish => finish s end
  end.

(** [RetryableAllStores::execute], with the list of stores *)
Definition init : State :=
  mkState (Semaphore.new MULTI_STORES_CONCURRENCY) (list_to_map (map (λ i, (i, Acquiring 0 backoff0)) (seq 0 n))) [] [] None.

(** *** What a handler stands for *)

Definition task (fuel i : nat) : run R := single_store_handler (execute i) (draw i) key_errors region_error fuel 0 backoff0.

Definition meaning (i : nat) (st : Stage) : Prop :=
  match st with
  | Acquiring round b | Queued round b | Assigned round b | Executing round b =>
      ∀ fuel, task (round + fuel) i = single_store_handler (execute i) (draw i) key_errors region_error fuel round b
  | Finished r => r ≠ Running ∧ ∃ F, ∀ fuel, (F ≤ fuel)%nat → task fuel i = r
  end.

Lemma decide_round_meaning i round b :
  (∀ fuel, task (round + fuel) i = single_store_handler (execute i) (draw i) key_errors region_error fuel round b) →
  meaning i (decide_round i round b).
Proof.
  intros Hm. assert (∀ r, r ≠ Running → (∀ fuel, single_store_handler (execute i) (draw i) key_errors region_error (S fuel) round b = r) →
    meaning i (Finished r)) as Hfin.
  { intros r Hr Hs. split; [done|]. exists (S round). intros fuel Hf. replace fuel with (round + S (fuel - S round))%nat by lia. by rewrite Hm. }
  unfold decide_round. destruct (execute i round) as [resp|e] eqn:Ex.
  - destruct (key_errors resp) eqn:Ek; [|destruct (region_error resp) eqn:Er]; (apply Hfin; [done|]; intros fuel; cbn; by rewrite Ex, Ek, ?Er).
  - destruct (is_grpc_error e) eqn:Eg; [|apply Hfin; [done|]; intros fuel; cbn; by rewrite Ex, Eg].
    destruct (next_delay_duration b (draw i round)) as [|b'|ms b'] eqn:Ed;
      [apply Hfin; [done|]; intros fuel; cbn; by rewrite Ex, Eg, Ed ..|].
    intros fuel. replace (S round + fuel)%nat with (round + S fuel)%nat by lia. rewrite Hm. cbn. by rewrite Ex, Eg, Ed.
Qed.

(** *** The invariant *)

Context {laws : Semaphore.Laws Sem}.

Abbreviation done_with s := (λ i res, tasks s !! i = Some (Finished (Done res))).

Definition collected_ok (s : State) : Prop :=
  match ended s with
  | None => Forall2 (done_with s) (collected s) (results s)
  | Some (Done (Ok rs)) => rs = results s ∧ length (collected s) = n ∧ Forall2 (done_with s) (collected s) (results s)
  | Some Panicks => ∃ l i, collected s = l ++ [i] ∧ Forall2 (done_with s) l (results s) ∧ tasks s !! i = Some (Finished Panicks)
  | Some _ => False
  end.

Record inv (s : State) : Prop := {
  i_sys : Semaphore.inv users MULTI_STORES_CONCURRENCY 0 (permits s, tasks s);
  i_dom : ∀ i, is_Some (tasks s !! i) ↔ (i < n)%nat;
  i_meaning : ∀ i st, tasks s !! i = Some st → meaning i st;
  i_nodup : NoDup (collected s);
  i_below : ∀ i, i ∈ collected s → (i < n)%nat;
  i_collected : collected_ok s
}.

(** What a poll makes of its handler. *)
Definition after (i : nat) (st st' : Stage) : Prop :=
  match st with
  | Acquiring round b => st' = Executing round b ∨ st' = Queued round b
  | Assigned round b => st' = Executing round b
  | Executing round b => st' = decide_round i round b
  | Queued _ _ | Finished _ => False
  end.

Lemma decide_round_free i round b :
  Semaphore.holds users (decide_round i round b) = false ∧ Semaphore.queued users (decide_round i round b) = false.
Proof. unfold decide_round. repeat case_match; by split. Qed.

Lemma poll_spec s s' i : Semaphore.inv users MULTI_STORES_CONCURRENCY 0 (permits s, tasks s) → poll i s = Some s' →
  (collected s' = collected s ∧ results s' = results s ∧ ended s' = ended s) ∧
  Semaphore.inv users MULTI_STORES_CONCURRENCY 0 (permits s', tasks s') ∧
  ∃ st st', tasks s !! i = Some st ∧ after i st st' ∧
    ∀ j, match <[i := st']> (tasks s) !! j with
         | Some v => ∃ v', tasks s' !! j = Some v' ∧ Semaphore.assigned users v v'
         | None => tasks s' !! j = None
         end.
Proof.
  intros Hs. unfold poll. destruct (tasks s !! i) as [st|] eqn:Ei; [|done]. cbn [mbind option_bind].
  assert (∀ m : gmap nat Stage, ∀ j, match m !! j with Some v => ∃ v', m !! j = Some v' ∧ Semaphore.assigned users v v' | None => m !! j = None end) as Hrefl
    by (intros m j; destruct (m !! j); [|done]; eexists; split; [done | by left]).
  destruct st as [r b|r b|r b|r b|r]; intros [= <-]; (split; [done|]); cbn [permits tasks with_sys].
  - split; [rewrite <- surjective_pairing; by apply (Semaphore.inv_acquire users _ 0 (permits s) (tasks s) i _ (Executing r b) (Queued r b) Hs Ei)|]. unfold Semaphore.acquire. cbn [fst snd].
    destruct (Semaphore.ask i (permits s)) as [[] ?]; eexists _, _; (split; [done|]); (split; [|cbn [snd]; apply Hrefl]); [by left | by right].
  - split; [eapply Semaphore.inv_set; [exact Hs | exact Ei | done..]|]. eexists _, _. split; [done|]. split; [done | apply Hrefl].
  - destruct (decide_round_free i r b) as [Hh Hq].
    assert (Semaphore.inv users MULTI_STORES_CONCURRENCY 1 (permits s, <[i := decide_round i r b]> (tasks s))) as Hs1.
    { eapply Semaphore.inv_set; [exact Hs | exact Ei | done | done | by rewrite Hh]. }
    split; [rewrite <- surjective_pairing; exact (Semaphore.inv_release users _ 0 _ Hs1)|]. eexists _, _. split; [done|]. split; [done|].
    intros j. exact (Semaphore.releases_lookup users MULTI_STORES_CONCURRENCY 1 0 _ j Hs1).
Qed.

Lemma after_meaning i st st' v : meaning i st → after i st st' → Semaphore.assigned users st' v → meaning i v.
Proof.
  intros Hm Ha Hv. assert (meaning i st') as Hm'.
  { destruct st; cbn in Ha; try done; [destruct Ha; by subst | by subst | subst; by apply decide_round_meaning]. }
  destruct Hv as [->|[Hq ->]]; [done|]. by destruct st'.
Qed.

Lemma after_finished i st st' r : after i st st' → st ≠ Finished r.
Proof. by destruct st. Qed.

(** Results stay. *)
Lemma poll_finished s s' i j r : Semaphore.inv users MULTI_STORES_CONCURRENCY 0 (permits s, tasks s) → poll i s = Some s' →
  tasks s !! j = Some (Finished r) → tasks s' !! j = Some (Finished r).
Proof.
  intros Hs Hp Hj. destruct (poll_spec s s' i Hs Hp) as (_ & _ & st & st' & Hi & Ha & Hl). specialize (Hl j).
  destruct (decide (i = j)) as [->|]; [exfalso; rewrite Hi in Hj; injection Hj as ->; by apply (after_finished j _ st' r Ha)|].
  rewrite lookup_insert_ne, Hj in Hl by done. destruct Hl as (v' & -> & [->|[? _]]); done.
Qed.

Lemma poll_inv s s' i : ended s = None → inv s → poll i s = Some s' → inv s'.
Proof.
  intros He [Hs Hd Hm Hn Hb Hc] Hp. destruct (poll_spec s s' i Hs Hp) as ((Ec & Er & Ee) & Hs' & st & st' & Hi & Ha & Hl). split.
  - done.
  - intros j. rewrite <- Hd. specialize (Hl j). destruct (decide (i = j)) as [->|].
    + rewrite lookup_insert_eq in Hl. destruct Hl as (v' & -> & _). rewrite Hi. by split.
    + rewrite lookup_insert_ne in Hl by done. destruct (tasks s !! j); [destruct Hl as (v' & -> & _) | rewrite Hl]; split; eauto.
  - intros j v Hj. specialize (Hl j). destruct (decide (i = j)) as [->|].
    + rewrite lookup_insert_eq, Hj in Hl. destruct Hl as (v' & [= ->] & Hv). eapply after_meaning; eauto.
    + rewrite lookup_insert_ne in Hl by done. destruct (tasks s !! j) as [w|] eqn:Ej; rewrite Hj in Hl; [|done].
      destruct Hl as (v' & [= ->] & [->|[Hq ->]]); [by apply Hm|]. specialize (Hm j w Ej). by destruct w.
  - by rewrite Ec.
  - by rewrite Ec.
  - unfold collected_ok in *. rewrite Ee, He, Ec, Er in *. eapply Forall2_impl; [exact Hc|]. intros j res Hj.
    exact (poll_finished s s' i j _ Hs Hp Hj).
Qed.

Lemma collect_inv s s' i : ended s = None → inv s → collect i s = Some s' → inv s'.
Proof.
  intros He [Hs Hd Hm Hn Hb Hc]. unfold collect. destruct (tasks s !! i) as [st|] eqn:Ei; [|done]. cbn [mbind option_bind].
  destruct st as [| | | |r]; try done. case_bool_decide as Hi; [done|]. unfold collected_ok in Hc. rewrite He in Hc.
  assert (NoDup (collected s ++ [i]) ∧ ∀ j, j ∈ collected s ++ [i] → (j < n)%nat) as [Hn' Hb'].
  { split.
    - apply NoDup_app. split; [done|]. split; [|apply NoDup_singleton]. by intros j Hj ->%list_elem_of_singleton.
    - intros j [?| ->%list_elem_of_singleton]%elem_of_app; [by apply Hb|]. apply Hd. by eexists. }
  destruct r as [| |res]; [done|..]; intros [= <-]; split; try done; unfold collected_ok; cbn.
  - by exists (collected s), i.
  - rewrite He. apply Forall2_app; [exact Hc|]. by constructor.
Qed.

Lemma stores_step_inv s s' e : inv s → step s e = Some s' → inv s'.
Proof.
  intros Hi. unfold step. destruct (ended s) eqn:He; [done|]. destruct e; [by apply poll_inv | by apply collect_inv|].
  unfold finish. destruct (Nat.eqb_spec (length (collected s)) n); [|done]. intros [= <-].
  destruct Hi as [Hs Hd Hm Hn Hb Hc]. split; try done. unfold collected_ok in *. rewrite He in Hc. by cbn.
Qed.

Lemma init_lookup i : tasks init !! i = if decide (i < n)%nat then Some (Acquiring 0 backoff0) else None.
Proof.
  unfold init. cbn [tasks]. case_decide as Hi.
  - apply elem_of_list_to_map_1; [rewrite map_map, map_id; apply NoDup_seq|]. apply list_elem_of_In, in_map_iff. exists i.
    split; [done|]. apply in_seq. lia.
  - apply not_elem_of_list_to_map_1. rewrite map_map, map_id. intros Hin%list_elem_of_In%in_seq. lia.
Qed.

Lemma stores_init_inv : inv init.
Proof.
  split.
  - apply (Semaphore.inv_new users). intros q v. rewrite init_lookup. case_decide; [|done]. by intros [= <-].
  - intros i. rewrite init_lookup. case_decide; by split.
  - intros i st. rewrite init_lookup. case_decide; [|done]. by intros [= <-] fuel.
  - constructor.
  - by intros i ?%elem_of_nil.
  - constructor.
Qed.

Lemma stores_run_inv es s : run_steps step init es = Some s → inv s.
Proof.
  enough (∀ s0, inv s0 → run_steps step s0 es = Some s → inv s) as H by apply H, stores_init_inv.
  induction es as [|e es IH]; intros s0 H0; [by intros [= <-]|]. rewrite run_steps_cons.
  destruct (step s0 e) as [s1|] eqn:E; [|done]. apply IH. by eapply stores_step_inv.
Qed.
(** *** Results *)

Lemma collected_le s : inv s → (length (collected s) ≤ n)%nat.
Proof. intros Hi. apply taken_length; [apply i_nodup, Hi | apply (i_below s Hi)]. Qed.

(** The order in which the handlers ended. *)
Definition completed (s : State) : list nat := continued (collected s) n.

Lemma completed_all s : inv s → completed s ≡ₚ seq 0 n.
Proof. intros Hi. apply continued_all; [apply i_nodup, Hi | apply (i_below s Hi)]. Qed.

Lemma join_taken s l rs : inv s → Forall2 (done_with s) l rs →
  ∃ F, ∀ fuel tl, (F ≤ fuel)%nat → join_all (map (task fuel) l ++ tl) =
    match join_all tl with Done (Ok rs') => Done (Ok (rs ++ rs')) | other => other end.
Proof.
  intros Hi. induction 1 as [|i res l rs Hd _ (F & IH)]; [exists 0%nat; intros fuel tl _; cbn; by destruct (join_all tl) as [| |[]]|].
  destruct (i_meaning s Hi i _ Hd) as [_ [F' HF']]. exists (Nat.max F F'). intros fuel tl Hf. cbn. rewrite HF', IH by lia.
  by destruct (join_all tl) as [| |[]].
Qed.

(** The result is that of the handlers one after the other. *)
Lemma ended_sequential s r : inv s → ended s = Some r → r ≠ Running ∧
  ∃ F, ∀ fuel, (F ≤ fuel)%nat → join_all (map (task fuel) (completed s)) = r.
Proof.
  intros Hi He. pose proof (i_collected s Hi) as Hc. unfold collected_ok in Hc. rewrite He in Hc. destruct r as [| |[rs|e]]; try done.
  - split; [done|]. destruct Hc as (l & i & El & HF & Hp). destruct (join_taken s l _ Hi HF) as [F IH].
    destruct (i_meaning s Hi i _ Hp) as [_ [F' HF']]. exists (Nat.max F F'). intros fuel Hf. unfold completed, continued.
    rewrite El, <- app_assoc, map_app, IH by lia. cbn. by rewrite HF' by lia.
  - split; [done|]. destruct Hc as (-> & Hlen & HF). destruct (join_taken s _ _ Hi HF) as [F IH]. exists F. intros fuel Hf.
    unfold completed. rewrite continued_full by (done || apply i_nodup, Hi || apply (i_below s Hi)).
    rewrite <- (app_nil_r (map _ _)), IH by lia. cbn. by rewrite app_nil_r.
Qed.

(** *** Termination *)

Definition weight (st : Stage) : nat :=
  match st with
  | Acquiring _ b => 4 * attempts_left b + 4
  | Queued _ b => 4 * attempts_left b + 3
  | Assigned _ b => 4 * attempts_left b + 2
  | Executing _ b => 4 * attempts_left b + 1
  | Finished _ => 0
  end.
Definition measure (s : State) : nat :=
  total (λ _ st, weight st) (tasks s) + (n - length (collected s)) + match ended s with None => 1 | Some _ => 0 end.

Lemma after_weight i st st' : after i st st' → (weight st' < weight st)%nat.
Proof.
  destruct st as [r b|r b|r b|r b|r]; cbn; try done; [intros [-> | ->]; cbn; lia | intros ->; cbn; lia|]. intros ->.
  unfold decide_round. destruct (execute i r) as [resp|e]; [repeat case_match; cbn; lia|]. destruct (is_grpc_error e); [|cbn; lia].
  destruct (next_delay_duration b (draw i r)) as [| |ms b'] eqn:E; [cbn; lia..|]. apply wait_uses_attempt in E as [E _]. cbn. lia.
Qed.

Lemma step_closer s s' e : inv s → step s e = Some s' → (measure s' < measure s)%nat.
Proof.
  intros Hi Hst. pose proof (stores_step_inv s s' e Hi Hst) as Hi'. revert Hst. unfold step, measure.
  destruct (ended s) eqn:He; [done|]. destruct e as [i|i|].
  - intros Hp. destruct (poll_spec s s' i (i_sys s Hi) Hp) as ((-> & _ & ->) & _ & st & st' & Ei & Ha & Hl).
    rewrite He. apply after_weight in Ha. pose proof (total_update (λ _ st, weight st) (tasks s) i st st' Ei) as Hu. cbn in Hu.
    assert (total (λ _ st, weight st) (tasks s') ≤ total (λ _ st, weight st) (<[i := st']> (tasks s)))%nat; [|lia].
    apply total_le. intros j. specialize (Hl j). destruct (<[i := st']> (tasks s) !! j) as [v|]; [|done].
    destruct Hl as (v' & Hv & [->|[Hq ->]]); eexists; (split; [exact Hv|]); [done|]. destruct v; cbn in *; try done; lia.
  - pose proof (collected_le s' Hi') as Hle. revert Hle. unfold collect. destruct (tasks s !! i) as [[| | | |r]|]; try done. cbn [mbind option_bind].
    case_bool_decide; [done|]. intros Hle. destruct r; [done|..]; intros [= <-]; cbn in *; rewrite length_app in *; cbn in *; rewrite ?He; lia.
  - unfold finish. case_match; [|done]. intros [= <-]. cbn. lia.
Qed.

Lemma stores_run_bounded es : ∀ s s', inv s → run_steps step s es = Some s' → (length es + measure s' ≤ measure s)%nat.
Proof.
  induction es as [|e es IH]; intros s s' Hi; [intros [= <-]; cbn; lia|]. rewrite run_steps_cons.
  destruct (step s e) as [s1|] eqn:E; [|done]. cbn [mbind option_bind]. intros Hr.
  pose proof (IH s1 s' (stores_step_inv _ _ _ Hi E) Hr). pose proof (step_closer _ _ _ Hi E). cbn [length]. lia.
Qed.

Lemma init_measure : measure init = (n * (4 * attempts_left backoff0 + 4) + n + 1)%nat.
Proof.
  unfold measure. cbn [collected ended init]. enough (∀ l, NoDup l → total (λ _ st, weight st)
    (list_to_map (map (λ i : nat, (i, Acquiring 0 backoff0)) l) : gmap nat Stage) = (length l * (4 * attempts_left backoff0 + 4))%nat) as H.
  { unfold init. cbn [tasks]. rewrite H, length_seq by apply NoDup_seq. cbn. lia. }
  induction 1 as [|i l Hi _ IH]; [done|]. cbn. rewrite total_fresh; [cbn in *; lia|].
  apply not_elem_of_list_to_map_1. by rewrite map_map, map_id.
Qed.

(** *** Progress *)

Lemma stores_holder_moves s i st : ended s = None → tasks s !! i = Some st → Semaphore.holds users st = true → ∃ e s', step s e = Some s'.
Proof. intros He Hi Hh. exists (Poll i). unfold step, poll. rewrite He, Hi. cbn. destruct st; eauto; done. Qed.

Lemma stores_live_moves s i st : ended s = None → inv s → tasks s !! i = Some st → (∀ r, st ≠ Finished r) → ∃ e s', step s e = Some s'.
Proof.
  intros He Hv Hi Hf. pose proof (i_sys s Hv) as Hs.
  destruct st as [r b|r b|r b|r b|r]; [| |by eapply stores_holder_moves | by eapply stores_holder_moves | by destruct (Hf r)].
  - exists (Poll i). unfold step, poll. rewrite He, Hi. cbn. eauto.
  - destruct (Semaphore.inv_waiters _ _ _ _ Hs i) as [_ Hw]. specialize (Hw (ex_intro _ _ (conj Hi eq_refl))). cbn in Hw.
    pose proof (Semaphore.inv_eager _ _ _ _ Hs) as Hea. cbn in Hea.
    assert (Semaphore.available (permits s) = 0%nat) as H0 by (apply Hea; intros E; rewrite E in Hw; by apply elem_of_nil in Hw).
    destruct (Semaphore.holders_pos users (tasks s)) as (q & v & Hq & Hh);
      [pose proof (Semaphore.inv_permits _ _ _ _ Hs) as Hpm; cbn in Hpm; unfold MULTI_STORES_CONCURRENCY in Hpm; lia|].
    by eapply stores_holder_moves.
Qed.

Lemma stores_run_moves s : inv s → ended s = None → ∃ e s', step s e = Some s'.
Proof.
  intros Hi He. destruct (Nat.eq_dec (length (collected s)) n) as [E|E].
  { exists Finish. unfold step, finish. rewrite He, E, Nat.eqb_refl. eauto. }
  destruct (task_left (collected s) n) as (i & Hin & Hc); [apply i_nodup, Hi | apply (i_below s Hi) | done|].
  destruct (proj2 (i_dom s Hi i) Hin) as [st Hst]. destruct st as [r b|r b|r b|r b|r];
    [by apply (stores_live_moves s i _ He Hi Hst) .. |]. exists (Collect i). unfold step, collect. rewrite He, Hst. cbn. rewrite bool_decide_eq_false_2 by done.
  pose proof (proj1 (i_meaning s Hi i _ Hst)). destruct r; eauto; done.
Qed.
End all_stores.
End AllStores.

(** ** What a request to all stores guarantees *)

Section stores.
Context {St : Type} (stores : list St).

Definition at_store {A} (f : St → nat → A) (unused : A) (i : nat) : nat → A :=
  match stores !! i with Some st => f st | None => λ _, unused end.

(** The stores in an order of their numbers; other lists are left as they are. *)
Definition in_order (ord : list nat) (l : list St) : list St :=
  if (length l =? length stores)%nat then omap (λ i, l !! i) ord else l.

Lemma in_order_all ord l : ord ≡ₚ seq 0 (length stores) → in_order ord l ≡ₚ l.
Proof.
  intros Ho. unfold in_order. destruct (Nat.eqb_spec (length l) (length stores)) as [E|]; [|done].
  rewrite Ho, <- E. by rewrite omap_lookup_seq.
Qed.
End stores.

Definition stores_in_flight {R} {Sem : Semaphore.Ops nat} (s : AllStores.State (R:=R)) : nat :=
  total (λ _ st, Nat.b2n match st with AllStores.Executing _ _ => true | _ => false end) (AllStores.tasks s).

Lemma stores_in_flight_holders {R} {Sem : Semaphore.Ops nat} (s : AllStores.State (R:=R)) :
  (stores_in_flight s ≤ Semaphore.holders AllStores.users (AllStores.tasks s))%nat.
Proof.
  unfold stores_in_flight, Semaphore.holders. induction (AllStores.tasks s) as [|k st m Hk IH] using map_ind; [done|].
  rewrite !total_fresh by done. apply Nat.add_le_mono; [destruct st; cbn; lia | exact IH].
Qed.

(** A request to all stores, in every schedule of its handlers and for every semaphore with the documented behaviour: at most [MULTI_STORES_CONCURRENCY] requests are with the
    stores; the schedule has a bounded length; and either something can happen, or the request has ended with the result of
    the handlers taken one after the other in some order of the stores. *)
Theorem all_stores_schedules {St R} (stores : list St) (execute : St → nat → Result R) (draw : St → nat → Z) unused key_errors region_error
    backoff {Sem : Semaphore.Ops nat} {laws : Semaphore.Laws Sem} es s (n := length stores) (ex := at_store stores execute unused) (dr := at_store stores draw 0) :
  run_steps (AllStores.step ex dr key_errors region_error n) (AllStores.init n backoff) es = Some s →
  (stores_in_flight s ≤ AllStores.MULTI_STORES_CONCURRENCY)%nat ∧
  (length es ≤ n * (4 * attempts_left backoff + 4) + n + 1)%nat ∧
  ((∃ e s', AllStores.step ex dr key_errors region_error n s e = Some s') ∨
   ∃ r, AllStores.ended s = Some r ∧ r ≠ Running ∧ ∃ completed : list St → list St, (∀ l, completed l ≡ₚ l) ∧
     ∃ F, ∀ fuel, (F ≤ fuel)%nat →
       all_stores_execute (Ok stores) completed (λ st, single_store_handler (execute st) (draw st) key_errors region_error fuel 0 backoff) = r).
Proof.
  intros Hr. pose proof (AllStores.stores_run_inv ex dr key_errors region_error n backoff es s Hr) as Hi. split_and!.
  - pose proof (stores_in_flight_holders s). pose proof (Semaphore.inv_permits _ _ _ _ (AllStores.i_sys _ _ _ _ _ _ s Hi)) as Hp. cbn in Hp. lia.
  - rewrite <- (AllStores.init_measure (R:=R) n backoff).
    pose proof (AllStores.stores_run_bounded ex dr key_errors region_error n backoff es _ s (AllStores.stores_init_inv _ _ _ _ _ _) Hr). lia.
  - destruct (AllStores.ended s) as [r|] eqn:He; [right|left; by apply (AllStores.stores_run_moves ex dr key_errors region_error n backoff)].
    destruct (AllStores.ended_sequential _ _ _ _ _ _ s r Hi He) as (Hrun & F & HF). exists r. split; [done|]. split; [done|].
    pose proof (AllStores.completed_all _ _ _ _ _ _ s Hi) as Ho.
    exists (in_order stores (AllStores.completed n s)). split; [intros l; by apply in_order_all|]. exists F. intros fuel Hf.
    rewrite <- (HF fuel Hf). unfold all_stores_execute, in_order. rewrite Nat.eqb_refl. f_equal.
    assert (∀ i, i ∈ AllStores.completed n s → (i < length stores)%nat) as Hb by (intros i; rewrite Ho; intros ?%elem_of_seq; lia).
    unfold AllStores.task. clear -Hb. induction (AllStores.completed n s) as [|i ord IH]; [done|]. cbn.
    destruct (lookup_lt_is_Some_2 stores i) as [st Est]; [apply Hb; by apply elem_of_cons; left|]. unfold ex, dr, at_store at 1 2. rewrite Est. cbn.
    f_equal. apply IH. intros j Hj. apply Hb. by apply elem_of_cons; right.
Qed.

(** More fuel changes nothing. *)
Lemma handler_fuel {R} (execute : nat → Result R) draw key_errors region_error : ∀ fuel fuel' i b, (fuel ≤ fuel')%nat →
  single_store_handler execute draw key_errors region_error fuel i b ≠ Running →
  single_store_handler execute draw key_errors region_error fuel' i b =
  single_store_handler execute draw key_errors region_error fuel i b.
Proof.
  induction fuel as [|fuel IH]; intros fuel' i b Hf; [done|]. destruct fuel' as [|fuel']; [lia|]. cbn.
  destruct (execute i); [done|]. destruct (is_grpc_error _); [|done]. destruct (next_delay_duration b (draw i)); [done..|].
  intros Hr. apply IH; [lia | done].
Qed.

(** [unsafe_destroy_range] in every schedule: a schedule that has ended gives a result for every store, and their merge is
    a success exactly when every store destroyed the range. *)
Theorem destroy_schedules {St} (stores : list St)
    (execute : UnsafeDestroyRangeRequest.t → St → nat → Result UnsafeDestroyRangeResponse.t) draw req unused
    {Sem : Semaphore.Ops nat} {laws : Semaphore.Laws Sem} es s r (n := length stores)
    (ke := λ resp, str_key_errors (UnsafeDestroyRangeResponse.error resp)) :
  run_steps (AllStores.step (at_store stores (execute req) unused) (at_store stores draw 0) ke UnsafeDestroyRangeResponse.region_error n)
    (AllStores.init n DEFAULT_STORE_BACKOFF) es = Some s →
  AllStores.ended s = Some r →
  ∃ rs, r = Done (Ok rs) ∧ length rs = n ∧ (collect_destroy rs = Ok () ↔ ∀ st, st ∈ stores → destroyed (execute req st)).
Proof.
  intros Hr He. destruct (all_stores_schedules stores (execute req) draw unused ke _ _ es s Hr)
    as (_ & _ & [(e & s' & Hst)|(r' & He' & _ & completed & Hc & F & HF)]).
  { unfold AllStores.step in Hst. by rewrite He in Hst. }
  rewrite He in He'. injection He' as <-. set (fuel := Nat.max F (S (attempts_left DEFAULT_STORE_BACKOFF))).
  specialize (HF fuel ltac:(lia)). unfold all_stores_execute in HF.
  destruct (join_all_done (destroy_task execute draw req) (completed stores)) as (rs & E & HF2).
  { intros st. destruct (destroy_task_ends execute draw req st) as (x & ? & _). eauto. }
  assert (map (λ st, single_store_handler (execute req st) (draw st) ke UnsafeDestroyRangeResponse.region_error fuel 0 DEFAULT_STORE_BACKOFF)
    (completed stores) = map (destroy_task execute draw req) (completed stores)) as Em.
  { apply map_ext. intros st. destruct (destroy_task_ends execute draw req st) as (x & Ex & _).
    apply (handler_fuel _ _ _ _ (S (attempts_left DEFAULT_STORE_BACKOFF)) fuel); [lia|]. change (destroy_task execute draw req st ≠ Running). by rewrite Ex. }
  rewrite Em, E in HF. exists rs. split; [done|]. split.
  - rewrite <- (Forall2_length _ _ _ HF2). apply Permutation_length, Hc.
  - destruct (destroy_results execute draw req stores _ rs (Hc stores) HF2) as [[(e & ->) Hl] | [-> Hl]]; by split.
Qed.

(** Two stores; the first is not reached at first, and the second answers while it sleeps. *)
Definition destroy_schedule : list AllStores.Event :=
  let poll := AllStores.Poll in let take := AllStores.Collect in
  [poll 0; poll 1; poll 0; poll 1; take 1; poll 0; poll 0; take 0; AllStores.Finish]%nat.

Lemma destroy_schedules_witness : ∃ rs,
  collect_destroy rs = Ok () ∧ length rs = 2%nat.
Proof.
  destruct (destroy_schedules [1; 2] (λ _ st i, if (st =? 1) && (i =? 0)%nat then Err (Grpc EmptyString) else Ok (UnsafeDestroyRangeResponse.mk None EmptyString))
    (λ _ _, 0) (new_unsafe_destroy_range_request BoundRange.from_range_full) (Err Unimplemented)
    (Sem := Semaphore.fifo nat) (laws := Semaphore.fifo_laws nat) destroy_schedule _ _
    ltac:(vm_compute; reflexivity) ltac:(reflexivity)) as (rs & _ & Hlen & Hd).
  exists rs. split; [|done]. apply Hd. intros st [-> | [-> | []%elem_of_nil]%elem_of_cons]%elem_of_cons.
  - exists 1%nat, (UnsafeDestroyRangeResponse.mk None EmptyString). split_and!; try done; [vm_compute; lia|].
    intros j Hj. assert (j = 0%nat) as -> by lia. by exists (Grpc EmptyString).
  - exists 0%nat, (UnsafeDestroyRangeResponse.mk None EmptyString). split_and!; try done; [lia|]. intros j Hj. lia.
Defined.
