(* ===== verification/Contexts.v ===== *)
(** * Request contexts (src/src/request_context.rs, src/src/interceptor.rs, src/src/store/{request,mod}.rs,
      src/src/request/plan_builder.rs, and the preparation of an attempt in src/src/request/plan.rs)

    Every RPC carries a [kvrpcpb::Context].  A client's [RequestContext] writes its settings into it,
    [PlanBuilder::new] the API version and a default source, and each attempt the region, the peer, the
    read flags, the source label and the resource group tag before the interceptors run.

    A request is its context, its label and the implementation of the trait it has; the rest of the
    message is not touched.  The messages [resource_manager::Consumption] are an abstract type. *)

From S2P Require Import Prelude Keys Proto Errors Regions Keyspaces Plans ReadRouting.

Inductive CommandPriority := Low | Normal | High.
Definition priority_into (p : CommandPriority) : Z := match p with Normal => 0 | Low => 1 | High => 2 end.
Inductive DiskFullOpt := NotAllowedOnFull | AllowedOnAlmostFull | AllowedOnAlreadyFull.
Definition disk_full_into (d : DiskFullOpt) : Z :=
  match d with NotAllowedOnFull => 0 | AllowedOnAlmostFull => 1 | AllowedOnAlreadyFull => 2 end.
Inductive ReplicaKind := KindLeader | KindFollower | KindLearner.

(** [kvrpcpb::ResourceControlContext] and the fields of [kvrpcpb::Context] that the client writes *)
Module ResourceControl.
Record t {Consumption : Type} := mk { resource_group_name : string; penalty : option Consumption; override_priority : Z }.
Arguments t Consumption : clear implicits.
Arguments mk {Consumption} _ _ _.
Definition default {Consumption} : t Consumption := mk "" None 0.
End ResourceControl.

Module KvContext.
Record t {Consumption : Type} := mk {
  region_id : Z; region_epoch : option RegionEpoch.t; peer : option Peer.t; priority : Z; replica_read : bool;
  stale_read : bool; resource_group_tag : list Z; disk_full_opt : Z; is_retry_request : bool; api_version : ApiVersion;
  request_source : string; txn_source : Z; resource_control_context : option (ResourceControl.t Consumption);
  trace_id : list Z; trace_control_flags : Z
}.
Arguments t Consumption : clear implicits.
Arguments mk {Consumption} _ _ _ _ _ _ _ _ _ _ _ _ _ _ _.
Definition default {Consumption} : t Consumption :=
  mk 0 None None 0 false false [] 0 false V1 "" 0 None [] 0.

Section setters.
Context {Consumption : Type} (c : t Consumption).
Definition set_region (id : Z) (epoch : option RegionEpoch.t) (p : option Peer.t) : t Consumption :=
  mk id epoch p (priority c) (replica_read c) (stale_read c) (resource_group_tag c) (disk_full_opt c) (is_retry_request c)
    (api_version c) (request_source c) (txn_source c) (resource_control_context c) (trace_id c) (trace_control_flags c).
Definition set_priority (v : Z) : t Consumption :=
  mk (region_id c) (region_epoch c) (peer c) v (replica_read c) (stale_read c) (resource_group_tag c) (disk_full_opt c) (is_retry_request c)
    (api_version c) (request_source c) (txn_source c) (resource_control_context c) (trace_id c) (trace_control_flags c).
Definition set_replica_read (v : bool) : t Consumption :=
  mk (region_id c) (region_epoch c) (peer c) (priority c) v (stale_read c) (resource_group_tag c) (disk_full_opt c) (is_retry_request c)
    (api_version c) (request_source c) (txn_source c) (resource_control_context c) (trace_id c) (trace_control_flags c).
Definition set_stale_read (v : bool) : t Consumption :=
  mk (region_id c) (region_epoch c) (peer c) (priority c) (replica_read c) v (resource_group_tag c) (disk_full_opt c) (is_retry_request c)
    (api_version c) (request_source c) (txn_source c) (resource_control_context c) (trace_id c) (trace_control_flags c).
Definition set_resource_group_tag (v : list Z) : t Consumption :=
  mk (region_id c) (region_epoch c) (peer c) (priority c) (replica_read c) (stale_read c) v (disk_full_opt c) (is_retry_request c)
    (api_version c) (request_source c) (txn_source c) (resource_control_context c) (trace_id c) (trace_control_flags c).
Definition set_disk_full_opt (v : Z) : t Consumption :=
  mk (region_id c) (region_epoch c) (peer c) (priority c) (replica_read c) (stale_read c) (resource_group_tag c) v (is_retry_request c)
    (api_version c) (request_source c) (txn_source c) (resource_control_context c) (trace_id c) (trace_control_flags c).
Definition set_is_retry_request (v : bool) : t Consumption :=
  mk (region_id c) (region_epoch c) (peer c) (priority c) (replica_read c) (stale_read c) (resource_group_tag c) (disk_full_opt c) v
    (api_version c) (request_source c) (txn_source c) (resource_control_context c) (trace_id c) (trace_control_flags c).
Definition set_api_version (v : ApiVersion) : t Consumption :=
  mk (region_id c) (region_epoch c) (peer c) (priority c) (replica_read c) (stale_read c) (resource_group_tag c) (disk_full_opt c) (is_retry_request c)
    v (request_source c) (txn_source c) (resource_control_context c) (trace_id c) (trace_control_flags c).
Definition set_request_source (v : string) : t Consumption :=
  mk (region_id c) (region_epoch c) (peer c) (priority c) (replica_read c) (stale_read c) (resource_group_tag c) (disk_full_opt c) (is_retry_request c)
    (api_version c) v (txn_source c) (resource_control_context c) (trace_id c) (trace_control_flags c).
Definition set_txn_source (v : Z) : t Consumption :=
  mk (region_id c) (region_epoch c) (peer c) (priority c) (replica_read c) (stale_read c) (resource_group_tag c) (disk_full_opt c) (is_retry_request c)
    (api_version c) (request_source c) v (resource_control_context c) (trace_id c) (trace_control_flags c).
Definition set_trace_id (v : list Z) : t Consumption :=
  mk (region_id c) (region_epoch c) (peer c) (priority c) (replica_read c) (stale_read c) (resource_group_tag c) (disk_full_opt c) (is_retry_request c)
    (api_version c) (request_source c) (txn_source c) (resource_control_context c) v (trace_control_flags c).
Definition set_trace_control_flags (v : Z) : t Consumption :=
  mk (region_id c) (region_epoch c) (peer c) (priority c) (replica_read c) (stale_read c) (resource_group_tag c) (disk_full_opt c) (is_retry_request c)
    (api_version c) (request_source c) (txn_source c) (resource_control_context c) (trace_id c) v.
(** [resource_control_context.get_or_insert(..)], then [f] *)
Definition update_resource_control (f : ResourceControl.t Consumption → ResourceControl.t Consumption) : t Consumption :=
  mk (region_id c) (region_epoch c) (peer c) (priority c) (replica_read c) (stale_read c) (resource_group_tag c) (disk_full_opt c) (is_retry_request c)
    (api_version c) (request_source c) (txn_source c)
    (Some (f (match resource_control_context c with Some r => r | None => ResourceControl.default end))) (trace_id c) (trace_control_flags c).
Definition set_resource_group_name (v : string) : t Consumption :=
  update_resource_control (λ r, ResourceControl.mk v (ResourceControl.penalty r) (ResourceControl.override_priority r)).
Definition set_penalty (v : Consumption) : t Consumption :=
  update_resource_control (λ r, ResourceControl.mk (ResourceControl.resource_group_name r) (Some v) (ResourceControl.override_priority r)).
Definition set_override_priority (v : Z) : t Consumption :=
  update_resource_control (λ r, ResourceControl.mk (ResourceControl.resource_group_name r) (ResourceControl.penalty r) v).
End setters.
End KvContext.

(** ** Interceptors *)

Record RpcContextInfo := mkInfo {
  info_label : string; info_attempt : nat; info_region_id : option Z; info_store_id : option Z;
  info_replica_kind : option ReplicaKind; info_replica_read : bool; info_stale_read : bool
}.
Definition is_retry (i : RpcContextInfo) : bool := (0 <? info_attempt i)%nat.

Section contexts.
Context {Consumption : Type}.
#[local] Abbreviation KvContext := (KvContext.t Consumption).

Definition RpcInterceptorFunc : Type := RpcContextInfo → KvContext → KvContext.
(** An implementation of the trait with its [name] and [wrap], or a chain ([as_chain]). *)
Inductive RpcInterceptor :=
| Leaf (name : string) (wrap : RpcInterceptorFunc → RpcInterceptorFunc)
| Chain (chain : list RpcInterceptor).
(** [FnRpcInterceptor], with the default [wrap] *)
Definition rpc_interceptor (name : string) (f : RpcInterceptorFunc) : RpcInterceptor :=
  Leaf name (λ next info ctx, next info (f info ctx)).
(** [override_priority_if_unset] *)
Definition override_priority_if_unset (v : Z) : RpcInterceptor :=
  rpc_interceptor "resource_control.override_priority_if_unset" (λ _ ctx,
    match KvContext.resource_control_context ctx with
    | None => ctx
    | Some r =>
        if String.eqb (ResourceControl.resource_group_name r) "" then ctx
        else if ResourceControl.override_priority r =? 0 then KvContext.set_override_priority ctx v else ctx
    end).
Definition interceptor_name (it : RpcInterceptor) : string :=
  match it with Leaf name _ => name | Chain _ => "interceptor-chain" end.

(** [chain.remove(pos)] at the first interceptor of this name *)
Fixpoint remove_named (name : string) (chain : list RpcInterceptor) : list RpcInterceptor :=
  match chain with
  | [] => []
  | x :: rest => if String.eqb (interceptor_name x) name then rest else x :: remove_named name rest
  end.
Fixpoint link (it : RpcInterceptor) (chain : list RpcInterceptor) : list RpcInterceptor :=
  match it with
  | Chain inner =>
      (fix link_all (inner chain : list RpcInterceptor) := match inner with
        | [] => chain
        | x :: inner => link_all inner (link x chain)
        end) inner chain
  | Leaf name _ => remove_named name chain ++ [it]
  end.
Fixpoint wrap (it : RpcInterceptor) (next : RpcInterceptorFunc) : RpcInterceptorFunc :=
  match it with
  | Leaf _ w => w next
  | Chain inner =>
      (fix wrap_all (inner : list RpcInterceptor) := match inner with
        | [] => next
        | x :: inner => wrap x (wrap_all inner)
        end) inner
  end.
Definition chain_wrap (chain : list RpcInterceptor) (next : RpcInterceptorFunc) : RpcInterceptorFunc := foldr wrap next chain.
Definition chain_apply (chain : list RpcInterceptor) (info : RpcContextInfo) (ctx : KvContext) : KvContext :=
  chain_wrap chain (λ _ ctx, ctx) info ctx.
Definition chain_rpc_interceptors (first : RpcInterceptor) (rest : list RpcInterceptor) : RpcInterceptor :=
  Chain (foldl (λ chain it, link it chain) (link first []) rest).

(** ** [RequestContext] *)
Definition ResourceGroupTagger : Type := RpcContextInfo → KvContext → list Z.
Record RequestContext := mkRequestContext {
  rc_request_source : option string;
  rc_resource_group_tag : option (list Z);
  rc_resource_group_name : option string;
  rc_priority : option CommandPriority;
  rc_disk_full_opt : option DiskFullOpt;
  rc_txn_source : option Z;
  rc_trace_id : option (list Z);
  rc_trace_control_flags : option Z;
  rc_resource_control_penalty : option Consumption;
  rc_resource_control_override_priority : option Z;
  resource_group_tagger : option ResourceGroupTagger;
  rpc_interceptors : list RpcInterceptor
}.
Definition RequestContext_default : RequestContext :=
  mkRequestContext (Some "unknown"%string) None None None None None None None None None None [].

(** The [with_] methods. *)
Inductive Setting :=
| RequestSource (source : string) | ResourceGroupTag (tag : list Z) | ResourceGroupName (name : string)
| Priority (priority : CommandPriority) | DiskFull (disk_full_opt : DiskFullOpt) | TxnSource (txn_source : Z)
| TraceId (trace_id : list Z) | TraceControlFlags (flags : Z) | ResourceControlPenalty (penalty : Consumption)
| OverridePriority (override_priority : Z) | Tagger (tagger : ResourceGroupTagger)
| Interceptors (interceptors : list RpcInterceptor) | AddInterceptor (interceptor : RpcInterceptor).
Definition context_with (s : Setting) (c : RequestContext) : RequestContext :=
  let '(mkRequestContext source tag name prio disk txn trace flags penalty over tagger chain) := c in
  match s with
  | RequestSource v => mkRequestContext (Some v) tag name prio disk txn trace flags penalty over tagger chain
  | ResourceGroupTag v => mkRequestContext source (Some v) name prio disk txn trace flags penalty over tagger chain
  | ResourceGroupName v => mkRequestContext source tag (Some v) prio disk txn trace flags penalty over tagger chain
  | Priority v => mkRequestContext source tag name (Some v) disk txn trace flags penalty over tagger chain
  | DiskFull v => mkRequestContext source tag name prio (Some v) txn trace flags penalty over tagger chain
  | TxnSource v => mkRequestContext source tag name prio disk (Some v) trace flags penalty over tagger chain
  | TraceId v => mkRequestContext source tag name prio disk txn (Some v) flags penalty over tagger chain
  | TraceControlFlags v => mkRequestContext source tag name prio disk txn trace (Some v) penalty over tagger chain
  | ResourceControlPenalty v => mkRequestContext source tag name prio disk txn trace flags (Some v) over tagger chain
  | OverridePriority v => mkRequestContext source tag name prio disk txn trace flags penalty (Some v) tagger chain
  | Tagger v => mkRequestContext source tag name prio disk txn trace flags penalty over (Some v) chain
  | Interceptors v => mkRequestContext source tag name prio disk txn trace flags penalty over tagger v
  | AddInterceptor v => mkRequestContext source tag name prio disk txn trace flags penalty over tagger (link v chain)
  end.

(** ** Requests *)

(** The implementations of the trait [Request]: the ones of the two macros, and
    [GetHealthFeedbackRequest], which keeps the defaults of some methods. *)
Inductive RequestImpl := Macro | HealthFeedback.
Record Request := mkReq { impl : RequestImpl; label : string; context : option KvContext }.
(** [context_mut()], then [f] *)
Definition with_context (f : KvContext → KvContext) (r : Request) : Request :=
  mkReq (impl r) (label r) (Some (f (default KvContext.default (context r)))).

Definition set_leader (leader : RegionWithLeader.t) (r : Request) : Result unit * Request :=
  match impl r with
  | HealthFeedback => (Ok (), r)
  | Macro =>
      let r := with_context id r in
      match RegionWithLeader.leader leader with
      | None => (Err (LeaderNotFound (RegionWithLeader.ver_id leader)), r)
      | Some leader_peer =>
          let region := RegionWithLeader.region leader in
          (Ok (), with_context (λ c, KvContext.set_region c (Region.id region) (Region.region_epoch region) (Some leader_peer)) r)
      end
  end.
Definition set_api_version (v : ApiVersion) (r : Request) : Request := with_context (λ c, KvContext.set_api_version c v) r.
Definition set_replica_read (v : bool) (r : Request) : Request :=
  match impl r with HealthFeedback => r | Macro => with_context (λ c, KvContext.set_replica_read c v) r end.
Definition set_stale_read (v : bool) (r : Request) : Request :=
  match impl r with HealthFeedback => r | Macro => with_context (λ c, KvContext.set_stale_read c v) r end.

Definition set_if {A} (o : option A) (f : KvContext → A → KvContext) (c : KvContext) : KvContext :=
  match o with Some v => f c v | None => c end.
Definition apply_to_context (rc : RequestContext) (c : KvContext) : KvContext :=
  let c := set_if (rc_request_source rc) KvContext.set_request_source c in
  let c := set_if (rc_resource_group_tag rc) KvContext.set_resource_group_tag c in
  let c := set_if (rc_resource_group_name rc) KvContext.set_resource_group_name c in
  let c := set_if (priority_into <$> rc_priority rc) KvContext.set_priority c in
  let c := set_if (disk_full_into <$> rc_disk_full_opt rc) KvContext.set_disk_full_opt c in
  let c := set_if (rc_txn_source rc) KvContext.set_txn_source c in
  let c := set_if (rc_trace_id rc) KvContext.set_trace_id c in
  let c := set_if (rc_trace_control_flags rc) KvContext.set_trace_control_flags c in
  let c := set_if (rc_resource_control_override_priority rc) KvContext.set_override_priority c in
  set_if (rc_resource_control_penalty rc) KvContext.set_penalty c.
Definition apply_to (rc : RequestContext) (request : Request) : Request := with_context (apply_to_context rc) request.

(** ** [RegionStore], [Dispatch] and [PlanBuilder] *)
Record RegionStore {Client : Type} := mkRegionStore {
  region_with_leader : RegionWithLeader.t; client : Client; store_replica_read : bool; store_stale_read : bool;
  attempt : nat; patched_request_source : option string; store_request_context : RequestContext;
  replica_kind : option ReplicaKind
}.
Arguments RegionStore Client : clear implicits.
Definition rpc_context {Client} (s : RegionStore Client) (request : Request) : RpcContextInfo :=
  mkInfo (label request) (attempt s) (Some (RegionWithLeader.id (region_with_leader s)))
    (ok (RegionWithLeader.get_store_id (region_with_leader s))) (replica_kind s) (store_replica_read s) (store_stale_read s).
Definition apply_to_request {Client} (s : RegionStore Client) (request : Request) : Result unit * Request :=
  match set_leader (region_with_leader s) request with
  | (Err e, request) => (Err e, request)
  | (Ok _, request) =>
      let request := set_replica_read (store_replica_read s) request in
      let request := set_stale_read (store_stale_read s) request in
      let info := rpc_context s request in
      (Ok (), with_context (λ ctx,
         let ctx := KvContext.set_is_retry_request ctx (0 <? attempt s)%nat in
         let ctx := set_if (patched_request_source s) KvContext.set_request_source ctx in
         let ctx := match rc_resource_group_tag (store_request_context s), resource_group_tagger (store_request_context s) with
                    | None, Some tagger => KvContext.set_resource_group_tag ctx (tagger info ctx)
                    | _, _ => ctx
                    end in
         chain_apply (rpc_interceptors (store_request_context s)) info ctx) request)
  end.

(** [Dispatch]: a client answers with a response, [None] if it is of another type. *)
Record Dispatch {Resp : Type} := mkDispatch { request : Request; kv_client : option (Request → Result (option Resp)) }.
Arguments Dispatch Resp : clear implicits.
Arguments mkDispatch {Resp} _ _.
Definition dispatch_execute {Resp} (d : Dispatch Resp) : Result Resp :=
  kv_client ← ok_or (kv_client d) (InternalError "Dispatch plan executed without an attached kv_client");
  r ← kv_client (request d);
  ok_or r (InternalError "KvClient returned an unexpected response type").

Record PlanBuilder {Resp : Type} := mkBuilder { plan : Dispatch Resp; builder_context : RequestContext; read_routing : ReadRouting }.
Arguments PlanBuilder Resp : clear implicits.
Arguments mkBuilder {Resp} _ _ _.
Definition builder_new {Resp} (store_health : StoreHealth.t) (keyspace : Keyspace) (req : Request) : PlanBuilder Resp :=
  let req := set_api_version (api_version keyspace) req in
  let req := with_context (λ ctx, if String.eqb (KvContext.request_source ctx) "" then KvContext.set_request_source ctx "unknown" else ctx) req in
  mkBuilder (mkDispatch req None) RequestContext_default (with_store_health store_health ReadRouting_default).
(** The [with_] methods of the builder: all but the tagger and the interceptors are written to the
    request, and the source is given to the read routing. *)
Definition builder_with {Resp} (s : Setting) (b : PlanBuilder Resp) : PlanBuilder Resp :=
  let rc := context_with s (builder_context b) in
  match s with
  | Tagger _ | Interceptors _ | AddInterceptor _ => mkBuilder (plan b) rc (read_routing b)
  | RequestSource _ =>
      mkBuilder (mkDispatch (apply_to rc (request (plan b))) (kv_client (plan b))) rc
        (with_request_source (rc_request_source rc) (read_routing b))
  | _ => mkBuilder (mkDispatch (apply_to rc (request (plan b))) (kv_client (plan b))) rc (read_routing b)
  end.
Definition with_request_context {Resp} (rc : RequestContext) (b : PlanBuilder Resp) : PlanBuilder Resp :=
  mkBuilder (plan b) rc (read_routing b).
Definition single_region_with_store {Resp} (s : RegionStore (Request → Result (option Resp))) (b : PlanBuilder Resp) :
    Result (PlanBuilder Resp) :=
  match apply_to_request s (request (plan b)) with
  | (Err e, _) => Err e
  | (Ok _, req) => Ok (mkBuilder (mkDispatch req (Some (client s))) (builder_context b) (read_routing b))
  end.

(** ** The store of an attempt ([single_shard_handler]) *)
Definition replica_kind_for_peer (leader peer : Peer.t) : ReplicaKind :=
  if Peer.store_id peer =? Peer.store_id leader then KindLeader
  else if is_learner (Peer.role peer) then KindLearner else KindFollower.
Definition replica_kind_str (k : ReplicaKind) : string :=
  match k with KindLeader => "leader" | KindFollower => "follower" | KindLearner => "learner" end.
Definition request_source_override (r : ReadRouting) (now : nat → Z) (region : RegionWithLeader.t) (leader_peer : Peer.t)
    (current : ReplicaKind) (attempt : nat) : Result (option string) :=
  match input_request_source r with
  | None => Ok None
  | Some input =>
      if String.eqb input "" then Ok None else
      base_peer ← select_peer_for_request_source r now region;
      let base := replica_kind_str (replica_kind_for_peer leader_peer (target_peer base_peer)) in
      let base_read_type := if rp_stale_read base_peer then ("stale_" ++ base)%string else base in
      Ok (Some (if (attempt =? 0)%nat then (base_read_type ++ "_" ++ input)%string
                else ("retry_" ++ base_read_type ++ "_" ++ replica_kind_str current ++ "_" ++ input)%string))
  end.
(** From the choice of the peer on; [map_region_to_store] answers with the client of the store. *)
Definition attempt_store {Client} (r : ReadRouting) (now : nat → Z) (map_region_to_store : RegionWithLeader.t → Result Client)
    (rc : RequestContext) (region : RegionWithLeader.t) (leader_peer : Peer.t) (read_peer : ReadPeer) (attempt : nat) :
    Result (RegionStore Client) :=
  let kind := replica_kind_for_peer leader_peer (target_peer read_peer) in
  source ← request_source_override r now region leader_peer kind attempt;
  let target_region := RegionWithLeader.with_leader region (target_peer read_peer) in
  client ← map_region_to_store target_region;
  Ok (mkRegionStore Client target_region client (rp_replica_read read_peer) (rp_stale_read read_peer) attempt source rc (Some kind)).
End contexts.

(** ** Chains *)
Section chains.
Context {Consumption : Type}.
#[local] Abbreviation RpcInterceptor := (@RpcInterceptor Consumption).

(** The interceptors that an argument of [link] stands for, in order. *)
Fixpoint leaves (it : RpcInterceptor) : list RpcInterceptor :=
  match it with
  | Leaf _ _ => [it]
  | Chain inner =>
      (fix leaves_all (inner : list RpcInterceptor) := match inner with
        | [] => []
        | x :: inner => leaves x ++ leaves_all inner
        end) inner
  end.
(** The last interceptor of each name, in the order of the last ones. *)
Definition same_name (a b : RpcInterceptor) : bool := String.eqb (interceptor_name a) (interceptor_name b).
Fixpoint keep_last (l : list RpcInterceptor) : list RpcInterceptor :=
  match l with
  | [] => []
  | x :: rest => if existsb (same_name x) rest then keep_last rest else x :: keep_last rest
  end.

Lemma leaves_chain (inner : list RpcInterceptor) : leaves (Chain inner) = flat_map leaves inner.
Proof. induction inner as [|x inner IH]; [done|]. cbn [flat_map]. rewrite <- IH. done. Qed.
Lemma link_chain (inner chain : list RpcInterceptor) : link (Chain inner) chain = foldl (λ (c : list RpcInterceptor) it, link it c) chain inner.
Proof. revert chain. induction inner as [|x inner IH]; intros chain; [done|]. cbn [foldl]. rewrite <- IH. done. Qed.

Lemma RpcInterceptor_ind_nested (P : RpcInterceptor → Prop) :
  (∀ name w, P (Leaf name w)) → (∀ inner, Forall P inner → P (Chain inner)) → ∀ it, P it.
Proof.
  intros Hl Hc. fix rec 1. intros [name w|inner]; [apply Hl|]. apply Hc.
  induction inner as [|x inner IH]; constructor; [apply rec | exact IH].
Qed.

Lemma existsb_keep_last x (l : list RpcInterceptor) : existsb (same_name x) (keep_last l) = existsb (same_name x) l.
Proof.
  induction l as [|y l IH]; [done|]. cbn. destruct (existsb (same_name y) l) eqn:E; [|cbn; by rewrite IH].
  rewrite IH. destruct (same_name x y) eqn:Exy; [|done]. cbn. apply String.eqb_eq in Exy.
  rewrite <- E. f_equal. unfold same_name. by rewrite Exy.
Qed.
Lemma remove_named_none name (l : list RpcInterceptor) : existsb (λ y, String.eqb (interceptor_name y) name) l = false → remove_named name l = l.
Proof. induction l as [|y l IH]; [done|]. cbn. destruct (String.eqb _ _); [done|]. cbn. intros ?. f_equal. auto. Qed.

Lemma keep_last_snoc (l : list RpcInterceptor) x : keep_last (l ++ [x]) = remove_named (interceptor_name x) (keep_last l) ++ [x].
Proof.
  induction l as [|y l IH]; [done|]. cbn [app keep_last]. rewrite existsb_app. cbn [existsb].
  rewrite orb_false_r, IH. destruct (existsb (same_name y) l) eqn:E; [done|]. cbn [orb remove_named].
  unfold same_name at 1. destruct (String.eqb_spec (interceptor_name y) (interceptor_name x)) as [Exy|]; [|done].
  rewrite remove_named_none; [done|]. rewrite <- Exy, <- E, <- existsb_keep_last.
  clear. induction (keep_last l) as [|z k IH]; [done|]. cbn. rewrite IH. f_equal. unfold same_name. apply String.eqb_sym.
Qed.

Lemma link_keep_last (it : RpcInterceptor) : ∀ l, link it (keep_last l) = keep_last (l ++ leaves it).
Proof.
  induction it as [name w|inner HF] using RpcInterceptor_ind_nested; intros l; [cbn [leaves]; by rewrite keep_last_snoc|].
  rewrite link_chain, leaves_chain. revert l. induction HF as [|x inner Hx HF IH]; intros l; cbn [foldl flat_map]; [by rewrite app_nil_r|].
  by rewrite Hx, IH, app_assoc.
Qed.

Lemma linked_chain (its : list RpcInterceptor) : foldl (λ (c : list RpcInterceptor) it, link it c) [] its = keep_last (flat_map leaves its).
Proof.
  change [] with (keep_last []). change (flat_map leaves its) with ([] ++ flat_map leaves its). generalize (@nil RpcInterceptor) as l.
  induction its as [|it its IH]; intros l; cbn [foldl flat_map]; [by rewrite app_nil_r|]. by rewrite link_keep_last, IH, app_assoc.
Qed.

Lemma keep_last_names (l : list RpcInterceptor) : NoDup (map interceptor_name (keep_last l)) ∧ ∀ x, x ∈ keep_last l → x ∈ l.
Proof.
  induction l as [|x l [IHn IHs]]; cbn; [split; [constructor | done]|]. destruct (existsb (same_name x) l) eqn:E.
  - split; [done|]. intros y Hy. apply elem_of_cons. auto.
  - split; [|intros y [->|Hy]%elem_of_cons; apply elem_of_cons; auto]. cbn. constructor; [|done].
    intros (y & Ey & Hy%IHs)%list_elem_of_fmap. apply list_elem_of_In in Hy.
    assert (existsb (same_name x) l = true) as Ht; [|congruence].
    apply existsb_exists. exists y. split; [done|]. apply String.eqb_eq. done.
Qed.

(** A chain of interceptors runs, for each name, the one linked last, in the order of the last links.
    Linking any interceptors, nested chains included, keeps one of each name; and for interceptors made
    from functions, applying the chain is running those functions one after the other on the context. *)
Theorem interceptor_chain_correct (its : list RpcInterceptor) :
  let chain := foldl (λ (c : list RpcInterceptor) it, link it c) [] its in
  chain = keep_last (flat_map leaves its) ∧ NoDup (map interceptor_name chain) ∧
  ∀ (fs : list (string * RpcInterceptorFunc)) info ctx,
    chain = map (λ p, rpc_interceptor p.1 p.2) fs →
    chain_apply chain info ctx = foldl (λ ctx p, p.2 info ctx) ctx fs.
Proof.
  intros chain. split; [apply linked_chain|]. split; [unfold chain; rewrite linked_chain; apply keep_last_names|].
  intros fs info ctx E. rewrite E. clear. unfold chain_apply, chain_wrap. revert ctx.
  induction fs as [|[name f] fs IH]; intros ctx; [done|]. cbn. apply IH.
Qed.
End chains.

Lemma interceptor_chain_correct_witness :
  let f n : @RpcInterceptorFunc unit := λ _ c, KvContext.set_txn_source c (KvContext.txn_source c * 10 + n) in
  let its := [rpc_interceptor "a" (f 1); Chain [rpc_interceptor "b" (f 2); rpc_interceptor "c" (f 3)]; rpc_interceptor "b" (f 4)] in
  chain_apply (foldl (λ c it, link it c) (@nil (@RpcInterceptor unit)) its) (mkInfo "" 0 None None None false false) KvContext.default =
  KvContext.set_txn_source KvContext.default 134.
Proof.
  intros f its. rewrite (proj2 (proj2 (interceptor_chain_correct its)) [("a"%string, f 1); ("c"%string, f 3); ("b"%string, f 4)]); reflexivity.
Defined.

(** [override_priority_if_unset] writes the priority of a request with a resource group that has none, and nothing else. *)
Lemma override_priority_default {Consumption} v info (c : KvContext.t Consumption) (c' := chain_apply [override_priority_if_unset v] info c) :
  match KvContext.resource_control_context c with
  | Some r =>
      if bool_decide (ResourceControl.resource_group_name r ≠ ""%string ∧ ResourceControl.override_priority r = 0)
      then KvContext.resource_control_context c' = Some (ResourceControl.mk (ResourceControl.resource_group_name r) (ResourceControl.penalty r) v) ∧
           KvContext.set_override_priority c v = c'
      else c' = c
  | None => c' = c
  end.
Proof.
  unfold c', chain_apply, chain_wrap. cbn. destruct (KvContext.resource_control_context c) as [r|] eqn:Er; [|done].
  destruct (String.eqb_spec (ResourceControl.resource_group_name r) "") as [E|E]; [by rewrite bool_decide_eq_false_2 by tauto|].
  destruct (Z.eqb_spec (ResourceControl.override_priority r) 0) as [E0|E0]; [|by rewrite bool_decide_eq_false_2 by tauto].
  rewrite bool_decide_eq_true_2 by done. split; [|done]. unfold KvContext.set_override_priority, KvContext.update_resource_control. cbn. by rewrite Er.
Qed.

(** ** The context of an attempt *)
Section attempts.
Context {Consumption Client : Type}.
#[local] Abbreviation RequestContext := (@RequestContext Consumption).
#[local] Abbreviation Store := (@RegionStore Consumption Client).

(** The group, the penalty and the priority, if one of them is set. *)
Definition expected_resource_control (rc : RequestContext) : option (ResourceControl.t Consumption) :=
  match rc_resource_group_name rc, rc_resource_control_penalty rc, rc_resource_control_override_priority rc with
  | None, None, None => None
  | name, penalty, priority => Some (ResourceControl.mk (default ""%string name) penalty (default 0 priority))
  end.
(** What an attempt on the store [s] sends for a request made with [rc]. *)
Definition expected_source (rc : RequestContext) (s : Store) : string :=
  match patched_request_source s with
  | Some source => source
  | None => match rc_request_source rc with
            | Some source => if String.eqb source "" then "unknown" else source
            | None => "unknown"
            end
  end.
Definition expected_context (rc : RequestContext) (ks : Keyspace) (s : Store) (p : Peer.t) (tag : list Z) : KvContext.t Consumption :=
  let region := RegionWithLeader.region (region_with_leader s) in
  KvContext.mk (Region.id region) (Region.region_epoch region) (Some p) (default 0 (priority_into <$> rc_priority rc))
    (store_replica_read s) (store_stale_read s) tag (default 0 (disk_full_into <$> rc_disk_full_opt rc)) (0 <? attempt s)%nat
    (api_version ks) (expected_source rc s) (default 0 (rc_txn_source rc)) (expected_resource_control rc)
    (default [] (rc_trace_id rc)) (default 0 (rc_trace_control_flags rc)).
(** The fixed tag, or the tagger's, or none. *)
Definition expected_tag (rc : RequestContext) (ks : Keyspace) (s : Store) (p : Peer.t) (lbl : string) (before : list Z) : list Z :=
  match rc_resource_group_tag rc, resource_group_tagger rc with
  | Some tag, _ => tag
  | None, Some tagger =>
      tagger (mkInfo lbl (attempt s) (Some (RegionWithLeader.id (region_with_leader s))) (Some (Peer.store_id p)) (replica_kind s)
        (store_replica_read s) (store_stale_read s)) (expected_context rc ks s p before)
  | None, None => []
  end.

(** What stays between attempts; the source is untouched unless an attempt labelled it. *)
Record between (rc : RequestContext) (ks : Keyspace) (labelled : bool) (c : KvContext.t Consumption) : Prop := {
  bt_priority : KvContext.priority c = default 0 (priority_into <$> rc_priority rc);
  bt_disk : KvContext.disk_full_opt c = default 0 (disk_full_into <$> rc_disk_full_opt rc);
  bt_api : KvContext.api_version c = api_version ks;
  bt_txn : KvContext.txn_source c = default 0 (rc_txn_source rc);
  bt_control : KvContext.resource_control_context c = expected_resource_control rc;
  bt_trace : KvContext.trace_id c = default [] (rc_trace_id rc);
  bt_flags : KvContext.trace_control_flags c = default 0 (rc_trace_control_flags rc);
  bt_tag : ∀ tag, rc_resource_group_tag rc = Some tag → KvContext.resource_group_tag c = tag;
  bt_no_tag : rc_resource_group_tag rc = None → resource_group_tagger rc = None → KvContext.resource_group_tag c = [];
  bt_source : labelled = false → KvContext.request_source c =
    match rc_request_source rc with Some source => if String.eqb source "" then "unknown"%string else source | None => "unknown"%string end
}.

Lemma set_if_other {A B} (g : KvContext.t Consumption → B) (o : option A) f c :
  (∀ c v, g (f c v) = g c) → g (set_if o f c) = g c.
Proof. destruct o; cbn; auto. Qed.
Lemma set_if_same {A B} (g : KvContext.t Consumption → B) (h : A → B) (o : option A) f c :
  (∀ c v, g (f c v) = h v) → g (set_if o f c) = match o with Some v => h v | None => g c end.
Proof. destruct o; cbn; auto. Qed.

Lemma apply_to_context_fields (rc : RequestContext) (c := apply_to_context rc KvContext.default) :
  KvContext.priority c = default 0 (priority_into <$> rc_priority rc) ∧
  KvContext.disk_full_opt c = default 0 (disk_full_into <$> rc_disk_full_opt rc) ∧
  KvContext.txn_source c = default 0 (rc_txn_source rc) ∧
  KvContext.resource_control_context c = expected_resource_control rc ∧
  KvContext.trace_id c = default [] (rc_trace_id rc) ∧
  KvContext.trace_control_flags c = default 0 (rc_trace_control_flags rc) ∧
  KvContext.resource_group_tag c = default [] (rc_resource_group_tag rc) ∧
  KvContext.request_source c = default ""%string (rc_request_source rc).
Proof.
  unfold c, apply_to_context. cbv zeta.
  split_and!; repeat rewrite set_if_other by done.
  all: try (rewrite (set_if_same _ id) by done; repeat rewrite set_if_other by done; solve [match goal with |- match ?o with _ => _ end = _ => by destruct o end]).
  unfold expected_resource_control.
  destruct (rc_resource_control_penalty rc), (rc_resource_control_override_priority rc), (rc_resource_group_name rc); cbn;
    repeat rewrite set_if_other by done; destruct (rc_resource_group_tag rc), (rc_request_source rc); done.
Qed.

Lemma fresh_between (rc : RequestContext) ks health lbl Resp : ∃ c,
  request (plan (@builder_new _ Resp health ks (apply_to rc (mkReq Macro lbl None)))) = mkReq Macro lbl (Some c) ∧
  between rc ks false c ∧ (rc_resource_group_tag rc = None → KvContext.resource_group_tag c = []).
Proof.
  unfold builder_new, apply_to, with_context, set_api_version. cbn [plan request impl label context default].
  destruct (apply_to_context_fields rc) as (Hp & Hd & Ht & Hr & Htr & Hf & Htag & Hs).
  set (c := apply_to_context rc KvContext.default) in *. set (c1 := KvContext.set_api_version c (api_version ks)).
  exists (if String.eqb (KvContext.request_source c1) "" then KvContext.set_request_source c1 "unknown" else c1). split; [reflexivity|].
  change (KvContext.request_source c1) with (KvContext.request_source c). rewrite Hs.
  destruct (rc_request_source rc) as [source|] eqn:E; cbn [default from_option id]; [destruct (String.eqb source "") eqn:Es|];
    (split; [split; cbn; rewrite ?E, ?Es; try done|cbn; intros E0; by rewrite Htag, E0]);
    (intros; rewrite Htag; by simplify_option_eq).
Qed.

(** An attempt on a request whose context is in this state. *)
Lemma attempt_between (rc : RequestContext) ks labelled c (s : Store) p lbl :
  between rc ks labelled c → store_request_context s = rc → RegionWithLeader.leader (region_with_leader s) = Some p →
  (patched_request_source s = None → labelled = false) →
  let before := expected_context rc ks s p (KvContext.resource_group_tag c) in
  apply_to_request s (mkReq Macro lbl (Some c)) =
    (Ok (), mkReq Macro lbl (Some (chain_apply (rpc_interceptors rc) (rpc_context s (mkReq Macro lbl (Some c)))
      (expected_context rc ks s p (expected_tag rc ks s p lbl (KvContext.resource_group_tag c)))))).
Proof.
  intros Hb Hrc Hl Hs before. unfold apply_to_request, set_leader. cbn [impl]. rewrite Hl.
  unfold set_replica_read, set_stale_read, with_context, rpc_context. cbn [impl label context default from_option id].
  rewrite Hrc. do 4 f_equal.
  unfold expected_tag, expected_context, expected_source, RegionWithLeader.get_store_id. rewrite Hl. cbn [ok].
  destruct Hb as [Hp Hd Ha Ht Hr Htr Hf Htag Hnotag Hsrc]. destruct c. cbn in *. subst.
  destruct (patched_request_source s) eqn:Ep; cbn; [|rewrite Hsrc by auto];
    (destruct (rc_resource_group_tag _) eqn:Et; [by rewrite (Htag _ eq_refl)|];
     destruct (resource_group_tagger _) eqn:Eg; [done | by rewrite (Hnotag eq_refl eq_refl)]).
Qed.
Lemma attempt_fails (c : KvContext.t Consumption) (s : Store) lbl : RegionWithLeader.leader (region_with_leader s) = None →
  apply_to_request s (mkReq Macro lbl (Some c)) =
    (Err (LeaderNotFound (RegionWithLeader.ver_id (region_with_leader s))), mkReq Macro lbl (Some c)).
Proof. intros Hl. unfold apply_to_request, set_leader. cbn [impl]. by rewrite Hl. Qed.

Lemma expected_between (rc : RequestContext) ks (s : Store) p lbl before :
  between rc ks (match patched_request_source s with Some _ => true | None => false end)
    (expected_context rc ks s p (expected_tag rc ks s p lbl before)).
Proof.
  split; cbn; try done.
  - intros tag E. unfold expected_tag. by rewrite E.
  - intros E1 E2. unfold expected_tag. by rewrite E1, E2.
  - unfold expected_source. by destruct (patched_request_source s).
Qed.
Lemma earlier_between (rc : RequestContext) ks labelled lbl (earlier : list Store) : rpc_interceptors rc = [] →
  Forall (λ s, store_request_context s = rc ∧ (patched_request_source s = None ↔ labelled = false)) earlier →
  ∀ c, between rc ks labelled c → ∃ c',
  foldl (λ r s, (apply_to_request s r).2) (mkReq Macro lbl (Some c)) earlier = mkReq Macro lbl (Some c') ∧ between rc ks labelled c'.
Proof.
  intros Hi HF. induction HF as [|s earlier [Hs Hp] HF IH]; intros c Hb; cbn [foldl]; [by exists c|].
  destruct (RegionWithLeader.leader (region_with_leader s)) as [p|] eqn:El; [|rewrite attempt_fails by done; by apply IH].
  rewrite (attempt_between rc ks labelled c s p lbl Hb Hs El) by tauto. cbn [snd]. rewrite Hi. apply IH.
  pose proof (expected_between rc ks s p lbl (KvContext.resource_group_tag c)) as H.
  destruct (patched_request_source s), labelled; try done; naive_solver.
Qed.
Lemma between_any (rc : RequestContext) ks labelled c : between rc ks false c → between rc ks labelled c.
Proof. intros []. split; auto. Qed.
End attempts.

(** The context that a store receives.  For a request made by a client with any settings, on any
    attempt: the region, epoch, peer and read flags are those of the attempt; the API version is the
    keyspace's; the settings of the client are all there, a fixed resource group tag has
    precedence over the tagger, the source is the attempt's label, or the client's, and never empty
    without one; a request is marked as a retry exactly from the second attempt on; and the
    interceptors run last, in order, on that context.  Earlier attempts on other regions or
    stores, failed ones included, leave no trace in it (when no interceptor changed the context,
    and apart from the tag that a tagger is shown). *)
Theorem request_context_correct {Consumption Client Resp : Type} (rc : @RequestContext Consumption) ks health lbl
    (earlier : list (@RegionStore Consumption Client)) (s : @RegionStore Consumption Client) (p : Peer.t) :
  earlier = [] ∨ rpc_interceptors rc = [] →
  Forall (λ s', store_request_context s' = rc ∧ (patched_request_source s' = None ↔ patched_request_source s = None)) earlier →
  store_request_context s = rc → RegionWithLeader.leader (region_with_leader s) = Some p →
  let fresh := request (plan (@builder_new _ Resp health ks (apply_to rc (mkReq Macro lbl None)))) in
  let r := foldl (λ r s', (apply_to_request s' r).2) fresh earlier in
  let info := mkInfo lbl (attempt s) (Some (RegionWithLeader.id (region_with_leader s))) (Some (Peer.store_id p)) (replica_kind s)
    (store_replica_read s) (store_stale_read s) in
  ∃ before, (earlier = [] → rc_resource_group_tag rc = None → before = []) ∧
  apply_to_request s r = (Ok (), mkReq Macro lbl (Some
    (chain_apply (rpc_interceptors rc) info (expected_context rc ks s p (expected_tag rc ks s p lbl before))))).
Proof.
  intros Hi HF Hrc Hl fresh r info. destruct (fresh_between rc ks health lbl Resp) as (c0 & E0 & Hb0 & Ht0).
  set (labelled := match patched_request_source s with Some _ => true | None => false end).
  assert (∃ c, r = mkReq Macro lbl (Some c) ∧ between rc ks labelled c ∧
    (earlier = [] → rc_resource_group_tag rc = None → KvContext.resource_group_tag c = [])) as (c & Er & Hb & Ht).
  { unfold r, fresh. rewrite E0. destruct earlier as [|s0 rest]; [exists c0; split_and!; auto using between_any|].
    destruct Hi as [?|Hi]; [done|].
    destruct (earlier_between rc ks labelled lbl (s0 :: rest) Hi) with (c := c0) as (c & E & Hb); [|by apply between_any|].
    - eapply Forall_impl; [exact HF|]. intros s' [? Hp]. split; [done|]. rewrite Hp. unfold labelled.
      by destruct (patched_request_source s).
    - exists c. split_and!; try done. }
  exists (KvContext.resource_group_tag c). split; [exact Ht|]. rewrite Er, (attempt_between rc ks labelled c s p lbl Hb Hrc Hl).
  - unfold rpc_context, RegionWithLeader.get_store_id. rewrite Hl. reflexivity.
  - unfold labelled. by destruct (patched_request_source s).
Qed.

(** A client with a fixed priority and a tagger, on the second attempt of a read. *)
Lemma request_context_correct_witness :
  let rc : @RequestContext unit := context_with (Priority High) (context_with (Tagger (λ info _, [Z.of_nat (info_attempt info)])) RequestContext_default) in
  let region := Region.mk 4 [] [] (Some (RegionEpoch.mk 1 2)) [] in
  let store peer n := mkRegionStore unit (RegionWithLeader.mk region (Some peer)) () true false n (Some "follower_x"%string) rc (Some KindFollower) in
  let fresh := request (plan (@builder_new _ unit ∅ Disable (apply_to rc (mkReq Macro "kv_get" None)))) in
  ∃ c, apply_to_request (store (Peer.mk 1 7 0 false) 1%nat) (apply_to_request (store (Peer.mk 2 8 0 false) 0%nat) fresh).2 = (Ok (), mkReq Macro "kv_get" (Some c)) ∧
    KvContext.peer c = Some (Peer.mk 1 7 0 false) ∧ KvContext.is_retry_request c = true ∧ KvContext.priority c = 2 ∧
    KvContext.resource_group_tag c = [1].
Proof.
  intros rc region store fresh.
  destruct (@request_context_correct unit unit unit rc Disable ∅ "kv_get" [store (Peer.mk 2 8 0 false) 0%nat] (store (Peer.mk 1 7 0 false) 1%nat) (Peer.mk 1 7 0 false))
    as (before & _ & E); [by right | by repeat constructor | done | done |].
  eexists. split; [exact E|]. by split_and!.
Defined.
