(* ===== verification/TxnSettings.v ===== *)
(** * Options and settings of transactions (src/src/transaction/transaction.rs, src/src/request/mod.rs)

    - the builders of [PipelinedTxnOptions], [LockOptions] and [TransactionOptions]: which options their methods can make, in
      any order, and what [validate] then says;
    - the setters of a transaction, which write into its [RequestContext] or its options, the routing of its reads, and the
      context that the stores get. *)

From Stdlib Require Import QArith.
From S2P Require Import Prelude Keys Proto Errors Regions Timestamps Kv Keyspaces KeyFlags Buffers Backoffs Plans ReadRouting Contexts.
From S2P Require Import Requests Effects Pipelined Commits Transactions Clients.
#[local] Open Scope Z_scope.

(** ** [PipelinedTxnOptions] and [LockOptions] *)

Definition pipelined_default : PipelinedTxnOptions := mkPipelinedOptions 4 4 (Finite 0) (Z.to_nat 10000).
Definition with_flush_concurrency (v : Z) (o : PipelinedTxnOptions) : PipelinedTxnOptions :=
  mkPipelinedOptions v (resolve_lock_concurrency o) (write_throttle_ratio o) (min_flush_keys o).
Definition with_resolve_lock_concurrency (v : Z) (o : PipelinedTxnOptions) : PipelinedTxnOptions :=
  mkPipelinedOptions (flush_concurrency o) v (write_throttle_ratio o) (min_flush_keys o).
Definition with_write_throttle_ratio (v : F64) (o : PipelinedTxnOptions) : PipelinedTxnOptions :=
  mkPipelinedOptions (flush_concurrency o) (resolve_lock_concurrency o) v (min_flush_keys o).

Definition with_wait_timeout_ms (v : Z) (o : LockOptions.t) : LockOptions.t :=
  LockOptions.mk v (LockOptions.return_values o) (LockOptions.check_existence o) (LockOptions.lock_only_if_exists o)
    (LockOptions.wake_up_mode o).
Definition with_check_existence (v : bool) (o : LockOptions.t) : LockOptions.t :=
  LockOptions.mk (LockOptions.wait_timeout_ms o) (LockOptions.return_values o) v (LockOptions.lock_only_if_exists o)
    (LockOptions.wake_up_mode o).
Definition with_lock_only_if_exists (v : bool) (o : LockOptions.t) : LockOptions.t :=
  LockOptions.mk (LockOptions.wait_timeout_ms o) (LockOptions.return_values o) (LockOptions.check_existence o) v
    (LockOptions.wake_up_mode o).
Definition with_wake_up_mode (v : WakeUpMode) (o : LockOptions.t) : LockOptions.t :=
  LockOptions.mk (LockOptions.wait_timeout_ms o) (LockOptions.return_values o) (LockOptions.check_existence o)
    (LockOptions.lock_only_if_exists o) v.

(** ** [TransactionOptions] *)

Record RetryOptions := mkRetry { region_backoff : Backoff.t; lock_backoff : Backoff.t }.
Definition default_optimistic : RetryOptions := mkRetry DEFAULT_REGION_BACKOFF OPTIMISTIC_BACKOFF.
Definition default_pessimistic : RetryOptions := mkRetry DEFAULT_REGION_BACKOFF PESSIMISTIC_BACKOFF.
Definition no_retry : RetryOptions := mkRetry Backoff.no_backoff Backoff.no_backoff.

(** [Commits.TransactionOptions] with the fields it leaves out. *)
Module Options.
Record t := mk {
  core : TransactionOptions; replica_read : ReplicaReadType; stale_read : bool; retry_options : RetryOptions
}.

Definition new_optimistic : t := mk new_optimistic Leader false default_optimistic.
Definition new_pessimistic : t := mk new_pessimistic Leader false default_pessimistic.
Definition default : t := new_pessimistic.

Definition with_core (f : TransactionOptions → TransactionOptions) (o : t) : t :=
  mk (f (core o)) (replica_read o) (stale_read o) (retry_options o).
Definition with_retry (r : RetryOptions) (o : t) : t := mk (core o) (replica_read o) (stale_read o) r.

Definition core_assertion_level (level : AssertionLevel) (o : TransactionOptions) : TransactionOptions :=
  mkOptions (kind o) (try_one_pc o) (async_commit o) (read_only o) (check_level o) level (max_commit_ts_safe_window o)
    (commit_wait_until_tso o) (commit_wait_until_tso_timeout o) (heartbeat_option o) (pipelined_options o).
Definition core_safe_window (ms : Z) (o : TransactionOptions) : TransactionOptions :=
  mkOptions (kind o) (try_one_pc o) (async_commit o) (read_only o) (check_level o) (assertion_level o) ms
    (commit_wait_until_tso o) (commit_wait_until_tso_timeout o) (heartbeat_option o) (pipelined_options o).
Definition core_commit_wait (tso : option Z) (o : TransactionOptions) : TransactionOptions :=
  mkOptions (kind o) (try_one_pc o) (async_commit o) (read_only o) (check_level o) (assertion_level o)
    (max_commit_ts_safe_window o) tso (commit_wait_until_tso_timeout o) (heartbeat_option o) (pipelined_options o).
Definition core_commit_wait_timeout (ms : Z) (o : TransactionOptions) : TransactionOptions :=
  mkOptions (kind o) (try_one_pc o) (async_commit o) (read_only o) (check_level o) (assertion_level o)
    (max_commit_ts_safe_window o) (commit_wait_until_tso o) ms (heartbeat_option o) (pipelined_options o).
Definition core_heartbeat (h : HeartbeatOption) (o : TransactionOptions) : TransactionOptions :=
  mkOptions (kind o) (try_one_pc o) (async_commit o) (read_only o) (check_level o) (assertion_level o)
    (max_commit_ts_safe_window o) (commit_wait_until_tso o) (commit_wait_until_tso_timeout o) h (pipelined_options o).

Definition use_async_commit (o : t) : t := if is_pipelined (core o) then o else with_core (set_async_commit true) o.
Definition try_one_pc (o : t) : t := if is_pipelined (core o) then o else with_core (set_try_one_pc true) o.

(** The methods of the builder. *)
Inductive Call :=
| AssertionLevelCall (level : AssertionLevel) | UseAsyncCommit | TryOnePc | ReadOnlyCall | UsePipelined (p : PipelinedTxnOptions)
| ReplicaRead (v : ReplicaReadType) | StaleRead (v : bool) | SafeWindow (ms : Z) | NoResolveLocks | NoResolveRegions
| Retry (r : RetryOptions) | DropCheck (level : CheckLevel) | Heartbeat (h : HeartbeatOption).

Definition call (o : t) (c : Call) : t :=
  match c with
  | AssertionLevelCall level => with_core (core_assertion_level level) o
  | UseAsyncCommit => use_async_commit o
  | TryOnePc => try_one_pc o
  | ReadOnlyCall => with_core options_read_only o
  | UsePipelined p => with_core (use_pipelined_txn p) o
  | ReplicaRead v => mk (core o) v (stale_read o) (retry_options o)
  | StaleRead v => mk (core o) (replica_read o) v (retry_options o)
  | SafeWindow ms => with_core (core_safe_window ms) o
  | NoResolveLocks => with_retry (mkRetry (region_backoff (retry_options o)) Backoff.no_backoff) o
  | NoResolveRegions => with_retry (mkRetry Backoff.no_backoff (lock_backoff (retry_options o))) o
  | Retry r => with_retry r o
  | DropCheck level => with_core (drop_check level) o
  | Heartbeat h => with_core (core_heartbeat h) o
  end.

(** The options made from a default by a list of calls. *)
Definition made (pessimistic : bool) (calls : list Call) : t :=
  foldl call (if pessimistic then new_pessimistic else new_optimistic) calls.

(** What a list of calls asks for: the options of the last [use_pipelined_txn] that no [read_only] follows, and whether a
    protocol is asked for outside pipelined mode and not given up for it. *)
Definition wanted_pipelined (acc : option PipelinedTxnOptions) (c : Call) : option PipelinedTxnOptions :=
  match c with UsePipelined p => Some p | ReadOnlyCall => None | _ => acc end.
Fixpoint asks (is_ask : Call → bool) (asked : bool) (p : option PipelinedTxnOptions) (calls : list Call) : bool :=
  match calls with
  | [] => asked
  | c :: calls =>
      asks is_ask (match c with
                   | UsePipelined _ => false
                   | c => asked || is_ask c && match p with None => true | Some _ => false end
                   end) (wanted_pipelined p c) calls
  end.
Definition is_async (c : Call) : bool := match c with UseAsyncCommit => true | _ => false end.
Definition is_one_pc (c : Call) : bool := match c with TryOnePc => true | _ => false end.

(** The settings of a pipelined transaction that [validate] accepts. *)
Definition valid_pipelined (p : PipelinedTxnOptions) : Prop :=
  flush_concurrency p ≠ 0 ∧ resolve_lock_concurrency p ≠ 0 ∧ min_flush_keys p ≠ 0%nat ∧
  ∃ q, write_throttle_ratio p = Finite q ∧ (0 <= q)%Q ∧ (q < 1)%Q.

Lemma made_protocols calls : ∀ o,
  pipelined_options (core (foldl call o calls)) = foldl wanted_pipelined (pipelined_options (core o)) calls ∧
  async_commit (core (foldl call o calls)) = asks is_async (async_commit (core o)) (pipelined_options (core o)) calls ∧
  Commits.try_one_pc (core (foldl call o calls)) =
    asks is_one_pc (Commits.try_one_pc (core o)) (pipelined_options (core o)) calls ∧
  options_is_pessimistic (core (foldl call o calls)) = options_is_pessimistic (core o).
Proof.
  induction calls as [|c calls IH]; intros o; [done|]. cbn [foldl asks].
  destruct (IH (call o c)) as (-> & -> & -> & ->). clear IH.
  destruct o as [[k one asy ro lvl al win cw cwt hb pipe] rr sr ret].
  destruct c; cbn; unfold use_async_commit, try_one_pc, is_pipelined; cbn;
    rewrite ?orb_false_r; try done; by destruct pipe; cbn; rewrite ?orb_false_r, ?orb_true_r.
Qed.

(** Pipelined mode excludes the others, so the check for 1PC and async commit in [validate] never fires. *)
Definition exclusive (o : TransactionOptions) : Prop :=
  is_pipelined o = true → async_commit o = false ∧ Commits.try_one_pc o = false ∧ read_only o = false.

Lemma call_exclusive o c : exclusive (core o) → exclusive (core (call o c)).
Proof.
  destruct o as [[k one asy ro lvl al win cw cwt hb pipe] rr sr ret].
  destruct c; unfold exclusive; cbn; unfold use_async_commit, try_one_pc, is_pipelined; cbn; auto; by destruct pipe; cbn.
Qed.

Lemma made_exclusive pessimistic calls : exclusive (core (made pessimistic calls)).
Proof.
  unfold made. assert (exclusive (core (if pessimistic then new_pessimistic else new_optimistic))) as H by by destruct pessimistic.
  revert H. generalize (if pessimistic then new_pessimistic else new_optimistic).
  induction calls as [|c calls IH]; intros o Ho; [done|]. apply IH. by apply call_exclusive.
Qed.

Lemma validate_exclusive o : exclusive o →
  validate o = Ok () ↔ ∀ p, pipelined_options o = Some p → options_is_pessimistic o = false ∧ valid_pipelined p.
Proof.
  unfold validate, exclusive, is_pipelined. intros Hex. destruct (pipelined_options o) as [p|]; [|by split].
  destruct Hex as (-> & -> & _); [done|]. cbn [orb]. destruct (options_is_pessimistic o).
  { split; [done|]. intros Hp. by destruct (Hp p eq_refl). }
  split.
  - intros Hv ? [= <-]. split; [done|]. unfold valid_pipelined.
    destruct (flush_concurrency p =? 0) eqn:E1; [done|]. destruct (resolve_lock_concurrency p =? 0) eqn:E2; [done|].
    destruct (write_throttle_ratio p) as [q|]; [|done]. destruct (Qle_bool 0 q) eqn:E3, (Qle_bool 1 q) eqn:E4; try done.
    cbn in Hv. destruct (min_flush_keys p =? 0)%nat eqn:E5; [done|].
    split_and!; [by apply Z.eqb_neq | by apply Z.eqb_neq | by apply Nat.eqb_neq|]. exists q. split_and!; [done | by apply Qle_bool_iff|]. apply Qnot_le_lt. intros Hq%Qle_bool_iff. congruence.
  - intros Hp. destruct (Hp p eq_refl) as (_ & H1 & H2 & H3 & q & -> & Hq0 & Hq1).
    rewrite (proj2 (Z.eqb_neq _ _) H1), (proj2 (Z.eqb_neq _ _) H2), (proj2 (Nat.eqb_neq _ _) H3).
    apply Qle_bool_iff in Hq0 as ->. destruct (Qle_bool 1 q) eqn:E; [|done]. apply Qle_bool_iff in E.
    exfalso. by apply (Qlt_not_le q 1).
Qed.

(** The options of a transaction.  Whatever methods of the builder are called in whatever order: pipelined mode is that
    of the last [use_pipelined_txn], unless a [read_only] came after it; async commit and 1PC are on exactly when they are asked
    for outside pipelined mode and no [use_pipelined_txn] follows; pipelined mode excludes them and read-only transactions;
    and [begin_with_options] refuses the options exactly when a pipelined transaction is pessimistic or has a setting out of
    range. *)
Theorem options_builder_correct pessimistic calls (o := core (made pessimistic calls)) :
  pipelined_options o = foldl wanted_pipelined None calls ∧
  async_commit o = asks is_async false None calls ∧ Commits.try_one_pc o = asks is_one_pc false None calls ∧
  (is_pipelined o = true → async_commit o = false ∧ Commits.try_one_pc o = false ∧ read_only o = false) ∧
  (validate o = Ok () ↔ ∀ p, pipelined_options o = Some p → pessimistic = false ∧ valid_pipelined p).
Proof.
  pose proof (made_exclusive pessimistic calls) as Hex. fold o in Hex.
  destruct (made_protocols calls (if pessimistic then new_pessimistic else new_optimistic)) as (Hp & Ha & H1 & Hk).
  split_and!; [by destruct pessimistic .. | by apply Hex|].
  rewrite validate_exclusive by done. unfold o, made at 2. rewrite Hk. by destruct pessimistic.
Qed.
End Options.

(** ** The settings of a transaction *)

(** [status as u8] and [TransactionStatus::from], which panics on other bytes *)
Definition status_as_u8 (st : TxnStatus) : Z :=
  match st with
  | ReadOnly => 0 | Active => 1 | Committed => 2 | StartedCommit => 3 | Rolledback => 4 | StartedRollback => 5 | Dropped => 6
  end.
Definition status_from_u8 (num : Z) : option TxnStatus :=
  match num with
  | 0 => Some ReadOnly | 1 => Some Active | 2 => Some Committed | 3 => Some StartedCommit | 4 => Some Rolledback
  | 5 => Some StartedRollback | 6 => Some Dropped | _ => None
  end.

(** The atomic byte of a transaction never makes [get_status] panic. *)
Lemma status_roundtrip st : status_from_u8 (status_as_u8 st) = Some st.
Proof. by destruct st. Qed.

Section settings.
Context {Consumption : Type}.
#[local] Abbreviation RequestContext := (@RequestContext Consumption).
#[local] Abbreviation Setting := (@Setting Consumption).
#[local] Abbreviation RpcInterceptor := (@RpcInterceptor Consumption).

(** [Transactions.Transaction] with the fields it leaves out. *)
Record Txn := mkTxnSettings {
  inner : Transaction; txn_replica_read : ReplicaReadType; txn_stale_read : bool; txn_retry_options : RetryOptions;
  txn_request_context : RequestContext
}.

Definition txn_new (timestamp : Timestamp.t) (o : Options.t) (keyspace : Keyspace) (rc : RequestContext) (has_latches : bool) : Txn :=
  mkTxnSettings (Transaction_new timestamp (Options.core o) keyspace has_latches) (Options.replica_read o) (Options.stale_read o)
    (Options.retry_options o) rc.

Definition set_context (s : Setting) (x : Txn) : Txn :=
  mkTxnSettings (inner x) (txn_replica_read x) (txn_stale_read x) (txn_retry_options x) (context_with s (txn_request_context x)).
Definition update_options (f : TransactionOptions → TransactionOptions) (x : Txn) : Txn :=
  mkTxnSettings (set_options (f (options (inner x))) (inner x)) (txn_replica_read x) (txn_stale_read x) (txn_retry_options x)
    (txn_request_context x).

Definition set_request_source (source : string) : Txn → Txn := set_context (RequestSource source).
Definition set_resource_group_tag (tag : list Z) : Txn → Txn := set_context (ResourceGroupTag tag).
Definition set_resource_group_name (name : string) : Txn → Txn := set_context (ResourceGroupName name).
Definition set_priority (priority : CommandPriority) : Txn → Txn := set_context (Priority priority).
Definition set_disk_full_opt (disk_full_opt : DiskFullOpt) : Txn → Txn := set_context (DiskFull disk_full_opt).
Definition set_txn_source (txn_source : Z) : Txn → Txn := set_context (TxnSource txn_source).
Definition set_resource_control_override_priority (priority : Z) : Txn → Txn := set_context (OverridePriority priority).
Definition set_resource_control_penalty (penalty : Consumption) : Txn → Txn := set_context (ResourceControlPenalty penalty).
Definition set_resource_group_tagger (tagger : ResourceGroupTagger) : Txn → Txn := set_context (Tagger tagger).
Definition set_rpc_interceptor (interceptor : RpcInterceptor) : Txn → Txn := set_context (Interceptors (link interceptor [])).
Definition add_rpc_interceptor (interceptor : RpcInterceptor) : Txn → Txn := set_context (AddInterceptor interceptor).
Definition set_assertion_level (level : AssertionLevel) : Txn → Txn := update_options (Options.core_assertion_level level).
Definition set_commit_wait_until_tso (tso : Z) : Txn → Txn :=
  update_options (Options.core_commit_wait (if tso =? 0 then None else Some tso)).
Definition set_commit_wait_until_tso_timeout (ms : Z) : Txn → Txn := update_options (Options.core_commit_wait_timeout ms).
Definition get_commit_wait_until_tso (x : Txn) : Z := default 0 (commit_wait_until_tso (options (inner x))).

(** The routing that every read starts from. *)
Definition read_routing_of (x : Txn) : ReadRouting :=
  with_request_source (rc_request_source (txn_request_context x))
    (ReadRouting.set_seed (Timestamp.version (timestamp (inner x)) mod 2 ^ 32)
       (ReadRouting_new (txn_replica_read x) (txn_stale_read x))).

(** *** What the setters leave *)

Inductive Setter :=
| SetRequestSource (source : string) | SetResourceGroupTag (tag : list Z) | SetResourceGroupName (name : string)
| SetPriority (priority : CommandPriority) | SetDiskFullOpt (opt : DiskFullOpt) | SetTxnSource (txn_source : Z)
| SetOverridePriority (priority : Z) | SetPenalty (penalty : Consumption) | SetTagger (tagger : @ResourceGroupTagger Consumption)
| SetInterceptor (it : RpcInterceptor) | AddRpcInterceptor (it : RpcInterceptor)
| SetAssertionLevel (level : AssertionLevel) | SetCommitWait (tso : Z) | SetCommitWaitTimeout (ms : Z).

Definition run_setter (x : Txn) (s : Setter) : Txn :=
  match s with
  | SetRequestSource v => set_request_source v x
  | SetResourceGroupTag v => set_resource_group_tag v x
  | SetResourceGroupName v => set_resource_group_name v x
  | SetPriority v => set_priority v x
  | SetDiskFullOpt v => set_disk_full_opt v x
  | SetTxnSource v => set_txn_source v x
  | SetOverridePriority v => set_resource_control_override_priority v x
  | SetPenalty v => set_resource_control_penalty v x
  | SetTagger v => set_resource_group_tagger v x
  | SetInterceptor v => set_rpc_interceptor v x
  | AddRpcInterceptor v => add_rpc_interceptor v x
  | SetAssertionLevel v => set_assertion_level v x
  | SetCommitWait v => set_commit_wait_until_tso v x
  | SetCommitWaitTimeout v => set_commit_wait_until_tso_timeout v x
  end.

(** The value a list of calls sets last, or the value before. *)
Definition last_set {A} (sel : Setter → option A) (before : A) (l : list Setter) : A := default before (last (omap sel l)).

Lemma last_set_fold {A} (sel : Setter → option A) (field : Txn → A) :
  (∀ x s, field (run_setter x s) = default (field x) (sel s)) →
  ∀ l x, field (foldl run_setter x l) = last_set sel (field x) l.
Proof.
  intros Hf l. induction l as [|s l IH] using rev_ind; intros x; [done|]. rewrite foldl_snoc, Hf, IH. unfold last_set.
  rewrite omap_app, last_app. cbn. by destruct (sel s).
Qed.

(** The interceptors: a [set_rpc_interceptor] drops those before it. *)
Definition interceptor_calls (l : list Setter) (before : list RpcInterceptor) : list RpcInterceptor :=
  foldl (λ its s, match s with SetInterceptor it => [it] | AddRpcInterceptor it => its ++ [it] | _ => its end) before l.

Lemma interceptors_fold l : ∀ x its, rpc_interceptors (txn_request_context x) = foldl (λ c it, link it c) [] its →
  rpc_interceptors (txn_request_context (foldl run_setter x l)) = foldl (λ c it, link it c) [] (interceptor_calls l its).
Proof.
  induction l as [|s l IH]; intros x its Hx; [done|]. cbn [foldl interceptor_calls]. apply IH.
  destruct x as [i rr sr ro rc], rc; destruct s; cbn in *; subst; try done. by rewrite foldl_app.
Qed.

(** A setter changes the options of the transaction at most. *)
Lemma setters_inner l : ∀ x, ∃ o, inner (foldl run_setter x l) = set_options o (inner x).
Proof.
  induction l as [|s l IH]; intros x; [exists (options (inner x)); by destruct x as [[]]|]. cbn [foldl].
  destruct (IH (run_setter x s)) as [o ->]. exists o. destruct x as [[] rr sr ro rc]. by destruct s.
Qed.
End settings.

(** *** What the stores get *)

Section sent.
Context {Consumption Client Resp : Type}.
#[local] Abbreviation Setter := (@Setter Consumption).
#[local] Abbreviation Txn := (@Txn Consumption).
#[local] Abbreviation Store := (@RegionStore Consumption Client).

Definition priority_set (s : Setter) := match s with SetPriority v => Some (Some v) | _ => None end.
Definition disk_full_set (s : Setter) := match s with SetDiskFullOpt v => Some (Some v) | _ => None end.
Definition txn_source_set (s : Setter) := match s with SetTxnSource v => Some (Some v) | _ => None end.
Definition source_set (s : Setter) := match s with SetRequestSource v => Some (Some v) | _ => None end.
Definition tag_set (s : Setter) := match s with SetResourceGroupTag v => Some (Some v) | _ => None end.
Definition name_set (s : Setter) := match s with SetResourceGroupName v => Some (Some v) | _ => None end.
Definition penalty_set (s : Setter) := match s with SetPenalty v => Some (Some v) | _ => None end.
Definition override_set (s : Setter) := match s with SetOverridePriority v => Some (Some v) | _ => None end.
Definition tagger_set (s : Setter) := match s with SetTagger v => Some (Some v) | _ => None end.
Definition commit_wait_set (s : Setter) := match s with SetCommitWait v => Some v | _ => None end.
Definition level_set (s : Setter) := match s with SetAssertionLevel v => Some v | _ => None end.

(** The context that the calls [l] make of [rc], each setting by its last call. *)
Definition context_set (l : list Setter) (rc : @RequestContext Consumption) (its : list RpcInterceptor) : @RequestContext Consumption :=
  mkRequestContext (last_set source_set (rc_request_source rc) l) (last_set tag_set (rc_resource_group_tag rc) l)
    (last_set name_set (rc_resource_group_name rc) l) (last_set priority_set (rc_priority rc) l)
    (last_set disk_full_set (rc_disk_full_opt rc) l) (last_set txn_source_set (rc_txn_source rc) l) (rc_trace_id rc)
    (rc_trace_control_flags rc) (last_set penalty_set (rc_resource_control_penalty rc) l)
    (last_set override_set (rc_resource_control_override_priority rc) l) (last_set tagger_set (resource_group_tagger rc) l)
    (keep_last (flat_map leaves (interceptor_calls l its))).

Ltac last_call := let x := fresh "x" in let s := fresh "s" in intros x s; destruct x as [? ? ? ? []]; by destruct s.

Lemma setters_context l (x : Txn) its : rpc_interceptors (txn_request_context x) = foldl (λ c it, link it c) [] its →
  txn_request_context (foldl run_setter x l) = context_set l (txn_request_context x) its.
Proof.
  intros Hx. unfold context_set. rewrite <- linked_chain, <- (interceptors_fold l x its Hx).
  rewrite <- (last_set_fold source_set (λ x, rc_request_source (txn_request_context x))) by last_call.
  rewrite <- (last_set_fold tag_set (λ x, rc_resource_group_tag (txn_request_context x))) by last_call.
  rewrite <- (last_set_fold name_set (λ x, rc_resource_group_name (txn_request_context x))) by last_call.
  rewrite <- (last_set_fold priority_set (λ x, rc_priority (txn_request_context x))) by last_call.
  rewrite <- (last_set_fold disk_full_set (λ x, rc_disk_full_opt (txn_request_context x))) by last_call.
  rewrite <- (last_set_fold txn_source_set (λ x, rc_txn_source (txn_request_context x))) by last_call.
  rewrite <- (last_set_fold penalty_set (λ x, rc_resource_control_penalty (txn_request_context x))) by last_call.
  rewrite <- (last_set_fold override_set (λ x, rc_resource_control_override_priority (txn_request_context x))) by last_call.
  rewrite <- (last_set_fold tagger_set (λ x, resource_group_tagger (txn_request_context x))) by last_call.
  assert (∀ A (f : @RequestContext Consumption → A), (∀ s c, f (context_with s c) = f c ∨
      match s with TraceId _ | TraceControlFlags _ => True | _ => False end) →
    f (txn_request_context (foldl run_setter x l)) = f (txn_request_context x)) as Htrace.
  { intros A f Hf. clear Hx. revert x. induction l as [|s l IH]; intros x; [done|]. cbn [foldl]. rewrite IH.
    destruct s; cbn; try done; match goal with |- f (context_with ?s ?c) = _ => by destruct (Hf s c) end. }
  rewrite <- (Htrace _ rc_trace_id), <- (Htrace _ rc_trace_control_flags) by (intros [] []; cbn; auto).
  by destruct (txn_request_context (foldl run_setter x l)).
Qed.

(** The requests of a transaction after any calls of its setters.  An attempt sends the context in which every setting
    has the value of its last call (or the client's, without one), after the interceptors linked since the last
    [set_rpc_interceptor] have run on it, the last of each name; the other state of the transaction is untouched. *)
Theorem settings_reach_stores (x : Txn) l its health lbl (s : Store) (p : Peer.t) (rc := context_set l (txn_request_context x) its)
    (x' := foldl run_setter x l) (ks := keyspace (inner x')) :
  rpc_interceptors (txn_request_context x) = foldl (λ c it, link it c) [] its →
  store_request_context s = txn_request_context x' → RegionWithLeader.leader (region_with_leader s) = Some p →
  set_options (options (inner x)) (inner x') = inner x ∧
  get_commit_wait_until_tso x' = last_set commit_wait_set (get_commit_wait_until_tso x) l ∧
  assertion_level (options (inner x')) = last_set level_set (assertion_level (options (inner x))) l ∧
  let info := mkInfo lbl (attempt s) (Some (RegionWithLeader.id (region_with_leader s))) (Some (Peer.store_id p)) (replica_kind s)
    (store_replica_read s) (store_stale_read s) in
  ∃ before, apply_to_request s (request (plan (@builder_new _ Resp health ks (apply_to (txn_request_context x') (mkReq Macro lbl None))))) =
    (Ok (), mkReq Macro lbl (Some (chain_apply (keep_last (flat_map leaves (interceptor_calls l its))) info
       (expected_context rc ks s p (expected_tag rc ks s p lbl before))))).
Proof.
  intros Hx Hs Hl. split_and!.
  - unfold x'. destruct (setters_inner l x) as [o ->]. by destruct (inner x).
  - apply (last_set_fold commit_wait_set get_commit_wait_until_tso). intros x0 s0. destruct x0 as [? ? ? ? []].
    destruct s0; try done. cbn. destruct (tso =? 0) eqn:E; cbn; [|done]. unfold get_commit_wait_until_tso. cbn. lia.
  - apply (last_set_fold level_set (λ x, assertion_level (options (inner x)))). last_call.
  - intros info. unfold x', ks in *. pose proof (setters_context l x its Hx) as Hc.
    destruct (@request_context_correct Consumption Client Resp (txn_request_context (foldl run_setter x l)) ks health lbl [] s p)
      as (before & _ & E); [by left | done | done | done |].
    exists before. cbn [foldl] in E. unfold ks in E. rewrite Hc in E |- *. exact E.
Qed.
End sent.

(** ** The other methods *)

Section wrappers.
Context (cl : Cluster).
Definition get_for_update (key : Key) : M Transaction (option Value) := get_for_update_with_options cl key LockOptions.new.
Definition batch_get_for_update (keys : list (list Z)) : M Transaction (list KvPair.t) :=
  batch_get_for_update_with_options cl keys LockOptions.new.
Definition lock_keys (keys : list (list Z)) : M Transaction unit := lock_keys_with_options cl keys LockOptions.new.
Definition txn_key_flags (key : Key) (x : Transaction) : KeyFlags := key_flags (encode_key x key) (buffer x).
End wrappers.

(** *** Heartbeats *)

Section heartbeats.
Context {Consumption Resp : Type}.

(** The builders of the two plans that send a heartbeat: [send_heart_beat] hands the context of the transaction on, the task
    of [start_auto_heartbeat] only applies it to the request. *)
Definition heart_beat_request (x : @Txn Consumption) : Request := apply_to (txn_request_context x) (mkReq Macro "kv_txn_heart_beat" None).
Definition send_heart_beat_builder (health : StoreHealth.t) (x : Txn) : @PlanBuilder Consumption Resp :=
  with_request_context (txn_request_context x) (builder_new health (keyspace (inner x)) (heart_beat_request x)).
Definition auto_heartbeat_builder (health : StoreHealth.t) (x : Txn) : @PlanBuilder Consumption Resp :=
  builder_new health (keyspace (inner x)) (heart_beat_request x).

(** What an attempt of the plan of a builder sends to the leader [p] of the region [r]. *)
Definition first_attempt (b : @PlanBuilder Consumption Resp) (r : Region.t) (p : Peer.t) : Result unit * Request :=
  apply_to_request (mkRegionStore unit (RegionWithLeader.mk r (Some p)) () false false 0 None (builder_context b) (Some KindLeader))
    (request (plan b)).
End heartbeats.

(** A transaction with an interceptor. *)
Definition traced_txn : @Txn unit :=
  set_rpc_interceptor (rpc_interceptor "tracer" (λ _ ctx, KvContext.set_txn_source ctx 7))
    (set_priority High (txn_new (Timestamp.mk 5 0 0) Options.new_optimistic Disable RequestContext_default false)).

(** [set_rpc_interceptor] is documented to act on all requests of the transaction; the heartbeats of its own task go out
    without the interceptors, and without the tagger, while its other settings are there. *)
Lemma auto_heartbeat_not_intercepted (r := Region.mk 4 [] [] None []) (p := Peer.mk 1 7 0 false) :
  (∀ health x, rpc_interceptors (builder_context (@auto_heartbeat_builder unit unit health x)) = [] ∧
     resource_group_tagger (builder_context (@auto_heartbeat_builder unit unit health x)) = None) ∧
  (∃ c, first_attempt (@send_heart_beat_builder unit unit ∅ traced_txn) r p = (Ok (), mkReq Macro "kv_txn_heart_beat" (Some c)) ∧
     KvContext.txn_source c = 7 ∧ KvContext.priority c = 2) ∧
  (∃ c, first_attempt (@auto_heartbeat_builder unit unit ∅ traced_txn) r p = (Ok (), mkReq Macro "kv_txn_heart_beat" (Some c)) ∧
     KvContext.txn_source c = 0 ∧ KvContext.priority c = 2).
Proof. split_and!; [done | by eexists; split; [vm_compute; reflexivity|] ..]. Qed.

(** Two priorities and an interceptor that replaces another of its name. *)
Lemma settings_reach_stores_witness :
  let x : @Txn unit := txn_new (Timestamp.mk 5 0 0) Options.new_optimistic Disable RequestContext_default false in
  let l := [SetPriority Low; AddRpcInterceptor (rpc_interceptor "a" (λ _ ctx, KvContext.set_txn_source ctx 1));
            AddRpcInterceptor (rpc_interceptor "a" (λ _ ctx, KvContext.set_txn_source ctx 2)); SetCommitWait 9; SetPriority High] in
  let s := mkRegionStore unit (RegionWithLeader.mk (Region.mk 4 [] [] None []) (Some (Peer.mk 1 7 0 false))) () false false 0 None
    (txn_request_context (foldl run_setter x l)) (Some KindLeader) in
  ∃ c, apply_to_request s (request (plan (@builder_new _ unit ∅ Disable (apply_to (txn_request_context (foldl run_setter x l)) (mkReq Macro "kv_get" None))))) =
    (Ok (), mkReq Macro "kv_get" (Some c)) ∧ KvContext.priority c = 2 ∧ KvContext.txn_source c = 2 ∧
    get_commit_wait_until_tso (foldl run_setter x l) = 9.
Proof.
  intros x l s. destruct (@settings_reach_stores unit unit unit x l [] ∅ "kv_get" s (Peer.mk 1 7 0 false))
    as (_ & Hw & _ & before & E); [done | done | done |].
  eexists. split; [exact E|]. split_and!; [done | done | exact Hw].
Defined.
