(* ===== verification/Deadlocks.v ===== *)
(** * Deadlock detection (src/src/mock/deadlock_detector.rs)

    The detector of the mock store keeps the wait-for graph of pessimistic transactions: a transaction,
    and the transactions it waits for, each with the hash of the key.  [detect] searches the
    graph before it adds an edge.  The search follows edges without remembering where it was: the
    model takes a fuel, and the theorem shows that it ends because the graph has no cycle. *)

From stdpp Require Import relations.
From S2P Require Import Prelude Keys.

Module TxnKeyHashPair.
Record t := mk { txn : Z; key_hash : Z }.
#[global] Instance eq_dec : EqDecision t.
Proof. solve_decision. Defined.
End TxnKeyHashPair.
#[local] Abbreviation wait_for_map := (gmap Z (list TxnKeyHashPair.t)).
Record DeadlockError := mkDeadlockError { key_hash : Z }.

(** The outer [None] is a search that has not ended. *)
Fixpoint detect_list (search : Z → option (option DeadlockError)) (source_txn : Z) (l : list TxnKeyHashPair.t) :
    option (option DeadlockError) :=
  match l with
  | [] => Some None
  | next :: rest =>
      if TxnKeyHashPair.txn next =? source_txn then Some (Some (mkDeadlockError (TxnKeyHashPair.key_hash next)))
      else
        match search (TxnKeyHashPair.txn next) with
        | None => None
        | Some (Some err) => Some (Some err)
        | Some None => detect_list search source_txn rest
        end
  end.
Fixpoint do_detect (fuel : nat) (m : wait_for_map) (source_txn wait_for_txn : Z) : option (option DeadlockError) :=
  match fuel with
  | O => None
  | S fuel =>
      match m !! wait_for_txn with
      | None => Some None
      | Some l => detect_list (do_detect fuel m source_txn) source_txn l
      end
  end.

Definition register (m : wait_for_map) (source_txn wait_for_txn hash : Z) : wait_for_map :=
  let pair := TxnKeyHashPair.mk wait_for_txn hash in
  let l := default [] (m !! source_txn) in
  if existsb (λ p, bool_decide (p = pair)) l then <[source_txn := l]> m
  else <[source_txn := l ++ [pair]]> m.

Definition detect (fuel : nat) (source_txn wait_for_txn hash : Z) (m : wait_for_map) :
    option (result DeadlockError unit * wait_for_map) :=
  match do_detect fuel m source_txn wait_for_txn with
  | None => None
  | Some (Some err) => Some (Err err, m)
  | Some None => Some (Ok (), register m source_txn wait_for_txn hash)
  end.

Definition clean_up (txn : Z) (m : wait_for_map) : wait_for_map := delete txn m.

Fixpoint remove_first (pair : TxnKeyHashPair.t) (l : list TxnKeyHashPair.t) : list TxnKeyHashPair.t :=
  match l with
  | [] => []
  | p :: rest => if bool_decide (p = pair) then rest else p :: remove_first pair rest
  end.
Definition clean_up_wait_for (txn wait_for_txn hash : Z) (m : wait_for_map) : wait_for_map :=
  match m !! txn with
  | None => m
  | Some l =>
      let l := remove_first (TxnKeyHashPair.mk wait_for_txn hash) l in
      if is_empty l then delete txn m else <[txn := l]> m
  end.

Definition expire (min_ts : Z) (m : wait_for_map) : wait_for_map :=
  filter (λ p : Z * list TxnKeyHashPair.t, min_ts ≤ p.1) m.

(** The operations, as callers issue them; a transaction does not wait for itself. *)
Inductive Op :=
| Detect (source_txn wait_for_txn hash : Z) | CleanUp (txn : Z)
| CleanUpWaitFor (txn wait_for_txn hash : Z) | Expire (min_ts : Z).
Definition op_ok (op : Op) : Prop := match op with Detect s w _ => s ≠ w | _ => True end.
Definition run_op (op : Op) (m : wait_for_map) : option (result DeadlockError unit * wait_for_map) :=
  match op with
  | Detect s w h => detect (S (size m)) s w h m
  | CleanUp txn => Some (Ok (), clean_up txn m)
  | CleanUpWaitFor txn w h => Some (Ok (), clean_up_wait_for txn w h m)
  | Expire min_ts => Some (Ok (), expire min_ts m)
  end.
Fixpoint run_ops (ops : list Op) (m : wait_for_map) : option wait_for_map :=
  match ops with
  | [] => Some m
  | op :: ops => '(_, m) ← run_op op m; run_ops ops m
  end.

(** ** The graph *)

Definition waits_for (m : wait_for_map) (a b : Z) : Prop :=
  ∃ l hash, m !! a = Some l ∧ TxnKeyHashPair.mk b hash ∈ l.
Definition acyclic (m : wait_for_map) : Prop := ∀ t, ¬ tc (waits_for m) t t.

Section search.
Context (m : wait_for_map) (source_txn : Z).

Definition found (w : Z) (err : DeadlockError) : Prop :=
  ∃ x l, rtc (waits_for m) w x ∧ m !! x = Some l ∧ TxnKeyHashPair.mk source_txn (key_hash err) ∈ l.

Lemma detect_list_sound (search : Z → option (option DeadlockError)) l r : detect_list search source_txn l = Some r →
  match r with
  | Some err => ∃ next, next ∈ l ∧ ((TxnKeyHashPair.txn next = source_txn ∧ key_hash err = TxnKeyHashPair.key_hash next) ∨
      search (TxnKeyHashPair.txn next) = Some (Some err))
  | None => ∀ next, next ∈ l → TxnKeyHashPair.txn next ≠ source_txn ∧ search (TxnKeyHashPair.txn next) = Some None
  end.
Proof.
  revert r. induction l as [|next l IH]; intros r; cbn.
  - intros [= <-] n ?%elem_of_nil. done.
  - destruct (Z.eqb_spec (TxnKeyHashPair.txn next) source_txn) as [E|E].
    { intros [= <-]. exists next. split; [by apply elem_of_cons; left|]. by left. }
    destruct (search _) as [[err|]|] eqn:Es; [| |done].
    + intros [= <-]. exists next. split; [by apply elem_of_cons; left|]. by right.
    + intros H%IH. destruct r as [err|].
      * destruct H as (n & Hn & H). exists n. split; [by apply elem_of_cons; right | done].
      * intros n [->|Hn]%elem_of_cons; [done | by apply H].
Qed.

Lemma waits_in next w l : m !! w = Some l → next ∈ l → waits_for m w (TxnKeyHashPair.txn next).
Proof. intros El Hn. exists l, (TxnKeyHashPair.key_hash next). split; [done|]. by destruct next. Qed.

(** A search that ends answers whether there is a path to the source. *)
Lemma do_detect_sound fuel w r : do_detect fuel m source_txn w = Some r →
  match r with Some err => found w err | None => ¬ tc (waits_for m) w source_txn end.
Proof.
  revert w r. induction fuel as [|fuel IH]; intros w r; [done|]. cbn [do_detect]. destruct (m !! w) as [l|] eqn:Ew.
  - intros H%detect_list_sound. destruct r as [err|].
    + destruct H as (next & Hn & [[E Eh]|H]).
      * exists w, l. split; [done|]. split; [done|]. rewrite Eh, <- E. by destruct next.
      * apply IH in H as (x & l' & Hx & Hl'). exists x, l'. split; [|done]. eapply rtc_l; [by eapply waits_in | done].
    + intros Htc. assert (∃ b, waits_for m w b ∧ (b = source_txn ∨ tc (waits_for m) b source_txn)) as (b & (l' & h & El & Hb) & Hc).
      { inversion Htc; subst; eauto. }
      assert (l' = l) as -> by congruence. apply H in Hb as [Hne Hs]. cbn in *. apply IH in Hs. destruct Hc; done.
  - intros [= <-] Htc. assert (∃ b, waits_for m w b) as (b & l & h & El & _) by (inversion Htc; subst; eauto). congruence.
Qed.

(** Without a cycle the search visits a transaction at most once on each path. *)
Lemma do_detect_ends fuel w (V : gset Z) : acyclic m → (∀ v, v ∈ V → tc (waits_for m) v w) →
  (size (dom m ∖ V) < fuel)%nat → is_Some (do_detect fuel m source_txn w).
Proof.
  intros Ha. revert w V. induction fuel as [|fuel IH]; intros w V HV Hf; [lia|]. cbn [do_detect].
  destruct (m !! w) as [l|] eqn:Ew; [|by eexists].
  assert (w ∉ V) as HwV by (intros Hw; by apply (Ha w), HV).
  assert (size (dom m ∖ (V ∪ {[w]})) < fuel)%nat as Hf'.
  { assert (size (dom m ∖ (V ∪ {[w]})) < size (dom m ∖ V))%nat; [|lia]. apply subset_size.
    split; [set_solver|]. intros Hsub. assert (w ∈ dom m) by (apply elem_of_dom; eauto). set_solver. }
  assert (∀ next, next ∈ l → is_Some (do_detect fuel m source_txn (TxnKeyHashPair.txn next))) as Hs.
  { intros next Hn. apply (IH _ (V ∪ {[w]})); [|done]. pose proof (waits_in next w l Ew Hn) as Hw.
    intros v [Hv| ->%elem_of_singleton]%elem_of_union; [|by constructor]. eapply tc_r; [by apply HV | done]. }
  clear -Hs. induction l as [|next l IH]; cbn; [by eexists|]. destruct (_ =? _); [by eexists|].
  destruct (Hs next) as [[err|] ->]; [by apply elem_of_cons; left | by eexists |]. apply IH.
  intros n Hn. apply Hs. by apply elem_of_cons; right.
Qed.
End search.

(** ** The graph stays acyclic *)

Lemma tc_subrelation (R R' : Z → Z → Prop) a b : (∀ x y, R x y → R' x y) → tc R a b → tc R' a b.
Proof. intros Hs H. induction H; [constructor; auto | eapply tc_l; eauto]. Qed.

Lemma acyclic_sub m m' : (∀ a b, waits_for m' a b → waits_for m a b) → acyclic m → acyclic m'.
Proof. intros Hs Ha t Ht. apply (Ha t). eapply tc_subrelation; [|exact Ht]. intros a b. apply Hs. Qed.

Lemma register_edges m s w h a b : waits_for (register m s w h) a b ↔ waits_for m a b ∨ (a = s ∧ b = w).
Proof.
  unfold register. set (pair := TxnKeyHashPair.mk w h). destruct (existsb _ _) eqn:E.
  - apply existsb_exists in E as (p & Hp%list_elem_of_In & ->%bool_decide_eq_true).
    destruct (m !! s) as [l|] eqn:Es; cbn in *; [|by apply elem_of_nil in Hp]. rewrite insert_id by done.
    split; [auto|]. intros [?|[-> ->]]; [done|]. by exists l, h.
  - unfold waits_for. destruct (decide (s = a)) as [<-|Hne].
    + rewrite lookup_insert_eq. split.
      * intros (l & hash & [= <-] & Hin). apply elem_of_app in Hin as [Hin|Hin%list_elem_of_singleton].
        -- destruct (m !! s) as [l|] eqn:Es; cbn in Hin; [left; eauto | by apply elem_of_nil in Hin].
        -- right. by injection Hin as ->.
      * intros [(l & hash & Es & Hin)|[_ ->]]; eexists _, _; (split; [done|]); rewrite elem_of_app.
        -- left. rewrite Es. exact Hin.
        -- right. by apply list_elem_of_singleton.
    + rewrite lookup_insert_ne by done. split; [auto|]. intros [?|[-> _]]; done.
Qed.

Lemma remove_first_in pair l p : p ∈ remove_first pair l → p ∈ l.
Proof.
  induction l as [|x l IH]; cbn; [done|]. rewrite elem_of_cons. case_bool_decide; [auto|].
  rewrite elem_of_cons. intros [?|?]; auto.
Qed.

(** A cycle of the graph with one more edge uses it, and the rest of it is a path back. *)
Lemma extended_path (R : Z → Z → Prop) s w a b : tc (λ x y, R x y ∨ (x = s ∧ y = w)) a b →
  tc R a b ∨ (rtc R a s ∧ rtc R w b).
Proof.
  intros H. induction H as [a b [H|[-> ->]]|a c b [H|[-> ->]] _ IH].
  - left. by constructor.
  - by right.
  - destruct IH as [IH|[IH1 IH2]]; [left; by eapply tc_l|]. right. split; [by eapply rtc_l | done].
  - right. split; [done|]. destruct IH as [IH|[_ IH]]; [by apply tc_rtc | done].
Qed.

Lemma register_acyclic m s w h : acyclic m → s ≠ w → ¬ tc (waits_for m) w s → acyclic (register m s w h).
Proof.
  intros Ha Hne Hn t Ht. assert (tc (λ x y, waits_for m x y ∨ (x = s ∧ y = w)) t t) as Ht'.
  { eapply tc_subrelation; [|exact Ht]. intros a b. by rewrite register_edges. }
  apply extended_path in Ht' as [?|[H1 H2]]; [by apply (Ha t)|].
  assert (rtc (waits_for m) w s) as Hws by (by transitivity t). apply rtc_tc in Hws as [?|?]; done.
Qed.

Lemma run_op_acyclic op m : op_ok op → acyclic m → ∃ r m', run_op op m = Some (r, m') ∧ acyclic m' ∧
  match op, r with
  | Detect s w h, Ok _ => ¬ tc (waits_for m) w s ∧ ∀ a b, waits_for m' a b ↔ waits_for m a b ∨ (a = s ∧ b = w)
  | Detect s w h, Err err => m' = m ∧ tc (waits_for m) w s ∧ found m s w err
  | _, _ => ∀ a b, waits_for m' a b → waits_for m a b
  end.
Proof.
  intros Hop Ha. destruct op as [s w h|txn|txn w h|min_ts]; cbn [run_op op_ok] in *.
  - unfold detect. destruct (do_detect_ends m s (S (size m)) w ∅ Ha) as [r Er]; [set_solver | rewrite difference_empty_L, size_dom; lia|].
    rewrite Er. apply do_detect_sound in Er. destruct r as [err|].
    + exists (Err err), m. split_and!; try done. destruct Er as (x & l & Hx & El & Hin). eapply tc_rtc_l; [exact Hx|].
      constructor. by exists l, (key_hash err).
    + eexists _, _. split; [done|]. split; [by apply register_acyclic|]. split; [done|]. intros a b. apply register_edges.
  - assert (∀ a b, waits_for (clean_up txn m) a b → waits_for m a b) as Hs.
    { unfold clean_up. intros a b (l & h & [_ El]%lookup_delete_Some & Hin). by exists l, h. }
    eexists _, _. split; [done|]. split; [by eapply acyclic_sub | done].
  - assert (∀ a b, waits_for (clean_up_wait_for txn w h m) a b → waits_for m a b) as Hs.
    { intros a b (l & hash & El & Hin). unfold clean_up_wait_for in El. destruct (m !! txn) as [l0|] eqn:E; [|by exists l, hash].
      destruct (is_empty _); [apply lookup_delete_Some in El as [_ El]; by exists l, hash|].
      apply lookup_insert_Some in El as [[-> <-]|[_ El]]; [|by exists l, hash]. exists l0, hash. split; [done|]. by eapply remove_first_in. }
    eexists _, _. split; [done|]. split; [by eapply acyclic_sub | done].
  - assert (∀ a b, waits_for (expire min_ts m) a b → waits_for m a b) as Hs.
    { unfold expire. intros a b (l & hash & [El _]%map_lookup_filter_Some & Hin). by exists l, hash. }
    eexists _, _. split; [done|]. split; [by eapply acyclic_sub | done].
Qed.

Lemma acyclic_empty : acyclic ∅.
Proof. intros t Ht. assert (∃ b, waits_for ∅ t b) as (b & l & h & El & _) by (inversion Ht; subst; eauto). by rewrite lookup_empty in El. Qed.

Lemma run_ops_acyclic ops m : Forall op_ok ops → acyclic m → ∃ m', run_ops ops m = Some m' ∧ acyclic m'.
Proof.
  intros HF. revert m. induction HF as [|op ops Hop HF IH]; intros m Ha; cbn [run_ops]; [by exists m|].
  destruct (run_op_acyclic op m Hop Ha) as (r & m' & -> & Ha' & _). by apply IH.
Qed.

(** The detector reports a deadlock exactly when there is one.  After any sequence of operations in which
    no transaction waits for itself, the wait-for graph has no cycle and the search ends (its fuel,
    the number of waiting transactions and one, is never used up); [detect] then refuses an
    edge exactly if it would close a cycle, with the hash of the key on which some transaction on that cycle
    waits for the source, and otherwise adds this edge and no other. *)
Theorem deadlock_detector_correct ops s w h : Forall op_ok ops → s ≠ w →
  ∃ m, run_ops ops ∅ = Some m ∧ acyclic m ∧ ∃ r m', detect (S (size m)) s w h m = Some (r, m') ∧ acyclic m' ∧
  match r with
  | Ok _ => ¬ tc (waits_for m) w s ∧ ∀ a b, waits_for m' a b ↔ waits_for m a b ∨ (a = s ∧ b = w)
  | Err err => m' = m ∧ tc (waits_for m) w s ∧ found m s w err
  end.
Proof.
  intros HF Hne. destruct (run_ops_acyclic ops ∅ HF acyclic_empty) as (m & E & Ha). exists m. split; [done|]. split; [done|].
  destruct (run_op_acyclic (Detect s w h) m Hne Ha) as (r & m' & E' & Ha' & H). by exists r, m'.
Qed.

Lemma deadlock_detector_correct_witness :
  ∃ m, run_ops [Detect 1 2 100; Detect 2 3 200] ∅ = Some m ∧ detect (S (size m)) 3 1 300 m = Some (Err (mkDeadlockError 200), m).
Proof.
  destruct (deadlock_detector_correct [Detect 1 2 100; Detect 2 3 200] 3 1 300) as (m & E & _ & r & m' & E' & _ & H); [|done|].
  - by repeat constructor.
  - exists m. split; [exact E|]. vm_compute in E. injection E as <-. vm_compute in E'. injection E' as <- <-. vm_compute. reflexivity.
Defined.

(** A transaction that waits for itself is accepted, and the next search that reaches it does not end. *)
Lemma self_wait_never_ends : ∃ m, detect 2 1 1 100 ∅ = Some (Ok (), m) ∧ ∀ fuel, detect fuel 2 1 200 m = None.
Proof.
  exists {[1 := [TxnKeyHashPair.mk 1 100]]}. split; [reflexivity|]. intros fuel. unfold detect.
  assert (do_detect fuel {[1 := [TxnKeyHashPair.mk 1 100]]} 2 1 = None) as ->; [|done].
  induction fuel as [|fuel IH]; [done|]. cbn [do_detect]. rewrite lookup_singleton_eq. cbn. by rewrite IH.
Qed.
