(* ===== verification/KeyspaceDecoding.v ===== *)
(** * Decoding keyspace keys and buckets (src/src/request/keyspace.rs)

    The inverse of the encoding of keyspaces: the keyspace of an encoded key, its two parts, and
    the bucket boundaries of a region as the user of a keyspace sees them. *)

From Stdlib Require Import Sorting.Sorted.
From S2P Require Import Prelude Keys Proto Errors Codec Ranges Keyspaces Sharding.

Inductive KeyspaceDecodeError := TooShort | UnknownModePrefix (prefix : Z).

Definition check_v2_key (encoded : list Z) : result KeyspaceDecodeError unit :=
  if (length encoded <? KEYSPACE_PREFIX_LEN)%nat then Err TooShort
  else
    let prefix := nth 0 encoded 0 in
    if (prefix =? RAW_KEY_PREFIX) || (prefix =? TXN_KEY_PREFIX) then Ok () else Err (UnknownModePrefix prefix).
(** [u32::from_be_bytes] *)
Definition from_be_bytes (a b c d : Z) : Z := Z.shiftl a 24 + Z.shiftl b 16 + Z.shiftl c 8 + d.
Definition parse_keyspace_id (encoded : list Z) : result KeyspaceDecodeError Z :=
  _ ← check_v2_key encoded;
  Ok (from_be_bytes 0 (nth 1 encoded 0) (nth 2 encoded 0) (nth 3 encoded 0)).
Definition decode_key (encoded : list Z) (version : ApiVersion) : result KeyspaceDecodeError (list Z * list Z) :=
  match version with
  | V1 | V1ttl => Ok ([], encoded)
  | V2 => _ ← check_v2_key encoded; Ok (take KEYSPACE_PREFIX_LEN encoded, drop KEYSPACE_PREFIX_LEN encoded)
  end.

(** ** Buckets *)
Definition push_dedup_key (keys : list (list Z)) (key : list Z) : list (list Z) :=
  match last keys with
  | Some prev => if key_eqb prev key then keys else keys ++ [key]
  | None => keys ++ [key]
  end.
Fixpoint bucket_loop (prefix end_ : list Z) (bucket_keys decoded : list (list Z)) : Result (list (list Z)) :=
  match bucket_keys with
  | [] => Ok decoded
  | key :: rest =>
      if is_empty key then bucket_loop prefix end_ rest (push_dedup_key decoded [])
      else
        key ← decode_bytes_in_place key false;
        if is_empty key then bucket_loop prefix end_ rest (push_dedup_key decoded [])
        else if key_ltb key prefix then bucket_loop prefix end_ rest decoded
        else if key_leb end_ key then Ok (push_dedup_key decoded [])
        else if (length key <? KEYSPACE_PREFIX_LEN)%nat || negb (bool_decide (prefix `prefix_of` key))
        then bucket_loop prefix end_ rest decoded
        else bucket_loop prefix end_ rest (push_dedup_key decoded (drop KEYSPACE_PREFIX_LEN key))
  end.
Definition decode_bucket_keys (bucket_keys : list (list Z)) (keyspace : Keyspace) (key_mode : KeyMode) : Result (list (list Z)) :=
  match keyspace with
  | Disable => Ok bucket_keys
  | Enable keyspace_id =>
      decoded ← bucket_loop (keyspace_prefix keyspace_id key_mode) (keyspace_end_prefix keyspace_id key_mode) bucket_keys [];
      let decoded := match head decoded with Some (_ :: _) | None => [] :: decoded | Some [] => decoded end in
      Ok (match last decoded with Some (_ :: _) | None => decoded ++ [[]] | Some [] => decoded end)
  end.

(** ** The round trip *)

(** Decoding is the inverse of encoding.  An encoded user key is recognised as a key of API v2, and
    decoding gives back the keyspace it was encoded for, its prefix and the user key; without
    a keyspace the key itself.  A key that is too short or of an unknown mode is refused. *)
Theorem decode_encoded_key ks m k : (∀ id, ks = Enable id → valid_id id) → wf_key k →
  decode_key (encode_keyspace_key k ks m) (api_version ks) =
    Ok (match ks with Disable => [] | Enable id => keyspace_prefix id m end, k) ∧
  (∀ id, ks = Enable id → parse_keyspace_id (encode_keyspace_key k ks m) = Ok id) ∧
  ∀ key, (length key < 4)%nat ∨ (nth 0 key 0 ≠ RAW_KEY_PREFIX ∧ nth 0 key 0 ≠ TXN_KEY_PREFIX) →
    (∃ e, decode_key key V2 = Err e) ∧ ∃ e, parse_keyspace_id key = Err e.
Proof.
  intros Hid Hk.
  assert (∀ key, (length key < 4)%nat ∨ (nth 0 key 0 ≠ RAW_KEY_PREFIX ∧ nth 0 key 0 ≠ TXN_KEY_PREFIX) →
    ∃ e, check_v2_key key = Err e) as Hbad.
  { intros key H. unfold check_v2_key, KEYSPACE_PREFIX_LEN. destruct (Nat.ltb_spec (length key) 4); [eauto|].
    destruct H as [?|[H1 H2]]; [lia|]. apply Z.eqb_neq in H1, H2. rewrite H1, H2. eauto. }
  destruct ks as [|id]; cbn [api_version decode_key encode_keyspace_key].
  - split_and!; [done | done |]. intros key [e He]%Hbad. unfold decode_key, parse_keyspace_id. rewrite He. split; by eexists.
  - rewrite prepend_bytes_app. pose proof (Hid id eq_refl) as Hv.
    assert (check_v2_key (keyspace_prefix id m ++ k) = Ok ()) as Hc.
    { unfold check_v2_key. rewrite length_app, keyspace_prefix_length.
      destruct (keyspace_prefix_bytes id m) as (a & b & c & -> & _). destruct m; reflexivity. }
    rewrite Hc. cbn [mbind result_bind]. split_and!.
    + by rewrite take_app_length', drop_app_length' by (symmetry; apply keyspace_prefix_length).
    + intros ? [= <-]. unfold parse_keyspace_id. rewrite Hc. cbn [mbind result_bind]. f_equal.
      destruct (keyspace_prefix_bytes id m) as (a & b & c & -> & Ha & Hb & Hcc & E). cbn. unfold from_be_bytes.
      rewrite !Z.shiftl_mul_pow2 by lia. rewrite (E Hv). lia.
    + intros key [e He]%Hbad. unfold decode_key, parse_keyspace_id. rewrite He. split; by eexists.
Qed.

Lemma decode_encoded_key_witness :
  decode_key (encode_keyspace_key [1; 2] (Enable 4242) Txn) V2 = Ok (keyspace_prefix 4242 Txn, [1; 2]) ∧
  parse_keyspace_id (encode_keyspace_key [1; 2] (Enable 4242) Txn) = Ok 4242.
Proof.
  destruct (decode_encoded_key (Enable 4242) Txn [1; 2]) as (H & Hid & _).
  - intros id [= <-]. unfold valid_id, MAX_KEYSPACE_ID. lia.
  - unfold wf_key, in_u8. repeat constructor; lia.
  - split; [exact H | by apply Hid].
Defined.

(** ** Bucket boundaries *)
Section buckets.
Context (id : Z) (m : KeyMode).
#[local] Abbreviation prefix := (keyspace_prefix id m).
#[local] Abbreviation end_ := (keyspace_end_prefix id m).
#[local] Abbreviation loop := (bucket_loop prefix end_).

(** A boundary as the region has it: encoded, or empty when unbounded. *)
Definition bucket_key (key : list Z) : list Z := if is_empty key then [] else to_encoded key.

Lemma bucket_loop_step key rest decoded : wf_key key → key ≠ [] →
  loop (bucket_key key :: rest) decoded =
    if key_ltb key prefix then loop rest decoded
    else if key_leb end_ key then Ok (push_dedup_key decoded [])
    else if (length key <? KEYSPACE_PREFIX_LEN)%nat || negb (bool_decide (prefix `prefix_of` key)) then loop rest decoded
    else loop rest (push_dedup_key decoded (drop KEYSPACE_PREFIX_LEN key)).
Proof.
  intros Hk Hne. unfold bucket_key. destruct (is_empty_spec key) as [?|_]; [done|]. cbn [bucket_loop].
  destruct (is_empty_spec (to_encoded key)) as [E|_]; [by apply to_encoded_ne in E|].
  rewrite decode_to_encoded by done. cbn [mbind result_bind]. destruct (is_empty_spec key); done.
Qed.

(** A key of the keyspace. *)
Lemma bucket_loop_inside u rest decoded : wf_key u →
  loop (bucket_key (prefix ++ u) :: rest) decoded = loop rest (push_dedup_key decoded u).
Proof.
  intros Hu. destruct (encoded_in_keyspace id m u Hu) as [Hle Hlt].
  rewrite bucket_loop_step; [|by apply encoded_wf | intros E; pose proof (encoded_length id m u); by rewrite E in *; cbn in *; lia].
  destruct (key_ltb_spec (prefix ++ u) prefix) as [H|_]; [by key_order|].
  destruct (key_leb_spec end_ (prefix ++ u)) as [H|_]; [by key_order|].
  rewrite length_app, keyspace_prefix_length, bool_decide_eq_true_2 by (by eexists).
  rewrite drop_app_length' by (symmetry; apply keyspace_prefix_length). done.
Qed.

(** The boundaries before the keyspace add nothing but its start. *)
Lemma bucket_loop_before before rest decoded : decoded = [] ∨ decoded = [[]] →
  Forall (λ k, wf_key k ∧ (k = [] ∨ key_lt k prefix ∨ k = prefix)) before →
  ∃ decoded', loop (map bucket_key before ++ rest) decoded = loop rest decoded' ∧ (decoded' = [] ∨ decoded' = [[]]).
Proof.
  intros Hd HF. revert decoded Hd. induction HF as [|k before [Hwf Hk] HF IH]; intros decoded Hd; cbn [map app]; [by exists decoded|].
  assert (push_dedup_key decoded [] = [[]]) as Hp by (by destruct Hd as [-> | ->]).
  destruct (decide (k = [])) as [->|Hne].
  { cbn [bucket_key is_empty bucket_loop]. rewrite Hp. apply IH. by right. }
  destruct Hk as [?|[Hlt| ->]]; [done| |].
  - rewrite bucket_loop_step by done. rewrite key_ltb_true by done. by apply IH.
  - replace (bucket_key prefix) with (bucket_key (prefix ++ [])) by (by rewrite app_nil_r). rewrite bucket_loop_inside by constructor. rewrite Hp. apply IH. by right.
Qed.

(** The keys of the keyspace are kept, in order. *)
Lemma bucket_loop_keys us rest decoded : Forall wf_key us → StronglySorted key_lt us →
  (∀ u, head us = Some u → ∀ k, last decoded = Some k → k ≠ u) →
  loop (map (λ u, bucket_key (prefix ++ u)) us ++ rest) decoded = loop rest (decoded ++ us).
Proof.
  intros HF. revert decoded. induction HF as [|u us Hu HF IH]; intros decoded Hs Hhd; cbn [map app]; [by rewrite app_nil_r|].
  apply StronglySorted_inv in Hs as [Hs Hlt]. rewrite bucket_loop_inside by done.
  assert (push_dedup_key decoded u = decoded ++ [u]) as ->.
  { unfold push_dedup_key. destruct (last decoded) as [k|] eqn:El; [|done].
    destruct (key_eqb_spec k u) as [->|]; [|done]. by destruct (Hhd u eq_refl u). }
  rewrite IH; [by rewrite <- app_assoc | done |]. intros u' Hu' k Hk ->. rewrite last_snoc in Hk. injection Hk as ->.
  destruct us as [|x us]; [done|]. injection Hu' as ->. apply Forall_cons in Hlt as [Hlt _]. by key_order.
Qed.
End buckets.

(** The buckets of a region, seen from a keyspace.  Of the boundaries of a region (encoded, in order, with
    an unbounded first or last one), the ones strictly inside the keyspace are returned without their prefix
    and in order, between two unbounded ends: boundaries before the keyspace, its own start, and
    everything from its end on are cut off. *)
Theorem decode_bucket_keys_correct id m before us after :
  Forall (λ k, wf_key k ∧ (k = [] ∨ key_lt k (keyspace_prefix id m) ∨ k = keyspace_prefix id m)) before →
  us ≠ [] → Forall (λ u, wf_key u ∧ u ≠ []) us → StronglySorted key_lt us →
  (after = [] ∨ after = [[]] ∨ ∃ k rest, after = to_encoded k :: rest ∧ wf_key k ∧ key_le (keyspace_end_prefix id m) k) →
  decode_bucket_keys (map bucket_key before ++ map (λ u, bucket_key (keyspace_prefix id m ++ u)) us ++ after) (Enable id) m =
    Ok ([] :: us ++ [[]]).
Proof.
  intros Hbefore Hne Hus Hs Hafter. unfold decode_bucket_keys.
  destruct (bucket_loop_before id m before (map (λ u, bucket_key (keyspace_prefix id m ++ u)) us ++ after) [] (or_introl eq_refl) Hbefore)
    as (d & -> & Hd).
  assert (Forall wf_key us) as Hwf by (eapply Forall_impl; [exact Hus | by intros ? []]).
  assert (Forall (λ u, u ≠ []) us) as Hnn by (eapply Forall_impl; [exact Hus | by intros ? []]).
  rewrite bucket_loop_keys; [|done|done|].
  2: { intros u Hu k Hk ->. destruct us as [|x us]; [done|]. injection Hu as ->. apply Forall_cons in Hnn as [Hn _].
       destruct Hd as [-> | ->]; [done|]. by injection Hk. }
  assert (∃ u us', us = us' ++ [u] ∧ u ≠ []) as (u & us' & Eus & Hu).
  { destruct us as [|u us' _] using rev_ind; [done|]. apply Forall_app in Hnn as [_ [Hu _]%Forall_cons]. eauto. }
  assert (∀ l, push_dedup_key (l ++ us) [] = l ++ us ++ [[]]) as Hpush.
  { intros l. unfold push_dedup_key. rewrite Eus, app_assoc, last_snoc. destruct (key_eqb_spec u []); [done|]. by rewrite <- !app_assoc. }
  assert (bucket_loop (keyspace_prefix id m) (keyspace_end_prefix id m) after (d ++ us) = Ok (d ++ us) ∨
    bucket_loop (keyspace_prefix id m) (keyspace_end_prefix id m) after (d ++ us) = Ok (d ++ us ++ [[]])) as Hend.
  { destruct Hafter as [->|[->|(k & rest & -> & Hk & Hle)]]; [by left | right; cbn [bucket_loop is_empty]; by rewrite Hpush|].
    right. destruct (encoded_in_keyspace id m [] (Forall_nil_2 _)) as [_ Hlt]. rewrite app_nil_r in Hlt.
    assert (k ≠ []) as Hk0.
    { intros ->. pose proof (key_empty_le (keyspace_prefix id m)). by key_order. }
    pose proof (bucket_loop_step id m k rest (d ++ us) Hk Hk0) as E. unfold bucket_key in E.
    destruct (is_empty_spec k); [done|]. rewrite E.
    destruct (key_ltb_spec k (keyspace_prefix id m)); [by key_order|]. rewrite key_leb_true by done. by rewrite Hpush. }
  assert (∀ tail, match head (d ++ us ++ tail) with Some (_ :: _) | None => [] :: (d ++ us ++ tail) | Some [] => d ++ us ++ tail end =
    [] :: us ++ tail) as Hh.
  { intros tail. destruct Hd as [-> | ->]; [|done]. cbn [app]. destruct us as [|[|]]; [done| |done]. by apply Forall_cons in Hnn as [? _]. }
  destruct Hend as [-> | ->]; cbn [mbind result_bind].
  - pose proof (Hh []) as Hh0. rewrite !app_nil_r in Hh0. rewrite Hh0, Eus, app_comm_cons, last_snoc. by destruct u.
  - rewrite Hh, app_comm_cons, last_snoc. done.
Qed.

Lemma decode_bucket_keys_correct_witness :
  decode_bucket_keys [to_encoded [1]; to_encoded (keyspace_prefix 7 Raw ++ [5]); to_encoded (keyspace_prefix 7 Raw ++ [6]); []] (Enable 7) Raw =
    Ok [[]; [5]; [6]; []].
Proof.
  apply (decode_bucket_keys_correct 7 Raw [[1]] [[5]; [6]] [[]]).
  - constructor; [|done]. split; [unfold wf_key, in_u8; repeat constructor; lia|]. right; left. reflexivity.
  - done.
  - unfold wf_key, in_u8. repeat constructor; try lia; done.
  - repeat constructor.
  - auto.
Defined.

(** A keyspace inside one bucket: the two ends are merged, and no bucket is left. *)
Lemma single_bucket_lost : decode_bucket_keys [[]; []] (Enable 7) Raw = Ok [[]].
Proof. reflexivity. Qed.
