(* ===== verification/GcTime.v ===== *)
(** * Times of the garbage collector (src/src/util/gc_time.rs)

    The calendar (days since 1970 and civil dates), the parser of gc_worker times and the
    formatter.  A string is the list of its bytes, a [SystemTime] the number of
    nanoseconds since the epoch; [div_euclid] and [rem_euclid] by a positive constant are
    [Z.div] and [Z.modulo].

    The theorems: the calendar is a bijection between days and valid dates from the year 0
    on, and what is formatted parses to the same time, cut to milliseconds. *)

From Stdlib Require Import Ascii String.
From S2P Require Import Prelude.

(** ** The calendar *)

Definition days_from_civil (year month day : Z) : Z :=
  let y := year - (if month <=? 2 then 1 else 0) in
  let era := (if 0 <=? y then y else y - 399) / 400 in
  let yoe := y - era * 400 in
  let mp := month + (if 2 <? month then -3 else 9) in
  let doy := (153 * mp + 2) / 5 + day - 1 in
  let doe := yoe * 365 + yoe / 4 - yoe / 100 + doy in
  era * 146097 + doe - 719468.

(** [as i32] *)
Definition as_i32 (z : Z) : Z := (z + 2147483648) mod 4294967296 - 2147483648.

Definition civil_from_days (days : Z) : Z * Z * Z :=
  let z := days + 719468 in
  let era := (if 0 <=? z then z else z - 146096) / 146097 in
  let doe := z - era * 146097 in
  let yoe := (doe - doe / 1460 + doe / 36524 - doe / 146096) / 365 in
  let y := yoe + era * 400 in
  let doy := doe - (365 * yoe + yoe / 4 - yoe / 100) in
  let mp := (5 * doy + 2) / 153 in
  let d := doy - (153 * mp + 2) / 5 + 1 in
  let m := mp + (if mp <? 10 then 3 else -9) in
  let year := y + (if m <=? 2 then 1 else 0) in
  (as_i32 year, m, d).

(** ** Parsing *)

Definition is_ascii_digit (b : Z) : bool := (48 <=? b) && (b <=? 57).

Fixpoint parse_digits (bytes : list Z) (v : Z) : option Z :=
  match bytes with
  | [] => Some v
  | b :: bytes => if negb (is_ascii_digit b) then None else parse_digits bytes (v * 10 + (b - 48))
  end.
Definition parse_u32_fixed (bytes : list Z) (start len : nat) : option Z :=
  if (length bytes <? start + len)%nat then None else parse_digits (take len (drop start bytes)) 0.

Definition byte_at (bytes : list Z) (i : nat) (b : Z) : bool := bool_decide (bytes !! i = Some b).

(** The loop over the digits after the point: the fraction and how many digits it has. *)
Fixpoint parse_fraction (bytes : list Z) (frac : Z) (digits : nat) : option (Z * nat) :=
  match bytes with
  | [] => Some (frac, digits)
  | b :: bytes =>
      if negb (is_ascii_digit b) then None
      else if (digits =? 9)%nat then None
      else parse_fraction bytes (frac * 10 + (b - 48)) (S digits)
  end.

Record DateTimeParts := mkParts {
  dt_year : Z; dt_month : Z; dt_day : Z; dt_hour : Z; dt_minute : Z; dt_second : Z; dt_nanos : Z }.

Definition guard_ok (b : bool) : option unit := if b then Some () else None.

Definition parse_datetime (bytes : list Z) : option DateTimeParts :=
  _ ← guard_ok (17 <=? length bytes)%nat;
  year ← parse_u32_fixed bytes 0 4;
  month ← parse_u32_fixed bytes 4 2;
  day ← parse_u32_fixed bytes 6 2;
  _ ← guard_ok (byte_at bytes 8 45);
  hour ← parse_u32_fixed bytes 9 2;
  _ ← guard_ok (byte_at bytes 11 58);
  minute ← parse_u32_fixed bytes 12 2;
  _ ← guard_ok (byte_at bytes 14 58);
  second ← parse_u32_fixed bytes 15 2;
  _ ← guard_ok ((1 <=? month) && (month <=? 12) && ((1 <=? day) && (day <=? 31)));
  _ ← guard_ok ((hour <=? 23) && (minute <=? 59) && (second <=? 59));
  if (length bytes =? 17)%nat then Some (mkParts year month day hour minute second 0)
  else
    _ ← guard_ok (byte_at bytes 17 46);
    '(frac, digits) ← parse_fraction (drop 18 bytes) 0 0;
    _ ← guard_ok (negb (digits =? 0)%nat);
    Some (mkParts year month day hour minute second (frac * 10 ^ Z.of_nat (9 - digits))).

Definition parse_offset_seconds (bytes : list Z) : option Z :=
  _ ← guard_ok (length bytes =? 5)%nat;
  sign ← match bytes with
         | b :: _ => if b =? 43 then Some 1 else if b =? 45 then Some (-1) else None
         | [] => None
         end;
  hours ← parse_u32_fixed bytes 1 2;
  mins ← parse_u32_fixed bytes 3 2;
  _ ← guard_ok ((hours <=? 23) && (mins <=? 59));
  Some (sign * (hours * 3600 + mins * 60)).

Definition system_time_from_unix_timestamp (secs nanos : Z) : option Z :=
  let total_nanos := secs * 1000000000 + nanos in
  if 0 <=? total_nanos then try_u64 total_nanos
  else n ← try_u64 (- total_nanos); Some (- n).

(** [str::split_once(' ')] and [str::rsplit_once(' ')] *)
Fixpoint split_once (s : list Z) : option (list Z * list Z) :=
  match s with
  | [] => None
  | b :: s => if b =? 32 then Some ([], s) else '(x, y) ← split_once s; Some (b :: x, y)
  end.
Fixpoint rsplit_once (s : list Z) : option (list Z * list Z) :=
  match s with
  | [] => None
  | b :: s =>
      match rsplit_once s with
      | Some (x, y) => Some (b :: x, y)
      | None => if b =? 32 then Some ([], s) else None
      end
  end.

Definition parse_gc_time_old (value : list Z) : option Z :=
  '(datetime, offset) ← split_once value;
  _ ← guard_ok (negb (existsb (λ b, b =? 32) offset));
  p ← parse_datetime datetime;
  offset_secs ← parse_offset_seconds offset;
  let days := days_from_civil (dt_year p) (dt_month p) (dt_day p) in
  v ← try_i64 (days * 86400);
  local_secs ← try_i64 (v + (dt_hour p * 3600 + dt_minute p * 60 + dt_second p));
  utc_secs ← try_i64 (local_secs - offset_secs);
  system_time_from_unix_timestamp utc_secs (dt_nanos p).

Definition compatible_parse_gc_time (value : list Z) : option Z :=
  match parse_gc_time_old value with
  | Some t => Some t
  | None => '(prefix, _) ← rsplit_once value; parse_gc_time_old prefix
  end.

(** ** Formatting *)

(** [{v:0width}]: the decimal digits, filled up with zeros after the sign. *)
Fixpoint decimal (fuel : nat) (v : Z) : list Z :=
  match fuel with
  | O => []
  | S fuel => if v <? 10 then [48 + v] else decimal fuel (v / 10) ++ [48 + v mod 10]
  end.
Definition zero_padded (width : nat) (v : Z) : list Z :=
  let sign := if v <? 0 then [45] else [] in
  let digits := decimal 20 (Z.abs v) in
  sign ++ replicate (width - length sign - length digits) 48 ++ digits.

(** [i32::saturating_abs] *)
Definition offset_hhmm (offset_seconds : Z) : Z * Z * Z :=
  if 0 <=? offset_seconds then (43, offset_seconds / 3600, offset_seconds mod 3600 / 60)
  else let s := Z.min (Z.abs offset_seconds) 2147483647 in (45, s / 3600, s mod 3600 / 60).

Definition format_gc_time_fixed_offset (t offset_seconds : Z) : list Z :=
  let local_nanos := t + offset_seconds * 1000000000 in
  let local_secs := as_i64 (local_nanos / 1000000000) in
  let nanos := local_nanos mod 1000000000 in
  let millis := nanos / 1000000 in
  let days := local_secs / 86400 in
  let secs_of_day := local_secs mod 86400 in
  let '(year, month, day) := civil_from_days days in
  let hour := secs_of_day / 3600 in
  let minute := secs_of_day mod 3600 / 60 in
  let second := secs_of_day mod 60 in
  let '(sign, off_hours, off_mins) := offset_hhmm offset_seconds in
  zero_padded 4 year ++ zero_padded 2 month ++ zero_padded 2 day ++ [45] ++
  zero_padded 2 hour ++ [58] ++ zero_padded 2 minute ++ [58] ++ zero_padded 2 second ++ [46] ++
  zero_padded 3 millis ++ [32] ++ [sign] ++ zero_padded 2 off_hours ++ zero_padded 2 off_mins.

(** ** The calendar: proofs *)

(** A statement about the numbers below [n], checked on each of them. *)
Lemma check_below (n : nat) (P : Z → bool) z :
  forallb (λ i, P (Z.of_nat i)) (seq 0 n) = true → 0 ≤ z < Z.of_nat n → P z = true.
Proof.
  intros H Hz. rewrite forallb_forall in H. specialize (H (Z.to_nat z)). rewrite Z2Nat.id in H by lia.
  apply H, in_seq. lia.
Qed.

(** The first day of a year of the era (which begins in March), and the estimate that the code divides by 365. *)
Definition year_start (yoe : Z) : Z := 365 * yoe + yoe / 4 - yoe / 100.
Definition year_estimate (doe : Z) : Z := doe - doe / 1460 + doe / 36524 - doe / 146096.

Lemma year_estimate_step a : 0 ≤ a < 146096 → year_estimate a ≤ year_estimate (a + 1).
Proof.
  intros Ha. unfold year_estimate. destruct (decide (a = 146095)) as [->|]; [done|].
  rewrite (Z.div_small a 146096), (Z.div_small (a + 1) 146096) by lia.
  pose proof (Z.div_le_mono a (a + 1) 36524 ltac:(lia) ltac:(lia)).
  assert ((a + 1) / 1460 ≤ a / 1460 + 1) by (apply Z.div_le_upper_bound; [lia|]; pose proof (Z.div_mod a 1460 ltac:(lia)); pose proof (Z.mod_pos_bound a 1460 ltac:(lia)); lia).
  lia.
Qed.

Lemma year_estimate_mono a b : 0 ≤ a ≤ b → b ≤ 146096 → year_estimate a ≤ year_estimate b.
Proof.
  intros Hab Hb. replace b with (a + Z.of_nat (Z.to_nat (b - a))) by lia.
  assert (Z.of_nat (Z.to_nat (b - a)) ≤ 146096 - a) as Hn by lia. revert Hn.
  generalize (Z.to_nat (b - a)) as n. induction n as [|n IH]; intros Hn; [by rewrite Z.add_0_r|].
  etransitivity; [apply IH; lia|]. replace (a + Z.of_nat (S n)) with (a + Z.of_nat n + 1) by lia.
  apply year_estimate_step. lia.
Qed.

(** The last day of a year of the era; the last year of an era ends with a leap day. *)
Definition year_end (yoe : Z) : Z :=
  365 * (yoe + 1) + (yoe + 1) / 4 - (yoe + 1) / 100 + (yoe + 1) / 400 - 1.

(** The estimate is right on the first and on the last day of each of the 400 years. *)
Lemma year_estimate_ends yoe : 0 ≤ yoe ≤ 399 →
  year_estimate (year_start yoe) / 365 = yoe ∧ year_estimate (year_end yoe) / 365 = yoe ∧
  0 ≤ year_start yoe ≤ year_end yoe ≤ year_start yoe + 365 ∧ year_end yoe ≤ 146096 ∧
  (yoe = 399 ∨ year_start (yoe + 1) = year_end yoe + 1).
Proof.
  intros Hy. assert (H := check_below 400 (λ y,
    (year_estimate (year_start y) / 365 =? y) && (year_estimate (year_end y) / 365 =? y) &&
    (0 <=? year_start y) && (year_start y <=? year_end y) && (year_end y <=? year_start y + 365) &&
    (year_end y <=? 146096) && ((y =? 399) || (year_start (y + 1) =? year_end y + 1))) yoe ltac:(by vm_compute) ltac:(lia)).
  rewrite !andb_true_iff, orb_true_iff, !Z.eqb_eq, !Z.leb_le in H. tauto.
Qed.

(** A day of the era belongs to the year that the estimate gives. *)
Lemma year_of_day doe yoe : 0 ≤ doe ≤ 146096 →
  (0 ≤ yoe ≤ 399 ∧ year_start yoe ≤ doe ≤ year_end yoe) ↔ year_estimate doe / 365 = yoe.
Proof.
  intros Hd.
  assert (∀ y, 0 ≤ y ≤ 399 → year_start y ≤ doe → y ≤ year_estimate doe / 365) as Hlow.
  { intros y Hy Hs. destruct (year_estimate_ends y Hy) as (E & _ & ? & ? & _). rewrite <- E at 1.
    apply Z.div_le_mono; [lia|]. apply year_estimate_mono; lia. }
  assert (∀ y, 0 ≤ y ≤ 399 → doe ≤ year_end y → year_estimate doe / 365 ≤ y) as Hhigh.
  { intros y Hy Hs. destruct (year_estimate_ends y Hy) as (_ & E & ? & ? & _). rewrite <- E.
    apply Z.div_le_mono; [lia|]. apply year_estimate_mono; lia. }
  split.
  - intros (Hy & ? & ?). specialize (Hlow yoe Hy). specialize (Hhigh yoe Hy). lia.
  - intros Hy. assert (year_start 0 = 0 ∧ year_end 399 = 146096) as [Es Ee] by done.
    pose proof (Hlow 0 ltac:(lia) ltac:(lia)) as H0.
    pose proof (Hhigh 399 ltac:(lia) ltac:(lia)) as H399. rewrite Hy in *.
    split; [lia|]. split; apply Z.nlt_ge; intros Hlt.
    + assert (0 < yoe) as Hpos by (destruct (decide (yoe = 0)) as [->|]; lia).
      destruct (year_estimate_ends (yoe - 1) ltac:(lia)) as (_ & _ & _ & _ & [?|He]); [lia|].
      replace (yoe - 1 + 1) with yoe in He by lia. specialize (Hhigh (yoe - 1) ltac:(lia) ltac:(lia)). lia.
    + destruct (year_estimate_ends yoe ltac:(lia)) as (_ & _ & _ & _ & [->|He]); [lia|].
      destruct (decide (yoe = 399)) as [->|]; [lia|].
      specialize (Hlow (yoe + 1) ltac:(lia) ltac:(lia)). lia.
Qed.

(** The reference: the dates of the Gregorian calendar. *)
Definition is_leap (y : Z) : bool := (y mod 4 =? 0) && (negb (y mod 100 =? 0) || (y mod 400 =? 0)).
Definition days_in_month (y m : Z) : Z :=
  if m =? 2 then if is_leap y then 29 else 28
  else if (m =? 4) || (m =? 6) || (m =? 9) || (m =? 11) then 30 else 31.
Definition valid_date (y m d : Z) : Prop := 1 ≤ m ≤ 12 ∧ 1 ≤ d ≤ days_in_month y m.

(** The years, which begin in March, that the code can count up to an [i32]. *)
Definition max_era : Z := 5368708.

Lemma as_i32_small z : -2147483648 ≤ z ≤ 2147483647 → as_i32 z = z.
Proof. intros. unfold as_i32. rewrite Z.mod_small; lia. Qed.

(** February of the calendar year [400 * era + yoe + 1] ends the year [yoe] of the era. *)
Lemma year_end_leap era yoe : 0 ≤ yoe ≤ 399 →
  year_end yoe = year_start yoe + (if is_leap (400 * era + yoe + 1) then 365 else 364).
Proof.
  intros Hy. unfold is_leap.
  replace ((400 * era + yoe + 1) mod 4) with ((yoe + 1) mod 4)
    by (replace (400 * era + yoe + 1) with (yoe + 1 + (100 * era) * 4) by lia; by rewrite Z_mod_plus_full).
  replace ((400 * era + yoe + 1) mod 100) with ((yoe + 1) mod 100)
    by (replace (400 * era + yoe + 1) with (yoe + 1 + (4 * era) * 100) by lia; by rewrite Z_mod_plus_full).
  replace ((400 * era + yoe + 1) mod 400) with ((yoe + 1) mod 400)
    by (replace (400 * era + yoe + 1) with (yoe + 1 + era * 400) by lia; by rewrite Z_mod_plus_full).
  apply Z.eqb_eq, (check_below 400 (λ y,
    year_end y =? year_start y + (if ((y + 1) mod 4 =? 0) && (negb ((y + 1) mod 100 =? 0) || ((y + 1) mod 400 =? 0))
      then 365 else 364))); [by vm_compute | lia].
Qed.

(** The month (counted from March), the month and the day of a day of the year, and back. *)
Definition doy_month (doy : Z) : Z := (5 * doy + 2) / 153.
Definition month_of_mp (mp : Z) : Z := mp + (if mp <? 10 then 3 else -9).
Definition mp_of_month (m : Z) : Z := m + (if 2 <? m then -3 else 9).
Definition doy_of (mp d : Z) : Z := (153 * mp + 2) / 5 + d - 1.
Definition month_length (leap : bool) (m : Z) : Z :=
  if m =? 2 then if leap then 29 else 28
  else if (m =? 4) || (m =? 6) || (m =? 9) || (m =? 11) then 30 else 31.

Lemma doy_to_date (leap : bool) doy : 0 ≤ doy ≤ (if leap then 365 else 364) →
  let mp := doy_month doy in let m := month_of_mp mp in let d := doy - (153 * mp + 2) / 5 + 1 in
  1 ≤ m ≤ 12 ∧ 1 ≤ d ≤ month_length leap m ∧ mp_of_month m = mp.
Proof.
  intros Hd.
  pose (P leap doy := let mp := doy_month doy in let m := month_of_mp mp in let d := doy - (153 * mp + 2) / 5 + 1 in
    (1 <=? m) && (m <=? 12) && (1 <=? d) && (d <=? month_length leap m) && (mp_of_month m =? mp)).
  assert (P leap doy = true) as H.
  { destruct leap; [apply (check_below 366) | apply (check_below 365)]; [by vm_compute | lia | by vm_compute | lia]. }
  unfold P in H. rewrite !andb_true_iff, !Z.leb_le, Z.eqb_eq in H. cbv zeta. lia.
Qed.

Lemma date_to_doy (leap : bool) m d : 1 ≤ m ≤ 12 → 1 ≤ d ≤ month_length leap m →
  let doy := doy_of (mp_of_month m) d in
  0 ≤ doy ≤ (if leap then 365 else 364) ∧ doy_month doy = mp_of_month m ∧ month_of_mp (mp_of_month m) = m.
Proof.
  intros Hm Hd.
  pose (Q leap m d := let doy := doy_of (mp_of_month m) d in
    negb ((1 <=? m) && (1 <=? d) && (d <=? month_length leap m)) ||
    (0 <=? doy) && (doy <=? (if leap : bool then 365 else 364)) && (doy_month doy =? mp_of_month m) &&
    (month_of_mp (mp_of_month m) =? m)).
  assert (month_length leap m ≤ 31) as H31 by (unfold month_length; destruct leap; case_zbs; cbn; lia).
  assert (Q leap m d = true) as H.
  { assert (forallb (λ j, Q leap m (Z.of_nat j)) (seq 0 32) = true) as H; [|apply (check_below 32 (Q leap m)); [done | lia]].
    destruct leap; [apply (check_below 13 (λ m, forallb (λ j, Q true m (Z.of_nat j)) (seq 0 32))) |
                    apply (check_below 13 (λ m, forallb (λ j, Q false m (Z.of_nat j)) (seq 0 32)))];
      [by vm_compute | lia | by vm_compute | lia]. }
  unfold Q in H. rewrite orb_true_iff, negb_true_iff, andb_false_iff, andb_false_iff, !andb_true_iff, !Z.leb_gt, !Z.leb_le,
    !Z.eqb_eq in H. cbv zeta. lia.
Qed.

(** The two functions on a day given by its era and its place in it, and on a date given by the
    year that begins in March. *)
Lemma civil_from_days_era era doe : 0 ≤ era → 0 ≤ doe ≤ 146096 →
  civil_from_days (era * 146097 + doe - 719468) =
    let yoe := year_estimate doe / 365 in
    let mp := doy_month (doe - year_start yoe) in
    let m := month_of_mp mp in
    (as_i32 (yoe + era * 400 + (if m <=? 2 then 1 else 0)), m, doe - year_start yoe - (153 * mp + 2) / 5 + 1).
Proof.
  intros He Hd. unfold civil_from_days.
  replace (era * 146097 + doe - 719468 + 719468) with (doe + era * 146097) by lia.
  destruct (Z.leb_spec 0 (doe + era * 146097)); [|lia].
  rewrite (Z.div_add doe era 146097), (Z.div_small doe 146097), Z.add_0_l by lia.
  replace (doe + era * 146097 - era * 146097) with doe by lia. reflexivity.
Qed.

Lemma days_from_civil_era era yoe m d : 0 ≤ era → 0 ≤ yoe ≤ 399 →
  days_from_civil (yoe + era * 400 + (if m <=? 2 then 1 else 0)) m d =
    era * 146097 + (year_start yoe + doy_of (mp_of_month m) d) - 719468.
Proof.
  intros He Hy. unfold days_from_civil.
  replace (yoe + era * 400 + (if m <=? 2 then 1 else 0) - (if m <=? 2 then 1 else 0)) with (yoe + era * 400) by lia.
  destruct (Z.leb_spec 0 (yoe + era * 400)); [|lia].
  rewrite (Z.div_add yoe era 400), (Z.div_small yoe 400), Z.add_0_l by lia.
  replace (yoe + era * 400 - era * 400) with yoe by lia. unfold year_start, doy_of, mp_of_month. lia.
Qed.

Lemma div_parts z n top : 0 < n → 0 ≤ z < n * (top + 1) →
  ∃ q r, 0 ≤ q ≤ top ∧ 0 ≤ r < n ∧ z = q * n + r.
Proof.
  intros Hn Hz. exists (z / n), (z mod n). pose proof (Z.div_mod z n ltac:(lia)). pose proof (Z.mod_pos_bound z n Hn).
  split_and!; [apply Z.div_pos; lia | apply Z.lt_succ_r, Z.div_lt_upper_bound; lia | lia..].
Qed.

Lemma civil_from_days_valid days : 0 ≤ days + 719468 < 146097 * (max_era + 1) →
  let '(y, m, d) := civil_from_days days in valid_date y m d ∧ days_from_civil y m d = days.
Proof.
  unfold max_era.
  intros Hz. destruct (div_parts (days + 719468) 146097 5368708) as (era & doe & Hera & Hdoe & E); [lia..|].
  assert (days = era * 146097 + doe - 719468) as -> by lia. clear Hz E.
  rewrite civil_from_days_era by lia. cbv zeta.
  destruct (proj2 (year_of_day doe _ ltac:(lia)) eq_refl) as [Hyoe [Hs He]]. set (yoe := year_estimate doe / 365) in *.
  rewrite (year_end_leap era yoe Hyoe) in He.
  destruct (doy_to_date (is_leap (400 * era + yoe + 1)) (doe - year_start yoe)) as (Hm & Hd & Hmp); [destruct (is_leap _); lia|].
  set (mp := doy_month (doe - year_start yoe)) in *. set (m := month_of_mp mp) in *.
  rewrite as_i32_small by (destruct (m <=? 2); lia). split.
  + split; [done|]. unfold days_in_month. unfold month_length in Hd.
    destruct (Z.eqb_spec m 2) as [->|]; [|done]. cbn [Z.leb Z.compare Pos.compare Pos.compare_cont].
    by replace (yoe + era * 400 + 1) with (400 * era + yoe + 1) by lia.
  + rewrite days_from_civil_era by lia. rewrite Hmp. unfold doy_of. lia.
Qed.

Lemma civil_from_days_inverse y m d : valid_date y m d → 0 ≤ y - (if m <=? 2 then 1 else 0) < 400 * (max_era + 1) →
  civil_from_days (days_from_civil y m d) = (y, m, d).
Proof.
  unfold max_era.
  intros [Hm Hd] Hy.
  destruct (div_parts (y - (if m <=? 2 then 1 else 0)) 400 5368708) as (era & yoe & Hera & Hyoe & E); [lia..|].
  assert (y = yoe + era * 400 + (if m <=? 2 then 1 else 0)) as Hy' by lia. clear Hy E. rename Hy' into Hy.
  assert (1 ≤ d ≤ month_length (is_leap (400 * era + yoe + 1)) m) as Hd'.
  { unfold days_in_month in Hd. unfold month_length. destruct (Z.eqb_spec m 2) as [->|]; [|done].
    cbn in Hy. rewrite Hy in Hd. by replace (400 * era + yoe + 1) with (yoe + era * 400 + 1) by lia. }
  destruct (date_to_doy _ m d Hm Hd') as (Hdoy & Hmp & Hmm).
  rewrite Hy at 1. rewrite days_from_civil_era by lia.
  pose proof (year_end_leap era yoe ltac:(lia)) as He. destruct (year_estimate_ends yoe ltac:(lia)) as (_ & _ & Hb & He' & _).
  set (doy := doy_of (mp_of_month m) d) in *.
  assert (year_start yoe + doy ≤ year_end yoe) as Hle by (destruct (is_leap _); lia).
  rewrite civil_from_days_era by lia. cbv zeta.
  rewrite (proj1 (year_of_day (year_start yoe + doy) yoe ltac:(lia))) by lia.
  replace (year_start yoe + doy - year_start yoe) with doy by lia. rewrite Hmp, Hmm, <- Hy.
  rewrite as_i32_small by (destruct (m <=? 2); lia). f_equal. unfold doy, doy_of. lia.
Qed.

(** The calendar is right and loses nothing.  From March of the year 0 on, up to the years an [i32]
    can hold, every day number is given a date that exists in the Gregorian calendar and that
    leads back to the day; and every existing date leads to a day number which is given that date. *)
Theorem calendar_roundtrip :
  (∀ days, 0 ≤ days + 719468 < 146097 * (max_era + 1) →
     let '(y, m, d) := civil_from_days days in valid_date y m d ∧ days_from_civil y m d = days) ∧
  (∀ y m d, valid_date y m d → 0 ≤ y - (if m <=? 2 then 1 else 0) < 400 * (max_era + 1) →
     civil_from_days (days_from_civil y m d) = (y, m, d)).
Proof. split; [apply civil_from_days_valid | apply civil_from_days_inverse]. Qed.

(** ** Digits *)

(** The last [n] decimal digits of a number. *)
Fixpoint fixed_digits (n : nat) (v : Z) : list Z :=
  match n with O => [] | S n => fixed_digits n (v / 10) ++ [48 + v mod 10] end.

Lemma fixed_digits_zero n : fixed_digits n 0 = replicate n 48.
Proof. induction n as [|n IH]; [done|]. cbn [fixed_digits]. change (0 / 10) with 0. by rewrite IH, replicate_S_end. Qed.

Lemma length_decimal_pos fuel v : (0 < fuel)%nat → (0 < length (decimal fuel v))%nat.
Proof. destruct fuel; [lia|]. intros _. cbn. case_zb; cbn; [lia|]. rewrite length_app. cbn. lia. Qed.

Lemma decimal_fixed fuel n v : 0 ≤ v < 10 ^ Z.of_nat n → (0 < n)%nat → (n ≤ fuel)%nat →
  replicate (n - length (decimal fuel v)) 48 ++ decimal fuel v = fixed_digits n v ∧ (length (decimal fuel v) ≤ n)%nat.
Proof.
  revert n v. induction fuel as [|fuel IH]; intros n v Hv Hn Hf; [lia|]. destruct n as [|n]; [lia|].
  rewrite Nat2Z.inj_succ, Z.pow_succ_r in Hv by lia. cbn [decimal fixed_digits].
  destruct (Z.ltb_spec v 10) as [Hlt|Hge].
  - rewrite (Z.div_small v 10), (Z.mod_small v 10), fixed_digits_zero by lia. cbn. rewrite Nat.sub_0_r. split; [done | lia].
  - assert (0 ≤ v / 10 < 10 ^ Z.of_nat n) as Hv'
      by (split; [apply Z.div_pos; lia | apply Z.div_lt_upper_bound; lia]).
    assert (0 < n)%nat as Hn'.
    { destruct n; [|lia]. cbn in Hv'. assert (1 ≤ v / 10) by (apply Z.div_le_lower_bound; lia). lia. }
    destruct (IH n (v / 10) Hv' Hn' ltac:(lia)) as [E Hl]. rewrite length_app. cbn [length].
    split; [|lia]. rewrite <- E, <- app_assoc.
    by replace (S n - (length (decimal fuel (v / 10)) + 1))%nat with (n - length (decimal fuel (v / 10)))%nat by lia.
Qed.

Lemma zero_padded_fixed n v : 0 ≤ v < 10 ^ Z.of_nat n → (0 < n ≤ 20)%nat → zero_padded n v = fixed_digits n v.
Proof.
  intros Hv Hn. unfold zero_padded. destruct (Z.ltb_spec v 0); [lia|]. rewrite Z.abs_eq by lia. cbn [app length].
  rewrite Nat.sub_0_r. by apply decimal_fixed; [|lia..].
Qed.

Lemma is_ascii_digit_mod v : is_ascii_digit (48 + v mod 10) = true.
Proof.
  pose proof (Z.mod_pos_bound v 10 ltac:(lia)). unfold is_ascii_digit. rewrite andb_true_iff, !Z.leb_le. lia.
Qed.

Lemma parse_digits_app a b v : parse_digits (a ++ b) v = parse_digits a v ≫= parse_digits b.
Proof. revert v. induction a as [|x a IH]; intros v; cbn; [done|]. destruct (negb _); [done | apply IH]. Qed.
Lemma parse_fixed_digits n v acc : 0 ≤ v < 10 ^ Z.of_nat n →
  parse_digits (fixed_digits n v) acc = Some (acc * 10 ^ Z.of_nat n + v).
Proof.
  revert v. induction n as [|n IH]; intros v Hv; cbn [fixed_digits].
  { cbn in *. f_equal. lia. }
  rewrite Nat2Z.inj_succ, Z.pow_succ_r in * by lia.
  rewrite parse_digits_app, IH by (split; [apply Z.div_pos; lia | apply Z.div_lt_upper_bound; lia]). cbn.
  rewrite is_ascii_digit_mod. cbn. f_equal. pose proof (Z.div_mod v 10 ltac:(lia)). lia.
Qed.

Lemma parse_fraction_app a b f k : parse_fraction (a ++ b) f k = parse_fraction a f k ≫= λ p, parse_fraction b p.1 p.2.
Proof. revert f k. induction a as [|x a IH]; intros f k; cbn; [done|]. destruct (negb _); [done|]. destruct (k =? 9)%nat; [done | apply IH]. Qed.
Lemma parse_fraction_fixed n v : 0 ≤ v < 10 ^ Z.of_nat n → (n ≤ 9)%nat →
  parse_fraction (fixed_digits n v) 0 0 = Some (v, n).
Proof.
  revert v. induction n as [|n IH]; intros v Hv Hn; cbn [fixed_digits].
  { cbn in *. f_equal. f_equal. lia. }
  rewrite Nat2Z.inj_succ, Z.pow_succ_r in * by lia.
  rewrite parse_fraction_app, IH by first [split; [apply Z.div_pos; lia | apply Z.div_lt_upper_bound; lia] | lia]. cbn.
  rewrite is_ascii_digit_mod. destruct (Nat.eqb_spec n 9); [lia|]. cbn. f_equal. f_equal. pose proof (Z.div_mod v 10 ltac:(lia)). lia.
Qed.

(** *** Splitting at a space *)
Lemma split_once_app a b : Forall (λ x, x ≠ 32) a → split_once (a ++ 32 :: b) = Some (a, b).
Proof. induction 1 as [|x a Hx _ IH]; [done|]. cbn. destruct (Z.eqb_spec x 32); [done|]. by rewrite IH. Qed.
Lemma rsplit_once_none b : Forall (λ x, x ≠ 32) b → rsplit_once b = None.
Proof. induction 1 as [|x b Hx _ IH]; [done|]. cbn. rewrite IH. by destruct (Z.eqb_spec x 32). Qed.
Lemma rsplit_once_app a b : Forall (λ x, x ≠ 32) b → rsplit_once (a ++ 32 :: b) = Some (a, b).
Proof. intros Hb. induction a as [|x a IH]; cbn; [by rewrite rsplit_once_none|]. by rewrite IH. Qed.

Lemma fixed_digits_no_space n v : Forall (λ x, x ≠ 32) (fixed_digits n v).
Proof.
  revert v. induction n as [|n IH]; intros v; [constructor|]. apply Forall_app. split; [apply IH|]. constructor; [|done].
  pose proof (Z.mod_pos_bound v 10 ltac:(lia)). lia.
Qed.

(** ** What is formatted parses to the same time *)

Lemma parse_u32_at a n v b : 0 ≤ v < 10 ^ Z.of_nat n →
  parse_u32_fixed (a ++ fixed_digits n v ++ b) (length a) n = Some v.
Proof.
  intros Hv. assert (∀ n v, length (fixed_digits n v) = n) as Hlen
    by (clear; induction n as [|n IH]; intros v; [done|]; cbn; rewrite length_app, IH; cbn; lia).
  unfold parse_u32_fixed. rewrite !length_app, Hlen. destruct (Nat.ltb_spec (length a + (n + length b)) (length a + n)); [lia|].
  rewrite drop_app_length, take_app_length' by (by rewrite Hlen). rewrite parse_fixed_digits by done. done.
Qed.

Definition date_time (y m d h mi s ms : Z) : list Z :=
  fixed_digits 4 y ++ fixed_digits 2 m ++ fixed_digits 2 d ++ [45] ++ fixed_digits 2 h ++ [58] ++
  fixed_digits 2 mi ++ [58] ++ fixed_digits 2 s ++ [46] ++ fixed_digits 3 ms.

Lemma parse_date_time y m d h mi s ms : 0 ≤ y ≤ 9999 → 1 ≤ m ≤ 12 → 1 ≤ d ≤ 31 →
  0 ≤ h ≤ 23 → 0 ≤ mi ≤ 59 → 0 ≤ s ≤ 59 → 0 ≤ ms ≤ 999 →
  parse_datetime (date_time y m d h mi s ms) = Some (mkParts y m d h mi s (ms * 1000000)).
Proof.
  intros Hy Hm Hd Hh Hmi Hs Hms. set (b := date_time y m d h mi s ms).
  assert (parse_u32_fixed b 0 4 = Some y) as E0 by (exact (parse_u32_at [] 4 y _ ltac:(lia))).
  assert (parse_u32_fixed b 4 2 = Some m) as E4 by (exact (parse_u32_at (fixed_digits 4 y) 2 m _ ltac:(lia))).
  assert (parse_u32_fixed b 6 2 = Some d) as E6
    by (exact (parse_u32_at (fixed_digits 4 y ++ fixed_digits 2 m) 2 d _ ltac:(lia))).
  assert (parse_u32_fixed b 9 2 = Some h) as E9
    by (exact (parse_u32_at (fixed_digits 4 y ++ fixed_digits 2 m ++ fixed_digits 2 d ++ [45]) 2 h _ ltac:(lia))).
  assert (parse_u32_fixed b 12 2 = Some mi) as E12
    by (exact (parse_u32_at (fixed_digits 4 y ++ fixed_digits 2 m ++ fixed_digits 2 d ++ [45] ++ fixed_digits 2 h ++ [58])
          2 mi _ ltac:(lia))).
  assert (parse_u32_fixed b 15 2 = Some s) as E15
    by (exact (parse_u32_at (fixed_digits 4 y ++ fixed_digits 2 m ++ fixed_digits 2 d ++ [45] ++ fixed_digits 2 h ++ [58] ++
          fixed_digits 2 mi ++ [58]) 2 s _ ltac:(lia))).
  assert (parse_fraction (drop 18 b) 0 0 = Some (ms, 3%nat)) as Ef by (exact (parse_fraction_fixed 3 ms ltac:(lia) ltac:(lia))).
  unfold parse_datetime. change (length b) with 21%nat.
  change (byte_at b 8 45) with true. change (byte_at b 11 58) with true. change (byte_at b 14 58) with true.
  change (byte_at b 17 46) with true. rewrite E0, E4, E6, E9, E12, E15, Ef. clearbody b.
  cbn [guard_ok mbind option_bind Nat.leb Nat.eqb negb].
  destruct (Z.leb_spec 1 m), (Z.leb_spec m 12), (Z.leb_spec 1 d), (Z.leb_spec d 31), (Z.leb_spec h 23),
    (Z.leb_spec mi 59), (Z.leb_spec s 59); try lia. done.
Qed.

Definition offset_text (sign hh mm : Z) : list Z := [sign] ++ fixed_digits 2 hh ++ fixed_digits 2 mm.
Lemma parse_offset_text (neg : bool) hh mm : 0 ≤ hh ≤ 23 → 0 ≤ mm ≤ 59 →
  parse_offset_seconds (offset_text (if neg then 45 else 43) hh mm) =
    Some ((if neg then -1 else 1) * (hh * 3600 + mm * 60)).
Proof.
  intros Hh Hm. set (sign := if neg then 45 else 43). set (b := offset_text sign hh mm).
  assert (parse_u32_fixed b 1 2 = Some hh) as E1 by (exact (parse_u32_at [sign] 2 hh _ ltac:(lia))).
  assert (parse_u32_fixed b 3 2 = Some mm) as E3.
  { pose proof (parse_u32_at ([sign] ++ fixed_digits 2 hh) 2 mm [] ltac:(lia)) as E. rewrite app_nil_r in E. exact E. }
  unfold parse_offset_seconds. change (length b) with 5%nat. rewrite E1, E3. unfold b, offset_text. cbn [app].
  cbn [guard_ok mbind option_bind Nat.eqb]. destruct (Z.leb_spec hh 23), (Z.leb_spec mm 59); try lia.
  unfold sign. by destruct neg.
Qed.

Lemma date_time_no_space y m d h mi s ms : Forall (λ x, x ≠ 32) (date_time y m d h mi s ms).
Proof. unfold date_time. rewrite !Forall_app, !Forall_singleton. split_and!; try apply fixed_digits_no_space; lia. Qed.
Lemma offset_text_no_space sign hh mm : sign ≠ 32 → Forall (λ x, x ≠ 32) (offset_text sign hh mm).
Proof. intros. unfold offset_text. rewrite !Forall_app, Forall_singleton. split_and!; try apply fixed_digits_no_space; done. Qed.

Lemma existsb_no_space l : Forall (λ x, x ≠ 32) l → existsb (λ b, b =? 32) l = false.
Proof. induction 1 as [|x l Hx _ IH]; [done|]. cbn. rewrite IH. by destruct (Z.eqb_spec x 32). Qed.

Lemma as_i64_id z : in_i64 z → as_i64 z = z.
Proof.
  intros Hz. unfold as_i64, wrap_u64, in_i64, i64_max in *. destruct (Z.le_gt_cases 0 z).
  - rewrite Z.mod_small by lia. case_zb; lia.
  - rewrite <- (Z.mod_unique z 18446744073709551616 (-1) (z + 18446744073709551616)) by lia. case_zb; lia.
Qed.

Lemma try_i64_id z : in_i64 z → try_i64 z = Some z.
Proof. unfold in_i64, try_i64. intros. destruct (Z.leb_spec (- i64_max - 1) z), (Z.leb_spec z i64_max); try lia. done. Qed.

Lemma system_time_id secs nanos : - u64_max ≤ secs * 1000000000 + nanos ≤ u64_max →
  system_time_from_unix_timestamp secs nanos = Some (secs * 1000000000 + nanos).
Proof.
  intros H. unfold system_time_from_unix_timestamp. destruct (Z.leb_spec 0 (secs * 1000000000 + nanos)).
  - apply try_u64_Some. unfold in_u64. lia.
  - assert (try_u64 (- (secs * 1000000000 + nanos)) = Some (- (secs * 1000000000 + nanos))) as -> by (apply try_u64_Some; unfold in_u64; lia).
    cbn. f_equal. lia.
Qed.

(** The parts of the text are parsed to the time they stand for. *)
Lemma parse_gc_time_parts y m d h mi s ms (neg : bool) hh mm secs :
  0 ≤ y ≤ 9999 → 1 ≤ m ≤ 12 → 1 ≤ d ≤ 31 → 0 ≤ h ≤ 23 → 0 ≤ mi ≤ 59 → 0 ≤ s ≤ 59 → 0 ≤ ms ≤ 999 →
  0 ≤ hh ≤ 23 → 0 ≤ mm ≤ 59 → -100000000 ≤ days_from_civil y m d ≤ 100000000 →
  secs = days_from_civil y m d * 86400 + (h * 3600 + mi * 60 + s) - (if neg then -1 else 1) * (hh * 3600 + mm * 60) →
  - u64_max ≤ secs * 1000000000 + ms * 1000000 ≤ u64_max →
  parse_gc_time_old (date_time y m d h mi s ms ++ 32 :: offset_text (if neg then 45 else 43) hh mm) =
    Some (secs * 1000000000 + ms * 1000000).
Proof.
  intros Hy Hm Hd Hh Hmi Hs Hms Hhh Hmm Hdays Hsecs Hb. unfold parse_gc_time_old.
  rewrite split_once_app by apply date_time_no_space. cbn [mbind option_bind].
  rewrite existsb_no_space by (apply offset_text_no_space; by destruct neg).
  rewrite parse_date_time, parse_offset_text by done. cbn [guard_ok negb mbind option_bind dt_year dt_month dt_day dt_hour dt_minute dt_second dt_nanos].
  assert (∀ z, -20000000000000 ≤ z ≤ 20000000000000 → try_i64 z = Some z) as Hi
    by (intros; apply try_i64_id; unfold in_i64, i64_max; lia).
  assert (-86400 ≤ (if neg then -1 else 1) * (hh * 3600 + mm * 60) ≤ 86400) by (destruct neg; lia).
  rewrite Hi by lia. cbn [mbind option_bind]. rewrite Hi by lia. cbn [mbind option_bind]. rewrite Hi by lia. cbn [mbind option_bind].
  rewrite <- Hsecs. by apply system_time_id.
Qed.

Lemma civil_year_bounds days : 0 ≤ days + 719468 < 146097 * 24 → 0 ≤ (civil_from_days days).1.1 ≤ 9999.
Proof.
  intros Hz. destruct (div_parts (days + 719468) 146097 23) as (era & doe & Hera & Hdoe & E); [lia..|].
  assert (days = era * 146097 + doe - 719468) as -> by lia. rewrite civil_from_days_era by lia. cbn [fst].
  destruct (proj2 (year_of_day doe _ ltac:(lia)) eq_refl) as [Hyoe _].
  rewrite as_i32_small; destruct (month_of_mp _ <=? 2); lia.
Qed.

Lemma offset_hhmm_parts off : -86400 < off < 86400 → off mod 60 = 0 →
  ∃ (neg : bool) hh mm, offset_hhmm off = ((if neg then 45 else 43), hh, mm) ∧ 0 ≤ hh ≤ 23 ∧ 0 ≤ mm ≤ 59 ∧
    off = (if neg then -1 else 1) * (hh * 3600 + mm * 60).
Proof.
  intros Hr Hm. unfold offset_hhmm. destruct (Z.leb_spec 0 off).
  - exists false. do 2 eexists. split; [done|]. Z.to_euclidean_division_equations. lia.
  - exists true. do 2 eexists. split; [done|]. rewrite Z.min_l, Z.abs_neq by lia. Z.to_euclidean_division_equations. lia.
Qed.

(** The text of a time is that of its date and time of day at the offset. *)
Lemma format_gc_time_parts t off : -86400 < off < 86400 → off mod 60 = 0 → - u64_max ≤ t - t mod 1000000 → t ≤ u64_max →
  ∃ y m d h mi s ms (neg : bool) hh mm,
    format_gc_time_fixed_offset t off = date_time y m d h mi s ms ++ 32 :: offset_text (if neg then 45 else 43) hh mm ∧
    (0 ≤ y ≤ 9999 ∧ 1 ≤ m ≤ 12 ∧ 1 ≤ d ≤ 31 ∧ 0 ≤ h ≤ 23 ∧ 0 ≤ mi ≤ 59 ∧ 0 ≤ s ≤ 59 ∧ 0 ≤ ms ≤ 999 ∧
     0 ≤ hh ≤ 23 ∧ 0 ≤ mm ≤ 59) ∧ -100000000 ≤ days_from_civil y m d ≤ 100000000 ∧
    t - t mod 1000000 = (days_from_civil y m d * 86400 + (h * 3600 + mi * 60 + s) -
      (if neg then -1 else 1) * (hh * 3600 + mm * 60)) * 1000000000 + ms * 1000000.
Proof.
  intros Hoff Hm Hlo Hhi. unfold u64_max in *. unfold format_gc_time_fixed_offset.
  rewrite Z.div_add, Z.mod_add by lia. pose proof (Z.mod_pos_bound t 1000000 ltac:(lia)).
  assert (-18446744074 ≤ t / 1000000000 ≤ 18446744074) as Ht by (Z.to_euclidean_division_equations; lia).
  rewrite as_i64_id by (unfold in_i64, i64_max; lia). set (L := t / 1000000000 + off).
  assert (-213600 ≤ L / 86400 ≤ 213600) as Hdays by (unfold L; Z.to_euclidean_division_equations; lia).
  pose proof (civil_from_days_valid (L / 86400) ltac:(unfold max_era; lia)) as Hv.
  pose proof (civil_year_bounds (L / 86400) ltac:(lia)) as Hy.
  destruct (civil_from_days (L / 86400)) as [[y m] d] eqn:Ec. destruct Hv as [[Hmo Hd] Hdays']. cbn [fst] in Hy.
  assert (d ≤ 31) as Hd31 by (revert Hd; unfold days_in_month; destruct (is_leap y); case_zbs; cbn; lia).
  destruct (offset_hhmm_parts off Hoff Hm) as (neg & hh & mm & -> & Hhh & Hmm & Eoff).
  assert (0 ≤ L mod 86400 < 86400) as Hsod by (apply Z.mod_pos_bound; lia).
  assert (0 ≤ t mod 1000000000 / 1000000 ≤ 999) as Hms by (Z.to_euclidean_division_equations; lia).
  set (sod := L mod 86400) in *. set (ms := t mod 1000000000 / 1000000) in *.
  assert (0 ≤ sod / 3600 ≤ 23 ∧ 0 ≤ sod mod 3600 / 60 ≤ 59 ∧ 0 ≤ sod mod 60 ≤ 59 ∧
    sod = sod / 3600 * 3600 + sod mod 3600 / 60 * 60 + sod mod 60) as (Hh & Hmi & Hs & Esod)
    by (clearbody sod; Z.to_euclidean_division_equations; lia).
  exists y, m, d, (sod / 3600), (sod mod 3600 / 60), (sod mod 60), ms, neg, hh, mm. split_and!; try lia.
  - rewrite !zero_padded_fixed by (cbn; lia). unfold date_time, offset_text. rewrite <- !app_assoc. done.
  - rewrite Hdays', <- Eoff, <- Esod. pose proof (Z.div_mod L 86400 ltac:(lia)). unfold sod, ms, L in *.
    Z.to_euclidean_division_equations. lia.
Qed.

(** A gc time survives formatting and parsing.  For every time within 2^64 nanoseconds of the epoch and
    every offset of whole minutes below a day: the text that is written is read back as the same
    time, cut to the millisecond, also when a further field (a zone name) without spaces follows. *)
Theorem gc_time_roundtrip t off suffix : -86400 < off < 86400 → off mod 60 = 0 →
  - u64_max ≤ t - t mod 1000000 → t ≤ u64_max → Forall (λ b, b ≠ 32) suffix →
  compatible_parse_gc_time (format_gc_time_fixed_offset t off) = Some (t - t mod 1000000) ∧
  compatible_parse_gc_time (format_gc_time_fixed_offset t off ++ 32 :: suffix) = Some (t - t mod 1000000).
Proof.
  intros Hoff Hm Hlo Hhi Hsuffix.
  destruct (format_gc_time_parts t off Hoff Hm Hlo Hhi) as (y & m & d & h & mi & s & ms & neg & hh & mm & Ef & Hb & Hdays & Et).
  destruct Hb as (? & ? & ? & ? & ? & ? & ? & ? & ?).
  assert (parse_gc_time_old (format_gc_time_fixed_offset t off) = Some (t - t mod 1000000)) as Hp.
  { pose proof (Z.mod_pos_bound t 1000000 ltac:(lia)). rewrite Ef, Et. apply parse_gc_time_parts; try done. rewrite <- Et. lia. }
  unfold compatible_parse_gc_time. split; [by rewrite Hp|].
  assert (parse_gc_time_old (format_gc_time_fixed_offset t off ++ 32 :: suffix) = None) as ->.
  { rewrite Ef. unfold parse_gc_time_old. rewrite <- app_assoc. cbn [app]. rewrite split_once_app by apply date_time_no_space.
    cbn [mbind option_bind]. rewrite existsb_app. cbn [existsb]. rewrite Z.eqb_refl, orb_true_r. done. }
  rewrite rsplit_once_app by done. exact Hp.
Qed.

(** The text of a string *)
Definition text (s : string) : list Z := map (λ c, Z.of_N (N_of_ascii c)) (list_ascii_of_string s).

Lemma gc_time_roundtrip_witness :
  format_gc_time_fixed_offset 1545134017123456789 (8 * 3600) = text "20181218-19:53:37.123 +0800" ∧
  compatible_parse_gc_time (format_gc_time_fixed_offset 1545134017123456789 (8 * 3600) ++ 32 :: text "CST") =
    Some 1545134017123000000.
Proof.
  split; [by vm_compute|].
  apply (gc_time_roundtrip 1545134017123456789 (8 * 3600) (text "CST"));
    [lia | reflexivity | by vm_compute | by vm_compute | repeat constructor; done].
Defined.

(** The values of the repository's test. *)
Lemma gc_time_examples :
  Forall (λ v, compatible_parse_gc_time (text v) = Some 1545134017000000000)
    ["20181218-19:53:37 +0800 CST"; "20181218-19:53:37 +0800 +08"; "20181218-19:53:37 +0800"; "20181218-19:53:37 +0800 ";
     "20181218-11:53:37 +0000"; "20181218-11:53:37.000 +0000"; "20181218-19:53:37.000 +0800 +08"]%string ∧
  Forall (λ v, compatible_parse_gc_time (text v) = None)
    [""; " "; "foo"; "20181218-11:53:37"; "20181218-19:53:37 +0800CST"; "20181218-19:53:37 +0800 FOO BAR";
     "20181218-19:53:37 +0800FOOOOOOO BAR"; "20181218-19:53:37 "]%string.
Proof. split; repeat constructor. Qed.

(** The parser accepts days that the month does not have: the 31st of February is the 3rd of March. *)
Lemma impossible_date_accepted :
  compatible_parse_gc_time (text "20180231-00:00:00 +0000") = compatible_parse_gc_time (text "20180303-00:00:00 +0000") ∧
  ¬ valid_date 2018 2 31.
Proof. split; [by vm_compute|]. intros [_ [_ H]]. by apply H. Qed.

(** Before March of the year 0 the calendar is off: the correction for truncating division is applied
    although [div_euclid] rounds down, so that two days are given the same date. *)
Lemma early_dates_collide : civil_from_days (-719470) = (0, 2, 29) ∧ civil_from_days (-719469) = (0, 2, 29).
Proof. done. Qed.
