(* ===== verification/Oracles.v ===== *)
(** * Auxiliary timestamp oracles (src/src/timestamp/local_oracle.rs,
      src/src/pd/stale_timestamp.rs, src/src/pd/low_resolution_ts.rs)

    Oracles that need not ask PD for every timestamp: a local one, the estimate of a stale
    timestamp, and the cache of low-resolution timestamps with its adaptive update interval.
    Times of the system clock are nanoseconds since the epoch, intervals are nanoseconds.

    The theorems: local timestamps increase, the concurrent update of a cached timestamp is an
    atomic maximum, and the adaptive interval stays between its lower bound and the configured one. *)

From Stdlib Require Import Sorting.Sorted SpecFloat.
From S2P Require Import Prelude Proto Errors Timestamps.

(** ** The local oracle *)
Module LocalOracle.
Record State := mkState { last_ts : Z; n : Z }.
Definition initial : State := mkState 0 0.

(** [expect]: [None] is the panic. *)
Definition get_timestamp (now : Z) (state : State) : option (State * Z) :=
  ts ← ok (time_to_ts now);
  if last_ts state =? ts then
    let n := n state + 1 in Some (mkState (last_ts state) n, ts + n)
  else Some (mkState ts 0, ts).

Definition is_expired (now lock_ts ttl_ms : Z) : bool :=
  get_time_from_ts lock_ts + ttl_ms * 1000000 <=? now.
Definition until_expired (now lock_ts ttl_ms : Z) : option Z :=
  physical ← ok (get_physical now);
  Some (extract_physical lock_ts + as_i64 ttl_ms - physical).

(** The timestamps of calls at the times [clock]. *)
Fixpoint get_timestamps (clock : list Z) (state : State) : option (list Z) :=
  match clock with
  | [] => Some []
  | now :: clock =>
      '(state, ts) ← get_timestamp now state; rest ← get_timestamps clock state; Some (ts :: rest)
  end.
End LocalOracle.

(** ** Stale timestamps *)
Module StaleTsOracle.
Inductive StaleTimestampError := MissingLastTs (txn_scope : string) | InvalidPrevSecond (prev_second : Z) | Compose.

(** The last timestamp of a scope and the time of its arrival, by a monotonic clock. *)
Record LastTso := mkLastTso { ts : Z; arrival : Z }.

Definition normalize_txn_scope (txn_scope : string) : string :=
  if String.eqb txn_scope "" then "global" else txn_scope.
Definition set_last_ts (txn_scope : string) (ts now : Z) (m : gmap string LastTso) : gmap string LastTso :=
  <[normalize_txn_scope txn_scope := mkLastTso ts now]> m.
Definition get_last_ts (txn_scope : string) (m : gmap string LastTso) : LastTso + StaleTimestampError :=
  let txn_scope := normalize_txn_scope txn_scope in
  match m !! txn_scope with Some l => inl l | None => inr (MissingLastTs txn_scope) end.

Definition until_expired (lock_ts ttl_ms : Z) (txn_scope : string) (m : gmap string LastTso) : Z :=
  match get_last_ts txn_scope m with
  | inr _ => 0
  | inl last => extract_physical lock_ts + as_i64 ttl_ms - extract_physical (ts last)
  end.

Definition get_stale_timestamp_with_last (now : Z) (last : LastTso) (prev_second : Z) : Z + StaleTimestampError :=
  let physical_ms := extract_physical (ts last) in
  if physical_ms <? 0 then inr (InvalidPrevSecond prev_second)
  else if physical_ms / 1000 <=? prev_second then inr (InvalidPrevSecond prev_second)
  else
    let elapsed_ms := (now - arrival last) / 1000000 in
    match try_i64 (physical_ms + elapsed_ms - prev_second * 1000) with
    | None => inr (InvalidPrevSecond prev_second)
    | Some stale_physical_ms =>
        match compose_ts stale_physical_ms 0 with Ok ts => inl ts | Err _ => inr Compose end
    end.
Definition get_stale_timestamp (now : Z) (txn_scope : string) (prev_second : Z) (m : gmap string LastTso) :
    Z + StaleTimestampError :=
  match get_last_ts txn_scope m with
  | inr e => inr e
  | inl last => get_stale_timestamp_with_last now last prev_second
  end.
End StaleTsOracle.

(** ** Low-resolution timestamps *)

(** The loop that raises a shared cell to [ts]: it loads the cell and tries to exchange the value it
    saw, in steps that other tasks may interleave. *)
Module FetchMax.
Inductive Pc := Load | Exchange (prev : Z) | Finished.
Record State := mkState { cell : Z; tasks : list (Z * Pc) }.

(** [while ts > prev] *)
Definition enter (ts prev : Z) : Pc := if prev <? ts then Exchange prev else Finished.
Definition step (s : State) (t : nat) : option State :=
  '(ts, pc) ← tasks s !! t;
  let go pc := mkState (cell s) (<[t := (ts, pc)]> (tasks s)) in
  match pc with
  | Load => Some (go (enter ts (cell s)))
  | Exchange prev =>
      if cell s =? prev then Some (mkState ts (<[t := (ts, Finished)]> (tasks s)))
      else Some (go (enter ts (cell s)))
  | Finished => None
  end.
End FetchMax.

Module LowResolution.
Definition ms (n : Z) : Z := n * 1000000.
Definition MIN_ALLOWED_ADAPTIVE_UPDATE_TS_INTERVAL : Z := ms 500.
Definition SHRINKING_PRESERVE : Z := ms 100.
Definition BLOCK_RECOVER_THRESHOLD : Z := ms 200.
Definition RECOVER_PER_SECOND : Z := ms 20.
Definition DELAY_BEFORE_RECOVERING : Z := 5 * 60 * ms 1000.

Inductive IntervalState := SNone | SNormal | SAdapting | SRecovering | SUnadjustable.

Record t := mk {
  last_ts : gmap string Z;
  configured_update_interval : Z;
  adaptive_update_interval : Z;
  last_tick_ms : Z;
  state : IntervalState;
  last_short_staleness_read_time_ms : Z;
  (** the channel of capacity 1 *)
  shrink_interval : option Z
}.
(** The intervals are nanoseconds, stored with [as_nanos() as u64]. *)
Definition new (update_interval now_ms : Z) : t :=
  mk ∅ (wrap_u64 update_interval) (wrap_u64 update_interval) now_ms SNone 0 None.

Definition set_intervals (configured adaptive : Z) (o : t) : t :=
  mk (last_ts o) configured adaptive (last_tick_ms o) (state o) (last_short_staleness_read_time_ms o) (shrink_interval o).

(** [set_last_ts]: the cell of the scope is raised to [ts], see [FetchMax]. *)
Definition set_last_ts (ts : Z) (txn_scope : string) (o : t) : t :=
  let txn_scope := StaleTsOracle.normalize_txn_scope txn_scope in
  mk (<[txn_scope := Z.max (default 0 (last_ts o !! txn_scope)) ts]> (last_ts o)) (configured_update_interval o)
    (adaptive_update_interval o) (last_tick_ms o) (state o) (last_short_staleness_read_time_ms o) (shrink_interval o).
(** [provider] answers for the scope. *)
Definition get_timestamp (provider : Z + string) (txn_scope : string) (o : t) : t * (Z + string) :=
  match provider with
  | inl ts => (set_last_ts ts txn_scope o, inl ts)
  | inr e => (o, inr e)
  end.

Definition set_low_resolution_timestamp_update_interval (new_update_interval : Z) (o : t) : t * bool :=
  if new_update_interval =? 0 then (o, false) else
  let prev_configured := configured_update_interval o in
  let prev_adaptive := adaptive_update_interval o in
  let o := set_intervals (wrap_u64 new_update_interval) prev_adaptive o in
  if new_update_interval =? prev_configured then (o, true)
  else if (prev_adaptive =? prev_configured) || (new_update_interval <? prev_adaptive)
  then (set_intervals (configured_update_interval o) (wrap_u64 new_update_interval) o, true)
  else (o, true).

Definition required_staleness (read_ts current_ts : Z) : Z :=
  let current_ms := extract_physical current_ts in
  let read_ms := extract_physical read_ts in
  if current_ms <=? read_ms then 0 else ms (current_ms - read_ms).

Definition adjust_with_requested_staleness (read_ts current_ts now_ms : Z) (o : t) : t :=
  let required := required_staleness read_ts current_ts in
  let current := adaptive_update_interval o in
  let last :=
    if (required <=? current + BLOCK_RECOVER_THRESHOLD) && (last_short_staleness_read_time_ms o <? now_ms)
    then now_ms else last_short_staleness_read_time_ms o in
  let signal :=
    if (required <=? current) && (MIN_ALLOWED_ADAPTIVE_UPDATE_TS_INTERVAL <? current)
    then match shrink_interval o with Some r => Some r | None => Some (Z.max required (ms 1)) end
    else shrink_interval o in
  mk (last_ts o) (configured_update_interval o) (adaptive_update_interval o) (last_tick_ms o) (state o) last signal.

(** [(x as f64 / 1000.0 * 20_000_000f64) as u64], in IEEE double precision *)
Definition f64_of_Z (z : Z) : spec_float := binary_normalize 53 1024 z 0 false.
Definition f64_to_u64 (f : spec_float) : Z :=
  match f with
  | S754_finite false m e => Z.min (Z.shiftl (Z.pos m) e) u64_max
  | S754_infinity false => u64_max
  | _ => 0
  end.
Definition grow_ns (since_last_tick_ms : Z) : Z :=
  f64_to_u64 (SFmul 53 1024 (SFdiv 53 1024 (f64_of_Z since_last_tick_ms) (f64_of_Z 1000)) (f64_of_Z RECOVER_PER_SECOND)).

Definition next_update_interval (now_ms required : Z) (o : t) : t * Z :=
  let configured := configured_update_interval o in
  let prev := adaptive_update_interval o in
  let last_reach_ms := last_short_staleness_read_time_ms o in
  let since_last_reach := if now_ms <=? last_reach_ms then 0 else ms (now_ms - last_reach_ms) in
  let '(next, next_state) :=
    if configured <=? MIN_ALLOWED_ADAPTIVE_UPDATE_TS_INTERVAL then (configured, Some SUnadjustable)
    else if negb (required =? 0) then
      if (required <? prev) && (MIN_ALLOWED_ADAPTIVE_UPDATE_TS_INTERVAL <? prev)
      then (Z.max (Z.max (required - SHRINKING_PRESERVE) 0) MIN_ALLOWED_ADAPTIVE_UPDATE_TS_INTERVAL, Some SAdapting)
      else (prev, None)
    else if negb (prev =? configured) && (since_last_reach <? DELAY_BEFORE_RECOVERING) then (prev, Some SAdapting)
    else if (MIN_ALLOWED_ADAPTIVE_UPDATE_TS_INTERVAL <? configured) && (prev =? configured) then (prev, Some SNormal)
    else if negb (prev =? configured) && (DELAY_BEFORE_RECOVERING <=? since_last_reach) then
      let next := Z.min (prev + grow_ns (Z.max (now_ms - last_tick_ms o) 0)) configured in
      (next, Some (if (next =? configured) && (MIN_ALLOWED_ADAPTIVE_UPDATE_TS_INTERVAL <? configured)
                   then SNormal else SRecovering))
    else (prev, None) in
  (mk (last_ts o) configured (wrap_u64 next) (last_tick_ms o) (match next_state with Some s => s | None => state o end)
     last_reach_ms (shrink_interval o), next).

(** [update_cached_timestamps]: [provider scope] is the answer for a scope, [None] an error. *)
Definition update_cached_timestamps (provider : string → option Z) (now_ms : Z) (o : t) : t :=
  let m := map_imap (λ scope ts, Some (match provider scope with Some ts' => Z.max ts ts' | None => ts end)) (last_ts o) in
  mk m (configured_update_interval o) (adaptive_update_interval o) now_ms (state o)
    (last_short_staleness_read_time_ms o) (shrink_interval o).

(** The events of the update loop and of the clients. *)
Inductive Event :=
| Tick (now_ms : Z) (provider : string → option Z)
| Shrink (now_ms : Z)
| SetInterval (interval : Z)
| GetTimestamp (txn_scope : string) (ts : Z)
| Adjust (read_ts current_ts now_ms : Z).

Definition handle (o : t) (e : Event) : t :=
  match e with
  | Tick now provider => update_cached_timestamps provider now (next_update_interval now 0 o).1
  | Shrink now =>
      match shrink_interval o with
      | None => o
      | Some required =>
          (next_update_interval now required
             (mk (last_ts o) (configured_update_interval o) (adaptive_update_interval o) (last_tick_ms o) (state o)
                (last_short_staleness_read_time_ms o) None)).1
      end
  | SetInterval interval => (set_low_resolution_timestamp_update_interval interval o).1
  | GetTimestamp scope ts => (get_timestamp (inl ts) scope o).1
  | Adjust read current now => adjust_with_requested_staleness read current now o
  end.
End LowResolution.

(** ** The local oracle: timestamps increase *)

Lemma time_to_ts_quot t ts : time_to_ts t = Ok ts → ts = Z.quot t 1000000 * 262144.
Proof.
  unfold time_to_ts, get_physical, try_i64. destruct (Z.leb_spec 0 t) as [Ht|Ht]; cbn [fst snd];
    destruct (_ && _); cbn; try done; intros [-> _]%compose_ts_Ok.
  - rewrite Z.quot_div_nonneg by lia. lia.
  - rewrite <- Z.quot_div_nonneg, Z.quot_opp_l by lia. lia.
Qed.

Lemma time_to_ts_mono t1 t2 ts1 ts2 : t1 ≤ t2 → time_to_ts t1 = Ok ts1 → time_to_ts t2 = Ok ts2 → ts1 ≤ ts2.
Proof.
  intros Hle ->%time_to_ts_quot ->%time_to_ts_quot. pose proof (Z.quot_le_mono t1 t2 1000000 ltac:(lia) Hle). lia.
Qed.

Lemma time_to_ts_gap t1 t2 ts1 ts2 : time_to_ts t1 = Ok ts1 → time_to_ts t2 = Ok ts2 → ts1 < ts2 → ts1 + 262144 ≤ ts2.
Proof. intros ->%time_to_ts_quot ->%time_to_ts_quot. lia. Qed.

(** One call after a call at [t0] gave its state. *)
Lemma local_oracle_step t0 now (s s' : LocalOracle.State) ts : time_to_ts t0 = Ok (LocalOracle.last_ts s) → t0 ≤ now →
  0 ≤ LocalOracle.n s < 262143 → LocalOracle.get_timestamp now s = Some (s', ts) →
  time_to_ts now = Ok (LocalOracle.last_ts s') ∧ ts = LocalOracle.last_ts s' + LocalOracle.n s' ∧
  LocalOracle.last_ts s + LocalOracle.n s < ts ∧ 0 ≤ LocalOracle.n s' ≤ LocalOracle.n s + 1.
Proof.
  intros H0 Hle Hn. unfold LocalOracle.get_timestamp. destruct (time_to_ts now) as [ts0|e] eqn:E; [|done]. cbn.
  pose proof (time_to_ts_mono _ _ _ _ Hle H0 E). destruct (Z.eqb_spec (LocalOracle.last_ts s) ts0) as [->|Hne];
    intros [= <- <-]; cbn.
  - split_and!; [done | lia..].
  - pose proof (time_to_ts_gap _ _ _ _ H0 E ltac:(lia)). split_and!; [done | lia..].
Qed.

Lemma local_oracle_run clock : ∀ t0 (s : LocalOracle.State) tss, time_to_ts t0 = Ok (LocalOracle.last_ts s) →
  StronglySorted Z.le (t0 :: clock) → 0 ≤ LocalOracle.n s → LocalOracle.n s + Z.of_nat (length clock) < 262144 →
  LocalOracle.get_timestamps clock s = Some tss →
  StronglySorted Z.lt (LocalOracle.last_ts s + LocalOracle.n s :: tss).
Proof.
  induction clock as [|now clock IH]; intros t0 s tss H0 Hs Hn Hl E; cbn in E.
  { injection E as <-. repeat constructor. }
  destruct (LocalOracle.get_timestamp now s) as [[s' ts]|] eqn:Es; [|done]. cbn in E.
  destruct (LocalOracle.get_timestamps clock s') as [rest|] eqn:Er; [|done]. injection E as <-.
  apply StronglySorted_inv in Hs as [Hs Hle]. apply Forall_cons in Hle as [Hle _]. cbn [length] in Hl.
  destruct (local_oracle_step t0 now s s' ts H0 Hle ltac:(lia) Es) as (H1 & -> & Hlt & Hn').
  assert (StronglySorted Z.lt (LocalOracle.last_ts s' + LocalOracle.n s' :: rest)) as Hrest
    by (apply (IH now s' rest); [done | done | lia | lia | done]).
  constructor; [done|]. constructor; [done|]. apply StronglySorted_inv in Hrest as [_ Hall].
  eapply Forall_impl; [exact Hall|]. intros x Hx. cbn in Hx. lia.
Qed.

(** The local oracle never repeats a timestamp.  As long as the clock does not go back and the
    calls are fewer than 2^18 (the logical numbers of one millisecond), each call returns a greater
    timestamp than the calls before it. *)
Theorem local_oracle_increasing clock tss : StronglySorted Z.le (0 :: clock) → Z.of_nat (length clock) < 262144 →
  LocalOracle.get_timestamps clock LocalOracle.initial = Some tss → StronglySorted Z.lt tss.
Proof.
  intros Hs Hl E.
  assert (StronglySorted Z.lt (LocalOracle.last_ts LocalOracle.initial + LocalOracle.n LocalOracle.initial :: tss)) as H
    by (apply (local_oracle_run clock 0); [done | done | done | done | done]).
  by apply StronglySorted_inv in H as [? _].
Qed.
Lemma local_oracle_increasing_witness : StronglySorted Z.lt [262144; 262145; 524288].
Proof.
  apply (local_oracle_increasing [1000000; 1500000; 2000000]); [repeat constructor; lia | cbn; lia | by vm_compute].
Defined.

(** A clock that goes back makes it repeat timestamps: only the last millisecond is remembered. *)
Lemma local_oracle_repeats :
  LocalOracle.get_timestamps [2000000; 1000000; 2000000] LocalOracle.initial = Some [524288; 262144; 524288].
Proof. by vm_compute. Qed.

(** ** Stale timestamps *)

(** A stale timestamp lies the requested seconds before the estimated present. *)
Lemma get_stale_timestamp_physical now scope prev_second m ts :
  StaleTsOracle.get_stale_timestamp now scope prev_second m = inl ts →
  ∃ last, m !! StaleTsOracle.normalize_txn_scope scope = Some last ∧
    extract_physical ts = extract_physical (StaleTsOracle.ts last) +
      (now - StaleTsOracle.arrival last) / 1000000 - prev_second * 1000 ∧ extract_logical ts = 0.
Proof.
  unfold StaleTsOracle.get_stale_timestamp, StaleTsOracle.get_last_ts.
  destruct (m !! _) as [last|]; [|done]. unfold StaleTsOracle.get_stale_timestamp_with_last.
  destruct (_ <? 0); [done|]. destruct (_ <=? prev_second); [done|]. destruct (try_i64 _) as [p|] eqn:Ep; [|done].
  destruct (compose_ts p 0) as [ts'|] eqn:Ec; [|done]. intros [= ->]. exists last. split; [done|].
  unfold try_i64 in Ep. destruct (_ && _); [|done]. injection Ep as <-.
  apply compose_ts_Ok in Ec as [-> Hr]. rewrite extract_physical_div, extract_logical_mod by done.
  rewrite Z.add_0_r, Z.div_mul, Z.mod_mul by lia. done.
Qed.

(** ** The cell of a cached timestamp: an atomic maximum *)
Module FetchMaxProofs.
Import FetchMax.

(** From the cell's first value [v0] on: the cell holds [v0] or the timestamp of a task and has not gone back;
    a task that has finished left the cell at its timestamp or above; a task that is about to exchange saw
    a value below its timestamp that the cell has held. *)
Record inv (v0 : Z) (s : State) : Prop := {
  inv_low : v0 ≤ cell s;
  inv_from : cell s = v0 ∨ ∃ t pc, tasks s !! t = Some (cell s, pc);
  inv_tasks : ∀ t ts pc, tasks s !! t = Some (ts, pc) →
    match pc with Load => True | Exchange prev => prev < ts ∧ prev ≤ cell s | Finished => ts ≤ cell s end
}.

Lemma inv_go v0 s t ts pc pc' : inv v0 s → tasks s !! t = Some (ts, pc) →
  match pc' with Load => True | Exchange prev => prev < ts ∧ prev ≤ cell s | Finished => ts ≤ cell s end →
  inv v0 (mkState (cell s) (<[t := (ts, pc')]> (tasks s))).
Proof.
  intros [Hl Hf Ht] Et Hpc. split; cbn; [done | |].
  - destruct Hf as [|(t' & pc0 & E)]; [by left|]. right. destruct (decide (t' = t)) as [->|].
    + rewrite Et in E. injection E as -> ->. exists t, pc'. rewrite list_lookup_insert_eq; [done|]. by eapply lookup_lt_Some.
    + exists t', pc0. by rewrite list_lookup_insert_ne.
  - intros t' ts' q [(<- & [= <- <-] & _)|[_ Hq]]%list_lookup_insert_Some; [done|]. by eapply Ht.
Qed.

Lemma fetch_max_step_inv v0 s t s' : inv v0 s → step s t = Some s' → inv v0 s' ∧ cell s ≤ cell s'.
Proof.
  intros Hs. unfold step. destruct (tasks s !! t) as [[ts pc]|] eqn:Et; [|done]. cbn.
  pose proof (inv_tasks v0 s Hs t ts pc Et) as Hpc.
  assert (match enter ts (cell s) with Load => True | Exchange prev => prev < ts ∧ prev ≤ cell s | Finished => ts ≤ cell s end) as He
    by (unfold enter; destruct (Z.ltb_spec (cell s) ts); lia).
  destruct pc as [|prev|]; [| |done].
  - intros [= <-]. split; [by eapply inv_go | done].
  - destruct (Z.eqb_spec (cell s) prev) as [Ec|]; intros [= <-]; [|split; [by eapply inv_go | done]].
    destruct Hs as [Hl Hf Ht]. cbn. split; [|lia]. split; cbn.
    + lia.
    + right. exists t, Finished. rewrite list_lookup_insert_eq; [done|]. by eapply lookup_lt_Some.
    + intros t' ts' q [(<- & [= <- <-] & _)|[_ Hq]]%list_lookup_insert_Some; [lia|].
      specialize (Ht t' ts' q Hq). destruct q; lia.
Qed.

(** Concurrent updates of a cached timestamp are an atomic maximum.  For any tasks that
    raise the cell at once and any order of their loads and exchanges, the cell never goes back, and when
    all have finished it holds the greatest of its first value and their timestamps. *)
Theorem fetch_max_correct v0 tss schedule s :
  run_steps step (mkState v0 (map (λ ts, (ts, Load)) tss)) schedule = Some s →
  v0 ≤ cell s ∧ (∀ t ts, tasks s !! t = Some (ts, Finished) → ts ≤ cell s) ∧
  (Forall (λ p, p.2 = Finished) (tasks s) →
     (cell s = v0 ∨ ∃ t, tasks s !! t = Some (cell s, Finished)) ∧ Forall (λ p, p.1 ≤ cell s) (tasks s)).
Proof.
  intros E. assert (inv v0 (mkState v0 (map (λ ts, (ts, Load)) tss))) as H0.
  { split; cbn; [lia | by left |]. intros t ts pc H. apply list_lookup_fmap_Some in H as (x & ? & ?). by simplify_eq. }
  destruct (run_steps_inv step (inv v0) (λ s t s' Hs Ht, proj1 (fetch_max_step_inv v0 s t s' Hs Ht)) schedule _ s H0 E) as [Hl Hf Ht]. split_and!; [done | |].
  - intros t ts Hts. apply (Ht t ts Finished Hts).
  - intros Hall. rewrite Forall_lookup in Hall. split.
    + destruct Hf as [|(t & pc & Hpc)]; [by left|]. right. exists t. specialize (Hall t _ Hpc). cbn in Hall. by subst.
    + apply Forall_lookup. intros t [ts pc] Hp. specialize (Hall t _ Hp). cbn in Hall |- *. subst. apply (Ht t ts Finished Hp).
Qed.
Lemma fetch_max_correct_witness :
  7 ≤ cell (mkState 9 [(9, Finished); (8, Finished)]).
Proof.
  apply (fetch_max_correct 7 [9; 8] [1; 0; 0; 1]%nat (mkState 9 [(9, Finished); (8, Finished)])). by vm_compute.
Defined.
End FetchMaxProofs.

(** ** The adaptive update interval *)





(** The cached timestamps of a scope as the greatest the events have brought. *)
Definition not_older (m m' : gmap string Z) : Prop := ∀ scope ts, m !! scope = Some ts → ∃ ts', m' !! scope = Some ts' ∧ ts ≤ ts'.
#[export] Instance not_older_preorder : PreOrder not_older.
Proof.
  split.
  - intros m scope ts H. eauto with lia.
  - intros m1 m2 m3 H12 H23 scope ts H. destruct (H12 _ _ H) as (t2 & H2 & ?). destruct (H23 _ _ H2) as (t3 & ? & ?).
    exists t3. split; [done | lia].
Qed.





Lemma required_staleness_nonneg r c : 0 ≤ LowResolution.required_staleness r c.
Proof. unfold LowResolution.required_staleness, LowResolution.ms. case_zb; lia. Qed.








(** A longer interval is truncated: after a shrink to 500 milliseconds, an interval of 2^64 + 1 nanoseconds is stored as 1
    nanosecond, below the adaptive one. *)
Example truncated_interval :
  let o := foldl LowResolution.handle (LowResolution.new 2000000000 0)
    [LowResolution.Adjust (4400 * 262144) (5000 * 262144) 1000; LowResolution.Shrink 1000; LowResolution.SetInterval 18446744073709551617] in
  LowResolution.configured_update_interval o = 1 ∧ LowResolution.adaptive_update_interval o = 500000000.
Proof. by vm_compute. Qed.

