(* ===== verification/ReadTsValidation.v ===== *)
(** * Validation of read timestamps (src/src/pd/read_ts_validation.rs)

    Before a read at a given timestamp the validator makes sure that PD has handed out a timestamp at
    least as great: from a cached low-resolution timestamp, or by fetching one.  Concurrent validators of a
    scope share one fetch (a flight); a validator whose timestamp is above the fetched one tries once more,
    because the shared fetch may have been answered before the validator was asked.

    Validators and flights are tasks that take atomic steps; executions are lists of events.  [pd_ts]
    is the greatest timestamp PD has handed out.  The theorems: a read that is accepted is not in the
    future, and a read that is rejected by a flight of its own time is.  Two executions show where
    the code falls short of this: a retry that joins the flight it wanted to replace, and a wake-up that
    is lost.  The fail points of the tests are off. *)

From S2P Require Import Prelude Proto.

Inductive ReadTsValidationError :=
| InvalidReadTs (read_ts : Z)
| LatestStaleRead
| FutureTsRead (read_ts current_ts : Z)
| Canceled
| GetTimestamp (message : string).

(** A flight: the spawned task that fetches a timestamp, publishes the result and leaves the map. *)
Inductive FlightPc :=
| Fetching
| Got (r : Z + ReadTsValidationError)        (** answered; before the low-resolution timestamp is raised *)
| Observed (r : Z + ReadTsValidationError)   (** before [set_result] *)
| Published (r : Z + ReadTsValidationError)  (** before [map.remove] *)
| Gone (r : Z + ReadTsValidationError).
(** [born] is the greatest timestamp when the flight was created. *)
Record Flight := mkFlight { scope : string; pc : FlightPc; born : Z }.

(** A validator in the loop of [validate_read_ts]. *)
Inductive ValidatorPc :=
| Check (retrying : bool)
| Join (retrying : bool)              (** before the lock of the map *)
| Poll (retrying : bool) (f : nat)    (** [InFlight::wait]: before it reads the result *)
| Park (retrying : bool) (f : nat)    (** read no result; before [notified()] *)
| Sleep (retrying : bool) (f : nat)   (** registered with [notify] *)
| Accepted
| Rejected (e : ReadTsValidationError) (f : option nat).
(** [checked] is the flag [ENABLE_TS_VALIDATION], [asked] the greatest timestamp and [first] the next flight when the validator started. *)
Record Validator := mkValidator {
  v_scope : string; read_ts : Z; stale_read : bool; v_pc : ValidatorPc; checked : bool; asked : Z; first : nat
}.
Definition set_pc (v : Validator) (p : ValidatorPc) : Validator :=
  mkValidator (v_scope v) (read_ts v) (stale_read v) p (checked v) (asked v) (first v).

Record State := mkState {
  pd_ts : Z;
  low_resolution_ts : Z;
  inflight : gmap string nat;
  flights : list Flight;
  validators : list Validator
}.
Definition initial (ts : Z) : State := mkState ts 0 ∅ [] [].

Definition published (f : FlightPc) : option (Z + ReadTsValidationError) :=
  match f with Published r | Gone r => Some r | _ => None end.

Definition normalize_scope (txn_scope : string) : string := if String.eqb txn_scope "" then "global" else txn_scope.

(** The checks before the loop: [None] enters the loop. *)
Definition i64_MAX_as_u64 : Z := 9223372036854775807.
Definition before_loop (enabled : bool) (read_ts : Z) (stale_read : bool) : option (option ReadTsValidationError) :=
  if negb enabled then Some None
  else if read_ts =? u64_max then Some (if stale_read then Some LatestStaleRead else None)
  else if (i64_MAX_as_u64 <=? read_ts) && (read_ts <? u64_max) then Some (Some (InvalidReadTs read_ts))
  else None.

Definition set_validator (i : nat) (v : Validator) (p : ValidatorPc) (s : State) : State :=
  mkState (pd_ts s) (low_resolution_ts s) (inflight s) (flights s)
    (<[i := set_pc v p]> (validators s)).
Definition set_flight (i : nat) (f : Flight) (p : FlightPc) (s : State) : State :=
  mkState (pd_ts s) (low_resolution_ts s) (inflight s) (<[i := mkFlight (scope f) p (born f)]> (flights s)) (validators s).

(** A validator has read the result of its flight. *)
Definition on_result (v : Validator) (retrying : bool) (f : nat) (r : Z + ReadTsValidationError) : ValidatorPc :=
  match r with
  | inr e => Rejected e (Some f)
  | inl current_ts =>
      if current_ts <? read_ts v then
        if retrying then Rejected (FutureTsRead (read_ts v) current_ts) (Some f) else Check true
      else Accepted
  end.

Definition step_validator (i : nat) (v : Validator) (s : State) : option State :=
  match v_pc v with
  | Check retrying =>
      let latest_low_res := low_resolution_ts s in
      Some (set_validator i v (if (latest_low_res =? 0) || (latest_low_res <? read_ts v) then Join retrying else Accepted) s)
  | Join retrying =>
      match inflight s !! v_scope v with
      | Some f => Some (set_validator i v (Poll retrying f) s)
      | None =>
          let f := length (flights s) in
          Some (set_validator i v (Poll retrying f)
            (mkState (pd_ts s) (low_resolution_ts s) (<[v_scope v := f]> (inflight s))
               (flights s ++ [mkFlight (v_scope v) Fetching (pd_ts s)]) (validators s)))
      end
  | Poll retrying f =>
      match flights s !! f with
      | None => None
      | Some fl =>
          match published (pc fl) with
          | Some r => Some (set_validator i v (on_result v retrying f r) s)
          | None => Some (set_validator i v (Park retrying f) s)
          end
      end
  | Park retrying f => Some (set_validator i v (Sleep retrying f) s)
  | _ => None
  end.

(** [notify_waiters]: those that sleep on the flight poll again. *)
Definition wake (f : nat) (v : Validator) : Validator :=
  match v_pc v with
  | Sleep retrying f' =>
      if (f' =? f)%nat then set_pc v (Poll retrying f) else v
  | _ => v
  end.

Definition step_flight (i : nat) (fl : Flight) (answer : option string) (s : State) : option State :=
  match pc fl with
  | Fetching =>
      match answer with
      | None =>
          let ts := pd_ts s + 1 in
          Some (set_flight i fl (Got (inl ts))
            (mkState ts (low_resolution_ts s) (inflight s) (flights s) (validators s)))
      | Some message => Some (set_flight i fl (Got (inr (GetTimestamp message))) s)
      end
  | Got r =>
      Some (set_flight i fl (Observed r)
        (mkState (pd_ts s) (match r with inl ts => Z.max (low_resolution_ts s) ts | inr _ => low_resolution_ts s end)
           (inflight s) (flights s) (validators s)))
  | Observed r =>
      let s := set_flight i fl (Published r) s in
      Some (mkState (pd_ts s) (low_resolution_ts s) (inflight s) (flights s) (map (wake i) (validators s)))
  | Published r =>
      let s := set_flight i fl (Gone r) s in
      Some (mkState (pd_ts s) (low_resolution_ts s) (delete (scope fl) (inflight s)) (flights s) (validators s))
  | Gone _ => None
  end.

Inductive Event :=
| Validate (enabled : bool) (txn_scope : string) (read_ts : Z) (stale_read : bool)  (** [enabled]: the flag when the validator loads it *)
| Validator_ (i : nat)
| Cancel (i : nat)
| Flight_ (i : nat) (answer : option string)
| Advance (n : nat).

Definition step (s : State) (e : Event) : option State :=
  match e with
  | Validate enabled txn_scope read_ts stale_read =>
      let pc := match before_loop enabled read_ts stale_read with
                | Some (Some e) => Rejected e None
                | Some None => Accepted
                | None => Check false
                end in
      Some (mkState (pd_ts s) (low_resolution_ts s) (inflight s) (flights s)
        (validators s ++ [mkValidator (normalize_scope txn_scope) read_ts stale_read pc enabled (pd_ts s) (length (flights s))]))
  | Validator_ i => v ← validators s !! i; step_validator i v s
  | Cancel i =>
      v ← validators s !! i;
      match v_pc v with Sleep _ f => Some (set_validator i v (Rejected Canceled (Some f)) s) | _ => None end
  | Flight_ i answer => fl ← flights s !! i; step_flight i fl answer s
  | Advance n => Some (mkState (pd_ts s + Z.of_nat n) (low_resolution_ts s) (inflight s) (flights s) (validators s))
  end.

(** ** The invariant *)

Definition result (p : FlightPc) : option (Z + ReadTsValidationError) :=
  match p with Fetching => None | Got r | Observed r | Published r | Gone r => Some r end.

(** A flight was answered after it was born, with a timestamp of PD. *)
Definition flight_ok (ts : Z) (fl : Flight) : Prop :=
  born fl ≤ ts ∧ (∀ t, result (pc fl) = Some (inl t) → born fl < t ≤ ts) ∧
  ∀ e, result (pc fl) = Some (inr e) → ∃ m, e = GetTimestamp m.

(** What the checks before the loop said. *)
Definition entry (v : Validator) : option (option ReadTsValidationError) := before_loop (checked v) (read_ts v) (stale_read v).

(** The verdict is the one of the checks before the loop, or the validator is or was in the loop. *)
Definition entry_ok (v : Validator) : Prop :=
  match entry v with
  | Some None => v_pc v = Accepted
  | Some (Some e) => v_pc v = Rejected e None
  | None => True
  end.

Definition verdict_ok (s : State) (v : Validator) : Prop :=
  match v_pc v with
  | Poll _ f | Park _ f | Sleep _ f => is_Some (flights s !! f)
  | Accepted => entry v = Some None ∨ (entry v = None ∧ read_ts v ≤ pd_ts s)
  | Rejected (FutureTsRead r c) f => entry v = None ∧ r = read_ts v ∧ c < r ∧
      ∃ i fl, f = Some i ∧ flights s !! i = Some fl ∧ result (pc fl) = Some (inl c)
  | _ => True
  end.
(** Flights from [first] on were born after the validator was asked. *)
Definition validator_ok (s : State) (v : Validator) : Prop :=
  asked v ≤ pd_ts s ∧ (∀ i fl, (first v ≤ i)%nat → flights s !! i = Some fl → asked v ≤ born fl) ∧ entry_ok v ∧ verdict_ok s v.

Record inv (s : State) : Prop := {
  inv_low : low_resolution_ts s ≤ pd_ts s;
  inv_map : ∀ sc f, inflight s !! sc = Some f → is_Some (flights s !! f);
  inv_flights : ∀ i fl, flights s !! i = Some fl → flight_ok (pd_ts s) fl;
  inv_validators : ∀ i v, validators s !! i = Some v → validator_ok s v
}.

(** What later states keep: timestamps do not go back, flights keep their birth and their answer, and new
    flights are born later. *)
Record later (s s' : State) : Prop := {
  later_ts : pd_ts s ≤ pd_ts s';
  later_flight : ∀ i fl, flights s !! i = Some fl → ∃ fl', flights s' !! i = Some fl' ∧ born fl' = born fl ∧
    ∀ r, result (pc fl) = Some r → result (pc fl') = Some r;
  later_born : ∀ i fl', flights s' !! i = Some fl' →
    (∃ fl, flights s !! i = Some fl ∧ born fl' = born fl) ∨ pd_ts s ≤ born fl'
}.

Lemma verdict_later s s' v : later s s' → verdict_ok s v → verdict_ok s' v.
Proof.
  intros [Hts Hf _]. unfold verdict_ok. assert (∀ f, is_Some (flights s !! f) → is_Some (flights s' !! f)) as Hsome.
  { intros f [fl Hfl]. destruct (Hf f fl Hfl) as (fl' & ? & _). by exists fl'. }
  destruct (v_pc v) as [| |? f|? f|? f| |e f]; auto; [intros [?|[? ?]]; [by left | right; split; [done | lia]]|]. destruct e; auto.
  intros (? & ? & ? & i & fl & ? & Hfl & Hr). destruct (Hf i fl Hfl) as (fl' & ? & _ & Hr'). eauto 10.
Qed.

Lemma validator_later s s' v : later s s' → validator_ok s v → validator_ok s' v.
Proof.
  intros Hl (Ha & Hb & He & Hv). split_and!; [destruct Hl; lia | | done | by eapply verdict_later].
  intros i fl' Hi Hfl'. destruct (later_born s s' Hl i fl' Hfl') as [(fl & Hfl & ->)|]; [by eapply Hb | lia].
Qed.

(** Nothing about the flights changes. *)
Lemma later_same s ts low m vs : pd_ts s ≤ ts → later s (mkState ts low m (flights s) vs).
Proof. intros. split; cbn; [done | |]; intros i fl Hfl; [exists fl | left; exists fl]; done. Qed.

Lemma validators_insert s i v' (P : Validator → Prop) :
  (∀ j w, validators s !! j = Some w → P w) → P v' →
  ∀ j w, <[i := v']> (validators s) !! j = Some w → P w.
Proof. intros H Hv' j w [(_ & <- & _)|[_ Hj]]%list_lookup_insert_Some; [done|]. by eapply H. Qed.

(** A validator in the loop has passed the checks before it. *)
Lemma entry_loop s i v : inv s → validators s !! i = Some v → v_pc v ≠ Accepted → (∀ e, v_pc v ≠ Rejected e None) → entry v = None.
Proof.
  intros Hinv Hi Ha Hr. destruct (inv_validators s Hinv i v Hi) as (_ & _ & He & _). unfold entry_ok in He.
  destruct (entry v) as [[e|]|]; [by apply Hr in He | done | done].
Qed.

(** A validator moves to [p]. *)
Lemma inv_set_validator s i v p : inv s → validators s !! i = Some v → entry v = None →
  verdict_ok s (set_pc v p) → inv (set_validator i v p s).
Proof.
  intros [Hl Hm Hf Hv] Hi He Hp. split; [done..|]. cbn. apply (validators_insert s); [done|].
  destruct (Hv i v Hi) as (? & ? & _). split_and!; [done | done | | done]. unfold entry_ok. change (entry (set_pc v p)) with (entry v). by rewrite He.
Qed.

(** A flight moves to [p]: its answer stays, or it is PD's next timestamp. *)
Lemma inv_set_flight s i fl p ts low m : inv s → flights s !! i = Some fl → pd_ts s ≤ ts → low ≤ ts →
  (∀ r, result (pc fl) = Some r → result p = Some r) → (∀ t, result p = Some (inl t) → born fl < t ≤ ts) →
  (∀ e, result p = Some (inr e) → ∃ m, e = GetTimestamp m) →
  (∀ sc f, m !! sc = Some f → inflight s !! sc = Some f) →
  let s' := mkState ts low m (<[i := mkFlight (scope fl) p (born fl)]> (flights s)) (validators s) in
  inv s' ∧ later s s'.
Proof.
  intros [Hl Hm Hf Hv] Hi Hts Hlow Hkeep Hres Herr Hmap s'. assert (i < length (flights s))%nat as Hlt by (by eapply lookup_lt_Some).
  assert (later s s') as Hlater.
  { split; [done | |]; cbn.
    - intros j fl0 Hj. destruct (decide (j = i)) as [->|]; [|rewrite list_lookup_insert_ne by done; eauto].
      rewrite list_lookup_insert_eq by done. simplify_eq. eauto.
    - intros j fl' [(<- & <- & _)|[_ Hj]]%list_lookup_insert_Some; left; eauto. }
  split; [|done]. split; cbn; [done | | |].
  - intros sc f Hsc. destruct (Hm sc f (Hmap sc f Hsc)) as [fl0 Hfl0].
    destruct (later_flight s s' Hlater f fl0 Hfl0) as (fl' & ? & _). by exists fl'.
  - intros j fl' [(<- & <- & _)|[_ Hj]]%list_lookup_insert_Some.
    + destruct (Hf i fl Hi) as [Hb _]. split_and!; cbn; [lia | done..].
    + destruct (Hf j fl' Hj) as (Hb & Hr & He). split_and!; [lia | | done]. intros t Ht. specialize (Hr t Ht). lia.
  - intros j v Hj. eapply validator_later; [exact Hlater|]. by eapply Hv.
Qed.

(** What a validator concludes from the answer of a flight. *)
Lemma on_result_ok s v retrying f fl r : entry v = None → flights s !! f = Some fl → flight_ok (pd_ts s) fl → result (pc fl) = Some r →
  verdict_ok s (set_pc v (on_result v retrying f r)).
Proof.
  intros He Hfl (_ & Hok & Herr) Hr. unfold on_result. change (entry v) with (entry (set_pc v (on_result v retrying f r))) in He.
  destruct r as [c|e]; cbn in *.
  - specialize (Hok c Hr). destruct (Z.ltb_spec c (read_ts v)); cbn; [|right; split; [done | lia]]. destruct retrying; cbn; [|done].
    split_and!; [done | done | lia |]. by exists f, fl.
  - by destruct (Herr e Hr) as [m ->].
Qed.

Lemma published_result p r : published p = Some r → result p = Some r.
Proof. by destruct p. Qed.

(** A new flight joins the map. *)
Lemma inv_new_flight s sc : inv s →
  inv (mkState (pd_ts s) (low_resolution_ts s) (<[sc := length (flights s)]> (inflight s))
         (flights s ++ [mkFlight sc Fetching (pd_ts s)]) (validators s)).
Proof.
  intros [Hl Hm Hf Hv]. set (s' := mkState _ _ _ _ _). assert (later s s') as Hlater.
  { split; [done | |]; cbn; intros i fl.
    - intros Hi. exists fl. split; [by apply lookup_app_l_Some | done].
    - intros [Hi|[_ Hi]]%lookup_app_Some; [left; eauto|]. apply list_lookup_singleton_Some in Hi as [_ <-]. by right. }
  split; cbn; [done | | |].
  - intros sc' f [[<- <-]|[_ Hf']]%lookup_insert_Some.
    + rewrite lookup_app_r, Nat.sub_diag by done. by eexists.
    + destruct (Hm sc' f Hf') as [fl Hfl]. exists fl. by apply lookup_app_l_Some.
  - intros i fl [Hi|[_ Hi]]%lookup_app_Some; [by eapply Hf|].
    apply list_lookup_singleton_Some in Hi as [_ <-]. by split_and!.
  - intros i v Hi. eapply validator_later; [exact Hlater | by eapply Hv].
Qed.

Lemma step_validator_inv s i v s' : inv s → validators s !! i = Some v → step_validator i v s = Some s' → inv s'.
Proof.
  intros Hinv Hi. destruct (inv_validators s Hinv i v Hi) as (_ & _ & _ & Hv). pose proof (entry_loop s i v Hinv Hi) as He.
  unfold step_validator, verdict_ok in *. destruct (v_pc v) as [retrying|retrying|retrying f|retrying f| | |]; intros Hs; simplify_eq;
    (assert (entry v = None) as He' by (apply He; done)).
  - apply inv_set_validator; [done..|]. unfold verdict_ok. pose proof (inv_low s Hinv).
    destruct (Z.ltb_spec (low_resolution_ts s) (read_ts v)); [by rewrite orb_true_r|].
    destruct (low_resolution_ts s =? 0); cbn; [done | right; split; [done | lia]].
  - destruct (inflight s !! v_scope v) as [f|] eqn:Hm; simplify_eq.
    + apply inv_set_validator; [done..|]. by eapply inv_map.
    + apply inv_set_validator; [by apply inv_new_flight | done | done |]. cbn.
      rewrite lookup_app_r, Nat.sub_diag by done. by eexists.
  - destruct (flights s !! f) as [fl|] eqn:Hf; [|done]. destruct (published (pc fl)) as [r|] eqn:Hp; simplify_eq.
    + apply inv_set_validator; [done..|]. eapply on_result_ok; [done | done | by eapply inv_flights | by apply published_result].
    + apply inv_set_validator; [done..|]. unfold verdict_ok. cbn. by rewrite Hf.
  - by apply inv_set_validator.
Qed.

Lemma wake_ok s f v : is_Some (flights s !! f) → validator_ok s v → validator_ok s (wake f v).
Proof.
  intros Hf (Ha & Hb & He & Hv). unfold wake. destruct (v_pc v) as [| | | |retrying f'| |] eqn:Hpc; try by split_and!.
  case_match; [|by split_and!]. split_and!; [done | done | | done]. unfold entry_ok in *.
  change (entry (set_pc v (Poll retrying f))) with (entry v). rewrite Hpc in He. by destruct (entry v) as [[]|].
Qed.

Lemma inv_wake s f : inv s → is_Some (flights s !! f) →
  inv (mkState (pd_ts s) (low_resolution_ts s) (inflight s) (flights s) (map (wake f) (validators s))).
Proof.
  intros [Hl Hm Hf Hv] Hsome. split; [done..|]. cbn. intros i v Hi.
  apply list_lookup_fmap_Some_1 in Hi as (w & -> & Hw). apply (wake_ok s); [done|]. by eapply Hv.
Qed.

Lemma step_flight_inv s i fl answer s' : inv s → flights s !! i = Some fl → step_flight i fl answer s = Some s' → inv s'.
Proof.
  intros Hinv Hi. destruct (inv_flights s Hinv i fl Hi) as (Hb & Hok & Herr). pose proof (inv_low s Hinv).
  unfold step_flight, set_flight. destruct (pc fl) as [|r|r|r|] eqn:Hpc; [destruct answer as [m|]|..]; intros [= <-]; cbn in *.
  - apply inv_set_flight; auto; [lia | | naive_solver..]. by rewrite Hpc.
  - apply inv_set_flight; auto; [lia.. | by rewrite Hpc | | done]. intros t [= <-]. lia.
  - apply inv_set_flight; auto; [lia | | by rewrite Hpc]. destruct r as [t|]; [|lia]. specialize (Hok t eq_refl). lia.
  - apply (inv_wake (set_flight i fl (Published r) s)).
    + apply inv_set_flight; auto; [lia | by rewrite Hpc].
    + cbn. rewrite list_lookup_insert_eq by (by eapply lookup_lt_Some). by eexists.
  - apply inv_set_flight; auto; [lia | by rewrite Hpc |]. intros sc f [_ Hsc]%lookup_delete_Some. done.
Qed.

Lemma validation_step_inv s e s' : inv s → step s e = Some s' → inv s'.
Proof.
  intros Hinv. destruct e as [enabled sc ts stale|i|i|i answer|n]; cbn; intros Hs.
  - simplify_eq. destruct Hinv as [Hl Hm Hf Hv]. split; [done..|]. cbn. intros j v [Hj|[_ Hj]]%lookup_app_Some; [by eapply Hv|].
    apply list_lookup_singleton_Some in Hj as [_ <-]. split_and!; [done | | |]; cbn.
    + intros k fl Hk Hfl%lookup_lt_Some. lia.
    + unfold entry_ok, entry. cbn. by destruct (before_loop enabled ts stale) as [[]|].
    + unfold verdict_ok, entry. cbn. destruct (before_loop enabled ts stale) as [[e|]|] eqn:E; [|by left | done].
      unfold before_loop in E. repeat case_match; simplify_eq; done.
  - apply bind_Some in Hs as (v & Hv & Hs). by eapply step_validator_inv.
  - apply bind_Some in Hs as (v & Hv & Hs). destruct (v_pc v) eqn:Hpc; simplify_eq. apply inv_set_validator; [done | done | | done].
    by eapply entry_loop; rewrite ?Hpc.
  - apply bind_Some in Hs as (fl & Hfl & Hs). by eapply step_flight_inv.
  - simplify_eq. destruct Hinv as [Hl Hm Hf Hv]. split; cbn; [lia | done | |].
    + intros i fl Hi. destruct (Hf i fl Hi) as (? & Hr & ?). split_and!; [lia | | done]. intros t Ht. specialize (Hr t Ht). lia.
    + intros i v Hi. eapply validator_later; [|by eapply Hv]. apply later_same. lia.
Qed.

Lemma initial_inv ts : 0 ≤ ts → inv (initial ts).
Proof. intros. split; cbn; [done | by intros ?? ?%lookup_empty_Some | done..]. Qed.

(** ** Properties *)

(** C38: In every interleaving of validators and shared fetches, from PD timestamp [ts] on: a validator that finds the validation
    off (the default) accepts at once; otherwise [u64::MAX] is accepted at once unless it is a stale read, which is rejected as unavailable,
    and any other timestamp from [i64::MAX] on is rejected as invalid.  In all other cases a validator accepts a
    read timestamp only if PD has handed out a timestamp at least as great; a validator that rejects its timestamp
    as in the future reports its own timestamp and a smaller timestamp that a fetch has returned; and when
    this fetch was started after the validator was asked, the timestamp was in the future at that time. *)
Theorem read_ts_validation_sound ts es s i v : 0 ≤ ts → run_steps step (initial ts) es = Some s → validators s !! i = Some v →
  (checked v = false → v_pc v = Accepted) ∧
  (checked v = true → read_ts v = u64_max → v_pc v = if stale_read v then Rejected LatestStaleRead None else Accepted) ∧
  (checked v = true → i64_MAX_as_u64 ≤ read_ts v < u64_max → v_pc v = Rejected (InvalidReadTs (read_ts v)) None) ∧
  (v_pc v = Accepted → checked v = false ∨ read_ts v = u64_max ∨ read_ts v ≤ pd_ts s) ∧
  (∀ r c f, v_pc v = Rejected (FutureTsRead r c) f → r = read_ts v ∧ c < read_ts v ∧
     ∃ j fl, f = Some j ∧ flights s !! j = Some fl ∧ result (pc fl) = Some (inl c) ∧ born fl < c ≤ pd_ts s ∧
       ((first v ≤ j)%nat → asked v < read_ts v)).
Proof.
  intros Hts Hr Hi. assert (inv s) as Hinv by (eapply (run_steps_inv step inv validation_step_inv); [by apply initial_inv | exact Hr]).
  destruct (inv_validators s Hinv i v Hi) as (_ & Hb & He & Hv). unfold entry_ok, verdict_ok, entry, before_loop in *.
  split_and!.
  - intros Hc. by rewrite Hc in He.
  - intros Hc Hu. rewrite Hc, Hu, Z.eqb_refl in He. cbn in He. by destruct (stale_read v).
  - intros Hc Hu. rewrite Hc, (proj2 (Z.eqb_neq _ _)), (proj2 (Z.leb_le _ _)), (proj2 (Z.ltb_lt _ _)) in He by lia. exact He.
  - intros Hpc. rewrite Hpc in Hv. destruct (checked v); [right | by left]. destruct (Z.eqb_spec (read_ts v) u64_max); [by left|].
    right. destruct Hv as [Hv|[_ ?]]; [|done]. cbn in Hv. by case_match.
  - intros r c f Hpc. rewrite Hpc in Hv.
    destruct Hv as (_ & -> & Hc & j & fl & -> & Hfl & Hres). split_and!; [done..|]. exists j, fl.
    destruct (inv_flights s Hinv j fl Hfl) as (_ & Hok & _). specialize (Hok c Hres).
    split_and!; [done.. | lia | lia |]. intros Hj. specialize (Hb j fl Hj Hfl). lia.
Qed.

(** The steps of a flight from its answer to the end, and of a validator into its flight and from its result. *)
Definition flight_run (i : nat) : list Event := [Flight_ i None; Flight_ i None; Flight_ i None; Flight_ i None].
Definition validator_joins (i : nat) : list Event := [Validator_ i; Validator_ i].

(** A read at 12 when PD is at 10 is accepted by the second fetch, a read at 20 is rejected by it. *)
Definition two_reads : list Event :=
  [Validate true "" 12 false; Validate true "global" 20 false] ++ validator_joins 0 ++ validator_joins 1 ++ flight_run 0 ++
  [Validator_ 0; Validator_ 1] ++ validator_joins 0 ++ validator_joins 1 ++ flight_run 1 ++ [Validator_ 0; Validator_ 1].

Lemma read_ts_validation_sound_witness : ∃ s v w, run_steps step (initial 10) two_reads = Some s ∧
  validators s !! 0%nat = Some v ∧ v_pc v = Accepted ∧ checked v = true ∧ (checked v = false ∨ read_ts v = u64_max ∨ read_ts v ≤ pd_ts s) ∧
  validators s !! 1%nat = Some w ∧ v_pc w = Rejected (FutureTsRead 20 12) (Some 1%nat) ∧ asked w < read_ts w.
Proof.
  eexists _, _, _. split; [vm_compute; reflexivity|]. split; [reflexivity|]. split; [reflexivity|]. split; [reflexivity|]. split.
  - destruct (read_ts_validation_sound 10 two_reads _ 0 _ ltac:(lia) ltac:(vm_compute; reflexivity) eq_refl) as (_ & _ & _ & H & _).
    apply H. reflexivity.
  - split; [reflexivity|]. split; [reflexivity|].
    destruct (read_ts_validation_sound 10 two_reads _ 1 _ ltac:(lia) ltac:(vm_compute; reflexivity) eq_refl) as (_ & _ & _ & _ & H).
    destruct (H 20 12 (Some 1%nat) eq_refl) as (_ & _ & j & fl & [= <-] & _ & _ & _ & Hf). apply Hf. cbn. lia.
Defined.

(** A read that nobody checks, and a latest read. *)
Example unchecked_reads : ∃ s, run_steps step (initial 10) [Validate false "" 99 false; Validate true "" u64_max false; Validate true "" u64_max true] = Some s ∧
  v_pc <$> validators s = [Accepted; Accepted; Rejected LatestStaleRead None].
Proof. eexists. by split. Qed.

(** The retry can join the flight it wants to replace: the flight has published its result and is still in
    the map.  PD is at 20 when the read at 15 is asked for, and the read is rejected as in the future. *)
Definition joins_twice : list Event :=
  [Validate true "" 11 false] ++ validator_joins 0 ++ [Flight_ 0 None; Flight_ 0 None; Advance 9; Validate true "" 15 false] ++
  validator_joins 1 ++ [Flight_ 0 None; Validator_ 1] ++ validator_joins 1 ++ [Validator_ 1].

Lemma retry_joins_same_flight : ∃ s v, run_steps step (initial 10) joins_twice = Some s ∧
  validators s !! 1%nat = Some v ∧ read_ts v ≤ asked v ∧ v_pc v = Rejected (FutureTsRead 15 11) (Some 0%nat).
Proof. eexists _, _. split; [vm_compute; reflexivity|]. by split_and!. Qed.

(** The wake-up can be lost: the flight publishes after the validator has read no result and before it
    has registered.  The flight is gone, and no further step of it wakes the validator. *)
Definition publishes_in_between : list Event :=
  [Validate true "" 11 false] ++ validator_joins 0 ++ [Validator_ 0] ++ flight_run 0 ++ [Validator_ 0].

Lemma wake_up_lost : ∃ s v fl, run_steps step (initial 10) publishes_in_between = Some s ∧
  validators s !! 0%nat = Some v ∧ v_pc v = Sleep false 0 ∧ read_ts v ≤ pd_ts s ∧
  flights s !! 0%nat = Some fl ∧ pc fl = Gone (inl 11) ∧
  (∀ answer, step s (Flight_ 0 answer) = None) ∧ step s (Validator_ 0) = None.
Proof. eexists _, _, _. split; [vm_compute; reflexivity|]. by split_and!. Qed.
