(* ===== verification/RunLoops.v ===== *)
(** * Callbacks and the run loop (src/src/util/async_util.rs)

    [Callback]: a single-shot callback that any task may fulfil, at once or through its executor, and whose
    injections transform the value on its way, the last injection first.

    [RunLoop]: a queue of tasks that at most one [exec] call at a time works off in order, sleeping while there
    is nothing to do.  Tasks, appenders, cancellation and [exec] calls take atomic steps; executions are lists
    of events.  What a task does when it runs (append, cancel, ...) are events between its start and its end. *)

From S2P Require Import Prelude.

(** ** Callback *)

Module Callback.
Section callback.
Context {T E : Type}.

Abbreviation Injection := (T * E → T * E).

(** The task that won the [fulfilled] flag, or the closure it left with the executor, runs: before the snapshot
    of the injections, before the callback is taken, or done. *)
Inductive Runner :=
| Unfulfilled
| Scheduled (x : T * E)
| Running (x : T * E)
| Injected (x : T * E)
| Finished.

Record State := mkState {
  fulfilled : bool;
  injections : list Injection;
  callback : bool;                 (** the closure is still there *)
  runner : Runner;
  executor : nat;                  (** closures handed to the executor *)
  calls : list (T * E)             (** the calls of the callback *)
}.
Definition new : State := mkState false [] true Unfulfilled 0 [].

Inductive Event :=
| Inject (f : Injection)
| Invoke (x : T * E)
| Schedule (x : T * E)
| ExecutorRuns        (** the executor starts the closure *)
| Run.                (** the running task takes its next step *)

Definition run_injections (injections : list Injection) (x : T * E) : T * E := foldl (λ x inj, inj x) x (rev injections).

Definition step (s : State) (e : Event) : option State :=
  match e with
  | Inject f => Some (mkState (fulfilled s) (injections s ++ [f]) (callback s) (runner s) (executor s) (calls s))
  | Invoke x =>
      if fulfilled s then Some s
      else Some (mkState true (injections s) (callback s) (Running x) (executor s) (calls s))
  | Schedule x =>
      if fulfilled s then Some s
      else Some (mkState true (injections s) (callback s) (Scheduled x) (S (executor s)) (calls s))
  | ExecutorRuns =>
      match runner s with
      | Scheduled x => Some (mkState (fulfilled s) (injections s) (callback s) (Running x) (executor s) (calls s))
      | _ => None
      end
  | Run =>
      match runner s with
      | Running x =>
          Some (mkState (fulfilled s) (injections s) (callback s) (Injected (run_injections (injections s) x))
            (executor s) (calls s))
      | Injected x =>
          Some (mkState (fulfilled s) (injections s) false Finished (executor s)
            (if callback s then calls s ++ [x] else calls s))
      | _ => None
      end
  end.

(** The first value offered. *)
Fixpoint first_offer (es : list Event) : option (T * E) :=
  match es with
  | [] => None
  | (Invoke x | Schedule x) :: _ => Some x
  | _ :: es => first_offer es
  end.

(** [o] is the first value offered so far. *)
Definition inv (o : option (T * E)) (s : State) : Prop :=
  fulfilled s = bool_decide (is_Some o) ∧
  match runner s with
  | Unfulfilled => o = None ∧ calls s = [] ∧ callback s = true
  | Scheduled x | Running x => o = Some x ∧ calls s = [] ∧ callback s = true
  | Injected y => ∃ x injs, o = Some x ∧ injs `prefix_of` injections s ∧ y = run_injections injs x ∧ calls s = [] ∧ callback s = true
  | Finished => ∃ x injs, o = Some x ∧ injs `prefix_of` injections s ∧ calls s = [run_injections injs x]
  end.

Definition offered (o : option (T * E)) (es : list Event) : option (T * E) :=
  match o with Some x => Some x | None => first_offer es end.

Lemma callback_step_inv o s e s' : inv o s → step s e = Some s' → inv (offered o [e]) s'.
Proof.
  intros [Hf Hr]. destruct e as [f|x|x| |]; cbn; intros Hs.
  - simplify_eq. assert (offered o [Inject f] = o) as -> by (by destruct o). split; [done|]. cbn.
    destruct (runner s); try done; destruct Hr as (x0 & injs & ? & ? & Hrest); exists x0, injs;
      (split_and!; [done | by apply prefix_app_r | by destruct_and?..]).
  - destruct o as [y|]; cbn in Hf; rewrite Hf in Hs; simplify_eq; [done|]. split; [done|]. cbn. by destruct (runner s); naive_solver.
  - destruct o as [y|]; cbn in Hf; rewrite Hf in Hs; simplify_eq; [done|]. split; [done|]. cbn. by destruct (runner s); naive_solver.
  - assert (offered o [ExecutorRuns] = o) as -> by (by destruct o). destruct (runner s) eqn:E0; simplify_eq. by split.
  - assert (offered o [Run] = o) as -> by (by destruct o). destruct (runner s) as [| |x|y|] eqn:E0; simplify_eq; (split; [done|]); cbn.
    + destruct Hr as (? & ? & ?). by exists x, (injections s).
    + destruct Hr as (x & injs & ? & ? & -> & -> & ->). by exists x, injs.
Qed.

Lemma offered_cons o e es : offered (offered o [e]) es = offered o (e :: es).
Proof. destruct o; [done|]. by destruct e. Qed.

Lemma callback_run_inv es : ∀ o s s', inv o s → run_steps step s es = Some s' → inv (offered o es) s'.
Proof.
  induction es as [|e es IH]; intros o s s' Hi Hr.
  - unfold run_steps in Hr. cbn in Hr. simplify_eq. by destruct o.
  - rewrite run_steps_cons in Hr. apply bind_Some in Hr as (s1 & Hs & Hr). rewrite <-offered_cons.
    eapply IH; [|exact Hr]. by eapply callback_step_inv.
Qed.

End callback.
End Callback.

(** However invocations, schedulings, injections and the executor interleave: the closure of a callback is called
    at most once, and when the task that fulfilled the callback is done exactly once, with the value that
    was offered first, passed through injections in the reverse of the order they were added (those present when
    the task ran). *)
Theorem callback_fulfilled_once {T E} (es : list (@Callback.Event T E)) s : run_steps Callback.step Callback.new es = Some s →
  Callback.fulfilled s = bool_decide (is_Some (Callback.first_offer es)) ∧
  (Callback.calls s = [] ∨ ∃ x injs, Callback.first_offer es = Some x ∧ injs `prefix_of` Callback.injections s ∧
     Callback.calls s = [Callback.run_injections injs x]) ∧
  (Callback.runner s = Callback.Finished → Callback.calls s ≠ []).
Proof.
  intros Hr. assert (Callback.inv (Callback.first_offer es) s) as [Hf Hi].
  { apply (Callback.callback_run_inv es None Callback.new); [by split | done]. }
  split; [done|]. destruct (Callback.runner s) as [|x|x|y|].
  1-3: destruct Hi as (_ & Hc & _); split; [by left | done].
  - destruct Hi as (x & injs & _ & _ & _ & Hc & _). split; [by left | done].
  - destruct Hi as (x & injs & Hx & Hp & ->). split; [right; by exists x, injs | done].
Qed.

Definition push (n : Z) (x : list Z * Z) : list Z * Z := (x.1 ++ [n], x.2).
Definition scheduled_first : list (@Callback.Event (list Z) Z) :=
  [Callback.Inject (push 3); Callback.Inject (push 2); Callback.Schedule ([], 0); Callback.Invoke ([7], 0);
   Callback.Inject (push 1); Callback.ExecutorRuns; Callback.Run; Callback.Run; Callback.Invoke ([8], 0)].

Lemma callback_fulfilled_once_witness : ∃ s, run_steps Callback.step Callback.new scheduled_first = Some s ∧
  Callback.calls s = [([1; 2; 3], 0)] ∧ Callback.fulfilled s = true.
Proof.
  eexists. split; [vm_compute; reflexivity|]. split; [reflexivity|].
  apply (callback_fulfilled_once scheduled_first _). vm_compute. reflexivity.
Defined.

(** ** Run loop *)

Module RunLoop.

Inductive RunLoopState := Idle | Running.

Inductive RunLoopError :=
| ConcurrentExec (executed : nat)
| Canceled (executed : nat).

(** The two branches of [select!]: the future of [notify] (created, registered, notified), and [ctx.canceled()]
    (created, flag read, registered, notified). *)
Inductive NotifyWait := NFresh | NWaiting | NNotified.
Inductive CancelWait := CFresh | CChecked | CWaiting | CNotified.

Inductive ExecPc :=
| EStart
| ESetRunning
| ELoop (n : nat)                 (** before [is_canceled] *)
| EPop (n : nat)                  (** before [pop_front] *)
| ETask (t : nat) (n : nat)       (** the task runs *)
| EWait (nw : NotifyWait) (cw : CancelWait)
| EDrop (r : nat + RunLoopError)       (** before the guard resets [state] *)
| ERelease (r : nat + RunLoopError)    (** before it resets [exec_running] *)
| EDone (r : nat + RunLoopError).
Record Exec := mkExec { ctx : nat; pc : ExecPc }.

Record State := mkState {
  state : RunLoopState;
  queue : list nat;
  permit : bool;                  (** a notification stored in [notify] *)
  exec_running : bool;
  canceled : gset nat;            (** the contexts that are cancelled *)
  execs : list Exec;
  appending : nat;                (** appenders between [push_back] and [notify_one] *)
  appended : list nat;            (** every task in the order of its [push_back] *)
  log : list (nat * nat)          (** every task run, with the [exec] call that ran it *)
}.
Definition new : State := mkState Idle [] false false ∅ [] 0 [] [].

Definition set_exec (i : nat) (x : Exec) (p : ExecPc) (s : State) : State :=
  mkState (state s) (queue s) (permit s) (exec_running s) (canceled s) (<[i := mkExec (ctx x) p]> (execs s))
    (appending s) (appended s) (log s).
Definition set_state (st : RunLoopState) (s : State) : State :=
  mkState st (queue s) (permit s) (exec_running s) (canceled s) (execs s) (appending s) (appended s) (log s).
Definition set_permit (p : bool) (s : State) : State :=
  mkState (state s) (queue s) p (exec_running s) (canceled s) (execs s) (appending s) (appended s) (log s).
Definition set_exec_running (b : bool) (s : State) : State :=
  mkState (state s) (queue s) (permit s) b (canceled s) (execs s) (appending s) (appended s) (log s).

Definition is_canceled (x : Exec) (s : State) : bool := bool_decide (ctx x ∈ canceled s).

(** A step of an [exec] call outside of [select!]. *)
Definition step_exec (i : nat) (x : Exec) (s : State) : option State :=
  match pc x with
  | EStart =>
      if exec_running s then Some (set_exec i x (EDone (inr (ConcurrentExec 0))) s)
      else Some (set_exec i x ESetRunning (set_exec_running true s))
  | ESetRunning => Some (set_exec i x (ELoop 0) (set_state Running s))
  | ELoop n => Some (set_exec i x (if is_canceled x s then EDrop (inr (Canceled n)) else EPop n) s)
  | EPop n =>
      match queue s with
      | t :: q =>
          let s := mkState (state s) q (permit s) (exec_running s) (canceled s) (execs s) (appending s) (appended s)
                     (log s ++ [(i, t)]) in
          Some (set_exec i x (ETask t n) s)
      | [] => Some (set_exec i x (if (0 <? n)%nat then EDrop (inl n) else EWait NFresh CFresh) s)
      end
  | ETask _ n => Some (set_exec i x (ELoop (S n)) s)
  | EDrop r => Some (set_exec i x (ERelease r) (set_state Idle s))
  | ERelease r => Some (set_exec i x (EDone r) (set_exec_running false s))
  | _ => None
  end.

(** The branches of [select!] are polled in any order.  A notified future that is dropped passes its notification on. *)
Definition poll_notified (i : nat) (x : Exec) (s : State) : option State :=
  match pc x with
  | EWait NFresh cw =>
      if permit s then Some (set_exec i x (ELoop 0) (set_permit false s)) else Some (set_exec i x (EWait NWaiting cw) s)
  | EWait NNotified _ => Some (set_exec i x (ELoop 0) s)
  | _ => None
  end.

Definition drop_notified (nw : NotifyWait) (s : State) : State :=
  match nw with NNotified => set_permit true s | _ => s end.

Definition poll_canceled (i : nat) (x : Exec) (s : State) : option State :=
  match pc x with
  | EWait nw CFresh =>
      if is_canceled x s then Some (set_exec i x (EDrop (inr (Canceled 0))) (drop_notified nw s))
      else Some (set_exec i x (EWait nw CChecked) s)
  | EWait nw CChecked => Some (set_exec i x (EWait nw CWaiting) s)
  | EWait nw CNotified => Some (set_exec i x (EDrop (inr (Canceled 0))) (drop_notified nw s))
  | _ => None
  end.

(** [notify_one]: the first registered waiter, or a stored permit. *)
Fixpoint notify_first (xs : list Exec) : option (list Exec) :=
  match xs with
  | [] => None
  | x :: xs =>
      match pc x with
      | EWait NWaiting cw => Some (mkExec (ctx x) (EWait NNotified cw) :: xs)
      | _ => cons x <$> notify_first xs
      end
  end.
Definition notify_one (s : State) : State :=
  match notify_first (execs s) with
  | Some xs => mkState (state s) (queue s) (permit s) (exec_running s) (canceled s) xs (appending s) (appended s) (log s)
  | None => set_permit true s
  end.

(** [notify_waiters] of a context. *)
Definition wake_canceled (c : nat) (x : Exec) : Exec :=
  match pc x with
  | EWait nw CWaiting => if (ctx x =? c)%nat then mkExec (ctx x) (EWait nw CNotified) else x
  | _ => x
  end.

Inductive Event :=
| Append (t : nat)
| Notify
| Cancel (c : nat)
| Start (c : nat)
| ExecStep (i : nat)
| PollNotified (i : nat)
| PollCanceled (i : nat).

Definition step (s : State) (e : Event) : option State :=
  match e with
  | Append t =>
      Some (mkState (state s) (queue s ++ [t]) (permit s) (exec_running s) (canceled s) (execs s) (S (appending s))
        (appended s ++ [t]) (log s))
  | Notify =>
      match appending s with
      | O => None
      | S k =>
          Some (notify_one (mkState (state s) (queue s) (permit s) (exec_running s) (canceled s) (execs s) k (appended s) (log s)))
      end
  | Cancel c =>
      if bool_decide (c ∈ canceled s) then Some s
      else Some (mkState (state s) (queue s) (permit s) (exec_running s) ({[c]} ∪ canceled s) (map (wake_canceled c) (execs s))
        (appending s) (appended s) (log s))
  | Start c =>
      Some (mkState (state s) (queue s) (permit s) (exec_running s) (canceled s) (execs s ++ [mkExec c EStart])
        (appending s) (appended s) (log s))
  | ExecStep i => x ← execs s !! i; step_exec i x s
  | PollNotified i => x ← execs s !! i; poll_notified i x s
  | PollCanceled i => x ← execs s !! i; poll_canceled i x s
  end.

(** ** The invariant *)

(** Between the compare-and-swap and the release of [exec_running]. *)
Definition active (p : ExecPc) : bool := match p with EStart | EDone _ => false | _ => true end.
Definition pc_state (p : ExecPc) : RunLoopState :=
  match p with EStart | ESetRunning | ERelease _ | EDone _ => Idle | _ => Running end.
Definition result_count (r : nat + RunLoopError) : nat :=
  match r with inl n | inr (ConcurrentExec n) | inr (Canceled n) => n end.
(** How many tasks the call has started. *)
Definition pc_count (p : ExecPc) : nat :=
  match p with
  | EStart | ESetRunning | EWait _ _ => 0
  | ELoop n | EPop n => n
  | ETask _ n => S n
  | EDrop r | ERelease r | EDone r => result_count r
  end.
Definition executed (i : nat) (log : list (nat * nat)) : nat := length (filter (λ p, p.1 = i) log).
#[local] Arguments executed : simpl never.

(** No wake-up of [append] is lost. *)
Definition wait_ok (s : State) (p : ExecPc) : Prop :=
  match p with
  | EWait NFresh _ => queue s = [] ∨ permit s = true ∨ (0 < appending s)%nat
  | EWait NWaiting _ => queue s = [] ∨ (0 < appending s)%nat
  | _ => True
  end.
Definition result_ok (p : ExecPc) : Prop :=
  match p with EDrop (inl n) | ERelease (inl n) | EDone (inl n) => (0 < n)%nat | _ => True end.

Record exec_ok (h : option nat) (s : State) (i : nat) (x : Exec) : Prop := {
  ok_active : active (pc x) = bool_decide (h = Some i);
  ok_count : pc_count (pc x) = executed i (log s);
  ok_wait : wait_ok s (pc x);
  ok_result : result_ok (pc x)
}.

(** [h] is the call that holds [exec_running]. *)
Record inv (h : option nat) (s : State) : Prop := {
  inv_fifo : appended s = (log s).*2 ++ queue s;
  inv_logged : ∀ i t, (i, t) ∈ log s → (i < length (execs s))%nat;
  inv_running : exec_running s = bool_decide (is_Some h);
  inv_state : state s = match h ≫= λ i, execs s !! i with Some x => pc_state (pc x) | None => Idle end;
  inv_holder : ∀ i, h = Some i → is_Some (execs s !! i);
  inv_execs : ∀ i x, execs s !! i = Some x → exec_ok h s i x
}.

Lemma executed_app i log j t : executed i (log ++ [(j, t)]) = (executed i log + if decide (j = i) then 1 else 0)%nat.
Proof. unfold executed. rewrite filter_app, length_app, filter_cons. cbn. by case_decide. Qed.

Lemma executed_new i log : (∀ j t, (j, t) ∈ log → j < i)%nat → executed i log = 0%nat.
Proof.
  induction log as [|[j t] log IH]; intros H; [done|]. unfold executed in *. rewrite filter_cons_False; [apply IH|].
  - intros j' t' Hin. apply (H j' t'). by right.
  - cbn. intros <-. specialize (H j t (list_elem_of_here _ _)). lia.
Qed.

(** The others wait for nothing: only the holder is active. *)
Lemma inactive_wait s p : active p = false → wait_ok s p.
Proof. by destruct p. Qed.

(** What a step of the holder, or of a call that becomes it, has to show. *)
Record holder_step (s s' : State) (i : nat) (x : Exec) (p : ExecPc) : Prop := {
  hs_execs : execs s' = <[i := mkExec (ctx x) p]> (execs s);
  hs_fifo : appended s' = (log s').*2 ++ queue s';
  hs_log : log s' = log s ∨ ∃ t, log s' = log s ++ [(i, t)];
  hs_running : exec_running s' = active p;
  hs_state : state s' = pc_state p;
  hs_count : pc_count p = executed i (log s');
  hs_wait : wait_ok s' p;
  hs_result : result_ok p
}.

Lemma inv_holder_step h s s' i x p : inv h s → execs s !! i = Some x → (h = Some i ∨ h = None) → holder_step s s' i x p →
  inv (if active p then Some i else None) s'.
Proof.
  intros [Hfifo Hlog Hrun Hst Hh Hx] Hi Hhi [Hex Hfifo' Hlog' Hrun' Hst' Hcount Hw Hr].
  assert (i < length (execs s))%nat as Hlt by (by eapply lookup_lt_Some).
  assert (execs s' !! i = Some (mkExec (ctx x) p)) as Hi' by (rewrite Hex; by apply list_lookup_insert_eq).
  split; [done | | | | |].
  - intros j t. rewrite Hex, length_insert. destruct Hlog' as [->|[t' ->]]; [apply Hlog|].
    rewrite elem_of_app, list_elem_of_singleton. intros [Hin|[= -> ->]]; [by eapply Hlog | done].
  - rewrite Hrun'. by destruct (active p).
  - rewrite Hst'. destruct (active p) eqn:Hp; cbn; [by rewrite Hi'|]. by destruct p.
  - intros j Hj. destruct (active p); simplify_eq. by eexists.
  - intros j y. rewrite Hex. intros [(<- & <- & _)|[Hne Hj]]%list_lookup_insert_Some.
    + split; cbn; [|done..]. by destruct (active p); [rewrite bool_decide_true | rewrite bool_decide_false].
    + destruct (Hx j y Hj) as [Ha Hc _ Hres]. assert (active (pc y) = false) as Hina.
      { rewrite Ha. apply bool_decide_false. destruct Hhi as [-> | ->]; congruence. }
      split; [| | by apply inactive_wait | done].
      * rewrite Hina. symmetry. apply bool_decide_false. destruct (active p); congruence.
      * rewrite Hc. destruct Hlog' as [->|[t ->]]; [done|]. rewrite executed_app. rewrite decide_False by congruence. lia.
Qed.

(** A call that finds [exec_running] set returns. *)
Lemma inv_concurrent h s i x : inv h s → execs s !! i = Some x → pc x = EStart → exec_running s = true →
  inv h (set_exec i x (EDone (inr (ConcurrentExec 0))) s).
Proof.
  intros [Hfifo Hlog Hrun Hst Hh Hx] Hi Hpc Hr. destruct (Hx i x Hi) as [Ha Hc _ _]. rewrite Hpc in Ha, Hc. cbn in Ha, Hc.
  assert (h ≠ Some i) as Hne by (intros ->; by rewrite bool_decide_true in Ha). split; cbn; [done | | done | | |].
  - intros j t. rewrite length_insert. apply Hlog.
  - rewrite Hst. destruct h as [j|]; [|done]. cbn. by rewrite list_lookup_insert_ne by congruence.
  - intros j Hj. rewrite list_lookup_insert_ne by congruence. by apply Hh.
  - intros j y [(<- & <- & _)|[_ Hj]]%list_lookup_insert_Some; [by split|]. by destruct (Hx j y Hj).
Qed.

(** An active call is the holder. *)
Lemma active_holder h s i x : inv h s → execs s !! i = Some x → active (pc x) = true →
  h = Some i ∧ exec_running s = true ∧ state s = pc_state (pc x) ∧ pc_count (pc x) = executed i (log s) ∧ wait_ok s (pc x) ∧
  result_ok (pc x).
Proof.
  intros Hinv Hi Ha. destruct (inv_execs h s Hinv i x Hi) as [Hact Hc Hw Hr]. rewrite Ha in Hact. symmetry in Hact.
  apply bool_decide_eq_true in Hact as ->. split_and!; [done | | | done..].
  - rewrite (inv_running _ s Hinv). by apply bool_decide_true.
  - rewrite (inv_state _ s Hinv). cbn. by rewrite Hi.
Qed.

Definition Inv (s : State) : Prop := ∃ h, inv h s.

(** A step of the holder keeps the invariant. *)
Lemma Inv_active h s s' i x p : inv h s → execs s !! i = Some x → active (pc x) = true → holder_step s s' i x p → Inv s'.
Proof.
  intros Hinv Hi Ha Hs. destruct (active_holder h s i x Hinv Hi Ha) as [Hh _].
  eexists. eapply inv_holder_step; [exact Hinv | exact Hi | by left | exact Hs].
Qed.

(** The parts of [holder_step] that follow from the state before. *)
Ltac holder_step := split; cbn; eauto; try done; try congruence.

Lemma step_exec_inv s i x s' : Inv s → execs s !! i = Some x → step_exec i x s = Some s' → Inv s'.
Proof.
  intros [h Hinv] Hi. pose proof (inv_fifo h s Hinv) as Hfifo. pose proof (active_holder h s i x Hinv Hi) as Hact.
  unfold step_exec. destruct (pc x) as [| |n|n|t n| |r|r|] eqn:Hpc; cbn in Hact; intros Hs; simplify_eq;
    pose proof (ok_count _ _ _ _ (inv_execs h s Hinv i x Hi)) as Hcount; rewrite Hpc in Hcount; cbn in Hcount;
    try (destruct (Hact eq_refl) as (Hh & Hrun & Hst & _ & _ & Hres)).
  - destruct (exec_running s) eqn:Hrun; simplify_eq; [exists h; by apply inv_concurrent|].
    assert (h = None) as ->. { rewrite (inv_running h s Hinv) in Hrun. by destruct h. }
    exists (Some i). eapply (inv_holder_step None s _ i x ESetRunning); [done.. | by right |].
    pose proof (inv_state _ s Hinv) as Hst. split; cbn; auto.
  - eapply Inv_active; [done | done | by rewrite Hpc |]. holder_step.
  - eapply Inv_active; [done | done | by rewrite Hpc |]. holder_step; by case_match.
  - destruct (queue s) as [|t q] eqn:Hq; injection Hs as <-.
    + destruct (Nat.ltb_spec 0 n) as [|Hn]; (eapply Inv_active; [done | done | by rewrite Hpc |]);
        holder_step; [by replace n with 0%nat in Hcount by lia | by left].
    + eapply Inv_active; [done | done | by rewrite Hpc |]. holder_step.
      * rewrite Hfifo, fmap_app, <-app_assoc. done.
      * rewrite executed_app, decide_True by done. cbn. lia.
  - eapply Inv_active; [done | done | by rewrite Hpc |]. holder_step.
  - eapply Inv_active; [done | done | by rewrite Hpc |]. holder_step.
  - eapply Inv_active; [done | done | by rewrite Hpc |]. holder_step.
Qed.

Lemma poll_notified_inv s i x s' : Inv s → execs s !! i = Some x → poll_notified i x s = Some s' → Inv s'.
Proof.
  intros [h Hinv] Hi. pose proof (inv_fifo h s Hinv) as Hfifo. pose proof (active_holder h s i x Hinv Hi) as Hact.
  unfold poll_notified. destruct (pc x) as [| | | | |nw cw| | |] eqn:Hpc; intros Hs; simplify_eq.
  destruct (Hact eq_refl) as (Hh & Hrun & Hst & Hcount & Hw & _). cbn in Hst, Hcount, Hw.
  destruct nw; [destruct (permit s) eqn:Hp|..]; simplify_eq; (eapply Inv_active; [done | done | by rewrite Hpc |]);
    holder_step. by destruct Hw as [|[|]]; [left | | right].
Qed.

Lemma poll_canceled_inv s i x s' : Inv s → execs s !! i = Some x → poll_canceled i x s = Some s' → Inv s'.
Proof.
  intros [h Hinv] Hi. pose proof (inv_fifo h s Hinv) as Hfifo. pose proof (active_holder h s i x Hinv Hi) as Hact.
  unfold poll_canceled. destruct (pc x) as [| | | | |nw cw| | |] eqn:Hpc; intros Hs; simplify_eq.
  destruct (Hact eq_refl) as (Hh & Hrun & Hst & Hcount & Hw & _). cbn in Hst, Hcount, Hw.
  destruct nw, cw; try destruct (is_canceled x s); simplify_eq;
    (eapply Inv_active; [done | done | by rewrite Hpc |]); holder_step.
Qed.

(** *** Steps of the others *)

Lemma notify_first_spec xs xs' : notify_first xs = Some xs' →
  ∃ i x cw, xs !! i = Some x ∧ pc x = EWait NWaiting cw ∧ xs' = <[i := mkExec (ctx x) (EWait NNotified cw)]> xs.
Proof.
  revert xs'. induction xs as [|x xs IH]; intros xs'; [done|]. cbn.
  assert (∀ o, cons x <$> o = Some xs' → o = notify_first xs → ∃ i x0 cw, (x :: xs) !! i = Some x0 ∧ pc x0 = EWait NWaiting cw ∧
    xs' = <[i := mkExec (ctx x0) (EWait NNotified cw)]> (x :: xs)) as Hskip.
  { intros o (ys & -> & ->)%fmap_Some Ho. symmetry in Ho. destruct (IH ys Ho) as (i & x0 & cw & ? & ? & ->). by exists (S i), x0, cw. }
  destruct (pc x) as [| | | | |[] cw| | |] eqn:Hpc; intros Hs; try (by eapply Hskip). simplify_eq. by exists 0%nat, x, cw.
Qed.

Lemma notify_first_none xs : notify_first xs = None → ∀ i x cw, xs !! i = Some x → pc x ≠ EWait NWaiting cw.
Proof.
  induction xs as [|x xs IH]; intros Hn i y cw Hi Hy; [done|]. cbn in Hn. destruct i as [|i]; cbn in Hi.
  - simplify_eq. by rewrite Hy in Hn.
  - destruct (pc x) as [| | | | |[] ?| | |]; try done; apply fmap_None in Hn; by eapply IH.
Qed.

Lemma notify_one_inv s k : Inv s → appending s = S k →
  Inv (notify_one (mkState (state s) (queue s) (permit s) (exec_running s) (canceled s) (execs s) k (appended s) (log s))).
Proof.
  intros [h Hinv] Hk. unfold notify_one. cbn. destruct (notify_first (execs s)) as [xs|] eqn:Hn.
  - apply notify_first_spec in Hn as (i & x & cw & Hi & Hpc & ->).
    destruct (active_holder h s i x Hinv Hi) as (Hh & Hrun & Hst & Hc & _ & _); [by rewrite Hpc|].
    rewrite Hpc in Hst, Hc. eapply Inv_active; [exact Hinv | exact Hi | by rewrite Hpc |].
    split; cbn; [done | apply (inv_fifo h s Hinv) | by left | done..].
  - exists h. destruct Hinv as [Hfifo Hlog Hrun Hst Hh Hx]. split; [done..|]. cbn. intros i x Hi. destruct (Hx i x Hi) as [Ha Hc Hw Hr].
    split; [done | done | | done]. pose proof (notify_first_none _ Hn i x) as Hnw.
    destruct (pc x) as [| | | | |[] cw| | |]; cbn; auto. by destruct (Hnw cw Hi).
Qed.

(** Events that leave the calls alone, or only move a waiting call between two states of its cancellation. *)
Lemma wake_canceled_ok c h s s' i x : exec_ok h s i x → log s' = log s → (wait_ok s (pc x) → wait_ok s' (pc x)) →
  exec_ok h s' i (wake_canceled c x).
Proof.
  intros [Ha Hc Hw Hr] Hl Hw'. unfold wake_canceled. destruct (pc x) as [| | | | |nw cw| | |] eqn:Hpc;
    try (split; rewrite ?Hpc, ?Hl; auto; fail).
  destruct cw; try (split; rewrite ?Hpc, ?Hl; auto; fail).
  destruct (ctx x =? c)%nat; split; cbn; rewrite ?Hpc, ?Hl; auto. by destruct nw; apply Hw'.
Qed.

Lemma pc_state_wake c x : pc_state (pc (wake_canceled c x)) = pc_state (pc x).
Proof. unfold wake_canceled. destruct (pc x) as [| | | | |nw cw| | |] eqn:Hpc; rewrite ?Hpc; try done. destruct cw; rewrite ?Hpc; try done. by case_match; rewrite ?Hpc. Qed.

Lemma cancel_inv s c : Inv s →
  Inv (mkState (state s) (queue s) (permit s) (exec_running s) ({[c]} ∪ canceled s) (map (wake_canceled c) (execs s))
        (appending s) (appended s) (log s)).
Proof.
  intros [h [Hfifo Hlog Hrun Hst Hh Hx]]. exists h. change (map (wake_canceled c)) with (fmap (M := list) (wake_canceled c)).
  split; cbn; [done | | done | | |].
  - intros i t. rewrite length_fmap. apply Hlog.
  - rewrite Hst. destruct h as [j|]; [|done]. cbn. rewrite list_lookup_fmap. destruct (execs s !! j); [|done]. symmetry. apply pc_state_wake.
  - intros i Hi. rewrite list_lookup_fmap, fmap_is_Some. by apply Hh.
  - intros i x (y & -> & Hy)%list_lookup_fmap_Some_1. apply (wake_canceled_ok c h s); [by apply Hx | done | by destruct (pc y)].
Qed.

Lemma run_loop_step_inv s e s' : Inv s → step s e = Some s' → Inv s'.
Proof.
  intros Hinv. destruct e as [t| |c|c|i|i|i]; cbn; intros Hs.
  - simplify_eq. destruct Hinv as [h [Hfifo Hlog Hrun Hst Hh Hx]]. exists h. split; cbn; [|done..|].
    + by rewrite Hfifo, <-app_assoc.
    + intros i x Hi. destruct (Hx i x Hi) as [Ha Hc Hw Hr]. split; cbn; [done | done | | done].
      destruct (pc x) as [| | | | |[] cw| | |]; cbn in *; auto; right; [right|]; lia.
  - destruct (appending s) as [|k] eqn:Hk; simplify_eq. by apply notify_one_inv.
  - case_bool_decide; simplify_eq; [done|]. by apply cancel_inv.
  - simplify_eq. destruct Hinv as [h [Hfifo Hlog Hrun Hst Hh Hx]]. exists h. split; cbn; [done | | done | | |].
    + intros i t Hin. rewrite length_app. specialize (Hlog i t Hin). lia.
    + rewrite Hst. destruct h as [j|]; [|done]. cbn. by rewrite lookup_app_l by (apply lookup_lt_is_Some; by apply Hh).
    + intros i Hi. destruct (Hh i Hi) as [x Hix]. exists x. by apply lookup_app_l_Some.
    + intros i x [Hi|[Hi Hx']]%lookup_app_Some; [by destruct (Hx i x Hi)|].
      apply list_lookup_singleton_Some in Hx' as [Hi0 <-]. split; cbn; [| | done..].
      * symmetry. apply bool_decide_false. intros ->. destruct (Hh i eq_refl) as [y Hy%lookup_lt_Some]. lia.
      * symmetry. apply executed_new. intros j t Hin. specialize (Hlog j t Hin). lia.
  - apply bind_Some in Hs as (x & Hx & Hs). by eapply step_exec_inv.
  - apply bind_Some in Hs as (x & Hx & Hs). by eapply poll_notified_inv.
  - apply bind_Some in Hs as (x & Hx & Hs). by eapply poll_canceled_inv.
Qed.

Lemma run_loop_new_inv : Inv new.
Proof. exists None. split; cbn; try done. intros i t Hin. by apply elem_of_nil in Hin. Qed.

End RunLoop.

(** For every interleaving of appenders, [exec] calls and cancellation: tasks run in the order in which they were
    appended, each once, and none is lost; at most one [exec] call is active; a call that returned has run
    exactly as many tasks as it reports, and at least one when it reports success; a call sleeps on a queue with
    tasks only while a notification for it is still to come; and when no call is active the loop is idle. *)
Theorem run_loop_correct es s : run_steps RunLoop.step RunLoop.new es = Some s →
  RunLoop.appended s = (RunLoop.log s).*2 ++ RunLoop.queue s ∧
  (∀ i j x y, RunLoop.execs s !! i = Some x → RunLoop.execs s !! j = Some y →
     RunLoop.active (RunLoop.pc x) = true → RunLoop.active (RunLoop.pc y) = true → i = j) ∧
  (∀ i x r, RunLoop.execs s !! i = Some x → RunLoop.pc x = RunLoop.EDone r →
     RunLoop.result_count r = length (filter (λ p, p.1 = i) (RunLoop.log s)) ∧ (∀ n, r = inl n → (0 < n)%nat)) ∧
  (∀ i x cw, RunLoop.execs s !! i = Some x → RunLoop.pc x = RunLoop.EWait RunLoop.NWaiting cw → RunLoop.queue s ≠ [] →
     (0 < RunLoop.appending s)%nat) ∧
  ((∀ i x, RunLoop.execs s !! i = Some x → RunLoop.active (RunLoop.pc x) = false) →
     RunLoop.state s = RunLoop.Idle ∧ RunLoop.exec_running s = false).
Proof.
  intros Hr. assert (RunLoop.Inv s) as [h Hinv].
  { eapply (run_steps_inv RunLoop.step RunLoop.Inv RunLoop.run_loop_step_inv); [apply RunLoop.run_loop_new_inv | exact Hr]. }
  split_and!.
  - apply (RunLoop.inv_fifo h s Hinv).
  - intros i j x y Hi Hj Hx Hy. destruct (RunLoop.active_holder h s i x Hinv Hi Hx) as [-> _].
    destruct (RunLoop.active_holder _ s j y Hinv Hj Hy) as [[= ->] _]. done.
  - intros i x r Hi Hpc. destruct (RunLoop.inv_execs h s Hinv i x Hi) as [_ Hc _ Hres]. rewrite Hpc in Hc, Hres.
    split; [exact Hc|]. by intros n ->.
  - intros i x cw Hi Hpc Hq. pose proof (RunLoop.ok_wait _ _ _ _ (RunLoop.inv_execs h s Hinv i x Hi)) as Hw. rewrite Hpc in Hw.
    by destruct Hw.
  - intros Hno. assert (h = None) as ->.
    { destruct h as [i|]; [|done]. destruct (RunLoop.inv_holder _ s Hinv i eq_refl) as [x Hx].
      pose proof (RunLoop.ok_active _ _ _ _ (RunLoop.inv_execs _ s Hinv i x Hx)) as Ha. rewrite (Hno i x Hx) in Ha.
      by rewrite bool_decide_true in Ha. }
    split; [apply (RunLoop.inv_state _ s Hinv) | apply (RunLoop.inv_running _ s Hinv)].
Qed.

(** A call sleeps, is woken by an append, runs the task and one the task appends; a second call finds it running. *)
Definition sleeps_and_runs : list RunLoop.Event :=
  [RunLoop.Start 0; RunLoop.ExecStep 0; RunLoop.ExecStep 0; RunLoop.ExecStep 0; RunLoop.ExecStep 0;
   RunLoop.PollNotified 0; RunLoop.PollCanceled 0; RunLoop.PollCanceled 0; RunLoop.Append 5; RunLoop.Start 1; RunLoop.ExecStep 1;
   RunLoop.Notify; RunLoop.PollNotified 0; RunLoop.ExecStep 0; RunLoop.ExecStep 0; RunLoop.Append 6; RunLoop.Notify;
   RunLoop.ExecStep 0; RunLoop.ExecStep 0; RunLoop.ExecStep 0; RunLoop.ExecStep 0; RunLoop.ExecStep 0; RunLoop.ExecStep 0;
   RunLoop.ExecStep 0; RunLoop.ExecStep 0].

Lemma run_loop_correct_witness : ∃ s, run_steps RunLoop.step RunLoop.new sleeps_and_runs = Some s ∧
  RunLoop.log s = [(0%nat, 5%nat); (0%nat, 6%nat)] ∧
  RunLoop.pc <$> RunLoop.execs s = [RunLoop.EDone (inl 2%nat); RunLoop.EDone (inr (RunLoop.ConcurrentExec 0))] ∧
  RunLoop.appended s = [5%nat; 6%nat].
Proof.
  eexists. split; [vm_compute; reflexivity|]. split; [reflexivity|]. split; [reflexivity|].
  apply (proj1 (run_loop_correct sleeps_and_runs _ ltac:(vm_compute; reflexivity))).
Defined.

(** The cancellation of a sleeping call can be lost: it comes after [canceled] has read the flag and before it has
    registered.  No step of the call, or of the context, is left to end its sleep. *)
Definition cancelled_in_between : list RunLoop.Event :=
  [RunLoop.Start 0; RunLoop.ExecStep 0; RunLoop.ExecStep 0; RunLoop.ExecStep 0; RunLoop.ExecStep 0;
   RunLoop.PollNotified 0; RunLoop.PollCanceled 0; RunLoop.Cancel 0; RunLoop.PollCanceled 0].

Lemma cancellation_lost : ∃ s, run_steps RunLoop.step RunLoop.new cancelled_in_between = Some s ∧
  0%nat ∈ RunLoop.canceled s ∧ RunLoop.pc <$> RunLoop.execs s !! 0%nat = Some (RunLoop.EWait RunLoop.NWaiting RunLoop.CWaiting) ∧
  RunLoop.step s (RunLoop.ExecStep 0) = None ∧ RunLoop.step s (RunLoop.PollNotified 0) = None ∧
  RunLoop.step s (RunLoop.PollCanceled 0) = None ∧ RunLoop.step s (RunLoop.Cancel 0) = Some s.
Proof. eexists. split; [vm_compute; reflexivity|]. split; [by apply (bool_decide_unpack _); vm_compute|]. by split_and!. Qed.
