(* ===== verification/Utilities.v ===== *)
(** * Small utilities

    - [RateLimit] (src/src/util/rate_limit.rs): a token limiter on a fair semaphore.  Tasks take, hold and
      return tokens in atomic steps.
    - [FlatMapOk] (src/src/util/iter.rs): the iterator behind [flat_map_ok], as the state machine it is.
      Collecting it is the definition [Requests.flat_map_ok] that the merging of responses is modelled with.
    - request sources (src/src/util/request_source.rs) and what resource control reads from a request
      (src/src/resource_control.rs). *)

From S2P Require Import Prelude Proto Errors Requests Contexts.

(** ** Rate limit *)

Module RateLimit.

(** A task takes a token with [get_token] and later returns it with [put_token]. *)
Inductive Pc :=
| Get                 (** in [select!], before the semaphore is polled *)
| Queued              (** waiting in the queue of the semaphore *)
| Assigned            (** the semaphore has assigned a permit to the waiter *)
| Holding             (** [get_token] returned [false] *)
| Exited              (** [get_token] returned [true] *)
| Putting             (** in [put_token], before [available_permits] is compared *)
| Adding              (** before [add_permits] *)
| Returned
| Panicked.

Record State := mkState { capacity : nat; available : nat; waiters : list nat; tasks : list Pc }.
Definition new (capacity : nat) : State := mkState capacity capacity [] [].

Definition set_task (i : nat) (p : Pc) (s : State) : State :=
  mkState (capacity s) (available s) (waiters s) (<[i := p]> (tasks s)).

(** [add_permits(1)]: the first waiter gets the permit. *)
Definition add_permit (s : State) : State :=
  match waiters s with
  | [] => mkState (capacity s) (S (available s)) [] (tasks s)
  | j :: w => mkState (capacity s) (available s) w (<[j := Assigned]> (tasks s))
  end.

Definition step_task (i : nat) (p : Pc) (s : State) : option State :=
  match p with
  | Get =>
      match available s with
      | S k => Some (set_task i Holding (mkState (capacity s) k (waiters s) (tasks s)))
      | O => Some (set_task i Queued (mkState (capacity s) 0 (waiters s ++ [i]) (tasks s)))
      end
  | Assigned => Some (set_task i Holding s)
  | Holding => Some (set_task i Putting s)
  | Putting => Some (set_task i (if (capacity s <=? available s)%nat then Panicked else Adding) s)
  | Adding => Some (add_permit (set_task i Returned s))
  | _ => None
  end.

(** [done.recv()] wins: a waiter leaves the queue, and a permit assigned to it goes back. *)
Definition step_done (i : nat) (p : Pc) (s : State) : option State :=
  match p with
  | Get => Some (set_task i Exited s)
  | Queued =>
      Some (set_task i Exited (mkState (capacity s) (available s) (List.filter (λ j, negb (j =? i)%nat) (waiters s)) (tasks s)))
  | Assigned => Some (add_permit (set_task i Exited s))
  | _ => None
  end.

(** [Redundant]: a task calls [put_token] without a token. *)
Inductive Event := Spawn | Redundant | Step (i : nat) | Done (i : nat).

Definition step (s : State) (e : Event) : option State :=
  match e with
  | Spawn => Some (mkState (capacity s) (available s) (waiters s) (tasks s ++ [Get]))
  | Redundant => Some (mkState (capacity s) (available s) (waiters s) (tasks s ++ [Putting]))
  | Step i => p ← tasks s !! i; step_task i p s
  | Done i => p ← tasks s !! i; step_done i p s
  end.

(** Who has a token. *)
Definition has_token (p : Pc) : nat := match p with Assigned | Holding | Putting | Adding => 1 | _ => 0 end.
Definition tokens_out (s : State) : nat := sum_list_with has_token (tasks s).

(** [k] permits are on their way back. *)
Record inv (k : nat) (s : State) : Prop := {
  inv_tokens : (available s + tokens_out s + k = capacity s)%nat;
  inv_waiters : ∀ i, i ∈ waiters s ↔ tasks s !! i = Some Queued;
  inv_nodup : NoDup (waiters s);
  inv_eager : waiters s ≠ [] → available s = 0%nat;
  inv_panic : Panicked ∉ tasks s
}.

Lemma sum_insert (f : Pc → nat) l i p q : l !! i = Some p →
  (sum_list_with f (<[i := q]> l) + f p = sum_list_with f l + f q)%nat.
Proof.
  revert i. induction l as [|x l IH]; intros [|i]; simpl; intros Hi; simplify_eq; [lia|]. specialize (IH i Hi). lia.
Qed.

Lemma sum_lookup (f : Pc → nat) l i p : l !! i = Some p → (f p ≤ sum_list_with f l)%nat.
Proof. revert i. induction l as [|x l IH]; intros [|i]; simpl; intros Hi; simplify_eq; [lia|]. specialize (IH i Hi). lia. Qed.

Lemma inv_set_task k k' s i p q : inv k s → tasks s !! i = Some p → p ≠ Queued → q ≠ Queued → q ≠ Panicked →
  (k' + has_token q = k + has_token p)%nat → inv k' (set_task i q s).
Proof.
  intros [Ht Hw Hn He Hp] Hi Hpq Hq Hqp Hk. assert (i < length (tasks s))%nat by (by eapply lookup_lt_Some).
  split; cbn; [| | done | done |].
  - unfold tokens_out in *. cbn. pose proof (sum_insert has_token (tasks s) i p q Hi). lia.
  - intros j. rewrite Hw. destruct (decide (j = i)) as [->|]; [|by rewrite list_lookup_insert_ne].
    rewrite list_lookup_insert_eq by done. split; congruence.
  - intros [j Hj]%list_elem_of_lookup. apply list_lookup_insert_Some in Hj as [(_ & Hj & _)|[_ Hj]]; [congruence|].
    apply Hp. by eapply list_elem_of_lookup_2.
Qed.

Lemma inv_add_permit s : inv 1 s → inv 0 (add_permit s).
Proof.
  intros [Ht Hw Hn He Hp]. unfold add_permit, tokens_out in *. destruct (waiters s) as [|j w] eqn:Ew.
  - split; cbn; [unfold tokens_out; cbn; lia | done..].
  - assert (tasks s !! j = Some Queued) as Hj by (apply Hw; by left).
    assert (j < length (tasks s))%nat by (by eapply lookup_lt_Some). apply NoDup_cons in Hn as [Hjw Hn].
    pose proof (sum_insert has_token (tasks s) j Queued Assigned Hj). cbn in *. split; cbn; [unfold tokens_out; cbn; lia | | done | |].
    + intros i. destruct (decide (i = j)) as [->|]; [rewrite list_lookup_insert_eq by done; naive_solver|].
      rewrite list_lookup_insert_ne, <-Hw, elem_of_cons by done. naive_solver.
    + intros _. by apply He.
    + intros [i Hi]%list_elem_of_lookup. apply list_lookup_insert_Some in Hi as [(_ & Hi & _)|[_ Hi]]; [done|].
      apply Hp. by eapply list_elem_of_lookup_2.
Qed.

(** A task joins the queue, or leaves it. *)
Lemma inv_enqueue s i : inv 0 s → tasks s !! i = Some Get → available s = 0%nat →
  inv 0 (set_task i Queued (mkState (capacity s) 0 (waiters s ++ [i]) (tasks s))).
Proof.
  intros [Ht Hw Hn He Hp] Hi Ha. assert (i < length (tasks s))%nat by (by eapply lookup_lt_Some). split; cbn.
  - unfold tokens_out in *. cbn. pose proof (sum_insert has_token (tasks s) i Get Queued Hi) as Hs. cbn in Hs. lia.
  - intros j. rewrite elem_of_app, list_elem_of_singleton, Hw. destruct (decide (j = i)) as [->|].
    + rewrite list_lookup_insert_eq by done. naive_solver.
    + rewrite list_lookup_insert_ne by done. naive_solver.
  - apply NoDup_app. split_and!; [done | | apply NoDup_singleton]. intros j Hj ->%list_elem_of_singleton. apply Hw in Hj. congruence.
  - done.
  - intros [j Hj]%list_elem_of_lookup. apply list_lookup_insert_Some in Hj as [(_ & Hj & _)|[_ Hj]]; [done|].
    apply Hp. by eapply list_elem_of_lookup_2.
Qed.

Lemma inv_dequeue s i : inv 0 s → tasks s !! i = Some Queued →
  inv 0 (set_task i Exited (mkState (capacity s) (available s) (List.filter (λ j, negb (j =? i)%nat) (waiters s)) (tasks s))).
Proof.
  intros [Ht Hw Hn He Hp] Hi. assert (i < length (tasks s))%nat by (by eapply lookup_lt_Some).
  assert (∀ j, j ∈ List.filter (λ j, negb (j =? i)%nat) (waiters s) ↔ j ∈ waiters s ∧ j ≠ i) as Hf.
  { intros j. rewrite !list_elem_of_In, filter_In, negb_true_iff, Nat.eqb_neq. done. }
  split; cbn.
  - unfold tokens_out in *. cbn. pose proof (sum_insert has_token (tasks s) i Queued Exited Hi) as Hs. cbn in Hs. lia.
  - intros j. rewrite Hf, Hw. destruct (decide (j = i)) as [->|].
    + rewrite list_lookup_insert_eq by done. naive_solver.
    + rewrite list_lookup_insert_ne by done. naive_solver.
  - apply NoDup_ListNoDup, List.NoDup_filter. by apply NoDup_ListNoDup.
  - intros Hne. apply He. intros Hw0. apply Hne. by rewrite Hw0.
  - intros [j Hj]%list_elem_of_lookup. apply list_lookup_insert_Some in Hj as [(_ & Hj & _)|[_ Hj]]; [done|].
    apply Hp. by eapply list_elem_of_lookup_2.
Qed.

Lemma rate_limit_step_inv s e s' : inv 0 s → e ≠ Redundant → step s e = Some s' → inv 0 s'.
Proof.
  intros Hinv He. destruct e as [| |i|i]; [|done|..]; cbn; intros Hs.
  - simplify_eq. destruct Hinv as [Ht Hw Hn Hea Hp]. split; cbn; [| | done | done |].
    + unfold tokens_out in *. cbn. rewrite sum_list_with_app. cbn. lia.
    + intros i. rewrite Hw. split; [apply lookup_app_l_Some|]. intros [|[_ Hi]]%lookup_app_Some; [done|].
      by apply list_lookup_singleton_Some in Hi as [_ ?].
    + by intros [|Hi%list_elem_of_singleton]%elem_of_app.
  - apply bind_Some in Hs as (p & Hi & Hs). destruct p; cbn in Hs; simplify_eq.
    + destruct (available s) as [|k] eqn:Ha; simplify_eq; [by apply inv_enqueue|].
      apply (inv_set_task 1 0 _ i Get); try done. destruct Hinv as [Ht Hw Hn Hea Hp]. split; try done; cbn.
      * unfold tokens_out in *. cbn. lia.
      * intros Hne. specialize (Hea Hne). lia.
    + by apply (inv_set_task 0 0 s i Assigned).
    + by apply (inv_set_task 0 0 s i Holding).
    + pose proof (sum_lookup has_token _ _ _ Hi) as Hge. pose proof (inv_tokens _ _ Hinv) as Ht. unfold tokens_out in Ht. cbn in Hge.
      destruct (Nat.leb_spec (capacity s) (available s)); [lia|]. by apply (inv_set_task 0 0 s i Putting).
    + apply inv_add_permit. by apply (inv_set_task 0 1 s i Adding).
  - apply bind_Some in Hs as (p & Hi & Hs). destruct p; cbn in Hs; simplify_eq.
    + by apply (inv_set_task 0 0 s i Get).
    + by apply inv_dequeue.
    + apply inv_add_permit. by apply (inv_set_task 0 1 s i Assigned).
Qed.

Lemma rate_limit_new_inv capacity : inv 0 (new capacity).
Proof. split; cbn; try done; [lia | | apply NoDup_nil_2 | by intros ?%elem_of_nil]. intros i. by rewrite elem_of_nil. Qed.

Lemma rate_limit_run_inv es : ∀ s s', inv 0 s → Forall (λ e, e ≠ Redundant) es → run_steps step s es = Some s' →
  inv 0 s' ∧ capacity s' = capacity s.
Proof.
  induction es as [|e es IH]; intros s s' Hs Hes Hr; [unfold run_steps in Hr; cbn in Hr; by simplify_eq|].
  apply Forall_cons in Hes as [He Hes]. rewrite run_steps_cons in Hr. apply bind_Some in Hr as (s1 & H1 & Hr).
  destruct (IH s1 s') as [? ->]; [by eapply rate_limit_step_inv | done | done |]. split; [done|].
  destruct e as [| |i|i]; cbn in H1; simplify_eq; [done..| |];
    apply bind_Some in H1 as (p & _ & H1); destruct p; cbn in H1; simplify_eq; try done;
    unfold add_permit; repeat case_match; by simplify_eq.
Qed.

End RateLimit.

(** When every task returns only the token it has taken, then in every interleaving, with tasks that give up
    waiting included, at most [capacity] tokens are out, every token is either available or out, no
    [put_token] panics, and no token is available while a task is queued. *)
Theorem rate_limit_correct capacity es s : Forall (λ e, e ≠ RateLimit.Redundant) es →
  run_steps RateLimit.step (RateLimit.new capacity) es = Some s →
  (RateLimit.available s + RateLimit.tokens_out s = capacity)%nat ∧ RateLimit.Panicked ∉ RateLimit.tasks s ∧
  (∀ i, RateLimit.tasks s !! i = Some RateLimit.Queued → RateLimit.available s = 0%nat ∧ i ∈ RateLimit.waiters s).
Proof.
  intros Hes Hr. destruct (RateLimit.rate_limit_run_inv es _ s (RateLimit.rate_limit_new_inv capacity) Hes Hr) as [[Ht Hw _ He Hp] Hc].
  cbn in Hc. split_and!; [lia | done |]. intros i Hi%Hw. split; [|done]. apply He. intros Hnil. rewrite Hnil in Hi. by apply elem_of_nil in Hi.
Qed.

(** Two tasks share one token; the second is queued until the first returns it, a third gives up. *)
Lemma rate_limit_correct_witness : ∃ s,
  run_steps RateLimit.step (RateLimit.new 1)
    [RateLimit.Spawn; RateLimit.Spawn; RateLimit.Spawn; RateLimit.Step 0; RateLimit.Step 1; RateLimit.Step 2; RateLimit.Done 2;
     RateLimit.Step 0; RateLimit.Step 0; RateLimit.Step 0; RateLimit.Step 1] = Some s ∧
  RateLimit.tasks s = [RateLimit.Returned; RateLimit.Holding; RateLimit.Exited] ∧
  (RateLimit.available s + RateLimit.tokens_out s = 1)%nat.
Proof.
  eexists. split; [vm_compute; reflexivity|]. split; [reflexivity|].
  apply (proj1 (rate_limit_correct 1
    [RateLimit.Spawn; RateLimit.Spawn; RateLimit.Spawn; RateLimit.Step 0; RateLimit.Step 1; RateLimit.Step 2; RateLimit.Done 2;
     RateLimit.Step 0; RateLimit.Step 0; RateLimit.Step 0; RateLimit.Step 1] _
     ltac:(repeat constructor; discriminate) ltac:(vm_compute; reflexivity))).
Defined.

(** A redundant token does not always panic: two [put_token] calls that compare before either adds both succeed,
    and the limiter then has more tokens than its capacity. *)
Lemma redundant_token_unnoticed : ∃ s,
  run_steps RateLimit.step (RateLimit.new 1)
    [RateLimit.Spawn; RateLimit.Step 0; RateLimit.Step 0; RateLimit.Redundant; RateLimit.Step 0; RateLimit.Step 1;
     RateLimit.Step 0; RateLimit.Step 1] = Some s ∧
  RateLimit.available s = 2%nat ∧ RateLimit.Panicked ∉ RateLimit.tasks s.
Proof. eexists. split; [vm_compute; reflexivity|]. split; [done|]. set_solver. Qed.

(** ** FlatMapOk *)

Module FlatMapOk.
Section flat_map_ok.
Context {I T : Type} (f : I → list T).

Record t := mk { iter : list (Result I); frontiter : option (Result (list T)) }.

(** [flat_map_ok] *)
Definition new (it : list (Result I)) : t := mk it None.

(** The loop of [next]: every turn takes an item of the outer iterator. *)
Fixpoint next_loop (iter : list (Result I)) (frontiter : option (Result (list T))) : option (Result T) * t :=
  match frontiter with
  | Some (Ok (elt :: inner)) => (Some (Ok elt), mk iter (Some (Ok inner)))
  | Some (Err e) => (Some (Err e), mk iter None)
  | Some (Ok []) | None =>
      match iter with
      | [] => (None, mk [] None)
      | Ok inner :: iter => next_loop iter (Some (Ok (f inner)))
      | Err e :: iter => next_loop iter (Some (Err e))
      end
  end.
Definition next (s : t) : option (Result T) * t := next_loop (iter s) (frontiter s).

Definition size_hint (s : t) : nat * option nat :=
  match frontiter s with
  | Some (Ok inner) => (length inner, Some (length inner))
  | Some (Err _) => (1, Some 1)%nat
  | None => (0, None)%nat
  end.

(** [collect()] into a [Result<Vec<_>>], which stops at the first error; [None]: out of fuel. *)
Fixpoint collect (fuel : nat) (s : t) : option (Result (list T)) :=
  match fuel with
  | O => None
  | S fuel =>
      match next s with
      | (None, _) => Some (Ok [])
      | (Some (Err e), _) => Some (Err e)
      | (Some (Ok x), s) => (λ r, rest ← r; Ok (x :: rest)) <$> collect fuel s
      end
  end.

(** The items that are still to come. *)
Definition items (it : list (Result I)) : list (Result T) :=
  flat_map (λ r, match r with Ok i => map Ok (f i) | Err e => [Err e] end) it.
Definition remaining (s : t) : list (Result T) :=
  match frontiter s with Some (Ok inner) => map Ok inner | Some (Err e) => [Err e] | None => [] end ++ items (iter s).

(** [next] yields the items in order, and [None] exactly when none is left. *)
Lemma next_spec s : match remaining s with
  | [] => (next s).1 = None ∧ remaining (next s).2 = []
  | x :: rest => (next s).1 = Some x ∧ remaining (next s).2 = rest
  end.
Proof.
  destruct s as [it front]. unfold next. cbn [iter frontiter]. revert front.
  induction it as [|[i|e] it IH]; intros [[[|x inner]|e']|]; cbn; try done.
  - specialize (IH (Some (Ok (f i)))). done.
  - specialize (IH (Some (Ok (f i)))). done.
  - by destruct it.
  - by destruct it.
Qed.

Lemma collect_spec fuel : ∀ s, (length (remaining s) < fuel)%nat → collect fuel s = Some (mapM id (remaining s)).
Proof.
  induction fuel as [|fuel IH]; intros s Hf; [lia|]. cbn. pose proof (next_spec s) as Hn. destruct (next s) as [o s'].
  destruct (remaining s) as [|x rest]; cbn in Hn; destruct Hn as [-> Hr]; [done|]. destruct x as [x|e]; [|done].
  rewrite IH by (rewrite Hr; cbn in Hf; lia). rewrite Hr. cbn. by destruct (mapM id rest).
Qed.

Lemma mapM_items it : mapM id (items it) = flat_map_ok f it.
Proof.
  induction it as [|[i|e] it IH]; [done| |done]. rewrite flat_map_ok_cons, <-IH.
  change (items (Ok i :: it)) with (map Ok (f i) ++ items it). generalize (items it). intros rest. clear.
  induction (f i) as [|x l IHl]; cbn; [by destruct (mapM id rest)|]. rewrite IHl. by destruct (mapM id rest).
Qed.

End flat_map_ok.
End FlatMapOk.

(** C40: Collecting the iterator [FlatMapOk] by calling [next] until it ends takes one call more than there are items
    and gives what merging responses is modelled with: all items in order, or the first error. *)
Theorem flat_map_ok_equivalent {I T} (f : I → list T) (it : list (Result I)) fuel :
  (length (FlatMapOk.items f it) < fuel)%nat → FlatMapOk.collect f fuel (FlatMapOk.new it) = Some (flat_map_ok f it).
Proof. intros Hf. rewrite FlatMapOk.collect_spec by done. f_equal. apply FlatMapOk.mapM_items. Qed.

Lemma flat_map_ok_equivalent_witness :
  FlatMapOk.collect (λ n, repeat n n) 4 (FlatMapOk.new [Ok 1%nat; Ok 0%nat; Ok 2%nat]) = Some (Ok [1; 2; 2]%nat) ∧
  FlatMapOk.collect (λ n, repeat n n) 6 (FlatMapOk.new [Ok 1%nat; Ok 0%nat; Ok 2%nat]) =
    Some (flat_map_ok (λ n, repeat n n) [Ok 1%nat; Ok 0%nat; Ok 2%nat]).
Proof. split; [reflexivity|]. apply (flat_map_ok_equivalent (λ n, repeat n n)). cbn. lia. Defined.

(** The upper bound of [size_hint] covers the current inner iterator only: fewer items are announced than follow. *)
Lemma size_hint_too_small : let s := (FlatMapOk.next (λ n, repeat n n) (FlatMapOk.new [Ok 1%nat; Ok 2%nat])).2 in
  (FlatMapOk.size_hint s).2 = Some 0%nat ∧ FlatMapOk.remaining (λ n, repeat n n) s = [Ok 2%nat; Ok 2%nat].
Proof. by split. Qed.

(** ** Request sources and resource control *)

Definition build_request_source (is_internal : bool) (request_source_type explicit_request_source_type : string) : string :=
  if String.eqb request_source_type "" && String.eqb explicit_request_source_type "" then "unknown"
  else
    let prefix := if is_internal then "internal" else "external" in
    let request_source_type := if String.eqb request_source_type "" then "unknown" else request_source_type in
    if String.eqb explicit_request_source_type "" then (prefix +:+ "_" +:+ request_source_type)%string
    else (prefix +:+ "_" +:+ request_source_type +:+ "_" +:+ explicit_request_source_type)%string.

Record RequestSource := mkRequestSource {
  request_source_internal : bool;
  request_source_type : string;
  explicit_request_source_type : string
}.
Definition RequestSource_get_request_source (rs : RequestSource) : string :=
  build_request_source (request_source_internal rs) (request_source_type rs) (explicit_request_source_type rs).
Definition get_request_source (rs : option RequestSource) : string :=
  from_option RequestSource_get_request_source "unknown" rs.

(** [str::contains] *)
Fixpoint contains (pat s : string) : bool :=
  String.prefix pat s || match s with EmptyString => false | String _ s => contains pat s end.

Definition INTERNAL_OTHERS_REQUEST_SOURCE : string := "internal_others".
Definition should_bypass (request_source : string) : bool := contains INTERNAL_OTHERS_REQUEST_SOURCE request_source.

Record RequestInfo := mkRequestInfo { write_bytes : Z; store_id : Z; bypass : bool }.
Definition is_write (i : RequestInfo) : bool := -1 <? write_bytes i.
Definition RequestInfo_write_bytes (i : RequestInfo) : Z := if 0 <? write_bytes i then write_bytes i else 0.

(** The requests that [make_request_info] tells apart; sizes are sums of lengths of buffers in memory. *)
Inductive AnyRequest :=
| AnyPrewrite (req : PrewriteRequest.t)
| AnyCommit (req : CommitRequest.t)
| AnyOther.
Definition len (l : list Z) : Z := Z.of_nat (length l).
Definition request_write_bytes (req : AnyRequest) : Z :=
  match req with
  | AnyPrewrite req =>
      let bytes := foldl (λ bytes m, bytes + (len (PbMutation.key m) + len (PbMutation.value m))) 0 (PrewriteRequest.mutations req) in
      let bytes := bytes + len (PrewriteRequest.primary_lock req) in
      foldl (λ bytes secondary, bytes + len secondary) bytes (PrewriteRequest.secondaries req)
  | AnyCommit req => foldl (λ bytes k, bytes + len k) 0 (CommitRequest.keys req)
  | AnyOther => -1
  end.
Definition make_request_info {Consumption} (ctx : KvContext.t Consumption) (req : AnyRequest) : RequestInfo :=
  mkRequestInfo (request_write_bytes req) (from_option Peer.store_id 0 (KvContext.peer ctx)) (should_bypass (KvContext.request_source ctx)).

Lemma prefix_app pat s : String.prefix pat s = true ↔ ∃ rest, s = (pat +:+ rest)%string.
Proof.
  revert s. induction pat as [|c pat IH]; intros s; [split; [by exists s | by destruct s]|].
  destruct s as [|c' s]; [split; [done | by intros [? ?]]|]. cbn [String.prefix].
  destruct (Ascii.ascii_dec c c') as [<-|Hne]; [rewrite IH|]; split; try done.
  - intros [rest ->]. by exists rest.
  - intros [rest H]. injection H as Hr. by exists rest.
  - intros [rest H]. by injection H as Hc _.
Qed.

Lemma contains_app pat s : contains pat s = true ↔ ∃ before after, s = (before +:+ pat +:+ after)%string.
Proof.
  induction s as [|c s IH]; cbn [contains]; rewrite orb_true_iff, prefix_app.
  - split; [intros [[rest Hr]|]; [by exists "", rest | done]|]. intros ([] & after & H); [left; by exists after | done].
  - rewrite IH. split.
    + intros [[rest ->]|(before & after & ->)]; [by exists "", rest|]. by exists (String c before), after.
    + intros ([|c' before] & after & H); [left; by exists after|]. injection H as _ H. right. by exists before, after.
Qed.

(** Resource control bypasses exactly the requests whose source contains "internal_others"; every internal source of
    type "others" built by this client is one of them.  Prewrite and commit requests count as writes, of as many
    bytes as their keys, values, primary and secondaries have; every other request counts as a read of no written
    bytes. *)
Theorem request_info_correct {Consumption} (ctx : KvContext.t Consumption) req :
  let info := make_request_info ctx req in
  (bypass info = true ↔ ∃ before after, KvContext.request_source ctx = (before +:+ "internal_others" +:+ after)%string) ∧
  (∀ explicit, KvContext.request_source ctx = build_request_source true "others" explicit → bypass info = true) ∧
  match req with
  | AnyPrewrite r => is_write info = true ∧
      RequestInfo_write_bytes info =
        Z.of_nat (sum_list_with (λ m, length (PbMutation.key m) + length (PbMutation.value m))%nat (PrewriteRequest.mutations r) +
                  length (PrewriteRequest.primary_lock r) + sum_list_with length (PrewriteRequest.secondaries r))
  | AnyCommit r => is_write info = true ∧ RequestInfo_write_bytes info = Z.of_nat (sum_list_with length (CommitRequest.keys r))
  | AnyOther => is_write info = false ∧ RequestInfo_write_bytes info = 0
  end.
Proof.
  assert (∀ l acc, foldl (λ bytes k, bytes + len k) acc l = acc + Z.of_nat (sum_list_with length l)) as Hsum.
  { induction l as [|k l IH]; intros acc; cbn; [lia|]. rewrite IH. unfold len. lia. }
  assert (∀ l acc, foldl (λ bytes m, bytes + (len (PbMutation.key m) + len (PbMutation.value m))) acc l =
    acc + Z.of_nat (sum_list_with (λ m, length (PbMutation.key m) + length (PbMutation.value m))%nat l)) as Hmut.
  { induction l as [|k l IH]; intros acc; cbn; [lia|]. rewrite IH. unfold len. lia. }
  cbn. unfold should_bypass. rewrite contains_app. split; [done|]. split.
  - intros explicit ->. apply contains_app. exists "". destruct explicit as [|c explicit]; [by exists ""|]. by exists ("_" +:+ String c explicit)%string.
  - unfold is_write, RequestInfo_write_bytes. destruct req as [r|r|]; cbn; [| |done]; rewrite ?Hsum, ?Hmut; unfold len.
    + split; [apply Z.ltb_lt; lia|]. case_match; lia.
    + split; [apply Z.ltb_lt; lia|]. case_match; lia.
Qed.

(** A source that is not internal bypasses resource control when one of its types contains the text. *)
Lemma external_source_bypasses : should_bypass (build_request_source false "x_internal_others" "") = true.
Proof. reflexivity. Qed.
