(* ===== verification/TimeDetails.v ===== *)
(** * Time details (src/src/util/time_detail.rs)

    The display of the time details that a store reports.  Durations are shown in the largest unit that fits, rounded through
    64-bit floats, which are the Standard Library's [spec_float] at the precision of binary64.  The theorems: which fields are
    shown and how they are joined, for all values, and how close a shown duration is to the exact one, checked for
    every duration of a range. *)

From Stdlib Require Import Strings.Ascii Floats.SpecFloat.
From stdpp Require Import pretty.
From S2P Require Import Prelude.
#[local] Open Scope string_scope.
#[local] Open Scope Z_scope.

(** ** [f64] *)

Definition f64 : Type := spec_float.
(** [as f64] of an unsigned integer *)
Definition f64_of_Z (z : Z) : f64 := binary_normalize 53 1024 z 0 false.
Definition f64_div : f64 → f64 → f64 := SFdiv 53 1024.
Definition f64_mul : f64 → f64 → f64 := SFmul 53 1024.
Definition f64_ltb : f64 → f64 → bool := SFltb.

(** The integer closest to [m * 2 ^ e], and away from zero between two. *)
Definition round_half_up (m e : Z) : Z :=
  if 0 <=? e then m * 2 ^ e else (2 * m + 2 ^ (- e)) / (2 * 2 ^ (- e)).

(** [f64::round], of numbers that are not negative *)
Definition f64_round (x : f64) : f64 :=
  match x with S754_finite false m e => f64_of_Z (round_half_up (Zpos m) e) | x => x end.

(** [format!("{x:.digits$}")], of numbers that are not negative: the decimal closest to the number.  The numbers
    printed here are the floats next to such a decimal, so that no two of these are equally close. *)
Definition scaled (digits : nat) (x : f64) : Z :=
  match x with S754_finite false m e => round_half_up (Zpos m * 10 ^ Z.of_nat digits) e | _ => 0 end.
Fixpoint pad (width : nat) (s : string) : string :=
  match width with O => s | S width => if (String.length s <=? width)%nat then "0" ++ pad width s else s end.
Definition show_fixed (digits : nat) (k : Z) : string :=
  pretty (Z.to_N (k / 10 ^ Z.of_nat digits)) ++ "." ++ pad digits (pretty (Z.to_N (k mod 10 ^ Z.of_nat digits))).
Definition format_fixed (digits : nat) (x : f64) : string := show_fixed digits (scaled digits x).

(** ** [format_duration] *)

(** [while s.ends_with('0') { s.pop(); }], on the reversed characters *)
Fixpoint trim_zeros (l : list Ascii.ascii) : list Ascii.ascii :=
  match l with c :: l' => if Ascii.eqb c "0"%char then trim_zeros l' else l | [] => [] end.
Definition trim_point (l : list Ascii.ascii) : list Ascii.ascii :=
  match l with c :: l' => if Ascii.eqb c "."%char then l' else l | [] => [] end.
Definition trim (s : string) : string :=
  String.string_of_list_ascii (rev (trim_point (trim_zeros (rev (String.list_ascii_of_string s))))).

Definition unit_of (nanos : Z) : Z * string :=
  if 1000000000 <=? nanos then (1000000000, "s")
  else if 1000000 <=? nanos then (1000000, "ms")
  else if 1000 <=? nanos then (1000, "µs") else (1, "ns").

Definition format_duration (nanos : Z) : string :=
  if nanos =? 0 then "0s"
  else
    let '(unit_nanos, suffix) := unit_of nanos in
    let raw := f64_div (f64_of_Z nanos) (f64_of_Z unit_nanos) in
    let s :=
      if f64_ltb raw (f64_of_Z 10)
      then format_fixed 2 (f64_div (f64_round (f64_mul raw (f64_of_Z 100))) (f64_of_Z 100))
      else format_fixed 1 (f64_div (f64_round (f64_mul raw (f64_of_Z 10))) (f64_of_Z 10)) in
    trim s ++ suffix.

(** ** The displays *)

Definition push (buf key : string) (nanos : Z) : string :=
  if nanos =? 0 then buf
  else (if String.eqb buf "" then buf else buf ++ ", ") ++ key ++ ": " ++ format_duration nanos.

(** [kvrpcpb::TimeDetail] and [kvrpcpb::TimeDetailV2] *)
Module TimeDetail.
Record t := mk { wait_wall_time_ms : Z; process_wall_time_ms : Z; kv_read_wall_time_ms : Z; total_rpc_wall_time_ns : Z }.
End TimeDetail.
Module TimeDetailV2.
Record t := mk {
  wait_wall_time_ns : Z; process_wall_time_ns : Z; process_suspend_wall_time_ns : Z; kv_read_wall_time_ns : Z;
  total_rpc_wall_time_ns : Z; kv_grpc_process_time_ns : Z; kv_grpc_wait_time_ns : Z
}.
End TimeDetailV2.

Definition from_millis (ms : Z) : Z := ms * 1000000.

Definition wrapped (buf : string) : string := if String.eqb buf "" then "" else "time_detail: {" ++ buf ++ "}".

Definition display (d : TimeDetail.t) : string :=
  let buf := push "" "total_process_time" (from_millis (TimeDetail.process_wall_time_ms d)) in
  let buf := push buf "total_wait_time" (from_millis (TimeDetail.wait_wall_time_ms d)) in
  let buf := push buf "total_kv_read_wall_time" (from_millis (TimeDetail.kv_read_wall_time_ms d)) in
  let buf := push buf "tikv_wall_time" (TimeDetail.total_rpc_wall_time_ns d) in
  wrapped buf.
Definition display_v2 (d : TimeDetailV2.t) : string :=
  let buf := push "" "total_process_time" (TimeDetailV2.process_wall_time_ns d) in
  let buf := push buf "total_suspend_time" (TimeDetailV2.process_suspend_wall_time_ns d) in
  let buf := push buf "total_wait_time" (TimeDetailV2.wait_wall_time_ns d) in
  let buf := push buf "total_kv_read_wall_time" (TimeDetailV2.kv_read_wall_time_ns d) in
  let buf := push buf "tikv_grpc_process_time" (TimeDetailV2.kv_grpc_process_time_ns d) in
  let buf := push buf "tikv_grpc_wait_time" (TimeDetailV2.kv_grpc_wait_time_ns d) in
  let buf := push buf "tikv_wall_time" (TimeDetailV2.total_rpc_wall_time_ns d) in
  wrapped buf.

(** ** What is displayed *)

(** The fields that are not zero, in order. *)
Definition entries (fields : list (string * Z)) : list string :=
  map (λ f, f.1 ++ ": " ++ format_duration f.2) (List.filter (λ f, negb (f.2 =? 0)) fields).

Lemma string_app_assoc (a b c : string) : (a ++ b) ++ c = a ++ (b ++ c).
Proof. induction a as [|x a IH]; [done|]. exact (f_equal (String.String x) IH). Qed.

Lemma concat_snoc (l : list string) (x : string) :
  String.concat ", " (l ++ [x])%list = (match l with [] => "" | _ => String.concat ", " l ++ ", " end) ++ x.
Proof.
  induction l as [|y l IH]; [done|]. destruct l as [|z l]; [cbn [String.concat app]; by rewrite string_app_assoc|].
  change ((y :: z :: l) ++ [x])%list with (y :: ((z :: l) ++ [x]))%list. cbn [String.concat]. destruct ((z :: l) ++ [x])%list eqn:E; [done|].
  rewrite IH. cbn [String.concat]. by rewrite !string_app_assoc.
Qed.

(** A buffer of entries is empty only without entries. *)
Lemma entry_not_empty (key : string) (n : Z) : key ++ ": " ++ format_duration n ≠ "".
Proof. by destruct key. Qed.

Lemma concat_empty fields : String.eqb (String.concat ", " (entries fields)) "" = match entries fields with [] => true | _ => false end.
Proof.
  destruct (entries fields) as [|x l] eqn:E; [done|]. apply String.eqb_neq.
  assert (x ≠ "") as Hx.
  { assert (x ∈ entries fields) as Hin by (rewrite E; by apply elem_of_cons; left).
    unfold entries in Hin. apply list_elem_of_In, in_map_iff in Hin as (f & <- & _). apply entry_not_empty. }
  destruct x; [done|]. by destruct l.
Qed.

Lemma entries_snoc fields key n :
  entries (fields ++ [(key, n)])%list = (entries fields ++ if n =? 0 then [] else [(key ++ ": " ++ format_duration n)%string])%list.
Proof. unfold entries. rewrite List.filter_app, map_app. cbn [List.filter snd fst]. by destruct (n =? 0). Qed.

Lemma push_entries fields key n : push (String.concat ", " (entries fields)) key n = String.concat ", " (entries (fields ++ [(key, n)]))%list.
Proof.
  rewrite entries_snoc. unfold push. destruct (n =? 0); [by rewrite app_nil_r|]. rewrite concat_snoc, concat_empty.
  by destruct (entries fields).
Qed.

Lemma push_first key n : push "" key n = String.concat ", " (entries [(key, n)]).
Proof. exact (push_entries [] key n). Qed.

Lemma wrapped_entries fields : wrapped (String.concat ", " (entries fields)) =
  match entries fields with [] => "" | l => "time_detail: {" ++ String.concat ", " l ++ "}" end.
Proof. unfold wrapped. rewrite concat_empty. by destruct (entries fields). Qed.

(** What is displayed of a detail: its fields that are not zero, in a fixed order, separated by commas; and nothing at all
    when every field is zero. *)
Theorem displays_correct (d : TimeDetail.t) (d2 : TimeDetailV2.t) (show := λ fields,
    match entries fields with [] => "" | l => "time_detail: {" ++ String.concat ", " l ++ "}" end) :
  display d = show [("total_process_time", from_millis (TimeDetail.process_wall_time_ms d));
    ("total_wait_time", from_millis (TimeDetail.wait_wall_time_ms d));
    ("total_kv_read_wall_time", from_millis (TimeDetail.kv_read_wall_time_ms d));
    ("tikv_wall_time", TimeDetail.total_rpc_wall_time_ns d)] ∧
  display_v2 d2 = show [("total_process_time", TimeDetailV2.process_wall_time_ns d2);
    ("total_suspend_time", TimeDetailV2.process_suspend_wall_time_ns d2); ("total_wait_time", TimeDetailV2.wait_wall_time_ns d2);
    ("total_kv_read_wall_time", TimeDetailV2.kv_read_wall_time_ns d2); ("tikv_grpc_process_time", TimeDetailV2.kv_grpc_process_time_ns d2);
    ("tikv_grpc_wait_time", TimeDetailV2.kv_grpc_wait_time_ns d2); ("tikv_wall_time", TimeDetailV2.total_rpc_wall_time_ns d2)].
Proof.
  unfold show, display, display_v2. rewrite !push_first, !push_entries. by split; rewrite wrapped_entries.
Qed.

(** ** Durations that are shown exactly *)

Lemma list_ascii_app (a b : string) :
  String.list_ascii_of_string (a ++ b) = (String.list_ascii_of_string a ++ String.list_ascii_of_string b)%list.
Proof. induction a as [|x a IH]; [done|]. exact (f_equal (cons x) IH). Qed.

(** Trimming takes no digit of a whole number. *)
Lemma trim_whole (s : string) : trim (s ++ ".0") = s ∧ trim (s ++ ".00") = s.
Proof. unfold trim. rewrite !list_ascii_app, !rev_app_distr. split; cbn; by rewrite rev_involutive, String.string_of_list_ascii_of_string. Qed.

Lemma show_whole n : show_fixed 1 (n * 10) = pretty (Z.to_N n) ++ ".0" ∧ show_fixed 2 (n * 100) = pretty (Z.to_N n) ++ ".00".
Proof.
  unfold show_fixed. change (10 ^ Z.of_nat 1) with 10. change (10 ^ Z.of_nat 2) with 100.
  by rewrite !Z.div_mul, !Z.mod_mul.
Qed.

(** The floats hit the decimal: for a duration of [n] hundredths of a microsecond (or tenths, from ten on). *)
Definition hundredths (nanos unit_nanos : Z) : Z :=
  scaled 2 (f64_div (f64_round (f64_mul (f64_div (f64_of_Z nanos) (f64_of_Z unit_nanos)) (f64_of_Z 100))) (f64_of_Z 100)).
Definition tenths (nanos unit_nanos : Z) : Z :=
  scaled 1 (f64_div (f64_round (f64_mul (f64_div (f64_of_Z nanos) (f64_of_Z unit_nanos)) (f64_of_Z 10))) (f64_of_Z 10)).
Definition below_ten (nanos unit_nanos : Z) : bool := f64_ltb (f64_div (f64_of_Z nanos) (f64_of_Z unit_nanos)) (f64_of_Z 10).

Lemma format_duration_eq nanos unit_nanos suffix : nanos ≠ 0 → unit_of nanos = (unit_nanos, suffix) →
  format_duration nanos = trim (if below_ten nanos unit_nanos then show_fixed 2 (hundredths nanos unit_nanos)
                                else show_fixed 1 (tenths nanos unit_nanos)) ++ suffix.
Proof. intros Hn%Z.eqb_neq Hu. unfold format_duration. by rewrite Hn, Hu. Qed.

Definition ns_hit (n : Z) : bool := if below_ten n 1 then hundredths n 1 =? n * 100 else tenths n 1 =? n * 10.
Definition us_hit (k : Z) : bool := below_ten (k * 100) 1000 && (hundredths (k * 100) 1000 =? k * 10).

Lemma forallb_range (f : Z → bool) a n : forallb f (map (λ i, a + Z.of_nat i) (seq 0 n)) = true →
  ∀ z, a <= z < a + Z.of_nat n → f z = true.
Proof.
  intros Hf z Hz. rewrite forallb_forall in Hf. apply Hf. apply in_map_iff. exists (Z.to_nat (z - a)). split; [lia|]. apply in_seq. lia.
Qed.

(** Durations that the floats do not bend: below a hundred nanoseconds a duration is shown as the number it is, and
    between one and ten microseconds a duration with one decimal is shown with that decimal. *)
Theorem format_duration_exact n :
  (0 < n < 100 → format_duration n = pretty (Z.to_N n) ++ "ns") ∧
  (10 <= n < 100 → format_duration (n * 100) = trim (show_fixed 2 (n * 10)) ++ "µs").
Proof.
  split; intros Hn.
  - assert (ns_hit n = true) as Hh by (apply (forallb_range ns_hit 1 99); [vm_compute; reflexivity | lia]).
    rewrite (format_duration_eq n 1 "ns"); [|lia|unfold unit_of; repeat (rewrite (proj2 (Z.leb_gt _ _)) by lia); done].
    unfold ns_hit in Hh. destruct (below_ten n 1); apply Z.eqb_eq in Hh as ->; [rewrite (proj2 (show_whole n)) | rewrite (proj1 (show_whole n))].
    + by rewrite (proj2 (trim_whole _)).
    + by rewrite (proj1 (trim_whole _)).
  - assert (us_hit n = true) as Hh by (apply (forallb_range us_hit 10 90); [vm_compute; reflexivity | lia]).
    apply andb_true_iff in Hh as [Hb Hh%Z.eqb_eq].
    rewrite (format_duration_eq (n * 100) 1000 "µs"); [by rewrite Hb, Hh | lia|].
    unfold unit_of. rewrite (proj2 (Z.leb_gt 1000000000 _)), (proj2 (Z.leb_gt 1000000 _)), (proj2 (Z.leb_le 1000 _)) by lia. done.
Qed.

(** A half is not always rounded up: 1.005 is a little less than that as a float; and a value that rounds up to the next unit
    keeps its own. *)
Example format_duration_samples :
  format_duration 0 = "0s" ∧ format_duration 1005 = "1µs" ∧ format_duration 999999999 = "1000ms" ∧ format_duration 61500000000 = "61.5s".
Proof. by vm_compute. Qed.
