(* ===== verification/Settings.v ===== *)
(** * Configuration, security settings and trace controls

    - [parse_path] and [Config] (src/src/config.rs): the [tikv://] path with its PD endpoints and options.  Text is a
      list of Unicode scalar values; white space is Unicode's [White_Space].
    - [SecurityManager] (src/src/common/security.rs): which endpoint a connection uses.  The file system and
      the gRPC library are parameters.
    - trace flags and client-side trace events (src/src/trace.rs). *)

From S2P Require Import Prelude Keys Proto Errors PdCluster.

Abbreviation text := (list Z).
(** The text of an ASCII literal. *)
Definition lit (s : string) : text := map (λ c, Z.of_N (Ascii.N_of_ascii c)) (String.list_ascii_of_string s).

(** ** Text functions of the standard library *)

(** [char::is_whitespace] *)
Definition is_whitespace (c : Z) : bool :=
  ((9 <=? c) && (c <=? 13)) || (c =? 32) || (c =? 133) || (c =? 160) || (c =? 5760) || ((8192 <=? c) && (c <=? 8202)) ||
  (c =? 8232) || (c =? 8233) || (c =? 8239) || (c =? 8287) || (c =? 12288).

Fixpoint trim_start (s : text) : text :=
  match s with [] => [] | c :: s' => if is_whitespace c then trim_start s' else s end.
Definition trim (s : text) : text := rev (trim_start (rev (trim_start s))).

Fixpoint strip_prefix (p s : text) : option text :=
  match p, s with
  | [], _ => Some s
  | a :: p, b :: s => if a =? b then strip_prefix p s else None
  | _ :: _, [] => None
  end.
(** [split_once(sep)] *)
Fixpoint split_at (sep : Z) (s : text) : option (text * text) :=
  match s with
  | [] => None
  | c :: s => if c =? sep then Some ([], s) else '(x, y) ← split_at sep s; Some (c :: x, y)
  end.
(** [split(sep)]: at least one piece. *)
Fixpoint split (sep : Z) (s : text) : list text :=
  match s with
  | [] => [[]]
  | c :: s =>
      if c =? sep then [] :: split sep s
      else match split sep s with x :: l => (c :: x) :: l | [] => [[c]] end
  end.

(** ** Paths *)

Record ParsedPath := mkParsedPath { pd_endpoints : list text; disable_gc : bool; keyspace_name : option text }.
Inductive PathError :=
| ExpectedTikv (path : text)
| NoPdEndpoints
| DisableGcExpectsBool (other : text).

(** One [key=value] of the query. *)
Definition parse_param (acc : bool * option text) (kv : text) : (bool * option text) + PathError :=
  let '(disable_gc, keyspace_name) := acc in
  let kv := trim kv in
  if is_empty kv then inl acc
  else
    let '(key, value) := default (kv, []) (split_at 61 kv) in
    if bool_decide (trim key = lit "disableGC") then
      let value := trim value in
      if bool_decide (value = lit "true") then inl (true, keyspace_name)
      else if bool_decide (value = lit "false") then inl (false, keyspace_name)
      else inr (DisableGcExpectsBool value)
    else if bool_decide (trim key = lit "keyspaceName") then
      let value := trim value in
      if is_empty value then inl acc else inl (disable_gc, Some value)
    else inl acc.
Fixpoint parse_params (acc : bool * option text) (kvs : list text) : (bool * option text) + PathError :=
  match kvs with
  | [] => inl acc
  | kv :: kvs => match parse_param acc kv with inl acc => parse_params acc kvs | inr e => inr e end
  end.

Definition parse_path (path : text) : ParsedPath + PathError :=
  let path := trim path in
  match strip_prefix (lit "tikv://") path with
  | None => inr (ExpectedTikv path)
  | Some rest =>
      let '(endpoints_part, query_part) := default (rest, []) (split_at 63 rest) in
      let pd_endpoints := List.filter (λ s, negb (is_empty s)) (map trim (split 44 endpoints_part)) in
      if is_empty pd_endpoints then inr NoPdEndpoints
      else
        match (if is_empty query_part then inl (false, None) else parse_params (false, None) (split 38 query_part)) with
        | inl (disable_gc, keyspace_name) => inl (mkParsedPath pd_endpoints disable_gc keyspace_name)
        | inr e => inr e
        end
  end.

(** ** Config *)

Module Config.
(** Durations in milliseconds. *)
Record t := mk {
  ca_path : option text; cert_path : option text; key_path : option text; timeout : Z; keyspace : option text;
  pd_retry : PdRetryConfig; region_cache_ttl : Z; region_cache_ttl_jitter : Z
}.
Definition default : t := mk None None None 2000 None PdRetryConfig_default 600000 60000.
Definition with_security (ca cert key : text) (c : t) : t :=
  mk (Some ca) (Some cert) (Some key) (timeout c) (keyspace c) (pd_retry c) (region_cache_ttl c) (region_cache_ttl_jitter c).
Definition with_timeout (timeout : Z) (c : t) : t :=
  mk (ca_path c) (cert_path c) (key_path c) timeout (keyspace c) (pd_retry c) (region_cache_ttl c) (region_cache_ttl_jitter c).
Definition with_keyspace (keyspace : text) (c : t) : t :=
  mk (ca_path c) (cert_path c) (key_path c) (timeout c) (Some keyspace) (pd_retry c) (region_cache_ttl c) (region_cache_ttl_jitter c).
Definition with_default_keyspace (c : t) : t := with_keyspace (lit "DEFAULT") c.
Definition with_pd_retry_config (pd_retry : PdRetryConfig) (c : t) : t :=
  mk (ca_path c) (cert_path c) (key_path c) (timeout c) (keyspace c) pd_retry (region_cache_ttl c) (region_cache_ttl_jitter c).
Definition with_region_cache_ttl (base jitter : Z) (c : t) : t :=
  mk (ca_path c) (cert_path c) (key_path c) (timeout c) (keyspace c) (pd_retry c) base jitter.
End Config.

(** ** Parsing a path *)

(** Text that begins and ends with something else than white space. *)
Definition starts_solid (s : text) : Prop := match s with [] => True | c :: _ => is_whitespace c = false end.
Definition solid (s : text) : Prop := starts_solid s ∧ starts_solid (rev s).
Definition blank (s : text) : Prop := Forall (λ c, is_whitespace c = true) s.
Definition without (c : Z) (s : text) : Prop := c ∉ s.

Lemma trim_start_blank w s : blank w → starts_solid s → trim_start (w ++ s) = s.
Proof.
  intros Hw Hs. induction Hw as [|c w Hc _ IH]; cbn; [|by rewrite Hc]. destruct s as [|c s]; [done|]. cbn in *. by rewrite Hs.
Qed.

Lemma trim_blank w1 s w2 : blank w1 → solid s → blank w2 → trim (w1 ++ s ++ w2) = s.
Proof.
  intros H1 [Hs Hr] H2. unfold trim. destruct s as [|c s].
  - assert (trim_start (w1 ++ [] ++ w2) = []) as ->; [|done]. rewrite <-(app_nil_r ([] ++ w2)), app_assoc.
    apply trim_start_blank; [|done]. by apply Forall_app.
  - rewrite trim_start_blank by done. rewrite rev_app_distr.
    rewrite trim_start_blank; [apply rev_involutive | | done]. by apply Forall_rev.
Qed.

Lemma trim_solid s : solid s → trim s = s.
Proof. intros Hs. rewrite <-(app_nil_r s) at 1. by apply (trim_blank [] s []); [constructor | | constructor]. Qed.

Lemma split_at_app sep x y : without sep x → split_at sep (x ++ sep :: y) = Some (x, y).
Proof.
  induction x as [|c x IH]; cbn; [by rewrite Z.eqb_refl|]. intros [Hc Hx]%not_elem_of_cons.
  rewrite IH by done. by destruct (Z.eqb_spec c sep).
Qed.
Lemma split_at_none sep x : without sep x → split_at sep x = None.
Proof.
  induction x as [|c x IH]; cbn; [done|]. intros [Hc Hx]%not_elem_of_cons. rewrite IH by done. by destruct (Z.eqb_spec c sep).
Qed.

(** The pieces with the separator between them. *)
Fixpoint join (sep : Z) (l : list text) : text :=
  match l with [] => [] | [x] => x | x :: l => x ++ sep :: join sep l end.

Lemma split_app sep x s : without sep x → split sep (x ++ sep :: s) = x :: split sep s.
Proof.
  induction x as [|c x IH]; cbn; [by rewrite Z.eqb_refl|]. intros [Hc Hx]%not_elem_of_cons.
  destruct (Z.eqb_spec c sep); [done|]. by rewrite IH.
Qed.
Lemma split_one sep x : without sep x → split sep x = [x].
Proof.
  induction x as [|c x IH]; cbn; [done|]. intros [Hc Hx]%not_elem_of_cons. destruct (Z.eqb_spec c sep); [done|]. by rewrite IH.
Qed.
Lemma split_join sep l : l ≠ [] → Forall (without sep) l → split sep (join sep l) = l.
Proof.
  induction l as [|x [|y l] IH]; intros Hne Hl; [done | by apply split_one, (Forall_inv Hl) |].
  apply Forall_cons in Hl as [Hx Hl]. cbn [join]. rewrite split_app by done. f_equal. by apply IH.
Qed.

Lemma starts_solid_app x c y : starts_solid x → is_whitespace c = false → starts_solid (x ++ c :: y).
Proof. by destruct x. Qed.
Lemma solid_app x c y : solid x → is_whitespace c = false → solid y → solid (x ++ c :: y).
Proof.
  intros [Hx _] Hc [_ Hy]. split; [by apply starts_solid_app|].
  rewrite rev_app_distr. cbn. rewrite <-app_assoc. by apply starts_solid_app.
Qed.
Lemma solid_join sep l : is_whitespace sep = false → Forall solid l → solid (join sep l).
Proof.
  intros Hsep. induction l as [|x [|y l] IH]; intros Hl; [done | by apply (Forall_inv Hl) |].
  apply Forall_cons in Hl as [Hx Hl]. apply solid_app; [done | done |]. by apply IH.
Qed.
Lemma without_join c sep l : c ≠ sep → Forall (without c) l → without c (join sep l).
Proof.
  intros Hc. induction l as [|x [|y l] IH]; intros Hl; [by apply not_elem_of_nil | by apply (Forall_inv Hl) |].
  apply Forall_cons in Hl as [Hx Hl]. unfold without in *. cbn [join]. rewrite elem_of_app, elem_of_cons.
  intros [?|[?|?]]; [done.. | by apply IH].
Qed.
Lemma strip_prefix_app p s : strip_prefix p (p ++ s) = Some s.
Proof. induction p as [|c p IH]; cbn; [by destruct s | by rewrite Z.eqb_refl]. Qed.

(** What the parameters of a query mean, in order. *)
Fixpoint meaning (acc : bool * option text) (params : list (text * text)) : (bool * option text) + PathError :=
  match params with
  | [] => inl acc
  | (k, v) :: params =>
      if bool_decide (k = lit "disableGC") then
        if bool_decide (v = lit "true") then meaning (true, acc.2) params
        else if bool_decide (v = lit "false") then meaning (false, acc.2) params
        else inr (DisableGcExpectsBool v)
      else if bool_decide (k = lit "keyspaceName") && negb (is_empty v) then meaning (acc.1, Some v) params
      else meaning acc params
  end.

Definition param_text (p : text * text) : text := p.1 ++ 61 :: p.2.
Definition dsn (endpoints : list text) (params : list (text * text)) : text :=
  lit "tikv://" ++ join 44 endpoints ++ if is_empty params then [] else 63 :: join 38 (map param_text params).

Definition clean_endpoint (e : text) : Prop := e ≠ [] ∧ solid e ∧ without 44 e ∧ without 63 e.
Definition clean_param (p : text * text) : Prop := solid p.1 ∧ without 61 p.1 ∧ without 38 p.1 ∧ solid p.2 ∧ without 38 p.2.

Lemma parse_param_text acc p params : clean_param p →
  match parse_param acc (param_text p) with inl acc => meaning acc params | inr e => inr e end = meaning acc (p :: params).
Proof.
  intros (Hk & Hk61 & _ & Hv & _). destruct p as [k v], acc as [gc ks]. cbn [fst snd] in *. unfold parse_param, param_text. cbn [fst snd].
  rewrite (trim_solid (k ++ 61 :: v)) by by apply solid_app.
  assert (is_empty (k ++ 61 :: v) = false) as -> by (by destruct k). rewrite split_at_app by done. cbn [from_option Datatypes.id].
  rewrite (trim_solid k), (trim_solid v) by done. cbn [meaning fst snd].
  destruct (bool_decide (k = lit "disableGC")).
  - destruct (bool_decide (v = lit "true")); [done|]. by destruct (bool_decide (v = lit "false")).
  - destruct (bool_decide (k = lit "keyspaceName")); [|done]. by destruct v.
Qed.

Lemma parse_params_text params : ∀ acc, Forall clean_param params → parse_params acc (map param_text params) = meaning acc params.
Proof.
  induction params as [|p params IH]; intros acc Hp; [done|]. apply Forall_cons in Hp as [Hp Hps].
  rewrite <-(parse_param_text acc p params Hp). cbn. destruct (parse_param acc (param_text p)); [by apply IH | done].
Qed.

Lemma clean_param_text p : clean_param p → solid (param_text p) ∧ without 38 (param_text p).
Proof.
  intros (Hk & _ & Hk38 & Hv & Hv38). split; [by apply solid_app|]. unfold without, param_text. rewrite elem_of_app, elem_of_cons. naive_solver.
Qed.

(** The query of a path. *)
Lemma dsn_solid endpoints params : Forall clean_endpoint endpoints → Forall clean_param params → solid (dsn endpoints params).
Proof.
  intros He Hp. assert (solid (join 44 endpoints)) as Hj.
  { apply solid_join; [done|]. eapply Forall_impl; [exact He|]. by intros e (_ & ? & _). }
  apply (solid_app (lit "tikv:/") 47); [by split | done |]. cbn. destruct (is_empty params) eqn:E; [by rewrite app_nil_r|].
  apply solid_app; [done | done |]. apply solid_join; [done|]. apply Forall_fmap. eapply Forall_impl; [exact Hp|].
  intros p Hpp. by apply clean_param_text.
Qed.

Lemma endpoints_of_join endpoints : endpoints ≠ [] → Forall clean_endpoint endpoints →
  List.filter (λ s, negb (is_empty s)) (map trim (split 44 (join 44 endpoints))) = endpoints.
Proof.
  intros Hne He. rewrite split_join; [|done|]; [|eapply Forall_impl; [exact He|]; by intros e (_ & _ & ? & _)].
  clear Hne. induction He as [|e l (Hne & Hs & _) _ IH]; [done|]. cbn. rewrite (trim_solid e Hs). destruct e; [done|]. cbn. by rewrite IH.
Qed.

(** A path of the documented form, surrounded by any white space, is parsed into exactly its PD endpoints in order,
    with the meaning of its parameters: the last [disableGC] and the last non-empty [keyspaceName] win, unknown
    parameters are ignored, and a [disableGC] that is neither true nor false is an error. *)
Theorem parse_path_dsn w1 w2 endpoints params : blank w1 → blank w2 → endpoints ≠ [] → Forall clean_endpoint endpoints →
  Forall clean_param params →
  parse_path (w1 ++ dsn endpoints params ++ w2) =
    match meaning (false, None) params with
    | inl (gc, ks) => inl (mkParsedPath endpoints gc ks)
    | inr e => inr e
    end.
Proof.
  intros H1 H2 Hne He Hp. unfold parse_path. rewrite trim_blank by (done || by apply dsn_solid). unfold dsn.
  rewrite strip_prefix_app. assert (without 63 (join 44 endpoints)) as Hq.
  { apply without_join; [done|]. eapply Forall_impl; [exact He|]. by intros e (_ & _ & _ & ?). }
  assert (is_empty endpoints = false) as Hemp by (by destruct endpoints).
  destruct params as [|p params]; cbn [is_empty].
  - rewrite app_nil_r, split_at_none by done. cbn [from_option Datatypes.id]. by rewrite endpoints_of_join, Hemp by done.
  - rewrite split_at_app by done. cbn [from_option Datatypes.id]. rewrite endpoints_of_join, Hemp by done.
    rewrite split_join; [|done|].
    + rewrite parse_params_text by done. assert (is_empty (join 38 (map param_text (p :: params))) = false) as ->; [|done].
      cbn. unfold param_text. destruct (map _ params); by destruct (p.1).
    + apply Forall_fmap. eapply Forall_impl; [exact Hp|]. intros q Hq'. by apply clean_param_text.
Qed.

Lemma parse_path_dsn_witness :
  dsn [lit "n1:2379"; lit "n2:2379"] [(lit "disableGC", lit "true"); (lit "x", []); (lit "keyspaceName", lit "K")] =
    lit "tikv://n1:2379,n2:2379?disableGC=true&x=&keyspaceName=K" ∧
  parse_path (lit "  tikv://n1:2379,n2:2379?disableGC=true&x=&keyspaceName=K ") =
    inl (mkParsedPath [lit "n1:2379"; lit "n2:2379"] true (Some (lit "K"))) ∧
  parse_path (lit "  " ++ dsn [lit "n1:2379"; lit "n2:2379"] [(lit "disableGC", lit "yes")] ++ []) =
    inr (DisableGcExpectsBool (lit "yes")).
Proof.
  split; [reflexivity|]. split; [reflexivity|].
  apply (parse_path_dsn (lit "  ") [] [lit "n1:2379"; lit "n2:2379"] [(lit "disableGC", lit "yes")]); try discriminate.
  1-2: repeat constructor.
  - repeat constructor; try discriminate; apply (bool_decide_unpack _); vm_compute; exact Logic.I.
  - repeat constructor; apply (bool_decide_unpack _); vm_compute; exact Logic.I.
Defined.

(** ** Security *)

Section security.
Context {Channel : Type}.
(** [load_pem_file tag path] reads a file; [check_pem_file] opens it. *)
Variable load_pem_file : string → text → Result text.
Variable check_pem_file : string → text → Result unit.

Record Tls := mkTls { tls_ca : text; tls_cert : text; tls_key : text }.
Record Endpoint := mkEndpoint { uri : text; ep_keep_alive_timeout : Z; tls_config : option Tls }.
(** [Channel::from_shared] and [Endpoint::connect] of tonic. *)
Variable from_shared : text → Result unit.
Variable endpoint_connect : Endpoint → Result Channel.

(** The timeout in milliseconds. *)
Record SecurityManager := mkSecurityManager { ca : text; cert : text; key : text; keep_alive_timeout : Z }.
Definition DEFAULT_KEEP_ALIVE_TIMEOUT : Z := 3000.
Definition MIN_KEEP_ALIVE_TIMEOUT : Z := 50.
Definition SecurityManager_default : SecurityManager := mkSecurityManager [] [] [] DEFAULT_KEEP_ALIVE_TIMEOUT.

Definition load (ca_path cert_path key_path : text) : Result SecurityManager :=
  _ ← check_pem_file "private key" key_path;
  ca ← load_pem_file "ca" ca_path;
  cert ← load_pem_file "certificate" cert_path;
  Ok (mkSecurityManager ca cert key_path DEFAULT_KEEP_ALIVE_TIMEOUT).

Definition validate (m : SecurityManager) : Result unit :=
  if keep_alive_timeout m <? MIN_KEEP_ALIVE_TIMEOUT
  then Err (StringError "grpc-keepalive-timeout should be at least 50ms")
  else Ok ().

Definition set_grpc_keepalive_timeout (timeout : Z) (m : SecurityManager) : SecurityManager :=
  mkSecurityManager (ca m) (cert m) (key m) timeout.

Definition strip_http_scheme (addr : text) : text :=
  let addr := trim_start addr in
  match strip_prefix (lit "http://") addr with
  | Some stripped => stripped
  | None => match strip_prefix (lit "https://") addr with Some stripped => stripped | None => addr end
  end.

Definition endpoint (m : SecurityManager) (addr : text) : Result Endpoint :=
  _ ← from_shared addr; Ok (mkEndpoint addr (keep_alive_timeout m) None).
Definition tls_channel (m : SecurityManager) (addr : text) : Result Endpoint :=
  builder ← endpoint m (lit "https://" ++ strip_http_scheme addr);
  key ← load_pem_file "private key" (key m);
  Ok (mkEndpoint (uri builder) (ep_keep_alive_timeout builder) (Some (mkTls (ca m) (cert m) key))).
Definition default_channel (m : SecurityManager) (addr : text) : Result Endpoint :=
  endpoint m (lit "http://" ++ strip_http_scheme addr).

Definition connect (m : SecurityManager) (addr : text) : Result Channel :=
  _ ← validate m;
  channel ← (if negb (is_empty (ca m)) then tls_channel m addr else default_channel m addr);
  endpoint_connect channel.

(** An address without a scheme. *)
Definition bare (addr : text) : Prop :=
  starts_solid addr ∧ strip_prefix (lit "http://") addr = None ∧ strip_prefix (lit "https://") addr = None.

Lemma strip_bare w scheme addr : blank w → scheme ∈ [[]; lit "http://"; lit "https://"] → bare addr →
  strip_http_scheme (w ++ scheme ++ addr) = addr.
Proof.
  intros Hw Hs (Ha & H1 & H2). unfold strip_http_scheme. apply elem_of_cons in Hs as [->|[->|[->|[]%elem_of_nil]%elem_of_cons]%elem_of_cons].
  - cbn [app]. rewrite trim_start_blank by done. by rewrite H1, H2.
  - rewrite trim_start_blank by done. by rewrite strip_prefix_app.
  - rewrite trim_start_blank by done. rewrite strip_prefix_app. done.
Qed.

(** A connection is only attempted with a keep-alive timeout of at least 50ms, and the scheme of the address given
    (with white space before it) makes no difference: with a certificate authority the connection goes to
    https with the certificate, the key and the authority that were loaded, without one to http without TLS. *)
Theorem connect_uses_configured_scheme m w scheme addr channel : blank w → scheme ∈ [[]; lit "http://"; lit "https://"] → bare addr →
  connect m (w ++ scheme ++ addr) = Ok channel →
  50 ≤ keep_alive_timeout m ∧ ∃ ep, endpoint_connect ep = Ok channel ∧ ep_keep_alive_timeout ep = keep_alive_timeout m ∧
    if is_empty (ca m) then uri ep = lit "http://" ++ addr ∧ tls_config ep = None
    else uri ep = lit "https://" ++ addr ∧
      ∃ k, load_pem_file "private key" (key m) = Ok k ∧ tls_config ep = Some (mkTls (ca m) (cert m) k).
Proof.
  intros Hw Hs Hb. unfold connect, tls_channel, default_channel, endpoint, validate, MIN_KEEP_ALIVE_TIMEOUT.
  rewrite strip_bare by done. destruct (Z.ltb_spec (keep_alive_timeout m) 50); [done|]. cbn.
  destruct (is_empty (ca m)); cbn; destruct (from_shared _); cbn; try done; [eauto 10|].
  destruct (load_pem_file _ (key m)) as [k|] eqn:Ek; cbn; [|done]. eauto 10.
Qed.

End security.

(** An address with the wrong scheme, with TLS configured; the channel is the endpoint itself. *)
Lemma connect_uses_configured_scheme_witness :
  let m := mkSecurityManager [1] [2] (lit "key") 3000 in
  connect (λ _ _, Ok [3]) (λ _, Ok ()) Ok m (lit " http://pd:2379") =
    Ok (mkEndpoint (lit "https://pd:2379") 3000 (Some (mkTls [1] [2] [3]))) ∧ 50 ≤ keep_alive_timeout m.
Proof.
  split; [reflexivity|].
  apply (connect_uses_configured_scheme (λ _ _, Ok [3]) (λ _, Ok ()) Ok (mkSecurityManager [1] [2] (lit "key") 3000)
    (lit " ") (lit "http://") (lit "pd:2379") (mkEndpoint (lit "https://pd:2379") 3000 (Some (mkTls [1] [2] [3])))).
  - repeat constructor.
  - right. left.
  - split_and!; reflexivity.
  - reflexivity.
Defined.

(** ** Trace controls *)

Record TraceControlFlags := mkFlags { flags : Z }.
Definition has (self flag : TraceControlFlags) : bool := negb (Z.land (flags self) (flags flag) =? 0).
Definition with_flag (self flag : TraceControlFlags) : TraceControlFlags := mkFlags (Z.lor (flags self) (flags flag)).
Definition FLAG_IMMEDIATE_LOG : TraceControlFlags := mkFlags (Z.shiftl 1 0).
Definition FLAG_TIKV_CATEGORY_REQUEST : TraceControlFlags := mkFlags (Z.shiftl 1 1).
Definition FLAG_TIKV_CATEGORY_WRITE_DETAILS : TraceControlFlags := mkFlags (Z.shiftl 1 2).
Definition FLAG_TIKV_CATEGORY_READ_DETAILS : TraceControlFlags := mkFlags (Z.shiftl 1 3).

Inductive TraceValue := VU64 (v : Z) | VI64 (v : Z) | VBool (b : bool) | VStr (s : string).
Record TraceField := mkTraceField { field_key : string; field_value : TraceValue }.
Record TraceEvent := mkTraceEvent { category : Z; name : string; fields : list TraceField }.

(** The global hooks.  A sink is what it emits for an event: (who, event) pairs. *)
Section trace.
Context {Sink : Type}.
Abbreviation TraceEventFn := (TraceEvent → list (Sink * TraceEvent)).
Record Hooks := mkHooks { is_category_enabled_fn : option (Z → bool); trace_event_fn : option TraceEventFn }.

Definition set_is_category_enabled_fn (f : option (Z → bool)) (h : Hooks) : Hooks := mkHooks f (trace_event_fn h).
Definition set_trace_event_fn (f : option TraceEventFn) (h : Hooks) : Hooks := mkHooks (is_category_enabled_fn h) f.
Definition is_category_enabled (h : Hooks) (category : Z) : bool := from_option (λ f, f category) false (is_category_enabled_fn h).

Definition trace_event (h : Hooks) (category : Z) (name : string) (fields : list (string * TraceValue)) : list (Sink * TraceEvent) :=
  if negb (is_category_enabled h category) then []
  else
    let event := mkTraceEvent category name (map (λ '(k, v), mkTraceField k v) fields) in
    match trace_event_fn h with Some sink => sink event | None => [] end.

(** [tracing] is the sink of the tracing library. *)
Definition enable_tracing_events (tracing : Sink) (h : Hooks) : Hooks :=
  let enabled := match is_category_enabled_fn h with None => Some (λ _, true) | f => f end in
  let tracing_sink event := [(tracing, event)] in
  match trace_event_fn h with
  | None => mkHooks enabled (Some tracing_sink)
  | Some prev => mkHooks enabled (Some (λ event, prev event ++ tracing_sink event))
  end.

(** Enabling tracing adds the tracing library after the sink that was registered, keeps a category filter that was set and
    otherwise enables every category: an event of an enabled category reaches the old sink first and then the library,
    an event of a disabled category reaches nobody. *)
Theorem enable_tracing_events_correct tracing h category name fields :
  let enabled := match is_category_enabled_fn h with Some f => f category | None => true end in
  let event := mkTraceEvent category name (map (λ '(k, v), mkTraceField k v) fields) in
  trace_event (enable_tracing_events tracing h) category name fields =
    if enabled then match trace_event_fn h with Some sink => sink event | None => [] end ++ [(tracing, event)] else [].
Proof.
  cbn. unfold trace_event, is_category_enabled, enable_tracing_events. destruct h as [[f|] [sink|]]; cbn; try done; by destruct (f category).
Qed.
End trace.

(** A flag that is a single bit is there exactly if it was before or was just added. *)
Lemma has_with_flag self added i : 0 ≤ i → has (with_flag self added) (mkFlags (Z.shiftl 1 i)) =
  has self (mkFlags (Z.shiftl 1 i)) || has added (mkFlags (Z.shiftl 1 i)).
Proof.
  intros Hi. assert (∀ a, has (mkFlags a) (mkFlags (Z.shiftl 1 i)) = Z.testbit a i) as Hbit.
  { intros a. unfold has. cbn. rewrite Z.shiftl_1_l. destruct (Z.testbit a i) eqn:Et.
    - apply negb_true_iff, Z.eqb_neq. intros H0. apply (f_equal (λ x, Z.testbit x i)) in H0.
      by rewrite Z.land_spec, Et, Z.pow2_bits_true, Z.bits_0 in H0 by done.
    - apply negb_false_iff, Z.eqb_eq. apply Z.bits_inj'. intros n Hn. rewrite Z.land_spec, Z.bits_0.
      destruct (decide (i = n)) as [->|]; [by rewrite Et|]. rewrite Z.pow2_bits_false by lia. by rewrite andb_false_r. }
  destruct self as [a], added as [b]. unfold with_flag. cbn [flags]. rewrite !Hbit. apply Z.lor_spec.
Qed.
